(* ===== verification/_CoqProject ===== *)
-Q . S2P
Prelude.v
Settings.v
Identifiers.v
Statements.v
Text.v
Float64.v
Base64.v
Record.v
RowPayload.v
WalFile.v
Wal.v
WalManager.v
WalManagerFacts.v
WalDurability.v
Instances.v
WalFaults.v
LiveRows.v
Replay.v
WalOps.v
Schema.v
RowCodec.v
FieldValue.v
Like.v
Predicates.v
LikeFacts.v
TpHashSet.v
Conditions.v
Joins.v
JoinFacts.v
Pushdown.v
SelectPlan.v
SelectExec.v
SelectFacts.v
SortFacts.v
Windows.v
Postings.v
IndexKey.v
DatabaseIndex.v
RuntimeIndex.v
FullScan.v
WindowFacts.v
RankFacts.v
RuntimeIndexFacts.v
RuntimeIndexRange.v
Indexors.v
IndexStore.v
IndexTracking.v
AlterTable.v
Migration.v
Coordinator.v
Entities.v
Security.v
Credentials.v
Catalog.v
CatalogFacts.v
CatalogReplay.v
CatalogFile.v
DdlText.v
Ddl.v
DdlFacts.v
DefinitionFacts.v
DdlIndexFacts.v
DatabaseFacts.v
Witnesses.v
SchemaWitnesses.v
ValueWitnesses.v
LikeWitnesses.v
SelectWitnesses.v
IndexWitnesses.v
CatalogWitnesses.v
DdlWitnesses.v
