(* ===== verification/Prelude.v ===== *)
(** * DistDB: the write-ahead log, transactions, rows, indexes, queries and the catalog

    A development about the core of the DistDB server.  Source paths are relative to [src/].

    ** The program

    Every table of a database is a stream of the write-ahead log.  The connector receives SQL; the
    session's transaction is kept by a coordinator thread, which stages its queries and holds the
    table locks.  Executing a statement turns row changes into records of the table's stream; a
    transaction puts its records into a write group, named by the clock, and ends the group with a
    commit or an abort record in every stream it touched.  The WAL manager owns the streams: one
    worker per stream merges records into the stream in memory and appends frames to the stream's
    file or rewrites it.  A record's payload is compressed and, for encrypted tables, encrypted on
    its way to the file.  Reading a table replays its stream into live rows.  A row is stored as the
    values of its fields in the order of the table's schema, converted to the types of the columns;
    ALTER TABLE edits the schema and migrates the stored rows.  Runtime indexes map the keys of rows to
    the ids of their records; they are rebuilt at start and follow the row mutations.  The catalog of
    a database holds its tables, views, triggers and procedures; every change of it is also a record
    of the database's own stream, and a restart rebuilds the catalog by replaying that stream.
    A query is planned from its text; its relations are read, filtered by the clauses of the condition
    that were pushed to them and joined one after the other; the rows that match the condition are
    projected, sorted and cut, and window functions are computed over them.
    Accounts have credentials and an access entry per database.  Replication ships records as base64
    frames and merges them into the peers' streams.

    ** The files

    - [Prelude]: results and the [?] operator, bytes, machine integers, strings as lists of
      characters, generic list lemmas, the hint database [distdb].
    - [Settings] (common/src/settings.rs): settings read from an abstract environment.
    - [Identifiers] (common/src/helpers/utils.rs): the canonical form of names.
    - [Text], [Float64]: what the code uses of the standard library on text and on doubles: UTF-8,
      trimming, integers and floating-point numbers as decimal text; doubles are the [spec_float] of
      the standard library.
    - [Base64] (common/src/helpers/base64.rs).
    - [Record] (serverlib/src/engine/database/transaction/record.rs, kind.rs): records, the payload
      cache, payload transform chains, replication frames.  The bincode crate is the class
      [Bincode] with its round-trip law.
    - [RowPayload] (serverlib/src/engine/database/row_payload.rs, first half): encrypted envelopes
      and the encryption transforms.  OpenSSL is the class [RowCrypto] with its laws.
    - [WalFile] (common/src/helpers/format.rs and the storage half of serverlib/src/engine/wal.rs):
      file header, storage encoding of a record, frames, the two loaders, the rewritten file.  The
      flate2 crate is the class [Zlib] with its laws.
    - [Wal] (wal.rs): the algorithms on the records of a stream: ordered merge, batch merge,
      compaction, realignment, write timestamps.  [slice::binary_search_by_key], which leaves open
      which of several equal keys it finds, is the class [BinarySearch] with its contract.
    - [WalManager] (wal.rs): the manager, its workers, caches, high-water marks and files.  The
      state carries the disk, a fault oracle with the outcome of every system call (failed and
      partial writes included) and a nonce oracle.  Requests are synchronous in the code, so
      concurrent callers interleave at operations.
    - [WalManagerFacts], [WalDurability], [WalFaults]: theorems about the manager over sequences of
      operations: under any faults, without faults, and at single faults.
    - [LiveRows] (serverlib/src/engine/execution/access.rs): visibility, the serial, the parallel and
      the bounded replay.  The row decoder of the schema is a parameter.
    - [Replay]: how the live rows change when the log grows.
    - [WalOps] (server/src/core/mappings/query/core/wal_ops.rs, mutation_ops.rs): row writes, batches,
      blocks, commit and abort of write groups.  Indexes and caches derived from the rows are the
      class [DerivedState], about which nothing is assumed.
    - [Schema] (serverlib/src/engine/database/table/schema_def.rs, field_def.rs, common/src/schema/):
      field kinds, field definitions, a table schema with its name index, edits and validation.
    - [RowCodec] (row_payload.rs, second half): ordinal rows, the older formats, the cache of schema
      orderings, the decoders and the encoder.  The hasher is the class [SchemaHasher]; conversion
      and comparison of values are the interface [FieldValues].
    - [FieldValue] (serverlib/src/engine/database/schema/migration/conversion.rs): stored values:
      conversion, rendering and comparison; it implements [FieldValues].  The uuid and chrono crates
      are the classes [UuidText], with its laws, and [Chrono].
    - [Like], [Predicates], [LikeFacts] (serverlib/src/engine/sql/predicates.rs): what a LIKE pattern
      matches, the operator with its literal segments, fast paths and scan, and the comparison
      operators.
    - [TpHashSet] (common/src/helpers/tphashset.rs): the text-keyed set that is searched by patterns.
    - [Conditions] (serverlib/src/engine/execution/runtime.rs, sql/types.rs): conditions over rows and
      joined rows.  Subqueries and expressions are parameters; the regex crate is the class
      [RegexEngine].
    - [Joins], [JoinFacts] (execution/join.rs): the joins, and their comparison with nested loops.
      Access to the tables is the record [RelationAccess], the iteration order of a set of keys the
      class [KeySetOrder] with its law.
    - [Pushdown] (sql/select_plan.rs, execution/select.rs): clauses of the condition assigned to
      relations, and the condition as the executors evaluate it.
    - [SelectPlan], [SortFacts] (execution/commands/select/post_processing.rs, row_windowing.rs):
      plans and what is done with collected rows.  [slice::sort_by], which may panic when the
      comparison is not an order, is the class [SortBy] with its laws.  A panic is [None].
    - [SelectExec], [SelectFacts] (execution/commands/select/join.rs, execute.rs,
      control_flow/case_when.rs): the executors over one table, joined tables and no table.  The
      evaluation of functions is a parameter, what a table delivers is the record [RelationSource].
    - [Windows], [WindowFacts], [RankFacts] (execution/commands/select/window.rs): window functions.
      The iteration order of a map of partitions is the class [PartitionOrder] with its law.
    - [FullScan] (execution/access.rs): reading a table that no index narrows, as a [RelationSource].
    - [AlterTable], [Migration] (server/src/core/mappings/query/core/ddl_ops.rs,
      serverlib/src/engine/database/schema/): schema edits of ALTER TABLE, the migration of stored
      rows through a temporary image, with the fault oracle of the manager.
    - [Postings], [IndexKey], [DatabaseIndex], [RuntimeIndex] (serverlib/src/engine/database/
      databaseindex.rs and indexing/): the references of one key, the encoding of keys, index
      definitions, the state of one index.  The layout that bincode documents for vectors of byte
      vectors is the class [ByteVecLayout].  A panic is the result [None].
    - [RuntimeIndexFacts], [RuntimeIndexRange]: one index as a map of sets, range scans and probes.
    - [Indexors] (indexing/runtime_index_storage.rs, runtime_indexors.rs): the storage trait as a
      class with laws, and the indexors that implement it.
    - [IndexStore], [IndexTracking] (indexing/runtime_index.rs): all indexes of all tables, and their
      agreement with the live rows.
    - [Statements] (serverlib/src/engine/sql/types.rs): parsed statements.
    - [Coordinator] (server/src/core/transaction_coordinator.rs): the command loop.  The SQL parser is
      a parameter.
    - [Entities] (serverlib/src/engine/database/entity/, table/mod.rs, view.rs, olap_view.rs,
      trigger.rs, stored_procedure.rs, relationship.rs, status.rs, schema/change_state.rs and the
      payload files): the objects of a database, their states and the payloads of their changes.
      The iteration order of a [HashMap] is the class [HashOrder] with its law.
    - [Catalog] (serverlib/src/engine/database/catalog.rs, schema/change_tx.rs): the catalog over a
      store of shared entities, in a state and error monad.
    - [CatalogFacts], [CatalogReplay] (catalog.rs, transaction/payload.rs): the invariant of the
      catalog, schema changes, and the replay of a database's stream.
    - [CatalogFile] (catalog.rs): saving and loading a catalog, creating a database.
    - [DdlText], [Ddl] (server/src/core/mappings/query/core/ddl_ops.rs, query/catalogs.rs,
      serverlib/src/engine/execution/commands/scoped_table.rs): every statement that creates, changes
      or drops an object, over the catalogs, the log, the indexes and the files of a node.  The SQL
      parser is the class [SqlFrontEnd]; what the handlers parse by hand is in [DdlText].
    - [DdlFacts], [DefinitionFacts], [DdlIndexFacts], [DatabaseFacts]: what these statements leave in
      the log and the indexes, and what a restart makes of it.
    - [Security], [Credentials] (serverlib/src/engine/security.rs, common/src/helpers/password.rs,
      aes.rs): privileges and access entries; passwords, with OpenSSL as the class [OpenSsl].
    - [Instances]: concrete instances of the classes, which show that their laws can hold;
      [Witnesses], [SchemaWitnesses], [ValueWitnesses], [LikeWitnesses], [SelectWitnesses],
      [IndexWitnesses], [CatalogWitnesses], [DdlWitnesses]: the theorems with hypotheses, applied at concrete inputs.

    ** What the theorems show

    - Durability: [wal_durable] is a refinement of the manager to one list of records per stream,
      restarts included; [torn_append_replays_prefix] and [ordered_append_keeps_old_records] cover
      crashes and faults of appends; [loaders_agree], [encrypted_storage_roundtrip],
      [at_rest_roundtrip], [wal_frame_roundtrip] and [b64_roundtrip] the formats.
    - Streams: [append_stable_insert], [merge_converges], [batch_append_sequential],
      [compaction_keeps_definitions], [realignment_remaps].
    - Transactions: [has_write_after_misses_nothing] (conflict detection), [table_lock_is_exclusive],
      [commit_and_rollback_release_all_locks], [commit_takes_accepted_queries],
      [commit_publishes_group], [abort_hides_group], [hidden_group_leaves_no_trace] (atomicity).
    - Rows: [replay_returns_live_rows], [parallel_replay_is_serial], [limited_replay_is_suffix],
      [insert_extends_live_rows], [delete_removes_row].
    - Schemas and values: [schema_edits_refine_map], [row_payload_roundtrip],
      [partial_decoders_agree], [schema_cache_transparent], [old_rows_survive_alter],
      [migration_replaces_or_keeps_file], [integer_conversion_exact], [stored_integers_compare].
    - Patterns: [like_matches_decides] (the scan ends and is right), [like_operator] (so is the
      operator, one form of patterns excepted: [like_misses_later_suffix]), [tphashset_refines_map],
      [search_like_exact].
    - Queries: [join_is_nested_loop] (the join through the index of the join field is the join),
      [pushdown_keeps_result] (pushing conditions does not change results), [limit_offset_select],
      [distinct_order_by], [results_well_formed] (every row has a value for each column),
      [window_functions_return] (no panic, no endless reference), [ranks_count_rows],
      [ntile_buckets_even].
    - Indexes: [index_refines_multimap] (an index is a map from keys to sets of references),
      [index_tracks_live_rows] and [bootstrap_rebuild_tracks] (the indexes of a table hold the keys
      of its live rows), [batch_record_is_sequential], [sortable_keys_ordered], [integer_range_scan],
      [paged_probe_exact], [storage_insert_remove] (what any indexor promises).
    - Catalog and accounts: [catalog_lookup_invariant] (every operation keeps the catalog well formed
      and lookups unambiguous), [schema_change_completes], [merged_indexes], [access_refines] (access
      decisions are those of the set of grants), [privilege_names], [password_checks],
      [catalog_file_roundtrip].
    - Definition statements: [created_table_replays] and [created_definition_replays] (an acknowledged
      CREATE is recovered from the log, whatever system calls failed on the way).
    - Behaviour that loses or exposes data: [failed_rewrite_empties_file],
      [failed_compaction_changes_memory], [partial_write_retry_loses_record],
      [realignment_exposes_hidden_rows], [drop_then_add_misreads], [migration_misses_wal_file],
      [migration_revives_deleted_rows], [text_is_not_preserved], [comparison_not_transitive],
      [restart_folds_keys], [first_alter_lost], [composite_index_lost], [created_index_misses_old_rows],
      [create_database_replaces], [dropped_table_returns], [mixed_case_view_half_made].
    - Queries that fail or return other rows than they should: [where_limit_misses_rows],
      [pages_repeat], [pushdown_right_join_adds_rows], [outer_join_drops_rows], [or_join_misses_rows],
      [like_join_is_empty], [aliased_order_by_fails], [aliased_join_order_by_panics],
      [order_by_values_cycle], [following_frame_keeps_last_row].

    ** Conventions

    A [u64] or [usize] is a [Z]; saturating arithmetic and wrap-around are written out where the code
    can reach the limit, and theorems say when it is not reached.  Loops that are not structural
    have fuel: the length of the input for frames, chunks and identifiers (every round takes at
    least one element), the product of the lengths of text and pattern for LIKE (every round moves on
    in the pattern or moves the point of return), one more than the number of named windows for
    references between them (a name is followed once), 20 digits for a [u64] in decimal.  Texts of
    formatted errors are represented by their constant part.

    ** What is not modelled

    Poisoned locks, panics of worker threads and closed channels; logging and timing; the SQL parser,
    a third-party crate, and the planners that walk its syntax trees; the cost-based choice of access
    paths and join orders and the scans through indexes, so that theorems about queries speak of the
    rows that the access to a table delivers; EXPLAIN, a report; inbuilt functions, routines and triggers, OLAP views; the
    dispatch of statements and the isolation of sessions; snapshots of the runtime indexes, a cache;
    the network side (peers, TLS, web sockets, the console and client programs).  These parts do not
    take part in the guarantees above, except through the parameters named here. *)

From Stdlib Require Import ZArith NArith Lia Strings.Byte.
From stdpp Require Import base list gmap strings sorting.

(** ** Notation scope of the development *)

Declare Scope distdb_scope.
Delimit Scope distdb_scope with distdb.
Global Open Scope Z_scope.
Global Open Scope distdb_scope.

(** ** Rust's [Result] *)

Inductive result (A E : Type) : Type :=
| Ok (a : A)
| Err (e : E).
Arguments Ok {A E} a.
Arguments Err {A E} e.

(** The [?] operator: stop at the first error. *)
Notation "'let?' x ':=' e 'in' k" :=
  (match e with Ok x => k | Err err => Err err end)
  (at level 10, x pattern, e at level 100, k at level 200) : distdb_scope.

Definition is_ok {A E} (r : result A E) : bool :=
  match r with Ok _ => true | Err _ => false end.

(** [Result::ok]. *)
Definition ok {A E} (r : result A E) : option A :=
  match r with Ok a => Some a | Err _ => None end.

Definition map_err {A E F} (f : E → F) (r : result A E) : result A F :=
  match r with Ok a => Ok a | Err e => Err (f e) end.

(** ** Automation *)

Create HintDb distdb.

(** ** Bytes *)

Abbreviation byte := Byte.byte.
Abbreviation bytes := (list Byte.byte).

(** [u8] read as an integer, and the truncating cast [as u8]. *)
Definition u8_Z (b : byte) : Z := Z.of_N (Byte.to_N b).

Definition Z_u8 (z : Z) : byte :=
  match Byte.of_N (Z.to_N (z mod 256)) with Some b => b | None => x00 end.

#[global] Instance byte_eq_decision : EqDecision byte := Byte.byte_eq_dec.

#[global] Program Instance byte_countable : Countable byte :=
  inj_countable Byte.to_N Byte.of_N _.
Next Obligation. intros b. apply Byte.of_to_N. Qed.

Lemma u8_Z_bounds b : 0 ≤ u8_Z b < 256.
Proof. unfold u8_Z. pose proof (Byte.to_N_bounded b). lia. Qed.

Lemma u8_Z_inj a b : u8_Z a = u8_Z b → a = b.
Proof.
  unfold u8_Z. intros H. apply N2Z.inj in H.
  assert (Some a = Some b) as E by (rewrite <- (Byte.of_to_N a), <- (Byte.of_to_N b); congruence).
  congruence.
Qed.

Lemma Z_u8_Z b : Z_u8 (u8_Z b) = b.
Proof.
  unfold Z_u8. pose proof (u8_Z_bounds b) as Hb. rewrite Z.mod_small by exact Hb.
  unfold u8_Z. rewrite N2Z.id, Byte.of_to_N. reflexivity.
Qed.

Lemma u8_Z_u8 z : u8_Z (Z_u8 z) = z mod 256.
Proof.
  unfold Z_u8. pose proof (Z.mod_pos_bound z 256 ltac:(lia)) as Hb.
  destruct (Byte.of_N (Z.to_N (z mod 256))) as [b|] eqn:E.
  - apply Byte.to_of_N in E. unfold u8_Z. rewrite E. lia.
  - apply Byte.of_N_None_iff in E. lia.
Qed.

#[export] Hint Resolve u8_Z_bounds : distdb.

(** ** Machine integers *)

Definition u64_max : Z := 18446744073709551615.
Definition usize_max : Z := u64_max.

(** [u64] values. *)
Definition is_u64 (z : Z) : Prop := 0 ≤ z ≤ u64_max.

Definition saturating_add (a b : Z) : Z := Z.min (a + b) u64_max.
Definition saturating_sub (a b : Z) : Z := Z.max (a - b) 0.

(** [to_le_bytes] and [from_le_bytes] on [n] bytes. *)
Fixpoint to_le_bytes (n : nat) (z : Z) : bytes :=
  match n with
  | O => []
  | S n => Z_u8 z :: to_le_bytes n (z / 256)
  end.

Fixpoint from_le_bytes (bs : bytes) : Z :=
  match bs with
  | [] => 0
  | b :: bs => u8_Z b + 256 * from_le_bytes bs
  end.

Lemma length_to_le_bytes n z : length (to_le_bytes n z) = n.
Proof. revert z. induction n as [|n IH]; intros z; simpl; [|rewrite IH]; reflexivity. Qed.

Lemma from_to_le_bytes n z :
  0 ≤ z < 256 ^ Z.of_nat n → from_le_bytes (to_le_bytes n z) = z.
Proof.
  revert z. induction n as [|n IH]; intros z Hz.
  - simpl in *. lia.
  - rewrite Nat2Z.inj_succ, Z.pow_succ_r in Hz by lia.
    simpl. rewrite u8_Z_u8, IH.
    + pose proof (Z.div_mod z 256 ltac:(lia)). lia.
    + split; [apply Z.div_pos; lia|]. apply Z.div_lt_upper_bound; lia.
Qed.

Lemma from_le_bytes_bounds bs : 0 ≤ from_le_bytes bs < 256 ^ Z.of_nat (length bs).
Proof.
  induction bs as [|b bs IH]; [simpl; lia|].
  change (length (b :: bs)) with (S (length bs)).
  rewrite Nat2Z.inj_succ, Z.pow_succ_r by lia. simpl.
  pose proof (u8_Z_bounds b). lia.
Qed.

(** ** Strings

    A Rust [str] is modelled as the list of its [char]s, each a Unicode scalar value.  Byte-wise
    comparison of UTF-8 strings is comparison of these lists, so ordering and equality agree. *)

Abbreviation char := Z (only parsing).
Abbreviation ustr := (list Z).

(** A string literal of the source. *)
Definition lit (s : string) : ustr := Z.of_N ∘ Ascii.N_of_ascii <$> String.list_ascii_of_string s.

(** [char::is_whitespace]: the Unicode White_Space property. *)
Definition is_whitespace (c : char) : bool :=
  ((9 <=? c) && (c <=? 13)) || (c =? 32) || (c =? 133) || (c =? 160) || (c =? 5760)
  || ((8192 <=? c) && (c <=? 8202)) || (c =? 8232) || (c =? 8233) || (c =? 8239)
  || (c =? 8287) || (c =? 12288).

Fixpoint trim_start_matches (p : char → bool) (s : ustr) : ustr :=
  match s with
  | [] => []
  | c :: s' => if p c then trim_start_matches p s' else s
  end.

Definition trim_end_matches (p : char → bool) (s : ustr) : ustr :=
  reverse (trim_start_matches p (reverse s)).

(** [str::trim]. *)
Definition trim (s : ustr) : ustr :=
  trim_end_matches is_whitespace (trim_start_matches is_whitespace s).

Definition char_to_ascii_lowercase (c : char) : char :=
  if (65 <=? c) && (c <=? 90) then c + 32 else c.

Definition to_ascii_lowercase (s : ustr) : ustr := char_to_ascii_lowercase <$> s.

Definition char_to_ascii_uppercase (c : char) : char :=
  if (97 <=? c) && (c <=? 122) then c - 32 else c.

Definition to_ascii_uppercase (s : ustr) : ustr := char_to_ascii_uppercase <$> s.

Definition str_eqb (a b : ustr) : bool := bool_decide (a = b).

Definition is_empty {A} (l : list A) : bool :=
  match l with [] => true | _ => false end.

(** [Option::is_none]. *)
Definition is_none {A} (o : option A) : bool := match o with None => true | Some _ => false end.

(** [Option<T> == Option<T>] and the like on decidable types. *)
Definition eqb {A} `{EqDecision A} (a b : A) : bool := bool_decide (a = b).

Lemma eqb_true {A} `{EqDecision A} (a b : A) : eqb a b = true ↔ a = b.
Proof. apply bool_decide_eq_true. Qed.

Lemma eqb_false {A} `{EqDecision A} (a b : A) : eqb a b = false ↔ a ≠ b.
Proof. apply bool_decide_eq_false. Qed.

Lemma eqb_eq {A} `{EqDecision A} (a b : A) : eqb a b = true → a = b.
Proof. apply eqb_true. Qed.

Lemma eqb_refl {A} `{EqDecision A} (a : A) : eqb a a = true.
Proof. by apply eqb_true. Qed.

(** [str::starts_with]. *)
Fixpoint starts_with (s prefix : ustr) {struct prefix} : bool :=
  match prefix, s with
  | [], _ => true
  | p :: prefix', c :: s' => (p =? c) && starts_with s' prefix'
  | _ :: _, [] => false
  end.

(** UTF-8 encoding of one scalar value and of a string ([as_bytes], [into_bytes]). *)
Definition utf8_encode_char (c : char) : bytes :=
  if c <? 128 then [Z_u8 c]
  else if c <? 2048 then [Z_u8 (192 + c / 64); Z_u8 (128 + c mod 64)]
  else if c <? 65536 then
    [Z_u8 (224 + c / 4096); Z_u8 (128 + c / 64 mod 64); Z_u8 (128 + c mod 64)]
  else
    [Z_u8 (240 + c / 262144); Z_u8 (128 + c / 4096 mod 64); Z_u8 (128 + c / 64 mod 64);
     Z_u8 (128 + c mod 64)].

Definition utf8_encode (s : ustr) : bytes := s ≫= utf8_encode_char.

(** Decimal rendering of an unsigned integer ([Display]); 20 digits hold every [u64]. *)
Fixpoint decimal_digits (fuel : nat) (z : Z) : ustr :=
  match fuel with
  | O => []
  | S fuel => if z <? 10 then [48 + z] else decimal_digits fuel (z / 10) ++ [48 + z mod 10]
  end.

Definition show_u64 (z : Z) : ustr := decimal_digits 20 z.

Lemma starts_with_app prefix s : starts_with (prefix ++ s) prefix = true.
Proof. induction prefix as [|c prefix IH]; simpl; [reflexivity|]. rewrite Z.eqb_refl. exact IH. Qed.

(** ** Lists *)

Section filters.
Context {A : Type} (P : A → Prop) `{∀ x, Decision (P x)}.

Lemma filter_all l : Forall P l → filter P l = l.
Proof. induction 1 as [|x l Hx _ IH]; [done|]. rewrite filter_cons_True, IH by done. done. Qed.

Lemma filter_none l : Forall (λ x, ¬ P x) l → filter P l = [].
Proof. induction 1 as [|x l Hx _ IH]; [done|]. rewrite filter_cons_False by done. done. Qed.

Lemma filter_ext_in (Q : A → Prop) `{∀ x, Decision (Q x)} (l : list A) :
  (∀ x, x ∈ l → P x ↔ Q x) → filter P l = filter Q l.
Proof.
  induction l as [|x l IH]; intros Heq; [done|]. rewrite !filter_cons, IH by set_solver.
  destruct (decide (P x)), (decide (Q x)); set_solver.
Qed.
End filters.

Lemma nodup_fmap_inj {A B} (f : A → B) (l : list A) x y : NoDup (f <$> l) → x ∈ l → y ∈ l → f x = f y → x = y.
Proof.
  intros Hnd [i Hi]%list_elem_of_lookup [j Hj]%list_elem_of_lookup E. cut (i = j); [intros; simplify_eq; done|].
  eapply NoDup_lookup; [exact Hnd|by rewrite list_lookup_fmap, Hi|by rewrite list_lookup_fmap, Hj, E].
Qed.

Lemma filter_fmap {A B} (f : A → B) (P : B → Prop) `{∀ x, Decision (P x)} (l : list A) :
  filter P (f <$> l) = f <$> filter (λ x, P (f x)) l.
Proof. induction l as [|x l IH]; [done|]. csimpl. rewrite !filter_cons, IH. by destruct (decide (P (f x))). Qed.

Lemma omap_cons_eq {A B} (f : A → option B) x l :
  omap f (x :: l) = match f x with Some y => y :: omap f l | None => omap f l end.
Proof. reflexivity. Qed.

Lemma omap_imap {A B C} (f : B → option C) (f' : A → option C) (g : nat → A → B) (l : list A) :
  (∀ i x, f (g i x) = f' x) → omap f (imap g l) = omap f' l.
Proof.
  revert g. induction l as [|x l IH]; intros g Hfg; [done|]. rewrite imap_cons, !omap_cons_eq, Hfg.
  rewrite (IH (g ∘ S)) by (intros; apply Hfg). done.
Qed.

Lemma omap_filter {A B} (f : A → option B) (P : A → Prop) `{∀ x, Decision (P x)} (l : list A) :
  (∀ x, ¬ P x → f x = None) → omap f (filter P l) = omap f l.
Proof.
  intros Hf. induction l as [|x l IH]; [done|]. rewrite filter_cons. destruct (decide (P x)) as [Hx|Hx];
    rewrite ?omap_cons_eq, IH, ?(Hf x Hx); done.
Qed.
