(* ===== verification/Settings.v ===== *)
(** * Environment settings

    Models the readers of [common/src/settings.rs].  The process environment is a parameter:
    [env_var] is [std::env::var(name).ok()]. *)

From Stdlib Require Import ZArith Lia.
From stdpp Require Import base list strings.
From S2P Require Import Prelude.

Class Env := { env_var : ustr → option ustr }.

Definition WAL_MAX_FRAME_BYTES : ustr := lit "DISTDB_WAL_MAX_FRAME_BYTES".
Definition WAL_SYNC_ON_APPEND : ustr := lit "DISTDB_WAL_SYNC_ON_APPEND".

Definition decimal_digit (c : char) : option Z :=
  if (48 <=? c) && (c <=? 57) then Some (c - 48) else None.

(** The digit loop of [str::parse] for [usize] and [u64]: every step is checked for overflow. *)
Fixpoint parse_digits (acc : Z) (s : ustr) : option Z :=
  match s with
  | [] => Some acc
  | c :: s =>
      d ← decimal_digit c;
      let v := acc * 10 + d in
      if v <=? usize_max then parse_digits v s else None
  end.

Definition parse_usize (s : ustr) : option Z :=
  match s with
  | [] => None
  | c :: rest =>
      if c =? 43 then (if is_empty rest then None else parse_digits 0 rest) else parse_digits 0 s
  end.

Section settings.
Context `{Env}.

Definition flag (name : ustr) (dflt : bool) : bool :=
  match env_var name with
  | None => dflt
  | Some value =>
      let v := to_ascii_lowercase (trim value) in
      str_eqb v (lit "1") || str_eqb v (lit "true") || str_eqb v (lit "yes") || str_eqb v (lit "on")
  end.

Definition positive_usize (name : ustr) (dflt : Z) : Z :=
  match env_var name ≫= (λ value, parse_usize (trim value)) with
  | Some v => if 0 <? v then v else dflt
  | None => dflt
  end.

Definition usize_allowing_zero (name : ustr) (dflt : Z) : Z :=
  default dflt (env_var name ≫= (λ value, parse_usize (trim value))).

Lemma parse_digits_bounds acc s v :
  0 ≤ acc ≤ usize_max → parse_digits acc s = Some v → 0 ≤ v ≤ usize_max.
Proof.
  revert acc. induction s as [|c s IH]; intros acc Hacc; simpl; [intros [= <-]; lia|].
  unfold decimal_digit. destruct ((48 <=? c) && (c <=? 57)) eqn:Hc; [|discriminate]. simpl.
  destruct (acc * 10 + (c - 48) <=? usize_max) eqn:Hle; [|discriminate].
  apply IH. lia.
Qed.

Lemma parse_usize_bounds s v : parse_usize s = Some v → 0 ≤ v ≤ usize_max.
Proof.
  unfold parse_usize. destruct s as [|c rest]; [discriminate|].
  assert (0 ≤ 0 ≤ usize_max) as H0 by (unfold usize_max, u64_max; lia).
  destruct (c =? 43); [destruct (is_empty rest); [discriminate|]|]; intros Hp;
    exact (parse_digits_bounds _ _ _ H0 Hp).
Qed.

(** A count setting is always positive, whatever the environment holds. *)
Lemma positive_usize_bounds name dflt :
  0 < dflt ≤ usize_max → 0 < positive_usize name dflt ≤ usize_max.
Proof.
  intros Hd. unfold positive_usize. destruct (env_var name ≫= _) as [v|] eqn:E; [|lia].
  destruct (0 <? v) eqn:Hv; [|lia].
  apply bind_Some in E as (s & _ & E). apply parse_usize_bounds in E. lia.
Qed.
End settings.
