(* ===== verification/Identifiers.v ===== *)
(** * Identifiers

    Models [normalize_identifier] of [common/src/helpers/utils.rs], the canonical form of table,
    database and session names across the server. *)

From Stdlib Require Import ZArith Lia.
From stdpp Require Import base list strings.
From S2P Require Import Prelude.

(** [normalized.starts_with(q) && normalized.ends_with(q)]. *)
Definition quoted_by (q : char) (s : ustr) : bool :=
  eqb (head s) (Some q) && eqb (last s) (Some q).

(** [normalized.len() >= 2], the length in bytes. *)
Definition byte_len (s : ustr) : nat := length (utf8_encode s).

(** The [while] loop; every round takes two characters, so the length is fuel enough. *)
Fixpoint strip_quotes (fuel : nat) (normalized : ustr) : ustr :=
  match fuel with
  | O => normalized
  | S fuel =>
      if Nat.leb 2 (byte_len normalized) then
        if quoted_by 96 normalized || quoted_by 34 normalized || quoted_by 39 normalized
        then strip_quotes fuel (trim (take (length normalized - 2) (drop 1 normalized)))
        else normalized
      else normalized
  end.

Definition normalize_identifier (value : ustr) : ustr :=
  to_ascii_lowercase (strip_quotes (length value) (trim value)).

(** ** Trimmed strings *)

Definition ends_with_text (s : ustr) : Prop :=
  (∀ c, head s = Some c → is_whitespace c = false) ∧ (∀ c, last s = Some c → is_whitespace c = false).

Lemma trim_start_head p s c : head (trim_start_matches p s) = Some c → p c = false.
Proof. induction s as [|x s IH]; simpl; [done|]. destruct (p x) eqn:E; [done|]. by intros [= <-]. Qed.

Lemma trim_start_last p s c : last (trim_start_matches p s) = Some c → last s = Some c.
Proof.
  induction s as [|x s IH]; [done|]. cbn [trim_start_matches]. destruct (p x); [|done].
  intros Hl. specialize (IH Hl). rewrite last_cons, IH. done.
Qed.

Lemma trim_start_id p s : (∀ c, head s = Some c → p c = false) → trim_start_matches p s = s.
Proof. destruct s as [|x s]; intros Hp; simpl; [done|]. by rewrite (Hp x eq_refl). Qed.

Lemma length_trim_start p s : (length (trim_start_matches p s) ≤ length s)%nat.
Proof. induction s as [|x s IH]; simpl; [lia|]. destruct (p x); simpl; lia. Qed.

Lemma length_trim s : (length (trim s) ≤ length s)%nat.
Proof.
  unfold trim, trim_end_matches. rewrite length_reverse. etransitivity; [apply length_trim_start|].
  rewrite length_reverse. apply length_trim_start.
Qed.

Lemma trim_ends s : ends_with_text (trim s).
Proof.
  unfold trim, trim_end_matches. set (y := trim_start_matches is_whitespace s). split; intros c.
  - rewrite head_reverse. intros Hl%trim_start_last. rewrite last_reverse in Hl. by eapply trim_start_head.
  - rewrite last_reverse. apply trim_start_head.
Qed.

Lemma trim_id s : ends_with_text s → trim s = s.
Proof.
  intros [Hh Hl]. unfold trim, trim_end_matches. rewrite (trim_start_id _ s Hh), trim_start_id.
  - apply reverse_involutive.
  - intros c. rewrite head_reverse. apply Hl.
Qed.

(** ** Lower case *)

Lemma lowercase_whitespace c : is_whitespace (char_to_ascii_lowercase c) = is_whitespace c.
Proof.
  unfold char_to_ascii_lowercase. destruct ((65 <=? c) && (c <=? 90)) eqn:E; [|done].
  apply andb_true_iff in E as [?%Z.leb_le ?%Z.leb_le]. unfold is_whitespace.
  repeat match goal with |- context [?a <=? ?b] => destruct (Z.leb_spec a b); try lia end;
  repeat match goal with |- context [?a =? ?b] => destruct (Z.eqb_spec a b); try lia end; done.
Qed.

Lemma lowercase_eqb q c :
  (q = 96 ∨ q = 34 ∨ q = 39) → char_to_ascii_lowercase c = q ↔ c = q.
Proof.
  intros Hq. unfold char_to_ascii_lowercase.
  destruct (Z.leb_spec 65 c), (Z.leb_spec c 90); simpl; lia.
Qed.

Lemma lowercase_idemp c : char_to_ascii_lowercase (char_to_ascii_lowercase c) = char_to_ascii_lowercase c.
Proof.
  unfold char_to_ascii_lowercase. destruct ((65 <=? c) && (c <=? 90)) eqn:E; [|by rewrite E].
  apply andb_true_iff in E as [?%Z.leb_le ?%Z.leb_le].
  destruct (Z.leb_spec 65 (c + 32)), (Z.leb_spec (c + 32) 90); simpl; lia.
Qed.

Lemma lowercase_byte_len s : byte_len (to_ascii_lowercase s) = byte_len s.
Proof.
  unfold byte_len, utf8_encode, to_ascii_lowercase. induction s as [|c s IH]; [done|].
  rewrite fmap_cons, !bind_cons, !length_app, IH. f_equal. unfold char_to_ascii_lowercase.
  destruct ((65 <=? c) && (c <=? 90)) eqn:E; [|done]. apply andb_true_iff in E as [?%Z.leb_le ?%Z.leb_le].
  unfold utf8_encode_char. by destruct (Z.ltb_spec (c + 32) 128), (Z.ltb_spec c 128); try lia.
Qed.

Lemma head_map {A B} (f : A → B) (l : list A) : head (f <$> l) = f <$> head l.
Proof. by destruct l. Qed.

Lemma lowercase_quoted q s :
  (q = 96 ∨ q = 34 ∨ q = 39) → quoted_by q (to_ascii_lowercase s) = quoted_by q s.
Proof.
  intros Hq. unfold quoted_by, to_ascii_lowercase. rewrite head_map, fmap_last.
  assert (∀ o : option Z, eqb (char_to_ascii_lowercase <$> o) (Some q) = eqb o (Some q)) as Ho.
  { intros [c|]; [|done]. unfold eqb. apply bool_decide_ext. simpl.
    pose proof (lowercase_eqb q c Hq). split; intros [=]; f_equal; tauto. }
  by rewrite !Ho.
Qed.

Lemma lowercase_ends s : ends_with_text s → ends_with_text (to_ascii_lowercase s).
Proof.
  intros [Hh Hl]. unfold ends_with_text, to_ascii_lowercase. rewrite head_map, fmap_last.
  split; intros c Hc; [destruct (head s) eqn:E|destruct (last s) eqn:E]; simplify_eq/=;
    rewrite lowercase_whitespace; auto.
Qed.

(** ** Stripped strings *)

Definition wears_quotes (s : ustr) : bool :=
  Nat.leb 2 (byte_len s) && (quoted_by 96 s || quoted_by 34 s || quoted_by 39 s).

Lemma strip_quotes_id fuel s : wears_quotes s = false → strip_quotes fuel s = s.
Proof.
  unfold wears_quotes. destruct fuel; [done|]. cbn [strip_quotes]. destruct (Nat.leb 2 (byte_len s)); [|done].
  simpl. by intros ->.
Qed.

Lemma strip_quotes_done fuel s :
  (length s ≤ fuel)%nat → ends_with_text s →
  wears_quotes (strip_quotes fuel s) = false ∧ ends_with_text (strip_quotes fuel s).
Proof.
  revert s. induction fuel as [|fuel IH]; intros s Hlen Hends.
  { destruct s; [done|simpl in Hlen; lia]. }
  cbn [strip_quotes]. unfold wears_quotes at 1.
  destruct (Nat.leb 2 (byte_len s)) eqn:E2; [|by rewrite E2].
  destruct (quoted_by 96 s || quoted_by 34 s || quoted_by 39 s) eqn:Eq; [|by rewrite E2, Eq].
  apply IH; [|apply trim_ends]. etransitivity; [apply length_trim|]. rewrite length_take, length_drop.
  destruct s; [done|]. simpl in *. lia.
Qed.

(** Normalising an identifier is idempotent: whatever mixture of white space, quotes and case a
    name comes with, its canonical form is its own canonical form, so looking a name up by its
    canonical form does not depend on how often it was normalised on the way. *)
Theorem normalize_identifier_idempotent value :
  normalize_identifier (normalize_identifier value) = normalize_identifier value.
Proof.
  unfold normalize_identifier.
  destruct (strip_quotes_done (length value) (trim value)) as [Hw He]; [apply length_trim|apply trim_ends|].
  set (s := strip_quotes _ _) in *. rewrite (trim_id (to_ascii_lowercase s)) by (by apply lowercase_ends).
  rewrite strip_quotes_id.
  - unfold to_ascii_lowercase. rewrite <- list_fmap_compose. apply list_fmap_ext. intros _ c _. apply lowercase_idemp.
  - unfold wears_quotes. rewrite lowercase_byte_len, !lowercase_quoted by auto. done.
Qed.
