(* ===== verification/Statements.v ===== *)
(** * Parsed statements

    Models the part of [serverlib/src/engine/sql/types.rs] that the transaction coordinator and the definition
    statements read of a parsed statement: its text, its operation and the object it names.  The syntax tree, the
    prepared plan of an INSERT and the privilege it needs are not read by them. *)

From S2P Require Import Prelude.

Inductive SqlOperation :=
| SqlSelect | SqlExportDatabase | SqlUnionQuery | SqlInsert | SqlUpdate | SqlDelete | SqlTruncateTable
| SqlCreateDatabase | SqlCreateTable | SqlCreateView | SqlCreateOlapView | SqlCreateTrigger
| SqlCreateStoredProcedure | SqlCallStoredProcedure | SqlCreateOther | SqlDropDatabase | SqlDropTable
| SqlDropView | SqlDropTrigger | SqlDropStoredProcedure | SqlDropOther | SqlAlterTable | SqlAlterView
| SqlAlterOther | SqlShowSlices.

Record SqlRequest := mkSqlRequest { sql : ustr; operation : SqlOperation; object_name : option ustr }.
