(* ===== verification/Text.v ===== *)
(** * Text and numbers

    What the source uses of [std::str] and of the integer types' text forms: [std::str::from_utf8],
    [str::parse] on the integer types and their [Display], searching and splitting. *)

From Stdlib Require Import ZArith Lia Strings.Byte.
From stdpp Require Import base list strings.
From S2P Require Import Prelude Identifiers.

(** ** UTF-8 *)

(** A Unicode scalar value. *)
Definition is_scalar (c : char) : bool :=
  ((0 <=? c) && (c <? 55296)) || ((57344 <=? c) && (c <? 1114112)).

(** A continuation byte. *)
Definition is_cont (b : byte) : bool := (128 <=? u8_Z b) && (u8_Z b <? 192).

(** [std::str::from_utf8]: the well-formed byte sequences of the Unicode standard. *)
Fixpoint from_utf8 (bs : bytes) : option ustr :=
  match bs with
  | [] => Some []
  | b0 :: r0 =>
      let x := u8_Z b0 in
      if x <? 128 then cons x <$> from_utf8 r0
      else if (194 <=? x) && (x <? 224) then
        match r0 with
        | b1 :: r1 =>
            if is_cont b1 then cons ((x - 192) * 64 + (u8_Z b1 - 128)) <$> from_utf8 r1 else None
        | [] => None
        end
      else if (224 <=? x) && (x <? 240) then
        match r0 with
        | b1 :: b2 :: r2 =>
            let c := (x - 224) * 4096 + (u8_Z b1 - 128) * 64 + (u8_Z b2 - 128) in
            if is_cont b1 && is_cont b2 && (2048 <=? c) && is_scalar c
            then cons c <$> from_utf8 r2 else None
        | _ => None
        end
      else if (240 <=? x) && (x <? 245) then
        match r0 with
        | b1 :: b2 :: b3 :: r3 =>
            let c := (x - 240) * 262144 + (u8_Z b1 - 128) * 4096 + (u8_Z b2 - 128) * 64 + (u8_Z b3 - 128) in
            if is_cont b1 && is_cont b2 && is_cont b3 && (65536 <=? c) && is_scalar c
            then cons c <$> from_utf8 r3 else None
        | _ => None
        end
      else None
  end.

Lemma is_scalar_bounds c : is_scalar c = true → 0 ≤ c < 55296 ∨ 57344 ≤ c < 1114112.
Proof. unfold is_scalar. rewrite orb_true_iff, !andb_true_iff, !Z.leb_le, !Z.ltb_lt. done. Qed.

(** A byte of an encoding, and its value. *)
Lemma u8_Z_small z : 0 ≤ z < 256 → u8_Z (Z_u8 z) = z.
Proof. intros Hz. rewrite u8_Z_u8. by apply Z.mod_small. Qed.

Lemma is_cont_small x : 0 ≤ x < 64 → is_cont (Z_u8 (128 + x)) = true.
Proof.
  intros Hx. unfold is_cont. rewrite u8_Z_small by lia.
  rewrite (proj2 (Z.leb_le _ _)), (proj2 (Z.ltb_lt _ _)) by lia. done.
Qed.

(** The digits of a scalar value in base 64. *)
Lemma digits64 c :
  0 ≤ c mod 64 < 64 ∧ 0 ≤ c / 64 mod 64 < 64 ∧ 0 ≤ c / 4096 mod 64 < 64 ∧
  c = c / 64 * 64 + c mod 64 ∧ c = c / 4096 * 4096 + c / 64 mod 64 * 64 + c mod 64 ∧
  c = c / 262144 * 262144 + c / 4096 mod 64 * 4096 + c / 64 mod 64 * 64 + c mod 64.
Proof. Z.to_euclidean_division_equations; lia. Qed.

Lemma from_utf8_char c rest :
  is_scalar c = true → from_utf8 (utf8_encode_char c ++ rest) = cons c <$> from_utf8 rest.
Proof.
  intros Hc. pose proof (is_scalar_bounds c Hc) as Hb. unfold utf8_encode_char.
  destruct (digits64 c) as (H0 & H1 & H2 & E1 & E2 & E3).
  destruct (Z.ltb_spec c 128); [|destruct (Z.ltb_spec c 2048); [|destruct (Z.ltb_spec c 65536)]];
    cbn [app from_utf8]; rewrite ?is_cont_small by lia; rewrite !u8_Z_small by lia.
  - by rewrite (proj2 (Z.ltb_lt _ _)) by lia.
  - rewrite (proj2 (Z.ltb_ge _ 128)), (proj2 (Z.leb_le 194 _)), (proj2 (Z.ltb_lt _ 224)) by lia. cbn [andb].
    do 2 f_equal. lia.
  - rewrite (proj2 (Z.ltb_ge _ 128)), (proj2 (Z.ltb_ge _ 224)), andb_false_r by lia.
    rewrite (proj2 (Z.leb_le 224 _)), (proj2 (Z.ltb_lt _ 240)) by lia. cbn [andb].
    replace ((224 + c / 4096 - 224) * 4096 + _ + _) with c by lia.
    by rewrite Hc, (proj2 (Z.leb_le 2048 c)) by lia.
  - rewrite (proj2 (Z.ltb_ge _ 128)), (proj2 (Z.ltb_ge _ 224)), andb_false_r by lia.
    rewrite (proj2 (Z.ltb_ge _ 240)), andb_false_r by lia.
    rewrite (proj2 (Z.leb_le 240 _)), (proj2 (Z.ltb_lt _ 245)) by lia. cbn [andb].
    replace ((240 + c / 262144 - 240) * 262144 + _ + _ + _) with c by lia.
    by rewrite Hc, (proj2 (Z.leb_le 65536 c)) by lia.
Qed.

Lemma from_utf8_encode s : Forall (λ c, is_scalar c = true) s → from_utf8 (utf8_encode s) = Some s.
Proof.
  unfold utf8_encode. induction 1 as [|c s Hc _ IH]; [done|]. rewrite bind_cons, from_utf8_char, IH by done. done.
Qed.

(** A character takes at least a byte. *)
Lemma length_from_utf8 bs s : from_utf8 bs = Some s → (length s ≤ length bs)%nat.
Proof.
  remember (length bs) as n eqn:Hn. assert (length bs ≤ n)%nat as Hle by lia. clear Hn. revert bs s Hle.
  induction n as [|n IH]; intros [|b0 r0] s Hle; simpl in Hle; try lia; [by intros [= <-]..|].
  assert (∀ r c, (length r ≤ length r0)%nat → cons c <$> from_utf8 r = Some s → (length s ≤ S n)%nat) as Hrest.
  { intros r c Hr. destruct (from_utf8 r) as [t|] eqn:E; [|done]. intros [= <-]. simpl.
    apply IH in E; lia. }
  cbn [from_utf8]. repeat case_match; try done; apply Hrest; simpl; lia.
Qed.

(** ** Integers *)

Definition i128_min : Z := - 2 ^ 127.
Definition i128_max : Z := 2 ^ 127 - 1.
Definition u128_max : Z := 2 ^ 128 - 1.

Definition is_digit (c : char) : bool := (48 <=? c) && (c <=? 57).

Fixpoint parse_digits (acc : Z) (s : ustr) : option Z :=
  match s with
  | [] => Some acc
  | c :: s => if is_digit c then parse_digits (acc * 10 + (c - 48)) s else None
  end.

(** [str::parse] into an integer type with the bounds [lo] and [hi]: an optional sign (a minus sign
    only for the signed types), at least one digit, and a value within the bounds.  The overflow checks
    of the source are made digit by digit; digits only move the value away from zero. *)
Definition parse_int (lo hi : Z) (s : ustr) : option Z :=
  let '(negative, digits) :=
    match s with
    | c :: rest =>
        if c =? 43 then (false, rest)
        else if (c =? 45) && (lo <? 0) then (true, rest) else (false, s)
    | [] => (false, [])
    end in
  if is_empty digits then None
  else
    v ← parse_digits 0 digits;
    let v := if negative then - v else v in
    if (lo <=? v) && (v <=? hi) then Some v else None.

Definition parse_i64 : ustr → option Z := parse_int (- 2 ^ 63) (2 ^ 63 - 1).
Definition parse_u64 : ustr → option Z := parse_int 0 u64_max.
Definition parse_i128 : ustr → option Z := parse_int i128_min i128_max.
Definition parse_u128 : ustr → option Z := parse_int 0 u128_max.

(** [Display]; 40 digits hold every 128-bit integer. *)
Definition show_int (z : Z) : ustr :=
  if z <? 0 then 45 :: decimal_digits 40 (- z) else decimal_digits 40 z.

Lemma parse_digits_app acc s t : parse_digits acc (s ++ t) = parse_digits acc s ≫= λ x, parse_digits x t.
Proof. revert acc. induction s as [|c s IH]; intros acc; [done|]. simpl. destruct (is_digit c); [apply IH|done]. Qed.

Lemma is_digit_small d : 0 ≤ d < 10 → is_digit (48 + d) = true.
Proof. intros Hd. unfold is_digit. by rewrite !(proj2 (Z.leb_le _ _)) by lia. Qed.

Lemma parse_decimal_digits fuel z : 0 ≤ z < 10 ^ Z.of_nat fuel → parse_digits 0 (decimal_digits fuel z) = Some z.
Proof.
  revert z. induction fuel as [|fuel IH]; intros z Hz; [simpl in *; f_equal; lia|].
  rewrite Nat2Z.inj_succ, Z.pow_succ_r in Hz by lia. cbn [decimal_digits]. destruct (Z.ltb_spec z 10).
  - cbn [parse_digits]. rewrite is_digit_small by lia. f_equal. lia.
  - rewrite parse_digits_app, IH by (Z.to_euclidean_division_equations; lia). cbn [mbind option_bind parse_digits].
    rewrite is_digit_small by (apply Z.mod_pos_bound; lia). f_equal. Z.to_euclidean_division_equations; lia.
Qed.

(** Rendered numbers start with a digit. *)
Lemma decimal_digits_head fuel z :
  0 ≤ z → ∃ c s, decimal_digits (S fuel) z = c :: s ∧ is_digit c = true.
Proof.
  revert z. induction fuel as [|fuel IH]; intros z Hz; cbn [decimal_digits]; destruct (Z.ltb_spec z 10).
  - exists (48 + z), []. split; [done|]. apply is_digit_small. lia.
  - exists (48 + z mod 10), []. split; [done|]. apply is_digit_small. apply Z.mod_pos_bound. lia.
  - exists (48 + z), []. split; [done|]. apply is_digit_small. lia.
  - destruct (IH (z / 10)) as (c & s & Hs & Hc); [apply Z.div_pos; lia|]. cbn [decimal_digits] in Hs.
    rewrite Hs. exists c, (s ++ [48 + z mod 10]). done.
Qed.

Lemma decimal_digits_digits fuel z : 0 ≤ z → Forall (λ c, is_digit c = true) (decimal_digits fuel z).
Proof.
  revert z. induction fuel as [|fuel IH]; intros z Hz; cbn [decimal_digits]; [constructor|].
  destruct (Z.ltb_spec z 10).
  - constructor; [apply is_digit_small; lia|constructor].
  - apply Forall_app. split; [apply IH, Z.div_pos; lia|].
    constructor; [apply is_digit_small, Z.mod_pos_bound; lia|constructor].
Qed.

(** A text of digits is its own UTF-8 decoding, and has nothing to trim. *)
Lemma digits_text s :
  Forall (λ c, is_digit c = true) s → from_utf8 (utf8_encode s) = Some s ∧ trim s = s.
Proof.
  intros Hs. assert (∀ c, is_digit c = true → is_scalar c = true ∧ is_whitespace c = false) as Hd.
  { intros c [H1%Z.leb_le H2%Z.leb_le]%andb_true_iff. unfold is_scalar, is_whitespace. split.
    - by rewrite (proj2 (Z.leb_le 0 c)), (proj2 (Z.ltb_lt c 55296)) by lia.
    - repeat match goal with |- context [?a <=? ?b] => destruct (Z.leb_spec a b); try lia end;
      repeat match goal with |- context [?a =? ?b] => destruct (Z.eqb_spec a b); try lia end; done. }
  split.
  - apply from_utf8_encode. eapply Forall_impl; [exact Hs|]. intros c Hc. by apply Hd.
  - rewrite Forall_forall in Hs. apply trim_id. split; intros c Hc; apply Hd, Hs.
    + by apply head_Some_elem_of.
    + by apply last_Some_elem_of.
Qed.

Lemma parse_leading_zeros n s : parse_digits 0 (replicate n 48 ++ s) = parse_digits 0 s.
Proof. induction n as [|n IH]; [done|]. exact IH. Qed.

(** What [Display] writes, [parse] reads. *)
Lemma parse_show_int lo hi z :
  lo ≤ z ≤ hi → - 10 ^ 39 < z < 10 ^ 39 → parse_int lo hi (show_int z) = Some z.
Proof.
  intros Hz Hb. assert (10 ^ Z.of_nat 40 = 10 * 10 ^ 39) as Hp by reflexivity.
  unfold show_int, parse_int. destruct (Z.ltb_spec z 0).
  - change (45 =? 43) with false. change (45 =? 45) with true. rewrite (proj2 (Z.ltb_lt lo 0)) by lia. cbn [andb].
    destruct (decimal_digits_head 39 (- z)) as (c & s & Hs & Hc); [lia|].
    pose proof (parse_decimal_digits 40 (- z)) as Hd. rewrite Hs in Hd |- *. cbn [is_empty].
    rewrite Hd by lia. cbn [mbind option_bind]. rewrite Z.opp_involutive, !(proj2 (Z.leb_le _ _)) by lia. done.
  - destruct (decimal_digits_head 39 z) as (c & s & Hs & Hc); [lia|].
    pose proof (parse_decimal_digits 40 z) as Hd. rewrite Hs in Hd |- *.
    unfold is_digit in Hc. apply andb_true_iff in Hc as [Hc1%Z.leb_le Hc2%Z.leb_le].
    rewrite (proj2 (Z.eqb_neq c 43)), (proj2 (Z.eqb_neq c 45)) by lia. cbn [andb is_empty].
    rewrite Hd by lia. cbn [mbind option_bind]. by rewrite !(proj2 (Z.leb_le _ _)) by lia.
Qed.

(** ** Lossy decoding *)

(** How many bytes the sequence at the front takes, and whether it is well-formed: an ill-formed one is
    its maximal prefix of a well-formed sequence, or a single byte. *)
Definition utf8_unit (bs : bytes) : nat * bool :=
  let in_range (lo hi : Z) (b : byte) := (lo <=? u8_Z b) && (u8_Z b <=? hi) in
  match bs with
  | [] => (0%nat, true)
  | b0 :: r =>
      let x := u8_Z b0 in
      if x <? 128 then (1%nat, true)
      else if (194 <=? x) && (x <? 224) then
        match r with b1 :: _ => if is_cont b1 then (2%nat, true) else (1%nat, false) | [] => (1%nat, false) end
      else if (224 <=? x) && (x <? 240) then
        let first := in_range (if x =? 224 then 160 else 128) (if x =? 237 then 159 else 191) in
        match r with
        | b1 :: r =>
            if first b1 then
              match r with b2 :: _ => if is_cont b2 then (3%nat, true) else (2%nat, false) | [] => (2%nat, false) end
            else (1%nat, false)
        | [] => (1%nat, false)
        end
      else if (240 <=? x) && (x <? 245) then
        let first := in_range (if x =? 240 then 144 else 128) (if x =? 244 then 143 else 191) in
        match r with
        | b1 :: r =>
            if first b1 then
              match r with
              | b2 :: r =>
                  if is_cont b2 then
                    match r with b3 :: _ => if is_cont b3 then (4%nat, true) else (3%nat, false) | [] => (3%nat, false) end
                  else (2%nat, false)
              | [] => (2%nat, false)
              end
            else (1%nat, false)
        | [] => (1%nat, false)
        end
      else (1%nat, false)
  end.

(** The bytes of [String::from_utf8_lossy]: ill-formed sequences become U+FFFD.  Every round takes a
    byte, so the length is fuel enough. *)
Fixpoint lossy_bytes (fuel : nat) (bs : bytes) : bytes :=
  match fuel, bs with
  | O, _ | _, [] => []
  | S fuel, _ =>
      let '(n, good) := utf8_unit bs in
      (if good then take n bs else [xef; xbf; xbd]) ++ lossy_bytes fuel (drop n bs)
  end.

Definition from_utf8_lossy (bs : bytes) : bytes := lossy_bytes (length bs) bs.

(** ** Searching and splitting *)

Definition eq_ignore_ascii_case (a b : ustr) : bool := str_eqb (to_ascii_lowercase a) (to_ascii_lowercase b).

(** [str::contains]. *)
Fixpoint str_contains (s pattern : ustr) : bool :=
  starts_with s pattern || match s with [] => false | _ :: s => str_contains s pattern end.

Definition ends_with (s suffix : ustr) : bool := starts_with (reverse s) (reverse suffix).

(** [str::strip_prefix]. *)
Definition strip_prefix (s prefix : ustr) : option ustr :=
  if starts_with s prefix then Some (drop (length prefix) s) else None.

(** [split_once] at a separator, and [rsplit_once], which searches from the end. *)
Fixpoint split_once_at (sep s : ustr) : option (ustr * ustr) :=
  match s with
  | [] => None
  | c :: rest =>
      if starts_with s sep then Some ([], drop (length sep) s)
      else '(before, after) ← split_once_at sep rest; Some (c :: before, after)
  end.

Definition rsplit_once (s sep : ustr) : option (ustr * ustr) :=
  '(after, before) ← split_once_at (reverse sep) (reverse s); Some (reverse before, reverse after).

(** [str::find]: the index of the first occurrence, counted in characters. *)
Fixpoint find_str (s pattern : ustr) : option nat :=
  if starts_with s pattern then Some 0%nat
  else match s with [] => None | _ :: s => S <$> find_str s pattern end.

(** [str::split_whitespace]; [current] holds the word being read, reversed. *)
Fixpoint split_words (current : ustr) (s : ustr) : list ustr :=
  match s with
  | [] => if is_empty current then [] else [reverse current]
  | c :: s =>
      if is_whitespace c then if is_empty current then split_words [] s else reverse current :: split_words [] s
      else split_words (c :: current) s
  end.

Definition split_whitespace (s : ustr) : list ustr := split_words [] s.

(** [str::replace] of one character by another, [str::trim_matches] of one character. *)
Definition replace_char (from to : char) (s : ustr) : ustr := (λ c, if c =? from then to else c) <$> s.

Definition trim_matches (c : char) (s : ustr) : ustr := trim_end_matches (Z.eqb c) (trim_start_matches (Z.eqb c) s).

(** A [match] on a string: the first arm it equals. *)
Fixpoint match_str {A} (s : ustr) (arms : list (string * A)) : option A :=
  match arms with
  | [] => None
  | (name, x) :: arms => if str_eqb s (lit name) then Some x else match_str s arms
  end.

(** ** Lossy decoding of well-formed text *)

Lemma utf8_unit_char c rest :
  is_scalar c = true → utf8_unit (utf8_encode_char c ++ rest) = (length (utf8_encode_char c), true).
Proof.
  intros Hc. pose proof (is_scalar_bounds c Hc) as Hb. unfold utf8_encode_char.
  assert (Hd : 0 ≤ c mod 64 < 64 ∧ 0 ≤ c / 64 mod 64 < 64 ∧ 0 ≤ c / 4096 mod 64 < 64) by (destruct (digits64 c); tauto).
  destruct (Z.ltb_spec c 128); [|destruct (Z.ltb_spec c 2048); [|destruct (Z.ltb_spec c 65536)]];
    cbn [app utf8_unit length]; rewrite ?is_cont_small by lia; rewrite !u8_Z_small by (Z.to_euclidean_division_equations; lia).
  - by rewrite (proj2 (Z.ltb_lt _ _)) by lia.
  - rewrite (proj2 (Z.ltb_ge _ 128)), (proj2 (Z.leb_le 194 _)), (proj2 (Z.ltb_lt _ 224))
      by (Z.to_euclidean_division_equations; lia). done.
  - rewrite (proj2 (Z.ltb_ge _ 128)), (proj2 (Z.ltb_ge _ 224)), andb_false_r,
      (proj2 (Z.leb_le 224 _)), (proj2 (Z.ltb_lt _ 240)) by (Z.to_euclidean_division_equations; lia). cbn [andb].
    rewrite (proj2 (Z.leb_le _ _)), (proj2 (Z.leb_le _ _)); [done| |];
      repeat case_match; rewrite ?Z.eqb_eq, ?Z.eqb_neq in *; Z.to_euclidean_division_equations; lia.
  - rewrite (proj2 (Z.ltb_ge _ 128)), (proj2 (Z.ltb_ge _ 224)), andb_false_r, (proj2 (Z.ltb_ge _ 240)), andb_false_r,
      (proj2 (Z.leb_le 240 _)), (proj2 (Z.ltb_lt _ 245)) by (Z.to_euclidean_division_equations; lia). cbn [andb].
    rewrite (proj2 (Z.leb_le _ _)), (proj2 (Z.leb_le _ _)); [done| |];
      repeat case_match; rewrite ?Z.eqb_eq, ?Z.eqb_neq in *; Z.to_euclidean_division_equations; lia.
Qed.

Lemma length_utf8_encode_char c : (1 ≤ length (utf8_encode_char c))%nat.
Proof. unfold utf8_encode_char. repeat case_match; simpl; lia. Qed.

Lemma lossy_bytes_encode fuel s :
  Forall (λ c, is_scalar c = true) s → (length (utf8_encode s) ≤ fuel)%nat →
  lossy_bytes fuel (utf8_encode s) = utf8_encode s.
Proof.
  intros Hs. revert fuel. induction Hs as [|c s Hc Hs IH]; intros fuel; [by destruct fuel|].
  unfold utf8_encode in *. rewrite bind_cons, length_app. pose proof (length_utf8_encode_char c) as Hl.
  intros Hf. destruct fuel as [|fuel]; [lia|].
  destruct (utf8_encode_char c ++ (s ≫= utf8_encode_char)) as [|b bs] eqn:E.
  { apply app_eq_nil in E as [E _]. rewrite E in Hl. simpl in Hl. lia. }
  cbn [lossy_bytes]. rewrite <- E, utf8_unit_char by done.
  rewrite take_app_length, drop_app_length, IH by lia. done.
Qed.

Lemma from_utf8_lossy_encode s :
  Forall (λ c, is_scalar c = true) s → from_utf8_lossy (utf8_encode s) = utf8_encode s.
Proof. intros Hs. by apply lossy_bytes_encode. Qed.
