(* ===== verification/Float64.v ===== *)
(** * Floating-point numbers

    What the source uses of [f64] and [f32], on the specification floats of the Standard Library
    ([spec_float]): bit patterns, casts, comparison, [str::parse] and [Display].  The payload and the
    sign of a NaN are not represented; the source never writes one. *)

From Stdlib Require Import ZArith Lia SpecFloat Strings.Byte.
From stdpp Require Import base list strings.
From S2P Require Import Prelude Text.

Abbreviation f64 := spec_float.

#[global] Instance f64_eq_dec : EqDecision f64.
Proof. solve_decision. Defined.

(** ** Formats *)

(** A binary interchange format: the width of the stored mantissa and of the exponent. *)
Record format := { mantissa_width : Z; exponent_width : Z }.

Definition binary64 : format := {| mantissa_width := 52; exponent_width := 11 |}.
Definition binary32 : format := {| mantissa_width := 23; exponent_width := 8 |}.

Definition precision (f : format) : Z := mantissa_width f + 1.
Definition max_exponent (f : format) : Z := 2 ^ (exponent_width f - 1).

(** The exponent of the least significant bit of the subnormal numbers. *)
Definition min_exponent (f : format) : Z := 3 - max_exponent f - precision f.

(** ** Bit patterns *)

(** [from_bits]. *)
Definition of_bits (f : format) (bits : Z) : f64 :=
  let mw := mantissa_width f in
  let m := bits mod 2 ^ mw in
  let ex := bits / 2 ^ mw mod 2 ^ exponent_width f in
  let s := Z.odd (bits / 2 ^ (mw + exponent_width f)) in
  if ex =? 0 then match m with Zpos p => S754_finite s p (min_exponent f) | _ => S754_zero s end
  else if ex =? 2 ^ exponent_width f - 1 then if m =? 0 then S754_infinity s else S754_nan
  else match m + 2 ^ mw with Zpos p => S754_finite s p (ex - 1 + min_exponent f) | _ => S754_nan end.

(** The bits below the sign. *)
Definition magnitude_bits (f : format) (x : f64) : Z :=
  let mw := mantissa_width f in
  match x with
  | S754_zero _ => 0
  | S754_infinity _ => (2 ^ exponent_width f - 1) * 2 ^ mw
  | S754_nan => (2 ^ exponent_width f - 1) * 2 ^ mw + 2 ^ (mw - 1)
  | S754_finite _ m e =>
      if Zpos m <? 2 ^ mw then Zpos m else (e - min_exponent f + 1) * 2 ^ mw + (Zpos m - 2 ^ mw)
  end.

Definition is_sign_negative (x : f64) : bool :=
  match x with S754_zero s | S754_infinity s | S754_finite s _ _ => s | S754_nan => false end.

(** [to_bits]. *)
Definition to_bits (f : format) (x : f64) : Z :=
  (if is_sign_negative x then 2 ^ (mantissa_width f + exponent_width f) else 0) + magnitude_bits f x.

(** ** Casts *)

(** The nearest number of a format to [m * 2 ^ e], ties to even, overflow to infinity. *)
Definition round_to (f : format) (m e : Z) (negative_zero : bool) : f64 :=
  binary_normalize (precision f) (max_exponent f) m e negative_zero.

(** [v as f64] from an integer. *)
Definition f64_of_int (v : Z) : f64 := round_to binary64 v 0 false.

(** [v as f32] from an [f64] and back. *)
Definition convert_format (f : format) (x : f64) : f64 :=
  match x with
  | S754_finite s m e => round_to f (if s then Zneg m else Zpos m) e s
  | _ => x
  end.

Definition is_finite (x : f64) : bool :=
  match x with S754_zero _ | S754_finite _ _ _ => true | _ => false end.

Definition is_nan (x : f64) : bool := match x with S754_nan => true | _ => false end.

(** [v.fract() == 0.0]. *)
Definition fract_is_zero (x : f64) : bool :=
  match x with
  | S754_zero _ => true
  | S754_finite _ m e => (0 <=? e) || (Zpos m mod 2 ^ (- e) =? 0)
  | _ => false
  end.

(** The number without its fraction. *)
Definition truncate (s : bool) (m : positive) (e : Z) : Z :=
  let a := if 0 <=? e then Zpos m * 2 ^ e else Zpos m / 2 ^ (- e) in
  if s then - a else a.

(** [v as i128] and the like: truncation, saturating at the bounds. *)
Definition f64_as_int (lo hi : Z) (x : f64) : Z :=
  match x with
  | S754_zero _ | S754_nan => 0
  | S754_infinity s => if s then lo else hi
  | S754_finite s m e => Z.max lo (Z.min hi (truncate s m e))
  end.

(** [partial_cmp]. *)
Definition partial_cmp (x y : f64) : option comparison := SFcompare x y.

(** ** Decimal text *)

(** The nearest [f64] to [m * 10 ^ e].  A negative power divides with enough quotient bits, the last
    one standing for the remainder, so that one rounding decides. *)
Definition f64_of_decimal (negative : bool) (m : Z) (e : Z) : f64 :=
  let sign (z : Z) := if negative then - z else z in
  if m =? 0 then S754_zero negative
  else if 0 <=? e then round_to binary64 (sign (m * 10 ^ e)) 0 negative
  else
    let d := 10 ^ (- e) in
    let shift := Z.max 0 (60 + Z.log2 d - Z.log2 m) in
    let n := m * 2 ^ shift in
    round_to binary64 (sign (2 * (n / d) + (if n mod d =? 0 then 0 else 1))) (- shift - 1) negative.

(** The longest prefix of digits, and the rest. *)
Fixpoint take_digits (s : ustr) : ustr * ustr :=
  match s with
  | c :: rest => if is_digit c then let '(ds, r) := take_digits rest in (c :: ds, r) else ([], s)
  | [] => ([], [])
  end.

Definition digits_value (ds : ustr) : Z := default 0 (parse_digits 0 ds).

(** The exponent part, which must reach the end of the text. *)
Definition parse_exponent (s : ustr) : option Z :=
  match s with
  | [] => Some 0
  | c :: rest =>
      if (c =? 101) || (c =? 69) then
        let '(negative, ds) :=
          match rest with
          | c :: r => if c =? 43 then (false, r) else if c =? 45 then (true, r) else (false, rest)
          | [] => (false, [])
          end in
        if is_empty ds then None
        else v ← parse_digits 0 ds; Some (if negative then - v else v)
      else None
  end.

(** [Number]: digits with an optional point among or around them, and an optional exponent. *)
Definition parse_number (negative : bool) (s : ustr) : option f64 :=
  let '(whole, rest) := take_digits s in
  let '(fraction, rest) :=
    match rest with
    | c :: r => if c =? 46 then take_digits r else ([], rest)
    | [] => ([], [])
    end in
  if is_empty (whole ++ fraction) then None
  else
    e ← parse_exponent rest;
    Some (f64_of_decimal negative (digits_value (whole ++ fraction)) (e - Z.of_nat (length fraction))).

(** [str::parse::<f64>]. *)
Definition parse_f64 (s : ustr) : option f64 :=
  let '(negative, body) :=
    match s with
    | c :: rest => if c =? 43 then (false, rest) else if c =? 45 then (true, rest) else (false, s)
    | [] => (false, [])
    end in
  match parse_number negative body with
  | Some x => Some x
  | None =>
      let lower := to_ascii_lowercase body in
      if str_eqb lower (lit "inf") || str_eqb lower (lit "infinity") then Some (S754_infinity negative)
      else if str_eqb lower (lit "nan") then Some S754_nan
      else None
  end.

(** ** [Display] *)

(** [m * 2 ^ e * 10 ^ k] as a fraction. *)
Definition scaled (m : positive) (e k : Z) : Z * Z :=
  (Zpos m * (if 0 <=? e then 2 ^ e else 1) * (if 0 <=? k then 10 ^ k else 1),
   (if 0 <=? e then 1 else 2 ^ (- e)) * (if 0 <=? k then 1 else 10 ^ (- k))).

(** The [k] with [10 ^ (k - 1) <= m * 2 ^ e < 10 ^ k], counted up from an estimate below it. *)
Fixpoint decimal_exponent (fuel : nat) (m : positive) (e k : Z) : Z :=
  match fuel with
  | O => k
  | S fuel =>
      let '(n, d) := scaled m e (- k) in
      if n <? d then k else decimal_exponent fuel m e (k + 1)
  end.

(** The shortest digits that read back as the number: for every length, the two decimals around it
    are tried, the nearer one first. *)
Fixpoint shortest_digits (fuel : nat) (len : Z) (s : bool) (m : positive) (e k : Z) : Z * Z :=
  let '(n, d) := scaled m e (len - k) in
  let low := n / d in
  let candidates := if 2 * (n mod d) <=? d then [low; low + 1] else [low + 1; low] in
  let reads_back c := bool_decide (f64_of_decimal s c (k - len) = S754_finite s m e) in
  match fuel, filter (λ c, reads_back c = true) candidates with
  | _, c :: _ => (c, k - len)
  | O, [] => (low, k - len)
  | S fuel, [] => shortest_digits fuel (len + 1) s m e k
  end.

(** [digits * 10 ^ e] without an exponent. *)
Definition show_positional (digits e : Z) : ustr :=
  let ds := decimal_digits 40 digits in
  if 0 <=? e then ds ++ replicate (Z.to_nat e) 48
  else
    let point := Z.of_nat (length ds) + e in
    if point <=? 0 then lit "0." ++ replicate (Z.to_nat (- point)) 48 ++ ds
    else take (Z.to_nat point) ds ++ lit "." ++ drop (Z.to_nat point) ds.

Definition show_f64 (x : f64) : ustr :=
  match x with
  | S754_nan => lit "NaN"
  | S754_infinity s => (if s then lit "-" else []) ++ lit "inf"
  | S754_zero s => (if s then lit "-" else []) ++ lit "0"
  | S754_finite s m e =>
      let estimate := (Z.log2 (Zpos m) + e) * 30103 / 100000 - 1 in
      let k := decimal_exponent 6 m e estimate in
      let '(digits, e10) := shortest_digits 18 1 s m e k in
      (if s then lit "-" else []) ++ show_positional digits e10
  end.
