(* ===== verification/Base64.v ===== *)
(** * Base64 transport codec

    Models [common/src/helpers/base64.rs]: the unpadded encoder used for replicated WAL frames and
    the decoder, which also accepts padding and the URL-safe alphabet.  A [String] produced or
    consumed here is a list of bytes, because the code works on [as_bytes]. *)

From Stdlib Require Import ZArith Lia Strings.Byte.
From stdpp Require Import base list.
From S2P Require Import Prelude.

(** ** Encoder *)

Definition TABLE : bytes :=
  [x41; x42; x43; x44; x45; x46; x47; x48; x49; x4a; x4b; x4c; x4d; x4e; x4f; x50;
   x51; x52; x53; x54; x55; x56; x57; x58; x59; x5a; x61; x62; x63; x64; x65; x66;
   x67; x68; x69; x6a; x6b; x6c; x6d; x6e; x6f; x70; x71; x72; x73; x74; x75; x76;
   x77; x78; x79; x7a; x30; x31; x32; x33; x34; x35; x36; x37; x38; x39; x2b; x2f].

(** [TABLE[((n >> shift) & 0x3f) as usize]]. *)
Definition table_at (n shift : Z) : byte :=
  nth (Z.to_nat (Z.land (Z.shiftr n shift) 63)) TABLE x00.

(** The [while i + 3 <= bytesin.len()] loop and the final [match bytesin.len() - i], by recursion
    on the bytes from position [i] on. *)
Fixpoint b64_encode_bytes (bytesin : bytes) : bytes :=
  match bytesin with
  | b0 :: b1 :: b2 :: rest =>
      let n := Z.lor (Z.lor (Z.shiftl (u8_Z b0) 16) (Z.shiftl (u8_Z b1) 8)) (u8_Z b2) in
      table_at n 18 :: table_at n 12 :: table_at n 6 :: table_at n 0 :: b64_encode_bytes rest
  | [b0] =>
      let n := Z.shiftl (u8_Z b0) 16 in
      [table_at n 18; table_at n 12]
  | [b0; b1] =>
      let n := Z.lor (Z.shiftl (u8_Z b0) 16) (Z.shiftl (u8_Z b1) 8) in
      [table_at n 18; table_at n 12; table_at n 6]
  | [] => []
  end.

(** ** Decoder *)

Definition INVALID_BASE64 : Z := 255.

(** [DECODE_TABLE[c]]: the value [build_decode_table] stores at index [c].  The two loops write
    the letter and digit ranges, the four last assignments the symbols. *)
Definition decode_table (c : Z) : Z :=
  if (65 <=? c) && (c <? 65 + 26) then c - 65
  else if (97 <=? c) && (c <? 97 + 26) then 26 + (c - 97)
  else if (48 <=? c) && (c <? 48 + 10) then 52 + (c - 48)
  else if (c =? 43) || (c =? 45) then 62
  else if (c =? 47) || (c =? 95) then 63
  else INVALID_BASE64.

Definition decode_char (c : byte) : option Z :=
  let v := decode_table (u8_Z c) in
  if v =? INVALID_BASE64 then None else Some v.

(** The loop that drops trailing ['='] bytes, on the reversed data: what is left (still reversed)
    and the number dropped. *)
Fixpoint strip_padding (rev_data : bytes) (pad_count : nat) : bytes * nat :=
  match rev_data with
  | c :: rest => if eqb c x3d then strip_padding rest (S pad_count) else (rev_data, pad_count)
  | [] => ([], pad_count)
  end.

Definition out_byte (n shift : Z) : byte := Z_u8 (Z.land (Z.shiftr n shift) 255).

(** The [while i + 4 <= data_len] loop and the final [match data_len - i]. *)
Fixpoint decode_groups (data : bytes) : option bytes :=
  match data with
  | c0 :: c1 :: c2 :: c3 :: rest =>
      a ← decode_char c0; b ← decode_char c1; c ← decode_char c2; d ← decode_char c3;
      let n := Z.lor (Z.lor (Z.lor (Z.shiftl a 18) (Z.shiftl b 12)) (Z.shiftl c 6)) d in
      out ← decode_groups rest;
      Some (out_byte n 16 :: out_byte n 8 :: out_byte n 0 :: out)
  | [] => Some []
  | [c0; c1] =>
      a ← decode_char c0; b ← decode_char c1;
      let n := Z.lor (Z.shiftl a 18) (Z.shiftl b 12) in
      Some [out_byte n 16]
  | [c0; c1; c2] =>
      a ← decode_char c0; b ← decode_char c1; c ← decode_char c2;
      let n := Z.lor (Z.lor (Z.shiftl a 18) (Z.shiftl b 12)) (Z.shiftl c 6) in
      Some [out_byte n 16; out_byte n 8]
  | [_] => None
  end.

Definition b64_decode_impl (stringin : bytes) : option bytes :=
  if is_empty stringin then Some []
  else
    let '(rev_data, pad_count) := strip_padding (reverse stringin) 0 in
    let data := reverse rev_data in
    if (2 <? Z.of_nat pad_count) then None
    else if (Z.of_nat (length data) mod 4 =? 1) then None
    else decode_groups data.

Definition b64_decode (stringin : bytes) : bytes :=
  default [] (b64_decode_impl stringin).

(** ** Bit arithmetic *)

Lemma land_shiftl_low a b k : 0 ≤ k → 0 ≤ b < 2 ^ k → Z.land (Z.shiftl a k) b = 0.
Proof.
  intros Hk Hb. apply Z.bits_inj'. intros i Hi. rewrite Z.land_spec, Z.bits_0.
  destruct (Z.lt_ge_cases i k) as [Hlt|Hge].
  - rewrite Z.shiftl_spec_low by lia. reflexivity.
  - rewrite <- (Z.mod_small b (2 ^ k)) by lia.
    rewrite Z.mod_pow2_bits_high by lia. apply andb_false_r.
Qed.

(** An or whose low operand fits below the bits of the high one is a sum. *)
Lemma lor_add x b k :
  0 ≤ k → x mod 2 ^ k = 0 → 0 ≤ b < 2 ^ k → Z.lor x b = x + b.
Proof.
  intros Hk Hx Hb. pose proof (Z.div_mod x (2 ^ k) ltac:(lia)) as Hd.
  assert (x = Z.shiftl (x / 2 ^ k) k) as -> by (rewrite Z.shiftl_mul_pow2; lia).
  pose proof (land_shiftl_low (x / 2 ^ k) b k Hk Hb) as Hl.
  rewrite <- Z.lxor_lor by exact Hl. symmetry. apply Z.add_nocarry_lxor. exact Hl.
Qed.

Lemma land_63 x : Z.land x 63 = x mod 64.
Proof. apply (Z.land_ones x 6). lia. Qed.

Lemma land_255 x : Z.land x 255 = x mod 256.
Proof. apply (Z.land_ones x 8). lia. Qed.

(** The decoder inverts the alphabet on every sextet. *)
Lemma decode_char_table k : 0 ≤ k < 64 → decode_char (nth (Z.to_nat k) TABLE x00) = Some k.
Proof.
  intros Hk.
  assert (forallb (fun i => eqb (decode_char (nth i TABLE x00)) (Some (Z.of_nat i))) (seq 0 64) = true)
    as Hall by (vm_compute; reflexivity).
  rewrite forallb_forall in Hall. specialize (Hall (Z.to_nat k)).
  rewrite eqb_true, Z2Nat.id in Hall by lia. apply Hall, in_seq. lia.
Qed.

(** The sextet of [n] at [shift]. *)
Lemma decode_char_table_at n shift :
  0 ≤ shift → decode_char (table_at n shift) = Some (n / 2 ^ shift mod 64).
Proof.
  intros Hs. unfold table_at. rewrite land_63, Z.shiftr_div_pow2 by lia.
  apply decode_char_table. apply Z.mod_pos_bound. lia.
Qed.

Lemma out_byte_div n shift : 0 ≤ shift → out_byte n shift = Z_u8 (n / 2 ^ shift).
Proof.
  intros Hs. unfold out_byte. rewrite land_255, Z.shiftr_div_pow2 by lia.
  unfold Z_u8. rewrite Z.mod_mod by lia. reflexivity.
Qed.

(** The three bytes of an input group, packed. *)
Lemma pack3 a b c :
  0 ≤ a < 256 → 0 ≤ b < 256 → 0 ≤ c < 256 →
  Z.lor (Z.lor (Z.shiftl a 16) (Z.shiftl b 8)) c = a * 65536 + b * 256 + c.
Proof.
  intros Ha Hb Hc. rewrite !Z.shiftl_mul_pow2 by lia.
  rewrite (lor_add (a * 2 ^ 16) _ 16), (lor_add _ c 8); try lia;
    (split || idtac); simpl; Z.to_euclidean_division_equations; lia.
Qed.

(** The four sextets of a decoded group, packed. *)
Lemma pack4 a b c d :
  0 ≤ a < 64 → 0 ≤ b < 64 → 0 ≤ c < 64 → 0 ≤ d < 64 →
  Z.lor (Z.lor (Z.lor (Z.shiftl a 18) (Z.shiftl b 12)) (Z.shiftl c 6)) d
  = a * 262144 + b * 4096 + c * 64 + d.
Proof.
  intros Ha Hb Hc Hd. rewrite !Z.shiftl_mul_pow2 by lia.
  rewrite (lor_add (a * 2 ^ 18) _ 18), (lor_add _ (c * 2 ^ 6) 12), (lor_add _ d 6); try lia;
    (split || idtac); simpl; Z.to_euclidean_division_equations; lia.
Qed.

Lemma pack3_tail1 a : 0 ≤ a < 256 → Z.shiftl a 16 = a * 65536.
Proof. intros. rewrite Z.shiftl_mul_pow2 by lia. reflexivity. Qed.

Lemma pack3_tail2 a b :
  0 ≤ a < 256 → 0 ≤ b < 256 → Z.lor (Z.shiftl a 16) (Z.shiftl b 8) = a * 65536 + b * 256.
Proof. intros Ha Hb. pose proof (pack3 a b 0 Ha Hb ltac:(lia)). rewrite Z.lor_0_r in *. lia. Qed.

Lemma pack4_tail2 a b :
  0 ≤ a < 64 → 0 ≤ b < 64 → Z.lor (Z.shiftl a 18) (Z.shiftl b 12) = a * 262144 + b * 4096.
Proof.
  intros Ha Hb. pose proof (pack4 a b 0 0 Ha Hb ltac:(lia) ltac:(lia)).
  rewrite Z.shiftl_0_l, !Z.lor_0_r in *. lia.
Qed.

Lemma pack4_tail3 a b c :
  0 ≤ a < 64 → 0 ≤ b < 64 → 0 ≤ c < 64 →
  Z.lor (Z.lor (Z.shiftl a 18) (Z.shiftl b 12)) (Z.shiftl c 6) = a * 262144 + b * 4096 + c * 64.
Proof.
  intros Ha Hb Hc. pose proof (pack4 a b c 0 Ha Hb Hc ltac:(lia)). rewrite Z.lor_0_r in *. lia.
Qed.

Lemma Z_u8_eq z b : z mod 256 = u8_Z b → Z_u8 z = b.
Proof. intros H. apply u8_Z_inj. rewrite u8_Z_u8. exact H. Qed.

(** Closes the arithmetic goal that a decoded byte is the encoded one. *)
Ltac b64_byte :=
  rewrite out_byte_div by lia; apply Z_u8_eq; simpl Z.pow;
  Z.to_euclidean_division_equations; lia.

(** Rewrites every sextet of an encoded group with its decoded value. *)
Ltac b64_sextets :=
  rewrite !decode_char_table_at by lia; cbn [mbind option_bind];
  rewrite ?pack4 by (apply Z.mod_pos_bound; lia);
  rewrite ?pack4_tail3 by (apply Z.mod_pos_bound; lia);
  rewrite ?pack4_tail2 by (apply Z.mod_pos_bound; lia).

Lemma list_ind_3 {A} (P : list A → Prop) :
  P [] → (∀ a, P [a]) → (∀ a b, P [a; b]) → (∀ a b c l, P l → P (a :: b :: c :: l)) → ∀ l, P l.
Proof.
  intros H0 H1 H2 H3.
  assert (∀ n l, (length l ≤ n)%nat → P l) as H; [|intros l; eapply H; reflexivity].
  induction n as [|n IH]; intros [|a [|b [|c l]]] Hl; simpl in Hl; try lia; auto.
  apply H3, IH. lia.
Qed.

Lemma decode_groups_encode bs : decode_groups (b64_encode_bytes bs) = Some bs.
Proof.
  induction bs as [|a|a b|a b c l IH] using list_ind_3; [reflexivity|..];
    cbn [b64_encode_bytes decode_groups];
    pose proof (u8_Z_bounds a); try pose proof (u8_Z_bounds b); try pose proof (u8_Z_bounds c).
  - rewrite pack3_tail1 by lia. b64_sextets. do 2 f_equal. b64_byte.
  - rewrite pack3_tail2 by lia. b64_sextets. f_equal. f_equal; [|f_equal]; b64_byte.
  - rewrite pack3 by lia. b64_sextets. rewrite IH. cbn [mbind option_bind].
    f_equal. f_equal; [|f_equal; [|f_equal]]; b64_byte.
Qed.

Lemma table_at_in n shift : table_at n shift ∈ TABLE.
Proof.
  unfold table_at. apply list_elem_of_In, nth_In.
  rewrite land_63. pose proof (Z.mod_pos_bound (Z.shiftr n shift) 64 ltac:(lia)).
  change (length TABLE) with 64%nat. lia.
Qed.

Lemma encode_alphabet bs : Forall (.∈ TABLE) (b64_encode_bytes bs).
Proof.
  induction bs using list_ind_3; cbn [b64_encode_bytes];
    repeat (apply Forall_cons_2; [apply table_at_in|]); auto using Forall_nil_2.
Qed.

Lemma length_encode bs :
  Z.of_nat (length (b64_encode_bytes bs)) = (4 * Z.of_nat (length bs) + 2) / 3.
Proof.
  induction bs as [|a|a b|a b c l IH] using list_ind_3; try reflexivity.
  cbn [b64_encode_bytes length]. rewrite !Nat2Z.inj_succ, IH.
  Z.to_euclidean_division_equations. lia.
Qed.

(** ** Padding *)

Lemma strip_padding_replicate n l k :
  strip_padding (replicate n x3d ++ l) k = strip_padding l (n + k).
Proof. revert k. induction n as [|n IH]; intros k; simpl; [|rewrite IH, Nat.add_succ_r]; reflexivity. Qed.

Lemma strip_padding_alphabet l k : Forall (.∈ TABLE) l → strip_padding l k = (l, k).
Proof.
  intros [|c l' Hc _]; [reflexivity|]. simpl. rewrite (proj2 (eqb_false _ _)); [reflexivity|].
  intros ->. apply list_elem_of_In in Hc. vm_compute in Hc. intuition discriminate.
Qed.

Lemma rev_encode_padding bs pad :
  strip_padding (reverse (b64_encode_bytes bs ++ replicate pad x3d)) 0
  = (reverse (b64_encode_bytes bs), pad).
Proof.
  rewrite reverse_app, reverse_replicate.
  rewrite strip_padding_replicate, Nat.add_0_r. apply strip_padding_alphabet.
  apply Forall_reverse, encode_alphabet.
Qed.

(** Decoding inverts encoding, with or without padding. *)
Lemma b64_decode_encode_padded bs pad :
  (pad ≤ 2)%nat → b64_decode_impl (b64_encode_bytes bs ++ replicate pad x3d) = Some bs.
Proof.
  intros Hpad. unfold b64_decode_impl.
  destruct (b64_encode_bytes bs ++ replicate pad x3d) as [|c l] eqn:E; cbn [is_empty].
  - apply app_eq_nil in E as [E _]. rewrite <- (decode_groups_encode bs), E. reflexivity.
  - rewrite <- E, rev_encode_padding, reverse_involutive.
    rewrite (proj2 (Z.ltb_ge _ _)) by lia.
    rewrite (proj2 (Z.eqb_neq _ _)); [apply decode_groups_encode|].
    rewrite length_encode. Z.to_euclidean_division_equations. lia.
Qed.

(** decoding what the encoder produced gives back the bytes, both as the encoder writes it
    and with up to two padding characters appended; the encoded text uses the 64-character
    alphabet only, and is [ceil(4 n / 3)] characters long. *)
Theorem b64_roundtrip bs pad :
  (pad ≤ 2)%nat →
  b64_decode_impl (b64_encode_bytes bs ++ replicate pad x3d) = Some bs ∧
  Forall (.∈ TABLE) (b64_encode_bytes bs) ∧
  Z.of_nat (length (b64_encode_bytes bs)) = (4 * Z.of_nat (length bs) + 2) / 3.
Proof.
  intros Hpad. split; [by apply b64_decode_encode_padded|].
  split; [apply encode_alphabet|apply length_encode].
Qed.

Lemma b64_roundtrip_witness :
  b64_decode_impl (b64_encode_bytes [x00; xff; x10; x80] ++ replicate 2 x3d) = Some [x00; xff; x10; x80].
Proof. apply (b64_roundtrip [x00; xff; x10; x80] 2). lia. Defined.
