(* ===== verification/Record.v ===== *)
(** * Transaction records and payload transforms

    Models [serverlib/src/engine/database/transaction/record.rs], [kind.rs] and [id.rs]: the WAL
    record with its stored and its resolved ("shadow") payload, the transform chains run on read
    and on write, the resolve cache, and the transport frame.  A [TransactionId] is its [u64],
    kept in [Z].  The serializer is the bincode crate, a parameter (class [Bincode]). *)

From Stdlib Require Import ZArith Lia Strings.Byte.
From stdpp Require Import base list gmap strings.
From S2P Require Import Prelude Base64.

(** ** The serializer (bincode, through [common/src/helpers/bincode_compat.rs]) *)

(** [serialize] is [encode_to_vec], [deserialize] is [decode_from_slice] under the limit
    configuration; [decode_budget] is the number of bytes the decoder accounts for a value. *)
Class Bincode (A : Type) := {
  serialize : A → option bytes;
  deserialize : bytes → option A;
  decode_budget : A → Z
}.

Definition MAX_DECODE_BYTES : Z := 256 * 1024 * 1024.

(** The documented contract: what was encoded decodes to the same value, as long as the decoder
    stays within its limit.  [norm] is the value without the fields marked [serde(skip)]; bytes
    after the value are not read. *)
Class BincodeLaws (A : Type) `{Bincode A} (norm : A → A) := {
  deserialize_serialize x b rest :
    serialize x = Some b → decode_budget x ≤ MAX_DECODE_BYTES →
    deserialize (b ++ rest) = Some (norm x);
  serialize_norm x : serialize (norm x) = serialize x
}.

(** ** Data *)

Abbreviation TransactionId := Z (only parsing).
Abbreviation UserId := ustr (only parsing).

Inductive TransactionKind :=
| Ignore | WriteBegin | WriteCommit | WriteAbort | Insert | Update | Delete | Truncate
| TableLifecycle | IndexLifecycle | SchemaChange | MetadataChange | SqlDefinitionChange
| SecurityChange.

#[global] Instance TransactionKind_eq_dec : EqDecision TransactionKind.
Proof. solve_decision. Defined.

Inductive PayloadTransformError :=
| UnsupportedFormat
| InvalidCompressedPayload
| InvalidEncryptedPayload
| DecryptFailed
| EncryptionNotConfigured
| IntegrityCheckFailed
| InternalTransformError (message : string).

Record TransactionPayloadContext := mkContext {
  stream_id : option ustr;
  database_id : option ustr;
  table_id : option ustr;
  encryption_key_ref : option ustr;
  encryption_key_version : option Z
}.

#[global] Instance TransactionPayloadContext_eq_dec : EqDecision TransactionPayloadContext.
Proof. solve_decision. Defined.

Definition default_transaction_payload_context : TransactionPayloadContext :=
  mkContext None None None None None.

Definition with_at_rest_encryption (c : TransactionPayloadContext) (key_ref : ustr) (key_version : Z) :=
  mkContext (stream_id c) (database_id c) (table_id c) (Some key_ref) (Some key_version).

Definition at_rest_encryption_enabled (c : TransactionPayloadContext) : bool :=
  bool_decide (is_Some (encryption_key_ref c)).

Record TransactionPayloadShadow := mkShadow {
  shadow_payload : option bytes;
  resolved_context : option TransactionPayloadContext;
  is_resolved : bool
}.

#[global] Instance TransactionPayloadShadow_eq_dec : EqDecision TransactionPayloadShadow.
Proof. solve_decision. Defined.

Record TransactionRecord := mkRecord {
  id : TransactionId;
  groupid : option TransactionId;
  refid : option TransactionId;
  timestamp_epoch_ms : Z;
  actor : UserId;
  kind : TransactionKind;
  payload : option bytes;
  payload_shadow : option TransactionPayloadShadow
}.

#[global] Instance TransactionRecord_eq_dec : EqDecision TransactionRecord.
Proof. solve_decision. Defined.

(** [TransactionRecord::new]. *)
Definition new_record id groupid refid ts actor kind payload : TransactionRecord :=
  mkRecord id groupid refid ts actor kind payload None.

Definition with_payload id groupid refid ts actor kind (payload : bytes) : TransactionRecord :=
  new_record id groupid refid ts actor kind (Some payload).

Definition without_payload id groupid refid ts actor kind : TransactionRecord :=
  new_record id groupid refid ts actor kind None.

(** Assignments to one field, [record.id = ...] and the like. *)
Definition set_id i (r : TransactionRecord) :=
  mkRecord i (groupid r) (refid r) (timestamp_epoch_ms r) (actor r) (kind r) (payload r) (payload_shadow r).
Definition set_groupid g (r : TransactionRecord) :=
  mkRecord (id r) g (refid r) (timestamp_epoch_ms r) (actor r) (kind r) (payload r) (payload_shadow r).
Definition set_refid x (r : TransactionRecord) :=
  mkRecord (id r) (groupid r) x (timestamp_epoch_ms r) (actor r) (kind r) (payload r) (payload_shadow r).
Definition set_kind k (r : TransactionRecord) :=
  mkRecord (id r) (groupid r) (refid r) (timestamp_epoch_ms r) (actor r) k (payload r) (payload_shadow r).
Definition set_stored p s (r : TransactionRecord) :=
  mkRecord (id r) (groupid r) (refid r) (timestamp_epoch_ms r) (actor r) (kind r) p s.

(** ** Payload access *)

Definition payload_raw (r : TransactionRecord) : option bytes := payload r.

Definition resolved_payload (r : TransactionRecord) : option bytes :=
  match payload_shadow r with
  | Some shadow => if is_resolved shadow then shadow_payload shadow else None
  | None => None
  end.

Definition payload_logical (r : TransactionRecord) : option bytes :=
  match resolved_payload r with Some p => Some p | None => payload_raw r end.

(** [PartialEq::eq]: all fields, with the logical payload in place of the stored one. *)
Definition record_eq (a b : TransactionRecord) : bool :=
  (id a =? id b) && eqb (groupid a) (groupid b) && eqb (refid a) (refid b)
  && (timestamp_epoch_ms a =? timestamp_epoch_ms b) && eqb (actor a) (actor b)
  && eqb (kind a) (kind b) && eqb (payload_logical a) (payload_logical b).

Definition set_payload (p : option bytes) (context : option TransactionPayloadContext)
    (r : TransactionRecord) : TransactionRecord :=
  match p, context with
  | Some _, Some c =>
      if at_rest_encryption_enabled c
      then set_stored p (Some (mkShadow None (Some c) false)) r
      else set_stored p None r
  | _, _ => set_stored p None r
  end.

Definition clear_payload (r : TransactionRecord) : TransactionRecord := set_stored None None r.

(** The record [payload_mut] leaves behind, its stored payload being what the caller may mutate. *)
Definition payload_mut (r : TransactionRecord) : TransactionRecord :=
  match payload_shadow r with
  | Some shadow =>
      match (if is_resolved shadow then shadow_payload shadow else None) with
      | Some resolved => set_stored (Some resolved) None r
      | None => set_stored (payload r) None r
      end
  | None => set_stored (payload r) None r
  end.

(** ** Transform chains *)

(** A read transform, and a write transform of a given record: [Ok None] leaves the payload. *)
Abbreviation Transform :=
  (bytes → TransactionPayloadContext → result (option bytes) PayloadTransformError).

(** The [for transform in &self.transforms] loop of both chains. *)
Fixpoint run_transforms (transforms : list Transform) (current : bytes)
    (context : TransactionPayloadContext) : result bytes PayloadTransformError :=
  match transforms with
  | [] => Ok current
  | transform :: rest =>
      let? transformed := transform current context in
      run_transforms rest (default current transformed) context
  end.

(** [ChainedTransactionPayloadResolver::resolve_payload], and
    [ChainedTransactionPayloadWriter::write_payload_with_context] with the transforms of a record. *)
Definition resolve_payload (transforms : list Transform) (raw_payload : option bytes)
    (context : TransactionPayloadContext) : result (option bytes) PayloadTransformError :=
  match raw_payload with
  | None => Ok None
  | Some payload => let? current := run_transforms transforms payload context in Ok (Some current)
  end.

Definition write_payload_with_context (transforms : list (TransactionRecord → Transform))
    (record : TransactionRecord) (raw_payload : option bytes)
    (context : TransactionPayloadContext) : result (option bytes) PayloadTransformError :=
  match raw_payload with
  | None => Ok None
  | Some payload =>
      let? current := run_transforms ((fun t => t record) <$> transforms) payload context in
      Ok (Some current)
  end.

(** [TransactionRecord::resolve_payload_with_context]: the answer and the record with its cache. *)
Definition resolve_payload_with_context
    (resolver : option bytes → TransactionPayloadContext → result (option bytes) PayloadTransformError)
    (context : TransactionPayloadContext) (r : TransactionRecord)
    : result (option bytes) PayloadTransformError * TransactionRecord :=
  let cache_hit :=
    match payload_shadow r with
    | Some shadow => is_resolved shadow && eqb (resolved_context shadow) (Some context)
    | None => false
    end in
  if cache_hit then (Ok (payload_shadow r ≫= shadow_payload), r)
  else
    match resolver (payload_raw r) context with
    | Err e => (Err e, r)
    | Ok resolved => (Ok resolved, set_stored (payload r) (Some (mkShadow resolved (Some context) true)) r)
    end.

(** ** Transport frames

    Error values keep the case, without the formatted message of the underlying crate. *)

Inductive FrameError :=
| FrameSerializeFailed
| FrameDeserializeFailed
| FrameInvalidEncoding
| FrameInvalidUtf8
| FrameInvalidHex (c0 c1 : byte).

(** [std::str::from_utf8] on a two-byte chunk: two ASCII bytes, or one two-byte sequence. *)
Definition utf8_pair (c0 c1 : byte) : bool :=
  ((u8_Z c0 <? 128) && (u8_Z c1 <? 128))
  || ((194 <=? u8_Z c0) && (u8_Z c0 <=? 223) && (128 <=? u8_Z c1) && (u8_Z c1 <=? 191)).

Definition hex_digit (c : byte) : option Z :=
  let z := u8_Z c in
  if (48 <=? z) && (z <=? 57) then Some (z - 48)
  else if (97 <=? z) && (z <=? 102) then Some (z - 87)
  else if (65 <=? z) && (z <=? 70) then Some (z - 55)
  else None.

(** [u8::from_str_radix(chunk, 16)] on two bytes; a leading plus sign is accepted. *)
Definition from_str_radix_16 (c0 c1 : byte) : option Z :=
  if eqb c0 x2b then hex_digit c1
  else h ← hex_digit c0; l ← hex_digit c1; Some (16 * h + l).

Section frames.
Context `{Bincode (ustr * TransactionRecord)}.

Definition decode_wal_frame_bytes (bs : bytes) : result (ustr * TransactionRecord) FrameError :=
  match deserialize bs with Some frame => Ok frame | None => Err FrameDeserializeFailed end.

Definition encode_wal_frame (frame : ustr * TransactionRecord) : result bytes FrameError :=
  match serialize frame with Some bs => Ok (b64_encode_bytes bs) | None => Err FrameSerializeFailed end.

(** The [while i < chars.len()] loop of the legacy decoder. *)
Fixpoint decode_hex (chars : bytes) : result bytes FrameError :=
  match chars with
  | c0 :: c1 :: rest =>
      if utf8_pair c0 c1 then
        match from_str_radix_16 c0 c1 with
        | Some value => let? bs := decode_hex rest in Ok (Z_u8 value :: bs)
        | None => Err (FrameInvalidHex c0 c1)
        end
      else Err FrameInvalidUtf8
  | _ => Ok []
  end.

Definition decode_wal_frame (encoded : bytes) : result (ustr * TransactionRecord) FrameError :=
  let base64_bytes := b64_decode encoded in
  let legacy :=
    if Nat.even (length encoded) then
      let? bs := decode_hex encoded in decode_wal_frame_bytes bs
    else Err FrameInvalidEncoding in
  if is_empty base64_bytes then legacy
  else
    match decode_wal_frame_bytes base64_bytes with
    | Ok frame => Ok frame
    | Err _ => legacy
    end.
End frames.

(** ** Equality of records *)

(** The data of a record: everything but the resolve cache. *)
Definition strip_shadow (r : TransactionRecord) : TransactionRecord := set_stored (payload r) None r.

Lemma record_eq_spec a b :
  record_eq a b = true ↔
  id a = id b ∧ groupid a = groupid b ∧ refid a = refid b ∧
  timestamp_epoch_ms a = timestamp_epoch_ms b ∧ actor a = actor b ∧ kind a = kind b ∧
  payload_logical a = payload_logical b.
Proof. unfold record_eq. rewrite !andb_true_iff, !eqb_true, !Z.eqb_eq. tauto. Qed.

Definition record_equiv (a b : TransactionRecord) : Prop := record_eq a b = true.

#[global] Instance record_equiv_equivalence : Equivalence record_equiv.
Proof.
  split; unfold record_equiv.
  - intros a. apply record_eq_spec. auto 10.
  - intros a b. rewrite !record_eq_spec. intuition congruence.
  - intros a b c. rewrite !record_eq_spec. intuition congruence.
Qed.

#[global] Instance record_eq_proper :
  Proper (record_equiv ==> record_equiv ==> eq) record_eq.
Proof.
  intros a a' Ha b b' Hb.
  destruct (record_eq a b) eqn:E1, (record_eq a' b') eqn:E2; try reflexivity; exfalso.
  - assert (record_eq a' b' = true); [|congruence].
    change (record_equiv a' b'). transitivity a; [by symmetry|]. by transitivity b.
  - assert (record_eq a b = true); [|congruence].
    change (record_equiv a b). transitivity a'; [done|]. transitivity b'; [done|]. by symmetry.
Qed.

(** Without a cache, equality of records is equality of their data. *)
Lemma record_equiv_no_shadow a b :
  payload_shadow a = None → payload_shadow b = None → record_equiv a b → a = b.
Proof.
  unfold record_equiv. rewrite record_eq_spec.
  destruct a, b; unfold payload_logical, resolved_payload, payload_raw; simpl.
  intros -> -> ?. intuition congruence.
Qed.

Lemma payload_mut_logical r :
  payload_raw (payload_mut r) = payload_logical r ∧ payload_shadow (payload_mut r) = None.
Proof.
  destruct r as [? ? ? ? ? ? p [[s c [|]]|]]; unfold payload_mut, payload_logical, resolved_payload; simpl;
    [destruct s| |]; split; reflexivity.
Qed.

Lemma payload_mut_equiv r : record_equiv (payload_mut r) r.
Proof.
  apply record_eq_spec. destruct (payload_mut_logical r) as [Hp Hs].
  assert (payload_logical (payload_mut r) = payload_logical r) as ->.
  { unfold payload_logical at 1, resolved_payload. rewrite Hs. exact Hp. }
  destruct r as [? ? ? ? ? ? p [[s c [|]]|]]; unfold payload_mut; simpl; try destruct s; auto 10.
Qed.

(** ** Cached resolution *)

Section resolve_cache.
Context (resolver : option bytes → TransactionPayloadContext → result (option bytes) PayloadTransformError).

(** After a successful resolution the same context is answered from the cache, whatever resolver
    is passed, and the stored payload is untouched. *)
Lemma resolve_cached resolver' context r answer r' :
  resolve_payload_with_context resolver context r = (Ok answer, r') →
  resolve_payload_with_context resolver' context r' = (Ok answer, r') ∧ payload_raw r' = payload_raw r.
Proof.
  unfold resolve_payload_with_context. destruct (payload_shadow r) as [[s c res]|] eqn:Hs.
  - simpl. destruct (res && eqb c (Some context)) eqn:Hhit.
    + intros [= <- <-]. rewrite Hs. simpl. rewrite Hhit. auto.
    + destruct (resolver (payload_raw r) context) as [x|]; [|discriminate].
      intros [= <- <-]. simpl. rewrite eqb_refl. auto.
  - destruct (resolver (payload_raw r) context) as [x|]; [|discriminate].
    intros [= <- <-]. simpl. rewrite eqb_refl. auto.
Qed.

(** Replacing the payload drops the cache: the resolver sees the new bytes, in any context. *)
Lemma resolve_after_set_payload p c context r :
  fst (resolve_payload_with_context resolver context (set_payload p c r))
  = resolver p context.
Proof.
  unfold resolve_payload_with_context, set_payload.
  destruct p as [p|], c as [c|]; simpl; try destruct (at_rest_encryption_enabled c); simpl;
    match goal with |- context [resolver ?p ?c] => destruct (resolver p c) end; reflexivity.
Qed.
End resolve_cache.

(** ** Frame round trip *)

Definition strip_frame (frame : ustr * TransactionRecord) : ustr * TransactionRecord :=
  (fst frame, strip_shadow (snd frame)).

Lemma b64_decode_encode bs : b64_decode (b64_encode_bytes bs) = bs.
Proof.
  unfold b64_decode. rewrite <- (app_nil_r (b64_encode_bytes bs)).
  change [] with (replicate 0 x3d) at 2. rewrite b64_decode_encode_padded by lia. reflexivity.
Qed.

(** a WAL frame encoded for replication decodes to the same stream id and record data.  The
    resolve cache, which is not serialized, is the only part that is not carried. *)
Theorem wal_frame_roundtrip `{BincodeLaws (ustr * TransactionRecord) strip_frame} frame encoded :
  decode_budget frame ≤ MAX_DECODE_BYTES →
  encode_wal_frame frame = Ok encoded →
  decode_wal_frame encoded = Ok (strip_frame frame).
Proof.
  unfold encode_wal_frame. intros Hbudget. destruct (serialize frame) as [bs|] eqn:E; [|discriminate].
  intros [= <-]. pose proof (deserialize_serialize _ _ [] E Hbudget) as Hd. rewrite app_nil_r in Hd.
  unfold decode_wal_frame. rewrite b64_decode_encode.
  destruct bs as [|b bs]; cbn [is_empty]; unfold decode_wal_frame_bytes; [|rewrite Hd; reflexivity].
  cbn. rewrite Hd. reflexivity.
Qed.
