(* ===== verification/RowPayload.v ===== *)
(** * Row payloads at rest

    Models the encryption half of [serverlib/src/engine/database/row_payload.rs]: the envelope
    with its legacy form, the AES-GCM provider and the payload transforms the WAL chains.
    OpenSSL (SHA-256, AES-256-GCM) is a parameter, class [RowCrypto]; the random nonce is an
    argument, [None] when the generator fails. *)

From Stdlib Require Import ZArith Lia Strings.Byte.
From stdpp Require Import base list gmap strings.
From S2P Require Import Prelude Record.

Definition ENCRYPTED_ROW_PAYLOAD_MAGIC : bytes := [x64; x62; x72; x77].
Definition ENCRYPTED_ROW_PAYLOAD_ENVELOPE_VERSION : Z := 1.
Definition ENCRYPTED_ROW_PAYLOAD_NONCE_SIZE_BYTES : Z := 12.
Definition ENCRYPTED_ROW_PAYLOAD_AUTH_TAG_SIZE_BYTES : Z := 16.

Record EncryptedRowPayloadEnvelope := mkEnvelope {
  key_version : Z;
  nonce : bytes;
  auth_tag : bytes;
  ciphertext : bytes
}.

Record LegacyEncryptedRowPayloadEnvelope := mkLegacyEnvelope {
  magic : bytes;
  legacy_version : Z;
  legacy_key_version : Z;
  legacy_nonce : bytes;
  legacy_auth_tag : bytes;
  legacy_ciphertext : bytes
}.

Inductive EncryptedRowPayloadTransformPolicy := PreserveOpaque | RejectEncrypted.

(** ** OpenSSL *)

Class RowCrypto := {
  sha256 : bytes → bytes;
  (** key, nonce, associated data, plaintext; the ciphertext and the tag *)
  aes_256_gcm_encrypt : bytes → bytes → bytes → bytes → option (bytes * bytes);
  (** key, nonce, associated data, tag, ciphertext *)
  aes_256_gcm_decrypt : bytes → bytes → bytes → bytes → bytes → option bytes
}.

(** GCM as documented: decryption with the same key, nonce, data and tag returns the plaintext;
    the ciphertext is as long as the plaintext and the tag has the 16 bytes asked for. *)
Class RowCryptoLaws `{RowCrypto} := {
  gcm_decrypt_encrypt key nc aad p c tag :
    aes_256_gcm_encrypt key nc aad p = Some (c, tag) →
    aes_256_gcm_decrypt key nc aad tag c = Some p;
  gcm_length key nc aad p c tag :
    aes_256_gcm_encrypt key nc aad p = Some (c, tag) →
    length c = length p ∧ length tag = 16%nat
}.

Section row_payload.
Context `{RowCrypto} `{Bincode EncryptedRowPayloadEnvelope} `{Bincode LegacyEncryptedRowPayloadEnvelope}.

(** ** Envelope *)

Definition looks_like_valid_encrypted_payload_envelope (e : EncryptedRowPayloadEnvelope) : bool :=
  (0 <? key_version e)
  && (Z.of_nat (length (nonce e)) =? ENCRYPTED_ROW_PAYLOAD_NONCE_SIZE_BYTES)
  && (Z.of_nat (length (auth_tag e)) =? ENCRYPTED_ROW_PAYLOAD_AUTH_TAG_SIZE_BYTES)
  && negb (is_empty (ciphertext e)).

Definition encode_encrypted_row_payload_envelope key_version nonce auth_tag ciphertext : option bytes :=
  serialize (mkEnvelope key_version nonce auth_tag ciphertext).

Definition unsupported_version_prefix : ustr := lit "unsupported encrypted row payload version".

Definition decode_encrypted_row_payload_envelope (payload : bytes)
    : result (option EncryptedRowPayloadEnvelope) ustr :=
  let legacy :=
    match deserialize (A := LegacyEncryptedRowPayloadEnvelope) payload with
    | None => Ok None
    | Some l =>
        if negb (eqb (magic l) ENCRYPTED_ROW_PAYLOAD_MAGIC) then Ok None
        else if negb (legacy_version l =? ENCRYPTED_ROW_PAYLOAD_ENVELOPE_VERSION) then
          Err (unsupported_version_prefix ++ lit " " ++ show_u64 (legacy_version l))
        else
          let e := mkEnvelope (legacy_key_version l) (legacy_nonce l) (legacy_auth_tag l) (legacy_ciphertext l) in
          if negb (looks_like_valid_encrypted_payload_envelope e) then Ok None else Ok (Some e)
    end in
  match deserialize (A := EncryptedRowPayloadEnvelope) payload with
  | Some e => if looks_like_valid_encrypted_payload_envelope e then Ok (Some e) else legacy
  | None => legacy
  end.

Definition looks_like_encrypted_row_payload (payload : bytes) : bool :=
  match decode_encrypted_row_payload_envelope payload with Ok (Some _) => true | _ => false end.

(** The error mapping shared by the three transforms. *)
Definition envelope_error (message : ustr) : PayloadTransformError :=
  if starts_with message unsupported_version_prefix then UnsupportedFormat else InvalidEncryptedPayload.

(** [EncryptedRowPayloadTransform] as a read transform and as a write transform. *)
Definition encrypted_row_payload_transform (policy : EncryptedRowPayloadTransformPolicy) : Transform :=
  fun payload _ =>
    match decode_encrypted_row_payload_envelope payload with
    | Ok (Some _) =>
        match policy with PreserveOpaque => Ok None | RejectEncrypted => Err DecryptFailed end
    | Ok None => Ok None
    | Err message => Err (envelope_error message)
    end.

Definition encrypted_row_payload_write_transform (policy : EncryptedRowPayloadTransformPolicy)
    (_ : TransactionRecord) : Transform :=
  fun payload _ =>
    match decode_encrypted_row_payload_envelope payload with
    | Ok (Some _) =>
        match policy with PreserveOpaque => Ok None | RejectEncrypted => Err InvalidEncryptedPayload end
    | Ok None => Ok None
    | Err message => Err (envelope_error message)
    end.

(** ** AES-GCM provider *)

Definition resolve_key_bytes (context : TransactionPayloadContext)
    : result (bytes * Z) PayloadTransformError :=
  match encryption_key_ref context with
  | None => Err EncryptionNotConfigured
  | Some key_ref =>
      let version := default 0 (encryption_key_version context) in
      if version =? 0 then Err EncryptionNotConfigured
      else
        let key_material := lit "distdb-at-rest|" ++ key_ref ++ lit "|" ++ show_u64 version in
        Ok (sha256 (utf8_encode key_material), version)
  end.

Definition associated_data (context : TransactionPayloadContext) : bytes :=
  utf8_encode (lit "db=" ++ default [] (database_id context)
               ++ lit ";table=" ++ default [] (table_id context)
               ++ lit ";stream=" ++ default [] (stream_id context)).

(** [rand] is the outcome of [rand_bytes] on a 12-byte buffer. *)
Definition encrypt_row_payload (rand : option bytes) (context : TransactionPayloadContext)
    (plaintext : bytes) : result bytes PayloadTransformError :=
  let? k := resolve_key_bytes context in
  match rand with
  | None => Err (InternalTransformError "failed to generate nonce")
  | Some nc =>
      match aes_256_gcm_encrypt (fst k) nc (associated_data context) plaintext with
      | None => Err (InternalTransformError "payload encrypt failed")
      | Some (c, tag) =>
          match encode_encrypted_row_payload_envelope (snd k) nc tag c with
          | Some bs => Ok bs
          | None => Err (InternalTransformError "envelope serialization failed")
          end
      end
  end.

Definition decrypt_row_payload (context : TransactionPayloadContext)
    (envelope : EncryptedRowPayloadEnvelope) : result bytes PayloadTransformError :=
  let? k := resolve_key_bytes context in
  if negb (key_version envelope =? snd k) then Err DecryptFailed
  else
    match aes_256_gcm_decrypt (fst k) (nonce envelope) (associated_data context)
            (auth_tag envelope) (ciphertext envelope) with
    | Some p => Ok p
    | None => Err DecryptFailed
    end.

(** ** Encryption transforms *)

(** [RowPayloadEncryptionWriteTransform::transform_payload_for_write]. *)
Definition encryption_write_transform (rand : option bytes) (record : TransactionRecord) : Transform :=
  fun payload context =>
    if negb (eqb (kind record) Insert || eqb (kind record) Update) then Ok None
    else if looks_like_encrypted_row_payload payload then Ok None
    else
      match encryption_key_ref context with
      | None => Ok None
      | Some _ =>
          if default 0 (encryption_key_version context) =? 0 then Err EncryptionNotConfigured
          else let? bs := encrypt_row_payload rand context payload in Ok (Some bs)
      end.

(** [RowPayloadDecryptionTransform::transform_payload]. *)
Definition decryption_transform : Transform :=
  fun payload context =>
    match encryption_key_ref context with
    | None => Ok None
    | Some key_ref =>
        if (default 0 (encryption_key_version context) =? 0) || is_empty key_ref
        then Err EncryptionNotConfigured
        else
          match decode_encrypted_row_payload_envelope payload with
          | Ok (Some envelope) =>
              let? bs := decrypt_row_payload context envelope in Ok (Some bs)
          | Ok None => Ok None
          | Err message => Err (envelope_error message)
          end
    end.
End row_payload.

(** ** Round trip of the at-rest encryption *)

(** Every value these bytes encode is within the limit of the decoder. *)
Definition within_decode_limit (A : Type) `{Bincode A} (bs : bytes) : Prop :=
  ∀ x : A, serialize x = Some bs → decode_budget x ≤ MAX_DECODE_BYTES.

(** A context whose at-rest encryption both directions accept. *)
Definition encryption_configured (context : TransactionPayloadContext) (key_ref : ustr) (version : Z) : Prop :=
  encryption_key_ref context = Some key_ref ∧ key_ref ≠ [] ∧
  encryption_key_version context = Some version ∧ 0 < version.

Section encryption_roundtrip.
Context `{RowCryptoLaws} `{BincodeLaws EncryptedRowPayloadEnvelope (λ e, e)}.
Context `{Bincode LegacyEncryptedRowPayloadEnvelope}.

Lemma resolve_key_bytes_configured context key_ref version :
  encryption_configured context key_ref version →
  ∃ key, resolve_key_bytes context = Ok (key, version).
Proof.
  intros (Hr & _ & Hv & Hpos). unfold resolve_key_bytes. rewrite Hr, Hv. simpl.
  rewrite (proj2 (Z.eqb_neq _ _)) by lia. eauto.
Qed.

(** The bytes of an encryption are recognised as an envelope that decrypts to the plaintext. *)
Lemma encrypt_then_decrypt context key_ref version nc p bs :
  encryption_configured context key_ref version →
  length nc = 12%nat → p ≠ [] →
  encrypt_row_payload (Some nc) context p = Ok bs →
  within_decode_limit EncryptedRowPayloadEnvelope bs →
  ∃ e, decode_encrypted_row_payload_envelope bs = Ok (Some e) ∧ decrypt_row_payload context e = Ok p.
Proof.
  intros Hc Hn Hp He Hlim. pose proof Hc as (_ & _ & _ & Hpos).
  destruct (resolve_key_bytes_configured _ _ _ Hc) as [key Hk].
  unfold encrypt_row_payload in He. rewrite Hk in He. simpl in He.
  destruct (aes_256_gcm_encrypt _ _ _ _) as [[c tag]|] eqn:Eg; [|discriminate].
  unfold encode_encrypted_row_payload_envelope in He.
  destruct (serialize _) as [bs'|] eqn:Es; [|discriminate]. injection He as ->.
  pose proof (deserialize_serialize _ _ [] Es (Hlim _ Es)) as Hd. rewrite app_nil_r in Hd.
  destruct (gcm_length _ _ _ _ _ _ Eg) as [Hlc Hlt].
  exists (mkEnvelope version nc tag c). split.
  - unfold decode_encrypted_row_payload_envelope. rewrite Hd.
    unfold looks_like_valid_encrypted_payload_envelope. simpl.
    rewrite Hn, Hlt, (proj2 (Z.ltb_lt _ _)) by lia.
    destruct c; [destruct p; [done|discriminate]|]. reflexivity.
  - unfold decrypt_row_payload. rewrite Hk. simpl.
    rewrite Z.eqb_refl. simpl. rewrite (gcm_decrypt_encrypt _ _ _ _ _ _ Eg). reflexivity.
Qed.

(** What the encryption write transform does to a fresh row payload of an encrypted table. *)
Lemma encryption_write_transform_encrypts rand record context key_ref version p :
  encryption_configured context key_ref version →
  kind record = Insert ∨ kind record = Update →
  looks_like_encrypted_row_payload p = false →
  encryption_write_transform rand record p context
  = let? bs := encrypt_row_payload rand context p in Ok (Some bs).
Proof.
  intros (Hr & _ & Hv & Hpos) Hkind Hp. unfold encryption_write_transform.
  rewrite Hp, Hr, Hv. simpl. rewrite (proj2 (Z.eqb_neq _ _)) by lia.
  destruct Hkind as [-> | ->]; reflexivity.
Qed.

Lemma decryption_transform_envelope context key_ref version bs e :
  encryption_configured context key_ref version →
  decode_encrypted_row_payload_envelope bs = Ok (Some e) →
  decryption_transform bs context = let? p := decrypt_row_payload context e in Ok (Some p).
Proof.
  intros (Hr & Hne & Hv & Hpos) He. unfold decryption_transform. rewrite Hr, Hv, He. simpl.
  rewrite (proj2 (Z.eqb_neq _ _)) by lia. destruct key_ref; [done|]. reflexivity.
Qed.

(** a row payload encrypted on the way to the WAL is given back by the read transform of
    the same context, and a context whose key version differs is refused. *)
Theorem at_rest_roundtrip record context key_ref version nc p bs :
  encryption_configured context key_ref version →
  kind record = Insert ∨ kind record = Update →
  looks_like_encrypted_row_payload p = false →
  length nc = 12%nat → p ≠ [] →
  encryption_write_transform (Some nc) record p context = Ok (Some bs) →
  within_decode_limit EncryptedRowPayloadEnvelope bs →
  decryption_transform bs context = Ok (Some p) ∧
  (∀ key_ref' version', version' ≠ version →
     encryption_configured (with_at_rest_encryption context key_ref' version') key_ref' version' →
     decryption_transform bs (with_at_rest_encryption context key_ref' version') = Err DecryptFailed).
Proof.
  intros Hc Hkind Hp Hn Hne Hw Hlim.
  rewrite (encryption_write_transform_encrypts _ _ _ _ _ _ Hc Hkind Hp) in Hw.
  destruct (encrypt_row_payload _ _ _) as [bs'|] eqn:Ee; [|discriminate]. injection Hw as ->.
  destruct (encrypt_then_decrypt _ _ _ _ _ _ Hc Hn Hne Ee Hlim) as (e & Hde & Hdec). split.
  - rewrite (decryption_transform_envelope _ _ _ _ _ Hc Hde), Hdec. reflexivity.
  - intros key_ref' version' Hv' Hc'.
    rewrite (decryption_transform_envelope _ _ _ _ _ Hc' Hde).
    unfold decrypt_row_payload in *. destruct (resolve_key_bytes_configured _ _ _ Hc) as [key Hk].
    destruct (resolve_key_bytes_configured _ _ _ Hc') as [key' Hk'].
    rewrite Hk in Hdec. rewrite Hk'. simpl in *.
    destruct (key_version e =? version) eqn:E1; [|discriminate].
    apply Z.eqb_eq in E1. rewrite E1, (proj2 (Z.eqb_neq _ _)) by lia. reflexivity.
Qed.
End encryption_roundtrip.

(** The write side accepts an empty key reference; the read side refuses every payload then. *)
Lemma empty_key_ref_unreadable `{RowCrypto} `{Bincode EncryptedRowPayloadEnvelope}
    `{Bincode LegacyEncryptedRowPayloadEnvelope} context bs :
  encryption_key_ref context = Some [] →
  decryption_transform bs context = Err EncryptionNotConfigured.
Proof. intros Hr. unfold decryption_transform. rewrite Hr, orb_true_r. reflexivity. Qed.
