(* ===== verification/WalFile.v ===== *)
(** * WAL files

    Models the file format of [common/src/helpers/format.rs] and the storage half of
    [serverlib/src/engine/wal.rs]: compression and encryption of record payloads on the way to
    disk, framing, the two replay loops and the rewrite of a whole file.  A file is its bytes.
    zlib (flate2) is a parameter, class [Zlib].  A read error is the end of the readable bytes:
    every replay loop treats it as the end of the file. *)

From Stdlib Require Import ZArith Lia Strings.Byte.
From stdpp Require Import base list gmap strings.
From S2P Require Import Prelude Settings Record RowPayload.

(** ** File headers *)

Inductive FileKind := DataFile | CatalogFile | EntityFile.

Inductive HeaderError := TooShort | BadMagic | UnsupportedVersion (v : byte).

Definition extension (k : FileKind) : ustr :=
  match k with DataFile => lit "dtbl" | CatalogFile => lit "dbcat" | EntityFile => lit "ent" end.

Definition file_magic (k : FileKind) : bytes :=
  match k with
  | DataFile => [x44; x54; x42; x4c]
  | CatalogFile => [x44; x42; x43; x54]
  | EntityFile => [x44; x42; x45; x4e]
  end.

Definition file_name (k : FileKind) (stem : ustr) : ustr := stem ++ lit "." ++ extension k.

Definition FORMAT_VERSION : byte := x01.
Definition HEADER_SIZE : nat := 5.

Definition make_header (k : FileKind) : bytes := file_magic k ++ [FORMAT_VERSION].

Definition verify_header (k : FileKind) (bs : bytes) : result byte HeaderError :=
  if (Nat.ltb (length bs) HEADER_SIZE) then Err TooShort
  else if negb (eqb (take 4 bs) (file_magic k)) then Err BadMagic
  else
    let version := nth 4 bs x00 in
    if negb (eqb version FORMAT_VERSION) then Err (UnsupportedVersion version) else Ok version.

(** ** zlib *)

(** Which of the two encoder calls failed. *)
Inductive ZlibEncodeError := ZlibWriteFailed | ZlibFinishFailed.

Class Zlib := {
  zlib_compress : bytes → result bytes ZlibEncodeError;
  zlib_decompress : bytes → option bytes
}.

Definition looks_like_zlib_payload (payload : bytes) : bool :=
  match payload with
  | b0 :: b1 :: _ =>
      if negb (eqb b0 x78) then false
      else Z.lor (Z.shiftl (u8_Z b0) 8) (u8_Z b1) mod 31 =? 0
  | _ => false
  end.

(** The documented stream: it decompresses to the input and starts with a zlib header of the
    default window ([0x78], checksum divisible by 31). *)
Class ZlibLaws `{Zlib} := {
  zlib_decompress_compress p c : zlib_compress p = Ok c → zlib_decompress c = Some p;
  zlib_header p c : zlib_compress p = Ok c → looks_like_zlib_payload c = true
}.

(** A payload the transforms left alone, or a new one. *)
Inductive Cow := Borrowed (p : bytes) | Owned (p : bytes).

Definition cow_bytes (c : Cow) : bytes := match c with Borrowed p | Owned p => p end.

(** [if transformed == payload { Borrowed } else { Owned }]. *)
Definition to_cow (original : bytes) (transformed : bytes) : Cow :=
  if eqb transformed original then Borrowed original else Owned transformed.

Definition into_owned_payload (p : option Cow) : option bytes :=
  match p with Some (Owned p) => Some p | _ => None end.

(** ** Storage payloads *)

Section storage.
Context `{RowCrypto} `{Zlib} `{Env}.
Context `{Bincode EncryptedRowPayloadEnvelope} `{Bincode LegacyEncryptedRowPayloadEnvelope}.
Context `{Bincode TransactionRecord}.

Definition wal_max_frame_size_bytes : Z := positive_usize WAL_MAX_FRAME_BYTES (64 * 1024 * 1024).

Definition maybe_decode_compressed_payload_bytes (payload : bytes) : result (option bytes) string :=
  if looks_like_zlib_payload payload then
    match zlib_decompress payload with
    | Some decoded => Ok (Some decoded)
    | None => Err "failed to decompress WAL payload"
    end
  else Ok None.

(** [WalCompressionPayloadTransform::transform_payload]. *)
Definition wal_compression_transform : Transform :=
  fun payload _ =>
    match maybe_decode_compressed_payload_bytes payload with
    | Ok decoded => Ok decoded
    | Err message =>
        if String.eqb message "failed to decompress WAL payload" then Err InvalidCompressedPayload
        else if String.eqb message "decompressed WAL payload length mismatch" then Err IntegrityCheckFailed
        else Err (InternalTransformError message)
    end.

Definition resolve_wal_storage_payload (raw_payload : option bytes)
    (context : TransactionPayloadContext) : result (option Cow) PayloadTransformError :=
  match raw_payload with
  | None => Ok None
  | Some payload =>
      if eqb context default_transaction_payload_context && negb (looks_like_zlib_payload payload)
      then Ok (Some (Borrowed payload))
      else
        let? resolved :=
          resolve_payload
            [wal_compression_transform; decryption_transform; encrypted_row_payload_transform PreserveOpaque]
            (Some payload) context in
        Ok (to_cow payload <$> resolved)
  end.

Definition should_skip_payload_compression (record : TransactionRecord) (payload : bytes) : bool :=
  (eqb (kind record) Insert || eqb (kind record) Update || eqb (kind record) Delete)
  && looks_like_encrypted_row_payload payload.

(** [WalCompressionPayloadWriteTransform::transform_payload_for_write]. *)
Definition wal_compression_write_transform (record : TransactionRecord) : Transform :=
  fun payload _ =>
    if should_skip_payload_compression record payload then Ok None
    else
      match zlib_compress payload with
      | Ok compressed => Ok (Some compressed)
      | Err ZlibWriteFailed => Err (InternalTransformError "failed to compress WAL payload")
      | Err ZlibFinishFailed => Err (InternalTransformError "failed to finish WAL payload compression")
      end.

Definition write_wal_storage_payload (rand : option bytes) (record : TransactionRecord)
    (raw_payload : option bytes) (context : TransactionPayloadContext)
    : result (option Cow) PayloadTransformError :=
  match raw_payload with
  | None => Ok None
  | Some payload =>
      let? transformed :=
        write_payload_with_context
          [encryption_write_transform rand; encrypted_row_payload_write_transform PreserveOpaque;
           wal_compression_write_transform]
          record (Some payload) context in
      Ok (to_cow payload <$> transformed)
  end.

Definition map_payload_transform_error (error : PayloadTransformError) : string :=
  match error with
  | InvalidCompressedPayload => "failed to decompress WAL payload"
  | IntegrityCheckFailed => "decompressed WAL payload length mismatch"
  | UnsupportedFormat => "unsupported WAL payload format"
  | InvalidEncryptedPayload | DecryptFailed | EncryptionNotConfigured | InternalTransformError _ =>
      "failed to deserialize WAL record"
  end.

Definition map_payload_write_transform_error (error : PayloadTransformError) : string :=
  match error with
  | InternalTransformError message =>
      if String.eqb message "failed to compress WAL payload" then "failed to compress WAL payload"
      else if String.eqb message "failed to finish WAL payload compression"
      then "failed to finish WAL payload compression"
      else "failed to serialize WAL record"
  | UnsupportedFormat => "unsupported WAL payload format"
  | IntegrityCheckFailed => "decompressed WAL payload length mismatch"
  | InvalidCompressedPayload => "failed to compress WAL payload"
  | InvalidEncryptedPayload | DecryptFailed | EncryptionNotConfigured =>
      "failed to serialize WAL record"
  end.

(** ** Records on disk *)

Definition record_for_storage_with_payload (record : TransactionRecord) (payload : option bytes) :=
  new_record (id record) (groupid record) (refid record) (timestamp_epoch_ms record)
    (actor record) (kind record) payload.

Definition encode_record_for_storage_with_context (rand : option bytes) (record : TransactionRecord)
    (context : TransactionPayloadContext) : result bytes string :=
  let? stored_payload :=
    map_err map_payload_write_transform_error
      (write_wal_storage_payload rand record (payload_raw record) context) in
  let to_serialize :=
    match into_owned_payload stored_payload with
    | Some payload => record_for_storage_with_payload record (Some payload)
    | None => record
    end in
  match serialize to_serialize with
  | Some bs => Ok bs
  | None => Err "failed to serialize WAL record"
  end.

Definition decode_record_from_storage_with_context (encoded : bytes)
    (context : TransactionPayloadContext) : result TransactionRecord string :=
  match deserialize (A := TransactionRecord) encoded with
  | None => Err "failed to deserialize WAL record"
  | Some record =>
      let? resolved :=
        map_err map_payload_transform_error
          (resolve_wal_storage_payload (payload_raw record) context) in
      match into_owned_payload resolved with
      | Some payload => Ok (set_payload (Some payload) (Some context) record)
      | None => Ok record
      end
  end.

Definition frame_record_with_context (rand : option bytes) (record : TransactionRecord)
    (context : TransactionPayloadContext) : result bytes string :=
  let? encoded := encode_record_for_storage_with_context rand record context in
  Ok (to_le_bytes 8 (Z.of_nat (length encoded)) ++ encoded).

(** The [while pos + 8 <= bytes.len()] loop over a file held in memory.  Every round moves [pos]
    by at least 8, so [length bytes] rounds are enough. *)
Fixpoint decode_from_bytes_at (fuel : nat) (bs : bytes) (pos : nat)
    (context : TransactionPayloadContext) : list TransactionRecord :=
  match fuel with
  | O => []
  | S fuel =>
      if Nat.ltb (length bs) (pos + 8) then []
      else
        let len := from_le_bytes (take 8 (drop pos bs)) in
        let pos := (pos + 8)%nat in
        if usize_max <? len then []
        else if wal_max_frame_size_bytes <? len then []
        else if usize_max <? Z.of_nat pos + len then []
        else if Z.of_nat (length bs) <? Z.of_nat pos + len then []
        else
          match decode_record_from_storage_with_context (take (Z.to_nat len) (drop pos bs)) context with
          | Ok record => record :: decode_from_bytes_at fuel bs (pos + Z.to_nat len) context
          | Err _ => []
          end
  end.

Definition decode_records_sequential_from_bytes_with_context (bs : bytes)
    (context : TransactionPayloadContext) : list TransactionRecord :=
  decode_from_bytes_at (length bs) bs HEADER_SIZE context.

(** [Read::read_exact] of [n] bytes: the bytes and the rest, or nothing at the end. *)
Definition read_exact (n : Z) (reader : bytes) : option (bytes * bytes) :=
  if Z.of_nat (length reader) <? n then None
  else Some (take (Z.to_nat n) reader, drop (Z.to_nat n) reader).

(** The [loop] over a reader positioned after the header. *)
Fixpoint decode_from_reader (fuel : nat) (reader : bytes)
    (context : TransactionPayloadContext) : list TransactionRecord :=
  match fuel with
  | O => []
  | S fuel =>
      match read_exact 8 reader with
      | None => []
      | Some (len_buf, reader) =>
          let len := from_le_bytes len_buf in
          if usize_max <? len then []
          else if wal_max_frame_size_bytes <? len then []
          else
            match read_exact len reader with
            | None => []
            | Some (frame, reader) =>
                match decode_record_from_storage_with_context frame context with
                | Ok record => record :: decode_from_reader fuel reader context
                | Err _ => []
                end
            end
      end
  end.

Definition decode_records_sequential_from_reader_with_context (reader : bytes)
    (context : TransactionPayloadContext) : list TransactionRecord :=
  decode_from_reader (S (length reader)) reader context.

Definition load_records_from_stream (bs : bytes) : list TransactionRecord :=
  match verify_header DataFile bs with
  | Err _ => []
  | Ok _ => decode_records_sequential_from_bytes_with_context bs default_transaction_payload_context
  end.

(** [file] is the content of the file, [None] when it cannot be opened. *)
Definition load_records_from_path (file : option bytes) : list TransactionRecord :=
  match file with
  | None => []
  | Some content =>
      match read_exact (Z.of_nat HEADER_SIZE) content with
      | None => []
      | Some (header, reader) =>
          match verify_header DataFile header with
          | Err _ => []
          | Ok _ =>
              decode_records_sequential_from_reader_with_context reader
                default_transaction_payload_context
          end
      end
  end.

(** The bytes [rewrite_wal_file_with_context] writes; [rng i] is the random nonce drawn for the
    [i]th record. *)
Fixpoint frame_records (rng : nat → option bytes) (records : list TransactionRecord)
    (context : TransactionPayloadContext) : result bytes string :=
  match records with
  | [] => Ok []
  | record :: rest =>
      let? frame := frame_record_with_context (rng O) record context in
      let? frames := frame_records (rng ∘ S) rest context in
      Ok (frame ++ frames)
  end.

Definition rewritten_wal_bytes (rng : nat → option bytes) (records : list TransactionRecord)
    (context : TransactionPayloadContext) : result bytes string :=
  let? frames := frame_records rng records context in
  Ok (make_header DataFile ++ frames).
End storage.

(** ** Storage round trip *)

(** A row payload that already is an encrypted envelope is stored as it is, so it must not look
    like a zlib stream: the reader could not tell it from a compressed one. *)
Definition zlib_unambiguous `{RowCrypto} `{Bincode EncryptedRowPayloadEnvelope}
    `{Bincode LegacyEncryptedRowPayloadEnvelope} (record : TransactionRecord) : Prop :=
  ∀ p, payload record = Some p → should_skip_payload_compression record p = true →
       looks_like_zlib_payload p = false.

Lemma cow_bytes_to_cow original transformed : cow_bytes (to_cow original transformed) = transformed.
Proof.
  unfold to_cow. destruct (eqb transformed original) eqn:E; [|reflexivity].
  apply eqb_eq in E. symmetry. exact E.
Qed.

Section storage_roundtrip.
Context `{RowCrypto} `{ZlibLaws} `{Env}.
Context `{Bincode EncryptedRowPayloadEnvelope} `{Bincode LegacyEncryptedRowPayloadEnvelope}.
Context `{BincodeLaws TransactionRecord strip_shadow}.

(** The record whose bytes are on disk: the data of [r] with the transformed payload. *)
Lemma encode_serializes rand r context bs :
  encode_record_for_storage_with_context rand r context = Ok bs →
  ∃ stored, write_wal_storage_payload rand r (payload r) context = Ok stored ∧
            serialize (set_stored (cow_bytes <$> stored) None r) = Some bs.
Proof.
  unfold encode_record_for_storage_with_context, payload_raw.
  destruct (write_wal_storage_payload _ _ _ _) as [stored|] eqn:Ew; simpl; [|discriminate].
  intros He. exists stored. split; [reflexivity|].
  assert (serialize (match into_owned_payload stored with
                     | Some p => record_for_storage_with_payload r (Some p) | None => r end) = Some bs)
    as Hs by (destruct (serialize _); congruence).
  rewrite <- Hs. destruct stored as [[p|p]|]; simpl; try reflexivity.
  - unfold write_wal_storage_payload in Ew. destruct (payload r) as [q|] eqn:Ep; [|discriminate].
    destruct (write_payload_with_context _ _ _ _) as [[t|]|]; simpl in Ew; try discriminate.
    unfold to_cow in Ew. destruct (eqb t q); [|discriminate]. injection Ew as ->.
    rewrite <- (serialize_norm r). unfold strip_shadow. rewrite Ep. reflexivity.
  - unfold write_wal_storage_payload in Ew. destruct (payload r) as [q|] eqn:Ep.
    + destruct (write_payload_with_context _ _ _ _) as [[t|]|] eqn:E; simpl in Ew; try discriminate.
      unfold write_payload_with_context in E. destruct (run_transforms _ _ _); discriminate.
    + rewrite <- (serialize_norm r). unfold strip_shadow. rewrite Ep. reflexivity.
Qed.

(** Reading the bytes back starts from that record, whatever follows them. *)
Lemma decode_serialized context stored r bs :
  serialize (set_stored stored None r) = Some bs →
  within_decode_limit TransactionRecord bs →
  decode_record_from_storage_with_context bs context
  = let? resolved := map_err map_payload_transform_error (resolve_wal_storage_payload stored context) in
    Ok (match into_owned_payload resolved with
        | Some p => set_payload (Some p) (Some context) (set_stored stored None r)
        | None => set_stored stored None r end).
Proof.
  intros Hs Hlim. unfold decode_record_from_storage_with_context.
  pose proof (deserialize_serialize _ _ [] Hs (Hlim _ Hs)) as Hd. rewrite app_nil_r in Hd.
  rewrite Hd. unfold payload_raw. simpl. unfold strip_shadow. simpl.
  destruct (resolve_wal_storage_payload stored context) as [resolved|]; simpl; [|reflexivity].
  destruct (into_owned_payload resolved); reflexivity.
Qed.

(** In the default context nothing is encrypted: the stored payload is the payload, compressed
    unless it is an envelope. *)
Lemma write_default rand r p stored :
  write_wal_storage_payload rand r (Some p) default_transaction_payload_context = Ok stored →
  (∃ e, decode_encrypted_row_payload_envelope p = Ok e) ∧
  ∃ s, cow_bytes <$> stored = Some s ∧
       if should_skip_payload_compression r p then s = p else zlib_compress p = Ok s.
Proof.
  unfold write_wal_storage_payload, write_payload_with_context. simpl.
  assert (encryption_write_transform rand r p default_transaction_payload_context = Ok None) as ->.
  { unfold encryption_write_transform. destruct (negb _), (looks_like_encrypted_row_payload p); reflexivity. }
  simpl. unfold encrypted_row_payload_write_transform.
  destruct (decode_encrypted_row_payload_envelope p) as [[e|]|] eqn:Ee; simpl; [..|discriminate];
    unfold wal_compression_write_transform;
    (destruct (should_skip_payload_compression r p); [|destruct (zlib_compress p) as [c|[]]]);
    simpl; try discriminate; intros [= <-]; (split; [eauto|]); simpl;
    rewrite cow_bytes_to_cow; eauto.
Qed.

Lemma resolve_compressed p s :
  (∃ e, decode_encrypted_row_payload_envelope p = Ok e) →
  zlib_compress p = Ok s →
  resolve_wal_storage_payload (Some s) default_transaction_payload_context = Ok (Some (to_cow s p)).
Proof.
  intros [e He] Hc. unfold resolve_wal_storage_payload. rewrite (zlib_header _ _ Hc), andb_false_r.
  unfold resolve_payload. simpl. unfold wal_compression_transform, maybe_decode_compressed_payload_bytes.
  rewrite (zlib_header _ _ Hc), (zlib_decompress_compress _ _ Hc). simpl.
  unfold encrypted_row_payload_transform. rewrite He. destruct e; reflexivity.
Qed.

(** A record written in the default context reads back with the same data. *)
Lemma storage_roundtrip_default rand r bs :
  zlib_unambiguous r →
  encode_record_for_storage_with_context rand r default_transaction_payload_context = Ok bs →
  within_decode_limit TransactionRecord bs →
  decode_record_from_storage_with_context bs default_transaction_payload_context = Ok (strip_shadow r).
Proof.
  intros Hz He Hlim. destruct (encode_serializes _ _ _ _ He) as (stored & Hw & Hs).
  rewrite (decode_serialized _ _ _ _ Hs Hlim).
  destruct (payload r) as [p|] eqn:Ep.
  - destruct (write_default _ _ _ _ Hw) as (Henv & s & -> & Hskip).
    destruct (should_skip_payload_compression r p) eqn:Esk.
    + subst s. unfold resolve_wal_storage_payload. rewrite (Hz p Ep Esk).
      unfold strip_shadow. rewrite Ep. reflexivity.
    + rewrite (resolve_compressed _ _ Henv Hskip). simpl. unfold to_cow, strip_shadow.
      destruct (eqb p s) eqn:Eq; [apply eqb_eq in Eq as ->|]; simpl; rewrite Ep; reflexivity.
  - injection Hw as <-. simpl. unfold strip_shadow. rewrite Ep. reflexivity.
Qed.

(** The stored payload of a fresh row of an encrypted table is its envelope, uncompressed. *)
Lemma write_encrypted rand r context key_ref version p e stored :
  encryption_configured context key_ref version →
  kind r = Insert ∨ kind r = Update →
  looks_like_encrypted_row_payload p = false →
  encrypt_row_payload rand context p = Ok e →
  looks_like_encrypted_row_payload e = true →
  write_wal_storage_payload rand r (Some p) context = Ok stored →
  cow_bytes <$> stored = Some e.
Proof.
  intros Hc Hk Hp He Hle. unfold write_wal_storage_payload, write_payload_with_context. simpl.
  rewrite (encryption_write_transform_encrypts _ _ _ _ _ _ Hc Hk Hp), He. simpl.
  assert (encrypted_row_payload_write_transform PreserveOpaque r e context = Ok None) as ->.
  { unfold encrypted_row_payload_write_transform. unfold looks_like_encrypted_row_payload in Hle.
    destruct (decode_encrypted_row_payload_envelope e) as [[]|]; done. }
  simpl. unfold wal_compression_write_transform, should_skip_payload_compression. rewrite Hle.
  destruct Hk as [-> | ->]; simpl; intros [= <-]; simpl; rewrite cow_bytes_to_cow; reflexivity.
Qed.
End storage_roundtrip.

Section encrypted_storage.
Context `{RowCryptoLaws} `{ZlibLaws} `{Env}.
Context `{BincodeLaws EncryptedRowPayloadEnvelope (λ e, e)} `{Bincode LegacyEncryptedRowPayloadEnvelope}.
Context `{BincodeLaws TransactionRecord strip_shadow}.

(** a row record of an encrypted table reads back with its plaintext in the table's context;
    replayed in the default context, as hydration does, it carries the ciphertext, which the
    table's context resolves to the plaintext later. *)
Theorem encrypted_storage_roundtrip nc r context key_ref version p e bs :
  encryption_configured context key_ref version →
  kind r = Insert ∨ kind r = Update →
  payload r = Some p → p ≠ [] → length nc = 12%nat →
  decode_encrypted_row_payload_envelope p = Ok None →
  encrypt_row_payload (Some nc) context p = Ok e →
  looks_like_zlib_payload e = false →
  encode_record_for_storage_with_context (Some nc) r context = Ok bs →
  within_decode_limit EncryptedRowPayloadEnvelope e →
  within_decode_limit TransactionRecord bs →
  decode_record_from_storage_with_context bs context = Ok (set_payload (Some p) (Some context) r) ∧
  decode_record_from_storage_with_context bs default_transaction_payload_context
    = Ok (set_stored (Some e) None r) ∧
  resolve_wal_storage_payload (Some e) context = Ok (Some (Owned p)).
Proof.
  intros Hc Hk Hpay Hp Hnc Henv He Hz Henc Hlime Hlim.
  destruct (encrypt_then_decrypt _ _ _ _ _ _ Hc Hnc Hp He Hlime) as (env & Hde & Hdec).
  assert (looks_like_encrypted_row_payload e = true) as Hle
    by (unfold looks_like_encrypted_row_payload; rewrite Hde; reflexivity).
  assert (looks_like_encrypted_row_payload p = false) as Hlp
    by (unfold looks_like_encrypted_row_payload; rewrite Henv; reflexivity).
  destruct (encode_serializes _ _ _ _ Henc) as (stored & Hw & Hs). rewrite Hpay in Hw.
  rewrite (write_encrypted _ _ _ _ _ _ _ _ Hc Hk Hlp He Hle Hw) in Hs.
  assert (resolve_wal_storage_payload (Some e) context = Ok (Some (Owned p))) as Hres.
  { unfold resolve_wal_storage_payload. destruct (eqb context _) eqn:Ectx.
    { apply eqb_eq in Ectx. destruct Hc as [Hr _]. subst. discriminate. }
    simpl. unfold wal_compression_transform, maybe_decode_compressed_payload_bytes. rewrite Hz. simpl.
    rewrite (decryption_transform_envelope _ _ _ _ _ Hc Hde), Hdec. simpl.
    unfold encrypted_row_payload_transform. rewrite Henv. simpl. unfold to_cow.
    rewrite (proj2 (eqb_false _ _)) by congruence. reflexivity. }
  rewrite !(decode_serialized _ _ _ _ Hs Hlim), Hres. simpl. split; [|split]; [|rewrite Hz|]; try reflexivity.
Qed.
End encrypted_storage.

(** ** Replay of frames *)

Section replay.
Context `{RowCrypto} `{Zlib} `{Env}.
Context `{Bincode EncryptedRowPayloadEnvelope} `{Bincode LegacyEncryptedRowPayloadEnvelope}.
Context `{Bincode TransactionRecord}.
Implicit Types context : TransactionPayloadContext.

Lemma wal_max_frame_bounds : 0 < wal_max_frame_size_bytes ≤ usize_max.
Proof. apply positive_usize_bounds. unfold usize_max, u64_max. lia. Qed.

Lemma read_exact_app n xs ys :
  Z.of_nat (length xs) = n → read_exact n (xs ++ ys) = Some (xs, ys).
Proof.
  intros <-. unfold read_exact. rewrite Nat2Z.id, length_app, take_app_length, drop_app_length.
  rewrite (proj2 (Z.ltb_ge _ _)) by lia. reflexivity.
Qed.

Lemma read_exact_Some n reader xs ys :
  0 ≤ n → read_exact n reader = Some (xs, ys) → reader = xs ++ ys ∧ Z.of_nat (length xs) = n.
Proof.
  unfold read_exact. intros Hn. destruct (Z.of_nat (length reader) <? n) eqn:E; [discriminate|].
  intros [= <- <-]. rewrite take_drop, length_take. split; [done|]. lia.
Qed.

Lemma read_exact_short n xs : Z.of_nat (length xs) < n → read_exact n xs = None.
Proof. intros Hl. unfold read_exact. rewrite (proj2 (Z.ltb_lt _ _)) by lia. reflexivity. Qed.

(** More rounds than bytes change nothing: the loop ends at the end of the file. *)
Lemma decode_from_reader_fuel fuel fuel' reader context :
  (length reader < fuel)%nat → (length reader < fuel')%nat →
  decode_from_reader fuel reader context = decode_from_reader fuel' reader context.
Proof.
  revert fuel' reader. induction fuel as [|fuel IH]; intros [|fuel'] reader Hf Hf'; try lia. simpl.
  destruct (read_exact 8 reader) as [[len_buf r]|] eqn:E8; [|reflexivity].
  apply read_exact_Some in E8 as [-> Hl8]; [|lia]. rewrite length_app in *.
  pose proof (from_le_bytes_bounds len_buf) as Hb.
  destruct (usize_max <? _); [reflexivity|]. destruct (wal_max_frame_size_bytes <? _); [reflexivity|].
  destruct (read_exact (from_le_bytes len_buf) r) as [[frame r']|] eqn:Ef; [|reflexivity].
  apply read_exact_Some in Ef as [-> Hlf]; [|lia]. rewrite length_app in *.
  destruct (decode_record_from_storage_with_context frame context); [|reflexivity].
  f_equal. apply IH; lia.
Qed.

(** A frame as it lies in the file. *)
Definition frame_of (encoded : bytes) : bytes :=
  to_le_bytes 8 (Z.of_nat (length encoded)) ++ encoded.

Lemma length_frame_of encoded : length (frame_of encoded) = (8 + length encoded)%nat.
Proof. unfold frame_of. rewrite length_app, length_to_le_bytes. reflexivity. Qed.

(** The loop reads one frame and goes on behind it. *)
Lemma decode_frame_cons context encoded record rest :
  Z.of_nat (length encoded) ≤ wal_max_frame_size_bytes →
  decode_record_from_storage_with_context encoded context = Ok record →
  decode_records_sequential_from_reader_with_context (frame_of encoded ++ rest) context
  = record :: decode_records_sequential_from_reader_with_context rest context.
Proof.
  intros Hlen Hdec. pose proof wal_max_frame_bounds as Hmax. unfold usize_max, u64_max in Hmax.
  unfold decode_records_sequential_from_reader_with_context, frame_of. rewrite <- app_assoc.
  set (tail := decode_from_reader _ rest context).
  cbn [decode_from_reader]. rewrite read_exact_app by (rewrite length_to_le_bytes; lia).
  rewrite from_to_le_bytes by lia.
  rewrite (proj2 (Z.ltb_ge _ _)) by (unfold usize_max, u64_max; lia).
  rewrite (proj2 (Z.ltb_ge _ _)) by lia. rewrite read_exact_app by lia. rewrite Hdec.
  f_equal. apply decode_from_reader_fuel; [rewrite !length_app, length_to_le_bytes|]; lia.
Qed.

(** Less than a whole frame left: replay stops, whatever the bytes are. *)
Lemma decode_frame_torn context encoded n :
  Z.of_nat (length encoded) ≤ wal_max_frame_size_bytes →
  (n < length (frame_of encoded))%nat →
  decode_records_sequential_from_reader_with_context (take n (frame_of encoded)) context = [].
Proof.
  intros Hlen Hn. rewrite length_frame_of in Hn. pose proof wal_max_frame_bounds as Hmax.
  unfold usize_max, u64_max in Hmax.
  unfold decode_records_sequential_from_reader_with_context. cbn [decode_from_reader].
  destruct (decide (n < 8)%nat) as [Hlt|Hge].
  { rewrite read_exact_short; [reflexivity|]. rewrite length_take. lia. }
  unfold frame_of. rewrite take_app_ge by (rewrite length_to_le_bytes; lia).
  rewrite read_exact_app by (rewrite length_to_le_bytes; lia). rewrite from_to_le_bytes by lia.
  rewrite (proj2 (Z.ltb_ge _ _)) by (unfold usize_max, u64_max; lia).
  rewrite (proj2 (Z.ltb_ge _ _)) by lia.
  rewrite read_exact_short; [reflexivity|]. rewrite length_take, length_to_le_bytes. lia.
Qed.

(** The loop over a file in memory is the loop over a reader placed at [pos]. *)
Lemma decode_from_bytes_reader fuel bs pos context :
  Z.of_nat (length bs) ≤ usize_max → (length bs < fuel + pos)%nat → (pos ≤ length bs)%nat →
  decode_from_bytes_at fuel bs pos context
  = decode_records_sequential_from_reader_with_context (drop pos bs) context.
Proof.
  intros Hmax. unfold decode_records_sequential_from_reader_with_context.
  revert pos. induction fuel as [|fuel IH]; intros pos Hf Hpos; [lia|].
  cbn [decode_from_bytes_at decode_from_reader]. unfold read_exact at 1. rewrite length_drop.
  destruct (Nat.ltb_spec (length bs) (pos + 8)).
  { rewrite (proj2 (Z.ltb_lt _ 8)) by lia. reflexivity. }
  rewrite (proj2 (Z.ltb_ge _ 8)) by lia. change (Z.to_nat 8) with 8%nat.
  set (len := from_le_bytes _). pose proof (from_le_bytes_bounds (take 8 (drop pos bs))) as Hb.
  fold len in Hb. destruct (usize_max <? len); [reflexivity|].
  destruct (wal_max_frame_size_bytes <? len); [reflexivity|].
  unfold read_exact. rewrite drop_drop, length_drop.
  destruct (Z.ltb_spec usize_max (Z.of_nat (pos + 8) + len)).
  { rewrite (proj2 (Z.ltb_lt _ len)) by lia. reflexivity. }
  destruct (Z.ltb_spec (Z.of_nat (length bs)) (Z.of_nat (pos + 8) + len)).
  { rewrite (proj2 (Z.ltb_lt _ len)) by lia. reflexivity. }
  rewrite (proj2 (Z.ltb_ge _ len)) by lia.
  destruct (decode_record_from_storage_with_context _ context); [|reflexivity].
  f_equal. rewrite IH by lia. rewrite drop_drop.
  apply decode_from_reader_fuel; rewrite !length_drop; lia.
Qed.

(** ** Files as sequences of records *)

(** Bytes that are the frames of the given records, as the default-context replay decodes them. *)
Inductive frames_for : list TransactionRecord → bytes → Prop :=
| frames_nil : frames_for [] []
| frames_cons record records encoded rest :
    Z.of_nat (length encoded) ≤ wal_max_frame_size_bytes →
    decode_record_from_storage_with_context encoded default_transaction_payload_context = Ok record →
    frames_for records rest →
    frames_for (record :: records) (frame_of encoded ++ rest).

(** A file with a valid header and nothing but the frames of the given records. *)
Definition clean_file (records : list TransactionRecord) (content : bytes) : Prop :=
  ∃ frames, content = make_header DataFile ++ frames ∧ frames_for records frames.

Lemma frames_for_app r1 r2 f1 f2 :
  frames_for r1 f1 → frames_for r2 f2 → frames_for (r1 ++ r2) (f1 ++ f2).
Proof.
  induction 1 as [|record records encoded rest Hl Hd Hf IH]; intros H2'; simpl; [done|].
  rewrite <- app_assoc. constructor; auto.
Qed.

Lemma clean_file_app records content r2 f2 :
  clean_file records content → frames_for r2 f2 → clean_file (records ++ r2) (content ++ f2).
Proof.
  intros (f1 & -> & Hf1) Hf2. exists (f1 ++ f2). rewrite app_assoc.
  split; [reflexivity|]. by apply frames_for_app.
Qed.

Lemma clean_file_empty : clean_file [] (make_header DataFile).
Proof. exists []. rewrite app_nil_r. split; [reflexivity|constructor]. Qed.

(** Replay of frames cut off after [n] bytes: the whole frames, in order. *)
Lemma replay_torn_frames records frames n :
  frames_for records frames →
  ∃ k, decode_records_sequential_from_reader_with_context (take n frames)
         default_transaction_payload_context = take k records
       ∧ (length frames ≤ n → length records ≤ k)%nat.
Proof.
  intros Hf. revert n. induction Hf as [|record records encoded rest Hl Hd Hf IH]; intros n.
  { exists 0%nat. rewrite take_nil. split; [reflexivity|simpl; lia]. }
  destruct (decide (n < length (frame_of encoded))%nat) as [Hn|Hn].
  - exists 0%nat. rewrite take_app_le by lia. rewrite decode_frame_torn by done.
    split; [reflexivity|]. rewrite length_app. lia.
  - destruct (IH (n - length (frame_of encoded))%nat) as (k & Hk & Hall). exists (S k).
    rewrite take_app_ge by lia. rewrite (decode_frame_cons _ _ record) by done. rewrite Hk.
    split; [reflexivity|]. rewrite length_app. cbn [length]. lia.
Qed.

Lemma load_header_app rest :
  load_records_from_path (Some (make_header DataFile ++ rest))
  = decode_records_sequential_from_reader_with_context rest default_transaction_payload_context.
Proof. unfold load_records_from_path. rewrite read_exact_app by reflexivity. reflexivity. Qed.

Lemma replay_frames_app records frames rest :
  frames_for records frames →
  decode_records_sequential_from_reader_with_context (frames ++ rest) default_transaction_payload_context
  = records ++ decode_records_sequential_from_reader_with_context rest default_transaction_payload_context.
Proof.
  induction 1 as [|record records encoded frames Hl Hd Hf IH]; [reflexivity|].
  rewrite <- app_assoc, (decode_frame_cons _ _ record), IH by done. reflexivity.
Qed.

Lemma load_clean_file records content :
  clean_file records content → load_records_from_path (Some content) = records.
Proof.
  intros (f & -> & Hf). rewrite load_header_app, <- (app_nil_r f), (replay_frames_app records) by done.
  apply app_nil_r.
Qed.

(** A file whose last append was cut off replays the old records and whole new ones. *)
Lemma load_torn_file records content r2 f2 n :
  clean_file records content → frames_for r2 f2 → (length content ≤ n)%nat →
  ∃ k, load_records_from_path (Some (take n (content ++ f2))) = records ++ take k r2
       ∧ (length (content ++ f2) ≤ n → length r2 ≤ k)%nat.
Proof.
  intros (f1 & -> & Hf1) Hf2 Hn. rewrite take_app_ge by done.
  rewrite <- app_assoc, load_header_app, (replay_frames_app records) by done.
  destruct (replay_torn_frames r2 f2 (n - length (make_header DataFile ++ f1)) Hf2) as (k & Hk & Hall).
  exists k. rewrite Hk. split; [reflexivity|]. rewrite !length_app in *. lia.
Qed.

(** Both loaders give the same records on every file. *)
Lemma load_stream_path bs :
  Z.of_nat (length bs) ≤ usize_max →
  load_records_from_stream bs = load_records_from_path (Some bs).
Proof.
  intros Hmax. unfold load_records_from_stream, load_records_from_path, read_exact, verify_header.
  change (Z.to_nat (Z.of_nat HEADER_SIZE)) with HEADER_SIZE.
  destruct (Nat.ltb_spec (length bs) HEADER_SIZE) as [Hs|Hs].
  { rewrite (proj2 (Z.ltb_lt _ _)) by lia. reflexivity. }
  rewrite (proj2 (Z.ltb_ge _ _)) by lia.
  rewrite length_take, (Nat.min_l HEADER_SIZE) by lia. simpl Nat.ltb. cbv iota.
  rewrite take_take, (Nat.min_l 4 HEADER_SIZE) by (unfold HEADER_SIZE; lia).
  assert (nth 4 (take HEADER_SIZE bs) x00 = nth 4 bs x00) as ->.
  { do 5 (destruct bs as [|? bs]; [reflexivity|]). reflexivity. }
  destruct (negb (eqb (take 4 bs) _)); [reflexivity|]. destruct (negb _); [reflexivity|].
  apply decode_from_bytes_reader; unfold HEADER_SIZE in *; lia.
Qed.
End replay.

(** ** Rewriting a file *)

Section rewrite.
Context `{RowCrypto} `{ZlibLaws} `{Env}.
Context `{Bincode EncryptedRowPayloadEnvelope} `{Bincode LegacyEncryptedRowPayloadEnvelope}.
Context `{BincodeLaws TransactionRecord strip_shadow}.

(** A record the default context can store: its frame is within the limits of the reader and its
    payload is not ambiguous to it. *)
Definition storable (record : TransactionRecord) : Prop :=
  zlib_unambiguous record ∧
  ∀ rand bs, encode_record_for_storage_with_context rand record default_transaction_payload_context = Ok bs →
    Z.of_nat (length bs) ≤ wal_max_frame_size_bytes ∧ within_decode_limit TransactionRecord bs.

Lemma frame_record_clean rand record frame rest frames :
  storable record →
  frame_record_with_context rand record default_transaction_payload_context = Ok frame →
  frames_for rest frames → frames_for (strip_shadow record :: rest) (frame ++ frames).
Proof.
  intros [Hz Hlim] Hf Hrest. unfold frame_record_with_context in Hf.
  destruct (encode_record_for_storage_with_context _ _ _) as [bs|] eqn:E; [|discriminate].
  injection Hf as <-. destruct (Hlim _ _ E). change (to_le_bytes 8 (Z.of_nat (length bs)) ++ bs) with (frame_of bs).
  constructor; [done| |done]. by eapply storage_roundtrip_default.
Qed.

Lemma frame_records_clean rng records frames :
  Forall storable records →
  frame_records rng records default_transaction_payload_context = Ok frames →
  frames_for (strip_shadow <$> records) frames.
Proof.
  intros Hall. revert rng frames. induction Hall as [|record records Hr Hall IH]; intros rng frames; simpl.
  - intros [= <-]. constructor.
  - destruct (frame_record_with_context _ _ _) as [frame|] eqn:Ef; [|discriminate].
    destruct (frame_records _ _ _) as [fs|] eqn:Efs; [|discriminate]. intros [= <-].
    eapply frame_record_clean; eauto.
Qed.

Lemma rewritten_wal_clean rng records content :
  Forall storable records →
  rewritten_wal_bytes rng records default_transaction_payload_context = Ok content →
  clean_file (strip_shadow <$> records) content.
Proof.
  intros Hall. unfold rewritten_wal_bytes.
  destruct (frame_records _ _ _) as [frames|] eqn:E; [|discriminate]. intros [= <-].
  exists frames. split; [reflexivity|]. by eapply frame_records_clean.
Qed.
End rewrite.

(** ** Crash safety of the file format *)

Section crash_safety.
Context `{RowCrypto} `{ZlibLaws} `{Env}.
Context `{Bincode EncryptedRowPayloadEnvelope} `{Bincode LegacyEncryptedRowPayloadEnvelope}.
Context `{BincodeLaws TransactionRecord strip_shadow}.

(** C28: a file that was rewritten with [old] and then extended by the frames of [new] replays,
    after a crash that kept any number of bytes of the extension, all of [old] followed by a
    prefix of [new], in order and without garbage; when all bytes were kept, all of [new]. *)
Theorem torn_append_replays_prefix rng1 rng2 old new content frames n :
  Forall storable old → Forall storable new →
  rewritten_wal_bytes rng1 old default_transaction_payload_context = Ok content →
  frame_records rng2 new default_transaction_payload_context = Ok frames →
  (length content ≤ n)%nat →
  ∃ k, load_records_from_path (Some (take n (content ++ frames)))
         = strip_shadow <$> (old ++ take k new)
       ∧ (length (content ++ frames) ≤ n → length new ≤ k)%nat.
Proof.
  intros Hold Hnew Hc Hf Hn.
  destruct (load_torn_file _ _ _ _ n (rewritten_wal_clean _ _ _ Hold Hc)
              (frame_records_clean _ _ _ Hnew Hf) Hn) as (k & Hk & Hall).
  exists k. rewrite Hk, fmap_app, fmap_take. split; [reflexivity|].
  rewrite length_fmap in Hall. exact Hall.
Qed.

(** the loader that holds the file in memory and the streaming loader return the same
    records on every byte string, well-formed or not. *)
Theorem loaders_agree bs :
  Z.of_nat (length bs) ≤ usize_max →
  load_records_from_stream bs = load_records_from_path (Some bs).
Proof. apply load_stream_path. Qed.
End crash_safety.
