(* ===== verification/Wal.v ===== *)
(** * The WAL worker: ordering, merging, compaction

    Models the part of [serverlib/src/engine/wal.rs] that works on the records of one stream: the
    ordered append, the merge of out-of-order records, the batch, the compaction to the latest
    schema and metadata, and the realignment of positions.  The search of the standard library is
    a parameter with its documented contract (class [BinarySearch]), because which of several
    equal keys it returns is unspecified; [std_binary_search] is an instance. *)

From Stdlib Require Import ZArith Lia Sorting.Sorted.
From stdpp Require Import base list gmap strings sorting.
From S2P Require Import Prelude Record.

(** ** [binary_search_by_key] *)

Class BinarySearch := { binary_search : list Z → Z → result nat nat }.

(** On a sorted slice: some matching position, or the position that keeps the slice sorted. *)
Class BinarySearchLaws `{BinarySearch} := {
  binary_search_found keys key i :
    Sorted Z.le keys → binary_search keys key = Ok i → keys !! i = Some key;
  binary_search_absent keys key i :
    Sorted Z.le keys → binary_search keys key = Err i →
    (i ≤ length keys)%nat ∧ Forall (λ k, k < key) (take i keys) ∧ Forall (λ k, key < k) (drop i keys)
}.

(** [slice::partition_point] on a predicate that holds on a prefix. *)
Fixpoint partition_point {A} (p : A → bool) (l : list A) : nat :=
  match l with
  | [] => O
  | x :: l => if p x then S (partition_point p l) else O
  end.

Definition first_record_index_after_id (entries : list TransactionRecord) (from : TransactionId) : nat :=
  partition_point (λ e, id e <=? from) entries.

(** ** Appending *)

(** [entries.last().map(|last| record.id > last.id).unwrap_or(true)]. *)
Definition is_ordered (entries : list TransactionRecord) (record : TransactionRecord) : bool :=
  match last entries with Some l => id l <? id record | None => true end.

(** The scan of [exact_record_duplicate_at_or_after] from its start on. *)
Fixpoint duplicate_scan (entries : list TransactionRecord) (record : TransactionRecord) : bool :=
  match entries with
  | e :: rest => if id e =? id record then record_eq e record || duplicate_scan rest record else false
  | [] => false
  end.

Definition exact_record_duplicate_at_or_after (entries : list TransactionRecord)
    (record : TransactionRecord) (start_idx : nat) : bool :=
  duplicate_scan (drop start_idx entries) record.

(** The loop that moves [insert_pos] behind the records with a smaller or equal id. *)
Definition insert_pos (entries : list TransactionRecord) (record : TransactionRecord) (base_pos : nat) : nat :=
  (base_pos + partition_point (λ e, (id e <=? id record)%Z) (drop base_pos entries))%nat.

(** [Vec::insert]. *)
Definition vec_insert {A} (pos : nat) (x : A) (l : list A) : list A := take pos l ++ x :: drop pos l.

Section append.
Context `{BinarySearch}.

Definition base_pos (entries : list TransactionRecord) (record : TransactionRecord) : nat :=
  match binary_search (id <$> entries) (id record) with Ok i => i | Err i => i end.

(** What an append does to the records of a stream. *)
Inductive Placement :=
| PushBack
| AlreadyPresent
| InsertAt (pos : nat).

Definition place (entries : list TransactionRecord) (record : TransactionRecord) : Placement :=
  if is_ordered entries record then PushBack
  else if exact_record_duplicate_at_or_after entries record (base_pos entries record)
  then AlreadyPresent
  else InsertAt (insert_pos entries record (base_pos entries record)).

Definition apply_placement (p : Placement) (entries : list TransactionRecord) (record : TransactionRecord) :=
  match p with
  | PushBack => entries ++ [record]
  | AlreadyPresent => entries
  | InsertAt pos => vec_insert pos record entries
  end.

(** One round of the in-memory path of an append. *)
Definition merge_record (entries : list TransactionRecord) (record : TransactionRecord) :=
  apply_placement (place entries record) entries record.

(** The test whether a batch can be appended as a whole. *)
Fixpoint batch_ordered (previous_id : option Z) (records : list TransactionRecord) : bool :=
  match records with
  | [] => true
  | r :: rest =>
      let is_after := match previous_id with Some l => l <? id r | None => true end in
      is_after && batch_ordered (Some (id r)) rest
  end.

(** The merge loop of an unordered batch: the records, whether anything was inserted out of
    order, and whether anything changed. *)
Fixpoint merge_batch (entries : list TransactionRecord) (records : list TransactionRecord)
    (merged_out_of_order staged_dirty : bool) : list TransactionRecord * bool * bool :=
  match records with
  | [] => (entries, merged_out_of_order, staged_dirty)
  | r :: rest =>
      match place entries r with
      | PushBack => merge_batch (entries ++ [r]) rest merged_out_of_order true
      | AlreadyPresent => merge_batch entries rest merged_out_of_order staged_dirty
      | InsertAt pos => merge_batch (vec_insert pos r entries) rest true true
      end
  end.
End append.

(** ** Compaction *)

(** The first match from the end, as the reverse loop finds it. *)
Definition latest_with (p : TransactionKind → bool) (entries : list TransactionRecord) : option TransactionRecord :=
  snd <$> list_find (λ r, Is_true (p (kind r))) (reverse entries).

Definition is_schema_kind (k : TransactionKind) : bool := eqb k SchemaChange.
Definition is_metadata_kind (k : TransactionKind) : bool := eqb k MetadataChange || eqb k SecurityChange.

(** [for (position, record) in rebuilt.iter_mut().enumerate() { record.id = position }]. *)
Definition renumber (records : list TransactionRecord) : list TransactionRecord :=
  imap (λ position record, set_id (Z.of_nat position) record) records.

Definition compact_entries_to_latest_schema_and_metadata (entries : list TransactionRecord)
    (actor : UserId) (timestamp_epoch_ms : Z) : list TransactionRecord :=
  let retained_ids : list Z :=
    (match latest_with is_schema_kind entries with Some r => [id r] | None => [] end)
    ++ (match latest_with is_metadata_kind entries with Some r => [id r] | None => [] end) in
  let marked :=
    (λ r, if bool_decide (id r ∈ retained_ids) then r
          else clear_payload (set_refid None (set_kind Ignore r))) <$> entries in
  let kept := filter (λ r, kind r ≠ Ignore) marked in
  let rebuilt :=
    (λ r, match refid r with
          | Some x => if bool_decide (x ∈ retained_ids) then r else set_refid None r
          | None => r
          end) <$> kept in
  renumber (rebuilt ++ [without_payload 0 None None timestamp_epoch_ms actor Truncate]).

(** ** Realignment *)

(** The map from old ids to positions: later records win, as [HashMap::insert] does. *)
Fixpoint id_remap_from (position : nat) (records : list TransactionRecord) (m : gmap Z Z) : gmap Z Z :=
  match records with
  | [] => m
  | r :: rest => id_remap_from (S position) rest (<[id r := Z.of_nat position]> m)
  end.

Definition remap_record (m : gmap Z Z) (position : nat) (r : TransactionRecord) : TransactionRecord :=
  set_groupid (groupid r ≫= (m !!.))
    (set_refid (refid r ≫= (m !!.)) (set_id (Z.of_nat position) r)).

(** The new records, or the refusal when only ignored records are left. *)
Definition realign_records (entries : list TransactionRecord) : result (list TransactionRecord) string :=
  let live := filter (λ r, kind r ≠ Ignore) entries in
  let m := id_remap_from 0 live ∅ in
  if bool_decide (m = ∅) && negb (is_empty entries)
  then Err "WAL realignment refused: no live records remain"
  else Ok (imap (remap_record m) live).

(** [validate_stream_record_positions] on the records. *)
Definition positions_aligned (records : list TransactionRecord) : bool :=
  forallb (λ '(position, r), id r =? Z.of_nat position) (zip (seq 0 (length records)) records).

(** ** Write timestamps *)

Definition write_timestamp_if_data_write (r : TransactionRecord) : option Z :=
  match kind r with Insert | Update | Delete => Some (timestamp_epoch_ms r) | _ => None end.

(** [Iterator::max] on the timestamps. *)
Definition max_option (l : list Z) : option Z :=
  match l with [] => None | x :: l => Some (foldl Z.max x l) end.

Definition latest_write_timestamp (entries : list TransactionRecord) : option Z :=
  max_option (omap write_timestamp_if_data_write entries).

(** ** Sorted streams *)

(** The invariant of a stream: ids do not decrease. *)
Definition sorted_ids (entries : list TransactionRecord) : Prop :=
  StronglySorted (λ a b, id a ≤ id b) entries.

(** Streams without two records of the same id. *)
Definition unique_ids (entries : list TransactionRecord) : Prop :=
  StronglySorted (λ a b, id a < id b) entries.

Lemma unique_sorted entries : unique_ids entries → sorted_ids entries.
Proof.
  unfold unique_ids, sorted_ids. induction 1 as [|e l _ IH Hall]; constructor; [done|].
  eapply Forall_impl; [exact Hall|]. simpl. lia.
Qed.

Lemma sorted_keys entries : sorted_ids entries → Sorted Z.le (id <$> entries).
Proof.
  unfold sorted_ids. induction 1 as [|e l Hs IH Hall]; simpl; constructor; [done|].
  destruct Hall; simpl; constructor. lia.
Qed.

#[export] Hint Resolve unique_sorted sorted_keys : distdb.

(** *** Partition points *)

Lemma partition_point_le {A} (p : A → bool) l : (partition_point p l ≤ length l)%nat.
Proof. induction l as [|x l IH]; simpl; [lia|]. destruct (p x); lia. Qed.

Lemma partition_point_take {A} (p : A → bool) l : Forall (λ x, p x = true) (take (partition_point p l) l).
Proof. induction l as [|x l IH]; simpl; [constructor|]. destruct (p x) eqn:E; simpl; constructor; auto. Qed.

(** A known prefix of matches can be skipped. *)
Lemma partition_point_skip {A} (p : A → bool) n l :
  Forall (λ x, p x = true) (take n l) → (n ≤ length l)%nat →
  partition_point p l = (n + partition_point p (drop n l))%nat.
Proof.
  revert l. induction n as [|n IH]; intros l Hp Hn; [reflexivity|].
  destruct l as [|x l]; [simpl in Hn; lia|]. simpl in *. inversion Hp as [|? ? Hx Hp']; subst.
  rewrite Hx, (IH l) by (auto; lia). reflexivity.
Qed.

Lemma partition_point_all {A} (p : A → bool) l : Forall (λ x, p x = true) l → partition_point p l = length l.
Proof. induction 1 as [|x l Hx _ IH]; simpl; [done|]. rewrite Hx, IH. reflexivity. Qed.

Lemma index_after_drop entries from :
  sorted_ids entries → Forall (λ e, from < id e) (drop (first_record_index_after_id entries from) entries).
Proof.
  unfold first_record_index_after_id. induction 1 as [|e l Hs IH Hall]; simpl; [constructor|].
  destruct (Z.leb_spec (id e) from); simpl; [exact IH|].
  constructor; [lia|]. eapply Forall_impl; [exact Hall|]. simpl. lia.
Qed.

Lemma index_after_take entries from :
  Forall (λ e, id e ≤ from) (take (first_record_index_after_id entries from) entries).
Proof. eapply Forall_impl; [apply partition_point_take|]. simpl. intros e. apply Z.leb_le. Qed.

(** *** The search position does not matter *)

Lemma sorted_keys_before entries i key :
  sorted_ids entries → (id <$> entries) !! i = Some key → Forall (λ e, id e ≤ key) (take i entries).
Proof.
  intros Hs. revert i. induction Hs as [|e l Hs IH Hall]; intros i; [done|].
  destruct i as [|i]; simpl; [constructor|]. intros Hi. constructor; [|by apply IH].
  rewrite list_lookup_fmap in Hi. destruct (l !! i) as [x|] eqn:Ex; [|discriminate]. injection Hi as <-.
  rewrite Forall_lookup in Hall. exact (Hall _ _ Ex).
Qed.

Lemma unique_ids_index entries i j a b :
  unique_ids entries → entries !! i = Some a → entries !! j = Some b → id a = id b → i = j.
Proof.
  intros Hu. revert i j. induction Hu as [|e l Hu IH Hall]; intros i j; [done|].
  rewrite Forall_lookup in Hall. destruct i as [|i], j as [|j]; simpl; intros Ha Hb Hid.
  - done.
  - injection Ha as <-. specialize (Hall _ _ Hb). simpl in Hall. lia.
  - injection Hb as <-. specialize (Hall _ _ Ha). simpl in Hall. lia.
  - f_equal. eauto.
Qed.

Section merge.
Context `{BinarySearchLaws}.

Lemma base_pos_prefix entries record :
  sorted_ids entries →
  (base_pos entries record ≤ length entries)%nat ∧
  Forall (λ e, (id e <=? id record) = true) (take (base_pos entries record) entries).
Proof.
  intros Hs. unfold base_pos. destruct (binary_search _ _) as [i|i] eqn:E.
  - apply binary_search_found in E; [|auto with distdb].
    split; [apply lookup_lt_Some in E; rewrite length_fmap in E; lia|].
    eapply Forall_impl; [by apply sorted_keys_before|]. simpl. intros e. apply Z.leb_le.
  - apply binary_search_absent in E as (Hi & Hlt & _); [|auto with distdb].
    rewrite length_fmap in Hi. split; [done|]. rewrite <- fmap_take, Forall_fmap in Hlt.
    eapply Forall_impl; [exact Hlt|]. simpl. intros e. rewrite Z.leb_le. lia.
Qed.

(** Whichever equal key the search hits, the record goes behind all records with an id up to its own. *)
Lemma insert_pos_spec entries record :
  sorted_ids entries →
  insert_pos entries record (base_pos entries record) = first_record_index_after_id entries (id record).
Proof.
  intros Hs. destruct (base_pos_prefix entries record Hs) as [Hle Hp].
  unfold insert_pos, first_record_index_after_id. symmetry. by apply partition_point_skip.
Qed.

Lemma last_sorted entries l :
  sorted_ids entries → last entries = Some l → Forall (λ e, id e ≤ id l) entries.
Proof.
  induction 1 as [|e es Hs IH Hall]; [done|]. intros Hl. destruct es as [|e' es].
  - injection Hl as ->. repeat constructor. lia.
  - change (last (e' :: es) = Some l) in Hl. specialize (IH Hl). constructor; [|done].
    rewrite Forall_lookup in Hall. apply last_Some in Hl as [l' Hl]. rewrite Hl in Hall.
    apply (Hall (length l')). rewrite lookup_app_r, Nat.sub_diag by lia. reflexivity.
Qed.

Lemma ordered_index entries record :
  sorted_ids entries → is_ordered entries record = true →
  first_record_index_after_id entries (id record) = length entries.
Proof.
  intros Hs. unfold is_ordered, first_record_index_after_id. destruct (last entries) as [l|] eqn:El.
  - intros Hlt. apply partition_point_all. eapply Forall_impl; [by apply last_sorted|].
    simpl. intros e. rewrite Z.leb_le. apply Z.ltb_lt in Hlt. lia.
  - apply last_None in El. subst. reflexivity.
Qed.

(** The record of [entries] that [place] recognised as the same. *)
Lemma duplicate_scan_sound entries record :
  duplicate_scan entries record = true → ∃ e, e ∈ entries ∧ record_equiv e record.
Proof.
  induction entries as [|e l IH]; simpl; [discriminate|].
  destruct (id e =? id record); [|discriminate]. rewrite orb_true_iff. intros [He|Hl].
  - exists e. split; [left|done].
  - destruct (IH Hl) as (e' & ? & ?). exists e'. split; [by right|done].
Qed.

(** An append to a sorted stream is the insertion behind all records with an id up to its own,
    or leaves the stream alone because it already has the record. *)
Lemma merge_record_spec entries record :
  sorted_ids entries →
  (merge_record entries record
   = vec_insert (first_record_index_after_id entries (id record)) record entries)
  ∨ (merge_record entries record = entries ∧ ∃ e, e ∈ entries ∧ record_equiv e record).
Proof.
  intros Hs. unfold merge_record, place. destruct (is_ordered entries record) eqn:Eo; simpl.
  - left. unfold vec_insert. rewrite ordered_index, take_ge, drop_ge by done. reflexivity.
  - destruct (exact_record_duplicate_at_or_after _ _ _) eqn:Ed; simpl.
    + right. split; [done|]. apply duplicate_scan_sound in Ed as (e & He & Heq).
      exists e. split; [|done]. by eapply subseteq_drop.
    + left. rewrite insert_pos_spec by done. reflexivity.
Qed.

Lemma vec_insert_perm {A} pos (x : A) l : vec_insert pos x l ≡ₚ x :: l.
Proof. unfold vec_insert. rewrite <- Permutation_middle, take_drop. reflexivity. Qed.

Lemma vec_insert_sorted entries record :
  sorted_ids entries →
  sorted_ids (vec_insert (first_record_index_after_id entries (id record)) record entries).
Proof.
  intros Hs. pose proof (index_after_take entries (id record)) as Ht.
  pose proof (index_after_drop entries (id record) Hs) as Hd.
  rewrite Forall_forall in Ht, Hd. unfold sorted_ids, vec_insert in *.
  rewrite <- (take_drop (first_record_index_after_id entries (id record)) entries) in Hs.
  apply StronglySorted_app in Hs as (Hcross & Hl & Hr).
  apply StronglySorted_app_2; [|done|].
  - intros a b Ha [->|Hb]%elem_of_cons; [apply Ht; done|]. by apply Hcross.
  - constructor; [done|]. apply Forall_forall. intros b Hb. specialize (Hd b Hb). simpl in *. lia.
Qed.

Lemma merge_record_sorted entries record : sorted_ids entries → sorted_ids (merge_record entries record).
Proof.
  intros Hs. destruct (merge_record_spec entries record Hs) as [-> | [-> _]]; [|done].
  by apply vec_insert_sorted.
Qed.

Lemma foldl_merge_sorted records entries : sorted_ids entries → sorted_ids (foldl merge_record entries records).
Proof. revert entries. induction records as [|r rs IH]; intros entries Hs; simpl; auto using merge_record_sorted. Qed.

(** With unique ids the search cannot miss the record. *)
Lemma place_already_present entries record e :
  unique_ids entries → e ∈ entries → record_equiv e record → place entries record = AlreadyPresent.
Proof.
  intros Hu He Heq. pose proof (unique_sorted _ Hu) as Hs.
  assert (id e = id record) as Hid by (apply record_eq_spec in Heq; tauto).
  unfold place. assert (is_ordered entries record = false) as ->.
  { unfold is_ordered. destruct (last entries) as [l|] eqn:El.
    - apply Z.ltb_ge. pose proof (last_sorted _ _ Hs El) as Hl. rewrite Forall_forall in Hl.
      specialize (Hl e He). lia.
    - apply last_None in El. subst. by apply elem_of_nil in He. }
  apply list_elem_of_lookup in He as [j Hj].
  assert (base_pos entries record = j) as ->.
  { unfold base_pos. destruct (binary_search _ _) as [i|i] eqn:Eb.
    - apply binary_search_found in Eb; [|auto with distdb]. rewrite list_lookup_fmap in Eb.
      destruct (entries !! i) as [x|] eqn:Ex; [|discriminate]. injection Eb as Ex'.
      apply (unique_ids_index _ _ _ _ _ Hu Ex Hj). lia.
    - exfalso. apply binary_search_absent in Eb as (_ & Hlt & Hgt); [|auto with distdb].
      rewrite <- fmap_take, Forall_fmap, Forall_forall in Hlt.
      rewrite <- fmap_drop, Forall_fmap, Forall_forall in Hgt. apply list_elem_of_lookup_2 in Hj.
      rewrite <- (take_drop i entries) in Hj.
      apply elem_of_app in Hj as [Hj|Hj]; [specialize (Hlt _ Hj)|specialize (Hgt _ Hj)]; simpl in *; lia. }
  unfold exact_record_duplicate_at_or_after. rewrite (drop_S _ _ _ Hj). simpl.
  rewrite Hid, Z.eqb_refl. unfold record_equiv in Heq. rewrite Heq. reflexivity.
Qed.

(** ** Batches *)

Lemma merge_batch_foldl entries records m d :
  (merge_batch entries records m d).1.1 = foldl merge_record entries records.
Proof.
  revert entries m d. induction records as [|r rs IH]; intros entries m d; simpl; [done|].
  unfold merge_record at 2. destruct (place entries r); simpl; apply IH.
Qed.

(** Nothing changed when the batch only held records that were already there. *)
Lemma merge_batch_clean entries records m :
  (merge_batch entries records m false).2 = false → foldl merge_record entries records = entries.
Proof.
  assert (∀ rs es m', (merge_batch es rs m' true).2 = true) as Hdirty.
  { induction rs as [|r rs IH]; intros es m'; simpl; [done|]. destruct (place es r); apply IH. }
  revert entries m. induction records as [|r rs IH]; intros entries m; simpl; [done|].
  unfold merge_record at 2. destruct (place entries r); simpl; rewrite ?Hdirty; try discriminate. apply IH.
Qed.

Lemma batch_ordered_foldl entries records :
  batch_ordered (id <$> last entries) records = true →
  foldl merge_record entries records = entries ++ records.
Proof.
  revert entries. induction records as [|r rs IH]; intros entries; simpl.
  - rewrite app_nil_r. done.
  - rewrite andb_true_iff. intros [Hafter Hrest].
    assert (merge_record entries r = entries ++ [r]) as ->.
    { unfold merge_record, place, is_ordered. destruct (last entries); simpl in *; [rewrite Hafter|]; done. }
    rewrite IH; [rewrite <- app_assoc; done|]. rewrite last_snoc. exact Hrest.
Qed.

(** ** Convergence *)

(** Records that share an id are the same record: what replicas of one stream exchange. *)
Definition consistent (l : list TransactionRecord) : Prop :=
  ∀ a b, a ∈ l → b ∈ l → id a = id b → record_equiv a b.

Lemma consistent_subset l l' : consistent l → l' ⊆ l → consistent l'.
Proof. intros Hc Hsub a b Ha Hb. apply Hc; by apply Hsub. Qed.

Lemma unique_ids_insert entries record :
  unique_ids entries → (∀ e, e ∈ entries → id e ≠ id record) →
  unique_ids (vec_insert (first_record_index_after_id entries (id record)) record entries).
Proof.
  intros Hu Hne. pose proof (index_after_take entries (id record)) as Ht.
  pose proof (index_after_drop entries (id record) (unique_sorted _ Hu)) as Hd.
  rewrite Forall_forall in Ht, Hd. unfold unique_ids, vec_insert in *. 
  rewrite <- (take_drop (first_record_index_after_id entries (id record)) entries) in Hu.
  apply StronglySorted_app in Hu as (Hcross & Hl & Hr).
  apply StronglySorted_app_2; [|done|].
  - intros a b Ha [->|Hb]%elem_of_cons; [|by apply Hcross].
    specialize (Ht a Ha). specialize (Hne a (subseteq_take _ _ _ Ha)). simpl in *. lia.
  - constructor; [done|]. apply Forall_forall. intros b Hb. apply Hd, Hb.
Qed.

(** One merge into a stream without conflicting ids: ids stay unique, nothing is lost, the record
    is present afterwards, and nothing else was added. *)
Lemma merge_record_consistent entries record :
  unique_ids entries → consistent (record :: entries) →
  unique_ids (merge_record entries record) ∧ entries ⊆ merge_record entries record ∧
  merge_record entries record ⊆ record :: entries ∧
  ∃ e, e ∈ merge_record entries record ∧ record_equiv e record.
Proof.
  intros Hu Hc. pose proof (unique_sorted _ Hu) as Hs.
  destruct (decide (Exists (λ e, id e = id record) entries)) as [Hex|Hnex].
  - apply Exists_exists in Hex as (e & He & Hid).
    assert (record_equiv e record) as Heq by (apply Hc; [by right|by left|done]).
    unfold merge_record. rewrite (place_already_present _ _ _ Hu He Heq). simpl.
    split; [done|]. split; [done|]. split; [by apply list_subseteq_cons|]. eauto.
  - assert (∀ e, e ∈ entries → id e ≠ id record) as Hne.
    { intros e He Hid. apply Hnex, Exists_exists. eauto. }
    destruct (merge_record_spec entries record Hs) as [-> | [_ (e & He & Heq)]].
    + split; [by apply unique_ids_insert|]. set (i := first_record_index_after_id _ _).
      assert (∀ x, x ∈ vec_insert i record entries ↔ x ∈ record :: entries) as Hin
        by (intros x; rewrite vec_insert_perm; done).
      split; [intros x Hx; apply Hin; by right|]. split; [intros x Hx; by apply Hin|].
      exists record. split; [apply Hin; by left|reflexivity].
    + exfalso. apply (Hne e He). apply record_eq_spec in Heq. tauto.
Qed.

Lemma foldl_merge_consistent records entries :
  unique_ids entries → consistent (entries ++ records) →
  unique_ids (foldl merge_record entries records) ∧
  entries ⊆ foldl merge_record entries records ∧
  foldl merge_record entries records ⊆ entries ++ records ∧
  Forall (λ r, ∃ e, e ∈ foldl merge_record entries records ∧ record_equiv e r) records.
Proof.
  revert entries. induction records as [|r rs IH]; intros entries Hu Hc; simpl.
  { rewrite app_nil_r. auto using Forall_nil_2. }
  assert (consistent (r :: entries)) as Hc1 by (eapply consistent_subset; [exact Hc|set_solver]).
  destruct (merge_record_consistent _ _ Hu Hc1) as (Hu1 & Hsub1 & Hsup1 & e & He & Heq).
  assert (consistent (merge_record entries r ++ rs)) as Hc2
    by (eapply consistent_subset; [exact Hc|set_solver]).
  destruct (IH _ Hu1 Hc2) as (Hu2 & Hsub2 & Hsup2 & Hall).
  split; [done|]. split; [set_solver|]. split; [set_solver|].
  constructor; [|done]. exists e. split; [by apply Hsub2|done].
Qed.

(** Merging records that are all there changes nothing. *)
Lemma foldl_merge_present records entries :
  unique_ids entries → Forall (λ r, ∃ e, e ∈ entries ∧ record_equiv e r) records →
  foldl merge_record entries records = entries.
Proof.
  intros Hu. induction 1 as [|r rs (e & He & Heq) _ IH]; simpl; [done|].
  unfold merge_record at 2. rewrite (place_already_present _ _ _ Hu He Heq). exact IH.
Qed.

(** Streams with unique ids and the same ids, from one consistent set, are equal record by record. *)
Lemma unique_ids_agree all l1 l2 :
  unique_ids l1 → unique_ids l2 → consistent all → l1 ⊆ all → l2 ⊆ all →
  (∀ i, i ∈ id <$> l1 ↔ i ∈ id <$> l2) → Forall2 record_equiv l1 l2.
Proof.
  intros Hu1. revert l2. induction Hu1 as [|a l1 Hu1 IH Ha]; intros l2 Hu2 Hc H1 H2' Hids.
  - destruct l2 as [|b l2]; [constructor|]. exfalso. specialize (Hids (id b)). set_solver.
  - destruct Hu2 as [|b l2 Hu2 Hb]; [exfalso; specialize (Hids (id a)); set_solver|].
    rewrite Forall_forall in Ha, Hb.
    assert (id a = id b) as Hab.
    { assert (id a ∈ id <$> b :: l2) as [->|Hin]%elem_of_cons by (apply Hids; simpl; left); [done|].
      assert (id b ∈ id <$> a :: l1) as [->|Hin']%elem_of_cons by (apply Hids; simpl; left); [done|].
      apply list_elem_of_fmap in Hin as (x & Hx & Hxin). apply list_elem_of_fmap in Hin' as (y & Hy & Hyin).
      specialize (Hb _ Hxin). specialize (Ha _ Hyin). simpl in *. lia. }
    constructor; [apply Hc; [set_solver|set_solver|done]|].
    apply IH; [done|done|set_solver|set_solver|].
    intros i. specialize (Hids i). simpl in Hids. rewrite !elem_of_cons in Hids.
    split; intros Hi; (destruct (decide (i = id a)) as [->|Hne]; [exfalso|naive_solver lia]).
    + apply list_elem_of_fmap in Hi as (x & Hx & Hxin). specialize (Ha _ Hxin). simpl in Ha. lia.
    + apply list_elem_of_fmap in Hi as (x & Hx & Hxin). specialize (Hb _ Hxin). simpl in Hb. lia.
Qed.

Lemma foldl_merge_ids entries rs i :
  unique_ids entries → consistent (entries ++ rs) →
  i ∈ id <$> foldl merge_record entries rs ↔ i ∈ id <$> (entries ++ rs).
Proof.
  intros Hu Hc. destruct (foldl_merge_consistent rs entries Hu Hc) as (_ & Hsub & Hsup & Hall).
  rewrite !list_elem_of_fmap. split; intros (x & -> & Hx).
  - exists x. split; [done|]. by apply Hsup.
  - apply elem_of_app in Hx as [Hx|Hx]; [exists x; split; [done|by apply Hsub]|].
    rewrite Forall_forall in Hall. destruct (Hall x Hx) as (e & He & Heq).
    exists e. split; [apply record_eq_spec in Heq; symmetry; tauto|done].
Qed.

(** an append to a sorted stream keeps it sorted; either the stream already has the record
    and does not change, or the record is placed behind every record with an id up to its own
    and before every record with a greater id, and all other records keep their order. *)
Theorem append_stable_insert entries record :
  sorted_ids entries →
  sorted_ids (merge_record entries record) ∧
  ((merge_record entries record = entries ∧ ∃ e, e ∈ entries ∧ record_equiv e record) ∨
   ∃ before after, entries = before ++ after ∧ merge_record entries record = before ++ record :: after ∧
     Forall (λ e, id e ≤ id record) before ∧ Forall (λ e, id record < id e) after).
Proof.
  intros Hs. split; [by apply merge_record_sorted|].
  destruct (merge_record_spec entries record Hs) as [-> | Hp]; [right|by left].
  eexists _, _. split; [symmetry; apply take_drop|]. split; [reflexivity|].
  split; [apply index_after_take|by apply index_after_drop].
Qed.


(** a batch leaves the stream as appending its records one by one would, on the fast path for
    ordered batches and on the merging path, whose change flag is cleared only if nothing changed. *)
Theorem batch_append_sequential entries records :
  (batch_ordered (id <$> last entries) records = true →
   entries ++ records = foldl merge_record entries records) ∧
  (merge_batch entries records false false).1.1 = foldl merge_record entries records ∧
  ((merge_batch entries records false false).2 = false →
   foldl merge_record entries records = entries).
Proof.
  split; [intros Ho; by rewrite batch_ordered_foldl|].
  split; [apply merge_batch_foldl|apply merge_batch_clean].
Qed.
End merge.

(** ** Reading from a position *)

(** [since] drops exactly the records up to the given id. *)
Lemma index_after_filter entries from :
  sorted_ids entries →
  drop (first_record_index_after_id entries from) entries = filter (λ e, from < id e) entries.
Proof.
  intros Hs. pose proof (index_after_take entries from) as Ht.
  pose proof (index_after_drop entries from Hs) as Hd.
  set (n := first_record_index_after_id entries from) in *.
  rewrite <- (take_drop n entries) at 2. rewrite filter_app.
  rewrite (filter_all (λ e, from < id e) (drop n entries)) by done.
  rewrite filter_none; [done|]. eapply Forall_impl; [exact Ht|]. simpl. lia.
Qed.

(** ** Compaction *)

(** A record without its position: what compaction and realignment keep. *)
Definition content (r : TransactionRecord) : TransactionRecord := set_refid None (set_id 0 r).

Lemma positions_imap (f : nat → TransactionRecord → TransactionRecord) l :
  (∀ i r, id (f i r) = Z.of_nat i) → positions_aligned (imap f l) = true.
Proof.
  intros Hf. unfold positions_aligned. rewrite length_imap. apply forallb_forall.
  intros [i r] Hin. apply list_elem_of_In, list_elem_of_lookup in Hin as [k Hk].
  rewrite lookup_zip_with in Hk. apply bind_Some in Hk as (j & Hj & Hk).
  apply bind_Some in Hk as (r' & Hr & [= -> ->]).
  rewrite list_lookup_imap in Hr. apply fmap_Some in Hr as (x & _ & ->).
  apply lookup_seq in Hj as [-> _]. rewrite Hf. simpl. apply Z.eqb_refl.
Qed.

Lemma content_renumber l : content <$> renumber l = content <$> l.
Proof.
  apply list_eq. intros i. unfold renumber. rewrite !list_lookup_fmap, list_lookup_imap.
  destruct (l !! i); reflexivity.
Qed.

Lemma latest_with_last p l : latest_with p l = last (filter (λ r, Is_true (p (kind r))) l).
Proof.
  unfold latest_with. rewrite <- (reverse_involutive l) at 2.
  induction (reverse l) as [|r rs IH]; [reflexivity|].
  rewrite reverse_cons, filter_app, filter_cons, filter_nil. cbn [list_find].
  destruct (decide (Is_true (p (kind r)))).
  - rewrite last_snoc. reflexivity.
  - rewrite app_nil_r, <- IH. destruct (list_find _ rs) as [[]|]; reflexivity.
Qed.

(** The latest record of a kind depends on the contents only. *)
Lemma latest_with_content p l l' :
  content <$> l = content <$> l' → content <$> latest_with p l = content <$> latest_with p l'.
Proof.
  rewrite !latest_with_last, <- !fmap_last. intros Heq.
  assert (∀ k : list TransactionRecord, content <$> filter (λ r, Is_true (p (kind r))) k
               = filter (λ r, Is_true (p (kind r))) (content <$> k)) as Hf.
  { induction k as [|r k IH]; [done|]. rewrite fmap_cons, !filter_cons.
    change (kind (content r)) with (kind r).
    destruct (decide (Is_true (p (kind r)))); rewrite ?fmap_cons, IH; done. }
  rewrite !Hf, Heq. done.
Qed.

Lemma last_filter_filter (P Q : TransactionRecord → Prop)
    `{∀ r, Decision (P r)} `{∀ r, Decision (Q r)} l :
  (∀ x, last (filter P l) = Some x → Q x) → last (filter P (filter Q l)) = last (filter P l).
Proof.
  intros HQ. destruct (last (filter P l)) as [x|] eqn:E.
  - pose proof (HQ x eq_refl) as Hx. pose proof (last_Some_elem_of _ _ E) as Hin.
    apply list_elem_of_filter in Hin as [HP _].
    apply last_filter_Some in E as (l1 & l2 & -> & Hno).
    rewrite filter_app, filter_app, filter_cons_True, filter_cons_True by done.
    rewrite (filter_none P (filter Q l2)); [apply last_snoc|]. apply Forall_forall.
    intros y [_ Hy]%list_elem_of_filter. rewrite Forall_forall in Hno. auto.
  - apply last_None in E. destruct (filter P (filter Q l)) as [|y ys] eqn:Ey; [done|]. exfalso.
    assert (y ∈ filter P (filter Q l)) as Hy by (rewrite Ey; left).
    apply list_elem_of_filter in Hy as [HP [_ Hy]%list_elem_of_filter].
    apply (filter_nil_not_elem_of P l y E HP Hy).
Qed.

Definition retained_ids (entries : list TransactionRecord) : list Z :=
  (match latest_with is_schema_kind entries with Some r => [id r] | None => [] end)
  ++ (match latest_with is_metadata_kind entries with Some r => [id r] | None => [] end).

(** The records compaction keeps. *)
Definition retained (entries : list TransactionRecord) : list TransactionRecord :=
  filter (λ r, id r ∈ retained_ids entries ∧ kind r ≠ Ignore) entries.

Lemma compact_content entries actor ts :
  content <$> compact_entries_to_latest_schema_and_metadata entries actor ts
  = (content <$> retained entries) ++ [without_payload 0 None None ts actor Truncate].
Proof.
  unfold compact_entries_to_latest_schema_and_metadata. fold (retained_ids entries).
  rewrite content_renumber, fmap_app. f_equal.
  unfold retained. generalize (retained_ids entries). intros ids.
  induction entries as [|r rs IH]; [done|]. rewrite fmap_cons, !filter_cons. simpl.
  destruct (decide (id r ∈ ids)) as [Hin|Hin].
  - rewrite bool_decide_true by done. destruct (decide (kind r ≠ Ignore)).
    + rewrite decide_True by done. rewrite !fmap_cons, IH. f_equal.
      destruct (refid r) as [x|] eqn:Er; [destruct (bool_decide (x ∈ ids))|]; reflexivity.
    + rewrite decide_False by tauto. exact IH.
  - rewrite bool_decide_false by done. repeat (rewrite decide_False by tauto). exact IH.
Qed.

Lemma retained_latest p entries :
  (∀ r, latest_with p entries = Some r → id r ∈ retained_ids entries) → p Ignore = false →
  latest_with p (retained entries) = latest_with p entries.
Proof.
  intros Hin Hp. rewrite !latest_with_last in *. unfold retained. apply last_filter_filter.
  intros x Hx. split; [by apply Hin|]. apply last_Some_elem_of, list_elem_of_filter in Hx as [Hk _].
  intros Heq. rewrite Heq, Hp in Hk. done.
Qed.

Lemma latest_with_snoc_other p l r : p (kind r) = false → latest_with p (l ++ [r]) = latest_with p l.
Proof.
  intros Hp. rewrite !latest_with_last, filter_app, filter_cons_False, filter_nil, app_nil_r; [done|].
  rewrite Hp. intros [].
Qed.

Lemma latest_with_kind p l r : latest_with p l = Some r → r ∈ l ∧ p (kind r) = true.
Proof.
  rewrite latest_with_last. intros Hl%last_Some_elem_of. apply list_elem_of_filter in Hl as [Hk Hl].
  split; [done|]. by apply Is_true_true.
Qed.

(** Every kept record is the latest schema or the latest metadata, when ids are unique. *)
Lemma retained_kind entries r :
  unique_ids entries → r ∈ retained entries → is_schema_kind (kind r) || is_metadata_kind (kind r) = true.
Proof.
  intros Hu [[Hin _] Hr]%list_elem_of_filter. unfold retained_ids in Hin.
  assert (∀ p x, latest_with p entries = Some x → id r = id x → p (kind r) = true) as Hsame.
  { intros p x Hx Hid. destruct (latest_with_kind _ _ _ Hx) as [Hxin Hk].
    apply list_elem_of_lookup in Hxin as [i Hi]. apply list_elem_of_lookup in Hr as [j Hj].
    pose proof (unique_ids_index _ _ _ _ _ Hu Hi Hj (eq_sym Hid)). subst j. congruence. }
  rewrite orb_true_iff.
  destruct (latest_with is_schema_kind entries) eqn:E1, (latest_with is_metadata_kind entries) eqn:E2;
    simpl in Hin; rewrite ?elem_of_cons in Hin; set_unfold in Hin; naive_solver.
Qed.

(** compaction to the latest schema and metadata.  The schema and the metadata in force are
    the ones that were in force, nothing but those and the final truncation mark is left (no row,
    no open write group), and the positions are dense. *)
Theorem compaction_keeps_definitions entries actor ts :
  let out := compact_entries_to_latest_schema_and_metadata entries actor ts in
  content <$> latest_with is_schema_kind out = content <$> latest_with is_schema_kind entries ∧
  content <$> latest_with is_metadata_kind out = content <$> latest_with is_metadata_kind entries ∧
  content <$> last out = Some (without_payload 0 None None ts actor Truncate) ∧
  positions_aligned out = true ∧
  (unique_ids entries →
   Forall (λ r, kind r = SchemaChange ∨ kind r = MetadataChange ∨ kind r = SecurityChange ∨ kind r = Truncate) out).
Proof.
  intros out. pose proof (compact_content entries actor ts : content <$> out = _) as Hc.
  set (t := without_payload 0 None None ts actor Truncate) in *.
  assert (content <$> out = content <$> (retained entries ++ [t])) as Hc'
    by (rewrite Hc, fmap_app; reflexivity).
  split; [|split; [|split; [|split]]].
  - rewrite (latest_with_content _ _ _ Hc'), latest_with_snoc_other, retained_latest; try done.
    intros r Hr. unfold retained_ids. rewrite Hr. left.
  - rewrite (latest_with_content _ _ _ Hc'), latest_with_snoc_other, retained_latest; try done.
    intros r Hr. unfold retained_ids. rewrite Hr. apply elem_of_app. right. left.
  - rewrite <- fmap_last, Hc. apply last_snoc.
  - apply positions_imap. reflexivity.
  - intros Hu. apply Forall_forall. intros r Hr. apply (list_elem_of_fmap_2 content) in Hr.
    rewrite Hc' in Hr. apply list_elem_of_fmap in Hr as (x & Hx & Hin).
    assert (kind r = kind x) as -> by (change (kind (content r) = kind (content x)); congruence).
    apply elem_of_app in Hin as [Hin|Hin].
    + pose proof (retained_kind _ _ Hu Hin) as Hk. destruct (kind x); try discriminate; auto.
    + apply list_elem_of_singleton in Hin as ->. auto.
Qed.

(** ** Realignment *)

Lemma id_remap_lookup position records m x :
  NoDup (id <$> records) →
  id_remap_from position records m !! x
  = match list_find (λ r, id r = x) records with
    | Some (j, _) => Some (Z.of_nat (position + j))
    | None => m !! x
    end.
Proof.
  revert position m. induction records as [|r rs IH]; intros position m Hnd; [done|].
  rewrite fmap_cons in Hnd. apply NoDup_cons in Hnd as [Hnin Hnd]. cbn [id_remap_from list_find].
  rewrite IH by done. destruct (decide (id r = x)) as [<-|Hne].
  - assert (list_find (λ r', id r' = id r) rs = None) as ->.
    { apply list_find_None, Forall_forall. intros y Hy Hid. apply Hnin. rewrite <- Hid.
      by apply list_elem_of_fmap_2. }
    rewrite lookup_insert_eq. f_equal. lia.
  - destruct (list_find _ rs) as [[j y]|]; simpl; [f_equal; lia|]. by apply lookup_insert_ne.
Qed.

Lemma id_remap_empty_iff records : id_remap_from 0 records ∅ = ∅ ↔ records = [].
Proof.
  split; [|intros ->; done]. destruct records as [|r rs]; [done|]. simpl. intros He. exfalso.
  assert (∀ l n (m : gmap Z Z) k, is_Some (m !! k) → is_Some (id_remap_from n l m !! k)) as Hmono.
  { induction l as [|y l IH]; intros n m k Hk; simpl; [done|]. apply IH.
    destruct (decide (id y = k)) as [->|]; [rewrite lookup_insert_eq|rewrite lookup_insert_ne by done]; eauto. }
  destruct (Hmono rs 1%nat (<[id r:=Z.of_nat 0]> ∅) (id r)) as [v Hv]; [rewrite lookup_insert_eq; eauto|].
  rewrite He in Hv. done.
Qed.

Lemma unique_ids_nodup entries : unique_ids entries → NoDup (id <$> entries).
Proof.
  unfold unique_ids. induction 1 as [|e l Hs IH Hall]; simpl; constructor; [|done].
  intros (x & Hx & Hin)%list_elem_of_fmap. rewrite Forall_forall in Hall. specialize (Hall _ Hin).
  simpl in Hall. lia.
Qed.

Lemma unique_ids_filter (P : TransactionRecord → Prop) `{∀ r, Decision (P r)} entries :
  unique_ids entries → unique_ids (filter P entries).
Proof.
  unfold unique_ids. induction 1 as [|e l Hs IH Hall]; [constructor|]. rewrite filter_cons.
  destruct (decide (P e)); [|done]. constructor; [done|]. rewrite Forall_forall in *.
  intros x [_ Hx]%list_elem_of_filter. auto.
Qed.

(** Where an old id is after realignment: the position of the live record that had it. *)
Definition new_position (live : list TransactionRecord) (x : Z) : option Z :=
  Z.of_nat ∘ fst <$> list_find (λ r, id r = x) live.

Lemma realign_lookup entries out i r :
  unique_ids entries → realign_records entries = Ok out →
  filter (λ r, kind r ≠ Ignore) entries !! i = Some r →
  out !! i = Some (set_groupid (groupid r ≫= new_position (filter (λ r, kind r ≠ Ignore) entries))
                     (set_refid (refid r ≫= new_position (filter (λ r, kind r ≠ Ignore) entries))
                        (set_id (Z.of_nat i) r))).
Proof.
  intros Hu. unfold realign_records. destruct (_ && _); [discriminate|]. intros [= <-] Hi.
  set (live := filter _ entries) in *.
  assert (∀ o : option Z, o ≫= (id_remap_from 0 live ∅ !!.) = o ≫= new_position live) as Hm.
  { intros [x|]; simpl; [|done]. unfold new_position.
    rewrite id_remap_lookup by (by apply unique_ids_nodup, unique_ids_filter).
    destruct (list_find _ live) as [[j y]|]; [done|]. apply lookup_empty. }
  rewrite list_lookup_imap, Hi. simpl. unfold remap_record. rewrite !Hm. done.
Qed.

(** realignment.  It is refused exactly when the stream has records but only ignored ones;
    otherwise the live records are kept in order, each with its position as id, its other data
    unchanged, and its references led to the new positions of the records they named (or dropped
    when that record is gone). *)
Theorem realignment_remaps entries :
  unique_ids entries →
  let live := filter (λ r, kind r ≠ Ignore) entries in
  match realign_records entries with
  | Err _ => entries ≠ [] ∧ live = []
  | Ok out =>
      (entries = [] ∨ live ≠ []) ∧ length out = length live ∧ positions_aligned out = true ∧
      ∀ i r, live !! i = Some r →
        out !! i = Some (set_groupid (groupid r ≫= new_position live)
                           (set_refid (refid r ≫= new_position live) (set_id (Z.of_nat i) r)))
  end.
Proof.
  intros Hu live. destruct (realign_records entries) as [out|e] eqn:E.
  - split; [|split; [|split]]; [| | |intros i r Hi; by eapply realign_lookup].
    + unfold realign_records in E. fold live in E.
      destruct (bool_decide _) eqn:Em; simpl in E.
      * destruct entries; [by left|discriminate].
      * right. intros Hl. rewrite bool_decide_eq_false, id_remap_empty_iff in Em. contradiction.
    + unfold realign_records in E. destruct (_ && _); [discriminate|]. injection E as <-. by rewrite length_imap.
    + unfold realign_records in E. destruct (_ && _); [discriminate|]. injection E as <-.
      by apply positions_imap.
  - unfold realign_records in E. fold live in E. destruct (_ && _) eqn:Ec; [|discriminate].
    apply andb_true_iff in Ec as [Hm Hne]. rewrite bool_decide_eq_true, id_remap_empty_iff in Hm.
    split; [destruct entries; [done|discriminate]|done].
Qed.

(** A group id that is not the id of a live record of the stream is dropped by realignment. *)
Lemma realign_drops_foreign_group entries out i r g :
  unique_ids entries → realign_records entries = Ok out →
  filter (λ r, kind r ≠ Ignore) entries !! i = Some r → groupid r = Some g →
  (∀ e, e ∈ entries → id e ≠ g) → groupid <$> out !! i = Some None.
Proof.
  intros Hu He Hi Hg Hno. rewrite (realign_lookup _ _ _ _ Hu He Hi). simpl. rewrite Hg. simpl.
  unfold new_position. assert (list_find (λ r, id r = g) (filter (λ r, kind r ≠ Ignore) entries) = None) as ->; [|done].
  apply list_find_None, Forall_forall. intros x [_ Hx]%list_elem_of_filter. auto.
Qed.

(** ** Write timestamps *)

Lemma foldl_max_spec l x : foldl Z.max x l ∈ x :: l ∧ Forall (λ y, y ≤ foldl Z.max x l) (x :: l).
Proof.
  revert x. induction l as [|y l IH]; intros x; simpl; [split; [left|repeat constructor; lia]|].
  destruct (IH (Z.max x y)) as [Hin Hall]. inversion Hall as [|? ? Hm Hl]; subst. split.
  - apply elem_of_cons in Hin as [->|Hin]; [|by do 2 right].
    destruct (Z.max_spec x y) as [[_ ->]|[_ ->]]; [right|]; left.
  - repeat constructor; [lia|lia|done].
Qed.

Lemma max_option_Some l m : max_option l = Some m ↔ m ∈ l ∧ Forall (λ y, y ≤ m) l.
Proof.
  destruct l as [|x l]; simpl; [split; [done|intros [Hin _]; by apply elem_of_nil in Hin]|].
  destruct (foldl_max_spec l x) as [Hin Hall]. split; [intros [= <-]; done|].
  intros [Hin' Hall']. f_equal. rewrite Forall_forall in Hall, Hall'.
  pose proof (Hall _ Hin'). pose proof (Hall' _ Hin). simpl in *. lia.
Qed.

Lemma max_option_None l : max_option l = None ↔ l = [].
Proof. destruct l; split; done. Qed.

(** The maximum depends on the set of timestamps only. *)
Lemma max_option_ext l l' : (∀ x, x ∈ l ↔ x ∈ l') → max_option l = max_option l'.
Proof.
  intros Hext. destruct (max_option l) as [m|] eqn:E; symmetry.
  - apply max_option_Some in E as [Hin Hall]. apply max_option_Some.
    split; [by apply Hext|]. rewrite Forall_forall in *. naive_solver.
  - apply max_option_None in E. subst. apply max_option_None.
    destruct l' as [|y l']; [done|]. exfalso. apply (not_elem_of_nil y), Hext. left.
Qed.

(** The later of two optional timestamps. *)
Definition max_opt (a b : option Z) : option Z := union_with (λ x y, Some (Z.max x y)) a b.

Lemma max_option_app l l' : max_option (l ++ l') = max_opt (max_option l) (max_option l').
Proof.
  unfold max_opt. destruct (max_option l) as [m|] eqn:E, (max_option l') as [m'|] eqn:E'; simpl.
  - apply max_option_Some in E as [Hin Hall], E' as [Hin' Hall']. apply max_option_Some.
    rewrite elem_of_app, Forall_app. split.
    + destruct (Z.max_spec m m') as [[_ ->]|[_ ->]]; auto.
    + split; (eapply Forall_impl; [done|]; simpl; lia).
  - apply max_option_None in E' as ->. rewrite app_nil_r. done.
  - apply max_option_None in E as ->. done.
  - apply max_option_None in E as ->. apply max_option_None in E' as ->. done.
Qed.

Lemma latest_write_app l l' :
  latest_write_timestamp (l ++ l') = max_opt (latest_write_timestamp l) (latest_write_timestamp l').
Proof. unfold latest_write_timestamp. rewrite omap_app. apply max_option_app. Qed.

Lemma write_timestamp_equiv a b :
  record_equiv a b → write_timestamp_if_data_write a = write_timestamp_if_data_write b.
Proof.
  intros Heq%record_eq_spec. unfold write_timestamp_if_data_write.
  destruct Heq as (_ & _ & _ & -> & _ & -> & _). done.
Qed.

(** There is a data write after [ts] exactly when the latest one is. *)
Lemma latest_write_after entries ts :
  (∃ m, latest_write_timestamp entries = Some m ∧ ts < m) ↔
  ∃ e t, e ∈ entries ∧ write_timestamp_if_data_write e = Some t ∧ ts < t.
Proof.
  unfold latest_write_timestamp. split.
  - intros (m & [Hin _]%max_option_Some & Hlt). apply list_elem_of_omap in Hin as (e & He & Ht). eauto.
  - intros (e & t & He & Ht & Hlt).
    assert (t ∈ omap write_timestamp_if_data_write entries) as Hin by (apply list_elem_of_omap; eauto).
    destruct (max_option _) as [m|] eqn:E.
    + exists m. split; [done|]. apply max_option_Some in E as [_ Hall]. rewrite Forall_forall in Hall.
      specialize (Hall _ Hin). simpl in Hall. lia.
    + apply max_option_None in E. rewrite E in Hin. by apply elem_of_nil in Hin.
Qed.

(** What a merge does to the latest timestamp, whatever the order of the stream. *)
Section merge_timestamps.
Context `{BinarySearch}.

Lemma merge_members entries record :
  (∃ pos, merge_record entries record = vec_insert pos record entries)
  ∨ (merge_record entries record = entries ∧ ∃ e, e ∈ entries ∧ record_equiv e record).
Proof.
  unfold merge_record, place. destruct (is_ordered entries record); simpl.
  - left. exists (length entries). unfold vec_insert. by rewrite take_ge, drop_ge.
  - destruct (exact_record_duplicate_at_or_after _ _ _) eqn:Ed; simpl; [right|left; eauto].
    apply duplicate_scan_sound in Ed as (e & He & Heq). split; [done|]. exists e.
    split; [by eapply subseteq_drop|done].
Qed.

Lemma latest_write_merge entries record :
  latest_write_timestamp (merge_record entries record)
  = max_opt (latest_write_timestamp entries) (write_timestamp_if_data_write record).
Proof.
  transitivity (latest_write_timestamp (entries ++ [record])).
  - unfold latest_write_timestamp. apply max_option_ext. intros t. rewrite !list_elem_of_omap.
    destruct (merge_members entries record) as [[pos ->] | [-> (e & He & Heq)]].
    + split; intros (x & Hx & Ht); exists x; (split; [|done]); revert Hx;
        rewrite vec_insert_perm; set_solver.
    + split; intros (x & Hx & Ht); [exists x; set_solver|].
      apply elem_of_app in Hx as [Hx|Hx]; [eauto|]. apply list_elem_of_singleton in Hx as ->.
      exists e. split; [done|]. by rewrite (write_timestamp_equiv _ _ Heq).
  - rewrite latest_write_app. f_equal. unfold latest_write_timestamp. simpl.
    destruct (write_timestamp_if_data_write record); done.
Qed.

Lemma max_opt_assoc a b c : max_opt a (max_opt b c) = max_opt (max_opt a b) c.
Proof. destruct a, b, c; simpl; f_equal; lia. Qed.

Lemma max_opt_None_r a : max_opt a None = a.
Proof. by destruct a. Qed.

Lemma latest_write_foldl records entries :
  latest_write_timestamp (foldl merge_record entries records)
  = max_opt (latest_write_timestamp entries) (latest_write_timestamp records).
Proof.
  revert entries. induction records as [|r rs IH]; intros entries; simpl; [by rewrite max_opt_None_r|].
  rewrite IH, latest_write_merge, <- max_opt_assoc. f_equal.
  change (r :: rs) with ([r] ++ rs). rewrite latest_write_app. f_equal.
  unfold latest_write_timestamp. simpl. destruct (write_timestamp_if_data_write r); done.
Qed.
End merge_timestamps.

(** Realignment keeps the data writes, so it keeps the latest timestamp. *)
Lemma latest_write_realign entries out :
  realign_records entries = Ok out → latest_write_timestamp out = latest_write_timestamp entries.
Proof.
  unfold realign_records. destruct (_ && _); [discriminate|]. intros [= <-].
  unfold latest_write_timestamp. f_equal.
  rewrite (omap_imap _ write_timestamp_if_data_write) by done. apply omap_filter.
  intros r Hk. unfold write_timestamp_if_data_write. destruct (kind r); try done; exfalso; by apply Hk.
Qed.
