(* ===== verification/WalManager.v ===== *)
(** * The WAL manager

    Models [ConcurrentWalManager] of [serverlib/src/engine/wal.rs] with its workers and its files.
    Requests and acknowledgements are synchronous in the code, so an operation of the manager is
    a function on the state; the interleaving of several callers is a sequence of operations.
    The disk is part of the state.  Every system call takes the next outcome of a fault oracle,
    so failed and partial writes are behaviours of the model; nonces come from a second oracle.
    Lock poisoning is not modelled.  The MD5 digest of the [md5] crate is a parameter. *)

From Stdlib Require Import ZArith Lia Strings.Byte.
From stdpp Require Import base list gmap strings.
From S2P Require Import Prelude Settings Record RowPayload WalFile Wal.

(** ** Disk *)

(** The outcome of a system call; a failed write has put some of its bytes into the file. *)
Inductive io_outcome := IoDone | IoFailed (written : nat).

Record World := mkWorld {
  disk : gmap ustr bytes;
  faults : nat → io_outcome;
  nonces : nat → nat → option bytes
}.

Definition set_disk (d : gmap ustr bytes) (w : World) : World := mkWorld d (faults w) (nonces w).

(** The outcome of the next system call. *)
Definition pop_fault (w : World) : io_outcome * World :=
  (faults w O, mkWorld (disk w) (λ n, faults w (S n)) (nonces w)).

(** The random nonces of the next encoding. *)
Definition pop_nonces (w : World) : (nat → option bytes) * World :=
  (nonces w O, mkWorld (disk w) (faults w) (λ n, nonces w (S n))).

(** [OpenOptions::new().create(true).append(true).open(path)]: whether it succeeded. *)
Definition open_wal_append_file (path : ustr) (w : World) : bool * World :=
  let '(o, w) := pop_fault w in
  match o with
  | IoDone =>
      (true, match disk w !! path with
             | Some _ => w
             | None => set_disk (<[path := []]> (disk w)) w
             end)
  | IoFailed _ => (false, w)
  end.

(** [file.write_all(bytes)] on a handle opened for appending. *)
Definition write_all (path : ustr) (bs : bytes) (w : World) : bool * World :=
  let '(o, w) := pop_fault w in
  match o with
  | IoDone => (true, set_disk (alter (λ c, c ++ bs) path (disk w)) w)
  | IoFailed n => (false, set_disk (alter (λ c, c ++ take n bs) path (disk w)) w)
  end.

(** [sync_data], [sync_all] and opening a file for reading: only success or failure. *)
Definition plain_call (w : World) : bool * World :=
  let '(o, w) := pop_fault w in
  match o with IoDone => (true, w) | IoFailed _ => (false, w) end.

(** [write_bytes]: the directory and the truncating open, then the write. *)
Definition write_bytes (path : ustr) (bs : bytes) (w : World) : bool * World :=
  let '(o, w) := pop_fault w in
  match o with
  | IoFailed _ => (false, w)
  | IoDone =>
      let '(o, w) := pop_fault w in
      match o with
      | IoDone => (true, set_disk (<[path := bs]> (disk w)) w)
      | IoFailed n => (false, set_disk (<[path := take n bs]> (disk w)) w)
      end
  end.

(** What a reader of the file sees: all of it, or the part before a read error. *)
Definition read_file (path : ustr) (w : World) : option bytes * World :=
  let '(o, w) := pop_fault w in
  match o with
  | IoDone => (disk w !! path, w)
  | IoFailed n => (take n <$> disk w !! path, w)
  end.

(** ** Keys and paths *)

Class Digest := { md5_hex : bytes → ustr }.

Section stable_id.
Context `{Digest}.

Definition stable_id (parts : list ustr) : ustr :=
  take 16 (md5_hex (utf8_encode (parts ≫= λ part, part ++ lit ":"))).

Definition obfuscated_stream_key (wal_id : ustr) : result ustr string :=
  let normalized := to_ascii_lowercase (trim wal_id) in
  if is_empty normalized then Err "wal_id must not be empty" else Ok (stable_id [normalized]).
End stable_id.

Definition wal_file_path (data_dir stream_key : ustr) : ustr :=
  data_dir ++ lit "/" ++ file_name DataFile stream_key.

(** ** State *)

Inductive WalStreamMode := Durable | Ephemeral.

#[global] Instance WalStreamMode_eq_dec : EqDecision WalStreamMode.
Proof. solve_decision. Defined.

(** A worker thread: serving, told to stop but not yet stopped, or gone. *)
Inductive WorkerStatus := Running | ShutdownQueued | Exited.

Record Worker := mkWorker {
  wal_path : option ustr;
  append_file : bool;
  status : WorkerStatus
}.

Record WalState := mkWalState {
  workers : gmap ustr Worker;
  storage : gmap ustr (list TransactionRecord);
  write_high_water_by_stream : gmap ustr Z;
  stream_modes : gmap ustr WalStreamMode;
  data_dir : option ustr;
  world : World
}.

Definition set_workers x (s : WalState) := mkWalState x (storage s) (write_high_water_by_stream s) (stream_modes s) (data_dir s) (world s).
Definition set_storage x (s : WalState) := mkWalState (workers s) x (write_high_water_by_stream s) (stream_modes s) (data_dir s) (world s).
Definition set_high_water x (s : WalState) := mkWalState (workers s) (storage s) x (stream_modes s) (data_dir s) (world s).
Definition set_modes x (s : WalState) := mkWalState (workers s) (storage s) (write_high_water_by_stream s) x (data_dir s) (world s).
Definition set_world x (s : WalState) := mkWalState (workers s) (storage s) (write_high_water_by_stream s) (stream_modes s) (data_dir s) x.

(** [ConcurrentWalManager::new] and [with_data_dir]. *)
Definition new_manager (data_dir : option ustr) (w : World) : WalState :=
  mkWalState ∅ ∅ ∅ ∅ data_dir w.

Section manager.
Context `{RowCrypto} `{Zlib} `{Env} `{BinarySearch} `{Digest}.
Context `{Bincode EncryptedRowPayloadEnvelope} `{Bincode LegacyEncryptedRowPayloadEnvelope}.
Context `{Bincode TransactionRecord}.

Definition wal_sync_on_append : bool := flag WAL_SYNC_ON_APPEND true.

(** ** File operations *)

Definition ensure_wal_file (path : ustr) (w : World) : result unit string * World :=
  let '(o, w) := pop_fault w in
  match o with
  | IoFailed _ => (Err "failed to inspect WAL file", w)
  | IoDone =>
      match disk w !! path with
      | Some existing =>
          (match verify_header DataFile existing with
           | Ok _ => Ok tt
           | Err _ => Err "invalid WAL file header/version"
           end, w)
      | None =>
          let '(written, w) := write_bytes path (make_header DataFile) w in
          (if written then Ok tt else Err "failed to initialize WAL file header", w)
      end
  end.

(** [if wal_sync_on_append() { file.sync_data()? }]. *)
Definition maybe_sync (message : string) (w : World) : result unit string * World :=
  if wal_sync_on_append then
    let '(synced, w) := plain_call w in
    (if synced then Ok tt else Err message, w)
  else (Ok tt, w).

(** The result, whether the worker holds a handle afterwards, and the disk. *)
Definition append_wal_bytes (append_file : bool) (path : ustr) (bs : bytes) (w : World)
    : result unit string * bool * World :=
  let '(opened, w) := if append_file then (true, w) else open_wal_append_file path w in
  if negb opened then (Err "failed to open WAL append file", false, w)
  else
    let '(written, w) := write_all path bs w in
    if written then
      let '(r, w) := maybe_sync "failed to sync WAL bytes to disk" w in (r, true, w)
    else
      let '(reopened, w) := open_wal_append_file path w in
      if negb reopened then (Err "failed to open WAL append file", true, w)
      else
        let '(written, w) := write_all path bs w in
        if written then
          let '(r, w) := maybe_sync "failed to sync WAL bytes to disk" w in (r, true, w)
        else (Err "failed to persist WAL bytes to disk", true, w).

Definition rewrite_wal_file_with_context (path : ustr) (records : list TransactionRecord)
    (context : TransactionPayloadContext) (w : World) : result unit string * World :=
  let '(rng, w) := pop_nonces w in
  match rewritten_wal_bytes rng records context with
  | Err e => (Err e, w)
  | Ok bs =>
      let '(written, w) := write_bytes path bs w in
      if negb written then (Err "failed to rewrite compacted WAL file", w)
      else if wal_sync_on_append then
        let '(opened, w) := plain_call w in
        if negb opened then (Err "failed to reopen WAL file for sync", w)
        else
          let '(synced, w) := plain_call w in
          (if synced then Ok tt else Err "failed to sync rewritten WAL file", w)
      else (Ok tt, w)
  end.

(** [append_file = open_wal_append_file(path).ok()]. *)
Definition reopen (wk : Worker) (w : World) : Worker * World :=
  match wal_path wk with
  | None => (wk, w)
  | Some path =>
      let '(opened, w) := open_wal_append_file path w in
      (mkWorker (Some path) opened (status wk), w)
  end.

(** ** The worker *)

(** The start of [spawn_worker]; the caller puts the empty entry into the storage. *)
Definition start_worker (path : option ustr) (w : World) : Worker * World :=
  match path with
  | None => (mkWorker None false Running, w)
  | Some p =>
      let '(_, w) := ensure_wal_file p w in
      let '(opened, w) := open_wal_append_file p w in
      (mkWorker (Some p) opened Running, w)
  end.

(** The outcome of a command: acknowledgement, worker, records, disk. *)
Definition Outcome : Type := result unit string * Worker * list TransactionRecord * World.

(** [WalCommand::Append]. *)
Definition worker_append (wk : Worker) (entries : list TransactionRecord) (record : TransactionRecord)
    (context : TransactionPayloadContext) (w : World) : Outcome :=
  match place entries record with
  | PushBack =>
      match wal_path wk with
      | None => (Ok tt, wk, entries ++ [record], w)
      | Some path =>
          let '(rng, w) := pop_nonces w in
          match frame_record_with_context (rng O) record context with
          | Err e => (Err e, wk, entries, w)
          | Ok frame =>
              let '(r, handle, w) := append_wal_bytes (append_file wk) path frame w in
              let wk := mkWorker (wal_path wk) handle (status wk) in
              match r with
              | Ok _ => (Ok tt, wk, entries ++ [record], w)
              | Err _ => (Err "failed to persist WAL record to disk", wk, entries, w)
              end
          end
      end
  | AlreadyPresent => (Ok tt, wk, entries, w)
  | InsertAt pos =>
      let staged := vec_insert pos record entries in
      match wal_path wk with
      | None => (Ok tt, wk, staged, w)
      | Some path =>
          let '(r, w) := rewrite_wal_file_with_context path staged context w in
          match r with
          | Err e => (Err e, wk, entries, w)
          | Ok _ => let '(wk, w) := reopen wk w in (Ok tt, wk, staged, w)
          end
      end
  end.

(** [WalCommand::AppendBatch]. *)
Definition worker_append_batch (wk : Worker) (entries : list TransactionRecord)
    (records : list TransactionRecord) (context : TransactionPayloadContext) (w : World) : Outcome :=
  if is_empty records then (Ok tt, wk, entries, w)
  else if batch_ordered (id <$> last entries) records then
    match wal_path wk with
    | None => (Ok tt, wk, entries ++ records, w)
    | Some path =>
        let '(rng, w) := pop_nonces w in
        match frame_records rng records context with
        | Err e => (Err e, wk, entries, w)
        | Ok frames =>
            let '(r, handle, w) := append_wal_bytes (append_file wk) path frames w in
            let wk := mkWorker (wal_path wk) handle (status wk) in
            match r with
            | Ok _ => (Ok tt, wk, entries ++ records, w)
            | Err _ => (Err "failed to persist WAL record batch to disk", wk, entries, w)
            end
        end
    end
  else
    let '(staged, merged_out_of_order, staged_dirty) := merge_batch entries records false false in
    match wal_path wk with
    | None => (Ok tt, wk, staged, w)
    | Some path =>
        if staged_dirty then
          let '(r, w) := rewrite_wal_file_with_context path staged context w in
          match r with
          | Err e => (Err e, wk, entries, w)
          | Ok _ =>
              let '(wk, w) := if merged_out_of_order then reopen wk w else (wk, w) in
              (Ok tt, wk, staged, w)
          end
        else (Ok tt, wk, entries, w)
    end.

(** [WalCommand::CompactToLatestSchemaAndMetadata]: the records change before the file does. *)
Definition worker_compact (wk : Worker) (entries : list TransactionRecord) (actor : UserId)
    (timestamp_epoch_ms : Z) (w : World) : Outcome :=
  let entries := compact_entries_to_latest_schema_and_metadata entries actor timestamp_epoch_ms in
  match wal_path wk with
  | None => (Ok tt, wk, entries, w)
  | Some path =>
      let '(r, w) := rewrite_wal_file_with_context path entries default_transaction_payload_context w in
      match r with
      | Err e => (Err e, wk, entries, w)
      | Ok _ => let '(wk, w) := reopen wk w in (Ok tt, wk, entries, w)
      end
  end.

(** ** Manager operations *)

Implicit Types (wal_id stream_key : ustr) (s : WalState) (context : TransactionPayloadContext).

Definition stream_mode wal_id s : WalStreamMode :=
  match obfuscated_stream_key wal_id with
  | Err _ => Durable
  | Ok stream_key => default Durable (stream_modes s !! stream_key)
  end.

Definition is_stream_replicable wal_id s : bool := eqb (stream_mode wal_id s) Durable.

(** [match max_ts { Some => insert, None => remove }]. *)
Definition put_high_water stream_key (max_ts : option Z) s : WalState :=
  set_high_water
    (match max_ts with
     | Some ts => <[stream_key := ts]> (write_high_water_by_stream s)
     | None => delete stream_key (write_high_water_by_stream s)
     end) s.

Definition hydrate_stream_if_needed wal_id stream_key s : WalState :=
  if negb (eqb (stream_mode wal_id s) Durable) then s
  else
    match data_dir s with
    | None => s
    | Some dir =>
        match storage s !! stream_key with
        | Some _ => s
        | None =>
            let path := wal_file_path dir stream_key in
            match disk (world s) !! path with
            | None => set_storage (<[stream_key := []]> (storage s)) s
            | Some _ =>
                let '(content, w) := read_file path (world s) in
                let existing := load_records_from_path content in
                put_high_water stream_key (latest_write_timestamp existing)
                  (set_storage (<[stream_key := existing]> (storage s)) (set_world w s))
            end
        end
    end.

Definition with_records {T} wal_id (func : list TransactionRecord → T) s : option T * WalState :=
  match obfuscated_stream_key wal_id with
  | Err _ => (None, s)
  | Ok stream_key =>
      let s := hydrate_stream_if_needed wal_id stream_key s in
      (func <$> storage s !! stream_key, s)
  end.

Definition invalidate_stream_cache wal_id s : result unit string * WalState :=
  match obfuscated_stream_key wal_id with
  | Err e => (Err e, s)
  | Ok stream_key =>
      (Ok tt, set_high_water (delete stream_key (write_high_water_by_stream s))
                (set_storage (delete stream_key (storage s)) s))
  end.

Definition has_write_after wal_id (timestamp_epoch_ms : Z) s : bool * WalState :=
  match obfuscated_stream_key wal_id with
  | Err _ => (false, s)
  | Ok stream_key =>
      let s := hydrate_stream_if_needed wal_id stream_key s in
      match write_high_water_by_stream s !! stream_key with
      | Some max_ts => (timestamp_epoch_ms <? max_ts, s)
      | None =>
          match storage s !! stream_key with
          | None => (false, s)
          | Some entries =>
              let max_ts := latest_write_timestamp entries in
              (match max_ts with Some m => timestamp_epoch_ms <? m | None => false end,
               put_high_water stream_key max_ts s)
          end
      end
  end.

(** [sender.send(WalCommand::Shutdown)]: a worker that is gone does not receive it. *)
Definition send_shutdown (wk : Worker) : Worker :=
  match status wk with
  | Running => mkWorker (wal_path wk) (append_file wk) ShutdownQueued
  | ShutdownQueued | Exited => wk
  end.

Definition set_stream_mode wal_id (mode : WalStreamMode) s : result unit string * WalState :=
  match obfuscated_stream_key wal_id with
  | Err e => (Err e, s)
  | Ok stream_key =>
      let previous := stream_modes s !! stream_key in
      let s := set_modes (<[stream_key := mode]> (stream_modes s)) s in
      (Ok tt, if eqb previous (Some mode) then s
              else set_workers (delete stream_key (workers s)) s)
  end.

Definition active_worker_count s : nat := size (workers s).

(** The workers stay registered. *)
Definition shutdown_all s : WalState := set_workers (send_shutdown <$> workers s) s.

(** A worker takes the shutdown command from its queue. *)
Definition worker_stops stream_key s : WalState :=
  match workers s !! stream_key with
  | Some wk =>
      match status wk with
      | ShutdownQueued =>
          set_workers (<[stream_key := mkWorker (wal_path wk) (append_file wk) Exited]> (workers s)) s
      | _ => s
      end
  | None => s
  end.

Definition get_or_spawn_worker_for_stream_key stream_key s : Worker * WalState :=
  match workers s !! stream_key with
  | Some existing => (existing, s)
  | None =>
      let path :=
        match default Durable (stream_modes s !! stream_key) with
        | Durable => (λ dir, wal_file_path dir stream_key) <$> data_dir s
        | Ephemeral => None
        end in
      let '(wk, w) := start_worker path (world s) in
      let s := set_workers (<[stream_key := wk]> (workers s)) (set_world w s) in
      (wk, match path with
           | Some _ =>
               set_storage
                 (match storage s !! stream_key with
                  | Some _ => storage s
                  | None => <[stream_key := []]> (storage s)
                  end) s
           | None => s
           end)
  end.

(** Sending a command and waiting for its acknowledgement.  [command] is the worker's handler on
    the records of the stream, which exist from the first command on. *)
Definition send_command stream_key (send_error receive_error : string)
    (command : Worker → list TransactionRecord → World → Outcome) s : result unit string * WalState :=
  let '(wk, s) := get_or_spawn_worker_for_stream_key stream_key s in
  match status wk with
  | Exited => (Err send_error, s)
  | ShutdownQueued =>
      (Err receive_error,
       set_workers (<[stream_key := mkWorker (wal_path wk) (append_file wk) Exited]> (workers s)) s)
  | Running =>
      let '(r, wk, entries, w) := command wk (default [] (storage s !! stream_key)) (world s) in
      (r, set_workers (<[stream_key := wk]> (workers s))
            (set_storage (<[stream_key := entries]> (storage s)) (set_world w s)))
  end.

(** The update of the high-water mark after an acknowledged write. *)
Definition raise_high_water stream_key (write_ts : option Z) s : WalState :=
  match write_ts with
  | None => s
  | Some ts =>
      let current := write_high_water_by_stream s !! stream_key in
      set_high_water
        (<[stream_key := match current with
                         | Some c => if c <? ts then ts else c
                         | None => ts
                         end]> (write_high_water_by_stream s)) s
  end.

Definition append_with_context wal_id (record : TransactionRecord) context s : result unit string * WalState :=
  let write_ts := write_timestamp_if_data_write record in
  match obfuscated_stream_key wal_id with
  | Err e => (Err e, s)
  | Ok stream_key =>
      let s := hydrate_stream_if_needed wal_id stream_key s in
      let '(r, s) :=
        send_command stream_key "failed to send WAL append command"
          "failed to receive WAL append acknowledgement"
          (λ wk entries, worker_append wk entries record context) s in
      match r with
      | Err e => (Err e, s)
      | Ok _ => (Ok tt, raise_high_water stream_key write_ts s)
      end
  end.

Definition append_batch_with_context wal_id (records : list TransactionRecord) context s
    : result unit string * WalState :=
  if is_empty records then (Ok tt, s)
  else
    let batch_max_write_ts := latest_write_timestamp records in
    match obfuscated_stream_key wal_id with
    | Err e => (Err e, s)
    | Ok stream_key =>
        let s := hydrate_stream_if_needed wal_id stream_key s in
        let '(r, s) :=
          send_command stream_key "failed to send WAL append-batch command"
            "failed to receive WAL append-batch acknowledgement"
            (λ wk entries, worker_append_batch wk entries records context) s in
        match r with
        | Err e => (Err e, s)
        | Ok _ => (Ok tt, raise_high_water stream_key batch_max_write_ts s)
        end
    end.

Definition compact_stream_to_latest_schema_and_metadata wal_id (actor : UserId)
    (timestamp_epoch_ms : Z) s : result unit string * WalState :=
  match obfuscated_stream_key wal_id with
  | Err e => (Err e, s)
  | Ok stream_key =>
      let s := hydrate_stream_if_needed wal_id stream_key s in
      let '(r, s) :=
        send_command stream_key "failed to send WAL compact command"
          "failed to receive WAL compact acknowledgement"
          (λ wk entries, worker_compact wk entries actor timestamp_epoch_ms) s in
      match r with
      | Err e => (Err e, s)
      | Ok _ =>
          (Ok tt, match storage s !! stream_key with
                  | Some entries => put_high_water stream_key (latest_write_timestamp entries) s
                  | None => s
                  end)
      end
  end.

Definition realign_stream_records wal_id s : result unit string * WalState :=
  match obfuscated_stream_key wal_id with
  | Err e => (Err e, s)
  | Ok stream_key =>
      let s := hydrate_stream_if_needed wal_id stream_key s in
      match storage s !! stream_key with
      | None => (Err "WAL stream is unavailable", s)
      | Some entries =>
          match realign_records entries with
          | Err e => (Err e, s)
          | Ok rebuilt =>
              let '(r, w) :=
                match data_dir s with
                | Some dir =>
                    rewrite_wal_file_with_context (wal_file_path dir stream_key) rebuilt
                      default_transaction_payload_context (world s)
                | None => (Ok tt, world s)
                end in
              let s := set_world w s in
              match r with
              | Err e => (Err e, s)
              | Ok _ =>
                  if positions_aligned rebuilt
                  then (Ok tt, set_storage (<[stream_key := rebuilt]> (storage s)) s)
                  else (Err "WAL realignment validation failed", s)
              end
          end
      end
  end.

Definition validate_stream_record_positions wal_id s : result unit string * WalState :=
  let '(r, s) := with_records wal_id positions_aligned s in
  (match r with
   | Some true => Ok tt
   | Some false => Err "WAL position mismatch"
   | None => Err "WAL stream unavailable"
   end, s).

Definition delete_stream wal_id s : result unit string * WalState :=
  match obfuscated_stream_key wal_id with
  | Err e => (Err e, s)
  | Ok stream_key =>
      let s := set_workers (delete stream_key (workers s)) s in
      let s := set_storage (delete stream_key (storage s)) s in
      let s := set_modes (delete stream_key (stream_modes s)) s in
      let s := set_high_water (delete stream_key (write_high_water_by_stream s)) s in
      match data_dir s with
      | None => (Ok tt, s)
      | Some dir =>
          let '(o, w) := pop_fault (world s) in
          match o, disk w !! wal_file_path dir stream_key with
          | IoFailed _, Some _ => (Err "failed to delete WAL file", set_world w s)
          | _, _ => (Ok tt, set_world (set_disk (delete (wal_file_path dir stream_key) (disk w)) w) s)
          end
      end
  end.

Definition clear_stream_records wal_id s : result unit string * WalState :=
  match obfuscated_stream_key wal_id with
  | Err e => (Err e, s)
  | Ok stream_key =>
      let mode := default Durable (stream_modes s !! stream_key) in
      let s := set_workers (delete stream_key (workers s)) s in
      let s := set_storage (delete stream_key (storage s)) s in
      let s := set_high_water (delete stream_key (write_high_water_by_stream s)) s in
      match mode, data_dir s with
      | Durable, Some dir =>
          let '(written, w) := write_bytes (wal_file_path dir stream_key) (make_header DataFile) (world s) in
          (if written then Ok tt else Err "failed to clear WAL file", set_world w s)
      | _, _ => (Ok tt, s)
      end
  end.

Definition latest_transaction_id wal_id s : option TransactionId * WalState :=
  let '(r, s) := with_records wal_id (λ entries, id <$> last entries) s in
  (mjoin r, s).

Definition latest_transaction_id_if_loaded wal_id s : option TransactionId :=
  match obfuscated_stream_key wal_id with
  | Err _ => None
  | Ok stream_key => entries ← storage s !! stream_key; id <$> last entries
  end.

(** The records of a stream after hydration, as the readers of the log see them. *)
Definition all_records wal_id s : list TransactionRecord * WalState :=
  let '(r, s) := with_records wal_id (λ entries, entries) s in (default [] r, s).

Definition since wal_id (from : option TransactionId) s : list TransactionRecord * WalState :=
  let '(entries, s) := all_records wal_id s in
  (match from with
   | Some min_id => drop (first_record_index_after_id entries min_id) entries
   | None => entries
   end, s).

(** The records [for_each_since] passes to its function, in order. *)
Definition for_each_since wal_id (from : option TransactionId) s : list TransactionRecord * WalState :=
  let '(entries, s) := all_records wal_id s in
  let start_idx := match from with Some m => first_record_index_after_id entries m | None => O end in
  (drop start_idx entries, s).

(** The closure [since_kinds] filters with. *)
Definition since_kinds_keep (from : option TransactionId) (kinds : list TransactionKind)
    (e : TransactionRecord) : bool :=
  match from with Some m => m <? id e | None => true end
  && match kinds with
     | [k] => eqb (kind e) k
     | [k1; k2] => eqb (kind e) k1 || eqb (kind e) k2
     | _ => bool_decide (kind e ∈ kinds)
     end.

Definition since_kinds wal_id (from : option TransactionId) (kinds : list TransactionKind) s
    : list TransactionRecord * WalState :=
  if is_empty kinds then ([], s)
  else
    let '(entries, s) := all_records wal_id s in
    (filter (λ e, Is_true (since_kinds_keep from kinds e)) entries, s).

(** The payloads of [since] resolved in a context. *)
Fixpoint resolve_records (records : list TransactionRecord) context : result (list TransactionRecord) string :=
  match records with
  | [] => Ok []
  | r :: rest =>
      let? resolved := map_err map_payload_transform_error (resolve_wal_storage_payload (payload_raw r) context) in
      let r := match resolved with
               | Some (Owned p) => set_payload (Some p) (Some context) r
               | _ => r
               end in
      let? rest := resolve_records rest context in
      Ok (r :: rest)
  end.

Definition since_with_context wal_id (from : option TransactionId) context s
    : result (list TransactionRecord) string * WalState :=
  let '(records, s) := since wal_id from s in
  if eqb context default_transaction_payload_context then (Ok records, s)
  else (resolve_records records context, s).

(** The records passed to the callback when the stream is durable and not loaded, [None] when
    the caller has to read the loaded stream instead. *)
Definition scan_durable_records_if_unloaded wal_id s
    : result (option (list TransactionRecord)) string * WalState :=
  match obfuscated_stream_key wal_id with
  | Err e => (Err e, s)
  | Ok stream_key =>
      if negb (eqb (stream_mode wal_id s) Durable) then (Ok None, s)
      else if bool_decide (is_Some (storage s !! stream_key)) then (Ok None, s)
      else
        match data_dir s with
        | None => (Ok None, s)
        | Some dir =>
            match disk (world s) !! wal_file_path dir stream_key with
            | None => (Ok None, s)
            | Some _ =>
                let '(opened, w) := plain_call (world s) in
                if negb opened then (Err "failed to open WAL file", set_world w s)
                else
                  let '(content, w) := read_file (wal_file_path dir stream_key) w in
                  let s := set_world w s in
                  match read_exact (Z.of_nat HEADER_SIZE) (default [] content) with
                  | None => (Err "failed to read WAL header", s)
                  | Some (header, reader) =>
                      match verify_header DataFile header with
                      | Err _ => (Err "invalid WAL header/version", s)
                      | Ok _ =>
                          (Ok (Some (decode_records_sequential_from_reader_with_context reader
                                       default_transaction_payload_context)), s)
                      end
                  end
            end
        end
  end.
End manager.
