(* ===== verification/WalManagerFacts.v ===== *)
(** * Conflict detection of the WAL manager

    The write high-water marks of [ConcurrentWalManager] against the records they summarise, in
    every state the manager can reach: any initial disk, any faults, any sequence of operations. *)

From Stdlib Require Import ZArith Lia Strings.Byte.
From stdpp Require Import base list gmap strings.
From S2P Require Import Prelude Settings Record RowPayload WalFile Wal WalManager.

(** ** Operations as data *)

Inductive WalOp :=
| OpAppend (wal_id : ustr) (record : TransactionRecord) (context : TransactionPayloadContext)
| OpAppendBatch (wal_id : ustr) (records : list TransactionRecord) (context : TransactionPayloadContext)
| OpCompact (wal_id : ustr) (actor : UserId) (timestamp_epoch_ms : Z)
| OpRealign (wal_id : ustr)
| OpInvalidate (wal_id : ustr)
| OpRead (wal_id : ustr)
| OpHasWriteAfter (wal_id : ustr) (timestamp_epoch_ms : Z)
| OpScan (wal_id : ustr)
| OpSetStreamMode (wal_id : ustr) (mode : WalStreamMode)
| OpShutdownAll
| OpWorkerStops (stream_key : ustr)
| OpDelete (wal_id : ustr)
| OpClear (wal_id : ustr)
| OpRestart.

Section facts.
Context `{RowCrypto} `{Zlib} `{Env} `{BinarySearch} `{Digest}.
Context `{Bincode EncryptedRowPayloadEnvelope} `{Bincode LegacyEncryptedRowPayloadEnvelope}.
Context `{Bincode TransactionRecord}.

(** One operation: its acknowledgement and the next state.  [OpRestart] is a new process on the
    same disk. *)
Definition run_op (op : WalOp) (s : WalState) : result unit string * WalState :=
  match op with
  | OpAppend wal_id record context => append_with_context wal_id record context s
  | OpAppendBatch wal_id records context => append_batch_with_context wal_id records context s
  | OpCompact wal_id actor ts => compact_stream_to_latest_schema_and_metadata wal_id actor ts s
  | OpRealign wal_id => realign_stream_records wal_id s
  | OpInvalidate wal_id => invalidate_stream_cache wal_id s
  | OpRead wal_id => (Ok tt, (all_records wal_id s).2)
  | OpHasWriteAfter wal_id ts => (Ok tt, (has_write_after wal_id ts s).2)
  | OpScan wal_id => (Ok tt, (scan_durable_records_if_unloaded wal_id s).2)
  | OpSetStreamMode wal_id mode => set_stream_mode wal_id mode s
  | OpShutdownAll => (Ok tt, shutdown_all s)
  | OpWorkerStops key => (Ok tt, worker_stops key s)
  | OpDelete wal_id => delete_stream wal_id s
  | OpClear wal_id => clear_stream_records wal_id s
  | OpRestart => (Ok tt, new_manager (data_dir s) (world s))
  end.

Definition run_ops (ops : list WalOp) (s : WalState) : WalState :=
  foldl (λ s op, (run_op op s).2) s ops.

(** ** What the worker does to the records *)

Lemma worker_append_entries wk entries record context w r wk' entries' w' :
  worker_append wk entries record context w = (r, wk', entries', w') →
  match r with Ok _ => entries' = merge_record entries record | Err _ => entries' = entries end.
Proof.
  unfold worker_append, merge_record. destruct (place entries record) as [| |pos]; simpl.
  - destruct (wal_path wk) as [path|]; [|intros [= <- <- <- <-]; done].
    destruct (frame_record_with_context _ _ _); [|intros [= <- <- <- <-]; done].
    destruct (append_wal_bytes _ _ _ _) as [[[] ?] ?]; intros [= <- <- <- <-]; done.
  - intros [= <- <- <- <-]. done.
  - destruct (wal_path wk) as [path|]; [|intros [= <- <- <- <-]; done].
    destruct (rewrite_wal_file_with_context _ _ _ _) as [[] ?]; [|intros [= <- <- <- <-]; done].
    destruct (reopen wk w0) as [? ?]. intros [= <- <- <- <-]. done.
Qed.

Lemma worker_append_batch_entries wk entries records context w r wk' entries' w' :
  worker_append_batch wk entries records context w = (r, wk', entries', w') →
  match r with Ok _ => entries' = foldl merge_record entries records | Err _ => entries' = entries end.
Proof.
  unfold worker_append_batch. destruct (is_empty records) eqn:Ee.
  { destruct records; [|discriminate]. intros [= <- <- <- <-]. done. }
  destruct (batch_ordered _ _) eqn:Eo.
  - apply batch_ordered_foldl in Eo.
    destruct (wal_path wk) as [path|]; [|intros [= <- <- <- <-]; done].
    simpl. destruct (frame_records _ _ _); [|intros [= <- <- <- <-]; done].
    destruct (append_wal_bytes _ _ _ _) as [[[] ?] ?]; intros [= <- <- <- <-]; done.
  - pose proof (merge_batch_foldl entries records false false) as Hf.
    pose proof (merge_batch_clean entries records false) as Hc.
    destruct (merge_batch entries records false false) as [[staged m] d]. simpl in *. subst staged.
    destruct (wal_path wk) as [path|]; [|intros [= <- <- <- <-]; done].
    destruct d; [|intros [= <- <- <- <-]; symmetry; auto].
    destruct (rewrite_wal_file_with_context _ _ _ _) as [[] ?]; [|intros [= <- <- <- <-]; done].
    destruct (if m then _ else _) as [? ?]. intros [= <- <- <- <-]. done.
Qed.

Lemma worker_compact_entries wk entries actor ts w r wk' entries' w' :
  worker_compact wk entries actor ts w = (r, wk', entries', w') →
  entries' = compact_entries_to_latest_schema_and_metadata entries actor ts.
Proof.
  unfold worker_compact. destruct (wal_path wk) as [path|]; [|intros [= <- <- <- <-]; done].
  destruct (rewrite_wal_file_with_context _ _ _ _) as [[] ?]; [|intros [= <- <- <- <-]; done].
  destruct (reopen wk w0) as [? ?]. intros [= <- <- <- <-]. done.
Qed.

(** ** The invariant of the high-water marks *)

(** The mark of a loaded stream is not below its latest data write, and a stream without a mark
    has no data write. *)
Definition mark_covers (mark : option Z) (entries : list TransactionRecord) : Prop :=
  match mark with
  | Some t => ∀ m, latest_write_timestamp entries = Some m → m ≤ t
  | None => latest_write_timestamp entries = None
  end.

(** The records of a stream that are in memory. *)
Definition loaded (s : WalState) (key : ustr) : list TransactionRecord := default [] (storage s !! key).

Definition marks_cover (s : WalState) : Prop :=
  ∀ key, mark_covers (write_high_water_by_stream s !! key) (loaded s key).

Lemma mark_covers_nil mark : mark_covers mark [].
Proof. by destruct mark. Qed.

Lemma mark_covers_latest entries : mark_covers (latest_write_timestamp entries) entries.
Proof. unfold mark_covers. destruct (latest_write_timestamp entries); [intros ? [= <-]; lia|done]. Qed.

Lemma mark_covers_eq mark entries entries' :
  latest_write_timestamp entries' = latest_write_timestamp entries →
  mark_covers mark entries → mark_covers mark entries'.
Proof. unfold mark_covers. intros ->. done. Qed.

(** The mark after [raise_high_water]. *)
Lemma raise_high_water_lookup key ts s key' :
  write_high_water_by_stream (raise_high_water key ts s) !! key'
  = if decide (key = key') then max_opt (write_high_water_by_stream s !! key) ts
    else write_high_water_by_stream s !! key'.
Proof.
  unfold raise_high_water. destruct ts as [t|]; simpl.
  - destruct (decide (key = key')) as [<-|Hne]; [|by rewrite lookup_insert_ne].
    rewrite lookup_insert_eq. destruct (write_high_water_by_stream s !! key) as [c|]; simpl; [|done].
    f_equal. destruct (Z.ltb_spec c t); lia.
  - destruct (decide (key = key')) as [<-|Hne]; [by rewrite max_opt_None_r|done].
Qed.

Lemma mark_covers_raise mark entries ts entries' :
  latest_write_timestamp entries' = max_opt (latest_write_timestamp entries) ts →
  mark_covers mark entries → mark_covers (max_opt mark ts) entries'.
Proof.
  unfold mark_covers. intros ->. destruct mark as [c|], ts as [t|]; simpl; try done.
  - intros Hc m. destruct (latest_write_timestamp entries) as [l|]; simpl; intros [= <-]; [|lia].
    specialize (Hc l eq_refl). lia.
  - intros Hc m. rewrite max_opt_None_r. apply Hc.
  - intros ->. simpl. intros m [= <-]. lia.
  - intros ->. done.
Qed.

Lemma latest_write_subset l l' :
  (∀ t, t ∈ omap write_timestamp_if_data_write l' → t ∈ omap write_timestamp_if_data_write l) →
  mark_covers (latest_write_timestamp l) l'.
Proof.
  intros Hsub. unfold mark_covers, latest_write_timestamp.
  destruct (max_option (omap _ l)) as [t|] eqn:E.
  - apply max_option_Some in E as [_ Hall]. rewrite Forall_forall in Hall.
    intros m [Hm _]%max_option_Some. by apply Hall, Hsub.
  - apply max_option_None in E. apply max_option_None. rewrite E in Hsub.
    destruct (omap _ l') as [|t ts]; [done|]. exfalso. apply (not_elem_of_nil t), Hsub. left.
Qed.

(** ** Effect of the operations on records and marks *)

Lemma loaded_insert s key entries key' :
  loaded (set_storage (<[key := entries]> (storage s)) s) key'
  = if decide (key = key') then entries else loaded s key'.
Proof.
  unfold loaded. simpl. destruct (decide (key = key')) as [<-|Hne];
    [by rewrite lookup_insert_eq|by rewrite lookup_insert_ne].
Qed.

Lemma put_high_water_lookup key ts s key' :
  write_high_water_by_stream (put_high_water key ts s) !! key'
  = if decide (key = key') then ts else write_high_water_by_stream s !! key'.
Proof.
  unfold put_high_water. destruct (decide (key = key')) as [<-|Hne]; destruct ts; simpl;
    by rewrite ?lookup_insert_eq, ?lookup_delete_eq, ?lookup_insert_ne, ?lookup_delete_ne.
Qed.

(** Hydration loads at most the stream asked for, with its mark. *)
Lemma hydrate_marks wal_id key s : marks_cover s → marks_cover (hydrate_stream_if_needed wal_id key s).
Proof.
  intros Hm. unfold hydrate_stream_if_needed. destruct (negb _); [done|].
  destruct (data_dir s) as [dir|]; [|done]. destruct (storage s !! key) eqn:Es; [done|].
  destruct (disk (world s) !! wal_file_path dir key).
  - destruct (read_file _ _) as [content w]. intros key'. rewrite put_high_water_lookup.
    unfold loaded. simpl. destruct (decide (key = key')) as [<-|Hne].
    + rewrite lookup_insert_eq. apply mark_covers_latest.
    + rewrite lookup_insert_ne by done. apply (Hm key').
  - intros key'. rewrite loaded_insert. simpl. destruct (decide (key = key')); [apply mark_covers_nil|apply Hm].
Qed.

Lemma spawn_marks key s wk s' :
  get_or_spawn_worker_for_stream_key key s = (wk, s') →
  write_high_water_by_stream s' = write_high_water_by_stream s ∧ ∀ key', loaded s' key' = loaded s key'.
Proof.
  unfold get_or_spawn_worker_for_stream_key. destruct (workers s !! key); [intros [= <- <-]; done|].
  destruct (start_worker _ _) as [wk0 w]. destruct (match _ with Durable => _ | Ephemeral => _ end);
    intros [= <- <-]; (split; [done|]); [|done].
  intros key'. unfold loaded. simpl. destruct (storage s !! key) eqn:Es; [done|].
  destruct (decide (key = key')) as [<-|Hne]; [by rewrite lookup_insert_eq, Es|by rewrite lookup_insert_ne].
Qed.

(** A command changes the records of its stream by the handler of the worker, or not at all. *)
Lemma send_command_marks key e1 e2 command s r s' :
  send_command key e1 e2 command s = (r, s') →
  write_high_water_by_stream s' = write_high_water_by_stream s ∧
  (∀ key', key ≠ key' → loaded s' key' = loaded s key') ∧
  ((∃ e, r = Err e ∧ loaded s' key = loaded s key) ∨
   ∃ wk w wk' w', command wk (loaded s key) w = (r, wk', loaded s' key, w')).
Proof.
  unfold send_command. destruct (get_or_spawn_worker_for_stream_key key s) as [wk s1] eqn:Esp.
  destruct (spawn_marks _ _ _ _ Esp) as [Hw Hl]. destruct (status wk).
  - fold (loaded s1 key). rewrite (Hl key).
    destruct (command wk (loaded s key) (world s1)) as [[[r0 wk'] entries] w'] eqn:Ec.
    intros [= <- <-]. split; [done|]. split.
    + intros key' Hne. unfold loaded. simpl. rewrite lookup_insert_ne by done. apply Hl.
    + right. exists wk, (world s1), wk', w'. rewrite Ec. unfold loaded. simpl.
      by rewrite lookup_insert_eq.
  - intros [= <- <-]. split; [done|]. split; [intros; apply Hl|]. left. exists e2. split; [done|apply Hl].
  - intros [= <- <-]. split; [done|]. split; [intros; apply Hl|]. left. exists e1. split; [done|apply Hl].
Qed.

(** An acknowledged write raises the mark as far as the records went. *)
Lemma command_raise_marks key e1 e2 command ts s :
  (∀ wk entries w r wk' entries' w',
     command wk entries w = (r, wk', entries', w') →
     match r with
     | Ok _ => latest_write_timestamp entries' = max_opt (latest_write_timestamp entries) ts
     | Err _ => entries' = entries
     end) →
  marks_cover s →
  let '(r, s') := send_command key e1 e2 command s in
  marks_cover (match r with Ok _ => raise_high_water key ts s' | Err _ => s' end).
Proof.
  intros Hcmd Hm. destruct (send_command key e1 e2 command s) as [r s'] eqn:Es.
  destruct (send_command_marks _ _ _ _ _ _ _ Es) as (Hw & Hother & Hkey).
  assert (∀ key', loaded (raise_high_water key ts s') key' = loaded s' key') as Hl
    by (intros; by destruct ts).
  destruct r as [u|e]; intros key'.
  - rewrite raise_high_water_lookup, Hl, Hw. destruct (decide (key = key')) as [<-|Hne].
    + destruct Hkey as [(e & [=] & _)|(wk & w & wk' & w' & Hc)]. apply Hcmd in Hc.
      eapply mark_covers_raise; [exact Hc|apply Hm].
    + rewrite Hother by done. apply Hm.
  - rewrite Hw. destruct (decide (key = key')) as [<-|Hne]; [|rewrite Hother by done; apply Hm].
    destruct Hkey as [(e' & _ & ->)|(wk & w & wk' & w' & Hc)]; [apply Hm|].
    apply Hcmd in Hc. rewrite Hc. apply Hm.
Qed.

(** Operations that leave records and marks of every stream alone. *)
Lemma marks_cover_same s s' :
  storage s' = storage s → write_high_water_by_stream s' = write_high_water_by_stream s →
  marks_cover s → marks_cover s'.
Proof. intros Hs Hw Hm key. unfold loaded. rewrite Hs, Hw. apply Hm. Qed.

(** Dropping a stream from memory drops its mark. *)
Lemma marks_cover_delete key s s' :
  storage s' = delete key (storage s) →
  write_high_water_by_stream s' = delete key (write_high_water_by_stream s) →
  marks_cover s → marks_cover s'.
Proof.
  intros Hs Hw Hm key'. unfold loaded. rewrite Hs, Hw. destruct (decide (key = key')) as [<-|Hne].
  - rewrite !lookup_delete_eq. done.
  - rewrite !lookup_delete_ne by done. apply Hm.
Qed.

(** Compaction adds no data write. *)
Lemma compact_write_timestamps entries actor ts :
  mark_covers (latest_write_timestamp entries)
    (compact_entries_to_latest_schema_and_metadata entries actor ts).
Proof.
  apply latest_write_subset. intros t. rewrite !list_elem_of_omap. intros (r & Hr & Ht).
  assert (write_timestamp_if_data_write (content r) = Some t) as Ht' by done.
  apply (list_elem_of_fmap_2 content) in Hr. rewrite compact_content in Hr.
  apply elem_of_app in Hr as [Hr|Hr].
  - apply list_elem_of_fmap in Hr as (x & Hx & [_ Hin]%list_elem_of_filter).
    exists x. split; [done|]. rewrite Hx in Ht'. done.
  - apply list_elem_of_singleton in Hr. rewrite Hr in Ht'. done.
Qed.

Lemma mark_covers_trans mark entries entries' :
  mark_covers mark entries → mark_covers (latest_write_timestamp entries) entries' →
  mark_covers mark entries'.
Proof.
  unfold mark_covers. destruct mark as [t|]; [|intros ->; done].
  destruct (latest_write_timestamp entries) as [l|]; [|intros _ ->; done].
  intros Ht Hl m Hm. specialize (Ht l eq_refl). specialize (Hl m Hm). lia.
Qed.

Lemma compact_marks wal_id actor ts s :
  marks_cover s → marks_cover (compact_stream_to_latest_schema_and_metadata wal_id actor ts s).2.
Proof.
  intros Hm. unfold compact_stream_to_latest_schema_and_metadata.
  destruct (obfuscated_stream_key wal_id) as [key|]; [|done].
  apply (hydrate_marks wal_id key) in Hm. set (s1 := hydrate_stream_if_needed wal_id key s) in *.
  destruct (send_command _ _ _ _ s1) as [r s'] eqn:Es.
  destruct (send_command_marks _ _ _ _ _ _ _ Es) as (Hw & Hother & Hkey).
  assert (marks_cover s') as Hm'.
  { intros key'. rewrite Hw. destruct (decide (key = key')) as [<-|Hne]; [|rewrite Hother by done; apply Hm].
    destruct Hkey as [(e & _ & ->)|(wk & w & wk' & w' & Hc)]; [apply Hm|].
    apply worker_compact_entries in Hc. rewrite Hc.
    eapply mark_covers_trans; [apply Hm|apply compact_write_timestamps]. }
  destruct r as [u|e]; [|done]. simpl. destruct (storage s' !! key) as [entries|] eqn:Ek; [|done].
  intros key'. rewrite put_high_water_lookup. destruct (decide (key = key')) as [<-|Hne]; [|apply Hm'].
  change (mark_covers (latest_write_timestamp entries) (loaded s' key)).
  unfold loaded. rewrite Ek. apply mark_covers_latest.
Qed.

Lemma realign_marks wal_id s : marks_cover s → marks_cover (realign_stream_records wal_id s).2.
Proof.
  intros Hm. unfold realign_stream_records. destruct (obfuscated_stream_key wal_id) as [key|]; [|done].
  apply (hydrate_marks wal_id key) in Hm. set (s1 := hydrate_stream_if_needed wal_id key s) in *.
  destruct (storage s1 !! key) as [entries|] eqn:Ek; [|done].
  destruct (realign_records entries) as [rebuilt|] eqn:Er; [|done].
  destruct (match data_dir s1 with Some _ => _ | None => _ end) as [[u|e] w]; [|done].
  destruct (positions_aligned rebuilt); [|done]. intros key'. simpl. unfold loaded. simpl.
  destruct (decide (key = key')) as [<-|Hne]; [|rewrite lookup_insert_ne by done; apply Hm].
  rewrite lookup_insert_eq. simpl. eapply mark_covers_eq; [by apply latest_write_realign|].
  specialize (Hm key). unfold loaded in Hm. rewrite Ek in Hm. done.
Qed.

Lemma append_marks wal_id record context s :
  marks_cover s → marks_cover (append_with_context wal_id record context s).2.
Proof.
  intros Hm. unfold append_with_context. destruct (obfuscated_stream_key wal_id) as [key|]; [|done].
  apply (hydrate_marks wal_id key) in Hm.
  pose proof (command_raise_marks key "failed to send WAL append command"
    "failed to receive WAL append acknowledgement" (λ wk entries, worker_append wk entries record context)
    (write_timestamp_if_data_write record) (hydrate_stream_if_needed wal_id key s)) as Hc.
  destruct (send_command _ _ _ _ _) as [r s']. apply Hc in Hm; [destruct r; done|].
  intros wk entries w r' wk' entries' w' He. apply worker_append_entries in He.
  destruct r'; [|done]. rewrite He. apply latest_write_merge.
Qed.

Lemma append_batch_marks wal_id records context s :
  marks_cover s → marks_cover (append_batch_with_context wal_id records context s).2.
Proof.
  intros Hm. unfold append_batch_with_context. destruct (is_empty records); [done|].
  destruct (obfuscated_stream_key wal_id) as [key|]; [|done].
  apply (hydrate_marks wal_id key) in Hm.
  pose proof (command_raise_marks key "failed to send WAL append-batch command"
    "failed to receive WAL append-batch acknowledgement"
    (λ wk entries, worker_append_batch wk entries records context)
    (latest_write_timestamp records) (hydrate_stream_if_needed wal_id key s)) as Hc.
  destruct (send_command _ _ _ _ _) as [r s']. apply Hc in Hm; [destruct r; done|].
  intros wk entries w r' wk' entries' w' He. apply worker_append_batch_entries in He.
  destruct r'; [|done]. rewrite He. apply latest_write_foldl.
Qed.

Lemma has_write_after_marks wal_id ts s : marks_cover s → marks_cover (has_write_after wal_id ts s).2.
Proof.
  intros Hm. unfold has_write_after. destruct (obfuscated_stream_key wal_id) as [key|]; [|done].
  apply (hydrate_marks wal_id key) in Hm. set (s1 := hydrate_stream_if_needed wal_id key s) in *.
  destruct (write_high_water_by_stream s1 !! key); [done|].
  destruct (storage s1 !! key) as [entries|] eqn:Ek; [|done]. simpl. intros key'.
  rewrite put_high_water_lookup. destruct (decide (key = key')) as [<-|Hne]; [|apply Hm].
  change (mark_covers (latest_write_timestamp entries) (loaded s1 key)).
  unfold loaded. rewrite Ek. apply mark_covers_latest.
Qed.

Lemma run_op_marks op s : marks_cover s → marks_cover (run_op op s).2.
Proof.
  intros Hm. destruct op; simpl.
  - by apply append_marks.
  - by apply append_batch_marks.
  - by apply compact_marks.
  - by apply realign_marks.
  - unfold invalidate_stream_cache. destruct (obfuscated_stream_key wal_id) as [key|]; [|done].
    by apply (marks_cover_delete key s).
  - unfold all_records, with_records. destruct (obfuscated_stream_key wal_id); [|done].
    by apply hydrate_marks.
  - by apply has_write_after_marks.
  - unfold scan_durable_records_if_unloaded.
    repeat (case_match; try done; simplify_eq/=); by eapply marks_cover_same.
  - unfold set_stream_mode. destruct (obfuscated_stream_key wal_id); [|done]. simpl.
    destruct (eqb _ _); by eapply marks_cover_same.
  - by eapply marks_cover_same.
  - unfold worker_stops. repeat (case_match; try done); by eapply marks_cover_same.
  - unfold delete_stream. destruct (obfuscated_stream_key wal_id) as [key|]; [|done]. simpl.
    destruct (data_dir s) as [dir|]; [|by apply (marks_cover_delete key s)].
    destruct (faults (world s) 0); simpl; [by apply (marks_cover_delete key s)|].
    destruct (disk (world s) !! _); simpl; by apply (marks_cover_delete key s).
  - unfold clear_stream_records. destruct (obfuscated_stream_key wal_id) as [key|]; [|done]. simpl.
    destruct (default Durable _), (data_dir s); try by apply (marks_cover_delete key s).
    destruct (write_bytes _ _ _) as [b w]. by apply (marks_cover_delete key s).
  - intros key. apply mark_covers_nil.
Qed.

Lemma run_ops_marks ops s : marks_cover s → marks_cover (run_ops ops s).
Proof.
  unfold run_ops. revert s. induction ops as [|op ops IH]; intros s Hm; [done|].
  apply IH, run_op_marks, Hm.
Qed.

(** The answer of [has_write_after] against the records in memory afterwards. *)
Lemma has_write_after_complete wal_id key ts s b s' e t :
  marks_cover s → obfuscated_stream_key wal_id = Ok key →
  has_write_after wal_id ts s = (b, s') →
  e ∈ loaded s' key → write_timestamp_if_data_write e = Some t → ts < t → b = true.
Proof.
  intros Hm Hkey. unfold has_write_after. rewrite Hkey.
  apply (hydrate_marks wal_id key) in Hm. set (s1 := hydrate_stream_if_needed wal_id key s) in *.
  intros Hrun He Ht Hlt.
  assert (loaded s' key = loaded s1 key) as Hl.
  { destruct (write_high_water_by_stream s1 !! key); [by injection Hrun as _ <-|].
    destruct (storage s1 !! key); by injection Hrun as _ <-. }
  rewrite Hl in He.
  destruct (proj2 (latest_write_after (loaded s1 key) ts)) as (m & Hmax & Hmts); [eauto|].
  specialize (Hm key). destruct (write_high_water_by_stream s1 !! key) as [c|]; simpl in Hm.
  - injection Hrun as <- _. specialize (Hm m Hmax). apply Z.ltb_lt. lia.
  - congruence.
Qed.
End facts.

(** C27: write/write conflict detection misses nothing.  From any disk, under any faults and after
    any sequence of operations of the manager (appends, batches, compactions, realignments, cache
    invalidations, mode changes, shutdowns, deletions, restarts), [has_write_after] answers true
    whenever the stream holds a row write with a later timestamp. *)
Theorem has_write_after_misses_nothing
    `{RowCrypto} `{Zlib} `{Env} `{BinarySearch} `{Digest}
    `{Bincode EncryptedRowPayloadEnvelope} `{Bincode LegacyEncryptedRowPayloadEnvelope}
    `{Bincode TransactionRecord} (dir : option ustr) (w : World) (ops : list WalOp)
    (wal_id key : ustr) (ts : Z) (b : bool) (s' : WalState) (e : TransactionRecord) (t : Z) :
  obfuscated_stream_key wal_id = Ok key →
  has_write_after wal_id ts (run_ops ops (new_manager dir w)) = (b, s') →
  e ∈ loaded s' key → write_timestamp_if_data_write e = Some t → ts < t → b = true.
Proof.
  intros Hkey Hrun. assert (marks_cover (run_ops ops (new_manager dir w))) as Hm
    by (apply run_ops_marks; intros k; apply mark_covers_nil).
  exact (has_write_after_complete _ _ _ _ _ _ _ _ Hm Hkey Hrun).
Qed.
