(* ===== verification/WalDurability.v ===== *)
(** * Durability of the WAL manager

    A refinement: the manager with its cache, workers and files implements one list of records per
    stream.  While no system call fails, every acknowledged operation has the effect of its
    specification on that list, every refused one has none, and a new process on the same disk
    reads the same lists.  Stated for the default payload context and for records the reader can
    read back ([good]). *)

From Stdlib Require Import ZArith Lia Strings.Byte.
From stdpp Require Import base list gmap strings.
From S2P Require Import Prelude Settings Record RowPayload WalFile Wal WalManager WalManagerFacts.

Definition no_faults (w : World) : Prop := ∀ n, faults w n = IoDone.

Lemma wal_file_path_inj dir key key' : wal_file_path dir key = wal_file_path dir key' → key = key'.
Proof.
  unfold wal_file_path, file_name. intros E. do 2 apply app_inv_head in E. by apply app_inv_tail in E.
Qed.

(** ** System calls that do not fail *)

Lemma pop_fault_ok w : no_faults w →
  ∃ w', pop_fault w = (IoDone, w') ∧ no_faults w' ∧ disk w' = disk w.
Proof. intros Hn. eexists. split; [unfold pop_fault; by rewrite Hn|]. split; [intros n; apply Hn|done]. Qed.

Lemma plain_call_ok w : no_faults w → ∃ w', plain_call w = (true, w') ∧ no_faults w' ∧ disk w' = disk w.
Proof.
  intros Hn. destruct (pop_fault_ok w Hn) as (w' & E & ? & ?). exists w'. unfold plain_call. by rewrite E.
Qed.

Lemma open_ok path w : no_faults w → is_Some (disk w !! path) →
  ∃ w', open_wal_append_file path w = (true, w') ∧ no_faults w' ∧ disk w' = disk w.
Proof.
  intros Hn [c Hc]. destruct (pop_fault_ok w Hn) as (w' & E & ? & Hd). exists w'.
  unfold open_wal_append_file. rewrite E, Hd, Hc. done.
Qed.

Lemma write_all_ok path bs w : no_faults w →
  ∃ w', write_all path bs w = (true, w') ∧ no_faults w' ∧ disk w' = alter (λ c, c ++ bs) path (disk w).
Proof.
  intros Hn. destruct (pop_fault_ok w Hn) as (w' & E & Hn' & Hd).
  exists (set_disk (alter (λ c, c ++ bs) path (disk w')) w'). unfold write_all. rewrite E, Hd.
  split; [done|]. split; [exact Hn'|done].
Qed.

Lemma write_bytes_ok path bs w : no_faults w →
  ∃ w', write_bytes path bs w = (true, w') ∧ no_faults w' ∧ disk w' = <[path := bs]> (disk w).
Proof.
  intros Hn. destruct (pop_fault_ok w Hn) as (w1 & E1 & Hn1 & Hd1).
  destruct (pop_fault_ok w1 Hn1) as (w2 & E2 & Hn2 & Hd2).
  exists (set_disk (<[path := bs]> (disk w2)) w2). unfold write_bytes. rewrite E1, E2, Hd2, Hd1.
  split; [done|]. split; [exact Hn2|done].
Qed.

Lemma read_file_ok path w : no_faults w →
  ∃ w', read_file path w = (disk w !! path, w') ∧ no_faults w' ∧ disk w' = disk w.
Proof.
  intros Hn. destruct (pop_fault_ok w Hn) as (w' & E & ? & Hd). exists w'. unfold read_file.
  rewrite E, Hd. done.
Qed.

Lemma pop_nonces_ok w : no_faults w →
  ∃ rng w', pop_nonces w = (rng, w') ∧ no_faults w' ∧ disk w' = disk w.
Proof. intros Hn. eexists _, _. split; [reflexivity|]. split; [intros n; apply Hn|done]. Qed.

Section durability.
Context `{RowCrypto} `{ZlibLaws} `{Env} `{BinarySearchLaws} `{Digest}.
Context `{Bincode EncryptedRowPayloadEnvelope} `{Bincode LegacyEncryptedRowPayloadEnvelope}.
Context `{BincodeLaws TransactionRecord strip_shadow}.

Lemma maybe_sync_ok message w : no_faults w →
  ∃ w', maybe_sync message w = (Ok tt, w') ∧ no_faults w' ∧ disk w' = disk w.
Proof.
  intros Hn. unfold maybe_sync. destruct wal_sync_on_append; [|eauto].
  destruct (plain_call_ok w Hn) as (w' & E & ? & ?). rewrite E. eauto.
Qed.

Lemma append_wal_bytes_ok handle path bs w : no_faults w → is_Some (disk w !! path) →
  ∃ w', append_wal_bytes handle path bs w = (Ok tt, true, w') ∧ no_faults w' ∧
        disk w' = alter (λ c, c ++ bs) path (disk w).
Proof.
  intros Hn Hp.
  assert (∃ w1, (if handle then (true, w) else open_wal_append_file path w) = (true, w1) ∧
                no_faults w1 ∧ disk w1 = disk w) as (w1 & E1 & Hn1 & Hd1)
    by (destruct handle; [eauto|by apply open_ok]).
  destruct (write_all_ok path bs w1 Hn1) as (w2 & E2 & Hn2 & Hd2).
  destruct (maybe_sync_ok "failed to sync WAL bytes to disk" w2 Hn2) as (w3 & E3 & Hn3 & Hd3).
  exists w3. unfold append_wal_bytes. rewrite E1. simpl. rewrite E2, E3.
  split; [done|]. split; [done|]. congruence.
Qed.

(** A rewrite either cannot encode the records and leaves the disk, or replaces the file. *)
Lemma rewrite_ok path records context w r w' : no_faults w →
  rewrite_wal_file_with_context path records context w = (r, w') →
  no_faults w' ∧
  match r with
  | Ok _ => ∃ rng bs, rewritten_wal_bytes rng records context = Ok bs ∧ disk w' = <[path := bs]> (disk w)
  | Err _ => disk w' = disk w
  end.
Proof.
  intros Hn. unfold rewrite_wal_file_with_context.
  destruct (pop_nonces_ok w Hn) as (rng & w1 & E1 & Hn1 & Hd1). rewrite E1.
  destruct (rewritten_wal_bytes rng records context) as [bs|e] eqn:Eb; [|intros [= <- <-]; done].
  destruct (write_bytes_ok path bs w1 Hn1) as (w2 & E2 & Hn2 & Hd2). rewrite E2. simpl.
  rewrite Hd1 in Hd2. destruct wal_sync_on_append; [|intros [= <- <-]; eauto 10].
  destruct (plain_call_ok w2 Hn2) as (w3 & E3 & Hn3 & Hd3). rewrite E3. simpl.
  destruct (plain_call_ok w3 Hn3) as (w4 & E4 & Hn4 & Hd4). rewrite E4.
  intros [= <- <-]. split; [done|]. exists rng, bs. split; [done|]. congruence.
Qed.

(** ** The worker keeps the file *)

(** A record that survives the disk as it is. *)
Definition good (r : TransactionRecord) : Prop := storable r ∧ payload_shadow r = None.

Lemma good_strip records : Forall good records → strip_shadow <$> records = records.
Proof.
  induction 1 as [|r rs [_ Hr] _ IH]; [done|]. rewrite fmap_cons, IH. f_equal.
  destruct r. simpl in *. subst. done.
Qed.

Lemma good_storable records : Forall good records → Forall storable records.
Proof. intros Hg. eapply Forall_impl; [exact Hg|]. by intros r [? _]. Qed.

Lemma rewritten_good rng records content :
  Forall good records →
  rewritten_wal_bytes rng records default_transaction_payload_context = Ok content →
  clean_file records content.
Proof.
  intros Hg Hr. rewrite <- (good_strip records Hg). eapply rewritten_wal_clean; [|exact Hr].
  by apply good_storable.
Qed.

(** What a handler guarantees: when the file of the stream holds its records before, it does
    after, and no other file changed. *)
Definition handler_ok (path : ustr) (entries : list TransactionRecord) (spec : list TransactionRecord)
    (w : World) (out : Outcome) : Prop :=
  let '(r, wk', entries', w') := out in
  no_faults w' ∧ wal_path wk' = Some path ∧
  (∀ path', path ≠ path' → disk w' !! path' = disk w !! path') ∧
  (∃ content, disk w' !! path = Some content ∧ clean_file entries' content) ∧
  entries' = (if is_ok r then spec else entries).

Lemma clean_file_alter (path : ustr) (bs : bytes) (d : gmap ustr bytes) entries c records :
  d !! path = Some c → clean_file entries c → frames_for records bs →
  ∃ c', alter (λ c : bytes, c ++ bs) path d !! path = Some c' ∧ clean_file (entries ++ records) c'.
Proof.
  intros Hd Hc Hf. exists (c ++ bs). rewrite lookup_alter_eq, Hd. split; [done|].
  by apply clean_file_app.
Qed.

Lemma reopen_ok wk path w : no_faults w → wal_path wk = Some path → is_Some (disk w !! path) →
  ∃ wk' w', reopen wk w = (wk', w') ∧ wal_path wk' = Some path ∧ no_faults w' ∧ disk w' = disk w.
Proof.
  intros Hn Hp Hd. unfold reopen. rewrite Hp. destruct (open_ok path w Hn Hd) as (w' & E & ? & ?).
  rewrite E. eauto 10.
Qed.

(** The common path of every handler that rewrites the file with new records. *)
Lemma rewrite_handler_ok wk path entries spec c w (r : result unit string) w1 (reopened : bool) :
  no_faults w → wal_path wk = Some path → disk w !! path = Some c → clean_file entries c →
  Forall good spec →
  rewrite_wal_file_with_context path spec default_transaction_payload_context w = (r, w1) →
  handler_ok path entries spec w
    match r with
    | Err e => (Err e, wk, entries, w1)
    | Ok _ => let '(wk, w2) := if reopened then reopen wk w1 else (wk, w1) in (Ok tt, wk, spec, w2)
    end.
Proof.
  intros Hn Hp Hd Hc Hg Hr. apply rewrite_ok in Hr as [Hn1 Hr]; [|done]. destruct r as [u|e].
  - destruct Hr as (rng & bs & Hb & Hd1).
    assert (is_Some (disk w1 !! path)) as Hs by (rewrite Hd1, lookup_insert_eq; eauto).
    assert (∃ wk' w2, (if reopened then reopen wk w1 else (wk, w1)) = (wk', w2) ∧
              wal_path wk' = Some path ∧ no_faults w2 ∧ disk w2 = disk w1)
      as (wk' & w2 & E & Hp2 & Hn2 & Hd2) by (destruct reopened; [by apply reopen_ok|eauto 10]).
    rewrite E. split; [done|]. split; [done|]. rewrite Hd2, Hd1. split.
    + intros path' Hne. by rewrite lookup_insert_ne.
    + split; [|done]. exists bs. rewrite lookup_insert_eq. split; [done|]. by eapply rewritten_good.
  - split; [done|]. split; [done|]. rewrite Hr. split; [done|]. split; [eauto|done].
Qed.

Lemma merge_record_good entries record :
  good record → Forall good entries → Forall good (merge_record entries record).
Proof.
  intros Hr He. destruct (merge_members entries record) as [[pos ->]|[-> _]]; [|done].
  rewrite vec_insert_perm. by constructor.
Qed.

Lemma foldl_merge_good records entries :
  Forall good records → Forall good entries → Forall good (foldl merge_record entries records).
Proof.
  intros Hr. revert entries. induction Hr as [|r rs Hr Hrs IH]; intros entries He; simpl; [done|].
  apply IH. by apply merge_record_good.
Qed.

Lemma worker_append_ok wk path entries record c w :
  no_faults w → wal_path wk = Some path → disk w !! path = Some c → clean_file entries c →
  Forall good entries → good record →
  handler_ok path entries (merge_record entries record) w
    (worker_append wk entries record default_transaction_payload_context w).
Proof.
  intros Hn Hp Hd Hc He Hr. pose proof (merge_record_good _ _ Hr He) as Hg.
  unfold worker_append, merge_record in *. destruct (place entries record) as [| |pos]; cbn [apply_placement] in *.
  - rewrite Hp. destruct (pop_nonces_ok w Hn) as (rng & w1 & E1 & Hn1 & Hd1). rewrite E1.
    destruct (frame_record_with_context _ _ _) as [frame|e] eqn:Ef.
    + destruct (append_wal_bytes_ok (append_file wk) path frame w1 Hn1) as (w2 & E2 & Hn2 & Hd2);
        [rewrite Hd1; eauto|].
      rewrite E2. split; [done|]. split; [done|]. rewrite Hd2, Hd1.
      split; [intros; by rewrite lookup_alter_ne|]. split; [|done].
      eapply clean_file_alter; [done|done|]. rewrite <- (app_nil_r frame).
      rewrite <- (good_strip [record]) by (by constructor).
      eapply frame_record_clean; [apply Hr|exact Ef|constructor].
    + split; [done|]. split; [done|]. rewrite Hd1. split; [done|]. split; [eauto|done].
  - split; [done|]. split; [done|]. split; [done|]. split; [eauto|done].
  - rewrite Hp. destruct (rewrite_wal_file_with_context _ _ _ _) as [r w1] eqn:Er.
    exact (rewrite_handler_ok wk path entries _ c w r w1 true Hn Hp Hd Hc Hg Er).
Qed.

Lemma worker_append_batch_ok wk path entries records c w :
  no_faults w → wal_path wk = Some path → disk w !! path = Some c → clean_file entries c →
  Forall good entries → Forall good records →
  handler_ok path entries (foldl merge_record entries records) w
    (worker_append_batch wk entries records default_transaction_payload_context w).
Proof.
  intros Hn Hp Hd Hc He Hr. pose proof (foldl_merge_good _ _ Hr He) as Hg.
  assert (handler_ok path entries entries w (Ok tt, wk, entries, w)) as Hsame
    by (split; [done|]; split; [done|]; split; [done|]; split; [eauto|done]).
  unfold worker_append_batch. destruct (is_empty records) eqn:Ee.
  { destruct records; [exact Hsame|discriminate]. }
  destruct (batch_ordered _ _) eqn:Eo.
  - apply batch_ordered_foldl in Eo. rewrite Eo, Hp.
    destruct (pop_nonces_ok w Hn) as (rng & w1 & E1 & Hn1 & Hd1). rewrite E1.
    destruct (frame_records _ _ _) as [frames|e] eqn:Ef.
    + destruct (append_wal_bytes_ok (append_file wk) path frames w1 Hn1) as (w2 & E2 & Hn2 & Hd2);
        [rewrite Hd1; eauto|].
      rewrite E2. split; [done|]. split; [done|]. rewrite Hd2, Hd1.
      split; [intros; by rewrite lookup_alter_ne|]. split; [|done].
      eapply clean_file_alter; [done|done|]. rewrite <- (good_strip records) by done.
      eapply frame_records_clean; [by apply good_storable|exact Ef].
    + split; [done|]. split; [done|]. rewrite Hd1. split; [done|]. split; [eauto|done].
  - pose proof (merge_batch_foldl entries records false false) as Hf.
    pose proof (merge_batch_clean entries records false) as Hclean.
    destruct (merge_batch entries records false false) as [[staged m] d]. simpl in Hf, Hclean.
    subst staged. rewrite Hp. destruct d; [|rewrite Hclean by done; exact Hsame].
    destruct (rewrite_wal_file_with_context _ _ _ _) as [r w1] eqn:Er.
    exact (rewrite_handler_ok wk path entries _ c w r w1 m Hn Hp Hd Hc Hg Er).
Qed.

(** Compaction, when it is acknowledged. *)
Lemma worker_compact_ok wk path entries actor ts c w :
  no_faults w → wal_path wk = Some path → disk w !! path = Some c → clean_file entries c →
  Forall good (compact_entries_to_latest_schema_and_metadata entries actor ts) →
  is_ok (worker_compact wk entries actor ts w).1.1.1 = true →
  handler_ok path entries (compact_entries_to_latest_schema_and_metadata entries actor ts) w
    (worker_compact wk entries actor ts w).
Proof.
  intros Hn Hp Hd Hc Hg. unfold worker_compact. rewrite Hp.
  destruct (rewrite_wal_file_with_context _ _ _ _) as [r w1] eqn:Er.
  pose proof (rewrite_handler_ok wk path entries _ c w r w1 true Hn Hp Hd Hc Hg Er) as Hok.
  destruct r as [u|e]; [intros _; exact Hok|discriminate].
Qed.

(** ** The refinement *)

(** The file of a stream against its records; no file is the empty stream. *)
Definition file_holds (file : option bytes) (records : list TransactionRecord) : Prop :=
  match file with Some content => clean_file records content | None => records = [] end.

Lemma load_file_holds file records : file_holds file records → load_records_from_path file = records.
Proof. destruct file; simpl; [apply load_clean_file|done]. Qed.

Definition stream_file (dir : ustr) (s : WalState) (key : ustr) : option bytes :=
  disk (world s) !! wal_file_path dir key.

(** The log of a stream: what is in memory, or what loading its file would give. *)
Definition log_of (dir : ustr) (s : WalState) (key : ustr) : list TransactionRecord :=
  match storage s !! key with
  | Some entries => entries
  | None => load_records_from_path (stream_file dir s key)
  end.

Record durable_state (dir : ustr) (s : WalState) : Prop := {
  ds_dir : data_dir s = Some dir;
  ds_modes : stream_modes s = ∅;
  ds_faults : no_faults (world s);
  ds_files key : file_holds (stream_file dir s key) (log_of dir s key);
  ds_sorted key : sorted_ids (log_of dir s key);
  ds_good key : Forall good (log_of dir s key);
  ds_workers key wk : workers s !! key = Some wk →
    wal_path wk = Some (wal_file_path dir key) ∧ is_Some (stream_file dir s key)
}.

(** States that agree on everything a durable state is about, up to loading. *)
Lemma durable_state_same dir s s' :
  durable_state dir s →
  data_dir s' = data_dir s → stream_modes s' = stream_modes s → no_faults (world s') →
  (∀ key, stream_file dir s' key = stream_file dir s key) →
  (∀ key, log_of dir s' key = log_of dir s key) →
  (∀ key wk, workers s' !! key = Some wk → ∃ wk0, workers s !! key = Some wk0 ∧ wal_path wk = wal_path wk0) →
  durable_state dir s'.
Proof.
  intros [] Hdir Hmodes Hn Hf Hl Hw. split; [congruence|congruence|exact Hn|..].
  - intros key. by rewrite Hf, Hl.
  - intros key. by rewrite Hl.
  - intros key. by rewrite Hl.
  - intros key wk Hk. destruct (Hw _ _ Hk) as (wk0 & Hk0 & ->). rewrite Hf. eauto.
Qed.

(** Loading a stream changes neither logs nor files. *)
Lemma hydrate_durable dir wal_id key s :
  durable_state dir s →
  let s' := hydrate_stream_if_needed wal_id key s in
  durable_state dir s' ∧ (∀ key', log_of dir s' key' = log_of dir s key') ∧
  storage s' !! key = Some (log_of dir s key).
Proof.
  intros Hds. pose proof Hds as []. unfold hydrate_stream_if_needed, stream_mode.
  assert (negb (eqb match obfuscated_stream_key wal_id with
                    | Ok stream_key => default Durable (stream_modes s !! stream_key)
                    | Err _ => Durable end Durable) = false) as ->.
  { destruct (obfuscated_stream_key wal_id); [|done]. by rewrite ds_modes0, lookup_empty. }
  rewrite ds_dir0. destruct (storage s !! key) as [entries|] eqn:Es.
  { split; [done|]. split; [done|]. unfold log_of. by rewrite Es. }
  pose proof (ds_files0 key) as Hfile. unfold log_of in *. rewrite Es in Hfile.
  unfold stream_file in *. destruct (disk (world s) !! wal_file_path dir key) as [c|] eqn:Ec.
  - destruct (read_file_ok (wal_file_path dir key) (world s) ds_faults0) as (w' & E & Hn' & Hd').
    rewrite E, Ec, Es.
    assert (∀ key', log_of dir (put_high_water key (latest_write_timestamp (load_records_from_path (Some c)))
        (set_storage (<[key:=load_records_from_path (Some c)]> (storage s)) (set_world w' s))) key'
        = log_of dir s key') as Hl.
    { intros key'. unfold log_of, stream_file. simpl. rewrite Hd'.
      destruct (decide (key = key')) as [<-|Hne]; [by rewrite lookup_insert_eq, Es, Ec|by rewrite lookup_insert_ne]. }
    split; [|split; [exact Hl|]].
    + apply (durable_state_same dir s); try done; [intros key'; unfold stream_file; simpl; by rewrite Hd'|eauto].
    + simpl. by rewrite lookup_insert_eq.
  - assert (∀ key', log_of dir (set_storage (<[key:=[]]> (storage s)) s) key' = log_of dir s key') as Hl.
    { intros key'. unfold log_of, stream_file. simpl.
      destruct (decide (key = key')) as [<-|Hne]; [by rewrite lookup_insert_eq, Es, Ec|by rewrite lookup_insert_ne]. }
    split; [|split; [exact Hl|]]; [apply (durable_state_same dir s); try done; eauto|].
    simpl. by rewrite lookup_insert_eq, Es.
Qed.

(** A starting worker creates the file with its header if there is none. *)
Lemma start_worker_ok path w : no_faults w →
  ∃ wk w', start_worker (Some path) w = (wk, w') ∧ wal_path wk = Some path ∧ no_faults w' ∧
    disk w' = match disk w !! path with
              | Some _ => disk w
              | None => <[path := make_header DataFile]> (disk w)
              end.
Proof.
  intros Hn. unfold start_worker, ensure_wal_file.
  destruct (pop_fault_ok w Hn) as (w1 & E1 & Hn1 & Hd1). rewrite E1, Hd1.
  destruct (disk w !! path) as [c|] eqn:Ec.
  - destruct (open_ok path w1 Hn1) as (w2 & E2 & Hn2 & Hd2); [rewrite Hd1; eauto|]. rewrite E2.
    eexists _, _. split; [done|]. split; [done|]. split; [done|]. congruence.
  - destruct (write_bytes_ok path (make_header DataFile) w1 Hn1) as (w2 & E2 & Hn2 & Hd2). rewrite E2.
    destruct (open_ok path w2 Hn2) as (w3 & E3 & Hn3 & Hd3); [rewrite Hd2, lookup_insert_eq; eauto|].
    rewrite E3. eexists _, _. split; [done|]. split; [done|]. split; [done|]. congruence.
Qed.

(** Starting a worker for a loaded stream changes no log. *)
Lemma spawn_durable dir key s wk s' entries :
  durable_state dir s → storage s !! key = Some entries →
  get_or_spawn_worker_for_stream_key key s = (wk, s') →
  durable_state dir s' ∧ storage s' = storage s ∧ (∀ key', log_of dir s' key' = log_of dir s key') ∧
  workers s' !! key = Some wk.
Proof.
  intros Hds Hk. pose proof Hds as []. unfold get_or_spawn_worker_for_stream_key.
  destruct (workers s !! key) as [wk0|] eqn:Ew; [intros [= <- <-]; auto|].
  rewrite ds_modes0, lookup_empty, ds_dir0.
  change (start_worker _ (world s)) with (start_worker (Some (wal_file_path dir key)) (world s)).
  destruct (start_worker_ok (wal_file_path dir key) (world s) ds_faults0) as (wk1 & w' & E & Hp & Hn' & Hd').
  rewrite E. cbn [storage set_storage set_workers set_world]. rewrite Hk. intros [= <- <-].
  assert (∀ key', key ≠ key' → disk w' !! wal_file_path dir key' = disk (world s) !! wal_file_path dir key') as Hother.
  { intros key' Hne. rewrite Hd'. destruct (disk (world s) !! wal_file_path dir key); [done|].
    rewrite lookup_insert_ne; [done|]. intros Heq%wal_file_path_inj. done. }
  assert (is_Some (disk w' !! wal_file_path dir key)) as Hsome.
  { rewrite Hd'. destruct (disk (world s) !! wal_file_path dir key) eqn:Ef; [rewrite Ef; eauto|].
    rewrite lookup_insert_eq. eauto. }
  set (s1 := set_storage (storage s) _).
  assert (∀ key', log_of dir s1 key' = log_of dir s key') as Hl.
  { intros key'. unfold log_of, stream_file, s1. simpl. destruct (decide (key = key')) as [<-|Hne];
      [by rewrite Hk|by rewrite Hother]. }
  split; [|split; [done|split; [exact Hl|simpl; by rewrite lookup_insert_eq]]].
  split; [done|done|exact Hn'|..].
  - intros key'. rewrite Hl. unfold stream_file, s1. simpl. specialize (ds_files0 key').
    unfold stream_file in ds_files0. destruct (decide (key = key')) as [<-|Hne]; [|by rewrite Hother].
    rewrite Hd'. destruct (disk (world s) !! wal_file_path dir key) eqn:Ef; [by rewrite Ef|].
    rewrite lookup_insert_eq. simpl in *. rewrite ds_files0. apply clean_file_empty.
  - intros key'. by rewrite Hl.
  - intros key'. by rewrite Hl.
  - intros key' wk'. unfold s1, stream_file. simpl. destruct (decide (key = key')) as [<-|Hne].
    + rewrite lookup_insert_eq. intros [= <-]. done.
    + rewrite lookup_insert_ne, Hother by done. apply ds_workers0.
Qed.

(** Changing one stream: its records in memory and its file. *)
Lemma durable_state_put dir key s s' entries :
  durable_state dir s → data_dir s' = data_dir s → stream_modes s' = ∅ → no_faults (world s') →
  (∀ key', key ≠ key' → stream_file dir s' key' = stream_file dir s key' ∧
                        storage s' !! key' = storage s !! key') →
  file_holds (stream_file dir s' key) entries → log_of dir s' key = entries →
  sorted_ids entries → Forall good entries →
  (∀ key' wk, workers s' !! key' = Some wk →
     wal_path wk = Some (wal_file_path dir key') ∧ is_Some (stream_file dir s' key')) →
  durable_state dir s' ∧
  ∀ key', log_of dir s' key' = if decide (key = key') then entries else log_of dir s key'.
Proof.
  intros [] Hdir Hmodes Hn Hother Hfile Hlog Hsorted Hgood Hw.
  assert (∀ key', log_of dir s' key' = if decide (key = key') then entries else log_of dir s key') as Hl.
  { intros key'. destruct (decide (key = key')) as [<-|Hne]; [done|].
    unfold log_of. destruct (Hother key' Hne) as [-> ->]. done. }
  split; [|exact Hl]. split; [congruence|done|exact Hn|..|exact Hw].
  - intros key'. rewrite Hl. destruct (decide (key = key')) as [<-|Hne]; [done|].
    by rewrite (proj1 (Hother key' Hne)).
  - intros key'. rewrite Hl. destruct (decide (key = key')); done.
  - intros key'. rewrite Hl. destruct (decide (key = key')); done.
Qed.

(** Files of other streams are other files. *)
Lemma other_file dir key w s s' :
  (∀ path', wal_file_path dir key ≠ path' → disk w !! path' = disk (world s) !! path') →
  world s' = w → ∀ key', key ≠ key' → stream_file dir s' key' = stream_file dir s key'.
Proof. intros Hd <- key' Hne. apply Hd. by intros ?%wal_file_path_inj. Qed.

(** Replacing the records of one stream together with its file. *)
Lemma durable_state_update dir key s wk entries w' :
  durable_state dir s → no_faults w' → wal_path wk = Some (wal_file_path dir key) →
  (∀ path', wal_file_path dir key ≠ path' → disk w' !! path' = disk (world s) !! path') →
  (∃ content, disk w' !! wal_file_path dir key = Some content ∧ clean_file entries content) →
  sorted_ids entries → Forall good entries →
  let s' := set_workers (<[key := wk]> (workers s))
              (set_storage (<[key := entries]> (storage s)) (set_world w' s)) in
  durable_state dir s' ∧
  ∀ key', log_of dir s' key' = if decide (key = key') then entries else log_of dir s key'.
Proof.
  intros Hds Hn Hp Hother (c & Hc & Hclean) Hsorted Hgood s'.
  apply (durable_state_put dir key s s' entries); [done|done|apply Hds|exact Hn| | | |done|done|].
  - intros key' Hne. split; [by eapply other_file|]. simpl. by rewrite lookup_insert_ne.
  - unfold stream_file. simpl. by rewrite Hc.
  - unfold log_of. simpl. by rewrite lookup_insert_eq.
  - intros key' wk'. unfold s'. simpl. destruct (decide (key = key')) as [<-|Hne].
    + rewrite lookup_insert_eq. intros [= <-]. unfold stream_file. simpl. rewrite Hc. eauto.
    + rewrite lookup_insert_ne by done. intros Hk. destruct (ds_workers _ _ Hds _ _ Hk) as [? ?].
      split; [done|]. by rewrite (other_file dir key w' s).
Qed.

(** A command to a loaded stream: acknowledged, it has the effect of its specification on the log
    of that stream; refused, it has none. *)
Lemma send_durable dir key e1 e2 command spec s entries r s' :
  durable_state dir s → storage s !! key = Some entries →
  (∀ wk c w, no_faults w → wal_path wk = Some (wal_file_path dir key) →
     disk w !! wal_file_path dir key = Some c → clean_file entries c →
     (command wk entries w).1.1.1 = r →
     handler_ok (wal_file_path dir key) entries spec w (command wk entries w)) →
  sorted_ids spec → Forall good spec →
  send_command key e1 e2 command s = (r, s') →
  durable_state dir s' ∧
  ∀ key', log_of dir s' key'
          = if decide (key = key') then (if is_ok r then spec else entries) else log_of dir s key'.
Proof.
  intros Hds Hk Hcmd Hsorted Hgood. unfold send_command.
  destruct (get_or_spawn_worker_for_stream_key key s) as [wk s1] eqn:Esp.
  destruct (spawn_durable _ _ _ _ _ _ Hds Hk Esp) as (Hds1 & Hst & Hl & Hw).
  assert (∀ key', log_of dir s1 key' = if decide (key = key') then entries else log_of dir s key') as Hl1.
  { intros key'. rewrite Hl. destruct (decide (key = key')) as [<-|]; [|done]. unfold log_of. by rewrite Hk. }
  pose proof Hds1 as []. destruct (ds_workers0 _ _ Hw) as [Hp [c Hc]].
  assert (log_of dir s1 key = entries) as Hlk by (rewrite Hl1, decide_True; done).
  destruct (status wk).
  - rewrite Hst, Hk. simpl. pose proof (ds_files0 key) as Hfile. rewrite Hc, Hlk in Hfile. simpl in Hfile.
    specialize (Hcmd wk c (world s1) ds_faults0 Hp Hc Hfile).
    destruct (command wk entries (world s1)) as [[[r0 wk'] entries'] w'] eqn:Ec.
    intros [= <- <-]. destruct (Hcmd eq_refl) as (Hn & Hp' & Hother & Hcl & Hent).
    rewrite <- Hst. pose proof (ds_sorted0 key) as Hso. pose proof (ds_good0 key) as Hgo. rewrite Hlk in Hso, Hgo.
    destruct (durable_state_update dir key s1 wk' entries' w' Hds1 Hn Hp' Hother Hcl) as [Hds2 Hl2];
      [by destruct (is_ok r0); subst|by destruct (is_ok r0); subst|].
    split; [exact Hds2|]. intros key'. rewrite Hl2, Hl, <- Hent. done.
  - intros [= <- <-]. split; [|exact Hl1]. apply (durable_state_same dir s1); try done. simpl.
    intros key' wk'. destruct (decide (key = key')) as [<-|Hne];
      [rewrite lookup_insert_eq; intros [= <-]; eauto|rewrite lookup_insert_ne by done; eauto].
  - intros [= <- <-]. split; [done|exact Hl1].
Qed.

(** ** Specification of the operations *)

(** The stream an operation works on. *)
Definition op_target (op : WalOp) : option ustr :=
  match op with
  | OpAppend wal_id _ _ | OpAppendBatch wal_id _ _ | OpCompact wal_id _ _ | OpRealign wal_id
  | OpDelete wal_id | OpClear wal_id => ok (obfuscated_stream_key wal_id)
  | _ => None
  end.

(** What an acknowledged operation does to the records of its stream. *)
Definition op_spec (op : WalOp) (log : list TransactionRecord) : list TransactionRecord :=
  match op with
  | OpAppend _ record _ => merge_record log record
  | OpAppendBatch _ records _ => foldl merge_record log records
  | OpCompact _ actor ts => compact_entries_to_latest_schema_and_metadata log actor ts
  | OpRealign _ => match realign_records log with Ok out => out | Err _ => log end
  | OpDelete _ | OpClear _ => []
  | _ => log
  end.

(** The operations the refinement is about: default payload context, records that can be read
    back, streams in the durable mode they start in.  A compaction that is refused has changed the
    records in memory already, so only acknowledged ones are covered. *)
Definition op_allowed (dir : ustr) (op : WalOp) (s : WalState) : Prop :=
  match op with
  | OpAppend _ record context => context = default_transaction_payload_context ∧ good record
  | OpAppendBatch _ records context => context = default_transaction_payload_context ∧ Forall good records
  | OpCompact wal_id _ _ =>
      is_ok (run_op op s).1 = true ∧
      ∀ key, obfuscated_stream_key wal_id = Ok key → Forall good (op_spec op (log_of dir s key))
  | OpRealign wal_id =>
      ∀ key, obfuscated_stream_key wal_id = Ok key → Forall good (op_spec op (log_of dir s key))
  | OpSetStreamMode _ _ => False
  | _ => True
  end.

(** The refinement of one operation. *)
Definition op_refines (dir : ustr) (op : WalOp) (s : WalState) : Prop :=
  let '(r, s') := run_op op s in
  durable_state dir s' ∧
  ∀ key, log_of dir s' key
         = if decide (op_target op = Some key ∧ is_ok r = true) then op_spec op (log_of dir s key)
           else log_of dir s key.

Lemma sorted_positions records : positions_aligned records = true → sorted_ids records.
Proof.
  unfold positions_aligned, sorted_ids. rewrite forallb_forall. intros Hall.
  assert (∀ i r, records !! i = Some r → id r = Z.of_nat i) as Hid.
  { intros i r Hi. apply Z.eqb_eq. apply (Hall (i, r)), list_elem_of_In, list_elem_of_lookup.
    exists i. rewrite lookup_zip_with, Hi, lookup_seq_lt by (by eapply lookup_lt_Some). done. }
  clear Hall. assert (∃ n, ∀ i r, records !! i = Some r → id r = Z.of_nat (n + i)) as [n Hn] by (by exists 0%nat).
  clear Hid. revert n Hn. induction records as [|r rs IH]; intros n Hn; constructor.
  - apply (IH (S n)). intros i x Hx. rewrite (Hn (S i) x Hx). f_equal. lia.
  - apply Forall_lookup. intros i x Hx. rewrite (Hn (S i) x Hx), (Hn O r eq_refl). lia.
Qed.

Lemma realign_aligned entries out : realign_records entries = Ok out → positions_aligned out = true.
Proof.
  unfold realign_records. destruct (_ && _); [discriminate|]. intros [= <-]. by apply positions_imap.
Qed.

(** ** Every operation refines its specification *)

Lemma durable_high_water dir m s : durable_state dir s → durable_state dir (set_high_water m s).
Proof. intros Hds. apply (durable_state_same dir s); try done; [apply Hds|eauto]. Qed.

Lemma durable_raise dir key ts s : durable_state dir s → durable_state dir (raise_high_water key ts s).
Proof. destruct ts; [apply durable_high_water|done]. Qed.

Lemma log_raise dir key ts s key' : log_of dir (raise_high_water key ts s) key' = log_of dir s key'.
Proof. by destruct ts. Qed.

(** An operation that changes no log. *)
Lemma refines_same dir op s r s' :
  run_op op s = (r, s') → durable_state dir s' → (∀ key, log_of dir s' key = log_of dir s key) →
  (∀ key, op_target op = Some key → is_ok r = true → op_spec op (log_of dir s key) = log_of dir s key) →
  op_refines dir op s.
Proof.
  intros E Hds Hl Hspec. unfold op_refines. rewrite E. split; [done|]. intros key. rewrite Hl.
  destruct (decide _) as [[Ht Hok]|]; [|done]. by rewrite Hspec.
Qed.

Lemma refines_update dir op s r s' key spec :
  run_op op s = (r, s') → durable_state dir s' → op_target op = Some key →
  spec = op_spec op (log_of dir s key) →
  (∀ key', log_of dir s' key' = if decide (key = key') then (if is_ok r then spec else log_of dir s key)
                                else log_of dir s key') →
  op_refines dir op s.
Proof.
  intros E Hds Ht -> Hl. unfold op_refines. rewrite E, Ht. split; [done|]. intros key'. rewrite Hl.
  destruct (decide (key = key')) as [<-|Hne].
  - destruct (is_ok r); [by rewrite decide_True|]. rewrite decide_False; naive_solver.
  - rewrite decide_False; [done|]. naive_solver.
Qed.

(** Appends and batches: hydrate, command, high-water mark. *)
Lemma append_refines dir wal_id record s :
  durable_state dir s → good record →
  op_refines dir (OpAppend wal_id record default_transaction_payload_context) s.
Proof.
  intros Hds Hr. destruct (obfuscated_stream_key wal_id) as [key|e] eqn:Ek.
  2:{ eapply refines_same; [simpl; unfold append_with_context; by rewrite Ek|done|done|].
      simpl. by rewrite Ek. }
  destruct (hydrate_durable dir wal_id key s Hds) as (Hds1 & Hl1 & Hst1).
  set (s1 := hydrate_stream_if_needed wal_id key s) in *.
  destruct (send_command key "failed to send WAL append command"
    "failed to receive WAL append acknowledgement"
    (λ wk entries, worker_append wk entries record default_transaction_payload_context) s1) as [r s2] eqn:Es.
  destruct (λ A B C, send_durable dir key _ _ _ (merge_record (log_of dir s key) record) s1 _ r s2
              Hds1 Hst1 A B C Es) as [Hds2 Hl2].
  - intros wk c w Hn Hp Hd Hc _. eapply worker_append_ok; eauto. apply Hds.
  - apply merge_record_sorted, Hds.
  - apply merge_record_good; [done|apply Hds].
  - eapply (refines_update dir _ s r
              (if is_ok r then raise_high_water key (write_timestamp_if_data_write record) s2 else s2) key);
      [| |simpl; by rewrite Ek|reflexivity|].
    + simpl. unfold append_with_context. rewrite Ek. fold s1. rewrite Es. by destruct r as [[]|].
    + destruct r; [by apply durable_raise|done].
    + intros key'. transitivity (log_of dir s2 key'); [destruct r; [apply log_raise|done]|].
      rewrite Hl2. destruct (decide (key = key')); [done|]. apply Hl1.
Qed.

Lemma append_batch_refines dir wal_id records s :
  durable_state dir s → Forall good records →
  op_refines dir (OpAppendBatch wal_id records default_transaction_payload_context) s.
Proof.
  intros Hds Hr. destruct (is_empty records) eqn:Ee.
  { destruct records; [|discriminate]. by eapply refines_same; [reflexivity|..]. }
  destruct (obfuscated_stream_key wal_id) as [key|e] eqn:Ek.
  2:{ eapply refines_same; [simpl; unfold append_batch_with_context; by rewrite Ee, Ek|done|done|].
      simpl. by rewrite Ek. }
  destruct (hydrate_durable dir wal_id key s Hds) as (Hds1 & Hl1 & Hst1).
  set (s1 := hydrate_stream_if_needed wal_id key s) in *.
  destruct (send_command key "failed to send WAL append-batch command"
    "failed to receive WAL append-batch acknowledgement"
    (λ wk entries, worker_append_batch wk entries records default_transaction_payload_context) s1) as [r s2] eqn:Es.
  destruct (λ A B C, send_durable dir key _ _ _ (foldl merge_record (log_of dir s key) records) s1 _ r s2
              Hds1 Hst1 A B C Es) as [Hds2 Hl2].
  - intros wk c w Hn Hp Hd Hc _. eapply worker_append_batch_ok; eauto. apply Hds.
  - apply foldl_merge_sorted, Hds.
  - apply foldl_merge_good; [done|apply Hds].
  - eapply (refines_update dir _ s r
              (if is_ok r then raise_high_water key (latest_write_timestamp records) s2 else s2) key);
      [| |simpl; by rewrite Ek|reflexivity|].
    + simpl. unfold append_batch_with_context. rewrite Ee, Ek. fold s1. rewrite Es. by destruct r as [[]|].
    + destruct r; [by apply durable_raise|done].
    + intros key'. transitivity (log_of dir s2 key'); [destruct r; [apply log_raise|done]|].
      rewrite Hl2. destruct (decide (key = key')); [done|]. apply Hl1.
Qed.

Lemma compact_refines dir wal_id actor ts s :
  durable_state dir s → op_allowed dir (OpCompact wal_id actor ts) s →
  op_refines dir (OpCompact wal_id actor ts) s.
Proof.
  intros Hds [Hack Hg]. destruct (obfuscated_stream_key wal_id) as [key|e] eqn:Ek.
  2:{ eapply refines_same; [simpl; unfold compact_stream_to_latest_schema_and_metadata; by rewrite Ek|done|done|].
      simpl. by rewrite Ek. }
  specialize (Hg key eq_refl). simpl in Hack, Hg.
  unfold compact_stream_to_latest_schema_and_metadata in Hack. rewrite Ek in Hack.
  destruct (hydrate_durable dir wal_id key s Hds) as (Hds1 & Hl1 & Hst1).
  set (s1 := hydrate_stream_if_needed wal_id key s) in *.
  destruct (send_command _ _ _ _ s1) as [r s2] eqn:Es. destruct r as [u|e]; [|discriminate].
  destruct (λ A B C, send_durable dir key _ _ _
              (compact_entries_to_latest_schema_and_metadata (log_of dir s key) actor ts) s1 _ (Ok u) s2
              Hds1 Hst1 A B C Es) as [Hds2 Hl2].
  - intros wk c w Hn Hp Hd Hc Hok. eapply worker_compact_ok; eauto. by rewrite Hok.
  - apply sorted_positions, positions_imap. done.
  - exact Hg.
  - eapply (refines_update dir _ s (Ok tt)
              (match storage s2 !! key with
               | Some entries => put_high_water key (latest_write_timestamp entries) s2
               | None => s2 end) key); [| |simpl; by rewrite Ek|reflexivity|].
    + simpl. unfold compact_stream_to_latest_schema_and_metadata. rewrite Ek. fold s1. by rewrite Es.
    + destruct (storage s2 !! key); [by apply durable_high_water|done].
    + intros key'. transitivity (log_of dir s2 key'); [by destruct (storage s2 !! key)|].
      rewrite Hl2. destruct (decide (key = key')); [done|]. apply Hl1.
Qed.

Lemma realign_refines dir wal_id s :
  durable_state dir s → op_allowed dir (OpRealign wal_id) s → op_refines dir (OpRealign wal_id) s.
Proof.
  intros Hds Hg. destruct (obfuscated_stream_key wal_id) as [key|e] eqn:Ek.
  2:{ eapply refines_same; [simpl; unfold realign_stream_records; by rewrite Ek|done|done|].
      simpl. by rewrite Ek. }
  specialize (Hg key Ek). simpl in Hg.
  destruct (hydrate_durable dir wal_id key s Hds) as (Hds1 & Hl1 & Hst1).
  destruct (realign_records (log_of dir s key)) as [out|e] eqn:Er.
  2:{ eapply refines_same; [simpl; unfold realign_stream_records; by rewrite Ek, Hst1, Er|done|done|done]. }
  set (s1 := hydrate_stream_if_needed wal_id key s) in *. pose proof Hds1 as [].
  destruct (rewrite_wal_file_with_context (wal_file_path dir key) out default_transaction_payload_context (world s1))
    as [r w'] eqn:Ew. pose proof (rewrite_ok _ _ _ _ _ _ ds_faults0 Ew) as [Hn' Hr].
  destruct r as [u|e].
  - destruct Hr as (rng & bs & Hb & Hd).
    assert (∀ path', wal_file_path dir key ≠ path' → disk w' !! path' = disk (world s1) !! path') as Hother
      by (intros; rewrite Hd; by apply lookup_insert_ne).
    set (s2 := set_storage (<[key := out]> (storage s1)) (set_world w' s1)).
    destruct (durable_state_put dir key s1 s2 out) as [Hds2 Hl2]; try done.
    + intros key' Hne. split; [by eapply other_file|]. simpl. by rewrite lookup_insert_ne.
    + unfold stream_file. simpl. rewrite Hd, lookup_insert_eq. simpl. by eapply rewritten_good.
    + unfold log_of. simpl. by rewrite lookup_insert_eq.
    + apply sorted_positions. by eapply realign_aligned.
    + intros key' wk Hk. destruct (ds_workers0 key' wk Hk) as [Hp Hs]. split; [done|].
      destruct (decide (key = key')) as [<-|Hne]; [|by rewrite (other_file dir key w' s1)].
      unfold stream_file. simpl. rewrite Hd, lookup_insert_eq. eauto.
    + eapply (refines_update dir _ s (Ok tt) s2 key out); [|done|simpl; by rewrite Ek|simpl; by rewrite Er|].
      * simpl. unfold realign_stream_records. rewrite Ek. fold s1. rewrite Hst1, Er, ds_dir0, Ew.
        by rewrite (realign_aligned _ _ Er).
      * intros key'. rewrite Hl2, Hl1. done.
  - eapply (refines_same dir _ s (Err e) (set_world w' s1)); [| | |done].
    + simpl. unfold realign_stream_records. rewrite Ek. fold s1. by rewrite Hst1, Er, ds_dir0, Ew.
    + apply (durable_state_same dir s1); try done; [|intros key'; unfold log_of|eauto];
        intros; unfold stream_file; simpl; by rewrite Hr.
    + intros key'. rewrite <- Hl1. unfold log_of, stream_file. simpl. by rewrite Hr.
Qed.

(** Dropping caches, as invalidation and a restart do: the files have everything. *)
Lemma drop_caches_durable dir s s' :
  durable_state dir s → data_dir s' = data_dir s → stream_modes s' = ∅ → world s' = world s →
  (∀ key entries, storage s' !! key = Some entries → storage s !! key = Some entries) →
  (∀ key wk, workers s' !! key = Some wk → workers s !! key = Some wk) →
  durable_state dir s' ∧ ∀ key, log_of dir s' key = log_of dir s key.
Proof.
  intros Hds Hdir Hmodes Hw Hsub Hwk.
  assert (∀ key, stream_file dir s' key = stream_file dir s key) as Hf
    by (intros; unfold stream_file; by rewrite Hw).
  assert (∀ key, log_of dir s' key = log_of dir s key) as Hl.
  { intros key. unfold log_of at 1. destruct (storage s' !! key) as [entries|] eqn:Es.
    - apply Hsub in Es. unfold log_of. by rewrite Es.
    - rewrite Hf. apply load_file_holds, Hds. }
  split; [|exact Hl]. apply (durable_state_same dir s); try done.
  - rewrite Hmodes. symmetry. apply Hds.
  - rewrite Hw. apply Hds.
  - eauto.
Qed.

(** Erasing a stream: no worker, no cache, and a file that is gone or has only its header. *)
Lemma erase_durable dir key s s' :
  durable_state dir s → data_dir s' = data_dir s → stream_modes s' = ∅ → no_faults (world s') →
  storage s' = delete key (storage s) → workers s' = delete key (workers s) →
  (∀ path', wal_file_path dir key ≠ path' → disk (world s') !! path' = disk (world s) !! path') →
  file_holds (stream_file dir s' key) [] →
  durable_state dir s' ∧
  ∀ key', log_of dir s' key' = if decide (key = key') then [] else log_of dir s key'.
Proof.
  intros Hds Hdir Hmodes Hn Hst Hw Hother Hfile.
  apply (durable_state_put dir key s s' []); try done.
  - intros key' Hne. split; [by eapply other_file|]. by rewrite Hst, lookup_delete_ne.
  - unfold log_of. rewrite Hst, lookup_delete_eq. by apply load_file_holds.
  - constructor.
  - intros key' wk. rewrite Hw. intros [Hne Hk]%lookup_delete_Some.
    destruct (ds_workers _ _ Hds _ _ Hk) as [? ?]. split; [done|].
    by rewrite (other_file dir key (world s') s).
Qed.

Lemma erase_refines dir op s r s' key :
  run_op op s = (r, s') → op_target op = Some key → is_ok r = true → (∀ log, op_spec op log = []) →
  durable_state dir s → data_dir s' = data_dir s → stream_modes s' = ∅ → no_faults (world s') →
  storage s' = delete key (storage s) → workers s' = delete key (workers s) →
  (∀ path', wal_file_path dir key ≠ path' → disk (world s') !! path' = disk (world s) !! path') →
  file_holds (stream_file dir s' key) [] →
  op_refines dir op s.
Proof.
  intros E Ht Hok Hspec Hds Hdir Hmodes Hn Hst Hw Hother Hfile.
  destruct (erase_durable dir key s s') as [Hds2 Hl2]; try done.
  eapply refines_update; [exact E|done|exact Ht|reflexivity|]. intros key'. by rewrite Hl2, Hok, Hspec.
Qed.

Lemma delete_refines dir wal_id s : durable_state dir s → op_refines dir (OpDelete wal_id) s.
Proof.
  intros Hds. destruct (obfuscated_stream_key wal_id) as [key|e] eqn:Ek.
  2:{ eapply refines_same; [simpl; unfold delete_stream; by rewrite Ek|done|done|]. simpl. by rewrite Ek. }
  eapply (erase_refines dir _ s (Ok tt) _ key); [|simpl; by rewrite Ek|done|done|exact Hds|..].
  { simpl. unfold delete_stream. rewrite Ek. simpl. rewrite (ds_dir _ _ Hds), (ds_faults _ _ Hds). reflexivity. }
  - done.
  - simpl. rewrite (ds_modes _ _ Hds). apply delete_empty.
  - intros n. apply (ds_faults _ _ Hds).
  - done.
  - done.
  - intros path' Hne. simpl. by rewrite lookup_delete_ne.
  - unfold stream_file. simpl. by rewrite lookup_delete_eq.
Qed.

Lemma clear_refines dir wal_id s : durable_state dir s → op_refines dir (OpClear wal_id) s.
Proof.
  intros Hds. destruct (obfuscated_stream_key wal_id) as [key|e] eqn:Ek.
  2:{ eapply refines_same; [simpl; unfold clear_stream_records; by rewrite Ek|done|done|]. simpl. by rewrite Ek. }
  destruct (write_bytes_ok (wal_file_path dir key) (make_header DataFile) (world s)) as (w' & E & Hn' & Hd');
    [apply Hds|].
  eapply (erase_refines dir _ s (Ok tt) _ key); [|simpl; by rewrite Ek|done|done|exact Hds|..].
  { cbn [run_op]. unfold clear_stream_records. rewrite Ek, (ds_modes _ _ Hds), lookup_empty.
    cbn [data_dir world set_high_water set_storage set_workers]. rewrite (ds_dir _ _ Hds).
    change (default Durable None) with Durable. cbv iota beta. rewrite E. reflexivity. }
  - simpl. done.
  - simpl. apply Hds.
  - exact Hn'.
  - done.
  - done.
  - intros path' Hne. simpl. rewrite Hd'. by apply lookup_insert_ne.
  - unfold stream_file. simpl. rewrite Hd', lookup_insert_eq. apply clean_file_empty.
Qed.

Lemma scan_durable dir wal_id s :
  durable_state dir s →
  durable_state dir (scan_durable_records_if_unloaded wal_id s).2 ∧
  ∀ key, log_of dir (scan_durable_records_if_unloaded wal_id s).2 key = log_of dir s key.
Proof.
  intros Hds.
  assert (∀ w', no_faults w' → disk w' = disk (world s) →
    durable_state dir (set_world w' s) ∧ ∀ key, log_of dir (set_world w' s) key = log_of dir s key) as Hw.
  { intros w' Hn Hd. assert (∀ key, log_of dir (set_world w' s) key = log_of dir s key) as Hl
      by (intros; unfold log_of, stream_file; simpl; by rewrite Hd).
    split; [|exact Hl]. apply (durable_state_same dir s); try done;
      [intros; unfold stream_file; simpl; by rewrite Hd|eauto]. }
  unfold scan_durable_records_if_unloaded. destruct (obfuscated_stream_key wal_id) as [key|]; [|done].
  destruct (negb _); [done|]. destruct (bool_decide _); [done|].
  destruct (data_dir s) as [dir'|]; [|done]. destruct (disk (world s) !! wal_file_path dir' key); [|done].
  destruct (plain_call_ok (world s)) as (w1 & E1 & Hn1 & Hd1); [apply Hds|]. rewrite E1. simpl.
  destruct (read_file_ok (wal_file_path dir' key) w1 Hn1) as (w2 & E2 & Hn2 & Hd2). rewrite E2.
  rewrite Hd1 in Hd2. specialize (Hw w2 Hn2 Hd2).
  destruct (read_exact _ _) as [[header reader]|]; [|done]. destruct (verify_header _ _); done.
Qed.

(** Operations that serve reads, or stop and restart threads and processes. *)
Lemma quiet_refines dir op s :
  durable_state dir s → op_target op = None → (∀ wal_id mode, op ≠ OpSetStreamMode wal_id mode) →
  durable_state dir (run_op op s).2 ∧ (∀ key, log_of dir (run_op op s).2 key = log_of dir s key) →
  op_refines dir op s.
Proof.
  intros _ Ht _ [Hds Hl]. destruct (run_op op s) as [r s'] eqn:E.
  eapply refines_same; [exact E|done|done|]. by rewrite Ht.
Qed.

Lemma workers_refine dir s f :
  durable_state dir s → (∀ wk, wal_path (f wk) = wal_path wk) →
  durable_state dir (set_workers (f <$> workers s) s).
Proof.
  intros Hds Hf. apply (durable_state_same dir s); try done; [apply Hds|]. simpl.
  intros key wk. rewrite lookup_fmap. intros (wk0 & Hk & ->)%fmap_Some. exists wk0. split; [done|apply Hf].
Qed.

Lemma worker_stops_durable dir key s : durable_state dir s → durable_state dir (worker_stops key s).
Proof.
  intros Hds. unfold worker_stops. destruct (workers s !! key) as [wk|] eqn:Ek; [|done].
  destruct (status wk); try done. apply (durable_state_same dir s); try done; [apply Hds|]. simpl.
  intros key' wk'. destruct (decide (key = key')) as [<-|Hne];
    [rewrite lookup_insert_eq; intros [= <-]; eauto|rewrite lookup_insert_ne by done; eauto].
Qed.

Lemma log_worker_stops dir key s key' : log_of dir (worker_stops key s) key' = log_of dir s key'.
Proof. unfold worker_stops. repeat case_match; done. Qed.

Lemma all_op_refines dir op s : durable_state dir s → op_allowed dir op s → op_refines dir op s.
Proof.
  intros Hds Ha. destruct op.
  - destruct Ha as [-> Ha]. by apply append_refines.
  - destruct Ha as [-> Ha]. by apply append_batch_refines.
  - by apply compact_refines.
  - by apply realign_refines.
  - apply quiet_refines; try done. simpl. unfold invalidate_stream_cache.
    destruct (obfuscated_stream_key wal_id) as [key|]; [|done].
    apply drop_caches_durable; try done; [apply Hds|]. simpl. by intros k es [_ ?]%lookup_delete_Some.
  - apply quiet_refines; try done. simpl. unfold all_records, with_records.
    destruct (obfuscated_stream_key wal_id) as [key|]; [|done].
    destruct (hydrate_durable dir wal_id key s Hds) as (Hds1 & Hl1 & _). split; [exact Hds1|exact Hl1].
  - apply quiet_refines; try done. simpl. unfold has_write_after.
    destruct (obfuscated_stream_key wal_id) as [key|]; [|done].
    destruct (hydrate_durable dir wal_id key s Hds) as (Hds1 & Hl1 & Hst1).
    destruct (write_high_water_by_stream _ !! key); [done|]. rewrite Hst1. simpl.
    split; [by apply durable_high_water|exact Hl1].
  - apply quiet_refines; try done. by apply scan_durable.
  - done.
  - apply quiet_refines; try done. split; [|done]. apply workers_refine; [done|]. by intros [? ? []].
  - apply quiet_refines; try done. split; [by apply worker_stops_durable|apply log_worker_stops].
  - by apply delete_refines.
  - by apply clear_refines.
  - apply quiet_refines; try done. by apply drop_caches_durable.
Qed.

(** ** Traces *)

Fixpoint allowed_trace (dir : ustr) (ops : list WalOp) (s : WalState) : Prop :=
  match ops with
  | [] => True
  | op :: rest => op_allowed dir op s ∧ allowed_trace dir rest (run_op op s).2
  end.

(** The logs the specification gives, from the acknowledgements of the run. *)
Fixpoint spec_logs (ops : list WalOp) (s : WalState) (logs : ustr → list TransactionRecord)
    : ustr → list TransactionRecord :=
  match ops with
  | [] => logs
  | op :: rest =>
      let '(r, s') := run_op op s in
      spec_logs rest s'
        (λ key, if decide (op_target op = Some key ∧ is_ok r = true) then op_spec op (logs key)
                else logs key)
  end.

Lemma spec_logs_ext ops s logs logs' :
  (∀ key, logs key = logs' key) → ∀ key, spec_logs ops s logs key = spec_logs ops s logs' key.
Proof.
  revert s logs logs'. induction ops as [|op ops IH]; intros s logs logs' Heq key; simpl; [done|].
  destruct (run_op op s) as [r s']. apply IH. intros k. rewrite Heq. done.
Qed.

Lemma run_ops_refine dir ops s :
  durable_state dir s → allowed_trace dir ops s →
  durable_state dir (run_ops ops s) ∧
  ∀ key, log_of dir (run_ops ops s) key = spec_logs ops s (log_of dir s) key.
Proof.
  revert s. induction ops as [|op ops IH]; intros s Hds Ha; [done|]. destruct Ha as [Hop Ha].
  pose proof (all_op_refines dir op s Hds Hop) as Href. unfold op_refines in Href.
  change (run_ops (op :: ops) s) with (run_ops ops (run_op op s).2). simpl.
  destruct (run_op op s) as [r s']. destruct Href as [Hds' Hl'].
  destruct (IH s' Hds' Ha) as [Hds2 Hl2]. split; [done|]. intros key. rewrite Hl2. by apply spec_logs_ext.
Qed.

(** A manager on an empty data directory. *)
Lemma durable_initial dir w :
  no_faults w → disk w = ∅ → durable_state dir (new_manager (Some dir) w).
Proof.
  intros Hn Hd. assert (∀ key, stream_file dir (new_manager (Some dir) w) key = None) as Hf
    by (intros; unfold stream_file; simpl; by rewrite Hd, lookup_empty).
  assert (∀ key, log_of dir (new_manager (Some dir) w) key = []) as Hl
    by (intros; unfold log_of; simpl; by rewrite Hf).
  split; try done; intros key; rewrite ?Hf, ?Hl; try constructor.
Qed.

Lemma read_log dir wal_id key s :
  durable_state dir s → obfuscated_stream_key wal_id = Ok key → (all_records wal_id s).1 = log_of dir s key.
Proof.
  intros Hds Hk. unfold all_records, with_records. rewrite Hk. simpl.
  destruct (hydrate_durable dir wal_id key s Hds) as (_ & _ & Hst). by rewrite Hst.
Qed.

(** C1: durability.  On a data directory that starts empty, while no system call fails, the
    manager behaves as one list of records per stream: reading a stream gives exactly what the
    acknowledged operations, in their order, make of it (refused ones count for nothing, whatever
    workers were stopped and caches dropped in between), and a new process on the same disk reads
    the same records. *)
Theorem wal_durable dir w ops wal_id key :
  no_faults w → disk w = ∅ →
  allowed_trace dir ops (new_manager (Some dir) w) →
  obfuscated_stream_key wal_id = Ok key →
  let s := run_ops ops (new_manager (Some dir) w) in
  let expected := spec_logs ops (new_manager (Some dir) w) (λ _, []) key in
  (all_records wal_id s).1 = expected ∧
  (all_records wal_id (new_manager (Some dir) (world s))).1 = expected.
Proof.
  intros Hn Hd Ha Hk s expected. pose proof (durable_initial dir w Hn Hd) as Hds0.
  destruct (run_ops_refine dir ops _ Hds0 Ha) as [Hds Hl].
  assert (log_of dir s key = expected) as Hlk.
  { unfold s, expected. rewrite Hl. apply spec_logs_ext. intros k. unfold log_of, stream_file. simpl.
    by rewrite Hd, lookup_empty. }
  split; [by rewrite (read_log dir _ key)|].
  destruct (drop_caches_durable dir s (new_manager (Some dir) (world s))) as [Hds' Hl']; try done.
  - symmetry. apply Hds.
  - by rewrite (read_log dir _ key), Hl'.
Qed.
End durability.
