(* ===== verification/Instances.v ===== *)
(** * Concrete instances of the parameters

    The development is parametric in the serializer, the compressor, the cipher and the digest.
    This file instantiates them with simple functions that satisfy their documented contracts, so
    that theorems about the program can be applied to concrete inputs. *)

From Stdlib Require Import ZArith Lia Strings.Byte Sorting.Sorted.
From stdpp Require Import base list gmap strings countable.
From S2P Require Import Prelude Settings Record RowPayload WalFile Wal WalManager.

(** ** A self-delimiting serializer of any countable type *)

Fixpoint positive_bytes (p : positive) : bytes :=
  match p with
  | xH => [x02]
  | xO p => x00 :: positive_bytes p
  | xI p => x01 :: positive_bytes p
  end.

Fixpoint bytes_positive (bs : bytes) : option positive :=
  match bs with
  | x02 :: _ => Some xH
  | x00 :: bs => xO <$> bytes_positive bs
  | x01 :: bs => xI <$> bytes_positive bs
  | _ => None
  end.

Lemma bytes_positive_bytes p rest : bytes_positive (positive_bytes p ++ rest) = Some p.
Proof. induction p as [p IH|p IH|]; simpl; try rewrite IH; reflexivity. Qed.

Definition countable_bincode {A} `{Countable A} (norm : A → A) : Bincode A := {|
  serialize x := Some (positive_bytes (encode (norm x)));
  deserialize bs := p ← bytes_positive bs; decode p;
  decode_budget x := 0
|}.

Lemma countable_bincode_laws {A} `{Countable A} (norm : A → A) :
  (∀ x, norm (norm x) = norm x) →
  @BincodeLaws A (countable_bincode norm) norm.
Proof.
  intros Hidem. split.
  - intros x b rest [= <-] _. simpl. rewrite bytes_positive_bytes. simpl. apply decode_encode.
  - intros x. simpl. rewrite Hidem. reflexivity.
Qed.

(** ** Countability of the serialized types *)

Definition kind_tag (k : TransactionKind) : nat :=
  match k with
  | Ignore => 0 | WriteBegin => 1 | WriteCommit => 2 | WriteAbort => 3 | Insert => 4
  | Update => 5 | Delete => 6 | Truncate => 7 | TableLifecycle => 8 | IndexLifecycle => 9
  | SchemaChange => 10 | MetadataChange => 11 | SqlDefinitionChange => 12 | SecurityChange => 13
  end.

Definition tag_kind (n : nat) : option TransactionKind :=
  [Ignore; WriteBegin; WriteCommit; WriteAbort; Insert; Update; Delete; Truncate; TableLifecycle;
   IndexLifecycle; SchemaChange; MetadataChange; SqlDefinitionChange; SecurityChange] !! n.

Lemma tag_kind_tag k : tag_kind (kind_tag k) = Some k.
Proof. destruct k; reflexivity. Qed.

#[global] Instance kind_countable : Countable TransactionKind :=
  inj_countable kind_tag tag_kind tag_kind_tag.

#[global] Program Instance context_countable : Countable TransactionPayloadContext :=
  inj_countable'
    (λ c, (stream_id c, database_id c, table_id c, encryption_key_ref c, encryption_key_version c))
    (λ '(a, b, c, d, e), mkContext a b c d e) _.
Next Obligation. intros []; reflexivity. Qed.

#[global] Program Instance shadow_countable : Countable TransactionPayloadShadow :=
  inj_countable' (λ s, (shadow_payload s, resolved_context s, is_resolved s))
    (λ '(a, b, c), mkShadow a b c) _.
Next Obligation. intros []; reflexivity. Qed.

#[global] Program Instance record_countable : Countable TransactionRecord :=
  inj_countable'
    (λ r, (id r, groupid r, refid r, timestamp_epoch_ms r, actor r, kind r, payload r, payload_shadow r))
    (λ '(a, b, c, d, e, f, g, h), mkRecord a b c d e f g h) _.
Next Obligation. intros []; reflexivity. Qed.

#[global] Instance envelope_eq_dec : EqDecision EncryptedRowPayloadEnvelope.
Proof. solve_decision. Defined.

#[global] Program Instance envelope_countable : Countable EncryptedRowPayloadEnvelope :=
  inj_countable' (λ e, (key_version e, nonce e, auth_tag e, ciphertext e))
    (λ '(a, b, c, d), mkEnvelope a b c d) _.
Next Obligation. intros []; reflexivity. Qed.

(** ** The serializers *)

Definition frame_bincode : Bincode (ustr * TransactionRecord) := countable_bincode strip_frame.
Definition record_bincode : Bincode TransactionRecord := countable_bincode strip_shadow.

Lemma frame_bincode_laws : @BincodeLaws _ frame_bincode strip_frame.
Proof. apply countable_bincode_laws. intros [s []]. reflexivity. Qed.

Lemma record_bincode_laws : @BincodeLaws _ record_bincode strip_shadow.
Proof. apply countable_bincode_laws. intros []. reflexivity. Qed.

(** Envelopes are written behind a marker, so that no other payload is taken for one. *)
Definition envelope_bincode : Bincode EncryptedRowPayloadEnvelope := {|
  serialize e := Some (xee :: positive_bytes (encode e));
  deserialize bs :=
    match bs with xee :: bs => p ← bytes_positive bs; decode p | _ => None end;
  decode_budget e := 0
|}.

Lemma envelope_bincode_laws : @BincodeLaws _ envelope_bincode (λ e, e).
Proof.
  split; [|reflexivity]. intros x b rest [= <-] _. simpl. rewrite bytes_positive_bytes. simpl.
  apply decode_encode.
Qed.

(** No legacy envelopes. *)
Definition legacy_bincode : Bincode LegacyEncryptedRowPayloadEnvelope := {|
  serialize _ := None; deserialize _ := None; decode_budget _ := 0 |}.

(** ** Cipher *)

(** A cipher that leaves the text and authenticates with a zero tag. *)
Definition plain_crypto : RowCrypto := {|
  sha256 bs := bs;
  aes_256_gcm_encrypt _ _ _ p := Some (p, replicate 16 x00);
  aes_256_gcm_decrypt _ _ _ _ c := Some c
|}.

Lemma plain_crypto_laws : @RowCryptoLaws plain_crypto.
Proof. split; intros ??????; intros [= <- <-]; [reflexivity|split; reflexivity]. Qed.

(** ** Compressor *)

(** A compressor that writes a zlib header and the text. *)
Definition plain_zlib : Zlib := {|
  zlib_compress p := Ok (x78 :: x9c :: p);
  zlib_decompress c := Some (drop 2 c)
|}.

Lemma plain_zlib_laws : @ZlibLaws plain_zlib.
Proof. split; intros p c; intros [= <-]; reflexivity. Qed.

(** ** Search, environment and digest *)

(** The first match, or the first position with a greater key. *)
Definition first_match : BinarySearch := {|
  binary_search keys key :=
    match list_find (λ k, k = key) keys with
    | Some (i, _) => Ok i
    | None => Err (partition_point (λ k, k <? key) keys)
    end
|}.

Lemma first_match_laws : @BinarySearchLaws first_match.
Proof.
  split; intros keys key i Hs; simpl.
  - destruct (list_find _ keys) as [[j k]|] eqn:E; [|discriminate]. intros [= <-].
    apply list_find_Some in E as (Hk & -> & _). exact Hk.
  - destruct (list_find _ keys) as [[j k]|] eqn:E; [discriminate|]. intros [= <-].
    apply list_find_None in E. split; [apply partition_point_le|]. split.
    + pose proof (partition_point_take (λ k, k <? key) keys) as Ht.
      rewrite Forall_forall in Ht |- *. intros k Hk. by apply Z.ltb_lt, Ht.
    + apply Sorted_StronglySorted in Hs; [|intros a b c; lia].
      induction Hs as [|k ks Hs IH Hall]; simpl; [constructor|].
      inversion E as [|? ? Hk E']; subst. destruct (Z.ltb_spec k key); simpl; [by apply IH|].
      constructor; [lia|]. rewrite Forall_forall in Hall |- *. intros x Hx. specialize (Hall x Hx). lia.
Qed.

(** No setting is set. *)
Definition empty_env : Env := {| env_var _ := None |}.

(** A digest that is its own text. *)
Definition plain_digest : Digest := {| md5_hex bs := u8_Z <$> bs |}.
