(* ===== verification/WalFaults.v ===== *)
(** * The WAL under I/O faults

    What a worker does when system calls fail: an ordered append never damages the records before
    it, while rewriting in place and retrying a partial write can lose acknowledged records. *)

From Stdlib Require Import ZArith Lia Strings.Byte.
From stdpp Require Import base list gmap strings.
From S2P Require Import Prelude Settings Record RowPayload WalFile Wal WalManager WalManagerFacts Instances.

Section faults.
Context `{RowCrypto} `{Zlib} `{Env} `{BinarySearch}.
Context `{Bincode EncryptedRowPayloadEnvelope} `{Bincode LegacyEncryptedRowPayloadEnvelope}.
Context `{Bincode TransactionRecord}.

(** The file after a call: what was there, then some more bytes. *)
Definition extends (path : ustr) (w w' : World) : Prop :=
  ∀ c, disk w !! path = Some c → ∃ more, disk w' !! path = Some (c ++ more).

Lemma extends_refl path w : extends path w w.
Proof. intros c Hc. exists []. by rewrite app_nil_r. Qed.

Lemma extends_trans path w1 w2 w3 : extends path w1 w2 → extends path w2 w3 → extends path w1 w3.
Proof.
  intros H12 H23 c Hc. destruct (H12 c Hc) as (m1 & Hm1). destruct (H23 _ Hm1) as (m2 & Hm2).
  exists (m1 ++ m2). by rewrite app_assoc.
Qed.

Lemma extends_same path w w' : disk w' = disk w → extends path w w'.
Proof. intros Hd c Hc. exists []. by rewrite Hd, app_nil_r. Qed.

Lemma write_all_extends path bs w b w' : write_all path bs w = (b, w') → extends path w w'.
Proof.
  unfold write_all. simpl. destruct (faults w 0) as [|n]; intros [= <- <-] c Hc; simpl;
    rewrite lookup_alter_eq, Hc; simpl; eauto.
Qed.

Lemma open_extends path w b w' : open_wal_append_file path w = (b, w') → extends path w w'.
Proof.
  unfold open_wal_append_file. simpl. destruct (faults w 0); intros [= <- <-]; [|by apply extends_same].
  intros c Hc. simpl. rewrite Hc. exists []. by rewrite app_nil_r.
Qed.

Lemma maybe_sync_extends path m w r w' : maybe_sync m w = (r, w') → extends path w w'.
Proof.
  unfold maybe_sync, plain_call. simpl. destruct wal_sync_on_append; [|intros [= <- <-]; apply extends_refl].
  destruct (faults w 0); intros [= <- <-]; by apply extends_same.
Qed.

Lemma append_extends handle path bs w r h w' :
  append_wal_bytes handle path bs w = (r, h, w') → extends path w w'.
Proof.
  unfold append_wal_bytes.
  destruct (if handle then (true, w) else open_wal_append_file path w) as [opened w1] eqn:E1.
  assert (extends path w w1) as X1
    by (destruct handle; [injection E1 as _ <-; apply extends_refl|by eapply open_extends]).
  destruct opened; simpl; [|intros [= <- <- <-]; done].
  destruct (write_all path bs w1) as [wr w2] eqn:E2. apply write_all_extends in E2.
  destruct wr.
  - destruct (maybe_sync _ w2) as [r3 w3] eqn:E3. apply (maybe_sync_extends path) in E3.
    intros [= <- <- <-]. eauto using extends_trans.
  - destruct (open_wal_append_file path w2) as [re w3] eqn:E3. apply open_extends in E3.
    destruct re; simpl; [|intros [= <- <- <-]; eauto using extends_trans].
    destruct (write_all path bs w3) as [wr2 w4] eqn:E4. apply write_all_extends in E4.
    destruct wr2; [|intros [= <- <- <-]; eauto 6 using extends_trans].
    destruct (maybe_sync _ w4) as [r5 w5] eqn:E5. apply (maybe_sync_extends path) in E5.
    intros [= <- <- <-]. eauto 8 using extends_trans.
Qed.

Lemma load_extension records c more :
  clean_file records c → records `prefix_of` load_records_from_path (Some (c ++ more)).
Proof.
  intros (frames & -> & Hf). rewrite <- app_assoc, load_header_app, (replay_frames_app records) by done.
  by apply prefix_app_r.
Qed.
End faults.

(** an ordered append is safe under every failure: however the opens, writes and syncs of
    the append fail, in any payload context, the file only grows and still replays all records it had
    before, as a prefix; and the records in memory change exactly when the append is acknowledged. *)
Theorem ordered_append_keeps_old_records
    `{RowCrypto} `{Zlib} `{Env} `{BinarySearch} `{Bincode EncryptedRowPayloadEnvelope}
    `{Bincode LegacyEncryptedRowPayloadEnvelope} `{Bincode TransactionRecord}
    (wk : Worker) (path : ustr) (entries : list TransactionRecord) (record : TransactionRecord)
    (context : TransactionPayloadContext) (c : bytes) (w : World)
    (r : result unit string) (wk' : Worker) (entries' : list TransactionRecord) (w' : World) :
  wal_path wk = Some path → disk w !! path = Some c → clean_file entries c →
  is_ordered entries record = true →
  worker_append wk entries record context w = (r, wk', entries', w') →
  extends path w w' ∧
  (∃ c', disk w' !! path = Some c' ∧ entries `prefix_of` load_records_from_path (Some c')) ∧
  entries' = (if is_ok r then entries ++ [record] else entries).
Proof.
  intros Hp Hd Hc Ho. unfold worker_append, place. rewrite Ho, Hp.
  assert (∀ w2, extends path w w2 → extends path w w2 ∧
    ∃ c', disk w2 !! path = Some c' ∧ entries `prefix_of` load_records_from_path (Some c')) as Hext.
  { intros w2 Hx. split; [done|]. destruct (Hx c Hd) as (more & Hm). exists (c ++ more).
    split; [done|]. by apply load_extension. }
  simpl. destruct (frame_record_with_context _ _ _) as [frame|e].
  - destruct (append_wal_bytes _ _ _ _) as [[r0 h] w2] eqn:Ea. apply append_extends in Ea.
    assert (extends path w w2) as Hx by (eapply extends_trans; [|exact Ea]; by apply extends_same).
    destruct (Hext w2 Hx). destruct r0; intros [= <- <- <- <-]; auto.
  - intros [= <- <- <- <-]. destruct (Hext (pop_nonces w).2) as [? ?]; [by apply extends_same|]. auto.
Qed.

(** The next file to be rewritten is truncated, and then the write fails. *)
Definition fails_after_truncation (w : World) : Prop := faults w 0 = IoDone ∧ faults w 1 = IoFailed 0.

(** The next system call fails. *)
Definition fails_at_once (w : World) : Prop := ∃ n, faults w 0 = IoFailed n.

(** a rewrite in place that fails after the truncating open.  The append of an out-of-order
    record is refused and the records in memory are untouched, but the file has lost all of them,
    the acknowledged ones included. *)
Theorem failed_rewrite_empties_file
    `{RowCrypto} `{Zlib} `{Env} `{BinarySearch} `{Bincode EncryptedRowPayloadEnvelope}
    `{Bincode LegacyEncryptedRowPayloadEnvelope} `{Bincode TransactionRecord}
    (wk : Worker) (path : ustr) (entries : list TransactionRecord) (record : TransactionRecord)
    (context : TransactionPayloadContext) (pos : nat) (w : World) (bs : bytes) :
  wal_path wk = Some path → place entries record = InsertAt pos →
  rewritten_wal_bytes (nonces w 0) (vec_insert pos record entries) context = Ok bs →
  fails_after_truncation w →
  ∃ w', worker_append wk entries record context w
        = (Err "failed to rewrite compacted WAL file", wk, entries, w') ∧
        load_records_from_path (disk w' !! path) = [].
Proof.
  intros Hp Hpl Hb [Hf0 Hf1]. unfold worker_append, rewrite_wal_file_with_context, write_bytes. rewrite Hpl, Hp.
  simpl. rewrite Hb, Hf0. simpl. rewrite Hf1. simpl. eexists. split; [reflexivity|].
  simpl. rewrite lookup_insert_eq. reflexivity.
Qed.

(** compaction replaces the records in memory before it writes the file.  When the write
    fails, the caller gets an error, the file still has the old records, and the manager serves
    the compacted ones. *)
Theorem failed_compaction_changes_memory
    `{RowCrypto} `{Zlib} `{Env} `{BinarySearch} `{Bincode EncryptedRowPayloadEnvelope}
    `{Bincode LegacyEncryptedRowPayloadEnvelope} `{Bincode TransactionRecord}
    (wk : Worker) (path : ustr) (entries : list TransactionRecord) (actor : UserId) (ts : Z)
    (w : World) (bs : bytes) :
  wal_path wk = Some path →
  rewritten_wal_bytes (nonces w 0) (compact_entries_to_latest_schema_and_metadata entries actor ts)
    default_transaction_payload_context = Ok bs →
  fails_at_once w →
  ∃ w', worker_compact wk entries actor ts w
        = (Err "failed to rewrite compacted WAL file", wk,
           compact_entries_to_latest_schema_and_metadata entries actor ts, w') ∧
        disk w' = disk w.
Proof.
  intros Hp Hb [n Hf0]. unfold worker_compact, rewrite_wal_file_with_context, write_bytes. rewrite Hp.
  simpl. rewrite Hb, Hf0. eexists. split; reflexivity.
Qed.

(** A concrete system: no setting set, the codecs of [Instances]. *)
Section concrete.
#[local] Existing Instances plain_crypto plain_zlib empty_env first_match plain_digest.
#[local] Existing Instances envelope_bincode legacy_bincode record_bincode.

Definition row (i : Z) : TransactionRecord := new_record i None None 10 (lit "u") Insert (Some [x07]).

(** Every call succeeds except the fifth, the first write of a frame, which stops after 9 bytes. *)
Definition torn_write : nat → io_outcome := λ n, if Nat.eqb n 4 then IoFailed 9 else IoDone.

Definition fresh_world (f : nat → io_outcome) : World := mkWorld ∅ f (λ _ _, None).

Definition before_append : WalState := new_manager (Some (lit "d")) (fresh_world torn_write).
(** an append whose first write stops in the middle of the frame and whose retry succeeds is
    acknowledged and served from memory, but the bytes of the first attempt stay in the file in
    front of the frame, and a new process reads neither of them. *)
Theorem partial_write_retry_loses_record :
  let '(r, s) := append_with_context (lit "t") (row 1) default_transaction_payload_context before_append in
  r = Ok tt ∧ (all_records (lit "t") s).1 = [row 1] ∧
  (all_records (lit "t") (new_manager (Some (lit "d")) (world s))).1 = [].
Proof. vm_compute. auto. Qed.
End concrete.
