(* ===== verification/LiveRows.v ===== *)
(** * Live rows of a table

    Models the replay of a table's WAL in [serverlib/src/engine/execution/access.rs]: which records
    are visible given the commits and aborts of their write groups, the serial and the parallel
    replay, and the bounded replay from the end of the log.  The row decoder of the table's schema
    is a parameter of this file: every result holds for every decoder.  A worker thread that
    panics is not modelled. *)

From Stdlib Require Import ZArith Lia Strings.Byte.
From stdpp Require Import base list gmap strings sorting.
From S2P Require Import Prelude Settings Record Wal.

Definition LIVE_ROW_APPLY_PARALLEL_MIN_RECORDS : Z := 500000.
Definition LIVE_ROW_APPLY_PARALLEL_CHUNK_SIZE : Z := 200000.
Definition LIVE_ROW_APPLY_PARALLEL_MAX_WORKERS : Z := 32.
Definition LIVE_ROW_APPLY_WORKERS : ustr := lit "DISTDB_LIVE_ROW_APPLY_WORKERS".

(** ** Write groups *)

(** The group scan: the groups with a commit record, and those with an abort record. *)
Definition groups_of_kind (k : TransactionKind) (records : list TransactionRecord) : gset Z :=
  list_to_set (omap (λ r, if eqb (kind r) k then groupid r else None) records).

Definition committed_groups (records : list TransactionRecord) : gset Z := groups_of_kind WriteCommit records.
Definition aborted_groups (records : list TransactionRecord) : gset Z := groups_of_kind WriteAbort records.

Definition record_visible_for_live_row_apply (record : TransactionRecord) (committed aborted : gset Z) : bool :=
  match groupid record with
  | None => true
  | Some g =>
      if bool_decide (g ∈ aborted) then false
      else if bool_decide (g ∉ committed)
              && negb (eqb (kind record) WriteCommit || eqb (kind record) WriteAbort)
      then false else true
  end.

Section live_rows.
Context {Row : Type} (decode_row : bytes → option Row).

(** ** Replay *)

(** [live_rows] and [row_order]. *)
Abbreviation Live := (gmap Z Row * list Z)%type.

(** The row of an [Insert] or [Update] record. *)
Definition record_row (r : TransactionRecord) : option Row :=
  if eqb (kind r) Insert || eqb (kind r) Update then payload_logical r ≫= decode_row else None.

Definition insert_row (i : Z) (row : Row) (live : Live) : Live := (<[i := row]> live.1, live.2 ++ [i]).

Definition remove_row (r : TransactionRecord) (live : Live) : Live :=
  match refid r with Some x => (delete x live.1, live.2) | None => live end.

(** One round of the serial loop. *)
Definition apply_record (committed aborted : gset Z) (live : Live) (r : TransactionRecord) : Live :=
  if record_visible_for_live_row_apply r committed aborted then
    match kind r with
    | Insert | Update => match record_row r with Some row => insert_row (id r) row live | None => live end
    | Delete => remove_row r live
    | _ => live
    end
  else live.

(** [row_order.into_iter().filter_map(|id| live_rows.remove(&id)...)]. *)
Fixpoint finalize (row_order : list Z) (live : gmap Z Row) : list (Z * Row) :=
  match row_order with
  | [] => []
  | i :: rest =>
      match live !! i with
      | Some row => (i, row) :: finalize rest (delete i live)
      | None => finalize rest live
      end
  end.

(** ** Parallel decoding *)

(** The rows of a chunk with their offsets, [offset] being the one of its first record. *)
Fixpoint decode_visible (committed aborted : gset Z) (offset : nat) (chunk : list TransactionRecord)
    : list (nat * Row) :=
  match chunk with
  | [] => []
  | r :: rest =>
      let decoded := decode_visible committed aborted (S offset) rest in
      if record_visible_for_live_row_apply r committed aborted then
        match record_row r with Some row => (offset, row) :: decoded | None => decoded end
      else decoded
  end.

(** The [for worker_idx in 0..workers] loop over the sub-chunks, from [worker_idx] on. *)
Fixpoint decode_sub_chunks (committed aborted : gset Z) (chunk : list TransactionRecord)
    (chunk_size : nat) (worker_idx remaining : nat) : list (nat * Row) :=
  match remaining with
  | O => []
  | S remaining =>
      let start := (worker_idx * chunk_size)%nat in
      if Nat.leb (length chunk) start then []
      else
        let stop := Nat.min (start + chunk_size) (length chunk) in
        decode_visible committed aborted start (take (stop - start) (drop start chunk))
        ++ decode_sub_chunks committed aborted chunk chunk_size (S worker_idx) remaining
  end.

Definition div_ceil (a b : nat) : nat := ((a + b - 1) / b)%nat.

Definition decode_live_row_chunk (chunk : list TransactionRecord) (committed aborted : gset Z)
    (workers : nat) : list (nat * Row) :=
  if Nat.leb workers 1 || Nat.ltb (length chunk) 2
  then decode_visible committed aborted 0 chunk
  else decode_sub_chunks committed aborted chunk (div_ceil (length chunk) workers) 0 workers.

(** The loop over a chunk with the decoded rows in a peekable iterator. *)
Fixpoint apply_chunk (committed aborted : gset Z) (offset : nat) (chunk : list TransactionRecord)
    (decoded : list (nat * Row)) (live : Live) : Live :=
  match chunk with
  | [] => live
  | r :: rest =>
      let '(live, decoded) :=
        match kind r with
        | Insert | Update =>
            match decoded with
            | (decoded_offset, row) :: decoded' =>
                if Nat.eqb decoded_offset offset then (insert_row (id r) row live, decoded')
                else (live, decoded)
            | [] => (live, decoded)
            end
        | Delete =>
            (if record_visible_for_live_row_apply r committed aborted then remove_row r live else live, decoded)
        | _ => (live, decoded)
        end in
      apply_chunk committed aborted (S offset) rest decoded live
  end.

(** [slice::chunks(n)]; every chunk takes at least one record. *)
Fixpoint chunks {A} (fuel n : nat) (l : list A) : list (list A) :=
  match fuel, l with
  | O, _ | _, [] => []
  | S fuel, _ => take n l :: chunks fuel n (drop n l)
  end.

Definition parallel_apply (committed aborted : gset Z) (workers : nat) (records : list TransactionRecord)
    (live : Live) : Live :=
  foldl (λ live chunk, apply_chunk committed aborted 0 chunk
                         (decode_live_row_chunk chunk committed aborted workers) live)
    live (chunks (length records) (Z.to_nat LIVE_ROW_APPLY_PARALLEL_CHUNK_SIZE) records).

Definition serial_apply (committed aborted : gset Z) (records : list TransactionRecord) (live : Live) : Live :=
  foldl (apply_record committed aborted) live records.

(** ** The replays *)

Section workers.
Context `{Env}.

Definition live_row_apply_max_workers : Z :=
  positive_usize LIVE_ROW_APPLY_WORKERS LIVE_ROW_APPLY_PARALLEL_MAX_WORKERS.

(** [available_workers] is [std::thread::available_parallelism()]. *)
Definition collect_live_rows_from_records (available_workers : Z) (wal_records : list TransactionRecord)
    : list (Z * Row) :=
  let committed := committed_groups wal_records in
  let aborted := aborted_groups wal_records in
  let apply_workers := Z.min available_workers live_row_apply_max_workers in
  let live :=
    if (1 <? apply_workers) && (LIVE_ROW_APPLY_PARALLEL_MIN_RECORDS <=? Z.of_nat (length wal_records))
    then parallel_apply committed aborted (Z.to_nat apply_workers) wal_records (∅, [])
    else serial_apply committed aborted wal_records (∅, []) in
  finalize live.2 live.1.
End workers.

(** The reverse loop: groups and deletions seen so far (towards the end of the log) and the rows
    found, newest first; it stops when there are enough. *)
Fixpoint limited_scan (max_rows : nat) (rev_records : list TransactionRecord)
    (committed aborted deleted : gset Z) (live_rows : list (Z * Row)) : list (Z * Row) :=
  match rev_records with
  | [] => live_rows
  | r :: rest =>
      match kind r with
      | WriteCommit =>
          limited_scan max_rows rest (match groupid r with Some g => {[g]} ∪ committed | None => committed end)
            aborted deleted live_rows
      | WriteAbort =>
          limited_scan max_rows rest committed
            (match groupid r with Some g => {[g]} ∪ aborted | None => aborted end) deleted live_rows
      | Delete =>
          let deleted :=
            match refid r with
            | Some x => if record_visible_for_live_row_apply r committed aborted then {[x]} ∪ deleted else deleted
            | None => deleted
            end in
          limited_scan max_rows rest committed aborted deleted live_rows
      | Insert | Update =>
          if negb (record_visible_for_live_row_apply r committed aborted) || bool_decide (id r ∈ deleted)
          then limited_scan max_rows rest committed aborted deleted live_rows
          else
            match record_row r with
            | None => limited_scan max_rows rest committed aborted deleted live_rows
            | Some row =>
                let live_rows := live_rows ++ [(id r, row)] in
                if Nat.leb max_rows (length live_rows) then live_rows
                else limited_scan max_rows rest committed aborted deleted live_rows
            end
      | _ => limited_scan max_rows rest committed aborted deleted live_rows
      end
  end.

Definition collect_live_rows_from_records_limited (wal_records : list TransactionRecord) (max_rows : nat)
    : list (Z * Row) :=
  reverse (limited_scan max_rows (reverse wal_records) ∅ ∅ ∅ []).

(** ** The parallel replay is the serial one *)

Lemma decode_visible_app c a offset l1 l2 :
  decode_visible c a offset (l1 ++ l2)
  = decode_visible c a offset l1 ++ decode_visible c a (offset + length l1) l2.
Proof.
  revert offset. induction l1 as [|r l1 IH]; intros offset; simpl; [by rewrite Nat.add_0_r|].
  rewrite IH, <- Nat.add_succ_comm. destruct (record_visible_for_live_row_apply r c a); [|done].
  destruct (record_row r); done.
Qed.

Lemma decode_visible_offsets c a offset chunk :
  Forall (λ p, offset ≤ p.1)%nat (decode_visible c a offset chunk).
Proof.
  revert offset. induction chunk as [|r chunk IH]; intros offset; simpl; [constructor|].
  assert (Forall (λ p, offset ≤ p.1)%nat (decode_visible c a (S offset) chunk))
    by (eapply Forall_impl; [apply IH|]; simpl; lia).
  destruct (record_visible_for_live_row_apply r c a); [|done]. destruct (record_row r); [|done].
  by constructor.
Qed.

(** The sub-chunks of the remaining workers, put together. *)
Lemma decode_sub_chunks_spec c a chunk chunk_size idx remaining :
  decode_sub_chunks c a chunk chunk_size idx remaining
  = decode_visible c a (idx * chunk_size) (take (remaining * chunk_size) (drop (idx * chunk_size) chunk)).
Proof.
  revert idx. induction remaining as [|remaining IH]; intros idx; [done|].
  cbn [decode_sub_chunks]. set (start := (idx * chunk_size)%nat).
  destruct (Nat.leb_spec (length chunk) start) as [Hge|Hlt].
  { rewrite drop_ge, take_nil by done. done. }
  rewrite IH. replace (S idx * chunk_size)%nat with (start + chunk_size)%nat by (unfold start; lia).
  assert (take (Nat.min (start + chunk_size) (length chunk) - start) (drop start chunk)
          = take chunk_size (drop start chunk)) as ->.
  { destruct (decide (start + chunk_size ≤ length chunk)%nat) as [Hle|Hgt];
      [f_equal; lia|rewrite !take_ge by (rewrite length_drop; lia); done]. }
  replace (S remaining * chunk_size)%nat with (chunk_size + remaining * chunk_size)%nat by lia.
  rewrite <- take_take_drop, decode_visible_app, drop_drop. f_equal.
  rewrite length_take, length_drop.
  destruct (decide (start + chunk_size ≤ length chunk)%nat); [f_equal; lia|].
  rewrite (drop_ge chunk (start + chunk_size)), take_nil by lia. done.
Qed.

Lemma div_ceil_covers n workers : (0 < workers)%nat → (n ≤ workers * div_ceil n workers)%nat.
Proof.
  intros Hw. unfold div_ceil. pose proof (Nat.div_mod (n + workers - 1) workers ltac:(lia)).
  pose proof (Nat.mod_upper_bound (n + workers - 1) workers ltac:(lia)). lia.
Qed.

Lemma decode_live_row_chunk_serial chunk c a workers :
  decode_live_row_chunk chunk c a workers = decode_visible c a 0 chunk.
Proof.
  unfold decode_live_row_chunk. destruct (Nat.leb_spec workers 1); [done|].
  destruct (Nat.ltb_spec (length chunk) 2); [done|]. simpl.
  rewrite decode_sub_chunks_spec. simpl. rewrite drop_0, take_ge; [done|].
  apply div_ceil_covers. lia.
Qed.

Lemma apply_chunk_serial c a offset chunk live :
  apply_chunk c a offset chunk (decode_visible c a offset chunk) live
  = foldl (apply_record c a) live chunk.
Proof.
  revert offset live. induction chunk as [|r rest IH]; intros offset live; [done|].
  cbn [apply_chunk decode_visible foldl]. unfold apply_record at 2.
  pose proof (decode_visible_offsets c a (S offset) rest) as Hoff.
  assert (∀ p d, decode_visible c a (S offset) rest = p :: d → Nat.eqb p.1 offset = false) as Hnext.
  { intros p d E. rewrite E in Hoff. inversion Hoff. apply Nat.eqb_neq. lia. }
  assert (record_row r = None ∨ kind r = Insert ∨ kind r = Update) as Hkind
    by (unfold record_row; destruct (kind r); auto).
  destruct (record_visible_for_live_row_apply r c a) eqn:Ev, (kind r) eqn:Ek;
    try (destruct Hkind as [Hnone|[|]]; [|discriminate|discriminate]; rewrite ?Hnone; apply IH);
    try apply IH;
    destruct (record_row r) as [row|]; rewrite ?Nat.eqb_refl; try apply IH;
    destruct (decode_visible c a (S offset) rest) as [|[p row'] d] eqn:Ed;
    try (specialize (Hnext _ _ eq_refl); simpl in Hnext; rewrite Hnext); rewrite <- Ed; apply IH.
Qed.

Lemma concat_chunks {A} fuel n (l : list A) :
  (0 < n)%nat → (length l ≤ fuel)%nat → concat (chunks fuel n l) = l.
Proof.
  intros Hn. revert l. induction fuel as [|fuel IH]; intros l Hl.
  - destruct l; [done|simpl in Hl; lia].
  - destruct l as [|x l]; [done|]. cbn [chunks concat]. rewrite IH; [apply take_drop|].
    rewrite length_drop. cbn [length] in *. lia.
Qed.

Lemma parallel_apply_serial c a workers records live :
  parallel_apply c a workers records live = serial_apply c a records live.
Proof.
  unfold parallel_apply, serial_apply.
  rewrite <- (concat_chunks (length records) (Z.to_nat LIVE_ROW_APPLY_PARALLEL_CHUNK_SIZE) records) at 3
    by (unfold LIVE_ROW_APPLY_PARALLEL_CHUNK_SIZE; lia).
  generalize (chunks (length records) (Z.to_nat LIVE_ROW_APPLY_PARALLEL_CHUNK_SIZE) records).
  intros cs. revert live. induction cs as [|chunk cs IH]; intros live; [done|].
  cbn [foldl concat]. rewrite foldl_app, <- IH. f_equal.
  rewrite decode_live_row_chunk_serial. apply apply_chunk_serial.
Qed.

(** ** Replay as a function of the log *)

Definition replay (records : list TransactionRecord) : list (Z * Row) :=
  let live := serial_apply (committed_groups records) (aborted_groups records) records (∅, []) in
  finalize live.2 live.1.

Lemma collect_replay `{Env} available_workers records :
  collect_live_rows_from_records available_workers records = replay records.
Proof.
  unfold collect_live_rows_from_records, replay. destruct (_ && _); [|done].
  by rewrite parallel_apply_serial.
Qed.

Lemma elem_of_groups k records g :
  g ∈ groups_of_kind k records ↔ ∃ r, r ∈ records ∧ kind r = k ∧ groupid r = Some g.
Proof.
  unfold groups_of_kind. rewrite elem_of_list_to_set, list_elem_of_omap. split.
  - intros (r & Hr & Hg). destruct (eqb (kind r) k) eqn:E; [|done]. apply eqb_eq in E. eauto.
  - intros (r & Hr & <- & Hg). exists r. by rewrite eqb_refl.
Qed.

(** A group without a commit, or with an abort. *)
Definition group_hidden (records : list TransactionRecord) (g : Z) : Prop :=
  g ∈ aborted_groups records ∨ g ∉ committed_groups records.

(** The records of a hidden group do nothing. *)
Lemma hidden_record_inert records g r live :
  group_hidden records g → groupid r = Some g →
  apply_record (committed_groups records) (aborted_groups records) live r = live.
Proof.
  intros Hh Hg. unfold apply_record, record_visible_for_live_row_apply. rewrite Hg.
  destruct Hh as [Ha|Hc]; [by rewrite bool_decide_true|].
  rewrite (bool_decide_true (g ∉ _)) by done.
  destruct (bool_decide (g ∈ aborted_groups records)); [done|].
  destruct (kind r); simpl; done.
Qed.

Lemma groups_without k records g x :
  x ≠ g →
  x ∈ groups_of_kind k (filter (λ r, groupid r ≠ Some g) records) ↔ x ∈ groups_of_kind k records.
Proof.
  intros Hne. rewrite !elem_of_groups. split; intros (r & Hr & Hk & Hg); exists r.
  - apply list_elem_of_filter in Hr as [_ Hr]. done.
  - split; [|done]. apply list_elem_of_filter. split; [congruence|done].
Qed.

Lemma visible_without records g r :
  groupid r ≠ Some g →
  let rest := filter (λ r, groupid r ≠ Some g) records in
  record_visible_for_live_row_apply r (committed_groups rest) (aborted_groups rest)
  = record_visible_for_live_row_apply r (committed_groups records) (aborted_groups records).
Proof.
  intros Hne rest. unfold record_visible_for_live_row_apply. destruct (groupid r) as [x|] eqn:Ex; [|done].
  assert (x ≠ g) as Hx by congruence.
  rewrite (bool_decide_ext (x ∈ aborted_groups rest) (x ∈ aborted_groups records)) by (by apply groups_without).
  rewrite (bool_decide_ext (x ∉ committed_groups rest) (x ∉ committed_groups records)); [done|].
  unfold committed_groups, rest. by rewrite groups_without.
Qed.

Lemma serial_apply_without records g l live :
  group_hidden records g →
  let rest := filter (λ r, groupid r ≠ Some g) records in
  serial_apply (committed_groups rest) (aborted_groups rest) (filter (λ r, groupid r ≠ Some g) l) live
  = serial_apply (committed_groups records) (aborted_groups records) l live.
Proof.
  intros Hh rest. unfold serial_apply. revert live. induction l as [|r l IH]; intros live; [done|].
  rewrite filter_cons. destruct (decide (groupid r ≠ Some g)) as [Hne|Heq]; cbn [foldl].
  - rewrite IH. f_equal. unfold apply_record. unfold rest. by rewrite visible_without.
  - rewrite IH. f_equal. symmetry. apply (hidden_record_inert records g); [done|].
    destruct (decide (groupid r = Some g)); [done|contradiction].
Qed.

Lemma replay_without records g :
  group_hidden records g → replay (filter (λ r, groupid r ≠ Some g) records) = replay records.
Proof. intros Hh. unfold replay. by rewrite serial_apply_without. Qed.

(** ** What replay returns *)

Section visible.
Context (committed aborted : gset Z).

Definition visible_row (r : TransactionRecord) : option (Z * Row) :=
  if record_visible_for_live_row_apply r committed aborted then pair (id r) <$> record_row r else None.

Definition visible_delete (r : TransactionRecord) : option Z :=
  if record_visible_for_live_row_apply r committed aborted && eqb (kind r) Delete then refid r else None.

Definition visible_rows (l : list TransactionRecord) : list (Z * Row) := omap visible_row l.
Definition deleted_ids (l : list TransactionRecord) : gset Z := list_to_set (omap visible_delete l).

Definition live_of (l : list TransactionRecord) : list (Z * Row) :=
  filter (λ p, p.1 ∉ deleted_ids l) (visible_rows l).

Lemma record_row_kind r row : record_row r = Some row → kind r = Insert ∨ kind r = Update.
Proof. unfold record_row. destruct (kind r); auto; done. Qed.

Lemma elem_of_deleted_ids l x :
  x ∈ deleted_ids l ↔ ∃ d, d ∈ l ∧ visible_delete d = Some x.
Proof. unfold deleted_ids. by rewrite elem_of_list_to_set, list_elem_of_omap. Qed.

Lemma visible_delete_Some d x :
  visible_delete d = Some x → kind d = Delete ∧ refid d = Some x
  ∧ record_visible_for_live_row_apply d committed aborted = true.
Proof.
  unfold visible_delete. destruct (record_visible_for_live_row_apply d committed aborted); [|done].
  destruct (eqb (kind d) Delete) eqn:E; [|done]. apply eqb_eq in E. done.
Qed.

Lemma visible_row_Some r p :
  visible_row r = Some p → p.1 = id r ∧ record_row r = Some p.2
  ∧ record_visible_for_live_row_apply r committed aborted = true.
Proof.
  unfold visible_row. destruct (record_visible_for_live_row_apply r committed aborted); [|done].
  destruct (record_row r); [|done]. intros [= <-]. done.
Qed.

Lemma apply_record_cases live r :
  apply_record committed aborted live r
  = match visible_row r, visible_delete r with
    | Some (i, row), _ => insert_row i row live
    | None, Some x => (delete x live.1, live.2)
    | None, None => live
    end.
Proof.
  unfold apply_record, visible_row, visible_delete, remove_row.
  destruct (record_visible_for_live_row_apply r committed aborted); [|done].
  pose proof (record_row_kind r) as Hk.
  destruct (kind r) eqn:Ek, (record_row r) as [row|]; cbn;
    try (destruct (Hk row eq_refl); discriminate); done.
Qed.

(** References point back: a record refers only to records with smaller ids. *)
Definition refs_back (l : list TransactionRecord) : Prop :=
  Forall (λ r, ∀ x, refid r = Some x → x < id r) l.

Lemma unique_ids_snoc l r :
  unique_ids (l ++ [r]) ↔ unique_ids l ∧ Forall (λ e, id e < id r) l.
Proof.
  unfold unique_ids. rewrite StronglySorted_app. split.
  - intros (Hx & Hl & _). split; [done|]. rewrite Forall_forall. intros e He. apply Hx; set_solver.
  - intros [Hl Hx]. rewrite Forall_forall in Hx. split; [|split; [done|repeat constructor]].
    intros e r' He Hr'%list_elem_of_singleton. subst. by apply Hx.
Qed.

Lemma visible_rows_snoc l r :
  visible_rows (l ++ [r]) = visible_rows l ++ option_list (visible_row r).
Proof. unfold visible_rows. rewrite omap_app. simpl. by destruct (visible_row r). Qed.

Lemma deleted_ids_app l1 l2 : deleted_ids (l1 ++ l2) = deleted_ids l1 ∪ deleted_ids l2.
Proof. unfold deleted_ids. by rewrite omap_app, list_to_set_app_L. Qed.

Lemma visible_rows_below l i :
  Forall (λ e, id e < i) l → Forall (λ x, x < i) (visible_rows l).*1.
Proof.
  rewrite !Forall_forall. intros Hl x (p & -> & Hp)%list_elem_of_fmap.
  unfold visible_rows in Hp. apply list_elem_of_omap in Hp as (r & Hr & Hv).
  apply visible_row_Some in Hv as (-> & _). by apply Hl.
Qed.

Lemma deleted_ids_below l i : refs_back l → Forall (λ e, id e < i) l → i ∉ deleted_ids l.
Proof.
  intros Hb Hl (d & Hd & Hv)%elem_of_deleted_ids. apply visible_delete_Some in Hv as (_ & Href & _).
  unfold refs_back in Hb. rewrite Forall_forall in Hb, Hl. specialize (Hb d Hd i Href). specialize (Hl d Hd). lia.
Qed.

Lemma visible_rows_nodup l : unique_ids l → NoDup (visible_rows l).*1.
Proof.
  induction l as [|r l IH] using rev_ind; [constructor|]. intros [Hu Hlt]%unique_ids_snoc.
  rewrite visible_rows_snoc, fmap_app. destruct (visible_row r) as [p|] eqn:Ev; simpl;
    [|rewrite app_nil_r; auto].
  apply NoDup_app. split; [auto|]. split; [|apply NoDup_singleton].
  intros x Hx ->%list_elem_of_singleton. apply visible_row_Some in Ev as (E & _).
  pose proof (visible_rows_below l _ Hlt) as Hb. rewrite Forall_forall in Hb. specialize (Hb _ Hx). lia.
Qed.

(** The replayed map and order, as functions of the visible rows and deletions. *)
Lemma serial_apply_lookup l :
  unique_ids l → refs_back l →
  let live := serial_apply committed aborted l (∅, []) in
  live.2 = (visible_rows l).*1
  ∧ ∀ x, live.1 !! x = if decide (x ∈ deleted_ids l) then None
                       else (list_to_map (visible_rows l) : gmap Z Row) !! x.
Proof.
  induction l as [|r l IH] using rev_ind.
  { intros _ _. split; [done|]. intros x. simpl. destruct (decide _); done. }
  intros [Hu Hlt]%unique_ids_snoc [Hb Hbr]%Forall_app. destruct (IH Hu Hb) as [Hord Hlook].
  pose proof (deleted_ids_below l _ Hb Hlt) as Hnd. pose proof (visible_rows_below l _ Hlt) as Hvb.
  unfold serial_apply in *. rewrite foldl_snoc, apply_record_cases. set (live := foldl _ _ l) in *.
  rewrite visible_rows_snoc, fmap_app, deleted_ids_app.
  destruct (visible_row r) as [[i row]|] eqn:Ev; simpl.
  - apply visible_row_Some in Ev as (E & Hrow & Hvis). simpl in E, Hrow. subst i.
    assert (deleted_ids [r] = ∅) as ->.
    { unfold deleted_ids, visible_delete. simpl. rewrite Hvis.
      destruct (record_row_kind _ _ Hrow) as [->| ->]; done. }
    split; [simpl; f_equal; exact Hord|]. intros x. rewrite list_to_map_app, lookup_union, union_empty_r_L.
    destruct (decide (x = id r)) as [->|Hne].
    + rewrite lookup_insert_eq, decide_False by done. simpl. rewrite not_elem_of_list_to_map_1, lookup_insert_eq;
        [done|]. intros Hin. rewrite Forall_forall in Hvb. specialize (Hvb _ Hin). lia.
    + rewrite lookup_insert_ne, Hlook by done. simpl. rewrite lookup_insert_ne, lookup_empty by done.
      destruct (decide _); [done|]. by destruct (list_to_map _ !! x).
  - rewrite !app_nil_r. destruct (visible_delete r) as [y|] eqn:Ed; simpl.
    + assert (deleted_ids [r] = {[y]}) as -> by (unfold deleted_ids; simpl; rewrite Ed; set_solver).
      split; [exact Hord|]. intros x. destruct (decide (x = y)) as [->|Hne].
      * rewrite lookup_delete_eq, decide_True by set_solver. done.
      * rewrite lookup_delete_ne, Hlook by done. apply decide_ext. set_solver.
    + assert (deleted_ids [r] = ∅) as -> by (unfold deleted_ids; simpl; rewrite Ed; set_solver).
      split; [exact Hord|]. intros x. by rewrite union_empty_r_L.
Qed.

Lemma finalize_nodup order live :
  NoDup order → finalize order live = omap (λ x, pair x <$> live !! x) order.
Proof.
  revert live. induction order as [|i order IH]; intros live Hnd; [done|].
  apply NoDup_cons in Hnd as [Hi Hnd]. cbn [finalize]. rewrite omap_cons_eq.
  destruct (live !! i) as [row|]; simpl; [|by apply IH]. rewrite IH by done. f_equal.
  apply list_omap_ext. apply Forall2_same_length_lookup. split; [done|].
  intros k x y Hx Hy. assert (x = y) as <- by congruence. rewrite lookup_delete_ne; [done|].
  intros ->. apply Hi. by eapply list_elem_of_lookup_2.
Qed.
Lemma omap_lookup_rows (deleted : gset Z) (rows : list (Z * Row)) (live : gmap Z Row) :
  NoDup rows.*1 →
  (∀ x, live !! x = if decide (x ∈ deleted) then None else (list_to_map rows : gmap Z Row) !! x) →
  omap (λ x, pair x <$> live !! x) rows.*1 = filter (λ p, p.1 ∉ deleted) rows.
Proof.
  intros Hnd Hlive.
  assert (∀ sub, sub ⊆ rows →
    omap (λ x, pair x <$> live !! x) sub.*1 = filter (λ p, p.1 ∉ deleted) sub) as Hsub; [|by apply Hsub].
  induction sub as [|[x row] sub IH]; intros Hs; [done|].
  rewrite fmap_cons, omap_cons_eq, filter_cons, IH by set_solver. simpl. rewrite Hlive.
  assert ((list_to_map rows : gmap Z Row) !! x = Some row) as ->
    by (apply elem_of_list_to_map; [done|set_solver]).
  destruct (decide (x ∈ deleted)), (decide (x ∉ deleted)); done.
Qed.

Lemma finalize_live_of l :
  unique_ids l → refs_back l →
  let live := serial_apply committed aborted l (∅, []) in finalize live.2 live.1 = live_of l.
Proof.
  intros Hu Hb live. destruct (serial_apply_lookup l Hu Hb) as [Hord Hlook].
  pose proof (visible_rows_nodup l Hu) as Hnd. unfold live. rewrite Hord, finalize_nodup by done.
  by apply omap_lookup_rows.
Qed.
End visible.

(** The visible, decodable and not deleted rows of a log, in log order. *)
Definition live_rows_of (records : list TransactionRecord) : list (Z * Row) :=
  live_of (committed_groups records) (aborted_groups records) records.

Lemma replay_live_rows records :
  unique_ids records → refs_back records → replay records = live_rows_of records.
Proof. apply finalize_live_of. Qed.

(** ** The bounded replay *)

Definition is_terminal (r : TransactionRecord) : bool := eqb (kind r) WriteCommit || eqb (kind r) WriteAbort.

(** No record of a group follows the commit or abort that ends the group. *)
Fixpoint terminals_last (ended : gset Z) (records : list TransactionRecord) : bool :=
  match records with
  | [] => true
  | r :: rest =>
      match groupid r with
      | Some g =>
          if is_terminal r then terminals_last ({[g]} ∪ ended) rest
          else bool_decide (g ∉ ended) && terminals_last ended rest
      | None => terminals_last ended rest
      end
  end.

Lemma groups_of_kind_app k l1 l2 : groups_of_kind k (l1 ++ l2) = groups_of_kind k l1 ∪ groups_of_kind k l2.
Proof. unfold groups_of_kind. by rewrite omap_app, list_to_set_app_L. Qed.

Lemma groups_of_kind_cons k r l :
  groups_of_kind k (r :: l)
  = match groupid r with Some g => if eqb (kind r) k then {[g]} ∪ groups_of_kind k l else groups_of_kind k l
                       | None => groups_of_kind k l end.
Proof.
  unfold groups_of_kind. rewrite omap_cons_eq. destruct (eqb (kind r) k), (groupid r); done.
Qed.

Lemma terminals_last_before ended l1 r l2 g :
  terminals_last ended (l1 ++ r :: l2) = true → groupid r = Some g → is_terminal r = false →
  g ∉ ended ∪ committed_groups l1 ∪ aborted_groups l1.
Proof.
  intros Ht Hg Hnt. revert ended Ht. induction l1 as [|t l1 IH]; intros ended Ht; simpl in Ht.
  - rewrite Hg, Hnt in Ht. apply andb_true_iff in Ht as [Ht _]. apply bool_decide_eq_true in Ht. set_solver.
  - unfold committed_groups, aborted_groups in *. rewrite !groups_of_kind_cons.
    unfold is_terminal in Ht. destruct (groupid t) as [h|]; [|by apply IH].
    destruct (eqb (kind t) WriteCommit) eqn:Ec, (eqb (kind t) WriteAbort) eqn:Ea; simpl in Ht;
      try (specialize (IH _ Ht); set_solver).
    apply andb_true_iff in Ht as [_ Ht]. by apply IH.
Qed.

(** Behind a record of the group, the groups seen so far decide its visibility. *)
Lemma visible_suffix records l1 r l2 :
  terminals_last ∅ records = true → records = l1 ++ r :: l2 → is_terminal r = false →
  record_visible_for_live_row_apply r (committed_groups l2) (aborted_groups l2)
  = record_visible_for_live_row_apply r (committed_groups records) (aborted_groups records).
Proof.
  intros Ht -> Hnt. unfold record_visible_for_live_row_apply. destruct (groupid r) as [g|] eqn:Hg; [|done].
  pose proof (terminals_last_before ∅ l1 r l2 g Ht Hg Hnt) as Hout.
  assert (∀ k, k = WriteCommit ∨ k = WriteAbort →
    g ∈ groups_of_kind k (l1 ++ r :: l2) ↔ g ∈ groups_of_kind k l2) as Hsame.
  { intros k Hk. rewrite groups_of_kind_app, groups_of_kind_cons, Hg.
    unfold is_terminal in Hnt. apply orb_false_iff in Hnt as [Hc Ha].
    unfold committed_groups, aborted_groups in Hout.
    destruct Hk as [-> | ->]; rewrite ?Hc, ?Ha; set_solver. }
  unfold committed_groups, aborted_groups.
  rewrite (bool_decide_ext _ _ (Hsame WriteAbort (or_intror eq_refl))).
  rewrite (bool_decide_ext (g ∉ groups_of_kind WriteCommit l2)
             (g ∉ groups_of_kind WriteCommit (l1 ++ r :: l2))); [done|].
  by rewrite (Hsame WriteCommit) by auto.
Qed.

Lemma unique_ids_split l1 r l2 :
  unique_ids (l1 ++ r :: l2) → Forall (λ e, id e < id r) l1 ∧ Forall (λ e, id r < id e) l2.
Proof.
  unfold unique_ids. rewrite StronglySorted_app. intros (Hx & _ & Hs). inversion Hs; subst.
  split; [|done]. rewrite Forall_forall. intros e He. apply Hx; set_solver.
Qed.

(** The deletions behind a row are the ones that can delete it. *)
Lemma deleted_suffix c a l1 r l2 :
  unique_ids (l1 ++ r :: l2) → refs_back (l1 ++ r :: l2) → kind r ≠ Delete →
  id r ∈ deleted_ids c a l2 ↔ id r ∈ deleted_ids c a (l1 ++ r :: l2).
Proof.
  intros Hu Hb Hk. destruct (unique_ids_split _ _ _ Hu) as [Hl1 _].
  apply Forall_app in Hb as [Hb _]. pose proof (deleted_ids_below c a l1 _ Hb Hl1) as Hn.
  rewrite deleted_ids_app. change (r :: l2) with ([r] ++ l2). rewrite deleted_ids_app.
  assert (deleted_ids c a [r] = ∅) as ->; [|set_solver].
  unfold deleted_ids, visible_delete. simpl. rewrite (proj2 (eqb_false _ _) Hk), andb_false_r. done.
Qed.

Section bounded.
Context (records : list TransactionRecord) (max_rows : nat).
Context (Hunique : unique_ids records) (Hback : refs_back records)
  (Hlast : terminals_last ∅ records = true).

#[local] Abbreviation C := (committed_groups records).
#[local] Abbreviation A := (aborted_groups records).

(** The live rows among a prefix of the log. *)
#[local] Abbreviation rows_in l := (filter (λ p, p.1 ∉ deleted_ids C A records) (visible_rows C A l)).

Lemma rows_in_snoc l r :
  rows_in (l ++ [r])
  = rows_in l ++ match visible_row C A r with
                 | Some p => if decide (p.1 ∉ deleted_ids C A records) then [p] else []
                 | None => [] end.
Proof.
  rewrite visible_rows_snoc, filter_app. f_equal. destruct (visible_row C A r); [|done].
  simpl. by rewrite filter_cons, filter_nil.
Qed.

(** A record of the scan that is no live row leaves the rows as they are. *)
Lemma rows_in_snoc_none l r : record_row r = None → rows_in (l ++ [r]) = rows_in l.
Proof.
  intros Hr. rewrite rows_in_snoc. unfold visible_row. rewrite Hr.
  destruct (record_visible_for_live_row_apply r C A); by rewrite app_nil_r.
Qed.

(** What the scan has seen after [r]. *)
Lemma committed_cons r l2 :
  committed_groups (r :: l2)
  = match groupid r with
    | Some g => if eqb (kind r) WriteCommit then {[g]} ∪ committed_groups l2 else committed_groups l2
    | None => committed_groups l2 end.
Proof. apply groups_of_kind_cons. Qed.

Lemma aborted_cons r l2 :
  aborted_groups (r :: l2)
  = match groupid r with
    | Some g => if eqb (kind r) WriteAbort then {[g]} ∪ aborted_groups l2 else aborted_groups l2
    | None => aborted_groups l2 end.
Proof. apply groups_of_kind_cons. Qed.

Lemma deleted_cons r l2 :
  deleted_ids C A (r :: l2)
  = match refid r with
    | Some x => if record_visible_for_live_row_apply r C A && eqb (kind r) Delete
                then {[x]} ∪ deleted_ids C A l2 else deleted_ids C A l2
    | None => deleted_ids C A l2 end.
Proof.
  unfold deleted_ids. rewrite omap_cons_eq. unfold visible_delete at 1.
  destruct (_ && _), (refid r); done.
Qed.

(** A record that is no row: the scan goes on with what it has seen. *)
Lemma limited_scan_other l1 r l2 live :
  records = l1 ++ r :: l2 → kind r ≠ Insert → kind r ≠ Update →
  limited_scan max_rows (r :: reverse l1) (committed_groups l2) (aborted_groups l2) (deleted_ids C A l2) live
  = limited_scan max_rows (reverse l1) (committed_groups (r :: l2)) (aborted_groups (r :: l2))
      (deleted_ids C A (r :: l2)) live.
Proof.
  intros Hrec Hi Hu. rewrite committed_cons, aborted_cons, deleted_cons. cbn [limited_scan].
  destruct (is_terminal r) eqn:Et.
  - unfold is_terminal in Et. destruct (kind r) eqn:Ek; try discriminate Et; cbn;
      rewrite andb_false_r; destruct (groupid r), (refid r); done.
  - rewrite (visible_suffix records l1 r l2 Hlast Hrec Et). unfold is_terminal in Et.
    destruct (kind r) eqn:Ek; try discriminate Et; try done; cbn;
      rewrite ?andb_false_r, ?andb_true_r; destruct (groupid r), (refid r); done.
Qed.

(** A row: it is pushed when it is live. *)
Lemma limited_scan_row l1 r l2 live :
  records = l1 ++ r :: l2 → kind r = Insert ∨ kind r = Update →
  limited_scan max_rows (r :: reverse l1) (committed_groups l2) (aborted_groups l2) (deleted_ids C A l2) live
  = let continue live := limited_scan max_rows (reverse l1) (committed_groups (r :: l2))
                           (aborted_groups (r :: l2)) (deleted_ids C A (r :: l2)) live in
    match visible_row C A r with
    | Some p =>
        if decide (p.1 ∉ deleted_ids C A records)
        then if Nat.leb max_rows (length (live ++ [p])) then live ++ [p] else continue (live ++ [p])
        else continue live
    | None => continue live
    end.
Proof.
  intros Hrec Hk. assert (is_terminal r = false) as Et by (unfold is_terminal; by destruct Hk as [-> | ->]).
  assert (kind r ≠ Delete) as Hd by (destruct Hk; congruence).
  rewrite committed_cons, aborted_cons, deleted_cons, (proj2 (eqb_false _ _) Hd), andb_false_r.
  pose proof Et as [Hc Ha]%orb_false_iff. rewrite Hc, Ha. cbn [limited_scan].
  rewrite (visible_suffix records l1 r l2 Hlast Hrec Et).
  pose proof (deleted_suffix C A l1 r l2) as Hdel. rewrite <- Hrec in Hdel.
  rewrite (bool_decide_ext _ _ (Hdel Hunique Hback Hd)). unfold visible_row.
  destruct Hk as [-> | ->]; destruct (record_visible_for_live_row_apply r C A), (groupid r), (refid r),
    (record_row r) as [row|]; cbn;
    try (destruct (decide (id r ∉ deleted_ids C A records));
         [rewrite bool_decide_false by done|rewrite bool_decide_true by (by apply dec_stable)]);
    try done; by destruct (bool_decide _).
Qed.

Lemma limited_scan_spec l1 l2 live :
  records = l1 ++ l2 → (length live < max_rows)%nat →
  limited_scan max_rows (reverse l1) (committed_groups l2) (aborted_groups l2) (deleted_ids C A l2) live
  = live ++ take (max_rows - length live) (reverse (rows_in l1)).
Proof.
  revert l2 live. induction l1 as [|r l1 IH] using rev_ind; intros l2 live Hrec Hlen.
  { change (reverse (rows_in [])) with (@nil (Z * Row)). by rewrite take_nil, app_nil_r. }
  rewrite <- app_assoc in Hrec. specialize (IH (r :: l2)). rewrite reverse_snoc.
  destruct (decide (kind r = Insert ∨ kind r = Update)) as [Hk|Hk].
  - rewrite limited_scan_row, rows_in_snoc by done. cbn zeta.
    destruct (visible_row C A r) as [p|]; [|by rewrite app_nil_r, IH].
    destruct (decide (p.1 ∉ _)); [|by rewrite app_nil_r, IH].
    rewrite reverse_snoc, length_app. cbn [length].
    destruct (Nat.leb_spec max_rows (length live + 1)).
    + replace (max_rows - length live)%nat with 1%nat by lia. done.
    + rewrite IH; [|done|rewrite length_app; simpl; lia]. rewrite length_app, <- app_assoc. cbn [length].
      replace (max_rows - length live)%nat with (S (max_rows - (length live + 1))) by lia. done.
  - rewrite limited_scan_other by tauto. rewrite rows_in_snoc_none; [by apply IH|].
    destruct (record_row r) as [row|] eqn:Er; [|done]. by apply record_row_kind in Er.
Qed.
End bounded.

(** ** Properties *)

Section properties.
Context `{Env}.

(** C32: The live rows do not depend on how many threads decode them: for every number of
    available processors and every configured worker bound, and also when the log is long enough
    for the chunked parallel replay, the rows returned (with their order) are those of the serial
    replay. *)
Theorem parallel_replay_is_serial (available_workers : Z) (records : list TransactionRecord) :
  collect_live_rows_from_records available_workers records
  = let live := serial_apply (committed_groups records) (aborted_groups records) records (∅, []) in
    finalize live.2 live.1.
Proof. apply collect_replay. Qed.

(** C30: On a log with increasing ids whose references point back, replay returns exactly the rows
    of the inserts and updates whose write group is committed and not aborted (or that have no
    group), that decode, and that no visible delete refers to, in log order and each once. *)
Theorem replay_returns_live_rows (available_workers : Z) (records : list TransactionRecord) :
  unique_ids records → refs_back records →
  collect_live_rows_from_records available_workers records = live_rows_of records
  ∧ NoDup (collect_live_rows_from_records available_workers records).*1.
Proof.
  intros Hu Hb. rewrite collect_replay, replay_live_rows by done. split; [done|].
  eapply sublist_NoDup; [by apply (visible_rows_nodup (committed_groups records) (aborted_groups records))|].
  unfold live_rows_of, live_of. apply fmap_sublist, sublist_filter.
Qed.

(** C2: Atomicity on replay: a write group that was aborted, or whose commit never reached the
    log, leaves no trace. The rows are those of the log without any record of the group, whatever
    the group inserted, updated or deleted and wherever its records lie. *)
Theorem hidden_group_leaves_no_trace (available_workers : Z) (records : list TransactionRecord) (g : Z) :
  group_hidden records g →
  collect_live_rows_from_records available_workers records
  = collect_live_rows_from_records available_workers (filter (λ r, groupid r ≠ Some g) records).
Proof. intros Hh. rewrite !collect_replay. symmetry. by apply replay_without. Qed.

(** The bounded replay, which reads the log backwards and stops early, returns the last
    [max_rows] rows of the full replay, when ids increase, references point back and no record of a
    write group follows the group's commit or abort. *)
Theorem limited_replay_is_suffix (available_workers : Z) (records : list TransactionRecord) (max_rows : nat) :
  (0 < max_rows)%nat → unique_ids records → refs_back records → terminals_last ∅ records = true →
  collect_live_rows_from_records_limited records max_rows
  = let rows := collect_live_rows_from_records available_workers records in
    drop (length rows - max_rows) rows.
Proof.
  intros Hm Hu Hb Hl. rewrite collect_replay, replay_live_rows by done.
  unfold collect_live_rows_from_records_limited.
  pose proof (limited_scan_spec records max_rows Hu Hb Hl records [] []) as E.
  rewrite app_nil_r in E. specialize (E eq_refl Hm). cbn [length app] in E.
  rewrite Nat.sub_0_r in E. etransitivity; [apply (f_equal reverse); exact E|].
  by rewrite take_reverse, reverse_involutive.
Qed.
End properties.
End live_rows.

(** ** Realignment and write groups *)

(** Realignment forgets write groups.  The groups of transactions are named by the clock, not
    by a record of the stream, so realignment finds no new position for them and drops the group
    of their records: a row of an aborted or unfinished transaction, invisible before, is a visible
    row of the realigned stream. *)
Theorem realignment_exposes_hidden_rows {Row} (decode_row : bytes → option Row) entries out i r g row :
  unique_ids entries → realign_records entries = Ok out →
  filter (λ r, kind r ≠ Ignore) entries !! i = Some r →
  groupid r = Some g → (∀ e, e ∈ entries → id e ≠ g) → group_hidden entries g →
  record_row decode_row r = Some row →
  visible_row decode_row (committed_groups entries) (aborted_groups entries) r = None ∧
  ∃ r', out !! i = Some r' ∧
        visible_row decode_row (committed_groups out) (aborted_groups out) r' = Some (Z.of_nat i, row).
Proof.
  intros Hu Hout Hi Hg Hno Hh Hrow. split.
  - unfold visible_row, record_visible_for_live_row_apply. rewrite Hg.
    destruct Hh as [Ha|Hc]; [by rewrite bool_decide_true|]. rewrite (bool_decide_true (g ∉ _)) by done.
    destruct (bool_decide _); [done|]. by destruct (record_row_kind _ _ _ Hrow) as [-> | ->].
  - pose proof (realign_drops_foreign_group entries out i r g Hu Hout Hi Hg Hno) as Hnone.
    rewrite (realign_lookup _ _ _ _ Hu Hout Hi) in Hnone. simpl in Hnone. injection Hnone as Hnone.
    eexists. split; [apply (realign_lookup _ _ _ _ Hu Hout Hi)|].
    unfold visible_row, record_visible_for_live_row_apply. cbn [groupid set_groupid]. rewrite Hnone.
    assert (∀ a b c x, record_row decode_row (set_groupid a (set_refid b (set_id c x))) = record_row decode_row x)
      as -> by done.
    by rewrite Hrow.
Qed.
