(* ===== verification/Replay.v ===== *)
(** * Replay of a growing log

    How the live rows change when records are appended to a well-formed log: a visible insert adds
    its row, a visible delete removes the row it refers to, a record of an open write group changes
    nothing, and the commit of a group publishes everything the group wrote at once. *)

From Stdlib Require Import ZArith Lia Strings.Byte.
From stdpp Require Import base list gmap strings sorting.
From S2P Require Import Prelude Record Wal LiveRows.

(** Ids increase and references point back. *)
Definition log_wf (l : list TransactionRecord) : Prop := unique_ids l ∧ refs_back l.

Lemma log_wf_app l1 l2 :
  log_wf (l1 ++ l2) ↔
  log_wf l1 ∧ log_wf l2 ∧ (∀ a b, a ∈ l1 → b ∈ l2 → id a < id b).
Proof.
  unfold log_wf, unique_ids, refs_back. rewrite StronglySorted_app, Forall_app. naive_solver.
Qed.

Lemma merge_fresh entries record `{BinarySearch} :
  Forall (λ e, id e < id record) entries → merge_record entries record = entries ++ [record].
Proof.
  intros Hf. unfold merge_record, place, is_ordered.
  destruct (last entries) as [l|] eqn:E; [|done].
  rewrite Forall_forall in Hf. specialize (Hf l (last_Some_elem_of _ _ E)).
  by rewrite (proj2 (Z.ltb_lt _ _) Hf).
Qed.

Lemma foldl_merge_fresh `{BinarySearch} records entries :
  unique_ids (entries ++ records) → foldl merge_record entries records = entries ++ records.
Proof.
  revert entries. induction records as [|r records IH]; intros entries Hu; [by rewrite app_nil_r|].
  destruct (unique_ids_split _ _ _ Hu) as [Hlt _]. cbn [foldl]. rewrite merge_fresh by done.
  rewrite IH, <- app_assoc; [done|]. by rewrite <- app_assoc.
Qed.

Section replay_growth.
Context {Row : Type} (decode_row : bytes → option Row).

Abbreviation rows_of := (live_rows_of decode_row).

(** Records that end no group leave the visibility of the others as it is. *)
Lemma groups_app_other k l1 l2 :
  Forall (λ r, kind r ≠ k) l2 → groups_of_kind k (l1 ++ l2) = groups_of_kind k l1.
Proof.
  intros Hk. rewrite groups_of_kind_app. assert (groups_of_kind k l2 = ∅) as ->; [|set_solver].
  unfold groups_of_kind. induction Hk as [|r l Hr _ IH]; [done|]. rewrite omap_cons_eq.
  rewrite (proj2 (eqb_false _ _) Hr). done.
Qed.

Lemma terminal_kinds l :
  Forall (λ r, is_terminal r = false) l →
  Forall (λ r, kind r ≠ WriteCommit) l ∧ Forall (λ r, kind r ≠ WriteAbort) l.
Proof.
  rewrite !Forall_forall. intros Hl. split; intros r Hr; specialize (Hl r Hr);
    apply orb_false_iff in Hl as [Hc Ha]; by apply eqb_false.
Qed.

Lemma groups_app_rows l1 l2 :
  Forall (λ r, is_terminal r = false) l2 →
  committed_groups (l1 ++ l2) = committed_groups l1 ∧ aborted_groups (l1 ++ l2) = aborted_groups l1.
Proof. intros [Hc Ha]%terminal_kinds. split; by apply groups_app_other. Qed.

Lemma visible_rows_elem c a l p :
  p ∈ visible_rows decode_row c a l → ∃ r, r ∈ l ∧ p.1 = id r.
Proof.
  unfold visible_rows. intros (r & Hr & Hp)%list_elem_of_omap.
  apply visible_row_Some in Hp as (E & _). eauto.
Qed.

(** The live rows of an extended log: the old ones that the extension does not delete, then the
    visible ones of the extension. *)
Lemma live_rows_app l1 l2 :
  Forall (λ r, is_terminal r = false) l2 → log_wf (l1 ++ l2) →
  let deleted := deleted_ids (committed_groups l1) (aborted_groups l1) l2 in
  rows_of (l1 ++ l2)
  = filter (λ p, p.1 ∉ deleted) (rows_of l1)
    ++ filter (λ p, p.1 ∉ deleted) (visible_rows decode_row (committed_groups l1) (aborted_groups l1) l2).
Proof.
  intros Ht Hwf deleted. destruct (groups_app_rows l1 l2 Ht) as [Ec Ea].
  apply log_wf_app in Hwf as ([_ Hb1] & _ & Hlt).
  unfold live_rows_of, live_of. rewrite Ec, Ea, deleted_ids_app. fold deleted.
  unfold visible_rows. rewrite omap_app, filter_app. f_equal.
  - rewrite list_filter_filter. apply list_filter_iff. intros p. set_solver.
  - apply filter_ext_in. intros p Hp. apply visible_rows_elem in Hp as (r & Hr & ->).
    pose proof (deleted_ids_below (committed_groups l1) (aborted_groups l1) l1 (id r) Hb1) as Hn.
    assert (id r ∉ deleted_ids (committed_groups l1) (aborted_groups l1) l1); [|set_solver].
    apply Hn. rewrite Forall_forall. intros e He. by apply Hlt.
Qed.

(** An ungrouped row. *)
Lemma live_rows_insert l r row :
  log_wf (l ++ [r]) → groupid r = None → record_row decode_row r = Some row →
  rows_of (l ++ [r]) = rows_of l ++ [(id r, row)].
Proof.
  intros Hwf Hg Hrow.
  assert (is_terminal r = false ∧ kind r ≠ Delete) as [Ht Hd].
  { unfold is_terminal. by destruct (record_row_kind _ _ _ Hrow) as [-> | ->]. }
  rewrite live_rows_app; [|by repeat constructor|done]. cbn zeta.
  assert (deleted_ids (committed_groups l) (aborted_groups l) [r] = ∅) as ->.
  { unfold deleted_ids, visible_delete. simpl. by rewrite (proj2 (eqb_false _ _) Hd), andb_false_r. }
  rewrite !filter_all; [|apply Forall_true; set_solver..]. f_equal.
  unfold visible_rows, visible_row, record_visible_for_live_row_apply. simpl. by rewrite Hg, Hrow.
Qed.

(** An ungrouped deletion. *)
Lemma live_rows_delete l r x :
  log_wf (l ++ [r]) → groupid r = None → kind r = Delete → refid r = Some x →
  rows_of (l ++ [r]) = filter (λ p, p.1 ≠ x) (rows_of l).
Proof.
  intros Hwf Hg Hk Href.
  rewrite live_rows_app; [|by repeat constructor; unfold is_terminal; rewrite Hk|done]. cbn zeta.
  assert (deleted_ids (committed_groups l) (aborted_groups l) [r] = {[x]}) as ->.
  { unfold deleted_ids, visible_delete, record_visible_for_live_row_apply. simpl. rewrite Hg, Hk, Href. simpl.
    set_solver. }
  replace (visible_rows decode_row _ _ [r]) with (@nil (Z * Row)).
  - rewrite filter_nil, app_nil_r. apply list_filter_iff. set_solver.
  - unfold visible_rows, visible_row, record_row. simpl. rewrite Hk. by destruct (record_visible_for_live_row_apply _ _ _).
Qed.

(** A record that is neither a row nor a deletion nor the end of a group changes nothing. *)
Lemma live_rows_other l r :
  log_wf (l ++ [r]) → is_terminal r = false → kind r ≠ Delete → kind r ≠ Insert → kind r ≠ Update →
  rows_of (l ++ [r]) = rows_of l.
Proof.
  intros Hwf Ht Hd Hi Hu. rewrite live_rows_app; [|by repeat constructor|done]. cbn zeta.
  assert (deleted_ids (committed_groups l) (aborted_groups l) [r] = ∅) as ->.
  { unfold deleted_ids, visible_delete. simpl. by rewrite (proj2 (eqb_false _ _) Hd), andb_false_r. }
  rewrite filter_all by (apply Forall_true; set_solver).
  replace (visible_rows decode_row _ _ [r]) with (@nil (Z * Row)); [by rewrite filter_nil, app_nil_r|].
  unfold visible_rows, visible_row, record_row. simpl.
  rewrite (proj2 (eqb_false _ _) Hi), (proj2 (eqb_false _ _) Hu). by destruct (record_visible_for_live_row_apply _ _ _).
Qed.

(** A batch of ungrouped inserts. *)
Lemma live_rows_inserts l1 l2 :
  log_wf (l1 ++ l2) → Forall (λ r, groupid r = None ∧ kind r = Insert) l2 →
  rows_of (l1 ++ l2)
  = rows_of l1 ++ omap (λ r, pair (id r) <$> (payload_logical r ≫= decode_row)) l2.
Proof.
  intros Hwf Hall. rewrite Forall_forall in Hall. rewrite live_rows_app; [|apply Forall_forall|done].
  2: { intros r Hr. unfold is_terminal. by rewrite (proj2 (Hall r Hr)). }
  cbn zeta. assert (deleted_ids (committed_groups l1) (aborted_groups l1) l2 = ∅) as ->.
  { apply set_eq. intros x. split; [|set_solver]. intros (d & Hd & Hv)%elem_of_deleted_ids.
    apply visible_delete_Some in Hv as (Hk & _). destruct (Hall d Hd). congruence. }
  rewrite !filter_all by (apply Forall_true; set_solver). f_equal.
  unfold visible_rows. apply list_omap_ext, Forall2_same_length_lookup. split; [done|].
  intros i r r' Hr Hr'. assert (r = r') as <- by congruence.
  destruct (Hall r (list_elem_of_lookup_2 _ _ _ Hr)) as [Hg Hk].
  unfold visible_row, record_visible_for_live_row_apply, record_row. by rewrite Hg, Hk.
Qed.

(** ** Write groups *)

(** The record as if its group did not exist. *)
Definition ungroup (g : Z) (r : TransactionRecord) : TransactionRecord :=
  if eqb (groupid r) (Some g) then set_groupid None r else r.

Lemma ungroup_fields g r :
  kind (ungroup g r) = kind r ∧ id (ungroup g r) = id r ∧ refid (ungroup g r) = refid r
  ∧ record_row decode_row (ungroup g r) = record_row decode_row r.
Proof. unfold ungroup. by destruct (eqb _ _). Qed.

Lemma ungroup_groups k g l : groups_of_kind k (ungroup g <$> l) = groups_of_kind k l ∖ {[g]}.
Proof.
  apply set_eq. intros x. rewrite elem_of_difference, !elem_of_groups, elem_of_singleton. split.
  - intros (r' & (r & -> & Hr)%list_elem_of_fmap & Hk & Hx). unfold ungroup in *.
    destruct (eqb (groupid r) (Some g)) eqn:E; [done|]. apply eqb_false in E.
    split; [by exists r|]. intros ->. congruence.
  - intros ((r & Hr & Hk & Hx) & Hne). exists (ungroup g r). split; [by apply list_elem_of_fmap_2|].
    unfold ungroup. rewrite (proj2 (eqb_false _ _)) by congruence. done.
Qed.

(** Before its end a group is invisible; its commit makes it as visible as ungrouped records. *)
Lemma visible_committed g l r c :
  g ∉ aborted_groups l → kind c = WriteCommit → groupid c = Some g →
  record_visible_for_live_row_apply r (committed_groups (l ++ [c])) (aborted_groups (l ++ [c]))
  = record_visible_for_live_row_apply (ungroup g r) (committed_groups (ungroup g <$> l))
      (aborted_groups (ungroup g <$> l)).
Proof.
  intros Hna Hk Hg. unfold committed_groups, aborted_groups in *. rewrite !ungroup_groups, !groups_of_kind_app.
  rewrite !groups_of_kind_cons, Hg, Hk. cbn. unfold record_visible_for_live_row_apply, ungroup.
  destruct (eqb (groupid r) (Some g)) eqn:E.
  - apply eqb_eq in E. rewrite E. simpl. rewrite bool_decide_false by set_solver.
    by rewrite (bool_decide_false (g ∉ _)) by set_solver.
  - apply eqb_false in E. destruct (groupid r) as [h|]; [|done]. assert (h ≠ g) by congruence.
    rewrite (bool_decide_ext (h ∈ groups_of_kind WriteAbort l ∪ _) (h ∈ groups_of_kind WriteAbort l ∖ {[g]})) by set_solver.
    by rewrite (bool_decide_ext (h ∉ groups_of_kind WriteCommit l ∪ _) (h ∉ groups_of_kind WriteCommit l ∖ {[g]})) by set_solver.
Qed.

Lemma replay_commit g l c :
  g ∉ aborted_groups l → kind c = WriteCommit → groupid c = Some g →
  replay decode_row (l ++ [c]) = replay decode_row (ungroup g <$> l).
Proof.
  intros Hna Hk Hg. unfold replay, serial_apply. rewrite foldl_snoc.
  assert (∀ live, apply_record decode_row (committed_groups (l ++ [c])) (aborted_groups (l ++ [c])) live c = live)
    as ->.
  { intros live. unfold apply_record. rewrite Hk. by destruct (record_visible_for_live_row_apply _ _ _). }
  assert (∀ m live,
    foldl (apply_record decode_row (committed_groups (l ++ [c])) (aborted_groups (l ++ [c]))) live m
    = foldl (apply_record decode_row (committed_groups (ungroup g <$> l)) (aborted_groups (ungroup g <$> l)))
        live (ungroup g <$> m)) as E; [|by rewrite (E l)].
  induction m as [|r m IH]; intros live; [done|]. cbn [foldl fmap list_fmap]. rewrite IH. f_equal.
  unfold apply_record, remove_row. destruct (ungroup_fields g r) as (-> & -> & -> & ->).
  by rewrite (visible_committed g l r c Hna Hk Hg).
Qed.

Lemma replay_open_group g l r :
  group_hidden l g → groupid r = Some g → is_terminal r = false →
  replay decode_row (l ++ [r]) = replay decode_row l.
Proof.
  intros Hh Hg Ht. destruct (groups_app_rows l [r]) as [Ec Ea]; [by repeat constructor|].
  rewrite <- (replay_without decode_row l g Hh), <- (replay_without decode_row (l ++ [r]) g).
  - rewrite filter_app, filter_cons_False, filter_nil, app_nil_r by (by intros []). done.
  - unfold group_hidden. by rewrite Ec, Ea.
Qed.
End replay_growth.
