(* ===== verification/WalOps.v ===== *)
(** * Row writes and write groups

    Models [server/src/core/mappings/query/core/wal_ops.rs] and the block-wise inserts of
    [mutation_ops.rs]: how the statement executor turns row changes into records of a table's
    stream, and how a transaction's write group is committed or aborted.

    The stream and the payload context of a table come from its catalog entry and are arguments
    here.  The structures derived from the rows (runtime indexes, their snapshots, the equality
    caches) are one abstract state; the operations on it are the class [DerivedState], and no result
    depends on what they do.  The clock is an argument.  A
    formatted error message is represented by its constant part. *)

From Stdlib Require Import ZArith Lia Strings.Byte.
From stdpp Require Import base list gmap strings sorting.
From S2P Require Import Prelude Settings Record RowPayload WalFile Wal WalManager WalManagerFacts LiveRows Replay.

Definition encode_write_group_terminal_payload (expected_count : Z) : bytes := to_le_bytes 8 expected_count.

(** [id.0 + 1], which wraps in a release build. *)
Definition next_transaction_id (last_id : option TransactionId) : TransactionId :=
  match last_id with Some i => (i + 1) mod (u64_max + 1) | None => 1 end.

Definition INSERT_VALUE_BLOCK_MAX_ROWS : nat := 64.

(** The operations on the structures derived from the rows of a table, with what the code passes
    to them: the stream, the kind and id of the change, the rows, the row referred to. *)
Class DerivedState (Row Derived : Type) := {
  apply_table_row_mutation : ustr → TransactionKind → Z → Row → option Z → Derived → Derived;
  apply_equality_cache_row_mutation : ustr → Z → TransactionKind → Z → Row → Derived → Derived;
  apply_runtime_index_and_equality_batch : ustr → Z → Z → TransactionKind → list Row → Derived → Derived;
  persist_table_snapshot_on_commit : ustr → WalState → Derived → Derived;
  rebuild_runtime_indexes_for_table : ustr → WalState → Derived → Derived
}.

Section wal_ops.
Context `{RowCrypto} `{Zlib} `{Env} `{BinarySearch} `{Digest}.
Context `{Bincode EncryptedRowPayloadEnvelope} `{Bincode LegacyEncryptedRowPayloadEnvelope}.
Context `{Bincode TransactionRecord}.

(** [UserId::from_username]. *)
Definition from_username (username : ustr) : UserId := stable_id [to_ascii_lowercase (trim username)].

(** ** Records of a stream *)

Definition in_group (group_id : Z) (record : TransactionRecord) : bool :=
  eqb (groupid record) (Some group_id)
  && negb (eqb (kind record) WriteBegin || eqb (kind record) WriteCommit || eqb (kind record) WriteAbort).

Definition group_count (group_id : Z) (records : list TransactionRecord) : Z :=
  Z.of_nat (length (filter (λ r, Is_true (in_group group_id r)) records)).

Definition grouped_stream_expected_record_count (stream_id : ustr) (group_id : Z) (wal : WalState) : Z * WalState :=
  let '(count, wal) := with_records stream_id (group_count group_id) wal in (default 0 count, wal).

Definition append_payload_record_with_group (wal_id : ustr) (k : TransactionKind) (payload : bytes)
    (timestamp_epoch_ms : Z) (group_id : option Z) (wal : WalState) : result TransactionId string * WalState :=
  let '(last_id, wal) := latest_transaction_id wal_id wal in
  let next_id := next_transaction_id last_id in
  let record_group_id :=
    match group_id with
    | Some g => Some g
    | None => if eqb k WriteBegin then Some next_id else None
    end in
  let record :=
    with_payload next_id record_group_id last_id timestamp_epoch_ms (from_username (lit "server")) k payload in
  let '(r, wal) := append_with_context wal_id record default_transaction_payload_context wal in
  match r with Err e => (Err e, wal) | Ok _ => (Ok next_id, wal) end.

Definition append_payload_record (wal_id : ustr) (k : TransactionKind) (payload : bytes)
    (timestamp_epoch_ms : Z) (wal : WalState) : result unit string * WalState :=
  let '(r, wal) := append_payload_record_with_group wal_id k payload timestamp_epoch_ms None wal in
  match r with Err e => (Err e, wal) | Ok _ => (Ok tt, wal) end.

(** ** Rows of a table *)

(** The table: how its rows are decoded, and whether it has derived indexes. *)
Context {Row Derived : Type} `{DerivedState Row Derived} (decode_row : bytes → option Row)
  (track_runtime_indexes : bool).

Abbreviation St := (WalState * Derived)%type.

Definition load_live_rows_with_context (available_workers : Z) (stream_id : ustr)
    (context : TransactionPayloadContext) (wal : WalState) : result (list (Z * Row)) string * WalState :=
  let '(records, wal) := since_with_context stream_id None context wal in
  (match records with
   | Err e => Err e
   | Ok records => Ok (collect_live_rows_from_records decode_row available_workers records)
   end, wal).

Definition is_row_kind (k : TransactionKind) : bool := eqb k Insert || eqb k Update || eqb k Delete.

(** The check of the row a mutation refers to. *)
Definition check_live_row (available_workers : Z) (stream_id : ustr) (context : TransactionPayloadContext)
    (refid : option Z) (expected_live_row_ids : option (gset Z)) (wal : WalState) : result unit string * WalState :=
  match refid with
  | None => (Ok tt, wal)
  | Some expected_refid =>
      let '(live_row_exists, wal) :=
        match expected_live_row_ids with
        | Some live_row_ids => (Ok (bool_decide (expected_refid ∈ live_row_ids)), wal)
        | None =>
            let '(rows, wal) := load_live_rows_with_context available_workers stream_id context wal in
            (match rows with
             | Err _ => Err "live row load failed"
             | Ok rows => Ok (bool_decide (expected_refid ∈ rows.*1))
             end, wal)
        end in
      (match live_row_exists with
       | Err e => Err e
       | Ok true => Ok tt
       | Ok false => Err "row mutation references stale or missing live transaction id"
       end, wal)
  end.

Definition append_row_payload_record_with_live_row_ids_and_prepared_row_map (available_workers : Z)
    (stream_id : ustr) (payload_context : TransactionPayloadContext) (k : TransactionKind) (payload : bytes)
    (timestamp_epoch_ms : Z) (refid : option Z) (expected_live_row_ids : option (gset Z))
    (prepared_row_map : option Row) (group_id : option Z) (st : St) : result unit string * St :=
  let '(wal, derived) := st in
  let '(checked, wal) :=
    check_live_row available_workers stream_id payload_context refid expected_live_row_ids wal in
  match checked with
  | Err e => (Err e, (wal, derived))
  | Ok _ =>
      let '(last_id, wal) := latest_transaction_id stream_id wal in
      let next_id := next_transaction_id last_id in
      let refid := match refid with Some x => Some x | None => last_id end in
      let apply_row_index_mutation := track_runtime_indexes && is_row_kind k in
      let decoded_row_map :=
        if apply_row_index_mutation && is_none prepared_row_map then
          match decode_row payload with
          | Some row => Ok (Some row)
          | None => Err "row payload decode failed"
          end
        else Ok None in
      match decoded_row_map with
      | Err e => (Err e, (wal, derived))
      | Ok decoded_row_map =>
          let record :=
            with_payload next_id group_id refid timestamp_epoch_ms (from_username (lit "server")) k payload in
          let '(r, wal) := append_with_context stream_id record payload_context wal in
          match r with
          | Err e => (Err e, (wal, derived))
          | Ok _ =>
              if apply_row_index_mutation then
                match (match prepared_row_map with Some m => Some m | None => decoded_row_map end) with
                | None => (Err "row payload decode failed: missing row map for index mutation", (wal, derived))
                | Some row_map =>
                    let equality_cache_row_id := match k with Delete => default next_id refid | _ => next_id end in
                    (Ok tt,
                     (wal, apply_equality_cache_row_mutation stream_id next_id k equality_cache_row_id row_map
                             (apply_table_row_mutation stream_id k next_id row_map refid derived)))
                end
              else (Ok tt, (wal, derived))
          end
      end
  end.

(** The loop that builds the records of a batch, with the decoded rows when they are wanted. *)
Fixpoint materialize (decode : bool) (k : TransactionKind) (timestamp_epoch_ms : Z) (group_id : option Z)
    (next_id : Z) (refid : option Z) (payloads : list bytes)
    : result (list TransactionRecord * list Row * Z) string :=
  match payloads with
  | [] => Ok ([], [], next_id)
  | payload :: rest =>
      let? row_map := (if decode then
                         match decode_row payload with
                         | Some row => Ok [row]
                         | None => Err "row payload decode failed"
                         end
                       else Ok []) in
      let tx_id := next_id in
      let record :=
        with_payload tx_id group_id refid timestamp_epoch_ms (from_username (lit "server")) k payload in
      let? (records, row_maps, next_id) :=
        materialize decode k timestamp_epoch_ms group_id (saturating_add next_id 1) (Some tx_id) rest in
      Ok (record :: records, row_map ++ row_maps, next_id)
  end.

(** The check that the last records of the stream are the batch. *)
Definition row_refs_align (first_row_id : Z) (payload_count : nat) (k : TransactionKind)
    (wal_records : list TransactionRecord) : bool :=
  let appended_records := take payload_count (reverse wal_records) in
  Nat.eqb (length appended_records) payload_count
  && forallb (λ p, (id p.2 =? saturating_add first_row_id (Z.of_nat p.1)) && eqb (kind p.2) k)
       (imap pair (reverse appended_records)).

Definition append_row_payload_records_batch (stream_id : ustr) (payload_context : TransactionPayloadContext)
    (k : TransactionKind) (payloads : list bytes) (prepared_row_maps : option (list Row))
    (timestamp_epoch_ms : Z) (group_id : option Z) (st : St) : result unit string * St :=
  if is_empty payloads then (Ok tt, st)
  else
    let '(wal, derived) := st in
    let apply_row_index_mutation := track_runtime_indexes && is_row_kind k in
    let payload_count := length payloads in
    let '(last_id, wal) := latest_transaction_id stream_id wal in
    let first_row_id := match last_id with Some i => saturating_add i 1 | None => 1 end in
    let prepared_row_maps := default [] prepared_row_maps in
    let use_prepared_row_maps := apply_row_index_mutation && Nat.eqb (length prepared_row_maps) payload_count in
    match materialize (apply_row_index_mutation && negb use_prepared_row_maps) k timestamp_epoch_ms group_id
            first_row_id last_id payloads with
    | Err e => (Err e, (wal, derived))
    | Ok (records, decoded_row_maps, next_id) =>
        let '(r, wal) := append_batch_with_context stream_id records payload_context wal in
        match r with
        | Err e => (Err e, (wal, derived))
        | Ok _ =>
            let latest_tx_id := saturating_sub next_id 1 in
            let '(aligned, wal) := with_records stream_id (row_refs_align first_row_id payload_count k) wal in
            match aligned with
            | None => (Err "WAL stream unavailable after append", (wal, derived))
            | Some false => (Err "row reference alignment mismatch after WAL append", (wal, derived))
            | Some true =>
                if apply_row_index_mutation then
                  if negb use_prepared_row_maps && negb (Nat.eqb (length decoded_row_maps) payload_count)
                  then (Err "row map preparation mismatch for batch mutation", (wal, derived))
                  else
                    (Ok tt,
                     (wal, apply_runtime_index_and_equality_batch stream_id latest_tx_id first_row_id k
                             (if use_prepared_row_maps then prepared_row_maps else decoded_row_maps) derived))
                else (Ok tt, (wal, derived))
            end
        end
    end.

(** The loops over the blocks of an insert: one batch per block, until one fails. *)
Fixpoint append_blocks (stream_id : ustr) (payload_context : TransactionPayloadContext)
    (timestamp_epoch_ms : Z) (group_id : option Z) (blocks : list (list bytes * option (list Row))) (st : St)
    : result unit string * St :=
  match blocks with
  | [] => (Ok tt, st)
  | (payload_block, row_map_block) :: rest =>
      let '(r, st) := append_row_payload_records_batch stream_id payload_context Insert payload_block
                        row_map_block timestamp_epoch_ms group_id st in
      match r with
      | Err e => (Err e, st)
      | Ok _ => append_blocks stream_id payload_context timestamp_epoch_ms group_id rest st
      end
  end.

Definition append_insert_payloads_in_value_blocks (stream_id : ustr) (payload_context : TransactionPayloadContext)
    (payloads : list bytes) (prepared_row_maps : option (list Row)) (timestamp_epoch_ms : Z)
    (group_id : option Z) (split_per_value_block : bool) (st : St) : result unit string * St :=
  if is_empty payloads then (Ok tt, st)
  else if negb split_per_value_block || Nat.leb (length payloads) 1 then
    append_row_payload_records_batch stream_id payload_context Insert payloads prepared_row_maps
      timestamp_epoch_ms group_id st
  else
    let block_rows := Nat.max INSERT_VALUE_BLOCK_MAX_ROWS 1 in
    let payload_blocks := chunks (length payloads) block_rows payloads in
    match prepared_row_maps with
    | Some row_maps =>
        if negb (Nat.eqb (length row_maps) (length payloads))
        then (Err "row map preparation mismatch for insert value blocks", st)
        else append_blocks stream_id payload_context timestamp_epoch_ms group_id
               (zip payload_blocks (Some <$> chunks (length row_maps) block_rows row_maps)) st
    | None =>
        append_blocks stream_id payload_context timestamp_epoch_ms group_id
          ((λ block, (block, None)) <$> payload_blocks) st
    end.

(** ** Write groups *)

(** The streams in the iteration order of the set; [now] is the clock at each of them. *)
Fixpoint commit_external_write_group (now : nat → Z) (table_ids : list ustr) (group_id : Z) (st : St)
    : result unit string * St :=
  match table_ids with
  | [] => (Ok tt, st)
  | table_id :: rest =>
      let '(wal, derived) := st in
      let '(expected_count, wal) := grouped_stream_expected_record_count table_id group_id wal in
      let '(r, wal) :=
        append_payload_record_with_group table_id WriteCommit (encode_write_group_terminal_payload expected_count)
          (now O) (Some group_id) wal in
      match r with
      | Err e => (Err e, (wal, derived))
      | Ok _ =>
          commit_external_write_group (λ n, now (S n)) rest group_id
            (wal, persist_table_snapshot_on_commit table_id wal derived)
      end
  end.

Fixpoint abort_external_write_group (now : nat → Z) (table_ids : list ustr) (group_id : Z) (st : St) : St :=
  match table_ids with
  | [] => st
  | table_id :: rest =>
      let '(wal, derived) := st in
      let '(expected_count, wal) := grouped_stream_expected_record_count table_id group_id wal in
      let '(_, wal) :=
        append_payload_record_with_group table_id WriteAbort (encode_write_group_terminal_payload expected_count)
          (now O) (Some group_id) wal in
      abort_external_write_group (λ n, now (S n)) rest group_id
        (wal, rebuild_runtime_indexes_for_table table_id wal derived)
  end.

(** ** Streams in memory *)

Lemma hydrate_loaded wal_id key s entries :
  storage s !! key = Some entries → hydrate_stream_if_needed wal_id key s = s.
Proof.
  intros Hs. unfold hydrate_stream_if_needed. destruct (negb _); [done|].
  destruct (data_dir s); [|done]. by rewrite Hs.
Qed.

Lemma spawn_loaded key s wk s' entries :
  storage s !! key = Some entries → get_or_spawn_worker_for_stream_key key s = (wk, s') → storage s' = storage s.
Proof.
  intros Hs. unfold get_or_spawn_worker_for_stream_key. destruct (workers s !! key); [intros [= <- <-]; done|].
  destruct (start_worker _ _) as [wk0 w]. destruct (match _ with Durable => _ | Ephemeral => _ end);
    intros [= <- <-]; [|done]. simpl. by rewrite Hs.
Qed.

Lemma send_loaded key e1 e2 command s r s' entries (spec : list TransactionRecord) :
  storage s !! key = Some entries →
  (∀ wk w r wk' entries' w', command wk entries w = (r, wk', entries', w') →
     entries' = if is_ok r then spec else entries) →
  send_command key e1 e2 command s = (r, s') →
  storage s' = <[key := if is_ok r then spec else entries]> (storage s).
Proof.
  intros Hs Hcmd. unfold send_command.
  destruct (get_or_spawn_worker_for_stream_key key s) as [wk s1] eqn:Esp.
  pose proof (spawn_loaded _ _ _ _ _ Hs Esp) as E1. rewrite E1, Hs. destruct (status wk).
  - simpl. destruct (command wk entries (world s1)) as [[[r0 wk'] entries'] w'] eqn:Ec.
    intros [= <- <-]. simpl. f_equal. by eapply Hcmd.
  - intros [= <- <-]. simpl. by rewrite insert_id.
  - intros [= <- <-]. simpl. by rewrite insert_id.
Qed.

(** An acknowledged append changes the stream by its merge, a refused one not at all; no other
    stream changes.  This holds under every fault. *)
Lemma append_loaded wal_id key record context s r s' entries :
  obfuscated_stream_key wal_id = Ok key → storage s !! key = Some entries →
  append_with_context wal_id record context s = (r, s') →
  storage s' = <[key := if is_ok r then merge_record entries record else entries]> (storage s).
Proof.
  intros Hk Hs. unfold append_with_context. rewrite Hk, (hydrate_loaded wal_id key s entries Hs).
  destruct (send_command _ _ _ _ s) as [r1 s1] eqn:E.
  eapply (send_loaded key _ _ _ s r1 s1 entries (merge_record entries record)) in E; [|done|].
  - destruct r1; intros [= <- <-]; simpl in E |- *; [|done].
    unfold raise_high_water. by destruct (write_timestamp_if_data_write record).
  - intros wk w r0 wk' entries' w' Hw%worker_append_entries. by destruct r0.
Qed.

Lemma append_batch_loaded wal_id key records context s r s' entries :
  obfuscated_stream_key wal_id = Ok key → storage s !! key = Some entries →
  append_batch_with_context wal_id records context s = (r, s') →
  storage s' = <[key := if is_ok r then foldl merge_record entries records else entries]> (storage s).
Proof.
  intros Hk Hs. unfold append_batch_with_context. destruct (is_empty records) eqn:Er.
  { destruct records; [|done]. intros [= <- <-]. simpl. by rewrite insert_id. }
  rewrite Hk, (hydrate_loaded wal_id key s entries Hs).
  destruct (send_command _ _ _ _ s) as [r1 s1] eqn:E.
  eapply (send_loaded key _ _ _ s r1 s1 entries (foldl merge_record entries records)) in E; [|done|].
  - destruct r1; intros [= <- <-]; simpl in E |- *; [|done].
    unfold raise_high_water. by destruct (latest_write_timestamp records).
  - intros wk w r0 wk' entries' w' Hw%worker_append_batch_entries. by destruct r0.
Qed.

Lemma with_records_loaded {T} wal_id key (f : list TransactionRecord → T) s entries :
  obfuscated_stream_key wal_id = Ok key → storage s !! key = Some entries →
  with_records wal_id f s = (Some (f entries), s).
Proof. intros Hk Hs. unfold with_records. by rewrite Hk, (hydrate_loaded wal_id key s entries Hs), Hs. Qed.

Lemma latest_id_loaded wal_id key s entries :
  obfuscated_stream_key wal_id = Ok key → storage s !! key = Some entries →
  latest_transaction_id wal_id s = (id <$> last entries, s).
Proof. intros Hk Hs. unfold latest_transaction_id. by rewrite (with_records_loaded wal_id key _ s entries). Qed.

(** The stream has room for [n] more ids. *)
Definition fits (entries : list TransactionRecord) (n : nat) : Prop :=
  match last entries with Some e => 0 ≤ id e ∧ id e + Z.of_nat n ≤ u64_max | None => Z.of_nat n ≤ u64_max end.

Lemma ids_below_next entries e :
  unique_ids entries → fits entries 1 → e ∈ entries → id e < next_transaction_id (id <$> last entries).
Proof.
  intros Hu Hf He. unfold fits in Hf. destruct (last entries) as [l|] eqn:El.
  - simpl. rewrite Z.mod_small by (unfold u64_max in *; lia).
    pose proof (last_sorted entries l (unique_sorted _ Hu) El) as Hall. rewrite Forall_forall in Hall.
    specialize (Hall e He). lia.
  - apply last_None in El. subst. by apply not_elem_of_nil in He.
Qed.

Lemma log_wf_snoc entries r :
  log_wf entries → (∀ e, e ∈ entries → id e < id r) → (∀ x, refid r = Some x → x < id r) →
  log_wf (entries ++ [r]).
Proof.
  intros Hwf Hid Href. apply log_wf_app. split; [done|]. split.
  - split; [repeat constructor|]. constructor; [exact Href|constructor].
  - intros a b Ha ->%list_elem_of_singleton. by apply Hid.
Qed.

(** One more record behind the last id, referring to a record of the stream. *)
Lemma append_next_loaded wal_id key record context s s' entries :
  obfuscated_stream_key wal_id = Ok key → storage s !! key = Some entries →
  log_wf entries → fits entries 1 → id record = next_transaction_id (id <$> last entries) →
  (∀ x, refid record = Some x → x ∈ id <$> entries) →
  append_with_context wal_id record context s = (Ok tt, s') →
  storage s' = <[key := entries ++ [record]]> (storage s) ∧ log_wf (entries ++ [record]).
Proof.
  intros Hk Hs Hwf Hf Hid Href Ha. pose proof (append_loaded _ _ _ _ _ _ _ _ Hk Hs Ha) as E. simpl in E.
  assert (∀ e, e ∈ entries → id e < id record) as Hlt.
  { intros e He. rewrite Hid. apply ids_below_next; [apply Hwf|done|done]. }
  rewrite merge_fresh in E by (by apply Forall_forall). split; [done|].
  apply log_wf_snoc; [done|done|]. intros x Hx. specialize (Href x Hx).
  apply list_elem_of_fmap in Href as (e & -> & He). by apply Hlt.
Qed.

Lemma last_id_elem (entries : list TransactionRecord) x : id <$> last entries = Some x → x ∈ id <$> entries.
Proof.
  destruct (last entries) as [l|] eqn:E; [|done]. intros [= <-].
  apply list_elem_of_fmap_2. by apply last_Some_elem_of.
Qed.

Lemma check_live_row_loaded w stream_id key context refid expected s entries r s' :
  obfuscated_stream_key stream_id = Ok key → storage s !! key = Some entries →
  check_live_row w stream_id context refid expected s = (r, s') → s' = s.
Proof.
  intros Hk Hs. unfold check_live_row, load_live_rows_with_context, since_with_context, since, all_records.
  rewrite (with_records_loaded stream_id key _ s entries Hk Hs). cbn [default].
  destruct refid; [|by intros [= _ <-]]. destruct expected; [by intros [= _ <-]|].
  destruct (eqb context default_transaction_payload_context); intros E; by simplify_eq.
Qed.

(** The record a row mutation writes. *)
Definition row_record (entries : list TransactionRecord) (k : TransactionKind) (payload : bytes) (ts : Z)
    (refid group_id : option Z) : TransactionRecord :=
  with_payload (next_transaction_id (id <$> last entries)) group_id
    (match refid with Some x => Some x | None => id <$> last entries end) ts
    (from_username (lit "server")) k payload.

Lemma append_row_loaded w stream_id key context k payload ts refid expected prepared group_id s d s' d' entries :
  obfuscated_stream_key stream_id = Ok key → storage s !! key = Some entries →
  log_wf entries → fits entries 1 → (∀ x, refid = Some x → x ∈ id <$> entries) →
  append_row_payload_record_with_live_row_ids_and_prepared_row_map w stream_id context k payload ts refid
    expected prepared group_id (s, d) = (Ok tt, (s', d')) →
  let record := row_record entries k payload ts refid group_id in
  storage s' = <[key := entries ++ [record]]> (storage s) ∧ log_wf (entries ++ [record]).
Proof.
  intros Hk Hs Hwf Hf Href. unfold append_row_payload_record_with_live_row_ids_and_prepared_row_map.
  destruct (check_live_row _ _ _ _ _ s) as [checked s1] eqn:Ec.
  apply (check_live_row_loaded _ _ key _ _ _ _ entries) in Ec; [|done|done]. subst s1.
  destruct checked; [|done]. rewrite (latest_id_loaded stream_id key s entries Hk Hs).
  destruct (if _ && _ then _ else _) as [decoded|]; [|done].
  destruct (append_with_context _ _ _ s) as [r s1] eqn:Ea. destruct r as [[]|]; [|done].
  intros E. assert (s1 = s') as ->.
  { destruct (track_runtime_indexes && is_row_kind k); [|by simplify_eq].
    destruct (match prepared with Some m => _ | None => _ end); by simplify_eq. }
  clear E. eapply append_next_loaded in Ea; [exact Ea|done..|].
  intros x Hx. simpl in Hx. destruct refid as [y|]; [|by apply last_id_elem]. injection Hx as <-. by apply Href.
Qed.

(** ** Batches *)

Definition first_id (entries : list TransactionRecord) : Z :=
  match id <$> last entries with Some i => saturating_add i 1 | None => 1 end.

Lemma materialize_spec dec k ts g next ref payloads records rows stop :
  0 ≤ next → next + Z.of_nat (length payloads) ≤ u64_max + 1 →
  (∀ x, ref = Some x → x < next) →
  materialize dec k ts g next ref payloads = Ok (records, rows, stop) →
  length records = length payloads ∧
  (∀ i r, records !! i = Some r → id r = next + Z.of_nat i) ∧
  Forall (λ r, kind r = k ∧ groupid r = g) records ∧ refs_back records ∧
  payload_logical <$> records = Some <$> payloads ∧
  (dec = true → length rows = length payloads).
Proof.
  revert next ref records rows stop. induction payloads as [|p payloads IH]; intros next ref records rows stop Hn Hlen Href.
  { intros [= <- <- <-]. repeat split; try constructor. done. }
  cbn [materialize length] in *. destruct (if dec then _ else _) as [row_map|] eqn:Erow; [|done].
  assert (dec = true → length row_map = 1%nat) as Hrow
    by (intros ->; destruct (decode_row p); [by injection Erow as <-|done]).
  destruct (materialize _ _ _ _ _ _ payloads) as [[[records' rows'] stop']|] eqn:E; [|done].
  intros [= <- <- <-]. destruct payloads as [|p' payloads'].
  { cbn in E. injection E as <- <- <-. split; [done|]. split; [|split; [|split; [|split; [done|]]]].
    - intros [|i] r; [intros [= <-]; simpl; lia|done].
    - by repeat constructor.
    - constructor; [simpl; exact Href|constructor].
    - intros Hd. rewrite length_app, Hrow by done. done. }
  assert (saturating_add next 1 = next + 1) as Enext by (unfold saturating_add; cbn [length] in Hlen; lia).
  rewrite Enext in E. destruct (IH (next + 1) (Some next) _ _ _ ltac:(lia) ltac:(cbn [length] in *; lia)
    ltac:(intros x [= <-]; lia) E) as (Hl & Hid & Hall & Hb & Hp & Hrows).
  split; [by rewrite <- Hl|]. split; [|split; [|split; [|split]]].
  - intros [|i] r; [intros [= <-]; simpl; lia|]. intros Hr. rewrite (Hid i r Hr). lia.
  - by constructor.
  - constructor; [simpl; exact Href|done].
  - rewrite !fmap_cons, Hp. done.
  - intros Hd. rewrite length_app, Hrow, Hrows by done. done.
Qed.

Lemma ids_from_unique (first : Z) (records : list TransactionRecord) :
  (∀ i r, records !! i = Some r → id r = first + Z.of_nat i) → unique_ids records.
Proof.
  revert first. induction records as [|r records IH]; intros first Hid; constructor.
  - apply (IH (first + 1)). intros i x Hx. rewrite (Hid (S i) x Hx). lia.
  - apply Forall_lookup. intros i x Hx. rewrite (Hid O r eq_refl), (Hid (S i) x Hx). lia.
Qed.

Lemma row_refs_align_batch first k entries records :
  0 ≤ first → first + Z.of_nat (length records) ≤ u64_max + 1 →
  (∀ i r, records !! i = Some r → id r = first + Z.of_nat i) → Forall (λ r, kind r = k) records →
  row_refs_align first (length records) k (entries ++ records) = true.
Proof.
  intros Hf Hlen Hid Hk. unfold row_refs_align. rewrite reverse_app, take_app_length' by (by rewrite length_reverse).
  rewrite length_reverse, Nat.eqb_refl, reverse_involutive. cbn [andb]. apply forallb_forall.
  intros [i r] Hin%list_elem_of_In. apply list_elem_of_lookup in Hin as (j & Hj).
  rewrite list_lookup_imap in Hj. destruct (records !! j) as [x|] eqn:Ej; [|done]. simpl in Hj. simplify_eq. simpl.
  pose proof (lookup_lt_Some _ _ _ Ej). rewrite (Hid i r Ej), (proj2 (Z.eqb_eq _ _)) by (unfold saturating_add; lia).
  rewrite Forall_forall in Hk. rewrite (Hk r (list_elem_of_lookup_2 _ _ _ Ej)). by apply eqb_true.
Qed.

Lemma first_id_bounds entries n :
  (0 < n)%nat → fits entries n → unique_ids entries →
  0 ≤ first_id entries ∧ first_id entries + Z.of_nat n ≤ u64_max + 1 ∧
  ∀ e, e ∈ entries → id e < first_id entries.
Proof.
  intros Hn Hf Hu. unfold fits, first_id in *. destruct (last entries) as [l|] eqn:El; simpl.
  - assert (saturating_add (id l) 1 = id l + 1) as -> by (unfold saturating_add; lia).
    split; [lia|]. split; [lia|]. intros e He.
    pose proof (last_sorted entries l (unique_sorted _ Hu) El) as Hall. rewrite Forall_forall in Hall.
    specialize (Hall e He). lia.
  - apply last_None in El. subst. split; [lia|]. split; [lia|]. intros e He. by apply not_elem_of_nil in He.
Qed.

(** The batch is in the stream, or nothing is. *)
Lemma append_batch_rows_loaded stream_id key context k payloads prepared ts g s d r s' d' entries :
  obfuscated_stream_key stream_id = Ok key → storage s !! key = Some entries →
  log_wf entries → fits entries (length payloads) →
  append_row_payload_records_batch stream_id context k payloads prepared ts g (s, d) = (r, (s', d')) →
  match r with
  | Err _ => storage s' = storage s
  | Ok _ => ∃ records,
      storage s' = <[key := entries ++ records]> (storage s) ∧ log_wf (entries ++ records) ∧
      (∀ i x, records !! i = Some x → id x = first_id entries + Z.of_nat i) ∧
      Forall (λ x, kind x = k ∧ groupid x = g) records ∧ payload_logical <$> records = Some <$> payloads
  end.
Proof.
  intros Hk Hs Hwf Hf. unfold append_row_payload_records_batch.
  destruct payloads as [|p0 payloads0]; [intros [= <- <- <-]; exists []|].
  { rewrite app_nil_r, insert_id by done. repeat split; try apply Hwf; try constructor. done. }
  remember (p0 :: payloads0) as payloads eqn:Ep. replace (is_empty payloads) with false by (by subst).
  rewrite (latest_id_loaded stream_id key s entries Hk Hs). fold (first_id entries).
  destruct (first_id_bounds entries (length payloads)) as (Hfst & Hroom & Hlast);
    [by subst; simpl; lia|done|apply Hwf|].
  destruct (materialize _ _ _ _ _ _ _) as [[[records rows] stop]|] eqn:Em; [|by intros [= <- <- <-]].
  apply materialize_spec in Em as (Hl & Hid & Hall & Hb & Hp & Hrows); [|lia|done|].
  2: { intros x Hx. apply last_id_elem, list_elem_of_fmap in Hx as (e & -> & He). by apply Hlast. }
  destruct (append_batch_with_context _ _ _ s) as [r1 s1] eqn:Ea.
  pose proof (append_batch_loaded _ _ _ _ _ _ _ _ Hk Hs Ea) as Es1.
  destruct r1; [|intros [= <- <- <-]; simpl in Es1; by rewrite Es1, insert_id]. simpl in Es1.
  assert (log_wf (entries ++ records)) as Hwf'.
  { apply log_wf_app. split; [done|]. split; [split; [by eapply ids_from_unique|done]|].
    intros e1 e2 He1 (i & Hi)%list_elem_of_lookup. rewrite (Hid i e2 Hi). specialize (Hlast e1 He1). lia. }
  rewrite foldl_merge_fresh in Es1 by apply Hwf'.
  rewrite (with_records_loaded stream_id key _ s1 (entries ++ records) Hk) by (by rewrite Es1, lookup_insert_eq).
  rewrite <- Hl, row_refs_align_batch; [|lia|by rewrite Hl|done|]. 2: { eapply Forall_impl; [exact Hall|]. naive_solver. }
  intros E. assert (r = Ok tt ∧ s' = s1) as [-> ->]; [|by exists records].
  destruct (track_runtime_indexes && is_row_kind k) eqn:Et; [|by simplify_eq].
  destruct (Nat.eqb (length (default [] prepared)) (length records)) eqn:Eu; simpl in *; [by simplify_eq|].
  rewrite Hl, Hrows, Nat.eqb_refl in E; [simpl in E; by simplify_eq|]. rewrite Hl in Eu. by rewrite Eu.
Qed.

(** ** Inserts *)

(** [entries'] is [entries] followed by one record per payload, with consecutive ids. *)
Definition extended_by (k : TransactionKind) (g : option Z) (entries : list TransactionRecord)
    (payloads : list bytes) (entries' : list TransactionRecord) : Prop :=
  ∃ records,
    entries' = entries ++ records ∧ log_wf (entries ++ records) ∧
    (∀ i x, records !! i = Some x → id x = first_id entries + Z.of_nat i) ∧
    Forall (λ x, kind x = k ∧ groupid x = g) records ∧ payload_logical <$> records = Some <$> payloads.

Lemma extended_length (payloads : list bytes) (records : list TransactionRecord) :
  payload_logical <$> records = Some <$> payloads → length records = length payloads.
Proof. intros E%(f_equal length). by rewrite !length_fmap in E. Qed.

Lemma first_id_app entries records n :
  records ≠ [] → (length records ≤ n)%nat → fits entries n → unique_ids entries →
  (∀ i x, records !! i = Some x → id x = first_id entries + Z.of_nat i) →
  first_id (entries ++ records) = Z.min (first_id entries + Z.of_nat (length records)) u64_max
  ∧ fits (entries ++ records) (n - length records).
Proof.
  intros Hne Hn Hf Hu Hid. destruct (exists_last Hne) as (rs & x & ->).
  destruct (first_id_bounds entries n) as (H1' & H2' & _); [|done|done|].
  { destruct rs; simpl in *; lia. }
  rewrite length_app in *. cbn [length] in *.
  specialize (Hid (length rs) x). rewrite lookup_app_r, Nat.sub_diag in Hid by lia. specialize (Hid eq_refl).
  unfold fits, first_id at 1. rewrite app_assoc, last_snoc. simpl. unfold saturating_add. rewrite Hid. lia.
Qed.

Lemma extended_trans k g entries p1 e1 p2 e2 :
  fits entries (length p1 + length p2) → unique_ids entries →
  extended_by k g entries p1 e1 → extended_by k g e1 p2 e2 → extended_by k g entries (p1 ++ p2) e2.
Proof.
  intros Hf Hu (r1 & -> & Hw1 & Hi1 & Ha1 & Hp1) (r2 & -> & Hw2 & Hi2 & Ha2 & Hp2).
  exists (r1 ++ r2). rewrite app_assoc. split; [done|]. split; [done|]. split; [|split; [by apply Forall_app|by rewrite !fmap_app, Hp1, Hp2]].
  intros i x Hx. apply lookup_app_Some in Hx as [Hx|[Hge Hx]]; [by apply Hi1|]. rewrite (Hi2 _ _ Hx).
  destruct (decide (r1 = [])) as [-> |Hne]; [by rewrite app_nil_r, Nat.sub_0_r|].
  pose proof (extended_length p1 r1 Hp1) as Hl1. pose proof (extended_length p2 r2 Hp2) as Hl2.
  destruct (first_id_app entries r1 (length p1 + length p2) Hne ltac:(lia) Hf Hu Hi1) as [-> _].
  pose proof (lookup_lt_Some _ _ _ Hx).
  destruct (first_id_bounds entries (length p1 + length p2)) as (_ & Hb & _); [|done|done|lia].
  destruct r1; [done|]. simpl in Hl1. lia.
Qed.

Lemma extended_fits k g entries payloads entries' n :
  fits entries (length payloads + n) → unique_ids entries → extended_by k g entries payloads entries' →
  fits entries' n ∧ log_wf entries'.
Proof.
  intros Hf Hu (records & -> & Hw & Hi & _ & Hp). split; [|done].
  pose proof (extended_length payloads records Hp) as Hl.
  destruct (decide (records = [])) as [-> |Hne].
  - rewrite app_nil_r. simpl in Hl. by rewrite <- Hl in Hf.
  - destruct (first_id_app entries records (length payloads + n) Hne ltac:(lia) Hf Hu Hi) as [_ Hf'].
    by replace (length payloads + n - length records)%nat with n in Hf' by lia.
Qed.

Lemma extended_refl k g entries : log_wf entries → extended_by k g entries [] entries.
Proof. intros Hw. exists []. rewrite app_nil_r. repeat split; try apply Hw; try constructor. done. Qed.

Lemma append_blocks_loaded stream_id key context ts g blocks s d r s' d' entries :
  obfuscated_stream_key stream_id = Ok key → storage s !! key = Some entries →
  log_wf entries → fits entries (length (concat blocks.*1)) →
  append_blocks stream_id context ts g blocks (s, d) = (r, (s', d')) →
  ∃ n entries', storage s' = <[key := entries']> (storage s) ∧
    extended_by Insert g entries (take n (concat blocks.*1)) entries' ∧
    (is_ok r = true → n = length (concat blocks.*1)).
Proof.
  intros Hk. revert s d entries. induction blocks as [|[payloads maps] blocks IH]; intros s d entries Hs Hwf Hf.
  { intros [= <- <- <-]. exists 0%nat, entries. rewrite insert_id by done. split; [done|].
    split; [by apply extended_refl|done]. }
  cbn [append_blocks fmap list_fmap concat fst] in *. rewrite length_app in Hf.
  destruct (append_row_payload_records_batch _ _ _ _ _ _ _ (s, d)) as [r1 [s1 d1]] eqn:E1.
  eapply append_batch_rows_loaded in E1; [|done|done|done|].
  2: { unfold fits in *. destruct (last entries); lia. }
  destruct r1 as [[]|e].
  - destruct E1 as (records & Es1 & Hrec). set (e1 := entries ++ records) in *.
    assert (extended_by Insert g entries payloads e1) as Hx1 by (exists records; done).
    destruct (extended_fits _ _ _ _ _ _ Hf (proj1 Hwf) Hx1) as [Hf1 Hwf1].
    intros E. eapply IH in E as (n & entries' & Es' & Hx & Hn); [|by rewrite Es1, lookup_insert_eq|done|done].
    exists (length payloads + n)%nat, entries'. rewrite Es', Es1, insert_insert_eq. split; [done|].
    rewrite take_app_add. split; [|intros Hok; rewrite length_app, (Hn Hok); done].
    eapply extended_trans; [|apply Hwf|exact Hx1|exact Hx].
    rewrite length_take. unfold fits in *. destruct (last entries); lia.
  - intros [= <- <- <-]. exists 0%nat, entries. rewrite E1, insert_id by done. split; [done|].
    split; [by apply extended_refl|done].
Qed.

Lemma length_chunks {A B} fuel n (l1 : list A) (l2 : list B) :
  length l1 = length l2 → length (chunks fuel n l1) = length (chunks fuel n l2).
Proof.
  revert l1 l2. induction fuel as [|fuel IH]; intros l1 l2 Hl; [done|].
  destruct l1, l2; try done. cbn [chunks length]. f_equal. apply IH. rewrite !length_drop. by f_equal.
Qed.

(** The stream of a table after an insert of [payloads]: a prefix of them is in it, all of them
    when the insert was acknowledged. *)
Definition insert_outcome (key : ustr) (g : option Z) (entries : list TransactionRecord) (payloads : list bytes)
    (r : result unit string) (s s' : WalState) : Prop :=
  ∃ n entries', storage s' = <[key := entries']> (storage s) ∧
    extended_by Insert g entries (take n payloads) entries' ∧ (is_ok r = true → n = length payloads).

Lemma insert_outcome_none key g entries payloads e s :
  storage s !! key = Some entries → log_wf entries → insert_outcome key g entries payloads (Err e) s s.
Proof.
  intros Hs Hwf. exists 0%nat, entries. rewrite insert_id by done. split; [done|].
  split; [by apply extended_refl|done].
Qed.

Lemma insert_blocks_loaded stream_id key context payloads maps ts g split s d r s' d' entries :
  obfuscated_stream_key stream_id = Ok key → storage s !! key = Some entries →
  log_wf entries → fits entries (length payloads) →
  append_insert_payloads_in_value_blocks stream_id context payloads maps ts g split (s, d) = (r, (s', d')) →
  insert_outcome key g entries payloads r s s'.
Proof.
  intros Hk Hs Hwf Hf. unfold append_insert_payloads_in_value_blocks.
  destruct (is_empty payloads) eqn:Ee.
  { destruct payloads; [|done]. intros [= <- <- <-]. exists 0%nat, entries. rewrite insert_id by done.
    split; [done|]. split; [by apply extended_refl|done]. }
  destruct (negb split || Nat.leb (length payloads) 1).
  { intros E. eapply append_batch_rows_loaded in E; [|done..]. destruct r as [[]|e].
    - destruct E as (records & Es' & Hrec). exists (length payloads), (entries ++ records).
      rewrite take_ge by done. split; [done|]. split; [by exists records|done].
    - destruct (insert_outcome_none key g entries payloads e s Hs Hwf) as (n & e' & He).
      exists n, e'. by rewrite E. }
  assert (∀ blocks, concat blocks.*1 = payloads →
    append_blocks stream_id context ts g blocks (s, d) = (r, (s', d')) →
    insert_outcome key g entries payloads r s s') as Hblocks.
  { intros blocks Hc E. eapply append_blocks_loaded in E; [|done|done|done|by rewrite Hc]. by rewrite Hc in E. }
  destruct maps as [maps|].
  - destruct (Nat.eqb (length maps) (length payloads)) eqn:Em; simpl;
      [|intros [= <- <- <-]; by apply insert_outcome_none].
    apply Nat.eqb_eq in Em. apply Hblocks. rewrite fst_zip.
    + apply concat_chunks; lia.
    + rewrite length_fmap, Em. by rewrite (length_chunks _ _ payloads maps).
  - apply Hblocks. rewrite <- list_fmap_compose. rewrite (list_fmap_ext _ Datatypes.id), list_fmap_id by done.
    apply concat_chunks; [simpl; lia|done].
Qed.

(** ** The end of a write group *)

(** The stream got the record that ends the group, with the number of the group's records. *)
Definition ended_by (k : TransactionKind) (g : Z) (entries entries' : list TransactionRecord) : Prop :=
  ∃ c, entries' = entries ++ [c] ∧ log_wf entries' ∧ kind c = k ∧ groupid c = Some g ∧
       payload c = Some (encode_write_group_terminal_payload (group_count g entries)).

(** A stream that is loaded, well-formed and has an id left. *)
Definition ready (s : WalState) (key : ustr) : Prop :=
  ∃ entries, storage s !! key = Some entries ∧ log_wf entries ∧ fits entries 1.

Lemma terminal_loaded table_id key k ts g s entries r s' :
  obfuscated_stream_key table_id = Ok key → storage s !! key = Some entries →
  log_wf entries → fits entries 1 →
  append_payload_record_with_group table_id k (encode_write_group_terminal_payload (group_count g entries)) ts
    (Some g) s = (r, s') →
  ∃ entries', storage s' = <[key := entries']> (storage s) ∧
    (ended_by k g entries entries' ∨ is_ok r = false ∧ entries' = entries).
Proof.
  intros Hk Hs Hwf Hf. unfold append_payload_record_with_group.
  rewrite (latest_id_loaded table_id key s entries Hk Hs).
  destruct (append_with_context _ _ _ s) as [r1 s1] eqn:Ea. destruct r1 as [[]|e].
  - intros [= <- <-]. eapply append_next_loaded in Ea as [Es Hwf']; [|done..|intros x; apply last_id_elem].
    eexists. split; [exact Es|]. left. eexists. split; [done|]. by repeat split; apply Hwf'.
  - intros [= <- <-]. exists entries. split; [|by right].
    by apply (append_loaded _ key _ _ _ _ _ entries) in Ea.
Qed.

Lemma count_loaded table_id key g s entries :
  obfuscated_stream_key table_id = Ok key → storage s !! key = Some entries →
  grouped_stream_expected_record_count table_id g s = (group_count g entries, s).
Proof.
  intros Hk Hs. unfold grouped_stream_expected_record_count. by rewrite (with_records_loaded table_id key _ s entries).
Qed.

(** What ending the group did to the streams of [keys]: at each of them the end was written, or,
    where [refused] allows it, nothing; no other stream changed. *)
Definition group_ended (k : TransactionKind) (g : Z) (keys : list ustr) (refused : Prop) (s s' : WalState) : Prop :=
  (∀ key, key ∉ keys → storage s' !! key = storage s !! key) ∧
  (∀ key entries, key ∈ keys → storage s !! key = Some entries →
     ∃ entries', storage s' !! key = Some entries' ∧
       (ended_by k g entries entries' ∨ refused ∧ entries' = entries)).

Lemma group_ended_cons k g key keys (refused : Prop) s s1 s' entries entries' :
  key ∉ keys → storage s !! key = Some entries → storage s1 = <[key := entries']> (storage s) →
  (ended_by k g entries entries' ∨ refused ∧ entries' = entries) →
  group_ended k g keys refused s1 s' → group_ended k g (key :: keys) refused s s'.
Proof.
  intros Hnin Hs Hs1 He [Hother Hin]. split.
  - intros key' Hk. rewrite Hother, Hs1, lookup_insert_ne by set_solver. done.
  - intros key' e Hk He'. destruct (decide (key' = key)) as [-> |Hne].
    + simplify_eq. exists entries'. by rewrite Hother, Hs1, lookup_insert_eq by done.
    + apply Hin; [set_solver|]. by rewrite Hs1, lookup_insert_ne by done.
Qed.

Lemma ready_other s s1 key key' entries' :
  storage s1 = <[key := entries']> (storage s) → key' ≠ key → ready s key' → ready s1 key'.
Proof. intros Hs1 Hne (e & He & Hw). exists e. by rewrite Hs1, lookup_insert_ne. Qed.

Lemma commit_loaded now table_ids keys g s d r s' d' :
  Forall2 (λ t k, obfuscated_stream_key t = Ok k) table_ids keys → NoDup keys → Forall (ready s) keys →
  commit_external_write_group now table_ids g (s, d) = (r, (s', d')) →
  group_ended WriteCommit g keys (is_ok r = false) s s'.
Proof.
  intros Hkeys. revert now s d. induction Hkeys as [|t key ts keys Hk Hkeys IH]; intros now s d Hnd Hready.
  { intros [= <- <- <-]. split; [done|]. intros key' e Hin. by apply not_elem_of_nil in Hin. }
  apply NoDup_cons in Hnd as [Hnin Hnd]. inversion Hready as [|? ? (entries & Hs & Hwf & Hf) Hready']; subst.
  cbn [commit_external_write_group]. rewrite (count_loaded t key g s entries Hk Hs).
  destruct (append_payload_record_with_group _ _ _ _ _ s) as [r1 s1] eqn:Ea.
  eapply terminal_loaded in Ea as (entries' & Es1 & He); [|done..].
  destruct r1 as [x|e].
  - intros E. eapply (group_ended_cons _ _ _ _ _ s s1 s' entries entries'); [done|done|done| |].
    + destruct He as [He|[He _]]; [by left|done].
    + eapply IH; [done| |exact E]. rewrite Forall_forall in Hready' |- *. intros key' Hin.
      eapply ready_other; [exact Es1|congruence|by apply Hready'].
  - intros [= <- <- <-]. eapply (group_ended_cons _ _ _ _ _ s s1 s1 entries entries'); [done|done|done| |].
    + destruct He as [He|[_ He]]; [by left|by right].
    + split; [done|]. intros key' e' Hin He'. exists e'. split; [done|by right].
Qed.

Lemma abort_loaded now table_ids keys g s d s' d' :
  Forall2 (λ t k, obfuscated_stream_key t = Ok k) table_ids keys → NoDup keys → Forall (ready s) keys →
  abort_external_write_group now table_ids g (s, d) = (s', d') →
  group_ended WriteAbort g keys True s s'.
Proof.
  intros Hkeys. revert now s d. induction Hkeys as [|t key ts keys Hk Hkeys IH]; intros now s d Hnd Hready.
  { intros [= <- <-]. split; [done|]. intros key' e Hin. by apply not_elem_of_nil in Hin. }
  apply NoDup_cons in Hnd as [Hnin Hnd]. inversion Hready as [|? ? (entries & Hs & Hwf & Hf) Hready']; subst.
  cbn [abort_external_write_group]. rewrite (count_loaded t key g s entries Hk Hs).
  destruct (append_payload_record_with_group _ _ _ _ _ s) as [r1 s1] eqn:Ea.
  eapply terminal_loaded in Ea as (entries' & Es1 & He); [|done..].
  intros E. eapply (group_ended_cons _ _ _ _ _ s s1 s' entries entries'); [done|done|done| |].
  - destruct He as [He|[_ He]]; [by left|by right].
  - eapply IH; [done| |exact E]. rewrite Forall_forall in Hready' |- *. intros key' Hin.
    eapply ready_other; [exact Es1|congruence|by apply Hready'].
Qed.

(** The decodable payloads with the ids from [first] on. *)
Definition numbered_rows (first : Z) (payloads : list bytes) : list (Z * Row) :=
  omap (λ '(i, p), pair i <$> decode_row p) (zip (seqZ first (Z.of_nat (length payloads))) payloads).

Lemma inserted_rows (first : Z) (records : list TransactionRecord) (payloads : list bytes) :
  (∀ i x, records !! i = Some x → id x = first + Z.of_nat i) →
  payload_logical <$> records = Some <$> payloads →
  omap (λ r, pair (id r) <$> (payload_logical r ≫= decode_row)) records = numbered_rows first payloads.
Proof.
  unfold numbered_rows.
  revert first payloads. induction records as [|x records IH]; intros first [|p payloads] Hid Hp; try done.
  rewrite !fmap_cons in Hp. injection Hp as Hx Hp. rewrite omap_cons_eq, Hx. cbn [length].
  rewrite Nat2Z.inj_succ, seqZ_cons, Z.pred_succ by lia. cbn [zip_with]. rewrite omap_cons_eq.
  rewrite (Hid O x eq_refl), Z.add_0_r. simpl.
  rewrite (IH (Z.succ first) payloads); [done|intros i y Hy; rewrite (Hid (S i) y Hy); lia|done].
Qed.

(** ** Properties *)

Abbreviation live w entries := (collect_live_rows_from_records decode_row w entries).



(** C3: Commit.  When a write group is committed on the streams it touched, each of them gets one
    commit record that carries the number of the group's records, and its live rows become what
    they would be had the group's records been written outside any group: all writes of the group
    appear at once.  Other streams do not change. *)
Theorem commit_publishes_group w now table_ids keys g s d s' d' :
  Forall2 (λ t k, obfuscated_stream_key t = Ok k) table_ids keys → NoDup keys → Forall (ready s) keys →
  commit_external_write_group now table_ids g (s, d) = (Ok tt, (s', d')) →
  (∀ key, key ∉ keys → storage s' !! key = storage s !! key) ∧
  (∀ key entries, key ∈ keys → storage s !! key = Some entries → g ∉ aborted_groups entries →
     ∃ entries', storage s' !! key = Some entries' ∧ ended_by WriteCommit g entries entries' ∧
       live w entries' = live w (ungroup g <$> entries)).
Proof.
  intros Hkeys Hnd Hready E. eapply commit_loaded in E as [Hother Hin]; [|done..]. split; [done|].
  intros key entries Hk Hs Hna. destruct (Hin key entries Hk Hs) as (entries' & Hs' & [He|[? _]]); [|done].
  exists entries'. split; [done|]. split; [done|]. destruct He as (c & -> & _ & Hkc & Hg & _).
  rewrite !collect_replay. by apply replay_commit.
Qed.

End wal_ops.
