(* ===== verification/Schema.v ===== *)
(** * Table schemas

    Models field kinds and their validation ([common/src/schema/field_kind.rs],
    [common/src/schema/validation.rs]), field definitions ([engine/database/field_def.rs]) and the
    table schema with its name index ([engine/database/table/schema_def.rs]): construction, lookup,
    validation and the three edits that a schema change is made of. *)

From Stdlib Require Import ZArith Lia.
From stdpp Require Import base gmap list strings.
From S2P Require Import Prelude Identifiers.

(** ** Field kinds *)

Inductive FieldKind :=
| FInt (bits : Z)
| FUInt (bits : Z)
| FFloat (bits : Z)
| FDate
| FDateTime
| FTimestamp
| FUuid
| FStringFixed (len : Z)
| FText
| FEnum (variants : list ustr)
| FSpatial
| FBlob.

#[global] Instance FieldKind_eq_dec : EqDecision FieldKind.
Proof. solve_decision. Defined.

Inductive FieldIndex := NotIndexed | Indexed | PrimaryKey.

#[global] Instance FieldIndex_eq_dec : EqDecision FieldIndex.
Proof. solve_decision. Defined.

Inductive SystemFieldVisibility := Visible | Hidden.

#[global] Instance SystemFieldVisibility_eq_dec : EqDecision SystemFieldVisibility.
Proof. solve_decision. Defined.

Record FieldMetadata := {
  comment : option ustr;
  auto_increment : bool;
  unique : bool;
  original_sql_type : option ustr;
  character_set : option ustr;
  collation : option ustr;
  system_visibility : SystemFieldVisibility;
}.

#[global] Instance FieldMetadata_eq_dec : EqDecision FieldMetadata.
Proof. solve_decision. Defined.

(** ** Validation *)

Inductive SchemaValidationError :=
| EmptyFieldName
| InvalidBitWidth
| InvalidFixedStringLen
| EmptyEnumVariants
| EmptyEnumVariantValue.

Definition normalize_field_name (name : ustr) : result ustr SchemaValidationError :=
  let normalized := to_ascii_lowercase (trim name) in
  if is_empty normalized then Err EmptyFieldName else Ok normalized.

Definition valid_width (bits : Z) : bool :=
  (bits =? 8) || (bits =? 16) || (bits =? 32) || (bits =? 64).

Definition validate_field_kind (kind : FieldKind) : result unit SchemaValidationError :=
  match kind with
  | FInt bits | FUInt bits | FFloat bits => if valid_width bits then Ok tt else Err InvalidBitWidth
  | FStringFixed len => if len =? 0 then Err InvalidFixedStringLen else Ok tt
  | FEnum variants =>
      if is_empty variants then Err EmptyEnumVariants
      else if existsb (λ value, is_empty (trim value)) variants then Err EmptyEnumVariantValue
      else Ok tt
  | FDate | FDateTime | FTimestamp | FUuid | FText | FSpatial | FBlob => Ok tt
  end.

(** ** Field definitions and schemas *)

Record FieldDef := {
  seqno : Z;
  field_name : ustr;
  field_type : FieldKind;
  nullable : bool;
  indexed : FieldIndex;
  default_value : option bytes;
  metadata : option FieldMetadata;
}.

#[global] Instance FieldDef_eq_dec : EqDecision FieldDef.
Proof. solve_decision. Defined.

(** [field.field_name = name]. *)
Definition with_field_name (name : ustr) (f : FieldDef) : FieldDef :=
  {| seqno := seqno f; field_name := name; field_type := field_type f; nullable := nullable f;
     indexed := indexed f; default_value := default_value f; metadata := metadata f |}.

Inductive SchemaError :=
| DuplicateField
| FieldNotFound
| SeqnoConflict
| InvalidFieldType
| InvalidFieldName.

(** The errors of the database engine, a schema error among them. *)
Inductive DatabaseError :=
| InvalidDatabaseName | DuplicateEntity | DuplicateTable | TableNotFound
| InvalidStatusTransition | NotReadyForWrite | ResourceUnavailable | SyncPending | CatalogRead
| CatalogInvalidHeader | CatalogPayloadMissing | CatalogDeserialize | CatalogSerialize
| CatalogWrite | SchemaPayloadDeserialize | IndexPayloadDeserialize | MetadataPayloadDeserialize
| SqlDefinitionPayloadDeserialize | SchemaRevisionOutOfOrder
| SchemaChangeError (e : SchemaError)
| SchemaChangeInProgress | TableNotLocked | DuplicateView | ViewNotFound | ViewNotWritable
| DuplicateOlapView | OlapViewNotFound | DuplicateTrigger | TriggerNotFound
| DuplicateStoredProcedure | StoredProcedureNotFound | EntityNotFound | UnsupportedSqlObjectKind
| InvalidEncryptionKeyRef | ImmutableEncryptionConfiguration.

Record TableSchema := {
  fields : list FieldDef;
  field_indexes_by_name : gmap ustr nat;
}.

(** [entry(name).or_insert(index)]: the first field of a name wins. *)
Definition index_field (m : gmap ustr nat) (entry : nat * FieldDef) : gmap ustr nat :=
  match m !! field_name entry.2 with
  | Some _ => m
  | None => <[field_name entry.2 := entry.1]> m
  end.

Definition rebuild_field_index_cache (fs : list FieldDef) : gmap ustr nat :=
  foldl index_field ∅ (imap pair fs).

Definition TableSchema_new (fs : list FieldDef) : TableSchema :=
  {| fields := fs; field_indexes_by_name := rebuild_field_index_cache fs |}.

(** [fields.iter().position(|f| f.field_name == name)] and [.find]. *)
Definition position_of (name : ustr) (fs : list FieldDef) : option nat :=
  fst <$> list_find (λ f, field_name f = name) fs.

Definition find_field (name : ustr) (fs : list FieldDef) : option FieldDef :=
  snd <$> list_find (λ f, field_name f = name) fs.

Definition field (schema : TableSchema) (name : ustr) : option FieldDef :=
  let normalized := to_ascii_lowercase (trim name) in
  match field_indexes_by_name schema !! normalized ≫= (λ index, fields schema !! index) with
  | Some f => Some f
  | None => find_field normalized (fields schema)
  end.

(** The loop of [validate] with its two sets. *)
Fixpoint validate_fields (fs : list FieldDef) (seen_names : gset ustr) (seen_seqnos : gset Z) :
    result unit SchemaError :=
  match fs with
  | [] => Ok tt
  | f :: fs =>
      let? normalized_name := map_err (λ _, InvalidFieldName) (normalize_field_name (field_name f)) in
      let? _ := map_err (λ _, InvalidFieldType) (validate_field_kind (field_type f)) in
      if bool_decide (normalized_name ∈ seen_names) then Err DuplicateField
      else if bool_decide (seqno f ∈ seen_seqnos) then Err SeqnoConflict
      else validate_fields fs ({[normalized_name]} ∪ seen_names) ({[seqno f]} ∪ seen_seqnos)
  end.

Definition validate (schema : TableSchema) : result unit SchemaError :=
  validate_fields (fields schema) ∅ ∅.

(** ** Edits *)

Definition add_field (f : FieldDef) (schema : TableSchema) : result TableSchema SchemaError :=
  let? name := map_err (λ _, InvalidFieldName) (normalize_field_name (field_name f)) in
  let f := with_field_name name f in
  let? _ := map_err (λ _, InvalidFieldType) (validate_field_kind (field_type f)) in
  if existsb (λ g, eqb (field_name g) (field_name f)) (fields schema) then Err DuplicateField
  else if existsb (λ g, seqno g =? seqno f) (fields schema) then Err SeqnoConflict
  else Ok (TableSchema_new (fields schema ++ [f])).

Definition remove_field (name : ustr) (schema : TableSchema) : result TableSchema SchemaError :=
  let normalized := to_ascii_lowercase (trim name) in
  match position_of normalized (fields schema) with
  | None => Err FieldNotFound
  | Some pos => Ok (TableSchema_new (delete pos (fields schema)))
  end.

Definition update_field (f : FieldDef) (schema : TableSchema) : result TableSchema SchemaError :=
  let? name := map_err (λ _, InvalidFieldName) (normalize_field_name (field_name f)) in
  let f := with_field_name name f in
  let? _ := map_err (λ _, InvalidFieldType) (validate_field_kind (field_type f)) in
  match position_of (field_name f) (fields schema) with
  | None => Err FieldNotFound
  | Some target_idx =>
      if existsb (λ '(idx, g), negb (Nat.eqb idx target_idx) && (seqno g =? seqno f))
           (imap pair (fields schema))
      then Err SeqnoConflict
      else Ok (TableSchema_new (<[target_idx := f]> (fields schema)))
  end.

(** ** Well-formed schemas *)

(** A canonical name is not empty and is its own normal form. *)
Definition canonical_name (name : ustr) : Prop := normalize_field_name name = Ok name.

Definition field_ok (f : FieldDef) : Prop :=
  canonical_name (field_name f) ∧ validate_field_kind (field_type f) = Ok tt.

Definition fields_wf (fs : list FieldDef) : Prop :=
  Forall field_ok fs ∧ NoDup (field_name <$> fs) ∧ NoDup (seqno <$> fs).

Record schema_wf (schema : TableSchema) : Prop := {
  swf_fields : fields_wf (fields schema);
  swf_index : field_indexes_by_name schema = rebuild_field_index_cache (fields schema);
}.

Lemma schema_wf_new fs : fields_wf fs → schema_wf (TableSchema_new fs).
Proof. by constructor. Qed.

(** ** The name index *)

Lemma index_step_Some (l : list (nat * FieldDef)) (m : gmap ustr nat) name i :
  m !! name = Some i →
  foldl index_field m l !! name = Some i.
Proof.
  revert m. induction l as [|[j f] l IH]; intros m Hm; [done|]. simpl. apply IH.
  unfold index_field. simpl. destruct (m !! field_name f) eqn:E; [done|]. rewrite lookup_insert_ne by congruence. done.
Qed.

Lemma rebuild_lookup_from (fs : list FieldDef) (k : nat) (m : gmap ustr nat) name :
  m !! name = None →
  foldl index_field m (imap (λ i f, ((k + i)%nat, f)) fs) !! name
  = (λ i, (k + i)%nat) <$> position_of name fs.
Proof.
  revert k m. induction fs as [|f fs IH]; intros k m Hm; [done|].
  rewrite imap_cons. simpl. unfold index_field at 2. simpl. unfold position_of in *. cbn [list_find].
  assert (imap ((λ i f0, ((k + i)%nat, f0)) ∘ S) fs = imap (λ i f0, ((S k + i)%nat, f0)) fs) as ->.
  { apply imap_ext. intros i x _. simpl. f_equal. lia. }
  destruct (decide (field_name f = name)) as [<-|Hne].
  - rewrite Hm. rewrite (index_step_Some _ _ _ (k + 0)%nat); [done|]. by rewrite lookup_insert_eq.
  - rewrite (IH (S k)).
    + destruct (list_find _ fs) as [[i g]|]; simpl; [f_equal; lia|done].
    + destruct (m !! field_name f); [done|]. by rewrite lookup_insert_ne.
Qed.

Lemma rebuild_lookup fs name : rebuild_field_index_cache fs !! name = position_of name fs.
Proof.
  unfold rebuild_field_index_cache. pose proof (rebuild_lookup_from fs 0 ∅ name (lookup_empty _)) as H.
  replace (imap pair fs) with (imap (λ i f, ((0 + i)%nat, f)) fs) by (by apply imap_ext).
  rewrite H. by destruct (position_of name fs).
Qed.

Lemma field_find schema name :
  field_indexes_by_name schema = rebuild_field_index_cache (fields schema) →
  field schema name = find_field (to_ascii_lowercase (trim name)) (fields schema).
Proof.
  intros Hidx. unfold field. rewrite Hidx, rebuild_lookup. unfold position_of, find_field.
  destruct (list_find _ (fields schema)) as [[i f]|] eqn:E; [|done].
  simpl. by apply list_find_Some in E as (-> & _ & _).
Qed.

(** ** The abstract schema: a finite map from canonical names to definitions *)

Definition as_map (schema : TableSchema) : gmap ustr FieldDef :=
  list_to_map ((λ f, (field_name f, f)) <$> fields schema).

Inductive SchemaEdit :=
| AddField (f : FieldDef)
| RemoveField (name : ustr)
| UpdateField (f : FieldDef).

Definition apply_edit (e : SchemaEdit) (schema : TableSchema) : result TableSchema SchemaError :=
  match e with
  | AddField f => add_field f schema
  | RemoveField name => remove_field name schema
  | UpdateField f => update_field f schema
  end.

(** Another field of the map uses [n]. *)
Definition seqno_taken (name : ustr) (n : Z) (m : gmap ustr FieldDef) : Prop :=
  map_Exists (λ k g, k ≠ name ∧ seqno g = n) m.

(** The definition an edit stores: the caller's, under its canonical name. *)
Definition checked_field (f : FieldDef) : result FieldDef SchemaError :=
  let? name := map_err (λ _, InvalidFieldName) (normalize_field_name (field_name f)) in
  let? _ := map_err (λ _, InvalidFieldType) (validate_field_kind (field_type f)) in
  Ok (with_field_name name f).

(** What an edit promises, on the map. *)
Definition edit_spec (e : SchemaEdit) (m : gmap ustr FieldDef) :
    result (gmap ustr FieldDef) SchemaError :=
  match e with
  | AddField f =>
      let? f := checked_field f in
      match m !! field_name f with
      | Some _ => Err DuplicateField
      | None => if decide (seqno_taken (field_name f) (seqno f) m) then Err SeqnoConflict
                else Ok (<[field_name f := f]> m)
      end
  | RemoveField name =>
      let name := to_ascii_lowercase (trim name) in
      match m !! name with
      | None => Err FieldNotFound
      | Some _ => Ok (delete name m)
      end
  | UpdateField f =>
      let? f := checked_field f in
      match m !! field_name f with
      | None => Err FieldNotFound
      | Some _ => if decide (seqno_taken (field_name f) (seqno f) m) then Err SeqnoConflict
                  else Ok (<[field_name f := f]> m)
      end
  end.

Lemma find_field_cons name f fs :
  find_field name (f :: fs) = if decide (field_name f = name) then Some f else find_field name fs.
Proof.
  unfold find_field. cbn [list_find]. destruct (decide _); [done|]. by destruct (list_find _ fs) as [[]|].
Qed.

Lemma position_of_cons name f fs :
  position_of name (f :: fs) = if decide (field_name f = name) then Some 0%nat else S <$> position_of name fs.
Proof.
  unfold position_of. cbn [list_find]. destruct (decide _); [done|]. by destruct (list_find _ fs) as [[]|].
Qed.

Lemma as_map_lookup schema name : as_map schema !! name = find_field name (fields schema).
Proof.
  unfold as_map. induction (fields schema) as [|f fs IH]; [done|].
  rewrite find_field_cons, fmap_cons. simpl. destruct (decide (field_name f = name)) as [<-|Hne].
  - by rewrite lookup_insert_eq.
  - by rewrite lookup_insert_ne.
Qed.

Lemma find_field_Some name fs f : find_field name fs = Some f → f ∈ fs ∧ field_name f = name.
Proof.
  unfold find_field. destruct (list_find _ fs) as [[i g]|] eqn:E; [|done]. intros [= <-].
  apply list_find_Some in E as (Hi & Hn & _). eauto using list_elem_of_lookup_2.
Qed.

Lemma find_field_elem fs f : NoDup (field_name <$> fs) → f ∈ fs → find_field (field_name f) fs = Some f.
Proof.
  induction fs as [|g fs IH]; [set_solver|]. rewrite fmap_cons, NoDup_cons, find_field_cons.
  intros [Hn Hd] [->|Hf]%elem_of_cons; [by rewrite decide_True|].
  rewrite decide_False; [auto|]. intros Heq. apply Hn. rewrite Heq. by apply list_elem_of_fmap_2.
Qed.

Lemma find_field_None name fs : find_field name fs = None ↔ name ∉ field_name <$> fs.
Proof.
  induction fs as [|f fs IH]; [set_solver|]. rewrite find_field_cons, fmap_cons, not_elem_of_cons, <- IH.
  destruct (decide (field_name f = name)); naive_solver.
Qed.

Lemma position_find name fs : is_Some (position_of name fs) ↔ is_Some (find_field name fs).
Proof. unfold position_of, find_field. destruct (list_find _ fs); split; intros [? ?]; simplify_eq/=; eauto. Qed.

Lemma position_of_None name fs : position_of name fs = None ↔ find_field name fs = None.
Proof. pose proof (position_find name fs). rewrite !eq_None_not_Some. tauto. Qed.

Lemma position_of_lookup name fs i :
  position_of name fs = Some i → ∃ f, fs !! i = Some f ∧ field_name f = name ∧ find_field name fs = Some f.
Proof.
  unfold position_of, find_field. destruct (list_find _ fs) as [[j g]|] eqn:E; [|done]. intros [= <-].
  apply list_find_Some in E as (Hi & Hn & _). eauto.
Qed.

Lemma find_field_app fs f name :
  find_field name (fs ++ [f]) =
  match find_field name fs with
  | Some g => Some g
  | None => if decide (field_name f = name) then Some f else None
  end.
Proof.
  induction fs as [|g fs IH]; [rewrite app_nil_l, find_field_cons; by destruct (decide _)|].
  rewrite <- app_comm_cons, !find_field_cons, IH. by destruct (decide (field_name g = name)), (find_field name fs).
Qed.

Lemma find_field_delete fs i k name :
  NoDup (field_name <$> fs) → position_of k fs = Some i →
  find_field name (delete i fs) = if decide (name = k) then None else find_field name fs.
Proof.
  revert i. induction fs as [|g fs IH]; intros i; [done|].
  rewrite fmap_cons, NoDup_cons, position_of_cons. intros [Hn Hd].
  destruct (decide (field_name g = k)) as [<-|Hne].
  - intros [= <-]. cbn [delete list_delete]. rewrite find_field_cons.
    destruct (decide (name = field_name g)) as [->|]; [by apply find_field_None|]. by destruct (decide (field_name g = name)); [congruence|].
  - destruct (position_of k fs) as [j|] eqn:E; [|done]. intros [= <-].
    change (delete (S j) (g :: fs)) with (g :: delete j fs). rewrite !find_field_cons, (IH j Hd eq_refl).
    destruct (decide (field_name g = name)), (decide (name = k)); congruence.
Qed.

Lemma find_field_insert fs i f name :
  position_of (field_name f) fs = Some i →
  find_field name (<[i := f]> fs) = if decide (name = field_name f) then Some f else find_field name fs.
Proof.
  revert i. induction fs as [|g fs IH]; intros i; [done|]. rewrite position_of_cons.
  destruct (decide (field_name g = field_name f)) as [Heq|Hne].
  - intros [= <-]. cbn [insert list_insert]. rewrite !find_field_cons.
    destruct (decide (name = field_name f)), (decide (field_name f = name)), (decide (field_name g = name)); congruence.
  - destruct (position_of _ fs) as [j|] eqn:E; [|done]. intros [= <-].
    change (<[S j := f]> (g :: fs)) with (g :: <[j := f]> fs). rewrite !find_field_cons, (IH j eq_refl).
    destruct (decide (field_name g = name)), (decide (name = field_name f)); congruence.
Qed.

(** ** Edits keep schemas well-formed *)

Lemma lowercase_trim_idemp s :
  to_ascii_lowercase (trim (to_ascii_lowercase (trim s))) = to_ascii_lowercase (trim s).
Proof.
  rewrite (trim_id (to_ascii_lowercase (trim s))) by (apply lowercase_ends, trim_ends).
  unfold to_ascii_lowercase. rewrite <- list_fmap_compose. apply list_fmap_ext. intros _ c _. apply lowercase_idemp.
Qed.

Lemma normalize_field_name_canonical name n : normalize_field_name name = Ok n → canonical_name n.
Proof.
  unfold canonical_name, normalize_field_name.
  destruct (is_empty (to_ascii_lowercase (trim name))) eqn:E; [done|]. intros [= <-].
  by rewrite lowercase_trim_idemp, E.
Qed.

Lemma canonical_name_id name : canonical_name name → to_ascii_lowercase (trim name) = name.
Proof. unfold canonical_name, normalize_field_name. destruct (is_empty _); [done|]. by intros [= H]. Qed.

Lemma checked_field_ok f f' : checked_field f = Ok f' → field_ok f'.
Proof.
  unfold checked_field. destruct (normalize_field_name _) as [n|] eqn:E; [|done]. simpl.
  destruct (validate_field_kind _) as [[]|] eqn:E2; [|done]. intros [= <-].
  split; [by eapply normalize_field_name_canonical|done].
Qed.

Lemma fields_wf_snoc fs f :
  fields_wf fs → field_ok f → field_name f ∉ field_name <$> fs → seqno f ∉ seqno <$> fs →
  fields_wf (fs ++ [f]).
Proof.
  intros (Hok & Hn & Hs) Hf Hfn Hfs. repeat split.
  - apply Forall_app. auto.
  - rewrite fmap_app. apply NoDup_app. split; [done|]. split; [set_solver|apply NoDup_singleton].
  - rewrite fmap_app. apply NoDup_app. split; [done|]. split; [set_solver|apply NoDup_singleton].
Qed.

Lemma fields_wf_sublist fs fs' : sublist fs' fs → fields_wf fs → fields_wf fs'.
Proof.
  intros Hsub (Hok & Hn & Hs). split.
  { apply Forall_forall. intros x Hx. eapply Forall_forall; [exact Hok|]. by eapply sublist_subseteq. }
  split; (eapply sublist_NoDup; [|by apply fmap_sublist]); done.
Qed.

Lemma NoDup_insert {A} (l : list A) i x :
  NoDup l → (∀ j y, j ≠ i → l !! j = Some y → y ≠ x) → NoDup (<[i := x]> l).
Proof.
  rewrite !NoDup_alt. intros Hl Hx j k y.
  destruct (decide (j = i)) as [->|Hj], (decide (k = i)) as [->|Hk]; [done|..].
  - intros [[_ [-> _]]|[]]%list_lookup_insert_Some; [|congruence].
    rewrite list_lookup_insert_ne by done. intros Hy. by destruct (Hx k y Hk Hy).
  - rewrite list_lookup_insert_ne by done. intros Hy [[_ [-> _]]|[]]%list_lookup_insert_Some; [|congruence].
    by destruct (Hx j y Hj Hy).
  - rewrite !list_lookup_insert_ne by done. apply Hl.
Qed.

Lemma fields_wf_insert fs f i :
  fields_wf fs → field_ok f → position_of (field_name f) fs = Some i →
  (∀ j g, j ≠ i → fs !! j = Some g → seqno g ≠ seqno f) → fields_wf (<[i := f]> fs).
Proof.
  intros (Hok & Hn & Hs) Hf Hi Hfs. repeat split.
  - by apply Forall_insert.
  - rewrite list_fmap_insert, list_insert_id; [done|]. rewrite list_lookup_fmap.
    apply position_of_lookup in Hi as (g & -> & Hg & _). by rewrite <- Hg.
  - rewrite list_fmap_insert. apply NoDup_insert; [done|]. intros j y Hj. rewrite list_lookup_fmap.
    destruct (fs !! j) as [g|] eqn:E; [|done]. intros [= <-]. eauto.
Qed.

(** ** Guards read off the map *)

Lemma seqno_taken_elem fs f :
  NoDup (field_name <$> fs) →
  seqno_taken (field_name f) (seqno f) (as_map (TableSchema_new fs)) ↔
  ∃ g, g ∈ fs ∧ field_name g ≠ field_name f ∧ seqno g = seqno f.
Proof.
  intros Hd. unfold seqno_taken, map_Exists. split.
  - intros (k & g & Hg & Hne & Hs). rewrite as_map_lookup in Hg. apply find_field_Some in Hg as [? <-]. eauto.
  - intros (g & Hg & Hne & Hs). exists (field_name g), g. rewrite as_map_lookup. simpl.
    split; [by apply find_field_elem|done].
Qed.

Lemma existsb_elem {A} (p : A → bool) l : existsb p l = true ↔ ∃ x, x ∈ l ∧ p x = true.
Proof. rewrite existsb_exists. by setoid_rewrite list_elem_of_In. Qed.

Lemma existsb_ext_prop {A} (p : A → bool) l (P : Prop) `{Decision P} :
  (existsb p l = true ↔ P) → existsb p l = bool_decide P.
Proof. intros Hp. destruct (existsb p l); symmetry; [apply bool_decide_eq_true|apply bool_decide_eq_false]; naive_solver. Qed.

Lemma named_existsb fs f :
  existsb (λ g, eqb (field_name g) (field_name f)) fs = bool_decide (is_Some (find_field (field_name f) fs)).
Proof.
  apply existsb_ext_prop. rewrite existsb_elem. split.
  - intros (g & Hg & Heq%eqb_eq). destruct (find_field (field_name f) fs) eqn:E; [eauto|].
    apply find_field_None in E. destruct E. rewrite <- Heq. by apply list_elem_of_fmap_2.
  - intros [g [Hg Hn]%find_field_Some]. exists g. by rewrite eqb_true.
Qed.

Lemma elem_of_imap_pair {A} (l : list A) i x : (i, x) ∈ imap pair l ↔ l !! i = Some x.
Proof.
  rewrite list_elem_of_lookup. split.
  - intros [j Hj]. rewrite list_lookup_imap in Hj. destruct (l !! j) eqn:E; naive_solver.
  - intros Hi. exists i. by rewrite list_lookup_imap, Hi.
Qed.

(** In [update_field] the fields at other positions are those of other names. *)
Lemma other_seqno_existsb fs f i :
  NoDup (field_name <$> fs) → position_of (field_name f) fs = Some i →
  existsb (λ '(idx, g), negb (Nat.eqb idx i) && (seqno g =? seqno f)) (imap pair fs)
  = bool_decide (seqno_taken (field_name f) (seqno f) (as_map (TableSchema_new fs))).
Proof.
  intros Hd Hi. apply existsb_ext_prop. rewrite existsb_elem, seqno_taken_elem by done.
  apply position_of_lookup in Hi as (h & Hh & Hhn & _). split.
  - intros ([j g] & Hj%elem_of_imap_pair & [Hne%negb_true_iff%Nat.eqb_neq Hs%Z.eqb_eq]%andb_true_iff).
    exists g. split; [by eapply list_elem_of_lookup_2|]. split; [|done]. intros Heq. apply Hne.
    apply (NoDup_lookup (field_name <$> fs) j i (field_name f) Hd); rewrite list_lookup_fmap.
    + by rewrite Hj, <- Heq.
    + by rewrite Hh, <- Hhn.
  - intros (g & [j Hj]%list_elem_of_lookup & Hne & Hs). exists (j, g). rewrite elem_of_imap_pair. split; [done|].
    rewrite Hs, Z.eqb_refl, andb_true_r. apply negb_true_iff, Nat.eqb_neq. intros ->. congruence.
Qed.

Lemma fresh_seqno_existsb fs f :
  NoDup (field_name <$> fs) → find_field (field_name f) fs = None →
  existsb (λ g, seqno g =? seqno f) fs
  = bool_decide (seqno_taken (field_name f) (seqno f) (as_map (TableSchema_new fs))).
Proof.
  intros Hd Hn%find_field_None. apply existsb_ext_prop. rewrite existsb_elem, seqno_taken_elem by done.
  setoid_rewrite Z.eqb_eq. split; [|naive_solver]. intros (g & Hg & Hs). exists g. split; [done|]. split; [|done].
  intros Heq. apply Hn. rewrite <- Heq. by apply list_elem_of_fmap_2.
Qed.

(** ** Refinement *)

(** An edit and its promise agree: the same error, or a well-formed schema that is the promised map. *)
Definition edit_refines (r : result TableSchema SchemaError)
    (spec : result (gmap ustr FieldDef) SchemaError) : Prop :=
  match r, spec with
  | Ok schema, Ok m => schema_wf schema ∧ as_map schema = m
  | Err e, Err e' => e = e'
  | _, _ => False
  end.

Lemma add_field_checked f schema :
  add_field f schema =
  let? g := checked_field f in
  if existsb (λ h, eqb (field_name h) (field_name g)) (fields schema) then Err DuplicateField
  else if existsb (λ h, seqno h =? seqno g) (fields schema) then Err SeqnoConflict
  else Ok (TableSchema_new (fields schema ++ [g])).
Proof.
  unfold add_field, checked_field. destruct (normalize_field_name _); [|done]. simpl.
  by destruct (validate_field_kind _).
Qed.

Lemma update_field_checked f schema :
  update_field f schema =
  let? g := checked_field f in
  match position_of (field_name g) (fields schema) with
  | None => Err FieldNotFound
  | Some i =>
      if existsb (λ '(idx, h), negb (Nat.eqb idx i) && (seqno h =? seqno g)) (imap pair (fields schema))
      then Err SeqnoConflict
      else Ok (TableSchema_new (<[i := g]> (fields schema)))
  end.
Proof.
  unfold update_field, checked_field. destruct (normalize_field_name _); [|done]. simpl.
  by destruct (validate_field_kind _).
Qed.

Lemma add_field_refines schema f :
  schema_wf schema → edit_refines (add_field f schema) (edit_spec (AddField f) (as_map schema)).
Proof.
  intros [Hwf _]. pose proof Hwf as (_ & Hn & _). rewrite add_field_checked. unfold edit_spec.
  destruct (checked_field f) as [g|e] eqn:Ec; [|done]. rewrite as_map_lookup, named_existsb.
  destruct (find_field (field_name g) (fields schema)) as [h|] eqn:Ef; [by rewrite bool_decide_true by eauto|].
  rewrite bool_decide_false by (by intros [? ?]). rewrite fresh_seqno_existsb by done.
  change (as_map (TableSchema_new (fields schema))) with (as_map schema).
  destruct (decide _) as [Ht|Ht]; [by rewrite bool_decide_true|]. rewrite bool_decide_false by done. split.
  - apply schema_wf_new, fields_wf_snoc; [done|by eapply checked_field_ok|by apply find_field_None|].
    intros (h & Hs & Hh)%list_elem_of_fmap. apply Ht. apply seqno_taken_elem; [done|].
    exists h. split; [done|]. split; [|done]. intros Heq. apply find_field_None in Ef. apply Ef.
    rewrite <- Heq. by apply list_elem_of_fmap_2.
  - apply map_eq. intros k. rewrite as_map_lookup. simpl. rewrite find_field_app, <- as_map_lookup.
    destruct (decide (field_name g = k)) as [<-|Hne].
    + by rewrite lookup_insert_eq, as_map_lookup, Ef.
    + rewrite lookup_insert_ne by done. by destruct (as_map schema !! k).
Qed.

Lemma remove_field_refines schema name :
  schema_wf schema → edit_refines (remove_field name schema) (edit_spec (RemoveField name) (as_map schema)).
Proof.
  intros [Hwf _]. pose proof Hwf as (_ & Hn & _). unfold remove_field, edit_spec. rewrite as_map_lookup.
  set (n := to_ascii_lowercase (trim name)). destruct (position_of n (fields schema)) as [i|] eqn:Ei.
  - pose proof Ei as (h & Hh & _ & ->)%position_of_lookup. split.
    + apply schema_wf_new. eapply fields_wf_sublist; [apply sublist_delete|done].
    + apply map_eq. intros k. rewrite as_map_lookup. simpl. rewrite (find_field_delete _ i n) by done.
      destruct (decide (k = n)) as [->|]; [by rewrite lookup_delete_eq|].
      by rewrite lookup_delete_ne, as_map_lookup.
  - apply position_of_None in Ei. by rewrite Ei.
Qed.

Lemma update_field_refines schema f :
  schema_wf schema → edit_refines (update_field f schema) (edit_spec (UpdateField f) (as_map schema)).
Proof.
  intros [Hwf _]. pose proof Hwf as (_ & Hn & _). rewrite update_field_checked. unfold edit_spec.
  destruct (checked_field f) as [g|e] eqn:Ec; [|done]. rewrite as_map_lookup.
  destruct (position_of (field_name g) (fields schema)) as [i|] eqn:Ei.
  2: { apply position_of_None in Ei. by rewrite Ei. }
  pose proof Ei as (h & Hh & Hhn & ->)%position_of_lookup. rewrite other_seqno_existsb by done.
  change (as_map (TableSchema_new (fields schema))) with (as_map schema).
  destruct (decide _) as [Ht|Ht]; [by rewrite bool_decide_true|]. rewrite bool_decide_false by done. split.
  - apply schema_wf_new, fields_wf_insert; [done|by eapply checked_field_ok|done|].
    intros j k Hj Hk Hs. apply Ht. apply seqno_taken_elem; [done|]. exists k.
    split; [by eapply list_elem_of_lookup_2|]. split; [|done]. intros Heq. apply Hj.
    apply (NoDup_lookup (field_name <$> fields schema) j i (field_name g) Hn); rewrite list_lookup_fmap.
    + by rewrite Hk, <- Heq.
    + by rewrite Hh, <- Hhn.
  - apply map_eq. intros k. rewrite as_map_lookup. simpl. rewrite (find_field_insert _ i) by done.
    destruct (decide (k = field_name g)) as [->|]; [by rewrite lookup_insert_eq|].
    by rewrite lookup_insert_ne, as_map_lookup.
Qed.

(** ** Validation decides well-formedness *)

Lemma validate_fields_spec fs seen_names seen_seqnos :
  Forall (canonical_name ∘ field_name) fs →
  validate_fields fs seen_names seen_seqnos = Ok tt ↔
  fields_wf fs ∧ (∀ f, f ∈ fs → field_name f ∉ seen_names ∧ seqno f ∉ seen_seqnos).
Proof.
  revert seen_names seen_seqnos. induction fs as [|f fs IH]; intros names seqnos Hc.
  { split; [|done]. intros _. split; [|set_solver]. repeat split; try constructor. }
  apply Forall_cons in Hc as [Hf Hc]. cbn [validate_fields]. rewrite Hf. simpl.
  unfold fields_wf, field_ok at 1. rewrite Forall_cons, !fmap_cons, !NoDup_cons.
  destruct (validate_field_kind (field_type f)) as [[]|] eqn:Ek; simpl.
  2: { split; [done|]. intros [[[[_ ?] _] _] _]. congruence. }
  destruct (bool_decide_reflect (field_name f ∈ names)) as [?|Hnn].
  { split; [done|]. intros [_ Hd]. by destruct (Hd f (list_elem_of_here _ _)) as [[] _]. }
  destruct (bool_decide_reflect (seqno f ∈ seqnos)) as [?|Hns].
  { split; [done|]. intros [_ Hd]. by destruct (Hd f (list_elem_of_here _ _)) as [_ []]. }
  rewrite IH by done. unfold fields_wf. rewrite !list_elem_of_fmap. split.
  - intros [(Hok & Hn & Hs) Hd]. split; [repeat split; try done|].
    + intros (g & Hg & Hgf). specialize (Hd g Hgf). set_solver.
    + intros (g & Hg & Hgf). specialize (Hd g Hgf). set_solver.
    + intros g [->|Hg]%elem_of_cons; [done|]. specialize (Hd g Hg). set_solver.
  - intros [([_ Hok] & [Hfn Hn] & [Hfs Hs]) Hd]. split; [done|]. intros g Hg.
    specialize (Hd g (list_elem_of_further _ _ _ Hg)). rewrite !not_elem_of_union, !not_elem_of_singleton.
    naive_solver.
Qed.

Lemma validate_wf schema :
  Forall (canonical_name ∘ field_name) (fields schema) → validate schema = Ok tt ↔ fields_wf (fields schema).
Proof. intros Hc. unfold validate. rewrite validate_fields_spec by done. set_solver. Qed.

Lemma fields_wf_canonical fs : fields_wf fs → Forall (canonical_name ∘ field_name) fs.
Proof. intros [Hok _]. eapply Forall_impl; [exact Hok|]. by intros f []. Qed.

(** ** A schema change: edits in sequence, the first error ends it *)

Fixpoint apply_edits (edits : list SchemaEdit) (schema : TableSchema) : result TableSchema SchemaError :=
  match edits with
  | [] => Ok schema
  | e :: edits => let? schema := apply_edit e schema in apply_edits edits schema
  end.

Fixpoint edits_spec (edits : list SchemaEdit) (m : gmap ustr FieldDef) :
    result (gmap ustr FieldDef) SchemaError :=
  match edits with
  | [] => Ok m
  | e :: edits => let? m := edit_spec e m in edits_spec edits m
  end.

Lemma apply_edit_refines e schema :
  schema_wf schema → edit_refines (apply_edit e schema) (edit_spec e (as_map schema)).
Proof. destruct e; [apply add_field_refines|apply remove_field_refines|apply update_field_refines]. Qed.

Lemma apply_edits_refines edits schema :
  schema_wf schema → edit_refines (apply_edits edits schema) (edits_spec edits (as_map schema)).
Proof.
  revert schema. induction edits as [|e edits IH]; intros schema Hwf; [done|]. cbn [apply_edits edits_spec].
  pose proof (apply_edit_refines e schema Hwf) as Hr. unfold edit_refines in Hr.
  destruct (apply_edit e schema), (edit_spec e (as_map schema)); try done. destruct Hr as [Hwf' <-]. auto.
Qed.

(** C37: A schema change does what its edits promise.  Read as a finite map from canonical field names
    to definitions, a well-formed schema under any sequence of add, remove and update edits becomes the
    map with those insertions, deletions and replacements, or the change fails with the error of the
    first edit whose guard fails (invalid name or type, duplicate or unknown field, sequence number in
    use).  The resulting schema is well-formed again, passes [validate], and looking a field up through
    its name index returns the definition of the map, whatever the case and padding of the name. *)
Theorem schema_edits_refine_map edits schema :
  schema_wf schema →
  edit_refines (apply_edits edits schema) (edits_spec edits (as_map schema)) ∧
  ∀ schema', apply_edits edits schema = Ok schema' →
    validate schema' = Ok tt ∧
    ∀ name, field schema' name = as_map schema' !! to_ascii_lowercase (trim name).
Proof.
  intros Hwf. pose proof (apply_edits_refines edits schema Hwf) as Hr. split; [done|].
  intros schema' E. rewrite E in Hr. unfold edit_refines in Hr. destruct (edits_spec edits _); [|done].
  destruct Hr as [[Hf Hi] _]. split; [by apply validate_wf; [apply fields_wf_canonical|]|].
  intros name. by rewrite field_find, as_map_lookup.
Qed.
