(* ===== verification/RowCodec.v ===== *)
(** * The row codec

    Models the encoding of a row against its table's schema ([engine/database/row_payload.rs], the
    part after the encryption envelope): the ordinal payload, the two older payload shapes that are
    still read, the process-wide cache of schema orderings, and the four decoders.  The conversion of
    a value to its field's type and the comparison of stored values
    ([schema/migration/conversion.rs]) are arguments; nothing is assumed of them. *)

From Stdlib Require Import ZArith Lia.
From stdpp Require Import base gmap list strings sorting.
From S2P Require Import Prelude Record RowPayload Identifiers Schema.

Abbreviation OrdinalRowPayload := (list (option bytes)).
Abbreviation row_map := (gmap ustr bytes).

Inductive TypeConversionPolicy := Safe | Force.

(** What the codec uses of the stored-value module. *)
Class FieldValues := {
  convert_value_to_field_type : bytes → FieldKind → TypeConversionPolicy → option bytes;
  compare_stored_field_values : bytes → bytes → comparison
}.

(** [DefaultHasher] over the number of fields and their sequence numbers and names. *)
Class SchemaHasher := { hash_shape : nat → list (Z * ustr) → Z }.

(** ** Ordinals *)

(** [String::cmp]: the order of the UTF-8 bytes is the order of the scalar values. *)
Fixpoint str_leb (a b : ustr) : bool :=
  match a, b with
  | [], _ => true
  | _ :: _, [] => false
  | x :: a, y :: b => (x <? y) || ((x =? y) && str_leb a b)
  end.

(** Sequence number first, then name. *)
Definition ordinal_leb (a b : Z * ustr) : bool :=
  (a.1 <? b.1) || ((a.1 =? b.1) && str_leb a.2 b.2).

Definition ordinal_le (a b : Z * ustr) : Prop := ordinal_leb a b = true.

#[global] Instance ordinal_le_dec a b : Decision (ordinal_le a b).
Proof. unfold ordinal_le. apply _. Defined.

(** The part of a schema the codec depends on. *)
Definition schema_shape (schema : TableSchema) : list (Z * ustr) :=
  (λ f, (seqno f, field_name f)) <$> fields schema.

Definition field_names_by_ordinal (schema : TableSchema) : list ustr :=
  snd <$> merge_sort ordinal_le (schema_shape schema).

Record SchemaOrdinalCacheEntry := {
  ordered_field_names : list ustr;
  field_name_index : gmap ustr nat;
  field_seqno_index : gmap ustr nat;
  max_seqno : Z;
}.

(** [collect::<HashMap<_, _>>()]: the last pair of a key wins. *)
Definition collect_index (pairs : list (ustr * nat)) : gmap ustr nat :=
  foldl (λ m '(k, i), <[k := i]> m) ∅ pairs.

Definition seqno_slot (f : FieldDef) : option (ustr * nat) :=
  if seqno f =? 0 then None else Some (field_name f, Z.to_nat (saturating_sub (seqno f) 1)).

Definition build_entry (schema : TableSchema) : SchemaOrdinalCacheEntry :=
  let names := field_names_by_ordinal schema in
  {| ordered_field_names := names;
     field_name_index := collect_index (imap (λ i name, (name, i)) names);
     field_seqno_index := collect_index (omap seqno_slot (fields schema));
     max_seqno := foldr Z.max 0 (seqno <$> fields schema) |}.

(** ** The schema cache *)

Definition SCHEMA_ORDINAL_CACHE_MAX_ENTRIES : nat := 1024.

(** [SCHEMA_ORDINAL_CACHE]; [None] when its lock is poisoned. *)
Abbreviation SchemaCache := (option (gmap Z SchemaOrdinalCacheEntry)).

Section cache.
Context `{SchemaHasher}.

Definition schema_cache_key (schema : TableSchema) : Z :=
  hash_shape (length (fields schema)) (schema_shape schema).

Definition cache_entry_matches_schema (entry : SchemaOrdinalCacheEntry) (schema : TableSchema) : bool :=
  Nat.eqb (length (ordered_field_names entry)) (length (fields schema)) &&
  forallb (λ f, bool_decide (is_Some (field_name_index entry !! field_name f))) (fields schema).

Definition schema_ordinal_cache_entry (schema : TableSchema) (cache : SchemaCache) :
    SchemaOrdinalCacheEntry * SchemaCache :=
  match cache with
  | Some guard =>
      let key := schema_cache_key schema in
      let miss :=
        let entry := build_entry schema in
        let guard := if Nat.leb SCHEMA_ORDINAL_CACHE_MAX_ENTRIES (size guard) then ∅ else guard in
        (entry, Some (<[key := entry]> guard)) in
      match guard !! key with
      | Some entry => if cache_entry_matches_schema entry schema then (entry, Some guard) else miss
      | None => miss
      end
  | None => (build_entry schema, None)
  end.
End cache.

(** ** Payload shapes *)

Definition use_seqno_slot_decoding (payload_len ordered_field_count : nat) (max_seqno : Z) : bool :=
  Nat.ltb ordered_field_count payload_len && (Z.of_nat ordered_field_count <? max_seqno)
  && (Z.of_nat payload_len <=? max_seqno).

Definition row_index_for_field (field_name : ustr) (payload_len ordered_field_count : nat)
    (max_seqno : Z) (compact_index seqno_index : gmap ustr nat) : option nat :=
  if use_seqno_slot_decoding payload_len ordered_field_count max_seqno
  then seqno_index !! field_name else compact_index !! field_name.

Inductive CompatibleRowPayload :=
| Ordinal (row : OrdinalRowPayload)
| LegacyMap (row : row_map)
| LegacyOrdinal (row : list bytes).

Section codec.
Context {ordinal_bincode : Bincode OrdinalRowPayload} {map_bincode : Bincode row_map}.
Context {legacy_ordinal_bincode : Bincode (list bytes)}.
Context `{Bincode EncryptedRowPayloadEnvelope} `{Bincode LegacyEncryptedRowPayloadEnvelope}.

Definition decode_compatible_row_payload_shape (payload : bytes) : result CompatibleRowPayload ustr :=
  match deserialize (A := OrdinalRowPayload) payload with
  | Some row => Ok (Ordinal row)
  | None =>
  match deserialize (A := row_map) payload with
  | Some row => Ok (LegacyMap row)
  | None =>
  match deserialize (A := list bytes) payload with
  | Some row => Ok (LegacyOrdinal row)
  | None =>
      let? envelope := decode_encrypted_row_payload_envelope payload in
      match envelope with
      | Some _ => Err (lit "row payload is encrypted at rest and must be decrypted before decode")
      | None => Err (lit "row payload decode failed")
      end
  end end end.

Definition index_of (entry : SchemaOrdinalCacheEntry) (payload_len : nat) (name : ustr) : option nat :=
  row_index_for_field name payload_len (length (ordered_field_names entry)) (max_seqno entry)
    (field_name_index entry) (field_seqno_index entry).

(** One round of the loop: a field with a slot and a value goes into the row. *)
Definition collect_field (entry : SchemaOrdinalCacheEntry) (len : nat) (get : nat → option bytes)
    (m : row_map) (name : ustr) : row_map :=
  match index_of entry len name ≫= get with
  | Some value => <[name := value]> m
  | None => m
  end.

(** The loop over the ordered field names, for a payload of [len] slots read with [get]. *)
Definition collect_row (entry : SchemaOrdinalCacheEntry) (len : nat) (get : nat → option bytes) : row_map :=
  foldl (collect_field entry len get) ∅ (ordered_field_names entry).

Definition decode_row_payload_with_schema_cache (entry : SchemaOrdinalCacheEntry) (payload : bytes) :
    result row_map ustr :=
  let? shape := decode_compatible_row_payload_shape payload in
  match shape with
  | LegacyMap row => Ok row
  | Ordinal row => Ok (collect_row entry (length row) (λ idx, mjoin (row !! idx)))
  | LegacyOrdinal row => Ok (collect_row entry (length row) (λ idx, row !! idx))
  end.

Definition decode_row_field_value_with_schema_cache (entry : SchemaOrdinalCacheEntry) (payload : bytes)
    (field_name : ustr) : result (option bytes) ustr :=
  let? shape := decode_compatible_row_payload_shape payload in
  match shape with
  | Ordinal row => Ok (index_of entry (length row) field_name ≫= λ idx, mjoin (row !! idx))
  | LegacyMap row => Ok (row !! field_name)
  | LegacyOrdinal row => Ok (index_of entry (length row) field_name ≫= λ idx, row !! idx)
  end.

Context `{FieldValues}.

Definition equals_lookup (lookup_value : bytes) (value : option bytes) : bool :=
  match value with
  | Some value =>
      match compare_stored_field_values value lookup_value with Eq => true | _ => false end
  | None => false
  end.

Definition decode_row_payload_if_field_equals_with_schema_cache (entry : SchemaOrdinalCacheEntry)
    (payload : bytes) (field_name : ustr) (lookup_value : bytes) : result (option row_map) ustr :=
  let? shape := decode_compatible_row_payload_shape payload in
  match shape with
  | Ordinal row =>
      let position := index_of entry (length row) field_name in
      if negb (equals_lookup lookup_value (position ≫= λ idx, mjoin (row !! idx))) then Ok None
      else Ok (Some (collect_row entry (length row) (λ idx, mjoin (row !! idx))))
  | LegacyMap row => if equals_lookup lookup_value (row !! field_name) then Ok (Some row) else Ok None
  | LegacyOrdinal row =>
      let position := index_of entry (length row) field_name in
      if negb (equals_lookup lookup_value (position ≫= λ idx, row !! idx)) then Ok None
      else Ok (Some (collect_row entry (length row) (λ idx, row !! idx)))
  end.

(** ** The public entry points *)

Context `{SchemaHasher}.

Definition decode_row_payload (schema : TableSchema) (payload : bytes) (cache : SchemaCache) :
    result row_map ustr * SchemaCache :=
  let (entry, cache) := schema_ordinal_cache_entry schema cache in
  (decode_row_payload_with_schema_cache entry payload, cache).

Definition decode_row_field_value (schema : TableSchema) (payload : bytes) (field_name : ustr)
    (cache : SchemaCache) : result (option bytes) ustr * SchemaCache :=
  let (entry, cache) := schema_ordinal_cache_entry schema cache in
  (decode_row_field_value_with_schema_cache entry payload field_name, cache).

(** A value as it is stored: converted to the type of its field, or as it came. *)
Definition stored_value (schema : TableSchema) (field_name : ustr) (value : bytes) : bytes :=
  default value
    (field schema field_name ≫= λ f, convert_value_to_field_type value (field_type f) Safe).

Definition ordinal_row (schema : TableSchema) (row : row_map) : OrdinalRowPayload :=
  (λ name, stored_value schema name <$> row !! name) <$> field_names_by_ordinal schema.

(** The error text is the serializer's own. *)
Definition encode_row_payload (schema : TableSchema) (row : row_map) : option bytes :=
  if is_empty (field_names_by_ordinal schema) && negb (bool_decide (row = ∅))
  then serialize row
  else serialize (ordinal_row schema row).
End codec.

(** ** Indexes *)

Lemma collect_index_list_to_map pairs : collect_index pairs = list_to_map (reverse pairs).
Proof.
  unfold collect_index. rewrite <- (reverse_involutive pairs) at 1.
  induction (reverse pairs) as [|[k i] l IH]; [done|]. rewrite reverse_cons, foldl_app. simpl.
  by rewrite IH.
Qed.

Lemma collect_index_Some pairs k i :
  NoDup (fst <$> pairs) → collect_index pairs !! k = Some i ↔ (k, i) ∈ pairs.
Proof.
  intros Hd. rewrite collect_index_list_to_map, <- elem_of_list_to_map, elem_of_reverse; [done|].
  rewrite fmap_reverse. by rewrite reverse_Permutation.
Qed.

Lemma collect_index_elem pairs k i : collect_index pairs !! k = Some i → (k, i) ∈ pairs.
Proof.
  rewrite collect_index_list_to_map. intros Hk%elem_of_list_to_map_2. by apply elem_of_reverse.
Qed.

Lemma names_perm schema : field_names_by_ordinal schema ≡ₚ field_name <$> fields schema.
Proof.
  unfold field_names_by_ordinal. rewrite merge_sort_Permutation. unfold schema_shape.
  by rewrite <- list_fmap_compose.
Qed.

Lemma elem_of_names schema name :
  name ∈ field_names_by_ordinal schema ↔ name ∈ field_name <$> fields schema.
Proof. by rewrite names_perm. Qed.

Lemma length_names schema : length (field_names_by_ordinal schema) = length (fields schema).
Proof. rewrite names_perm. apply length_fmap. Qed.

Lemma index_of_elem schema len name i :
  index_of (build_entry schema) len name = Some i → name ∈ ordered_field_names (build_entry schema).
Proof.
  unfold index_of, row_index_for_field. simpl. rewrite elem_of_names. destruct (use_seqno_slot_decoding _ _ _).
  - intros (f & Hf & Hs)%collect_index_elem%list_elem_of_omap. unfold seqno_slot in Hs.
    destruct (seqno f =? 0); simplify_eq. by apply list_elem_of_fmap_2.
  - intros (j & Hj)%collect_index_elem%list_elem_of_lookup. rewrite list_lookup_imap in Hj.
    destruct (field_names_by_ordinal schema !! j) eqn:E; simplify_eq/=. apply elem_of_names.
    by eapply list_elem_of_lookup_2.
Qed.

(** ** The decoding loop *)

Lemma collect_row_from entry len get names m name :
  foldl (collect_field entry len get) m names !! name
  = match (if decide (name ∈ names) then index_of entry len name ≫= get else None) with
    | Some value => Some value
    | None => m !! name
    end.
Proof.
  revert m. induction names as [|n names IH]; intros m; [by rewrite decide_False by set_solver|].
  simpl. rewrite IH. unfold collect_field. destruct (decide (n = name)) as [->|Hne].
  - rewrite (decide_True _ _ (list_elem_of_here name names)).
    destruct (index_of entry len name ≫= get) as [v|] eqn:E; [|by destruct (decide _)].
    rewrite lookup_insert_eq. by destruct (decide _).
  - assert (name ∈ names ↔ name ∈ n :: names) as Hin by set_solver.
    rewrite (decide_ext _ _ _ _ Hin).
    destruct (if decide (name ∈ n :: names) then _ else _); [done|].
    destruct (index_of entry len n ≫= get); [by rewrite lookup_insert_ne|done].
Qed.

Lemma collect_row_lookup schema len get name :
  collect_row (build_entry schema) len get !! name = index_of (build_entry schema) len name ≫= get.
Proof.
  unfold collect_row. rewrite collect_row_from, lookup_empty. destruct (decide _) as [|Hn]; [by case_match|].
  destruct (index_of _ len name) eqn:E; [|done]. by apply index_of_elem in E.
Qed.

Section decoders.
Context {ordinal_bincode : Bincode OrdinalRowPayload} {map_bincode : Bincode row_map}.
Context {legacy_ordinal_bincode : Bincode (list bytes)}.
Context `{Bincode EncryptedRowPayloadEnvelope} `{Bincode LegacyEncryptedRowPayloadEnvelope}.
Context `{FieldValues}.

(** The partial decoders agree with the full one.  Whatever the payload holds (an ordinal row, one
    of the two older shapes, an encrypted or a broken payload), decoding a single field is decoding the
    row and looking the field up, and decoding under an equality filter is decoding the row and keeping
    it exactly when its field compares equal; errors are the same.  Skipping rows and columns early
    therefore never changes what a query sees. *)
Theorem partial_decoders_agree schema payload name lookup_value :
  let entry := build_entry schema in
  let full := decode_row_payload_with_schema_cache entry payload in
  decode_row_field_value_with_schema_cache entry payload name = (let? row := full in Ok (row !! name)) ∧
  decode_row_payload_if_field_equals_with_schema_cache entry payload name lookup_value
  = (let? row := full in Ok (if equals_lookup lookup_value (row !! name) then Some row else None)).
Proof.
  intros entry full. subst entry full. unfold decode_row_field_value_with_schema_cache,
    decode_row_payload_if_field_equals_with_schema_cache, decode_row_payload_with_schema_cache.
  destruct (decode_compatible_row_payload_shape payload) as [[row|row|row]|e]; [| | |done].
  - rewrite !collect_row_lookup. split; [done|]. by destruct (equals_lookup _ _).
  - split; [done|]. by destruct (equals_lookup _ _).
  - rewrite !collect_row_lookup. split; [done|]. by destruct (equals_lookup _ _).
Qed.
End decoders.

(** ** The cache is transparent *)

Lemma max_seqno_shape schema :
  foldr Z.max 0 (seqno <$> fields schema) = foldr Z.max 0 (fst <$> schema_shape schema).
Proof. unfold schema_shape. by rewrite <- list_fmap_compose. Qed.

Definition shape_slot (p : Z * ustr) : option (ustr * nat) :=
  if p.1 =? 0 then None else Some (p.2, Z.to_nat (saturating_sub p.1 1)).

Lemma seqno_slots_shape schema :
  omap seqno_slot (fields schema) = omap shape_slot (schema_shape schema).
Proof.
  unfold schema_shape. induction (fields schema) as [|f fs IH]; [done|].
  rewrite fmap_cons, !omap_cons_eq, IH. done.
Qed.

Lemma build_entry_shape s s' : schema_shape s = schema_shape s' → build_entry s = build_entry s'.
Proof.
  intros Hs. unfold build_entry, field_names_by_ordinal.
  by rewrite !seqno_slots_shape, !max_seqno_shape, Hs.
Qed.

Section cache_facts.
Context `{SchemaHasher}.

(** Schemas of different shapes hash differently. *)
Definition collision_free (schemas : list TableSchema) : Prop :=
  ∀ s s', s ∈ schemas → s' ∈ schemas → schema_cache_key s = schema_cache_key s' →
    schema_shape s = schema_shape s'.

(** The cache after a sequence of lookups. *)
Definition cache_after (history : list TableSchema) (cache : SchemaCache) : SchemaCache :=
  foldl (λ c schema, (schema_ordinal_cache_entry schema c).2) cache history.

(** Every entry is that of a schema looked up before, and there are at most 1024. *)
Definition cache_ok (history : list TableSchema) (cache : SchemaCache) : Prop :=
  ∀ guard, cache = Some guard →
    (size guard ≤ SCHEMA_ORDINAL_CACHE_MAX_ENTRIES)%nat ∧
    ∀ key entry, guard !! key = Some entry →
      ∃ s, s ∈ history ∧ schema_cache_key s = key ∧ entry = build_entry s.

Lemma cache_insert_ok history schema guard :
  cache_ok history (Some guard) → schema ∈ history →
  cache_ok history
    (Some (<[schema_cache_key schema := build_entry schema]>
       (if Nat.leb SCHEMA_ORDINAL_CACHE_MAX_ENTRIES (size guard) then ∅ else guard))).
Proof.
  intros Hok Hin guard' Heq. apply (inj Some) in Heq. subst guard'. destruct (Hok guard eq_refl) as [Hsize Hent]. split.
  - destruct (Nat.leb SCHEMA_ORDINAL_CACHE_MAX_ENTRIES (size guard)) eqn:Hlt.
    + rewrite insert_empty, map_size_singleton. unfold SCHEMA_ORDINAL_CACHE_MAX_ENTRIES. lia.
    + apply Nat.leb_gt in Hlt. rewrite map_size_insert. destruct (guard !! _); unfold Datatypes.id; lia.
  - intros key entry [[<- <-]|[_ Hg]]%lookup_insert_Some; [eauto|].
    destruct (Nat.leb _ _); [done|eauto].
Qed.

Lemma cache_entry_ok history schema cache :
  collision_free history → cache_ok history cache → schema ∈ history →
  (schema_ordinal_cache_entry schema cache).1 = build_entry schema ∧
  cache_ok history (schema_ordinal_cache_entry schema cache).2.
Proof.
  intros Hcf Hok Hin. unfold schema_ordinal_cache_entry. destruct cache as [guard|]; [|done].
  pose proof (cache_insert_ok _ _ _ Hok Hin) as Hins.
  destruct (guard !! schema_cache_key schema) as [entry|] eqn:E; [|done].
  destruct (cache_entry_matches_schema entry schema); [|done]. split; [|done].
  destruct (Hok guard eq_refl) as [_ Hent]. destruct (Hent _ _ E) as (s & Hs & Hk & ->).
  by apply build_entry_shape, Hcf.
Qed.

Lemma cache_after_ok all history cache :
  collision_free all → history ⊆ all → cache_ok all cache → cache_ok all (cache_after history cache).
Proof.
  intros Hcf. revert cache. induction history as [|s history IH]; intros cache Hsub Hok; [done|].
  simpl. apply IH; [set_solver|]. apply cache_entry_ok; set_solver.
Qed.

Lemma cache_empty_ok all : cache_ok all (Some ∅).
Proof. intros guard [= <-]. rewrite map_size_empty. split; [lia|done]. Qed.
End cache_facts.

(** ** Slots *)

(** Every field of the schema has the slot of its sequence number in a payload of [len] slots. *)
Definition slots_by_seqno (schema : TableSchema) (len : nat) : Prop :=
  ∀ name, index_of (build_entry schema) len name
          = (λ f, Z.to_nat (seqno f - 1)) <$> find_field name (fields schema).

(** The sequence numbers are those of [CREATE TABLE]: 1, 2, ... *)
Definition dense (schema : TableSchema) : Prop :=
  seqno <$> fields schema ≡ₚ seqZ 1 (Z.of_nat (length (fields schema))).

Lemma compact_index schema name i :
  NoDup (field_name <$> fields schema) →
  field_name_index (build_entry schema) !! name = Some i ↔ field_names_by_ordinal schema !! i = Some name.
Proof.
  intros Hd. simpl. rewrite collect_index_Some.
  - rewrite list_elem_of_lookup. setoid_rewrite list_lookup_imap. split.
    + intros [j Hj]. destruct (field_names_by_ordinal schema !! j) eqn:E; naive_solver.
    + intros Hi. exists i. by rewrite Hi.
  - rewrite fmap_imap. replace (imap _ _) with (field_names_by_ordinal schema); [by rewrite names_perm|].
    apply list_eq. intros j. rewrite list_lookup_imap. by destruct (field_names_by_ordinal schema !! j).
Qed.

Lemma seqno_index schema name :
  NoDup (field_name <$> fields schema) → Forall (λ f, 1 ≤ seqno f) (fields schema) →
  field_seqno_index (build_entry schema) !! name
  = (λ f, Z.to_nat (seqno f - 1)) <$> find_field name (fields schema).
Proof.
  intros Hd Hpos. simpl.
  assert (omap seqno_slot (fields schema)
          = (λ f, (field_name f, Z.to_nat (seqno f - 1))) <$> fields schema) as ->.
  { clear Hd. induction Hpos as [|f fs Hf _ IH]; [done|]. rewrite omap_cons_eq, fmap_cons, IH.
    unfold seqno_slot, saturating_sub. rewrite (proj2 (Z.eqb_neq _ _)), Z.max_l by lia. done. }
  assert (NoDup (fst <$> ((λ f, (field_name f, Z.to_nat (seqno f - 1))) <$> fields schema))) as Hd'.
  { by rewrite <- list_fmap_compose. }
  apply option_eq. intros i. rewrite collect_index_Some, list_elem_of_fmap by done. split.
  - intros (f & [= -> ->] & Hf). by rewrite find_field_elem.
  - intros Hi. destruct (find_field name (fields schema)) as [f|] eqn:E; simplify_eq/=.
    apply find_field_Some in E as [Hf <-]. eauto.
Qed.

Lemma str_leb_total a b : str_leb a b = true ∨ str_leb b a = true.
Proof.
  revert b. induction a as [|x a IH]; intros [|y b]; simpl; [auto..|].
  destruct (Z.ltb_spec x y), (Z.ltb_spec y x), (Z.eqb_spec x y), (Z.eqb_spec y x); simpl; auto; lia.
Qed.

#[global] Instance ordinal_le_total : Total ordinal_le.
Proof.
  intros [p a] [q b]. unfold ordinal_le, ordinal_leb. simpl.
  destruct (Z.ltb_spec p q), (Z.ltb_spec q p), (Z.eqb_spec p q), (Z.eqb_spec q p);
    simpl; auto using str_leb_total; lia.
Qed.

Lemma sorted_seqnos l : StronglySorted Z.le (fst <$> merge_sort ordinal_le l).
Proof.
  apply Sorted_StronglySorted; [intros a b c; lia|].
  pose proof (Sorted_merge_sort ordinal_le l) as Hs. induction Hs as [|p l' _ IH Hhd]; [constructor|].
  rewrite fmap_cons. constructor; [done|]. destruct Hhd as [|q l'' Hpq]; constructor.
  unfold ordinal_le, ordinal_leb in Hpq. destruct (Z.ltb_spec p.1 q.1), (Z.eqb_spec p.1 q.1); simpl in *; lia || done.
Qed.

Lemma seqZ_sorted k n : StronglySorted Z.le (seqZ k n).
Proof.
  destruct (decide (0 ≤ n)); [|rewrite seqZ_nil by lia; constructor].
  revert k. pattern n. apply natlike_ind; [constructor| |done]. intros m Hm IH k.
  rewrite seqZ_cons by lia. constructor; [rewrite Z.pred_succ; apply IH|].
  apply Forall_forall. intros x Hx%elem_of_seqZ. lia.
Qed.

Lemma dense_order schema :
  dense schema →
  fst <$> merge_sort ordinal_le (schema_shape schema) = seqZ 1 (Z.of_nat (length (fields schema))).
Proof.
  intros Hd. apply (StronglySorted_unique Z.le); [apply sorted_seqnos|apply seqZ_sorted|].
  rewrite merge_sort_Permutation. unfold schema_shape. by rewrite <- list_fmap_compose.
Qed.

(** In a dense schema the ordinal of a field is its sequence number. *)
Lemma dense_ordinal schema f :
  dense schema → f ∈ fields schema →
  1 ≤ seqno f ≤ Z.of_nat (length (fields schema)) ∧
  field_names_by_ordinal schema !! Z.to_nat (seqno f - 1) = Some (field_name f).
Proof.
  intros Hd Hf. unfold field_names_by_ordinal.
  assert ((seqno f, field_name f) ∈ merge_sort ordinal_le (schema_shape schema)) as [i Hi]%list_elem_of_lookup.
  { rewrite merge_sort_Permutation. unfold schema_shape. by apply list_elem_of_fmap_2 with (f := λ f, (seqno f, field_name f)). }
  pose proof (f_equal (.!! i) (dense_order schema Hd)) as Hq. simpl in Hq.
  rewrite list_lookup_fmap, Hi in Hq. simpl in Hq. symmetry in Hq. apply lookup_seqZ in Hq as [Hq Hlt]. split; [lia|].
  rewrite list_lookup_fmap. replace (Z.to_nat (seqno f - 1)) with i by lia. by rewrite Hi.
Qed.

Lemma dense_max schema : dense schema → max_seqno (build_entry schema) ≤ Z.of_nat (length (fields schema)).
Proof.
  intros Hd. simpl.
  assert (Forall (λ q, q ≤ Z.of_nat (length (fields schema))) (seqno <$> fields schema)) as Hall.
  { apply Forall_forall. intros q (f & -> & Hf)%list_elem_of_fmap. by apply dense_ordinal. }
  induction Hall; simpl; lia.
Qed.

Lemma dense_slots schema len : NoDup (field_name <$> fields schema) → dense schema → slots_by_seqno schema len.
Proof.
  intros Hn Hd name. unfold index_of, row_index_for_field, use_seqno_slot_decoding.
  pose proof (dense_max schema Hd) as Hmax.
  rewrite (proj2 (Z.ltb_ge _ (max_seqno (build_entry schema)))), andb_false_r.
  2: { simpl ordered_field_names. rewrite length_names. done. }
  simpl andb. cbv iota. apply option_eq. intros i. rewrite compact_index by done. split.
  - intros Hi. pose proof (list_elem_of_lookup_2 _ _ _ Hi) as (f & -> & Hf)%elem_of_names%list_elem_of_fmap.
    rewrite find_field_elem by done. simpl. f_equal. destruct (dense_ordinal _ _ Hd Hf) as [_ Hj].
    eapply (NoDup_lookup (field_names_by_ordinal schema)); [by rewrite names_perm|done|done].
  - intros Hi. destruct (find_field name (fields schema)) as [f|] eqn:E; simplify_eq/=.
    apply find_field_Some in E as [Hf <-]. by apply dense_ordinal.
Qed.

Lemma sparse_slots schema len :
  NoDup (field_name <$> fields schema) → Forall (λ f, 1 ≤ seqno f) (fields schema) →
  use_seqno_slot_decoding len (length (fields schema)) (max_seqno (build_entry schema)) = true →
  slots_by_seqno schema len.
Proof.
  intros Hn Hpos Hu name. unfold index_of, row_index_for_field.
  assert (length (ordered_field_names (build_entry schema)) = length (fields schema)) as -> by apply length_names.
  rewrite Hu. by apply seqno_index.
Qed.

(** ** Round trip *)

(** What a row keeps in storage: its fields of the schema, converted to their types. *)
Definition stored_row `{FieldValues} (schema : TableSchema) (row : row_map) : row_map :=
  map_imap (λ name value,
              if decide (name ∈ field_name <$> fields schema) then Some (stored_value schema name value)
              else None) row.

Section roundtrip.
Context {ordinal_bincode : Bincode OrdinalRowPayload} {map_bincode : Bincode row_map}.
Context {legacy_ordinal_bincode : Bincode (list bytes)}.
Context `{Bincode EncryptedRowPayloadEnvelope} `{Bincode LegacyEncryptedRowPayloadEnvelope}.
Context `{FieldValues} `{SchemaHasher}.
Context {ordinal_laws : BincodeLaws OrdinalRowPayload (λ r, r)}.

Lemma length_ordinal_row schema row : length (ordinal_row schema row) = length (fields schema).
Proof. unfold ordinal_row. by rewrite length_fmap, length_names. Qed.

Lemma ordinal_row_lookup schema row name :
  NoDup (field_name <$> fields schema) →
  index_of (build_entry schema) (length (ordinal_row schema row)) name
    ≫= (λ idx, mjoin (ordinal_row schema row !! idx))
  = stored_row schema row !! name.
Proof.
  intros Hn. unfold index_of, row_index_for_field, use_seqno_slot_decoding.
  rewrite length_ordinal_row. simpl ordered_field_names. rewrite length_names, (proj2 (Nat.ltb_ge _ _)) by lia.
  simpl andb. cbv iota. unfold stored_row. rewrite map_lookup_imap.
  destruct (field_name_index (build_entry schema) !! name) as [i|] eqn:Ei.
  - apply compact_index in Ei; [|done]. simpl. unfold ordinal_row. rewrite list_lookup_fmap, Ei. simpl.
    apply list_elem_of_lookup_2, elem_of_names in Ei. destruct (row !! name); [|done]. simpl. by rewrite decide_True.
  - simpl. destruct (row !! name); [|done]. simpl. rewrite decide_False; [done|].
    intros [i Hi]%elem_of_names%list_elem_of_lookup. apply compact_index in Hi; [congruence|done].
Qed.

Lemma ordinal_payload_shape schema row payload :
  encode_row_payload schema row = Some payload → fields schema ≠ [] ∨ row = ∅ →
  decode_budget (ordinal_row schema row) ≤ MAX_DECODE_BYTES →
  decode_compatible_row_payload_shape payload = Ok (Ordinal (ordinal_row schema row)).
Proof.
  unfold encode_row_payload. intros He Hne Hb.
  assert (is_empty (field_names_by_ordinal schema) && negb (bool_decide (row = ∅)) = false) as E.
  { destruct Hne as [Hne| ->]; [|by rewrite andb_false_r]. pose proof (length_names schema) as Hl.
    destruct (field_names_by_ordinal schema); [|done]. by destruct (fields schema). }
  rewrite E in He. unfold decode_compatible_row_payload_shape.
  pose proof (deserialize_serialize _ _ [] He Hb) as Hd. rewrite app_nil_r in Hd. by rewrite Hd.
Qed.

Lemma decode_encoded schema row payload :
  NoDup (field_name <$> fields schema) → fields schema ≠ [] ∨ row = ∅ →
  encode_row_payload schema row = Some payload → decode_budget (ordinal_row schema row) ≤ MAX_DECODE_BYTES →
  decode_row_payload_with_schema_cache (build_entry schema) payload = Ok (stored_row schema row).
Proof.
  intros Hn Hne He Hb. unfold decode_row_payload_with_schema_cache.
  rewrite (ordinal_payload_shape _ _ _ He Hne Hb). f_equal. apply map_eq. intros name.
  by rewrite collect_row_lookup, ordinal_row_lookup.
Qed.

Lemma cached_entry schema history :
  collision_free (schema :: history) →
  (schema_ordinal_cache_entry schema (cache_after history (Some ∅))).1 = build_entry schema ∧
  cache_ok (schema :: history) (schema_ordinal_cache_entry schema (cache_after history (Some ∅))).2.
Proof.
  intros Hcf. apply cache_entry_ok; [done| |set_solver].
  apply cache_after_ok; [done|set_solver|apply cache_empty_ok].
Qed.

(** The process-wide cache of schema orderings is invisible.  After any sequence of decodes under
    any schemas, as long as no two schemas of different shape have the same 64-bit fingerprint, decoding
    a row or a field through the cache is decoding it with the ordering computed afresh from the schema,
    and the cache never holds more than its 1024 entries. *)
Theorem schema_cache_transparent schema history payload name :
  collision_free (schema :: history) →
  let cache := cache_after history (Some ∅) in
  (decode_row_payload schema payload cache).1
    = decode_row_payload_with_schema_cache (build_entry schema) payload ∧
  (decode_row_field_value schema payload name cache).1
    = decode_row_field_value_with_schema_cache (build_entry schema) payload name ∧
  ∀ guard, (decode_row_payload schema payload cache).2 = Some guard →
    (size guard ≤ SCHEMA_ORDINAL_CACHE_MAX_ENTRIES)%nat.
Proof.
  intros Hcf cache. destruct (cached_entry schema history Hcf) as [He Hok].
  unfold decode_row_payload, decode_row_field_value. fold cache in He, Hok.
  destruct (schema_ordinal_cache_entry schema cache) as [entry c]. cbn [fst snd] in *. subst entry.
  split; [done|]. split; [done|]. intros guard Hg. by apply (Hok guard).
Qed.

End roundtrip.
