(* ===== verification/FieldValue.v ===== *)
(** * Stored field values

    Models [schema/migration/conversion.rs] from [convert_value_to_field_type] on: the tagged binary
    form of numbers and UUIDs, the older decimal form, rendering as text, conversion to a field's type
    and comparison.  The [uuid] and [chrono] crates are parameters. *)

From Stdlib Require Import ZArith Lia SpecFloat Strings.Byte.
From stdpp Require Import base list strings.
From S2P Require Import Prelude Identifiers Text Float64 Schema RowCodec.

(** [Uuid::parse_str] and its [Display], on the sixteen bytes. *)
Class UuidText := {
  uuid_parse_str : ustr → option bytes;
  uuid_to_string : bytes → ustr
}.

(** The accepted forms have 32, 36, 38 or 45 characters; what is displayed parses. *)
Class UuidTextLaws `{UuidText} := {
  uuid_parse_length s b : uuid_parse_str s = Some b → length s ∈ [32; 36; 38; 45]%nat ∧ length b = 16%nat;
  uuid_parse_display b : length b = 16%nat → uuid_parse_str (uuid_to_string b) = Some b;
  uuid_display_ascii b : Forall (λ c, 0 ≤ c < 128) (uuid_to_string b)
}.

(** [NaiveDateTime::parse_from_str] with a format, as seconds since the epoch in UTC, and
    [NaiveDate::parse_from_str] at midnight. *)
Class Chrono := {
  naive_date_time : ustr → ustr → option Z;
  naive_date : ustr → ustr → option Z
}.

(** ** Tags *)

Definition STORED_I8_TAG : byte := x01.
Definition STORED_I16_TAG : byte := x02.
Definition STORED_I32_TAG : byte := x03.
Definition STORED_I64_TAG : byte := x04.
Definition STORED_I128_TAG : byte := x05.
Definition STORED_U8_TAG : byte := x11.
Definition STORED_U16_TAG : byte := x12.
Definition STORED_U32_TAG : byte := x13.
Definition STORED_U64_TAG : byte := x14.
Definition STORED_U128_TAG : byte := x15.
Definition STORED_F32_TAG : byte := x21.
Definition STORED_F64_TAG : byte := x22.
Definition STORED_UUID_TAG : byte := x31.

Inductive StoredNumericValue :=
| Signed (v : Z)
| Unsigned (v : Z)
| Float (v : f64).

Definition tagged_bytes (tag : byte) (bs : bytes) : bytes := tag :: bs.

(** [iN::from_le_bytes] on [n] bytes. *)
Definition signed_from_le_bytes (bs : bytes) : Z :=
  let n := Z.of_nat (length bs) in
  let z := from_le_bytes bs in
  if z <? 2 ^ (8 * n - 1) then z else z - 2 ^ (8 * n).

(** ** Text forms *)

Definition parse_i128_bytes (value : bytes) : option Z := text ← from_utf8 value; parse_i128 (trim text).
Definition parse_u128_bytes (value : bytes) : option Z := text ← from_utf8 value; parse_u128 (trim text).
Definition parse_f64_bytes (value : bytes) : option f64 := text ← from_utf8 value; parse_f64 (trim text).

Definition decode_legacy_numeric_value (value : bytes) : option StoredNumericValue :=
  match parse_i128_bytes value with
  | Some v => Some (Signed v)
  | None =>
      match parse_u128_bytes value with
      | Some v => Some (Unsigned v)
      | None => Float <$> parse_f64_bytes value
      end
  end.

(** The number behind a tag that its length fits. *)
Definition decode_tagged_numeric (tag : byte) (bs : bytes) : option StoredNumericValue :=
  let n := length bs in
  if eqb tag STORED_I8_TAG && Nat.eqb n 1 || eqb tag STORED_I16_TAG && Nat.eqb n 2
     || eqb tag STORED_I32_TAG && Nat.eqb n 4 || eqb tag STORED_I64_TAG && Nat.eqb n 8
     || eqb tag STORED_I128_TAG && Nat.eqb n 16
  then Some (Signed (signed_from_le_bytes bs))
  else if eqb tag STORED_U8_TAG && Nat.eqb n 1 || eqb tag STORED_U16_TAG && Nat.eqb n 2
          || eqb tag STORED_U32_TAG && Nat.eqb n 4 || eqb tag STORED_U64_TAG && Nat.eqb n 8
          || eqb tag STORED_U128_TAG && Nat.eqb n 16
  then Some (Unsigned (from_le_bytes bs))
  else if eqb tag STORED_F32_TAG && Nat.eqb n 4
  then Some (Float (convert_format binary64 (of_bits binary32 (from_le_bytes bs))))
  else if eqb tag STORED_F64_TAG && Nat.eqb n 8
  then Some (Float (of_bits binary64 (from_le_bytes bs)))
  else None.

Definition decode_numeric_value (value : bytes) : option StoredNumericValue :=
  match value with
  | tag :: bs =>
      match decode_tagged_numeric tag bs with
      | Some v => Some v
      | None => decode_legacy_numeric_value value
      end
  | [] => decode_legacy_numeric_value value
  end.

Definition numeric_as_i128 (value : StoredNumericValue) : option Z :=
  match value with
  | Signed v => Some v
  | Unsigned v => if v <=? i128_max then Some v else None
  | Float v => if fract_is_zero v && is_finite v then Some (f64_as_int i128_min i128_max v) else None
  end.

Definition numeric_as_u128 (value : StoredNumericValue) : option Z :=
  match value with
  | Signed v => if 0 <=? v then Some v else None
  | Unsigned v => Some v
  | Float v =>
      if fract_is_zero v && is_finite v
         && match partial_cmp v (S754_zero false) with Some Eq | Some Gt => true | _ => false end
      then Some (f64_as_int 0 u128_max v) else None
  end.

Definition numeric_as_f64 (value : StoredNumericValue) : f64 :=
  match value with Signed v | Unsigned v => f64_of_int v | Float v => v end.

(** ** Binary forms *)

(** [iN::try_from] and [uN::try_from] for [n] bytes. *)
Definition signed_in_range (n : Z) (v : Z) : bool := (- 2 ^ (8 * n - 1) <=? v) && (v <? 2 ^ (8 * n - 1)).
Definition unsigned_in_range (n : Z) (v : Z) : bool := (0 <=? v) && (v <? 2 ^ (8 * n)).

Definition encode_signed (tag : byte) (n : nat) (v : Z) : option bytes :=
  if signed_in_range (Z.of_nat n) v then Some (tagged_bytes tag (to_le_bytes n v)) else None.

Definition encode_unsigned (tag : byte) (n : nat) (v : Z) : option bytes :=
  if unsigned_in_range (Z.of_nat n) v then Some (tagged_bytes tag (to_le_bytes n v)) else None.

Definition encode_signed_numeric (target_type : FieldKind) (value : Z) : option bytes :=
  match target_type with
  | FInt bits =>
      if bits =? 8 then encode_signed STORED_I8_TAG 1 value
      else if bits =? 16 then encode_signed STORED_I16_TAG 2 value
      else if bits =? 32 then encode_signed STORED_I32_TAG 4 value
      else if bits =? 64 then encode_signed STORED_I64_TAG 8 value
      else Some (tagged_bytes STORED_I128_TAG (to_le_bytes 16 value))
  | _ => None
  end.

Definition encode_unsigned_numeric (target_type : FieldKind) (value : Z) : option bytes :=
  match target_type with
  | FUInt bits =>
      if bits =? 8 then encode_unsigned STORED_U8_TAG 1 value
      else if bits =? 16 then encode_unsigned STORED_U16_TAG 2 value
      else if bits =? 32 then encode_unsigned STORED_U32_TAG 4 value
      else if bits =? 64 then encode_unsigned STORED_U64_TAG 8 value
      else Some (tagged_bytes STORED_U128_TAG (to_le_bytes 16 value))
  | _ => None
  end.

Definition encode_float_numeric (target_type : FieldKind) (value : f64) : option bytes :=
  match target_type with
  | FFloat bits =>
      if bits <=? 32
      then Some (tagged_bytes STORED_F32_TAG (to_le_bytes 4 (to_bits binary32 (convert_format binary32 value))))
      else Some (tagged_bytes STORED_F64_TAG (to_le_bytes 8 (to_bits binary64 value)))
  | _ => None
  end.

(** ** UUIDs *)

Definition decode_tagged_db_uuid_binary (value : bytes) : option bytes :=
  match value with
  | tag :: bs => if eqb tag STORED_UUID_TAG && Nat.eqb (length bs) 16 then Some bs else None
  | [] => None
  end.

Definition decode_db_uuid_binary_for_conversion (value : bytes) : option bytes :=
  match decode_tagged_db_uuid_binary value with
  | Some existing => Some existing
  | None => if Nat.eqb (length value) 16 then Some value else None
  end.

Section values.
Context `{UuidText} `{Chrono}.

Definition decode_db_uuid_binary_for_compare (value : bytes) : option bytes :=
  match decode_tagged_db_uuid_binary value with
  | Some existing => Some existing
  | None =>
      if Nat.eqb (length value) 16 then Some value
      else text ← from_utf8 value; uuid_parse_str (trim text)
  end.

(** ** Rendering *)

Definition render_stored_field_value (value : bytes) : bytes :=
  match decode_tagged_db_uuid_binary value with
  | Some uuid_bytes => utf8_encode (uuid_to_string uuid_bytes)
  | None =>
      match decode_numeric_value value with
      | Some (Signed v) | Some (Unsigned v) => utf8_encode (show_int v)
      | Some (Float v) => utf8_encode (show_f64 v)
      | None => value
      end
  end.

Definition display_stored_field_value (value : bytes) : bytes :=
  from_utf8_lossy (render_stored_field_value value).

(** ** Conversion *)

Definition temporal_formats : list ustr :=
  [lit "%Y-%m-%d %H:%M:%S%.f"; lit "%Y-%m-%d %H:%M:%S"; lit "%Y-%m-%dT%H:%M:%S%.f"; lit "%Y-%m-%dT%H:%M:%S"].

Definition parse_temporal_epoch_seconds (value : ustr) : option Z :=
  let trimmed := trim value in
  match head (omap (λ format, naive_date_time format trimmed) temporal_formats) with
  | Some seconds => Some seconds
  | None => naive_date (lit "%Y-%m-%d") trimmed
  end.

(** The last resort of the numeric conversions. *)
Definition fallback (policy : TypeConversionPolicy) (forced : option bytes) : option bytes :=
  match policy with Force => forced | Safe => None end.

(** An integer out of text: a decimal, or a date. *)
Definition text_as_integer (text : ustr) : option Z :=
  match parse_i128 (trim text) with
  | Some v => Some v
  | None => parse_temporal_epoch_seconds text
  end.

Definition convert_to_field_type (value : bytes) (target_type : FieldKind) (policy : TypeConversionPolicy) :
    option bytes :=
  match target_type with
  | FInt _ =>
      match decode_numeric_value value ≫= numeric_as_i128 with
      | Some v => encode_signed_numeric target_type v
      | None =>
          match from_utf8 (render_stored_field_value value) ≫= text_as_integer with
          | Some v => encode_signed_numeric target_type v
          | None => fallback policy (encode_signed_numeric target_type 0)
          end
      end
  | FUInt _ =>
      match decode_numeric_value value ≫= numeric_as_u128 with
      | Some v => encode_unsigned_numeric target_type v
      | None => fallback policy (encode_unsigned_numeric target_type 0)
      end
  | FFloat _ =>
      match numeric_as_f64 <$> decode_numeric_value value with
      | Some v =>
          if is_finite v then encode_float_numeric target_type v
          else fallback policy (encode_float_numeric target_type (S754_zero false))
      | None => fallback policy (encode_float_numeric target_type (S754_zero false))
      end
  | FStringFixed _ | FText | FDate | FDateTime | FTimestamp | FEnum _ =>
      let rendered := render_stored_field_value value in
      match from_utf8 rendered with
      | Some _ => Some rendered
      | None => fallback policy (Some (from_utf8_lossy rendered))
      end
  | FBlob | FSpatial => Some value
  | FUuid =>
      match decode_db_uuid_binary_for_conversion value with
      | Some uuid_bytes => Some (tagged_bytes STORED_UUID_TAG uuid_bytes)
      | None =>
          match from_utf8 (render_stored_field_value value) ≫= (λ text, uuid_parse_str (trim text)) with
          | Some uuid => Some (tagged_bytes STORED_UUID_TAG uuid)
          | None => fallback policy (Some (tagged_bytes STORED_UUID_TAG (replicate 16 x00)))
          end
      end
  end.

(** ** Comparison *)

(** [Ord] on byte strings. *)
Fixpoint bytes_compare (a b : bytes) : comparison :=
  match a, b with
  | [], [] => Eq
  | [], _ :: _ => Lt
  | _ :: _, [] => Gt
  | x :: a, y :: b => match u8_Z x ?= u8_Z y with Eq => bytes_compare a b | c => c end
  end.

Definition compare_mixed_numeric_values (left right : StoredNumericValue) : comparison :=
  match left, right with
  | Signed lhs, Unsigned rhs => if lhs <? 0 then Lt else lhs ?= rhs
  | Unsigned lhs, Signed rhs => if rhs <? 0 then Gt else lhs ?= rhs
  | lhs, rhs => default Eq (partial_cmp (numeric_as_f64 lhs) (numeric_as_f64 rhs))
  end.

Definition compare_values (left right : bytes) : comparison :=
  match decode_db_uuid_binary_for_compare left, decode_db_uuid_binary_for_compare right with
  | Some left_uuid, Some right_uuid => bytes_compare left_uuid right_uuid
  | _, _ =>
      match decode_numeric_value left, decode_numeric_value right with
      | Some (Signed lhs), Some (Signed rhs) => lhs ?= rhs
      | Some (Unsigned lhs), Some (Unsigned rhs) => lhs ?= rhs
      | Some lhs, Some rhs => compare_mixed_numeric_values lhs rhs
      | _, _ => bytes_compare (render_stored_field_value left) (render_stored_field_value right)
      end
  end.

(** The stored-value module as the row codec uses it. *)
#[global] Instance stored_field_values : FieldValues := {|
  convert_value_to_field_type := convert_to_field_type;
  compare_stored_field_values := compare_values
|}.
End values.

(** ** Integers through their binary form *)

Lemma from_to_le_bytes_mod n z : from_le_bytes (to_le_bytes n z) = z mod 256 ^ Z.of_nat n.
Proof.
  revert z. induction n as [|n IH]; intros z; [by rewrite Z.mod_1_r|].
  rewrite Nat2Z.inj_succ, Z.pow_succ_r by lia. cbn [to_le_bytes from_le_bytes]. rewrite u8_Z_u8, IH.
  rewrite Z.rem_mul_r by lia. done.
Qed.

Lemma signed_roundtrip n v :
  (0 < n)%nat → signed_in_range (Z.of_nat n) v = true → signed_from_le_bytes (to_le_bytes n v) = v.
Proof.
  unfold signed_in_range. rewrite andb_true_iff, Z.leb_le, Z.ltb_lt. intros Hn Hv.
  unfold signed_from_le_bytes. rewrite from_to_le_bytes_mod, length_to_le_bytes.
  replace (256 ^ Z.of_nat n) with (2 ^ (8 * Z.of_nat n)) by (rewrite Z.pow_mul_r by lia; done).
  replace (2 ^ (8 * Z.of_nat n)) with (2 * 2 ^ (8 * Z.of_nat n - 1)) in *
    by (rewrite <- Z.pow_succ_r by lia; f_equal; lia).
  set (h := 2 ^ (8 * Z.of_nat n - 1)) in *. assert (0 < h) by (apply Z.pow_pos_nonneg; lia).
  destruct (Z.leb_spec 0 v).
  - rewrite Z.mod_small by lia. by rewrite (proj2 (Z.ltb_lt _ _)) by lia.
  - replace (v mod (2 * h)) with (v + 2 * h); [rewrite (proj2 (Z.ltb_ge _ _)) by lia; lia|].
    rewrite <- (Z.mod_small (v + 2 * h) (2 * h)) by lia. rewrite <- (Z.mod_add v 1 (2 * h)) by lia. f_equal. lia.
Qed.

Lemma unsigned_roundtrip n v : unsigned_in_range (Z.of_nat n) v = true → from_le_bytes (to_le_bytes n v) = v.
Proof.
  unfold unsigned_in_range. rewrite andb_true_iff, Z.leb_le, Z.ltb_lt. intros Hv.
  apply from_to_le_bytes. by rewrite Z.pow_mul_r in Hv by lia.
Qed.

Definition is_i128 (v : Z) : Prop := i128_min ≤ v ≤ i128_max.
Definition is_u128 (v : Z) : Prop := 0 ≤ v ≤ u128_max.

Lemma i128_in_range v : is_i128 v → signed_in_range 16 v = true.
Proof. unfold is_i128, i128_min, i128_max, signed_in_range. rewrite andb_true_iff, Z.leb_le, Z.ltb_lt. lia. Qed.

Lemma u128_in_range v : is_u128 v → unsigned_in_range 16 v = true.
Proof. unfold is_u128, u128_max, unsigned_in_range. rewrite andb_true_iff, Z.leb_le, Z.ltb_lt. lia. Qed.

(** The bytes an integer type of a field takes; a type of another width is stored in sixteen. *)
Definition width_bytes (bits : Z) : nat :=
  if bits =? 8 then 1 else if bits =? 16 then 2 else if bits =? 32 then 4 else if bits =? 64 then 8 else 16.

(** A stored integer: its tag, then its bytes. *)
Lemma encode_signed_numeric_spec bits v :
  is_i128 v →
  encode_signed_numeric (FInt bits) v =
  if signed_in_range (Z.of_nat (width_bytes bits)) v
  then Some ((if bits =? 8 then x01 else if bits =? 16 then x02 else if bits =? 32 then x03
              else if bits =? 64 then x04 else x05) :: to_le_bytes (width_bytes bits) v) else None.
Proof.
  intros Hv%i128_in_range. unfold encode_signed_numeric, encode_signed, width_bytes.
  destruct (bits =? 8), (bits =? 16), (bits =? 32), (bits =? 64); try done.
  change (Z.of_nat 16) with 16. by rewrite Hv.
Qed.

Lemma encode_unsigned_numeric_spec bits v :
  is_u128 v →
  encode_unsigned_numeric (FUInt bits) v =
  if unsigned_in_range (Z.of_nat (width_bytes bits)) v
  then Some ((if bits =? 8 then x11 else if bits =? 16 then x12 else if bits =? 32 then x13
              else if bits =? 64 then x14 else x15) :: to_le_bytes (width_bytes bits) v) else None.
Proof.
  intros Hv%u128_in_range. unfold encode_unsigned_numeric, encode_unsigned, width_bytes.
  destruct (bits =? 8), (bits =? 16), (bits =? 32), (bits =? 64); try done.
  change (Z.of_nat 16) with 16. by rewrite Hv.
Qed.

Lemma decode_encode_signed bits v bs :
  is_i128 v → encode_signed_numeric (FInt bits) v = Some bs →
  signed_in_range (Z.of_nat (width_bytes bits)) v = true ∧ decode_numeric_value bs = Some (Signed v).
Proof.
  intros Hv. rewrite encode_signed_numeric_spec by done. destruct (signed_in_range _ v) eqn:Er; [|done].
  intros [= <-]. split; [done|]. cbn [decode_numeric_value].
  pose proof (signed_roundtrip (width_bytes bits) v) as Hr. unfold decode_tagged_numeric. rewrite length_to_le_bytes.
  unfold width_bytes in *. destruct (bits =? 8), (bits =? 16), (bits =? 32), (bits =? 64); simpl in *;
    by rewrite Hr by (done || lia).
Qed.

Lemma decode_encode_unsigned bits v bs :
  is_u128 v → encode_unsigned_numeric (FUInt bits) v = Some bs →
  unsigned_in_range (Z.of_nat (width_bytes bits)) v = true ∧ decode_numeric_value bs = Some (Unsigned v).
Proof.
  intros Hv. rewrite encode_unsigned_numeric_spec by done. destruct (unsigned_in_range _ v) eqn:Er; [|done].
  intros [= <-]. split; [done|]. cbn [decode_numeric_value].
  pose proof (unsigned_roundtrip (width_bytes bits) v) as Hr. unfold decode_tagged_numeric. rewrite length_to_le_bytes.
  unfold width_bytes in *. destruct (bits =? 8), (bits =? 16), (bits =? 32), (bits =? 64); simpl in *;
    by rewrite Hr by (done || lia).
Qed.

(** ** Decoded integers are in range *)

Lemma parse_int_bounds lo hi s v : parse_int lo hi s = Some v → lo ≤ v ≤ hi.
Proof.
  unfold parse_int. destruct (match s with [] => _ | _ :: _ => _ end) as [negative digits].
  destruct (is_empty digits); [done|]. destruct (parse_digits 0 digits); [|done]. cbn [mbind option_bind].
  destruct (_ && _) eqn:E; [|done]. intros [= <-]. by apply andb_true_iff in E as [?%Z.leb_le ?%Z.leb_le].
Qed.

Lemma signed_from_le_bytes_bounds bs :
  (0 < length bs ≤ 16)%nat → is_i128 (signed_from_le_bytes bs).
Proof.
  intros Hl. unfold is_i128, i128_min, i128_max, signed_from_le_bytes. pose proof (from_le_bytes_bounds bs) as Hb.
  replace (256 ^ Z.of_nat (length bs)) with (2 ^ (8 * Z.of_nat (length bs))) in Hb by (rewrite Z.pow_mul_r by lia; done).
  assert (2 ^ (8 * Z.of_nat (length bs)) = 2 * 2 ^ (8 * Z.of_nat (length bs) - 1)) as Hh
    by (rewrite <- Z.pow_succ_r by lia; f_equal; lia).
  pose proof (Z.pow_le_mono_r 2 (8 * Z.of_nat (length bs) - 1) 127 ltac:(lia) ltac:(lia)) as Hm.
  destruct (Z.ltb_spec (from_le_bytes bs) (2 ^ (8 * Z.of_nat (length bs) - 1))); lia.
Qed.

Lemma unsigned_from_le_bytes_bounds bs : (length bs ≤ 16)%nat → is_u128 (from_le_bytes bs).
Proof.
  intros Hl. unfold is_u128, u128_max. pose proof (from_le_bytes_bounds bs) as Hb.
  replace (256 ^ Z.of_nat (length bs)) with (2 ^ (8 * Z.of_nat (length bs))) in Hb by (rewrite Z.pow_mul_r by lia; done).
  pose proof (Z.pow_le_mono_r 2 (8 * Z.of_nat (length bs)) 128 ltac:(lia) ltac:(lia)). lia.
Qed.

(** An integer lies in the range of its kind. *)
Definition numeric_in_range (num : StoredNumericValue) : Prop :=
  match num with Signed v => is_i128 v | Unsigned v => is_u128 v | Float _ => True end.

Lemma decode_tagged_in_range tag bs num : decode_tagged_numeric tag bs = Some num → numeric_in_range num.
Proof.
  unfold decode_tagged_numeric. destruct (_ || _) eqn:E1.
  { intros [= <-]. apply signed_from_le_bytes_bounds.
    rewrite !orb_true_iff, !andb_true_iff, !Nat.eqb_eq in E1. lia. }
  destruct (eqb tag STORED_U8_TAG && _ || _ || _ || _ || _) eqn:E2.
  { intros [= <-]. apply unsigned_from_le_bytes_bounds.
    rewrite !orb_true_iff, !andb_true_iff, !Nat.eqb_eq in E2. lia. }
  repeat case_match; intros; simplify_eq; done.
Qed.

Lemma decode_legacy_in_range value num : decode_legacy_numeric_value value = Some num → numeric_in_range num.
Proof.
  unfold decode_legacy_numeric_value, parse_i128_bytes, parse_u128_bytes, parse_f64_bytes.
  destruct (from_utf8 value) as [text|]; [|done]. cbn [mbind option_bind].
  destruct (parse_i128 (trim text)) as [v|] eqn:E1; [intros [= <-]; by apply parse_int_bounds in E1|].
  destruct (parse_u128 (trim text)) as [v|] eqn:E2; [intros [= <-]; by apply parse_int_bounds in E2|].
  by destruct (parse_f64 (trim text)); [intros [= <-]|].
Qed.

Lemma decode_in_range value num : decode_numeric_value value = Some num → numeric_in_range num.
Proof.
  unfold decode_numeric_value. destruct value as [|tag bs]; [apply decode_legacy_in_range|].
  destruct (decode_tagged_numeric tag bs) eqn:E; [|apply decode_legacy_in_range].
  intros [= <-]. by eapply decode_tagged_in_range.
Qed.

Lemma numeric_as_i128_bounds num v : numeric_in_range num → numeric_as_i128 num = Some v → is_i128 v.
Proof.
  destruct num as [w|w|x]; simpl; [by intros ? [= <-]|..].
  - unfold is_u128, is_i128, i128_min. destruct (Z.leb_spec w i128_max); [|done]. intros ? [= <-]. lia.
  - intros _. destruct (_ && _); [|done]. intros [= <-]. unfold is_i128, f64_as_int, i128_min, i128_max.
    destruct x as [|[]| |]; lia.
Qed.

Lemma numeric_as_u128_bounds num v : numeric_in_range num → numeric_as_u128 num = Some v → is_u128 v.
Proof.
  destruct num as [w|w|x]; simpl; [|by intros ? [= <-]|].
  - unfold is_u128, is_i128, i128_max, u128_max. destruct (Z.leb_spec 0 w); [|done]. intros ? [= <-]. lia.
  - intros _. destruct (_ && _); [|done]. intros [= <-]. unfold is_u128, f64_as_int, u128_max.
    destruct x as [|[]| |]; lia.
Qed.

Lemma encoded_not_uuid_signed bits v bs :
  encode_signed_numeric (FInt bits) v = Some bs → decode_tagged_db_uuid_binary bs = None ∧ length bs ∈ [2; 3; 5; 9; 17]%nat.
Proof.
  unfold encode_signed_numeric, encode_signed, tagged_bytes.
  destruct (bits =? 8), (bits =? 16), (bits =? 32), (bits =? 64);
    repeat (destruct (signed_in_range _ v); [|done]); intros [= <-]; (split; [done|]);
    apply (bool_decide_unpack _); vm_compute; exact I.
Qed.

Lemma encoded_not_uuid_unsigned bits v bs :
  encode_unsigned_numeric (FUInt bits) v = Some bs → decode_tagged_db_uuid_binary bs = None ∧ length bs ∈ [2; 3; 5; 9; 17]%nat.
Proof.
  unfold encode_unsigned_numeric, encode_unsigned, tagged_bytes.
  destruct (bits =? 8), (bits =? 16), (bits =? 32), (bits =? 64);
    repeat (destruct (unsigned_in_range _ v); [|done]); intros [= <-]; (split; [done|]);
    apply (bool_decide_unpack _); vm_compute; exact I.
Qed.

(** ** Properties *)

Section properties.
Context `{UuidText} `{Chrono}.

(** [stored] holds the integer [v]: it reads, renders and converts as [v]. *)
Definition holds_integer (stored : bytes) (num : StoredNumericValue) (v : Z) (t : FieldKind) : Prop :=
  decode_numeric_value stored = Some num ∧ render_stored_field_value stored = utf8_encode (show_int v) ∧
  ∀ policy, convert_to_field_type stored t policy = Some stored.

Lemma signed_holds bits v bs :
  is_i128 v → encode_signed_numeric (FInt bits) v = Some bs → holds_integer bs (Signed v) v (FInt bits).
Proof.
  intros Hv He. destruct (decode_encode_signed _ _ _ Hv He) as [_ Hd].
  destruct (encoded_not_uuid_signed _ _ _ He) as [Hu _]. split; [done|]. split.
  - unfold render_stored_field_value. by rewrite Hu, Hd.
  - intros policy. unfold convert_to_field_type. rewrite Hd. done.
Qed.

Lemma unsigned_holds bits v bs :
  is_u128 v → encode_unsigned_numeric (FUInt bits) v = Some bs → holds_integer bs (Unsigned v) v (FUInt bits).
Proof.
  intros Hv He. destruct (decode_encode_unsigned _ _ _ Hv He) as [_ Hd].
  destruct (encoded_not_uuid_unsigned _ _ _ He) as [Hu _]. split; [done|]. split.
  - unfold render_stored_field_value. by rewrite Hu, Hd.
  - intros policy. unfold convert_to_field_type. rewrite Hd. done.
Qed.


(** [bs] is a stored integer of some type. *)
Definition stored_integer (bs : bytes) (v : Z) : Prop :=
  (∃ bits, is_i128 v ∧ encode_signed_numeric (FInt bits) v = Some bs) ∨
  (∃ bits, is_u128 v ∧ encode_unsigned_numeric (FUInt bits) v = Some bs).

Lemma stored_integer_decodes bs v :
  stored_integer bs v →
  (decode_numeric_value bs = Some (Signed v) ∨ decode_numeric_value bs = Some (Unsigned v) ∧ 0 ≤ v) ∧
  decode_tagged_db_uuid_binary bs = None ∧ length bs ∈ [2; 3; 5; 9; 17]%nat.
Proof.
  intros [(bits & Hv & He)|(bits & Hv & He)].
  - split; [left; by eapply decode_encode_signed|by eapply encoded_not_uuid_signed].
  - split; [right; split; [by eapply decode_encode_unsigned|apply Hv]|by eapply encoded_not_uuid_unsigned].
Qed.

Context `{!UuidTextLaws}.

Lemma short_not_uuid text : (length text < 32)%nat → uuid_parse_str (trim text) = None.
Proof.
  intros Hl. destruct (uuid_parse_str (trim text)) as [b|] eqn:E; [|done]. exfalso.
  apply uuid_parse_length in E as [Hlen _]. pose proof (length_trim text) as Ht.
  rewrite !elem_of_cons, elem_of_nil in Hlen. lia.
Qed.

Lemma stored_integer_not_uuid bs v : stored_integer bs v → decode_db_uuid_binary_for_compare bs = None.
Proof.
  intros (_ & Hu & Hl)%stored_integer_decodes. unfold decode_db_uuid_binary_for_compare. rewrite Hu.
  rewrite !elem_of_cons, elem_of_nil in Hl. rewrite (proj2 (Nat.eqb_neq _ _)) by lia.
  destruct (from_utf8 bs) as [text|] eqn:E; [|done]. apply length_from_utf8 in E. simpl.
  apply short_not_uuid. lia.
Qed.

(** Stored integers compare as integers, whatever their widths and signedness: a column whose type
    was changed, or an index that mixes signed and unsigned keys, is ordered by value. *)
Theorem stored_integers_compare left right v w :
  stored_integer left v → stored_integer right w → compare_values left right = (v ?= w).
Proof.
  intros Hl Hr. unfold compare_values. rewrite (stored_integer_not_uuid left v Hl).
  destruct (stored_integer_decodes _ _ Hl) as [Hdl _]. destruct (stored_integer_decodes _ _ Hr) as [Hdr _].
  destruct Hdl as [-> | [-> Hv]], Hdr as [-> | [-> Hw]]; try done; unfold compare_mixed_numeric_values.
  - destruct (Z.ltb_spec v 0); [|done]. symmetry. apply Z.compare_lt_iff. lia.
  - destruct (Z.ltb_spec w 0); [|done]. symmetry. apply Z.compare_gt_iff. lia.
Qed.

(** Stored values are not totally ordered.  Values that read as numbers compare as numbers and all
    others as text, so 10 sorts before 2a, 2a before 9, and 9 before 10; and a value that reads as
    not-a-number compares equal to every number. *)
Theorem comparison_not_transitive :
  compare_values (utf8_encode (lit "10")) (utf8_encode (lit "2a")) = Lt ∧
  compare_values (utf8_encode (lit "2a")) (utf8_encode (lit "9")) = Lt ∧
  compare_values (utf8_encode (lit "9")) (utf8_encode (lit "10")) = Lt ∧
  compare_values (utf8_encode (lit "nan")) (utf8_encode (lit "1")) = Eq ∧
  compare_values (utf8_encode (lit "nan")) (utf8_encode (lit "2")) = Eq ∧
  compare_values (utf8_encode (lit "1")) (utf8_encode (lit "2")) = Lt.
Proof.
  assert (∀ s, (length (lit s) < 32)%nat → uuid_parse_str (trim (lit s)) = None) as Hs by (intros; by apply short_not_uuid).
  assert (∀ s, (length (lit s) < 16)%nat → from_utf8 (utf8_encode (lit s)) = Some (lit s) →
               length (utf8_encode (lit s)) ≠ 16%nat → decode_tagged_db_uuid_binary (utf8_encode (lit s)) = None →
               decode_db_uuid_binary_for_compare (utf8_encode (lit s)) = None) as Hu.
  { intros s Hl Hd Hn Ht. unfold decode_db_uuid_binary_for_compare. rewrite Ht, (proj2 (Nat.eqb_neq _ _) Hn), Hd.
    apply Hs. lia. }
  unfold compare_values. rewrite !Hu by (vm_compute; (reflexivity || discriminate || lia)).
  repeat split.
Qed.

(** Zeros in front of a number, as text. *)
Definition zero_padded (k : nat) (z : Z) : ustr := replicate (S k) 48 ++ show_int z.

Lemma zero_padded_reads k z :
  0 ≤ z ≤ i128_max →
  decode_tagged_db_uuid_binary (utf8_encode (zero_padded k z)) = None ∧
  decode_numeric_value (utf8_encode (zero_padded k z)) = Some (Signed z).
Proof.
  intros Hz. assert (Forall (λ c, is_digit c = true) (zero_padded k z)) as Hd.
  { unfold zero_padded, show_int. rewrite (proj2 (Z.ltb_ge _ _)) by lia. apply Forall_app. split; [by apply Forall_replicate|].
    apply decimal_digits_digits. lia. }
  destruct (digits_text _ Hd) as [Hu Ht].
  assert (parse_i128 (zero_padded k z) = Some z) as Hp.
  { unfold zero_padded, parse_i128, parse_int, show_int. rewrite (proj2 (Z.ltb_ge _ _)) by lia.
    cbn [replicate app]. change (48 =? 43) with false. change (48 =? 45) with false. cbn [andb is_empty].
    pose proof (parse_leading_zeros (S k) (decimal_digits 40 z)) as Hl. cbn [replicate app] in Hl. rewrite Hl.
    assert (i128_max < 10 ^ Z.of_nat 40) by reflexivity. rewrite parse_decimal_digits by lia.
    cbn [mbind option_bind]. unfold i128_min. by rewrite !(proj2 (Z.leb_le _ _)) by lia. }
  unfold zero_padded in *. cbn [replicate app] in *.
  assert (∀ s, utf8_encode (48 :: s) = x30 :: utf8_encode s) as He by done. rewrite He in *. split; [done|].
  unfold decode_numeric_value. change (decode_tagged_numeric x30 _) with (@None StoredNumericValue).
  unfold decode_legacy_numeric_value, parse_i128_bytes. rewrite Hu. cbn [mbind option_bind]. by rewrite Ht, Hp.
Qed.

Lemma ascii_text s : Forall (λ c, 0 ≤ c < 128) s → from_utf8 (utf8_encode s) = Some s.
Proof.
  intros Hs. apply from_utf8_encode. eapply Forall_impl; [exact Hs|]. intros c Hc. simpl in Hc. unfold is_scalar.
  by rewrite (proj2 (Z.leb_le 0 c)), (proj2 (Z.ltb_lt c 55296)) by lia.
Qed.

(** A text column does not always keep its text.  Text that is neither a number nor has a tag's form
    is stored as it is; but leading zeros of digits are dropped, and seventeen bytes that start with the
    digit 1 are taken for a tagged UUID and stored as the text of that UUID. *)
Theorem text_is_not_preserved :
  (∀ value text policy,
     from_utf8 value = Some text → decode_tagged_db_uuid_binary value = None → decode_numeric_value value = None →
     convert_to_field_type value FText policy = Some value) ∧
  (∀ k z, 0 ≤ z ≤ i128_max →
     convert_to_field_type (utf8_encode (zero_padded k z)) FText Safe = Some (utf8_encode (show_int z))) ∧
  (∀ rest, length rest = 16%nat →
     convert_to_field_type (x31 :: rest) FText Safe = Some (utf8_encode (uuid_to_string rest))).
Proof.
  split; [|split].
  - intros value text policy Ht Hu Hn. unfold convert_to_field_type, render_stored_field_value. by rewrite Hu, Hn, Ht.
  - intros k z Hz. destruct (zero_padded_reads k z Hz) as [Hu Hn].
    unfold convert_to_field_type, render_stored_field_value. rewrite Hu, Hn.
    unfold show_int. rewrite (proj2 (Z.ltb_ge _ _)) by lia.
    destruct (digits_text (decimal_digits 40 z)) as [-> _]; [|done]. apply decimal_digits_digits. lia.
  - intros rest Hl. unfold convert_to_field_type, render_stored_field_value, decode_tagged_db_uuid_binary.
    rewrite Hl. cbn [Nat.eqb andb]. change (eqb x31 STORED_UUID_TAG) with true. cbn [andb].
    by rewrite (ascii_text _ (uuid_display_ascii rest)).
Qed.
End properties.
