(* ===== verification/Like.v ===== *)
(** * Matching LIKE patterns

    Models the matcher of [serverlib/src/engine/sql/predicates.rs], which [common/src/helpers/tphashset.rs] has a copy
    of: a scan with one point of return, the last [%] of the pattern.

    - [Like]: what it means that a pattern matches a text.
    - [like_scan_decides]: the scan ends, and finds exactly the matches. *)

From Stdlib Require Import ZArith Lia.
From stdpp Require Import base gmap list strings.
From S2P Require Import Prelude.

Local Open Scope nat_scope.

(** ** Patterns *)

Inductive LikeToken := AnySingle | AnyMany | Literal (c : char).

(** A pattern matches a text when the text is made of the parts that the tokens stand for. *)
Inductive Like (char_eq : char → char → bool) : list LikeToken → ustr → Prop :=
  | Like_nil : Like char_eq [] []
  | Like_single c p a : Like char_eq p a → Like char_eq (AnySingle :: p) (c :: a)
  | Like_literal c e p a : char_eq c e = true → Like char_eq p a → Like char_eq (Literal e :: p) (c :: a)
  | Like_many skipped p a : Like char_eq p a → Like char_eq (AnyMany :: p) (skipped ++ a).

(** The second loop: only [%] may be left, and [pattern_index] reaches the end. *)
Fixpoint only_many (pattern : list LikeToken) : bool :=
  match pattern with
  | [] => true
  | AnyMany :: pattern => only_many pattern
  | _ => false
  end.

Section matcher.
Context (char_eq : char → char → bool) (actual : ustr) (pattern : list LikeToken).

(** The first loop.  [None] when the fuel runs out. *)
Fixpoint like_loop (fuel actual_index pattern_index : nat) (last_percent_index : option nat) (retry_index : nat) :
    option bool :=
  match actual !! actual_index with
  | None => Some (only_many (drop pattern_index pattern))
  | Some c =>
      match fuel with
      | 0 => None
      | S fuel =>
          let retry (_ : unit) :=
            match last_percent_index with
            | Some percent_index =>
                like_loop fuel (retry_index + 1) (percent_index + 1) last_percent_index (retry_index + 1)
            | None => Some false
            end in
          match pattern !! pattern_index with
          | Some AnySingle => like_loop fuel (actual_index + 1) (pattern_index + 1) last_percent_index retry_index
          | Some (Literal expected) =>
              if char_eq c expected
              then like_loop fuel (actual_index + 1) (pattern_index + 1) last_percent_index retry_index
              else retry tt
          | Some AnyMany => like_loop fuel actual_index (pattern_index + 1) (Some pattern_index) actual_index
          | None => retry tt
          end
      end
  end.

(** Every round moves the point of return forward, or keeps it and moves forward in the pattern. *)
Definition like_fuel : nat := S (length actual) * S (length pattern).

Definition like_scan : option bool := like_loop like_fuel 0 0 None 0.

(** ** Facts about matching *)

Local Abbreviation Likes := (Like char_eq).

(** A part of a pattern without [%] and the text it fits. *)
Definition fits_token (t : LikeToken) (c : char) : Prop :=
  match t with AnySingle => True | Literal e => char_eq c e = true | AnyMany => False end.

Lemma like_app seg p x y : Forall2 fits_token seg x → (Likes (seg ++ p) (x ++ y) ↔ Likes p y).
Proof.
  induction 1 as [|t c seg x Ht _ IH]; [done|]. simpl. rewrite <- IH. destruct t; simpl in Ht; [| done |].
  - split; [by inversion 1|by constructor].
  - split; [by inversion 1|by constructor].
Qed.

Lemma like_split seg p a :
  Forall (λ t, t ≠ AnyMany) seg → Likes (seg ++ p) a → ∃ x y, a = x ++ y ∧ Forall2 fits_token seg x ∧ Likes p y.
Proof.
  intros Hseg. revert a. induction Hseg as [|t seg Ht _ IH]; intros a; simpl; [by exists [], a|].
  inversion 1 as [|c p0 a0 Hl|c e p0 a0 He Hl|]; subst; [| |done];
    destruct (IH _ Hl) as (x & y & -> & Hx & Hy); exists (c :: x), y; split_and!; try done; by constructor.
Qed.

Lemma like_many p a : Likes (AnyMany :: p) a ↔ ∃ n, n ≤ length a ∧ Likes p (drop n a).
Proof.
  split.
  - inversion 1 as [| | |skipped p0 a0 Hl]; subst. exists (length skipped). rewrite length_app, drop_app_length. split; [lia|done].
  - intros (n & _ & Hl). rewrite <- (take_drop n a). by constructor.
Qed.

Lemma like_many_mono p a n : Likes (AnyMany :: p) (drop n a) → Likes (AnyMany :: p) a.
Proof.
  rewrite !like_many. intros (k & _ & Hl). rewrite drop_drop in Hl. destruct (decide (n + k ≤ length a)); [by exists (n + k)|].
  exists (length a). split; [done|]. rewrite drop_ge by done. by rewrite drop_ge in Hl by lia.
Qed.

Lemma like_many_cons p c a : Likes (AnyMany :: p) (c :: a) ↔ Likes p (c :: a) ∨ Likes (AnyMany :: p) a.
Proof.
  rewrite !like_many. split.
  - intros ([|n] & Hn & Hl); [by left|]. right. exists n. simpl in Hn, Hl. split; [lia|done].
  - intros [Hl|(n & Hn & Hl)]; [exists 0; split; [simpl; lia|done]|exists (S n); simpl; split; [lia|done]].
Qed.

Lemma like_empty p : Likes p [] ↔ only_many p = true.
Proof.
  induction p as [|t p IH]; simpl; [split; [done|constructor]|]. destruct t.
  - split; [by inversion 1|done].
  - rewrite <- IH, like_many. split; [by intros ([|n] & _ & Hl)|by exists 0].
  - split; [by inversion 1|done].
Qed.

Lemma like_short seg p a : Forall (λ t, t ≠ AnyMany) seg → length a < length seg → ¬ Likes (seg ++ p) a.
Proof.
  intros Hseg Hlen Hl. destruct (like_split _ _ _ Hseg Hl) as (x & y & -> & Hx%Forall2_length & _).
  rewrite length_app in Hlen. lia.
Qed.

(** A part without [%] that fits at the first place it can: what follows it may start there. *)
Lemma like_first_fit seg p x y :
  Forall2 fits_token seg x →
  (Likes (AnyMany :: seg ++ AnyMany :: p) (x ++ y) ↔ Likes (AnyMany :: p) y).
Proof.
  intros Hx. assert (Forall (λ t, t ≠ AnyMany) seg) as Hseg.
  { clear y. induction Hx as [|t c seg x Ht _ IH]; constructor; [by destruct t|done]. }
  rewrite like_many. split.
  - intros (n & Hn & Hl). destruct (like_split _ _ _ Hseg Hl) as (x' & y' & E & Hx' & Hl').
    apply (like_many_mono _ _ n). replace (drop n y) with y'; [done|].
    apply Forall2_length in Hx, Hx'. assert (drop (length x') (drop n (x ++ y)) = y') as <- by (by rewrite E, drop_app_length).
    rewrite drop_drop, drop_app_ge by lia. f_equal. lia.
  - intros Hl. exists 0. split; [lia|]. by apply like_app.
Qed.

(** ** The scan *)

(** What holds at the head of the loop: before the first [%] the rests of pattern and text decide; after it the part
    [seg] behind the last [%] fits the text from the point of return on, and [%] and what follows decide from there. *)
Definition scanning (actual_index pattern_index : nat) (last_percent_index : option nat) (retry_index : nat) : Prop :=
  retry_index ≤ actual_index ∧ pattern_index ≤ length pattern ∧
  match last_percent_index with
  | None => Likes pattern actual ↔ Likes (drop pattern_index pattern) (drop actual_index actual)
  | Some q =>
      ∃ seg, drop q pattern = AnyMany :: seg ++ drop pattern_index pattern
        ∧ Forall2 fits_token seg (take (length seg) (drop retry_index actual))
        ∧ pattern_index = q + 1 + length seg ∧ actual_index = retry_index + length seg
        ∧ (Likes pattern actual ↔ Likes (drop q pattern) (drop retry_index actual))
  end.

Lemma fits_no_many seg x : Forall2 fits_token seg x → Forall (λ t, t ≠ AnyMany) seg.
Proof. induction 1 as [|t c seg x Ht _ IH]; constructor; [by destruct t|done]. Qed.

Lemma scanning_rest ai ri seg :
  Forall2 fits_token seg (take (length seg) (drop ri actual)) → ai = ri + length seg →
  ∃ x, drop ri actual = x ++ drop ai actual ∧ Forall2 fits_token seg x ∧ length x = length seg.
Proof.
  intros Hx ->. exists (take (length seg) (drop ri actual)). split_and!; [|done|symmetry; by eapply Forall2_length].
  by rewrite <- drop_drop, take_drop.
Qed.

(** One more token fits. *)
Lemma scanning_next ai pi lp ri t c :
  scanning ai pi lp ri → actual !! ai = Some c → pattern !! pi = Some t → fits_token t c → scanning (ai + 1) (pi + 1) lp ri.
Proof.
  intros (Hr & Hp & Hs) Hc Ht Hf. pose proof (lookup_lt_Some _ _ _ Ht).
  pose proof (drop_S _ _ _ Hc) as Ea. pose proof (drop_S _ _ _ Ht) as Ep.
  rewrite <- Nat.add_1_r in Ea, Ep. split_and!; [lia|lia|]. destruct lp as [q|].
  - destruct Hs as (seg & Eq & Hseg & -> & -> & Hl). exists (seg ++ [t]). rewrite length_app. simpl.
    split_and!; [by rewrite Eq, Ep, <- app_assoc| |lia|lia|done].
    rewrite Nat.add_1_r, (take_S_r _ _ c); [apply Forall2_app; [done|by repeat constructor]|]. by rewrite lookup_drop.
  - rewrite Hs, Ea, Ep. apply (like_app [t] _ [c]). by repeat constructor.
Qed.

(** A new [%] becomes the point of return. *)
Lemma scanning_many ai pi lp ri :
  scanning ai pi lp ri → pattern !! pi = Some AnyMany → scanning ai (pi + 1) (Some pi) ai.
Proof.
  intros (Hr & Hp & Hs) Ht. pose proof (lookup_lt_Some _ _ _ Ht). pose proof (drop_S _ _ _ Ht) as Ep.
  rewrite <- Nat.add_1_r in Ep. split_and!; [lia|lia|]. exists []. split_and!; [done|constructor|simpl; lia|simpl; lia|].
  destruct lp as [q|]; [|done]. destruct Hs as (seg & Eq & Hseg & -> & -> & ->).
  destruct (scanning_rest _ ri seg Hseg eq_refl) as (x & Ex & Hx & _).
  rewrite Eq, Ex, Ep. by apply like_first_fit.
Qed.

(** Nothing fits: the text is tried from the next place on. *)
Lemma scanning_retry ai pi q ri c :
  scanning ai pi (Some q) ri → actual !! ai = Some c → ¬ Likes (drop pi pattern) (drop ai actual) →
  scanning (ri + 1) (q + 1) (Some q) (ri + 1) ∧ ri < length actual.
Proof.
  intros (Hr & Hp & seg & Eq & Hseg & Epi & Eai & Hl) Hc Hno. pose proof (lookup_lt_Some _ _ _ Hc).
  destruct (lookup_lt_is_Some_2 actual ri) as [d Hd]; [lia|]. pose proof (drop_S _ _ _ Hd) as Ed.
  split; [|lia]. split_and!; [lia|lia|]. exists [].
  assert (drop (q + 1) pattern = seg ++ drop pi pattern) as Eq1 by (by rewrite <- drop_drop, Eq).
  split_and!; [by rewrite Eq, Eq1|constructor|simpl; lia|simpl; lia|]. rewrite Hl, Ed, Nat.add_1_r, Eq, like_many_cons.
  destruct (scanning_rest ai ri seg Hseg Eai) as (x & Ex & Hx & _). rewrite <- Ed, Ex.
  rewrite (like_app seg _ x _ Hx). tauto.
Qed.

(** The text is used up: a later place leaves too little of it. *)
Lemma scanning_end ai pi lp ri :
  scanning ai pi lp ri → actual !! ai = None → (Likes pattern actual ↔ only_many (drop pi pattern) = true).
Proof.
  intros (Hr & Hp & Hs) Hn%lookup_ge_None. rewrite <- like_empty. destruct lp as [q|]; [|by rewrite (drop_ge actual) in Hs by lia].
  destruct Hs as (seg & Eq & Hseg & Epi & Eai & ->). pose proof (fits_no_many _ _ Hseg) as Hmany.
  destruct (scanning_rest ai ri seg Hseg Eai) as (x & Ex & Hx & Hlen).
  rewrite Eq, Ex, (drop_ge actual ai), app_nil_r by lia. rewrite like_many. split.
  - intros ([|n] & Hn' & Hl); [by rewrite <- (app_nil_r x) in Hl; apply like_app in Hl|].
    exfalso. eapply (like_short seg); [done| |exact Hl]. rewrite length_drop. lia.
  - intros Hl. exists 0. split; [lia|]. rewrite <- (app_nil_r x). by apply like_app.
Qed.

Lemma like_loop_decides fuel ai pi lp ri :
  scanning ai pi lp ri → (length actual - ri) * S (length pattern) + (length pattern - pi) < fuel →
  ∃ b, like_loop fuel ai pi lp ri = Some b ∧ (b = true ↔ Likes pattern actual).
Proof.
  revert ai pi lp ri. induction fuel as [|fuel IH]; intros ai pi lp ri Hs Hf; [by apply Nat.nlt_0_r in Hf|]. pose proof Hs as (Hri & Hpi & _).
  cbn [like_loop]. destruct (actual !! ai) as [c|] eqn:Ec.
  2: { eexists. split; [done|]. by rewrite (scanning_end _ _ _ _ Hs Ec). }
  pose proof (lookup_lt_Some _ _ _ Ec) as Hai.
  assert (¬ Likes (drop pi pattern) (drop ai actual) →
    ∃ b, match lp with
         | Some q => like_loop fuel (ri + 1) (q + 1) lp (ri + 1) | None => Some false end = Some b
      ∧ (b = true ↔ Likes pattern actual)) as Hretry.
  { intros Hno. destruct lp as [q|].
    - destruct (scanning_retry _ _ _ _ _ Hs Ec Hno) as [Hs' Hr]. apply IH; [done|]. nia.
    - exists false. split; [done|]. destruct Hs as (_ & _ & ->). split; [done|]. intros Hl. by destruct (Hno Hl). }
  rewrite (drop_S _ _ _ Ec) in Hretry. destruct (pattern !! pi) as [t|] eqn:Et.
  2: { apply Hretry. apply lookup_ge_None in Et. rewrite drop_ge by done. by inversion 1. }
  pose proof (lookup_lt_Some _ _ _ Et) as Hlt. rewrite (drop_S _ _ _ Et) in Hretry. destruct t as [| |e].
  - apply IH; [by eapply scanning_next|nia].
  - apply IH; [by eapply scanning_many|]. nia.
  - destruct (char_eq c e) eqn:Ee; [apply IH; [by eapply scanning_next|nia]|].
    apply Hretry. inversion 1; congruence.
Qed.

Lemma like_scan_decides : ∃ b, like_scan = Some b ∧ (b = true ↔ Likes pattern actual).
Proof.
  apply like_loop_decides; [split_and!; [lia|lia|done]|]. unfold like_fuel. nia.
Qed.
End matcher.
