(* ===== verification/Predicates.v ===== *)
(** * Comparison predicates

    Models [serverlib/src/engine/sql/predicates.rs] but for regular expressions, whose crate it only calls: the LIKE
    operator on stored values with its four ways of matching, and the comparison operators. *)

From Stdlib Require Import ZArith Lia Strings.Byte.
From stdpp Require Import base gmap list strings.
From S2P Require Import Prelude Identifiers Text Schema RowCodec FieldValue Like.

Local Open Scope nat_scope.

(** ** Patterns as tokens *)

Fixpoint compile_like_tokens (pattern : ustr) (escape_char : option char) : list LikeToken :=
  match pattern with
  | [] => []
  | current :: rest =>
      if bool_decide (escape_char = Some current) then
        match rest with
        | escaped :: rest => Literal escaped :: compile_like_tokens rest escape_char
        | [] => [Literal current]
        end
      else
        (if (current =? 95)%Z then AnySingle else if (current =? 37)%Z then AnyMany else Literal current)
        :: compile_like_tokens rest escape_char
  end.

Definition like_char_eq (case_insensitive : bool) (actual pattern : char) : bool :=
  if case_insensitive then (char_to_ascii_lowercase actual =? char_to_ascii_lowercase pattern)%Z
  else (actual =? pattern)%Z.

Definition like_matches (actual : ustr) (pattern : list LikeToken) (case_insensitive : bool) : bool :=
  default false (like_scan (like_char_eq case_insensitive) actual pattern).

(** ** Patterns as literal segments *)

Definition byte_is_ascii (b : byte) : bool := (u8_Z b <? 128)%Z.

(** The escape character as a byte; patterns with another one are not split. *)
Definition escape_byte_of (escape_char : option char) : option (option byte) :=
  match escape_char with
  | Some ch => if (ch <? 128)%Z then Some (Some (Z_u8 ch)) else None
  | None => Some None
  end.

Fixpoint split_segments (escape_byte : option byte) (pattern : bytes) (segments : list bytes) (current_segment : bytes)
    (leading_wildcard trailing_wildcard : bool) : option (list bytes * bool * bool) :=
  match pattern with
  | [] =>
      Some (if is_empty current_segment then segments else segments ++ [current_segment], leading_wildcard, trailing_wildcard)
  | current :: rest =>
      if bool_decide (escape_byte = Some current) then
        match rest with
        | escaped :: rest =>
            if negb (byte_is_ascii escaped) then None
            else split_segments escape_byte rest segments (current_segment ++ [escaped]) leading_wildcard false
        | [] => Some (segments ++ [current_segment ++ [current]], leading_wildcard, false)
        end
      else if negb (byte_is_ascii current) then None
      else if (u8_Z current =? 95)%Z then None
      else if (u8_Z current =? 37)%Z then
        split_segments escape_byte rest (if is_empty current_segment then segments else segments ++ [current_segment]) []
          (leading_wildcard || is_empty segments && is_empty current_segment) true
      else split_segments escape_byte rest segments (current_segment ++ [current]) leading_wildcard false
  end.

Definition parse_like_literal_segments (pattern : bytes) (escape_char : option char) : option (list bytes * bool * bool) :=
  escape_byte ← escape_byte_of escape_char; split_segments escape_byte pattern [] [] false false.

(** [window.eq_ignore_ascii_case(segment)] or [window == segment]. *)
Definition bytes_match (case_insensitive : bool) (a b : bytes) : bool :=
  if case_insensitive then bool_decide (char_to_ascii_lowercase ∘ u8_Z <$> a = char_to_ascii_lowercase ∘ u8_Z <$> b)
  else bool_decide (a = b).

Definition matches_segment_at (actual : bytes) (start : nat) (segment : bytes) (case_insensitive : bool) : bool :=
  (start + length segment <=? length actual)
  && bytes_match case_insensitive (take (length segment) (drop start actual)) segment.

Definition find_all_segment_occurrences (actual segment : bytes) (case_insensitive : bool) : list nat :=
  if is_empty segment || (length actual <? length segment) then []
  else filter (λ start, matches_segment_at actual start segment case_insensitive = true)
         (seq 0 (length actual - length segment + 1)).

Definition find_segment_from (actual segment : bytes) (start : nat) (case_insensitive : bool) : option nat :=
  if is_empty segment then Some start
  else if (length actual <? start) || (length actual - start <? length segment) then None
  else head (filter (λ candidate, matches_segment_at actual candidate segment case_insensitive = true)
               (seq start (length actual - length segment + 1 - start))).

(** The loop over the remaining segments: the place behind the last one. *)
Fixpoint follow_segments (actual : bytes) (segments : list bytes) (cursor : nat) (case_insensitive : bool) : option nat :=
  match segments with
  | [] => Some cursor
  | segment :: segments =>
      next_start ← find_segment_from actual segment cursor case_insensitive;
      follow_segments actual segments (next_start + length segment) case_insensitive
  end.

Definition compare_like_by_literal_segments (actual pattern : bytes) (case_insensitive : bool) (escape_char : option char) :
    option bool :=
  '(segments, leading_wildcard, trailing_wildcard) ← parse_like_literal_segments pattern escape_char;
  match segments with
  | [] => Some true
  | first_segment :: rest =>
      let try start :=
        match follow_segments actual rest (start + length first_segment) case_insensitive with
        | Some cursor => trailing_wildcard || (cursor =? length actual)
        | None => false
        end in
      if leading_wildcard : bool then Some (existsb try (find_all_segment_occurrences actual first_segment case_insensitive))
      else if matches_segment_at actual 0 first_segment case_insensitive then Some (try 0)
      else Some false
  end.

(** ** Patterns that are a literal or a prefix *)

Inductive LikeAsciiFastPath := AsciiExact (expected : bytes) | AsciiPrefix (prefix : bytes).

Fixpoint ascii_fast_path (escape_byte : option byte) (pattern : bytes) (literal : bytes) : option LikeAsciiFastPath :=
  match pattern with
  | [] => Some (AsciiExact literal)
  | current :: rest =>
      if bool_decide (escape_byte = Some current) then
        match rest with
        | escaped :: rest =>
            if negb (byte_is_ascii escaped) then None else ascii_fast_path escape_byte rest (literal ++ [escaped])
        | [] => Some (AsciiExact (literal ++ [current]))
        end
      else if negb (byte_is_ascii current) then None
      else if (u8_Z current =? 95)%Z then None
      else if (u8_Z current =? 37)%Z then if is_empty rest then Some (AsciiPrefix literal) else None
      else ascii_fast_path escape_byte rest (literal ++ [current])
  end.

Definition classify_like_ascii_fast_path (pattern : bytes) (escape_char : option char) : option LikeAsciiFastPath :=
  escape_byte ← escape_byte_of escape_char; ascii_fast_path escape_byte pattern [].

Definition apply_like_ascii_fast_path (actual : bytes) (fast_path : LikeAsciiFastPath) (case_insensitive : bool) : bool :=
  match fast_path with
  | AsciiExact expected => bytes_match case_insensitive actual expected
  | AsciiPrefix prefix =>
      (length prefix <=? length actual) && bytes_match case_insensitive (take (length prefix) actual) prefix
  end.

Inductive LikeFastPath := Exact (expected : ustr) | Prefix (prefix : ustr).

(** The loop over the characters; [escaped] says that the last one was the escape character. *)
Fixpoint fast_path (escape_char : option char) (escaped : bool) (chars : ustr) (literal : ustr) : option LikeFastPath :=
  match chars with
  | [] =>
      Some (Exact (literal ++ match escape_char with Some escape => if escaped then [escape] else [] | None => [] end))
  | ch :: rest =>
      if escaped then fast_path escape_char false rest (literal ++ [ch])
      else if bool_decide (escape_char = Some ch) then fast_path escape_char true rest literal
      else if (ch =? 95)%Z then None
      else if (ch =? 37)%Z then if is_empty rest then Some (Prefix literal) else None
      else fast_path escape_char false rest (literal ++ [ch])
  end.

Definition classify_like_fast_path (pattern : ustr) (escape_char : option char) : option LikeFastPath :=
  fast_path escape_char false pattern [].

Definition text_match (case_insensitive : bool) (a b : ustr) : bool :=
  if case_insensitive then eq_ignore_ascii_case a b else str_eqb a b.

(** [str::get] of a range up to a byte, which must be the end of a character. *)
Fixpoint str_get_to (n : nat) (s : ustr) : option ustr :=
  match n, s with
  | O, _ => Some []
  | _, [] => None
  | _, c :: s =>
      let len := length (utf8_encode_char c) in if n <? len then None else cons c <$> str_get_to (n - len) s
  end.

Definition apply_like_fast_path (actual : ustr) (path : LikeFastPath) (case_insensitive : bool) : bool :=
  match path with
  | Exact expected => text_match case_insensitive actual expected
  | Prefix prefix =>
      if case_insensitive
      then match str_get_to (byte_len prefix) actual with
           | Some head => eq_ignore_ascii_case head prefix
           | None => false
           end
      else starts_with actual prefix
  end.

(** ** The operators *)

(** [str::chars] of a text given by its bytes. *)
Definition chars_of (bs : bytes) : ustr := default [] (from_utf8 bs).

Definition compare_like_value `{UuidText} (actual pattern : bytes) (case_insensitive : bool) (escape_char : option char) :
    bool :=
  let actual_rendered := render_stored_field_value actual in
  let pattern_rendered := render_stored_field_value pattern in
  match compare_like_by_literal_segments actual_rendered pattern_rendered case_insensitive escape_char with
  | Some matched => matched
  | None =>
      match classify_like_ascii_fast_path pattern_rendered escape_char with
      | Some fast_path => apply_like_ascii_fast_path actual_rendered fast_path case_insensitive
      | None =>
          let actual_text := chars_of (from_utf8_lossy actual_rendered) in
          let pattern_text := chars_of (from_utf8_lossy pattern_rendered) in
          match classify_like_fast_path pattern_text escape_char with
          | Some fast_path => apply_like_fast_path actual_text fast_path case_insensitive
          | None => like_matches actual_text (compile_like_tokens pattern_text escape_char) case_insensitive
          end
      end
  end.

Inductive SelectComparisonOp := CmpEq | CmpNotEq | CmpGt | CmpGtEq | CmpLt | CmpLtEq.

Definition compare_row_value `{FieldValues} (actual expected : bytes) (op : SelectComparisonOp) : bool :=
  match op, compare_stored_field_values actual expected with
  | CmpEq, Eq | CmpGt, Gt | CmpLt, Lt => true
  | CmpNotEq, (Lt | Gt) | CmpGtEq, (Eq | Gt) | CmpLtEq, (Eq | Lt) => true
  | _, _ => false
  end.
