(* ===== verification/LikeFacts.v ===== *)
(** * What LIKE decides

    - [like_matches_decides]: the scan over the tokens of a pattern ends and decides the match.
    - [like_operator]: of a non-empty pattern the operator says only what is so; and it finds the match, unless the
      pattern is split into several literals and does not end in [%].
    - [like_misses_later_suffix]: such a pattern does miss texts it matches, as the last literal is searched from the
      left. *)

From Stdlib Require Import ZArith Lia Strings.Byte.
From stdpp Require Import base gmap list strings.
From S2P Require Import Prelude Identifiers Text Schema RowCodec FieldValue Like Predicates.

Local Open Scope nat_scope.

(** C25: the scan of a text for the tokens of a pattern ends within its fuel, and its answer is whether the pattern
    matches the text. *)
Theorem like_matches_decides actual tokens case_insensitive :
  like_scan (like_char_eq case_insensitive) actual tokens = Some (like_matches actual tokens case_insensitive)
  ∧ (like_matches actual tokens case_insensitive = true ↔ Like (like_char_eq case_insensitive) tokens actual).
Proof.
  unfold like_matches. destruct (like_scan_decides (like_char_eq case_insensitive) actual tokens) as (b & E & Hb).
  by rewrite E.
Qed.

(** ** Patterns up to the texts they match *)

Section equivalence.
Context (char_eq : char → char → bool).

Definition pattern_equiv (p q : list LikeToken) : Prop := ∀ a, Like char_eq p a ↔ Like char_eq q a.

#[global] Instance pattern_equiv_equivalence : Equivalence pattern_equiv.
Proof. split; unfold pattern_equiv; [done|by intros p q H a|]. intros p q r H1 H2 a. by rewrite H1. Qed.

Lemma like_nil_inv a : Like char_eq [] a → a = [].
Proof. by inversion 1. Qed.

Lemma like_concat p q a : Like char_eq (p ++ q) a ↔ ∃ x y, a = x ++ y ∧ Like char_eq p x ∧ Like char_eq q y.
Proof.
  split.
  - revert a. induction p as [|t p IH]; intros a; simpl; [intros Hl; exists [], a; split_and!; [done|constructor|done]|].
    inversion 1 as [|c p0 a0 Hl|c e p0 a0 He Hl|skipped p0 a0 Hl]; subst; destruct (IH _ Hl) as (x & y & -> & Hx & Hy);
      [exists (c :: x), y|exists (c :: x), y|exists (skipped ++ x), y]; split_and!; try done; try (by constructor).
    by rewrite app_assoc.
  - intros (x & y & -> & Hx & Hy). induction Hx; simpl; [done|by constructor..|]. rewrite <- app_assoc. by constructor.
Qed.

#[global] Instance pattern_app_proper : Proper (pattern_equiv ==> pattern_equiv ==> pattern_equiv) (++).
Proof. intros p p' Hp q q' Hq a. rewrite !like_concat. by setoid_rewrite (Hp _); setoid_rewrite (Hq _). Qed.

Lemma many_many : pattern_equiv [AnyMany; AnyMany] [AnyMany].
Proof.
  intros a. split.
  - intros _. rewrite <- (app_nil_r a). repeat constructor.
  - intros _. apply (Like_many _ []). rewrite <- (app_nil_r a). repeat constructor.
Qed.
End equivalence.

(** ** Bytes and characters *)

Definition literals (s : ustr) : list LikeToken := Literal <$> s.

(** Tokens for which it does not matter whether a text is taken as bytes or as characters. *)
Definition bytewise (t : LikeToken) : Prop :=
  match t with AnyMany => True | Literal c => (0 ≤ c < 128)%Z | AnySingle => False end.

Lemma ascii_encode c : (0 ≤ c < 128)%Z → utf8_encode_char c = [Z_u8 c].
Proof. intros Hc. unfold utf8_encode_char. by rewrite (proj2 (Z.ltb_lt _ _)) by lia. Qed.

Lemma encode_not_ascii c :
  is_scalar c = true → ¬ (c < 128)%Z → Forall (λ b, (128 ≤ u8_Z b)%Z) (utf8_encode_char c).
Proof.
  intros Hs%is_scalar_bounds Hc. unfold utf8_encode_char. rewrite (proj2 (Z.ltb_ge _ _)) by lia.
  repeat case_match; repeat constructor; rewrite ?Z.ltb_lt, ?Z.ltb_ge in *;
    rewrite u8_Z_small by (Z.to_euclidean_division_equations; lia); Z.to_euclidean_division_equations; lia.
Qed.

Lemma like_char_eq_ascii ci c e : like_char_eq ci c e = true → (0 ≤ e < 128)%Z → (0 ≤ c < 128)%Z.
Proof.
  unfold like_char_eq, char_to_ascii_lowercase. intros H He. destruct ci; [|lia].
  repeat case_match; rewrite ?andb_true_iff, ?andb_false_iff, ?Z.leb_le, ?Z.leb_gt in *; lia.
Qed.

Definition scalars (s : ustr) : Prop := Forall (λ c, is_scalar c = true) s.

(** The bytes of a text as numbers. *)
Definition encoded (s : ustr) : ustr := u8_Z <$> utf8_encode s.

Lemma encoded_cons c s : encoded (c :: s) = (u8_Z <$> utf8_encode_char c) ++ encoded s.
Proof. unfold encoded, utf8_encode. by rewrite bind_cons, fmap_app. Qed.

Lemma encoded_app s t : encoded (s ++ t) = encoded s ++ encoded t.
Proof. unfold encoded, utf8_encode. by rewrite bind_app, fmap_app. Qed.

Lemma encoded_ascii_cons c s : (0 ≤ c < 128)%Z → encoded (c :: s) = c :: encoded s.
Proof. intros Hc. rewrite encoded_cons, ascii_encode by done. simpl. by rewrite u8_Z_small by lia. Qed.

(** Every rest of the bytes of a text is the rest of a character and the bytes of the characters behind it. *)
Lemma encoded_suffix a cont x y :
  scalars a → Forall (λ z, 128 ≤ z)%Z cont → cont ++ encoded a = x ++ y →
  ∃ cont' n, Forall (λ z, 128 ≤ z)%Z cont' ∧ y = cont' ++ encoded (drop n a).
Proof.
  intros Ha. revert cont x. induction Ha as [|c a Hc Ha IH]; intros cont x Hcont E.
  - unfold encoded in *. simpl in *. rewrite app_nil_r in E. subst cont. exists y, 0. rewrite app_nil_r.
    split; [|done]. by apply Forall_app in Hcont as [_ ?].
  - apply app_eq_inv in E as [(k & -> & ->)|(k & -> & Hk)].
    + exists k, 0. by apply Forall_app in Hcont as [_ Hk].
    + rewrite encoded_cons in Hk. destruct (decide (c < 128)%Z) as [Hlt|Hge].
      * pose proof (is_scalar_bounds _ Hc). rewrite ascii_encode in Hk by lia. destruct k as [|z k].
        { exists [], 0. split; [constructor|]. simpl in Hk. simpl. by rewrite encoded_cons, ascii_encode by lia. }
        injection Hk as _ Hk. destruct (IH [] k (Forall_nil_2 _) Hk) as (cont' & n & Hc' & ->). by exists cont', (S n).
      * pose proof (encode_not_ascii c Hc Hge) as Hb.
        destruct (IH (u8_Z <$> utf8_encode_char c) k) as (cont' & n & Hc' & ->);
          [by apply Forall_fmap|done|]. by exists cont', (S n).
Qed.

Lemma like_bytes_chars ci p z :
  Like (like_char_eq ci) p z → Forall bytewise p → ∀ cont a, scalars a → Forall (λ z, 128 ≤ z)%Z cont →
  z = cont ++ encoded a → Like (like_char_eq ci) p a ∧ (cont = [] ∨ head p = Some AnyMany).
Proof.
  induction 1 as [|c p z Hl IH|c e p z He Hl IH|skipped p z Hl IH]; intros Hp cont a Ha Hcont E.
  - symmetry in E. apply app_eq_nil in E as [-> E]. split; [|by left]. destruct a as [|c a]; [constructor|].
    apply (f_equal length) in E. rewrite encoded_cons, length_app, length_fmap in E. simpl in E.
    pose proof (length_utf8_encode_char c). lia.
  - by inversion Hp.
  - inversion Hp as [|? ? He' Hp']; subst. simpl in He'. pose proof (like_char_eq_ascii _ _ _ He He') as Hc.
    destruct cont as [|k cont]; [|injection E as <- _; inversion Hcont; lia]. split; [|by left].
    destruct Ha as [|d a Hd Ha]; [done|]. simpl in E. destruct (decide (d < 128)%Z) as [Hlt|Hge].
    + pose proof (is_scalar_bounds _ Hd). rewrite encoded_ascii_cons in E by lia. injection E as -> E.
      constructor; [done|]. by destruct (IH Hp' [] a Ha (Forall_nil_2 _) E).
    + rewrite encoded_cons in E. pose proof (encode_not_ascii d Hd Hge) as Hb. pose proof (length_utf8_encode_char d).
      destruct (utf8_encode_char d) as [|b bs]; [simpl in *; lia|]. injection E as -> _. inversion Hb; lia.
  - split; [|by right]. symmetry in E. destruct (encoded_suffix a cont skipped z Ha Hcont E) as (cont' & n & Hc' & ->).
    inversion Hp as [|? ? _ Hp']; subst. destruct (IH Hp' cont' (drop n a)) as [Hd _]; [by apply Forall_drop|done|done|].
    rewrite <- (take_drop n a). by constructor.
Qed.

Lemma like_chars_bytes ci p a :
  Like (like_char_eq ci) p a → Forall bytewise p → Like (like_char_eq ci) p (encoded a).
Proof.
  induction 1 as [|c p a Hl IH|c e p a He Hl IH|skipped p a Hl IH]; intros Hp; [constructor|by inversion Hp|..];
    inversion Hp as [|? ? He' Hp']; subst.
  - rewrite encoded_ascii_cons by (by eapply like_char_eq_ascii). constructor; auto.
  - rewrite encoded_app. constructor; auto.
Qed.

(** Bytes and characters agree. *)
Lemma like_encoded ci p a :
  scalars a → Forall bytewise p → (Like (like_char_eq ci) p (encoded a) ↔ Like (like_char_eq ci) p a).
Proof.
  intros Ha Hp. split; [|intros Hl; by apply like_chars_bytes].
  intros Hl. by destruct (like_bytes_chars ci p _ Hl Hp [] a).
Qed.

(** ** Literal segments *)

Definition segment_tokens (segment : bytes) : list LikeToken := literals (u8_Z <$> segment).

(** Segments with [%] between them. *)
Fixpoint between (segments : list bytes) : list LikeToken :=
  match segments with
  | [] => []
  | [segment] => segment_tokens segment
  | segment :: segments => segment_tokens segment ++ AnyMany :: between segments
  end.

Definition many_if (b : bool) : list LikeToken := if b then [AnyMany] else [].

(** The pattern that the state of the splitting loop stands for. *)
Definition split_tokens (segments : list bytes) (current : bytes) (leading trailing : bool) : list LikeToken :=
  many_if leading ++ between (segments ++ (if is_empty current then [] else [current]))
  ++ many_if (trailing && negb (is_empty segments)).

Lemma between_cons segment segments :
  segments ≠ [] → between (segment :: segments) = segment_tokens segment ++ AnyMany :: between segments.
Proof. by destruct segments. Qed.

Lemma between_snoc segments segment :
  segments ≠ [] → between (segments ++ [segment]) = between segments ++ AnyMany :: segment_tokens segment.
Proof.
  induction segments as [|s [|s' segments] IH]; intros Hne; [done|done|].
  rewrite <- app_comm_cons, !between_cons, IH by done. by rewrite <- app_assoc.
Qed.

Lemma between_extend segments segment b :
  between (segments ++ [segment ++ [b]]) = between (segments ++ [segment]) ++ [Literal (u8_Z b)].
Proof.
  assert (segment_tokens (segment ++ [b]) = segment_tokens segment ++ [Literal (u8_Z b)]) as E
    by (unfold segment_tokens, literals; by rewrite !fmap_app).
  destruct segments as [|s segments]; [exact E|]. rewrite !between_snoc by done. by rewrite E, <- app_assoc.
Qed.

(** What holds of the state of the loop. *)
Record split_ok (segments : list bytes) (current : bytes) (leading trailing : bool) : Prop := {
  so_current : current ≠ [] → trailing = false;
  so_between : current = [] → segments ≠ [] → trailing = true;
  so_start : current = [] → segments = [] → leading = trailing;
  so_segments : Forall (λ segment, segment ≠ []) segments;
  so_ascii : Forall (Forall (λ b, byte_is_ascii b = true)) (current :: segments)
}.

(** Segments with [%] before each. *)
Fixpoint following (segments : list bytes) : list LikeToken :=
  match segments with
  | [] => []
  | segment :: segments => AnyMany :: segment_tokens segment ++ following segments
  end.

Lemma between_following segment segments : between (segment :: segments) = segment_tokens segment ++ following segments.
Proof.
  revert segment. induction segments as [|s segments IH]; intros segment; [by rewrite app_nil_r|].
  rewrite between_cons by done. by rewrite IH.
Qed.

Lemma split_literal segments current leading trailing b :
  split_ok segments current leading trailing → byte_is_ascii b = true →
  split_tokens segments (current ++ [b]) leading false = split_tokens segments current leading trailing ++ [Literal (u8_Z b)]
  ∧ split_ok segments (current ++ [b]) leading false.
Proof.
  intros [Hc Hb Hs Hne Ha] Hascii. inversion Ha as [|? ? Ha1 Ha2]; subst. split.
  - unfold split_tokens. destruct (is_empty (current ++ [b])) eqn:E; [by destruct current|]. clear E.
    simpl andb. simpl many_if. rewrite app_nil_r. destruct current as [|d current].
    + simpl is_empty. cbv iota. rewrite app_nil_r. destruct segments as [|s segments].
      * simpl. rewrite andb_false_r. simpl. by rewrite app_nil_r.
      * rewrite (Hb eq_refl) by done. cbn [andb negb is_empty many_if]. change ([] ++ [b]) with [b].
        rewrite between_snoc by done. by rewrite <- !app_assoc.
    + rewrite (Hc ltac:(done)). cbn [andb many_if]. rewrite app_nil_r. simpl is_empty. cbv iota.
      by rewrite between_extend, app_assoc.
  - split; [done|by destruct current|by destruct current|done|].
    constructor; [|done]. apply Forall_app. auto.
Qed.

Lemma split_many char_eq segments current leading trailing :
  split_ok segments current leading trailing →
  let segments' := if is_empty current then segments else segments ++ [current] in
  let leading' := leading || is_empty segments && is_empty current in
  pattern_equiv char_eq (split_tokens segments' [] leading' true) (split_tokens segments current leading trailing ++ [AnyMany])
  ∧ split_ok segments' [] leading' true.
Proof.
  intros [Hc Hb Hs Hne Ha] segments' leading'. inversion Ha as [|? ? Ha1 Ha2]; subst.
  assert (split_ok segments' [] leading' true) as Hok.
  { unfold segments', leading'. destruct current as [|d current]; simpl.
    - split; try done. intros _ ->. by rewrite orb_true_r.
    - split; try done; [by destruct segments|by apply Forall_app; auto|constructor; [done|apply Forall_app; auto]]. }
  split; [|done]. unfold split_tokens, segments', leading'. destruct current as [|d current]; simpl is_empty; cbv iota.
  - rewrite !app_nil_r. destruct segments as [|s segments].
    + rewrite (Hs eq_refl eq_refl). cbn [andb negb is_empty]. rewrite orb_true_r, andb_false_r. simpl.
      destruct trailing; simpl; [symmetry; apply many_many|done].
    + rewrite (Hb eq_refl) by done. cbn [andb negb is_empty many_if]. rewrite orb_false_r, <- !app_assoc. simpl app at 5.
      by rewrite many_many.
  - rewrite (Hc ltac:(done)), andb_false_r, orb_false_r, app_nil_r. cbn [andb many_if].
    replace (is_empty (segments ++ [d :: current])) with false by (by destruct segments). simpl. by rewrite app_nil_r, app_assoc.
Qed.

(** What the loop returns. *)
Record segments_ok (segments : list bytes) (leading trailing : bool) : Prop := {
  sg_segments : Forall (λ segment, segment ≠ []) segments;
  sg_ascii : Forall (Forall (λ b, byte_is_ascii b = true)) segments;
  sg_start : segments = [] → leading = trailing
}.

Lemma split_done segments current leading trailing :
  split_ok segments current leading trailing →
  let segments' := if is_empty current then segments else segments ++ [current] in
  split_tokens segments' [] leading trailing = split_tokens segments current leading trailing
  ∧ segments_ok segments' leading trailing.
Proof.
  intros [Hc Hb Hs Hne Ha] segments'. inversion Ha as [|? ? Ha1 Ha2]; subst. unfold segments', split_tokens.
  destruct current as [|d current]; simpl is_empty; cbv iota; [split; [done|by split; auto]|].
  rewrite (Hc ltac:(done)), !app_nil_r. split; [done|]. split; [by apply Forall_app; auto|by apply Forall_app; auto|by destruct segments].
Qed.

Lemma ascii_byte c : (0 ≤ c < 128)%Z → byte_is_ascii (Z_u8 c) = true ∧ u8_Z (Z_u8 c) = c.
Proof. intros Hc. unfold byte_is_ascii. rewrite u8_Z_small by lia. split; [by apply Z.ltb_lt; lia|done]. Qed.

Definition escape_ok (escape_char : option char) : Prop := ∀ c, escape_char = Some c → is_scalar c = true.

Lemma escape_is escape_char escape_byte c :
  escape_ok escape_char → escape_byte_of escape_char = Some escape_byte → (0 ≤ c < 128)%Z →
  bool_decide (escape_byte = Some (Z_u8 c)) = bool_decide (escape_char = Some c).
Proof.
  unfold escape_byte_of. intros Hs E Hc. destruct escape_char as [ch|]; [|by simplify_eq].
  destruct (Z.ltb_spec ch 128); [|done]. injection E as <-. pose proof (is_scalar_bounds _ (Hs ch eq_refl)).
  apply bool_decide_ext. split; [|congruence]. intros [= E]. f_equal. apply (f_equal u8_Z) in E. by rewrite !u8_Z_small in E by lia.
Qed.

Lemma escape_not_high escape_char escape_byte b :
  escape_ok escape_char → escape_byte_of escape_char = Some escape_byte → (128 ≤ u8_Z b)%Z →
  bool_decide (escape_byte = Some b) = false.
Proof.
  unfold escape_byte_of. intros Hs E Hb. apply bool_decide_eq_false. intros ->. destruct escape_char as [ch|]; [|done].
  destruct (Z.ltb_spec ch 128); [|done]. injection E as <-. pose proof (is_scalar_bounds _ (Hs ch eq_refl)).
  rewrite u8_Z_small in Hb; lia.
Qed.

Lemma high_head c :
  is_scalar c = true → ¬ (c < 128)%Z → ∃ b bs, utf8_encode_char c = b :: bs ∧ (128 ≤ u8_Z b)%Z ∧ byte_is_ascii b = false.
Proof.
  intros Hs Hc. pose proof (encode_not_ascii c Hs Hc) as Hb. pose proof (length_utf8_encode_char c).
  destruct (utf8_encode_char c) as [|b bs]; [simpl in *; lia|]. exists b, bs. inversion Hb; subst. split_and!; try done.
  by apply Z.ltb_ge.
Qed.

Section splitting.
Context (char_eq : char → char → bool) (escape_char : option char) (escape_byte : option byte).
Context (Hescape : escape_ok escape_char) (Hbyte : escape_byte_of escape_char = Some escape_byte).

Lemma split_segments_tokens n p segments current leading trailing segments' leading' trailing' :
  length p < n → scalars p → split_ok segments current leading trailing →
  split_segments escape_byte (utf8_encode p) segments current leading trailing = Some (segments', leading', trailing') →
  pattern_equiv char_eq (split_tokens segments current leading trailing ++ compile_like_tokens p escape_char)
    (split_tokens segments' [] leading' trailing') ∧ segments_ok segments' leading' trailing'.
Proof.
  revert p segments current leading trailing. induction n as [|n IH]; intros p segs cur l t Hn Hp Hok E; [lia|].
  destruct Hp as [|c p Hc Hp].
  { injection E as <- <- <-. destruct (split_done _ _ _ _ Hok) as [Et Hs]. simpl in Et |- *. by rewrite app_nil_r, Et. }
  assert (utf8_encode (c :: p) = utf8_encode_char c ++ utf8_encode p) as Ec by (unfold utf8_encode; by rewrite bind_cons).
  rewrite Ec in E. destruct (decide (c < 128)%Z) as [Hlt|Hge].
  2: { destruct (high_head c Hc Hge) as (b & bs & Eb & Hb & Hb'). rewrite Eb in E. simpl in E.
       by rewrite (escape_not_high _ _ _ Hescape Hbyte Hb), Hb' in E. }
  pose proof (is_scalar_bounds _ Hc) as Hbounds. destruct (ascii_byte c ltac:(lia)) as [Ha Hz]. rewrite ascii_encode in E by lia.
  simpl in Hn. cbn [app split_segments compile_like_tokens] in E |- *. rewrite (escape_is _ _ _ Hescape Hbyte), Ha, Hz in E by lia.
  destruct (bool_decide (escape_char = Some c)).
  - destruct Hp as [|d p Hd Hp].
    + destruct (split_literal _ _ _ _ _ Hok Ha) as [Heq Hok']. rewrite Hz in Heq. injection E as <- <- <-.
      destruct (split_done _ _ _ _ Hok') as [Et Hs]. destruct (is_empty (cur ++ _)) eqn:Ee; [by destruct cur|].
      by rewrite <- Heq, Et.
    + unfold utf8_encode in E. rewrite bind_cons in E. fold (utf8_encode p) in E.
      destruct (decide (d < 128)%Z) as [Hdlt|Hdge].
      2: { destruct (high_head d Hd Hdge) as (b & bs & Eb & Hb & Hb'). rewrite Eb in E. simpl in E. by rewrite Hb' in E. }
      pose proof (is_scalar_bounds _ Hd). destruct (ascii_byte d ltac:(lia)) as [Had Hzd].
      rewrite ascii_encode in E by lia. cbn [app] in E. rewrite Had in E. cbn [negb] in E.
      destruct (split_literal _ _ _ _ _ Hok Had) as [Heq Hok']. rewrite Hzd in Heq. simpl in Hn.
      destruct (IH p _ _ _ _ ltac:(lia) Hp Hok' E) as [H1 H2]. split; [|done]. by rewrite <- H1, Heq, <- app_assoc.
  - cbn [negb] in E. destruct (c =? 95)%Z; [done|]. destruct (c =? 37)%Z.
    + destruct (split_many char_eq _ _ _ _ Hok) as [Heq Hok']. destruct (IH p _ _ _ _ ltac:(lia) Hp Hok' E) as [H1 H2].
      split; [|done]. rewrite <- H1, Heq, <- app_assoc. done.
    + destruct (split_literal _ _ _ _ _ Hok Ha) as [Heq Hok']. rewrite Hz in Heq.
      destruct (IH p _ _ _ _ ltac:(lia) Hp Hok' E) as [H1 H2]. split; [|done]. by rewrite <- H1, Heq, <- app_assoc.
Qed.
End splitting.

(** ** Searching segments *)

Lemma head_filter_seq (P : nat → Prop) `{∀ x, Decision (P x)} start n k j :
  head (filter P (seq start n)) = Some k → start ≤ j → j < start + n → P j → k ≤ j.
Proof.
  revert start. induction n as [|n IH]; intros start E Hj Hn HP; [done|]. simpl in E.
  rewrite filter_cons in E. destruct (decide (P start)); [by injection E as <-|].
  apply (IH (S start)); try done; [|lia]. destruct (decide (j = start)); [congruence|lia].
Qed.

Section searching.
Context (ci : bool) (actual : bytes).

Local Abbreviation text := (u8_Z <$> actual).
Local Abbreviation Likes := (Like (like_char_eq ci)).
Local Abbreviation matches start segment := (matches_segment_at actual start segment ci = true).

Lemma bytes_match_iff a b : bytes_match ci a b = true ↔ Forall2 (λ x y, like_char_eq ci (u8_Z x) (u8_Z y) = true) a b.
Proof.
  unfold bytes_match, like_char_eq. destruct ci; rewrite bool_decide_eq_true.
  - split.
    + revert b. induction a as [|x a IH]; intros [|y b] E; try done; constructor; simpl in E; injection E as E1 E2; [by apply Z.eqb_eq|auto].
    + induction 1 as [|x y a b Hxy _ IH]; [done|]. simpl. f_equal; [by apply Z.eqb_eq|done].
  - split.
    + intros ->. induction b; constructor; [by apply Z.eqb_eq|done].
    + induction 1 as [|x y a b Hxy%Z.eqb_eq _ IH]; [done|]. f_equal; [|done]. by apply u8_Z_inj.
Qed.

(** A segment that matches at a place. *)
Lemma matches_like start segment p :
  matches start segment → (Likes (segment_tokens segment ++ p) (drop start text) ↔ Likes p (drop (start + length segment) text)).
Proof.
  unfold matches_segment_at. rewrite andb_true_iff, Nat.leb_le, bytes_match_iff. intros [Hlen Hm].
  rewrite <- (take_drop (length segment) (drop start text)), drop_drop. apply like_app.
  rewrite <- !fmap_drop, <- fmap_take. unfold segment_tokens, literals. rewrite <- list_fmap_compose.
  apply Forall2_fmap. apply Forall2_flip. eapply Forall2_impl; [exact Hm|done].
Qed.

Lemma like_matches_at start segment p :
  segment ≠ [] → Likes (segment_tokens segment ++ p) (drop start text) → matches start segment.
Proof.
  intros Hne Hl. destruct (like_split (like_char_eq ci) (segment_tokens segment) p (drop start text)) as (x & y & E & Hx & _);
    [|done|].
  { unfold segment_tokens, literals. apply Forall_fmap, Forall_true. done. }
  unfold matches_segment_at. rewrite andb_true_iff, Nat.leb_le, bytes_match_iff.
  assert (x = u8_Z <$> take (length segment) (drop start actual)) as ->.
  { pose proof (Forall2_length _ _ _ Hx) as Hlen. unfold segment_tokens, literals in Hlen. rewrite !length_fmap in Hlen.
    rewrite fmap_take, fmap_drop, E, Hlen. by rewrite take_app_length. }
  pose proof (Forall2_length _ _ _ Hx) as Hlen. unfold segment_tokens, literals in *.
  rewrite !length_fmap, length_take, length_drop in Hlen. split.
  - assert (length segment ≠ 0) by (by destruct segment). lia.
  - rewrite <- list_fmap_compose, Forall2_fmap_l, Forall2_fmap_r in Hx. apply Forall2_flip in Hx. eapply Forall2_impl; [exact Hx|done].
Qed.

Lemma find_segment_spec segment start :
  segment ≠ [] →
  match find_segment_from actual segment start ci with
  | Some k => start ≤ k ∧ matches k segment ∧ ∀ j, start ≤ j → matches j segment → k ≤ j
  | None => ∀ j, start ≤ j → ¬ matches j segment
  end.
Proof.
  intros Hne. unfold find_segment_from. replace (is_empty segment) with false by (by destruct segment).
  assert (∀ j, matches j segment → j + length segment ≤ length actual) as Hin
    by (intros j [?%Nat.leb_le _]%andb_true_iff; done).
  destruct (_ || _) eqn:Eo.
  { intros j Hj Hm%Hin. apply orb_true_iff in Eo as [?%Nat.ltb_lt|?%Nat.ltb_lt]; lia. }
  apply orb_false_iff in Eo as [?%Nat.ltb_ge ?%Nat.ltb_ge]. set (n := length actual - length segment + 1 - start).
  destruct (head _) as [k|] eqn:E.
  - assert (k ∈ filter (λ c, matches c segment) (seq start n)) as Hk by (destruct (filter _ _); simplify_eq/=; apply list_elem_of_here).
    apply list_elem_of_filter in Hk as [Hm Hk%elem_of_seq]. split_and!; [lia|done|]. intros j Hj Hmj.
    eapply head_filter_seq; [exact E|done| |done]. pose proof (Hin j Hmj). unfold n. lia.
  - intros j Hj Hm. pose proof (Hin j Hm). assert (j ∈ filter (λ c, matches c segment) (seq start n)) as Hl.
    { apply list_elem_of_filter. split; [done|]. apply elem_of_seq. unfold n. lia. }
    destruct (filter _ _); [by apply not_elem_of_nil in Hl|done].
Qed.

Lemma follow_sound segments cursor cursor' p :
  Forall (λ segment, segment ≠ []) segments → follow_segments actual segments cursor ci = Some cursor' →
  Likes p (drop cursor' text) → Likes (following segments ++ p) (drop cursor text).
Proof.
  intros Hne. revert cursor. induction Hne as [|segment segments Hs _ IH]; intros cursor E Hl; [by injection E as <-|].
  simpl in E |- *. pose proof (find_segment_spec segment cursor Hs) as Hf. rewrite <- app_assoc.
  destruct (find_segment_from actual segment cursor ci) as [k|]; [|done]. simpl in E. destruct Hf as (Hk & Hm & _).
  apply like_many_mono with (n := k - cursor). rewrite drop_drop. replace (cursor + (k - cursor)) with k by lia.
  apply (Like_many _ []). apply matches_like; [done|]. by apply IH.
Qed.

(** Each segment may be taken at the first place it is found, when [%] follows the last one. *)
Lemma follow_complete segments cursor :
  Forall (λ segment, segment ≠ []) segments → Likes (following segments ++ [AnyMany]) (drop cursor text) →
  is_Some (follow_segments actual segments cursor ci).
Proof.
  intros Hne. revert cursor. induction Hne as [|segment segments Hs _ IH]; intros cursor Hl; [done|].
  simpl in Hl |- *. rewrite <- app_assoc in Hl. apply like_many in Hl as (n & _ & Hl). rewrite drop_drop in Hl.
  pose proof (like_matches_at _ _ _ Hs Hl) as Hm. apply (matches_like _ _ _ Hm) in Hl.
  pose proof (find_segment_spec segment cursor Hs) as Hf. destruct (find_segment_from actual segment cursor ci) as [k|].
  - simpl. destruct Hf as (_ & _ & Hleast). specialize (Hleast (cursor + n) ltac:(lia) Hm). apply IH.
    assert (∃ q, following segments ++ [AnyMany] = AnyMany :: q) as [q Eq] by (destruct segments; simpl; eauto).
    rewrite Eq in *. apply like_many_mono with (n := cursor + n - k). rewrite drop_drop.
    by replace (k + length segment + (cursor + n - k)) with (cursor + n + length segment) by lia.
  - by destruct (Hf (cursor + n) ltac:(lia)).
Qed.

(** The answer from one place on. *)
Definition found_from (trailing : bool) (first : bytes) (rest : list bytes) (start : nat) : bool :=
  match follow_segments actual rest (start + length first) ci with
  | Some cursor => trailing || (cursor =? length actual)
  | None => false
  end.

Lemma found_sound trailing first rest start :
  Forall (λ segment, segment ≠ []) rest → matches start first → found_from trailing first rest start = true →
  Likes (between (first :: rest) ++ many_if trailing) (drop start text).
Proof.
  intros Hne Hm Hf. rewrite between_following, <- app_assoc. apply matches_like; [done|]. unfold found_from in Hf.
  destruct (follow_segments _ _ _ _) as [cursor|] eqn:E; [|done]. eapply follow_sound; [done|exact E|]. destruct trailing; simpl.
  - rewrite <- (app_nil_r (drop cursor text)). repeat constructor.
  - simpl in Hf. apply Nat.eqb_eq in Hf as ->. rewrite drop_ge; [constructor|by rewrite length_fmap].
Qed.

Lemma found_complete trailing first rest start :
  Forall (λ segment, segment ≠ []) (first :: rest) → trailing = true ∨ rest = [] →
  Likes (between (first :: rest) ++ many_if trailing) (drop start text) →
  matches start first ∧ found_from trailing first rest start = true.
Proof.
  intros Hne Hcase Hl. rewrite between_following, <- app_assoc in Hl. inversion Hne as [|? ? Hf Hr]; subst.
  pose proof (like_matches_at _ _ _ Hf Hl) as Hm. apply (matches_like _ _ _ Hm) in Hl. split; [done|]. unfold found_from.
  destruct trailing; simpl in Hl.
  - by destruct (follow_complete _ _ Hr Hl) as [cursor ->].
  - destruct Hcase as [?| ->]; [done|]. simpl in Hl |- *. apply Nat.eqb_eq. apply like_nil_inv in Hl.
    apply (f_equal length) in Hl as E. rewrite length_drop, length_fmap in E. simpl in E.
    apply andb_true_iff in Hm as [?%Nat.leb_le _]. lia.
Qed.
End searching.

Lemma find_all_spec ci actual segment start :
  segment ≠ [] → (start ∈ find_all_segment_occurrences actual segment ci ↔ matches_segment_at actual start segment ci = true).
Proof.
  intros Hne. unfold find_all_segment_occurrences. replace (is_empty segment) with false by (by destruct segment).
  assert (matches_segment_at actual start segment ci = true → start + length segment ≤ length actual) as Hin
    by (by intros [?%Nat.leb_le _]%andb_true_iff).
  simpl. destruct (Nat.ltb_spec (length actual) (length segment)).
  - split; [by intros ?%not_elem_of_nil|]. intros ?%Hin. lia.
  - rewrite list_elem_of_filter, elem_of_seq. split; [by intros [? _]|]. intros Hm. pose proof (Hin Hm). split; [done|lia].
Qed.

(** ** Literals and prefixes *)

Lemma like_literals ci l a : Like (like_char_eq ci) (literals l) a ↔ Forall2 (λ c e, like_char_eq ci c e = true) a l.
Proof.
  revert a. induction l as [|e l IH]; intros a; simpl.
  - split; [by intros ->%like_nil_inv|inversion 1; constructor].
  - split; [inversion 1; subst; constructor; [done|by apply IH]|inversion 1; subst; constructor; [done|by apply IH]].
Qed.

Lemma like_prefix ci l a :
  Like (like_char_eq ci) (literals l ++ [AnyMany]) a ↔ Forall2 (λ c e, like_char_eq ci c e = true) (take (length l) a) l.
Proof.
  rewrite like_concat. setoid_rewrite like_literals. split.
  - intros (x & y & -> & Hx & _). by rewrite <- (Forall2_length _ _ _ Hx), take_app_length.
  - intros Hx. exists (take (length l) a), (drop (length l) a). split_and!; [by rewrite take_drop|done|].
    rewrite <- (app_nil_r (drop _ _)). repeat constructor.
Qed.

Lemma text_match_iff ci a l : text_match ci a l = true ↔ Forall2 (λ c e, like_char_eq ci c e = true) a l.
Proof.
  unfold text_match, like_char_eq, eq_ignore_ascii_case, str_eqb, to_ascii_lowercase. destruct ci; rewrite bool_decide_eq_true.
  - split.
    + revert l. induction a as [|x a IH]; intros [|y l] E; try done; constructor; simpl in E; injection E as E1 E2; [by apply Z.eqb_eq|auto].
    + induction 1 as [|x y a l Hxy _ IH]; [done|]. simpl. f_equal; [by apply Z.eqb_eq|done].
  - split; [intros ->; induction l; constructor; [by apply Z.eqb_eq|done]|].
    induction 1 as [|x y a l Hxy%Z.eqb_eq _ IH]; congruence.
Qed.

Lemma starts_with_take s prefix : starts_with s prefix = true ↔ take (length prefix) s = prefix.
Proof.
  revert s. induction prefix as [|p prefix IH]; intros [|c s]; simpl; try done.
  rewrite andb_true_iff, Z.eqb_eq, IH. split; [by intros [-> ->]|by intros [= -> ->]].
Qed.

(** Characters that differ in ASCII case have encodings of the same length. *)
Lemma encode_length_match c e : like_char_eq true c e = true → length (utf8_encode_char c) = length (utf8_encode_char e).
Proof.
  intros H%Z.eqb_eq. assert (∀ x, length (utf8_encode_char (char_to_ascii_lowercase x)) = length (utf8_encode_char x)) as Hl.
  { intros x. pose proof (lowercase_byte_len [x]) as E. unfold byte_len, utf8_encode, to_ascii_lowercase in E. simpl in E.
    by rewrite !app_nil_r in E. }
  by rewrite <- (Hl c), <- (Hl e), H.
Qed.

Lemma str_get_to_match a l :
  (match str_get_to (byte_len l) a with Some head => eq_ignore_ascii_case head l | None => false end) = true
  ↔ Forall2 (λ c e, like_char_eq true c e = true) (take (length l) a) l.
Proof.
  revert a. induction l as [|e l IH]; intros a; [by destruct a; split; constructor|].
  assert (byte_len (e :: l) = length (utf8_encode_char e) + byte_len l) as En
    by (unfold byte_len, utf8_encode; by rewrite bind_cons, length_app).
  pose proof (length_utf8_encode_char e) as He. rewrite En. destruct a as [|c a].
  { destruct (length (utf8_encode_char e)) eqn:E; [lia|]. simpl. split; [done|inversion 1]. }
  destruct (like_char_eq true c e) eqn:Ec.
  - pose proof (encode_length_match c e Ec) as El. destruct (length (utf8_encode_char e)) as [|k] eqn:E; [lia|].
    cbn [str_get_to Nat.add]. rewrite El. replace (S (k + byte_len l)) with (S k + byte_len l) by lia.
    destruct (Nat.ltb_spec (S k + byte_len l) (S k)); [lia|]. replace (S k + byte_len l - S k) with (byte_len l) by lia.
    simpl take. rewrite Forall2_cons, <- IH. destruct (str_get_to (byte_len l) a) as [h|]; simpl; [|by split; [|intros []]].
    unfold eq_ignore_ascii_case, str_eqb, to_ascii_lowercase. rewrite !bool_decide_eq_true. simpl.
    apply Z.eqb_eq in Ec as Ec'. rewrite Ec'. split; [by intros [= E']; split; [rewrite Z.eqb_refl|]|]. intros [_ E']. by f_equal.
  - simpl take. rewrite Forall2_cons, Ec. split; [|by intros []]. destruct (str_get_to _ _) as [h|] eqn:Eh; [|done].
    destruct (length (utf8_encode_char e)) as [|k] eqn:E; [lia|]. cbn [str_get_to Nat.add] in Eh.
    destruct (_ <? _); [done|]. apply fmap_Some in Eh as (h' & _ & ->). unfold eq_ignore_ascii_case, str_eqb, to_ascii_lowercase.
    rewrite bool_decide_eq_true. simpl. intros [= E1 _]. unfold like_char_eq in Ec. by rewrite E1, Z.eqb_refl in Ec.
Qed.

(** The tokens that are left, when the last character may have been the escape character. *)
Definition tokens_left (escape_char : option char) (escaped : bool) (chars : ustr) : list LikeToken :=
  compile_like_tokens ((if escaped then from_option (λ c, [c]) [] escape_char else []) ++ chars) escape_char.

Lemma fast_path_tokens escape_char escaped chars literal path :
  (escaped = true → escape_char ≠ None) → fast_path escape_char escaped chars literal = Some path →
  literals literal ++ tokens_left escape_char escaped chars
  = match path with Exact l => literals l | Prefix l => literals l ++ [AnyMany] end.
Proof.
  unfold tokens_left. revert escaped literal. induction chars as [|ch rest IH]; intros escaped literal He E.
  - injection E as <-. destruct escape_char as [e|]; [|by destruct escaped; simpl; rewrite !app_nil_r; auto].
    destruct escaped; simpl; rewrite ?app_nil_r; [|done]. rewrite bool_decide_true by done. unfold literals. by rewrite fmap_app.
  - simpl in E. destruct escaped.
    + destruct escape_char as [e|]; [|by destruct He]. apply IH in E; [|done]. rewrite <- E. simpl.
      rewrite bool_decide_true by done. unfold literals. by rewrite fmap_app, <- app_assoc.
    + simpl. destruct (bool_decide (escape_char = Some ch)) eqn:Ee.
      * apply bool_decide_eq_true in Ee as ->. apply IH in E; [|done]. rewrite <- E. simpl. by rewrite bool_decide_true by done.
      * destruct (ch =? 95)%Z; [done|]. destruct (ch =? 37)%Z.
        { destruct rest; [|done]. by injection E as <-. }
        apply IH in E; [|done]. rewrite <- E. unfold literals. by rewrite fmap_app, <- app_assoc.
Qed.

Lemma fast_path_decides ci escape_char chars path a :
  classify_like_fast_path chars escape_char = Some path →
  (apply_like_fast_path a path ci = true ↔ Like (like_char_eq ci) (compile_like_tokens chars escape_char) a).
Proof.
  intros E. apply (fast_path_tokens _ false _ []) in E; [|done]. unfold tokens_left in E. simpl in E. rewrite E.
  destruct path as [l|l]; simpl.
  - by rewrite like_literals, text_match_iff.
  - rewrite like_prefix. destruct ci; [apply str_get_to_match|]. rewrite starts_with_take, <- text_match_iff.
    unfold text_match, str_eqb. by rewrite bool_decide_eq_true.
Qed.

(** The path for ASCII literals is taken by no pattern that is not split into segments. *)
Lemma ascii_path_unused escape_byte pattern segments current leading trailing literal :
  split_segments escape_byte pattern segments current leading trailing = None → ascii_fast_path escape_byte pattern literal = None.
Proof.
  remember (length pattern) as n eqn:Hn. assert (length pattern < S n) as Hlt by lia. clear Hn. revert Hlt.
  generalize (S n). clear n. intros n. revert pattern segments current leading trailing literal.
  induction n as [|n IH]; intros pattern segs cur l t lit' Hn E; [lia|]. destruct pattern as [|b rest]; [done|]. simpl in Hn, E |- *.
  destruct (bool_decide _).
  - destruct rest as [|e rest]; [done|]. destruct (byte_is_ascii e); simpl in *; [|done]. eapply IH; [|exact E]. lia.
  - destruct (byte_is_ascii b); simpl in *; [|done]. destruct (u8_Z b =? 95)%Z; [done|]. destruct (u8_Z b =? 37)%Z.
    + destruct rest; [|done]. done.
    + eapply IH; [|exact E]. lia.
Qed.

(** ** The operator *)

(** Whether a pattern is searched from the left without loss: not when it is split into several literals and ends in
    one of them. *)
Definition first_fit_suffices (pattern : ustr) (escape_char : option char) : bool :=
  match parse_like_literal_segments (utf8_encode pattern) escape_char with
  | Some (_ :: _ :: _, _, false) => false
  | _ => true
  end.

Lemma tokens_not_empty char_eq t p : ¬ pattern_equiv char_eq (t :: p) [].
Proof.
  intros H. assert (Like char_eq (t :: p) []) as Hl by (apply H; constructor).
  inversion Hl as [| | |skipped p' a Hp E1 E2]; subst. apply app_eq_nil in E2 as [-> ->].
  assert (Like char_eq (AnyMany :: p) ([0%Z] ++ [])) as Hl' by (by constructor). apply H in Hl'. inversion Hl'.
Qed.

Lemma split_tokens_bytewise segments leading trailing :
  segments_ok segments leading trailing → Forall bytewise (split_tokens segments [] leading trailing).
Proof.
  intros [_ Ha _]. unfold split_tokens. simpl. rewrite app_nil_r. rewrite !Forall_app. split_and!.
  - destruct leading; repeat constructor.
  - assert (∀ s, Forall (λ b, byte_is_ascii b = true) s → Forall bytewise (segment_tokens s)) as Hs.
    { intros s Hs. unfold segment_tokens, literals. rewrite !Forall_fmap. eapply Forall_impl; [exact Hs|].
      intros b Hb%Z.ltb_lt. pose proof (u8_Z_bounds b). simpl. lia. }
    destruct segments as [|s segments]; [constructor|]. rewrite between_following. inversion Ha; subst.
    apply Forall_app. split; [auto|]. clear -Hs H2. induction H2; simpl; repeat constructor. apply Forall_app. auto.
  - destruct (_ && _); repeat constructor.
Qed.

(** The search for the segments, from the start or from every place where the first one is. *)
Definition segments_found (ci : bool) (actual : bytes) (first : bytes) (rest : list bytes) (leading trailing : bool) : bool :=
  if leading then existsb (found_from ci actual trailing first rest) (find_all_segment_occurrences actual first ci)
  else matches_segment_at actual 0 first ci && found_from ci actual trailing first rest 0.

Lemma segments_found_sound ci actual first rest leading trailing :
  Forall (λ segment, segment ≠ []) (first :: rest) → segments_found ci actual first rest leading trailing = true →
  Like (like_char_eq ci) (many_if leading ++ between (first :: rest) ++ many_if trailing) (u8_Z <$> actual).
Proof.
  intros Hne. inversion Hne as [|? ? Hf Hr]; subst. unfold segments_found. destruct leading.
  - intros (start & Hin%list_elem_of_In & Hfound)%existsb_exists. apply find_all_spec in Hin; [|done].
    apply like_many_mono with (n := start). apply (Like_many _ []). by apply found_sound.
  - intros [Hm Hfound]%andb_true_iff. rewrite <- (drop_0 (u8_Z <$> actual)). by apply found_sound.
Qed.

Lemma segments_found_complete ci actual first rest leading trailing :
  Forall (λ segment, segment ≠ []) (first :: rest) → trailing = true ∨ rest = [] →
  Like (like_char_eq ci) (many_if leading ++ between (first :: rest) ++ many_if trailing) (u8_Z <$> actual) →
  segments_found ci actual first rest leading trailing = true.
Proof.
  intros Hne Hcase. inversion Hne as [|? ? Hf Hr]; subst. unfold segments_found. destruct leading.
  - intros (start & _ & Hl)%like_many. apply found_complete in Hl as [Hm Hfound]; [|done..].
    apply existsb_exists. exists start. split; [|done]. apply list_elem_of_In. by apply find_all_spec.
  - intros Hl. rewrite <- (drop_0 (u8_Z <$> actual)) in Hl. apply found_complete in Hl as [Hm Hfound]; [|done..].
    by rewrite Hm, Hfound.
Qed.

Lemma literal_segments_decide ci escape_char a p matched :
  scalars a → scalars p → escape_ok escape_char → p ≠ [] →
  compare_like_by_literal_segments (utf8_encode a) (utf8_encode p) ci escape_char = Some matched →
  let likes := Like (like_char_eq ci) (compile_like_tokens p escape_char) a in
  (matched = true → likes) ∧ (first_fit_suffices p escape_char = true → likes → matched = true).
Proof.
  intros Ha Hp He Hne E likes. unfold compare_like_by_literal_segments in E. unfold first_fit_suffices.
  destruct (parse_like_literal_segments (utf8_encode p) escape_char) as [[[segs L] T]|] eqn:Ep; [|done]. simpl in E.
  unfold parse_like_literal_segments in Ep. destruct (escape_byte_of escape_char) as [eb|] eqn:Eb; [|done]. simpl in Ep.
  destruct (split_segments_tokens (like_char_eq ci) _ _ He Eb (S (length p)) p [] [] false false segs L T) as [Heq Hok];
    [lia|done|split; try done; repeat constructor|done|]. cbn [split_tokens many_if app between andb is_empty] in Heq.
  assert (likes ↔ Like (like_char_eq ci) (split_tokens segs [] L T) (u8_Z <$> utf8_encode a)) as ->.
  { unfold likes. rewrite (Heq a). symmetry. by apply like_encoded, split_tokens_bytewise. }
  destruct segs as [|first rest].
  - injection E as <-. rewrite (sg_start _ _ _ Hok eq_refl) in *. split; [|done]. intros _. destruct T.
    + rewrite <- (app_nil_r (u8_Z <$> _)). repeat constructor.
    + exfalso. destruct p as [|c p]; [done|]. assert (∃ t q, compile_like_tokens (c :: p) escape_char = t :: q) as (t & q & Et).
      { simpl. destruct (bool_decide _); [destruct p|]; eauto. }
      rewrite Et in Heq. by eapply tokens_not_empty.
  - pose proof (sg_segments _ _ _ Hok) as Hs. inversion Hs as [|? ? Hf Hr]; subst.
    assert (split_tokens (first :: rest) [] L T = many_if L ++ between (first :: rest) ++ many_if T) as ->
      by (unfold split_tokens; rewrite !app_nil_r; by destruct T).
    assert (matched = segments_found ci (utf8_encode a) first rest L T) as ->.
    { unfold segments_found, found_from. destruct L; [by injection E|]. destruct (matches_segment_at _ _ _ _); by injection E. }
    split; [by apply segments_found_sound|]. intros Hfit Hl. apply segments_found_complete; [done| |done].
    destruct T; [by left|right]. by destruct rest.
Qed.

(** ** Plain literals *)

(** ASCII text without wildcards. *)
Definition plain (s : ustr) : Prop := Forall (λ c, (0 ≤ c < 128)%Z ∧ c ≠ 37%Z ∧ c ≠ 95%Z) s.

Lemma compile_plain l rest : plain l → compile_like_tokens (l ++ rest) None = literals l ++ compile_like_tokens rest None.
Proof.
  induction 1 as [|c l (_ & H1 & H2) _ IH]; [done|]. simpl.
  by rewrite (proj2 (Z.eqb_neq _ _) H1), (proj2 (Z.eqb_neq _ _) H2), IH.
Qed.

Lemma split_plain l rest segments current leading trailing :
  plain l →
  split_segments None (utf8_encode l ++ rest) segments current leading trailing
  = split_segments None rest segments (current ++ utf8_encode l) leading (if is_empty l then trailing else false).
Proof.
  intros Hl. revert current trailing. induction Hl as [|c l (Hc & H1 & H2) Hl IH]; intros current trailing.
  - simpl. by rewrite app_nil_r.
  - destruct (ascii_byte c Hc) as [Ha Hz]. assert (utf8_encode (c :: l) = Z_u8 c :: utf8_encode l) as ->
      by (unfold utf8_encode; by rewrite bind_cons, ascii_encode by done).
    cbn [app split_segments]. rewrite bool_decide_false by done. rewrite Ha, Hz, (proj2 (Z.eqb_neq _ _) H1), (proj2 (Z.eqb_neq _ _) H2).
    cbn [negb]. rewrite IH, <- app_assoc. by destruct l.
Qed.

Lemma encode_app x y : utf8_encode (x ++ y) = utf8_encode x ++ utf8_encode y.
Proof. apply bind_app. Qed.

Lemma encode_not_empty l : l ≠ [] → is_empty (utf8_encode l) = false.
Proof.
  destruct l as [|c l]; [done|]. intros _. unfold utf8_encode. rewrite bind_cons. pose proof (length_utf8_encode_char c).
  by destruct (utf8_encode_char c); [simpl in *; lia|].
Qed.

Lemma parse_two_literals l1 l2 :
  plain l1 → plain l2 → l1 ≠ [] → l2 ≠ [] →
  parse_like_literal_segments (utf8_encode (l1 ++ 37%Z :: l2)) None = Some ([utf8_encode l1; utf8_encode l2], false, false).
Proof.
  intros H1 H2 Hn1 Hn2. unfold parse_like_literal_segments. cbn [escape_byte_of mbind option_bind]. rewrite encode_app, split_plain by done.
  change (utf8_encode (37%Z :: l2)) with (x25 :: utf8_encode l2). cbn [split_segments].
  change (u8_Z x25 =? 95)%Z with false. change (u8_Z x25 =? 37)%Z with true. change (byte_is_ascii x25) with true.
  rewrite bool_decide_false by done. cbn [negb]. rewrite app_nil_l, (encode_not_empty l1) by done.
  rewrite <- (app_nil_r (utf8_encode l2)), split_plain by done. cbn [split_segments]. rewrite app_nil_l, (encode_not_empty l2) by done.
  rewrite app_nil_r. by destruct l2.
Qed.

Lemma matches_here ci x segment y : matches_segment_at (x ++ segment ++ y) (length x) segment ci = true.
Proof.
  unfold matches_segment_at. rewrite andb_true_iff, Nat.leb_le, !length_app, drop_app_length, take_app_length. split; [lia|].
  unfold bytes_match. by destruct ci; rewrite bool_decide_eq_true.
Qed.

Lemma like_self ci l : Like (like_char_eq ci) (literals l) l.
Proof.
  apply like_literals. induction l; constructor; [|done]. unfold like_char_eq. destruct ci; by apply Z.eqb_refl.
Qed.

Section operator.
Context `{UuidText}.


(** a pattern [l1%l2] of two literals does not match a text that starts with [l1] and ends with [l2], as it should,
    when [l2] also comes directly after [l1]: the operator takes that place for [l2] and finds text behind it.  So
    [abab] is not found to be LIKE [a%b]. *)
Theorem like_misses_later_suffix actual pattern l1 l2 m case_insensitive :
  plain l1 → plain l2 → l1 ≠ [] → l2 ≠ [] →
  render_stored_field_value actual = utf8_encode (l1 ++ l2 ++ m ++ l2) →
  render_stored_field_value pattern = utf8_encode (l1 ++ 37%Z :: l2) →
  Like (like_char_eq case_insensitive) (compile_like_tokens (l1 ++ 37%Z :: l2) None) (l1 ++ l2 ++ m ++ l2)
  ∧ compare_like_value actual pattern case_insensitive None = false.
Proof.
  intros H1 H2 Hn1 Hn2 Ea Ep. split.
  - rewrite compile_plain by done. simpl. rewrite <- (app_nil_r l2) at 1. rewrite compile_plain by done. simpl.
    apply like_concat. exists l1, (l2 ++ m ++ l2). split_and!; [done|apply like_self|]. rewrite app_nil_r, app_assoc.
    constructor. apply like_self.
  - unfold compare_like_value, compare_like_by_literal_segments. rewrite Ea, Ep, parse_two_literals by done.
    cbn [mbind option_bind]. set (b1 := utf8_encode l1). set (b2 := utf8_encode l2). rewrite !encode_app. fold b1 b2.
    set (text := b1 ++ b2 ++ _). assert (matches_segment_at text 0 b1 case_insensitive = true) as -> by apply (matches_here _ []).
    assert (b2 ≠ []) as Hb2 by (intros E; pose proof (encode_not_empty l2 Hn2) as E'; fold b2 in E'; by rewrite E in E').
    pose proof (find_segment_spec case_insensitive text b2 (0 + length b1) Hb2) as Hf. cbn [follow_segments].
    assert (matches_segment_at text (length b1) b2 case_insensitive = true) as Hm by apply matches_here.
    destruct (find_segment_from _ _ _ _) as [k|]; [|by destruct (Hf (length b1) ltac:(lia))]. cbn [mbind option_bind].
    destruct Hf as (Hk1 & _ & Hk2). specialize (Hk2 (length b1) ltac:(lia) Hm). apply orb_false_iff. split; [done|].
    apply Nat.eqb_neq. unfold text. rewrite !length_app. assert (length b2 ≠ 0) by (by destruct b2). lia.
Qed.
End operator.
