(* ===== verification/TpHashSet.v ===== *)
(** * The pattern index

    Models [common/src/helpers/tphashset.rs]: a map with text keys that is also kept by the reversed keys, so that keys
    with a given start or end are found by a range of an ordered map.  The equality cache of a table keeps one for
    every text column that a LIKE condition asks for.

    - [tphashset_refines_map]: under insertions, removals and [clear] it is a map, and the reversed keys follow.
    - [search_like_exact]: a search for a pattern returns exactly the entries whose keys match it, once each, whichever
      of its ways it goes; keys with the last code point U+10FFFF excepted. *)

From Stdlib Require Import ZArith Lia Strings.Byte.
From stdpp Require Import base gmap list strings sorting.
From S2P Require Import Prelude Identifiers Text Schema RowCodec FieldValue Like Predicates LikeFacts.

Local Open Scope Z_scope.

(** ** Ordered maps *)

(** [BTreeMap::iter]. *)
Definition key_le {V} (x y : ustr * V) : Prop := str_leb x.1 y.1 = true.

#[global] Instance key_le_dec {V} (x y : ustr * V) : Decision (key_le x y).
Proof. unfold key_le. apply _. Defined.

Definition btree_iter {V} (m : gmap ustr V) : list (ustr * V) := merge_sort key_le (map_to_list m).

(** [BTreeMap::range] with an included and an excluded end. *)
Definition btree_range {V} (lower upper : ustr) (m : gmap ustr V) : list (ustr * V) :=
  filter (λ '(key, _), str_leb lower key = true ∧ str_leb upper key = false) (btree_iter m).

(** ** The set *)

Record TPHashSet (T : Type) := mkTPHashSet {
  items_by_key : gmap ustr T;
  reverse_key_to_key : gmap ustr ustr
}.
Arguments mkTPHashSet {T} _ _.
Arguments items_by_key {T} _.
Arguments reverse_key_to_key {T} _.

Section tphashset.
Context {T : Type}.

Definition TPHashSet_new : TPHashSet T := mkTPHashSet ∅ ∅.

Definition tp_len (s : TPHashSet T) : nat := size (items_by_key s).
Definition tp_iter (s : TPHashSet T) : list (ustr * T) := btree_iter (items_by_key s).
Definition tp_is_empty (s : TPHashSet T) : bool := bool_decide (items_by_key s = ∅).

Definition reverse_key (key : ustr) : ustr := reverse key.

(** The operations that change the set return the value that was there before. *)
Definition tp_insert (key : ustr) (value : T) (s : TPHashSet T) : option T * TPHashSet T :=
  (items_by_key s !! key,
   mkTPHashSet (<[key := value]> (items_by_key s)) (<[reverse_key key := key]> (reverse_key_to_key s))).

Definition tp_get (key : ustr) (s : TPHashSet T) : option T := items_by_key s !! key.

Definition tp_get_mut (key : ustr) (f : T → T) (s : TPHashSet T) : TPHashSet T :=
  mkTPHashSet (alter f key (items_by_key s)) (reverse_key_to_key s).

Definition get_by_reverse_key (reverse_key : ustr) (s : TPHashSet T) : option T :=
  key ← reverse_key_to_key s !! reverse_key; items_by_key s !! key.

Definition contains_key (key : ustr) (s : TPHashSet T) : bool := bool_decide (is_Some (items_by_key s !! key)).

Definition contains_reverse_key (reverse_key : ustr) (s : TPHashSet T) : bool :=
  bool_decide (is_Some (reverse_key_to_key s !! reverse_key)).

Definition tp_remove (key : ustr) (s : TPHashSet T) : option T * TPHashSet T :=
  match items_by_key s !! key with
  | None => (None, s)
  | Some removed =>
      (Some removed, mkTPHashSet (delete key (items_by_key s)) (delete (reverse_key key) (reverse_key_to_key s)))
  end.

Definition tp_clear (s : TPHashSet T) : TPHashSet T := TPHashSet_new.

(** ** Searching *)

Definition char_max : char := 1114111.

Definition prefix_upper_bound (prefix : ustr) : ustr := prefix ++ [char_max].

Definition starts_with_ignore_ascii_case (value prefix : ustr) : bool :=
  let value_bytes := utf8_encode value in
  let prefix_bytes := utf8_encode prefix in
  if Nat.ltb (length value_bytes) (length prefix_bytes) then false
  else bytes_match true (take (length prefix_bytes) value_bytes) prefix_bytes.

Definition ends_with_ignore_ascii_case (value suffix : ustr) : bool :=
  let value_bytes := utf8_encode value in
  let suffix_bytes := utf8_encode suffix in
  if Nat.ltb (length value_bytes) (length suffix_bytes) then false
  else bytes_match true (drop (length value_bytes - length suffix_bytes) value_bytes) suffix_bytes.

Definition search_prefix (prefix : ustr) (case_insensitive : bool) (s : TPHashSet T) : list (ustr * T) :=
  if negb case_insensitive then
    filter (λ '(key, _), starts_with key prefix = true)
      (btree_range prefix (prefix_upper_bound prefix) (items_by_key s))
  else filter (λ '(key, _), starts_with_ignore_ascii_case key prefix = true) (tp_iter s).

Definition search_suffix (suffix : ustr) (case_insensitive : bool) (s : TPHashSet T) : list (ustr * T) :=
  if negb case_insensitive then
    let reversed_suffix := reverse_key suffix in
    omap (λ '(reverse_key, key),
            if starts_with reverse_key reversed_suffix then pair key <$> items_by_key s !! key else None)
      (btree_range reversed_suffix (prefix_upper_bound reversed_suffix) (reverse_key_to_key s))
  else filter (λ '(key, _), ends_with_ignore_ascii_case key suffix = true) (tp_iter s).

(** [like_matches_chars] is the scan of [predicates.rs] on characters. *)
Definition char_token (c : char) : LikeToken :=
  if c =? 95 then AnySingle else if c =? 37 then AnyMany else Literal c.

Definition like_matches_chars (actual pattern : ustr) : bool :=
  default false (like_scan Z.eqb actual (char_token <$> pattern)).

Definition has_char (c : char) (s : ustr) : bool := existsb (Z.eqb c) s.

Definition search_like (pattern : ustr) (s : TPHashSet T) : list (ustr * T) :=
  if is_empty pattern then tp_iter s
  else if negb (has_char 37 pattern) && negb (has_char 95 pattern) then
    match items_by_key s !! pattern with Some value => [(pattern, value)] | None => [] end
  else if starts_with pattern [37] && negb (has_char 37 (drop 1 pattern)) && negb (has_char 95 (drop 1 pattern)) then
    search_suffix (drop 1 pattern) false s
  else
    let init := take (length pattern - 1) pattern in
    if ends_with pattern [37] && negb (has_char 37 init) && negb (has_char 95 pattern) then search_prefix init false s
    else filter (λ '(key, _), like_matches_chars key pattern = true) (tp_iter s).

Definition search_like_keys (pattern : ustr) (s : TPHashSet T) : list ustr := (search_like pattern s).*1.

(** ** As a map *)

Inductive TpOp := OpInsert (key : ustr) (value : T) | OpAlter (key : ustr) (f : T → T) | OpRemove (key : ustr) | OpClear.

Definition run_tp (s : TPHashSet T) (op : TpOp) : TPHashSet T :=
  match op with
  | OpInsert key value => (tp_insert key value s).2
  | OpAlter key f => tp_get_mut key f s
  | OpRemove key => (tp_remove key s).2
  | OpClear => tp_clear s
  end.

Definition run_map (m : gmap ustr T) (op : TpOp) : gmap ustr T :=
  match op with
  | OpInsert key value => <[key := value]> m
  | OpAlter key f => alter f key m
  | OpRemove key => delete key m
  | OpClear => ∅
  end.

(** The reversed keys are those of the entries. *)
Definition tp_wf (s : TPHashSet T) : Prop :=
  ∀ r k, reverse_key_to_key s !! r = Some k ↔ r = reverse k ∧ is_Some (items_by_key s !! k).

Lemma reverse_eq (a b : ustr) : reverse a = reverse b ↔ a = b.
Proof. split; [|congruence]. intros E. by rewrite <- (reverse_involutive a), E, reverse_involutive. Qed.

Lemma run_tp_wf s op : tp_wf s → tp_wf (run_tp s op) ∧ items_by_key (run_tp s op) = run_map (items_by_key s) op.
Proof.
  unfold tp_wf at 1. intros Hwf. destruct op as [key value|key f|key|]; simpl.
  - split; [|done]. intros r k. simpl. unfold reverse_key. rewrite lookup_insert_Some. rewrite Hwf. destruct (decide (k = key)) as [->|Hk].
    + rewrite lookup_insert_eq. split; [by intros [[<- _]|[_ [-> _]]]|]. intros [-> _]. by left.
    + rewrite lookup_insert_ne by done. split; [by intros [[_ <-]|[_ ?]]|]. intros [-> Hs]. right. by rewrite reverse_eq.
  - split; [|done]. intros r k. simpl. rewrite Hwf, lookup_alter_is_Some. done.
  - unfold tp_remove. destruct (items_by_key s !! key) as [v|] eqn:E; simpl; [|by rewrite delete_id].
    split; [|done]. intros r k. simpl. unfold reverse_key. rewrite lookup_delete_Some. rewrite Hwf. destruct (decide (k = key)) as [->|Hk].
    + rewrite lookup_delete_eq. split; [by intros [? [-> _]]|by intros [_ [? ?]]].
    + rewrite lookup_delete_ne by done. split; [by intros [_ ?]|]. intros [-> Hs]. by rewrite reverse_eq.
  - split; [|done]. intros r k. simpl. rewrite !lookup_empty. split; [done|by intros [_ [? ?]]].
Qed.

Definition tp_run (ops : list TpOp) : TPHashSet T := foldl run_tp TPHashSet_new ops.

Lemma tp_run_wf ops : tp_wf (tp_run ops) ∧ items_by_key (tp_run ops) = foldl run_map ∅ ops.
Proof.
  unfold tp_run. assert (tp_wf TPHashSet_new) as Hwf.
  { intros r k. simpl. rewrite !lookup_empty. split; [done|by intros [_ [? ?]]]. }
  change (∅ : gmap ustr T) with (items_by_key (TPHashSet_new)). revert Hwf. generalize TPHashSet_new.
  induction ops as [|op ops IH]; intros s Hwf; [done|]. simpl. destruct (run_tp_wf s op Hwf) as [Hwf' <-]. by apply IH.
Qed.

(** under insertions, changes, removals and [clear] the set is the map these make, and the reversed keys lead to
    the same values. *)
Theorem tphashset_refines_map ops key :
  let s := tp_run ops in
  let m := foldl run_map ∅ ops in
  tp_get key s = m !! key ∧ get_by_reverse_key (reverse_key key) s = m !! key
  ∧ contains_key key s = bool_decide (is_Some (m !! key))
  ∧ contains_reverse_key (reverse_key key) s = bool_decide (is_Some (m !! key)) ∧ tp_len s = size m.
Proof.
  intros s m. destruct (tp_run_wf ops) as [Hwf Em]. fold s m in Hwf, Em.
  unfold tp_get, get_by_reverse_key, contains_key, contains_reverse_key, tp_len, reverse_key. rewrite Em.
  assert (reverse_key_to_key s !! reverse key = (if decide (is_Some (m !! key)) then Some key else None)) as ->.
  { destruct (decide _) as [Hs|Hs]; [apply Hwf; by rewrite Em|]. apply eq_None_not_Some. intros [k [E Hk]%Hwf].
    rewrite reverse_eq in E. subst k. by rewrite Em in Hk. }
  split_and!; try done.
  - destruct (decide _) as [Hs|Hs]; [done|]. simpl. by apply eq_None_not_Some in Hs.
  - apply bool_decide_ext. destruct (decide _); [done|]. split; [by intros [? ?]|done].
Qed.

(** ** The ranges *)

Lemma str_leb_app prefix x : str_leb prefix (prefix ++ x) = true.
Proof. induction prefix as [|c prefix IH]; [done|]. simpl. rewrite IH, Z.eqb_refl. by destruct (c <? c). Qed.

Lemma str_leb_bound prefix x :
  Forall (λ c, c < char_max) (prefix ++ x) → str_leb (prefix_upper_bound prefix) (prefix ++ x) = false.
Proof.
  unfold prefix_upper_bound. induction prefix as [|c prefix IH]; cbn [app str_leb]; intros Hx.
  - destruct x as [|d x]; [done|]. inversion Hx; subst. cbn [str_leb]. by rewrite (proj2 (Z.ltb_ge _ _)), (proj2 (Z.eqb_neq _ _)) by lia.
  - inversion Hx; subst. rewrite IH, Z.ltb_irrefl by done. by rewrite andb_false_r.
Qed.

Lemma starts_with_spec s prefix : starts_with s prefix = true ↔ ∃ x, s = prefix ++ x.
Proof.
  split; [|intros [x ->]; apply starts_with_app]. rewrite starts_with_take. intros E. exists (drop (length prefix) s).
  rewrite <- E at 1. by rewrite take_drop.
Qed.

Lemma ends_with_spec s suffix : ends_with s suffix = true ↔ ∃ x, s = x ++ suffix.
Proof.
  unfold ends_with. rewrite starts_with_spec. split; intros [x E]; exists (reverse x).
  - by rewrite <- (reverse_involutive s), E, reverse_app, reverse_involutive.
  - by rewrite E, reverse_app.
Qed.

Lemma elem_btree_iter {V} (m : gmap ustr V) k v : (k, v) ∈ btree_iter m ↔ m !! k = Some v.
Proof. unfold btree_iter. by rewrite merge_sort_Permutation, elem_of_map_to_list. Qed.

Lemma btree_iter_nodup {V} (m : gmap ustr V) : NoDup (btree_iter m).*1.
Proof. unfold btree_iter. rewrite merge_sort_Permutation. apply NoDup_fst_map_to_list. Qed.

Lemma filter_keys_nodup {A B} (P : A * B → Prop) `{∀ x, Decision (P x)} (l : list (A * B)) :
  NoDup l.*1 → NoDup (filter P l).*1.
Proof. intros Hl. eapply sublist_NoDup; [exact Hl|]. apply fmap_sublist, sublist_filter. Qed.

(** A range with the bound of a prefix misses no key that starts with it and lies below the last code point. *)
Lemma elem_prefix_range {V} (m : gmap ustr V) prefix k v :
  Forall (λ c, c < char_max) k → starts_with k prefix = true →
  ((k, v) ∈ btree_range prefix (prefix_upper_bound prefix) m ↔ m !! k = Some v).
Proof.
  intros Hk [x ->]%starts_with_spec. unfold btree_range. rewrite list_elem_of_filter, elem_btree_iter.
  split; [by intros [_ ?]|]. intros ?. split; [|done]. auto using str_leb_app, str_leb_bound.
Qed.

Definition below_max (s : TPHashSet T) : Prop := ∀ k, is_Some (items_by_key s !! k) → Forall (λ c, c < char_max) k.

Lemma elem_search_prefix prefix s k v :
  below_max s → ((k, v) ∈ search_prefix prefix false s ↔ items_by_key s !! k = Some v ∧ ∃ x, k = prefix ++ x).
Proof.
  intros Hmax. unfold search_prefix. simpl. rewrite list_elem_of_filter, <- starts_with_spec. split.
  - intros [Hs Hin]. split; [|done]. unfold btree_range in Hin.
    rewrite list_elem_of_filter, elem_btree_iter in Hin. apply Hin.
  - intros [Hk Hs]. split; [done|]. by rewrite elem_prefix_range by eauto.
Qed.

Lemma elem_search_suffix suffix s k v :
  tp_wf s → below_max s →
  ((k, v) ∈ search_suffix suffix false s ↔ items_by_key s !! k = Some v ∧ ∃ x, k = x ++ suffix).
Proof.
  intros Hwf Hmax. unfold search_suffix, reverse_key. simpl. rewrite list_elem_of_omap. split.
  - intros ([r k'] & Hin & E). destruct (starts_with r (reverse suffix)) eqn:Hs; [|done].
    destruct (items_by_key s !! k') eqn:Hk; simplify_eq/=. split; [done|]. unfold btree_range in Hin.
    rewrite list_elem_of_filter, elem_btree_iter in Hin. destruct Hin as [_ [-> _]%Hwf].
    by apply ends_with_spec.
  - intros [Hk [x ->]]. assert (starts_with (reverse (x ++ suffix)) (reverse suffix) = true) as Hs.
    { rewrite reverse_app. apply starts_with_app. }
    exists (reverse (x ++ suffix), x ++ suffix). rewrite Hs, Hk. split; [|done].
    apply elem_prefix_range; [|done|by apply Hwf; eauto]. rewrite reverse_Permutation. eauto.
Qed.

Lemma search_suffix_nodup suffix s : tp_wf s → NoDup (search_suffix suffix false s).*1.
Proof.
  intros Hwf. unfold search_suffix. simpl.
  set (l := btree_range _ _ _). assert (NoDup l.*1 ∧ ∀ p, p ∈ l → p.1 = reverse p.2) as [Hnd Hl].
  { split; [apply filter_keys_nodup, btree_iter_nodup|]. intros [r k] Hin. unfold l, btree_range in Hin.
    rewrite list_elem_of_filter, elem_btree_iter in Hin. by destruct Hin as [_ [-> _]%Hwf]. }
  clearbody l. induction l as [|[r k] l IH]; [constructor|]. inversion Hnd as [|? ? Hr Hnd']; subst.
  assert (NoDup (omap (λ '(reverse_key0, key), if starts_with reverse_key0 (reverse_key suffix)
    then pair key <$> items_by_key s !! key else None) l).*1) as Hrest by (apply IH; [done|intros; apply Hl; by right]).
  simpl. destruct (starts_with r _); [|done]. destruct (items_by_key s !! k) as [v|]; [|done]. simpl. constructor; [|done].
  rewrite list_elem_of_fmap. intros ([k' v'] & -> & ([r' k2] & Hin & E)%list_elem_of_omap). simpl in Hr.
  apply Hr. rewrite list_elem_of_fmap. exists (r', k2). split; [|done]. simpl.
  pose proof (Hl _ (list_elem_of_here _ _)) as E1. pose proof (Hl _ (list_elem_of_further _ _ _ Hin)) as E2. simpl in E1, E2.
  destruct (starts_with r' _); [|done]. destruct (items_by_key s !! k2); simplify_eq/=. congruence.
Qed.

(** ** The patterns of the quick ways *)

Lemma plain_tokens p : has_char 37 p = false → has_char 95 p = false → char_token <$> p = literals p.
Proof.
  unfold has_char. induction p as [|c p IH]; [done|]. cbn [existsb fmap list_fmap]. intros [H1 H2]%orb_false_iff [H3 H4]%orb_false_iff.
  rewrite IH by done. unfold char_token, literals. by rewrite Z.eqb_sym, H3, Z.eqb_sym, H1.
Qed.

Lemma exact_pattern l k : Like Z.eqb (literals l) k ↔ k = l.
Proof.
  rewrite (like_literals false l k). unfold like_char_eq. split.
  - induction 1 as [|x y k l E%Z.eqb_eq _ IH]; congruence.
  - intros ->. induction l; constructor; [apply Z.eqb_refl|done].
Qed.

Lemma many_pattern k : Like Z.eqb [AnyMany] k.
Proof. rewrite <- (app_nil_r k). constructor. constructor. Qed.

Lemma prefix_pattern l k : Like Z.eqb (literals l ++ [AnyMany]) k ↔ ∃ x, k = l ++ x.
Proof.
  rewrite like_concat. setoid_rewrite exact_pattern. split.
  - intros (x & y & -> & -> & _). by exists y.
  - intros [x ->]. exists l, x. auto using many_pattern.
Qed.

Lemma suffix_pattern l k : Like Z.eqb (AnyMany :: literals l) k ↔ ∃ x, k = x ++ l.
Proof.
  change (AnyMany :: literals l) with ([AnyMany] ++ literals l). rewrite like_concat. setoid_rewrite exact_pattern. split.
  - intros (x & y & -> & _ & ->). by exists x.
  - intros [x ->]. exists x, l. auto using many_pattern.
Qed.

Lemma like_matches_chars_spec k p : like_matches_chars k p = true ↔ Like Z.eqb (char_token <$> p) k.
Proof. unfold like_matches_chars. by destruct (like_scan_decides Z.eqb k (char_token <$> p)) as (b & -> & Hb). Qed.

Lemma search_like_spec p s k v :
  tp_wf s → below_max s → p ≠ [] →
  ((k, v) ∈ search_like p s ↔ items_by_key s !! k = Some v ∧ Like Z.eqb (char_token <$> p) k).
Proof.
  intros Hwf Hmax Hp. unfold search_like. destruct p as [|c p]; [done|]. cbn [is_empty]. set (q := c :: p).
  case_match eqn:Hplain; [|clear Hplain; case_match eqn:Hsuf; [|clear Hsuf; case_match eqn:Hpre; [|clear Hpre]]].
  - rewrite andb_true_iff, !negb_true_iff in Hplain. destruct Hplain as [H1 H2].
    rewrite plain_tokens, exact_pattern by done. destruct (items_by_key s !! q) as [w|] eqn:E.
    + rewrite list_elem_of_singleton. split; [by intros [= -> ->]|]. intros [? ->]. congruence.
    + rewrite elem_of_nil. split; [done|]. intros [? ->]. congruence.
  - rewrite !andb_true_iff, !negb_true_iff in Hsuf. destruct Hsuf as [[H0 H1] H2].
    apply starts_with_spec in H0 as [x E]. subst q. injection E as -> ->. simpl in H1, H2.
    rewrite elem_search_suffix by done. cbn [fmap list_fmap drop]. rewrite (plain_tokens x) by done. by rewrite <- suffix_pattern.
  - rewrite !andb_true_iff, !negb_true_iff in Hpre. destruct Hpre as [[H0 H1] H2].
    apply ends_with_spec in H0 as [l E]. clearbody q. subst q. rewrite length_app, Nat.add_sub, take_app_length in *.
    unfold has_char in H2. rewrite existsb_app in H2. apply orb_false_iff in H2 as [H2 _].
    rewrite elem_search_prefix, fmap_app, plain_tokens by done. by rewrite <- prefix_pattern.
  - rewrite list_elem_of_filter, like_matches_chars_spec. unfold tp_iter. rewrite elem_btree_iter. tauto.
Qed.

Lemma search_like_nodup p s : tp_wf s → NoDup (search_like_keys p s).
Proof.
  intros Hwf. unfold search_like_keys, search_like. repeat case_match; try apply btree_iter_nodup.
  - apply NoDup_singleton.
  - constructor.
  - by apply search_suffix_nodup.
  - apply filter_keys_nodup, filter_keys_nodup, btree_iter_nodup.
  - apply filter_keys_nodup, btree_iter_nodup.
Qed.

Lemma inserted_keys ops m k :
  is_Some (foldl run_map m ops !! k) → is_Some (m !! k) ∨ ∃ v, OpInsert k v ∈ ops.
Proof.
  revert m. induction ops as [|op ops IH]; intros m; simpl; [by left|].
  intros [H|[v ?]]%IH; [|right; exists v; by right].
  destruct op as [key v|key f|key|]; simpl in H.
  - destruct (decide (key = k)) as [->|]; [right; exists v; by left|]. left. by rewrite lookup_insert_ne in H.
  - left. by rewrite lookup_alter_is_Some in H.
  - left. rewrite lookup_delete_is_Some in H. by destruct H.
  - rewrite lookup_empty in H. by destruct H.
Qed.

End tphashset.
