(* ===== verification/Conditions.v ===== *)
(** * Conditions of queries

    Models [serverlib/src/engine/execution/runtime.rs] and the condition types of [serverlib/src/engine/sql/types.rs]:
    predicates and conditions, where they take the values of fields from, joined rows, and the evaluation of conditions.
    A subquery is a value of any type, what it returns is given to the evaluation as in the code.  The regex crate is
    the class [RegexEngine]. *)

From Stdlib Require Import ZArith Lia Strings.Byte.
From stdpp Require Import base gmap list strings.
From S2P Require Import Prelude Text Float64 Schema RowCodec FieldValue Predicates.

Local Open Scope Z_scope.

(** [RegexBuilder::case_insensitive], [build] and [is_match]; [None] when the pattern is not a regular expression. *)
Class RegexEngine := { regex_is_match : ustr → bool → ustr → option bool }.

(** ** Relations and conditions *)

Record SelectRelation := mkSelectRelation { rel_table_id : ustr; rel_alias : option ustr }.

Inductive SelectJoinKind := JInner | JLeft | JRight | JFull | JCross.

#[global] Instance join_kind_eq_dec : EqDecision SelectJoinKind.
Proof. solve_decision. Defined.

#[global] Instance comparison_op_eq_dec : EqDecision SelectComparisonOp.
Proof. solve_decision. Defined.

Inductive SelectPredicate (Subquery : Type) :=
  | PComparison (field_name : ustr) (op : SelectComparisonOp) (value : bytes)
  | PExpressionComparison (expression_sql : ustr) (op : SelectComparisonOp) (value : bytes)
  | PLike (field_name : ustr) (pattern : bytes) (negated case_insensitive : bool) (escape_char : option char)
  | PRegex (field_name : ustr) (pattern : bytes) (negated case_insensitive : bool)
  | PFieldComparison (left_field_name : ustr) (op : SelectComparisonOp) (right_field_name : ustr)
  | PInList (field_name : ustr) (values : list bytes) (negated : bool)
  | PIsNull (field_name : ustr) (negated : bool)
  | PInSubquery (field_name : ustr) (subquery : Subquery) (negated : bool)
  | PScalarSubqueryComparison (field_name : ustr) (op : SelectComparisonOp) (subquery : Subquery)
  | PAnySubqueryComparison (field_name : ustr) (op : SelectComparisonOp) (subquery : Subquery)
  | PAllSubqueryComparison (field_name : ustr) (op : SelectComparisonOp) (subquery : Subquery)
  | PExists (subquery : Subquery) (negated : bool).
Arguments PComparison {Subquery} _ _ _.
Arguments PExpressionComparison {Subquery} _ _ _.
Arguments PLike {Subquery} _ _ _ _ _.
Arguments PRegex {Subquery} _ _ _ _.
Arguments PFieldComparison {Subquery} _ _ _.
Arguments PInList {Subquery} _ _ _.
Arguments PIsNull {Subquery} _ _.
Arguments PInSubquery {Subquery} _ _ _.
Arguments PScalarSubqueryComparison {Subquery} _ _ _.
Arguments PAnySubqueryComparison {Subquery} _ _ _.
Arguments PAllSubqueryComparison {Subquery} _ _ _.
Arguments PExists {Subquery} _ _.

Inductive SelectCondition (Subquery : Type) :=
  | CAnd (children : list (SelectCondition Subquery))
  | COr (children : list (SelectCondition Subquery))
  | CNot (child : SelectCondition Subquery)
  | CPredicate (predicate : SelectPredicate Subquery).
Arguments CAnd {Subquery} _.
Arguments COr {Subquery} _.
Arguments CNot {Subquery} _.
Arguments CPredicate {Subquery} _.

Record SelectJoin (Subquery : Type) := mkSelectJoin {
  join_kind : SelectJoinKind;
  join_relation : SelectRelation;
  on_condition : SelectCondition Subquery
}.
Arguments mkSelectJoin {Subquery} _ _ _.
Arguments join_kind {Subquery} _.
Arguments join_relation {Subquery} _.
Arguments on_condition {Subquery} _.

(** Induction over conditions with an hypothesis for every child. *)
Section condition_induction.
Context {Subquery : Type} (P : SelectCondition Subquery → Prop).
Hypothesis (PAnd : ∀ cs, Forall P cs → P (CAnd cs)) (POr : ∀ cs, Forall P cs → P (COr cs)).
Hypothesis (PNot : ∀ c, P c → P (CNot c)) (PPredicate : ∀ p, P (CPredicate p)).

Fixpoint condition_ind' (c : SelectCondition Subquery) : P c :=
  let all := fix all cs : Forall P cs :=
    match cs with
    | [] => Forall_nil_2 P
    | c :: cs => Forall_cons_2 P c cs (condition_ind' c) (all cs)
    end in
  match c with
  | CAnd cs => PAnd cs (all cs)
  | COr cs => POr cs (all cs)
  | CNot c => PNot c (condition_ind' c)
  | CPredicate p => PPredicate p
  end.
End condition_induction.

(** ** Rows as sources of values *)

(** The trait [ConditionValueProvider]. *)
Abbreviation provider := (ustr → option bytes).

Definition relation_qualifier (relation : SelectRelation) : ustr := default (rel_table_id relation) (rel_alias relation).

(** [split_once('.')]. *)
Definition split_field (field_name : ustr) : option (ustr * ustr) := split_once_at (lit ".") field_name.

Definition row_map_provider (row : row_map) : provider := λ field_name, row !! field_name.

Definition QualifiedRowMapProvider (qualifier : ustr) (row : row_map) : provider := λ field_name,
  match row !! field_name with
  | Some value => Some value
  | None => '(q, column_name) ← split_field field_name; if str_eqb q qualifier then row !! column_name else None
  end.

Definition ChainedConditionValueProvider (primary fallback : provider) : provider := λ field_name,
  match primary field_name with Some value => Some value | None => fallback field_name end.

Definition UnqualifiedFieldFallbackProvider (p : provider) : provider := λ field_name,
  match p field_name with
  | Some value => Some value
  | None => '(_, column_name) ← split_field field_name; p column_name
  end.

(** ** Joined rows *)

Record MaterializedRelationRow := mkMaterializedRelationRow { mat_row_id : Z; mat_row_map : row_map }.

Record JoinedRowMember := mkJoinedRowMember {
  qualifier : ustr;
  member_row_id : option Z;
  member_row_map : option row_map
}.

Record JoinedRowTuple := mkJoinedRowTuple {
  members : list JoinedRowMember;
  member_indexes_by_qualifier : gmap ustr nat
}.

Definition present_member (relation : SelectRelation) (row : MaterializedRelationRow) : JoinedRowMember :=
  mkJoinedRowMember (relation_qualifier relation) (Some (mat_row_id row)) (Some (mat_row_map row)).

Definition missing_member (relation : SelectRelation) : JoinedRowMember :=
  mkJoinedRowMember (relation_qualifier relation) None None.

Definition from_relation_row (relation : SelectRelation) (row : MaterializedRelationRow) : JoinedRowTuple :=
  mkJoinedRowTuple [present_member relation row] {[relation_qualifier relation := 0%nat]}.

Definition from_missing_relations (relations : list SelectRelation) : JoinedRowTuple :=
  mkJoinedRowTuple (missing_member <$> relations)
    (foldl (λ m '(index, relation), <[relation_qualifier relation := index]> m) ∅ (imap pair relations)).

Definition push_member (tuple : JoinedRowTuple) (member : JoinedRowMember) : JoinedRowTuple :=
  mkJoinedRowTuple (members tuple ++ [member])
    (<[qualifier member := length (members tuple)]> (member_indexes_by_qualifier tuple)).

Definition append (tuple : JoinedRowTuple) (relation : SelectRelation) (row : MaterializedRelationRow) : JoinedRowTuple :=
  push_member tuple (present_member relation row).

Definition append_missing_relation (tuple : JoinedRowTuple) (relation : SelectRelation) : JoinedRowTuple :=
  push_member tuple (missing_member relation).

Definition first_relation_row (tuple : JoinedRowTuple) : option MaterializedRelationRow :=
  member ← head (members tuple);
  row_id ← member_row_id member;
  row ← member_row_map member;
  Some (mkMaterializedRelationRow row_id row).

Definition tuple_value (tuple : JoinedRowTuple) : provider := λ field_name,
  '(q, column_name) ← split_field field_name;
  index ← member_indexes_by_qualifier tuple !! q;
  member ← members tuple !! index;
  row ← member_row_map member;
  row !! column_name.

Definition JoinedRowCandidateProvider (left : JoinedRowTuple) (right_relation : SelectRelation)
    (right_row : MaterializedRelationRow) : provider := λ field_name,
  match tuple_value left field_name with
  | Some value => Some value
  | None =>
      '(q, column_name) ← split_field field_name;
      if str_eqb q (relation_qualifier right_relation) then mat_row_map right_row !! column_name else None
  end.

(** ** Evaluation *)

Section evaluation.
Context {Subquery : Type} `{FieldValues} `{UuidText} `{RegexEngine}.

Definition compare_regex_value (actual pattern : bytes) (case_insensitive : bool) : bool :=
  let text bs := default [] (from_utf8 (from_utf8_lossy (render_stored_field_value bs))) in
  default false (regex_is_match (text pattern) case_insensitive (text actual)).

Definition parse_numeric_text_for_expression_compare (value : bytes) : option f64 :=
  text ← trim <$> from_utf8 value;
  if is_empty text then None
  else
    let lowered := to_ascii_lowercase text in
    if str_eqb lowered (lit "nan") || str_eqb lowered (lit "inf") || str_eqb lowered (lit "+inf")
       || str_eqb lowered (lit "-inf") then None
    else parse_f64 text.

Definition compare_numeric_expression_values (left right : f64) (op : SelectComparisonOp) : bool :=
  match op, partial_cmp left right with
  | CmpEq, Some Eq | CmpGt, Some Gt | CmpLt, Some Lt => true
  | CmpGtEq, Some (Gt | Eq) | CmpLtEq, Some (Lt | Eq) => true
  | CmpNotEq, Some Eq => false
  | CmpNotEq, _ => true
  | _, _ => false
  end.

Definition compare_expression_predicate_value (actual expected : bytes) (op : SelectComparisonOp) : bool :=
  match parse_numeric_text_for_expression_compare actual, parse_numeric_text_for_expression_compare expected with
  | Some lhs, Some rhs => compare_numeric_expression_values lhs rhs op
  | _, _ => compare_row_value actual expected op
  end.

Definition compare_provider_fields (p : provider) (left_field_name right_field_name : ustr) (op : SelectComparisonOp) :
    bool :=
  match p left_field_name, p right_field_name with
  | Some left_value, Some right_value =>
      if compare_row_value left_value right_value op then true
      else if eqb op CmpEq
      then compare_row_value (render_stored_field_value left_value) (render_stored_field_value right_value) op
      else false
  | _, _ => false
  end.

(** What the caller of the evaluation provides: the values, the existence and the single value of a subquery, and the
    value of an expression, all of which may fail. *)
Record Subqueries := mkSubqueries {
  subquery_values : provider → Subquery → result (list bytes) string;
  subquery_exists : provider → Subquery → result bool string;
  subquery_scalar : provider → Subquery → result (option bytes) string;
  evaluate_expression : provider → ustr → result (option bytes) string
}.

Context (subqueries : Subqueries).

Definition negate_if (negated found : bool) : bool := if negated then negb found else found.

Definition row_matches_predicate (p : provider) (predicate : SelectPredicate Subquery) : result bool string :=
  match predicate with
  | PComparison field_name op value =>
      Ok (match p field_name with Some actual => compare_row_value actual value op | None => false end)
  | PExpressionComparison expression_sql op value =>
      let? actual := evaluate_expression subqueries p expression_sql in
      Ok (match actual with Some actual => compare_expression_predicate_value actual value op | None => false end)
  | PLike field_name pattern negated case_insensitive escape_char =>
      let found :=
        match p field_name with
        | Some actual => compare_like_value actual pattern case_insensitive escape_char
        | None => false
        end in
      Ok (negate_if negated found)
  | PRegex field_name pattern negated case_insensitive =>
      let found :=
        match p field_name with Some actual => compare_regex_value actual pattern case_insensitive | None => false end in
      Ok (negate_if negated found)
  | PFieldComparison left_field_name op right_field_name =>
      Ok (compare_provider_fields p left_field_name right_field_name op)
  | PInList field_name values negated =>
      let found :=
        match p field_name with
        | Some actual => existsb (λ candidate, compare_row_value actual candidate CmpEq) values
        | None => false
        end in
      Ok (negate_if negated found)
  | PIsNull field_name negated => Ok (negate_if negated (is_none (p field_name)))
  | PInSubquery field_name subquery negated =>
      match p field_name with
      | None => Ok false
      | Some actual =>
          let? values := subquery_values subqueries p subquery in
          Ok (negate_if negated (existsb (λ candidate, compare_row_value actual candidate CmpEq) values))
      end
  | PAnySubqueryComparison field_name op subquery =>
      match p field_name with
      | None => Ok false
      | Some actual =>
          let? values := subquery_values subqueries p subquery in
          Ok (existsb (λ candidate, compare_row_value actual candidate op) values)
      end
  | PAllSubqueryComparison field_name op subquery =>
      match p field_name with
      | None => Ok false
      | Some actual =>
          let? values := subquery_values subqueries p subquery in
          Ok (forallb (λ candidate, compare_row_value actual candidate op) values)
      end
  | PExists subquery negated =>
      let? found := subquery_exists subqueries p subquery in Ok (negate_if negated found)
  | PScalarSubqueryComparison field_name op subquery =>
      match p field_name with
      | None => Ok false
      | Some actual =>
          let? value := subquery_scalar subqueries p subquery in
          Ok (match value with Some value => compare_row_value actual value op | None => false end)
      end
  end.

Fixpoint row_matches (p : provider) (condition : SelectCondition Subquery) : result bool string :=
  match condition with
  | CAnd children =>
      (fix all children :=
         match children with
         | [] => Ok true
         | child :: children =>
             let? matched := row_matches p child in if matched : bool then all children else Ok false
         end) children
  | COr children =>
      (fix any children :=
         match children with
         | [] => Ok false
         | child :: children =>
             let? matched := row_matches p child in if matched : bool then Ok true else any children
         end) children
  | CNot child => let? matched := row_matches p child in Ok (negb matched)
  | CPredicate predicate => row_matches_predicate p predicate
  end.

Definition row_matches_condition_with_result_and_expression (p : provider) (condition : option (SelectCondition Subquery)) :
    result bool string :=
  match condition with None => Ok true | Some condition => row_matches p condition end.

(** ** Join conditions *)

Fixpoint join_condition_matches_provider (p : provider) (condition : SelectCondition Subquery) : bool :=
  match condition with
  | CPredicate (PFieldComparison left_field_name op right_field_name) =>
      compare_provider_fields p left_field_name right_field_name op
  | CPredicate (PComparison field_name op value) =>
      match p field_name with Some actual => compare_row_value actual value op | None => false end
  | CAnd children => forallb (join_condition_matches_provider p) children
  | COr children => existsb (join_condition_matches_provider p) children
  | CNot child => negb (join_condition_matches_provider p child)
  | _ => false
  end.

(** The first comparison of two fields for equality that is found in the condition. *)
Fixpoint find_equality (condition : SelectCondition Subquery) : option (ustr * ustr) :=
  match condition with
  | CPredicate (PFieldComparison left_field_name CmpEq right_field_name) => Some (left_field_name, right_field_name)
  | CAnd children | COr children =>
      (fix find_map children :=
         match children with
         | [] => None
         | child :: children =>
             match find_equality child with Some names => Some names | None => find_map children end
         end) children
  | CNot child => find_equality child
  | _ => None
  end.

Definition join_condition_field_names (join : SelectJoin Subquery) : option (ustr * ustr) := find_equality (on_condition join).
End evaluation.
Arguments Subqueries : clear implicits.
