(* ===== verification/Joins.v ===== *)
(** * Joins

    Models [build_joined_row_tuples] of [serverlib/src/engine/execution/join.rs] and the index of relation rows of
    [access.rs]: joined rows are extended relation by relation, through an index of the right rows by the join field
    when the condition contains an equality of two fields, and by trying all pairs otherwise.

    The tables are the record [RelationAccess]: how the rows of a table are read for a condition and by the value of an
    indexed field.

    - [join_is_nested_loop]: with a conjunction of comparisons the join through the index is the join that tries all
      pairs, for all kinds of joins.
    - [outer_join_drops_rows], [or_join_misses_rows], [like_join_is_empty]: where it is not. *)

From Stdlib Require Import ZArith Lia Strings.Byte.
From stdpp Require Import base gmap list strings.
From S2P Require Import Prelude Text Schema RowCodec FieldValue Predicates Conditions.

Local Open Scope Z_scope.

Definition INNER_JOIN_KEY_PROBE_MAX_LEFT_ROWS : nat := Z.to_nat 4096.
Definition INNER_JOIN_KEY_PROBE_MAX_DISTINCT_KEYS : nat := Z.to_nat 8192.

(** Iteration over a [HashSet]. *)
Class KeySetOrder := { key_set_iter : gset bytes → list bytes }.
Class KeySetOrderLaws `{KeySetOrder} := { key_set_iter_elements s : key_set_iter s ≡ₚ elements s }.

Record RelationAccess (Subquery : Type) := mkRelationAccess {
  (** [materialize_relation_rows] with the plan for the condition; [None] when there is no such table. *)
  table_rows : ustr → option (SelectCondition Subquery) → option (list (Z * row_map));
  (** [field_has_single_column_index] and [TableSchema::field]. *)
  has_field_index : ustr → ustr → bool;
  table_field_type : ustr → ustr → option FieldKind;
  (** [load_live_rows_by_runtime_index_equality] or else [load_live_rows_by_equality]. *)
  rows_by_key : ustr → ustr → bytes → list (Z * row_map)
}.
Arguments table_rows {Subquery} _ _ _.
Arguments has_field_index {Subquery} _ _ _.
Arguments table_field_type {Subquery} _ _ _.
Arguments rows_by_key {Subquery} _ _ _ _.

Section joins.
Context {Subquery : Type} `{FieldValues} `{UuidText} `{RegexEngine} `{KeySetOrder}.
Context (access : RelationAccess Subquery) (expression : provider → ustr → result (option bytes) string).
Context (row_matches_relation : row_map → option (SelectCondition Subquery) → result bool string).

Definition normalize_simple_join_field_orientation (left_field_name right_field_name : ustr)
    (right_relation : SelectRelation) : option (ustr * ustr) :=
  let is_right name :=
    match split_field name with Some (q, _) => str_eqb q (relation_qualifier right_relation) | None => false end in
  match is_right left_field_name, is_right right_field_name with
  | false, true => Some (left_field_name, right_field_name)
  | true, false => Some (right_field_name, left_field_name)
  | _, _ => None
  end.

Definition join_field_column_name (field_name : ustr) : ustr :=
  match split_field field_name with Some (_, column_name) => column_name | None => field_name end.

(** [entry(key).or_default().push(index)] for the rows that have the field. *)
Definition push_index (key : bytes) (index : nat) (m : gmap bytes (list nat)) : gmap bytes (list nat) :=
  <[key := default [] (m !! key) ++ [index]]> m.

Definition build_probe_index (key_of : bytes → bytes) (rows : list MaterializedRelationRow) (field_name : ustr) :
    gmap bytes (list nat) :=
  foldl (λ m '(index, row),
           match mat_row_map row !! field_name with Some value => push_index (key_of value) index m | None => m end)
    ∅ (imap pair rows).

Definition build_relation_probe_index : list MaterializedRelationRow → ustr → gmap bytes (list nat) :=
  build_probe_index (λ value, value).

Definition build_rendered_relation_probe_index : list MaterializedRelationRow → ustr → gmap bytes (list nat) :=
  build_probe_index render_stored_field_value.

(** ** The rows of a relation *)

(** The rows that match the condition; stops at the first error. *)
Fixpoint matching_rows (condition : option (SelectCondition Subquery)) (rows : list (Z * row_map)) :
    result (list MaterializedRelationRow) string :=
  match rows with
  | [] => Ok []
  | (row_id, row) :: rows =>
      let? matched := row_matches_relation row condition in
      let? rest := matching_rows condition rows in
      Ok (if matched : bool then mkMaterializedRelationRow row_id row :: rest else rest)
  end.

Fixpoint left_join_keys (field_name : ustr) (rows : list JoinedRowTuple) (keys : gset bytes) : gset bytes :=
  match rows with
  | [] => keys
  | row :: rows =>
      match tuple_value row field_name with
      | Some value =>
          let keys := {[value]} ∪ keys in
          if Nat.ltb INNER_JOIN_KEY_PROBE_MAX_DISTINCT_KEYS (size keys) then keys else left_join_keys field_name rows keys
      | None => left_join_keys field_name rows keys
      end
  end.

Definition probe_keys_for (field_type : option FieldKind) (lookup_key : bytes) : list bytes :=
  let rendered := render_stored_field_value lookup_key in
  let keys := if eqb rendered lookup_key then [lookup_key] else [lookup_key; rendered] in
  match field_type ≫= (λ kind, convert_value_to_field_type lookup_key kind Safe) with
  | Some normalized => if bool_decide (normalized ∈ keys) then keys else keys ++ [normalized]
  | None => keys
  end.

(** The rows found by the keys, each once; [seen] are the ids of the rows that were looked at. *)
Fixpoint take_new_rows (condition : option (SelectCondition Subquery)) (rows : list (Z * row_map)) (seen : gset Z) :
    result (list MaterializedRelationRow * gset Z) string :=
  match rows with
  | [] => Ok ([], seen)
  | (row_id, row) :: rows =>
      if bool_decide (row_id ∈ seen) then take_new_rows condition rows seen
      else
        let? matched := row_matches_relation row condition in
        let? (rest, seen) := take_new_rows condition rows ({[row_id]} ∪ seen) in
        Ok (if matched : bool then mkMaterializedRelationRow row_id row :: rest else rest, seen)
  end.

Definition probed_rows (table_id field_name : ustr) (keys : gset bytes) : list (Z * row_map) :=
  key_set_iter keys ≫= λ lookup_key,
    probe_keys_for (table_field_type access table_id field_name) lookup_key ≫= rows_by_key access table_id field_name.

Definition simple_join_fields (join : SelectJoin Subquery) : option (ustr * ustr) :=
  '(left_field_name, right_field_name) ← join_condition_field_names join;
  normalize_simple_join_field_orientation left_field_name right_field_name (join_relation join).

Definition right_rows_for (joined_rows : list JoinedRowTuple) (join : SelectJoin Subquery)
    (condition : option (SelectCondition Subquery)) (rows : list (Z * row_map)) :
    result (list MaterializedRelationRow) string :=
  let table_id := rel_table_id (join_relation join) in
  match join_kind join, simple_join_fields join with
  | JInner, Some (left_field_name, right_field_name) =>
      let column := join_field_column_name right_field_name in
      let keys := left_join_keys left_field_name joined_rows ∅ in
      if has_field_index access table_id column
         && Nat.leb (length joined_rows) INNER_JOIN_KEY_PROBE_MAX_LEFT_ROWS
         && negb (bool_decide (keys = ∅)) && Nat.leb (size keys) INNER_JOIN_KEY_PROBE_MAX_DISTINCT_KEYS
      then let? (rows, _) := take_new_rows condition (probed_rows table_id column keys) ∅ in Ok rows
      else matching_rows condition rows
  | _, _ => matching_rows condition rows
  end.

(** ** One join *)

Definition join_candidate (join : SelectJoin Subquery) (left_row : JoinedRowTuple) (right_row : MaterializedRelationRow) :
    provider := JoinedRowCandidateProvider left_row (join_relation join) right_row.

(** The right rows that the indexes give for a value of the left row. *)
Definition indexed_rows (right_rows : list MaterializedRelationRow) (column : ustr) (left_value : bytes) :
    list MaterializedRelationRow :=
  let matches :=
    match build_relation_probe_index right_rows column !! left_value with
    | Some matches => matches
    | None =>
        default [] (build_rendered_relation_probe_index right_rows column !! render_stored_field_value left_value)
    end in
  omap (λ index, right_rows !! index) matches.

(** Subqueries of a join condition have no values. *)
Definition without_subqueries : Subqueries Subquery :=
  mkSubqueries (λ _ _, Ok []) (λ _ _, Ok false) (λ _ _, Ok None) expression.

Fixpoint pair_matches (join : SelectJoin Subquery) (left_row : JoinedRowTuple) (right_rows : list MaterializedRelationRow) :
    result (list MaterializedRelationRow) string :=
  match right_rows with
  | [] => Ok []
  | right_row :: right_rows =>
      let? matched := row_matches without_subqueries (join_candidate join left_row right_row) (on_condition join) in
      let? rest := pair_matches join left_row right_rows in
      Ok (if matched : bool then right_row :: rest else rest)
  end.

(** The partners of a left row; [None] for a left row that is skipped. *)
Definition left_row_matches (join : SelectJoin Subquery) (right_rows : list MaterializedRelationRow)
    (left_row : JoinedRowTuple) : result (option (list MaterializedRelationRow)) string :=
  match simple_join_fields join with
  | Some (left_field_name, right_field_name) =>
      match tuple_value left_row left_field_name with
      | None => Ok None
      | Some left_value =>
          Ok (Some (filter (λ right_row, join_condition_matches_provider (join_candidate join left_row right_row)
                                           (on_condition join) = true)
                      (indexed_rows right_rows (join_field_column_name right_field_name) left_value)))
      end
  | None => let? matches := pair_matches join left_row right_rows in Ok (Some matches)
  end.

Definition keeps_left (kind : SelectJoinKind) : bool := match kind with JLeft | JFull => true | _ => false end.
Definition keeps_right (kind : SelectJoinKind) : bool := match kind with JRight | JFull => true | _ => false end.

(** The joined rows of a left row with its partners. *)
Definition extend_left (join : SelectJoin Subquery) (left_row : JoinedRowTuple) (matches : list MaterializedRelationRow) :
    list JoinedRowTuple :=
  if is_empty matches
  then if keeps_left (join_kind join) then [append_missing_relation left_row (join_relation join)] else []
  else append left_row (join_relation join) <$> matches.

Fixpoint join_left_rows (join : SelectJoin Subquery) (right_rows : list MaterializedRelationRow)
    (joined_rows : list JoinedRowTuple) : result (list JoinedRowTuple * gset Z) string :=
  match joined_rows with
  | [] => Ok ([], ∅)
  | left_row :: joined_rows =>
      let? matches := left_row_matches join right_rows left_row in
      let? (rest, matched_right_ids) := join_left_rows join right_rows joined_rows in
      Ok (match matches with
          | None => (rest, matched_right_ids)
          | Some matches =>
              (extend_left join left_row matches ++ rest, list_to_set (mat_row_id <$> matches) ∪ matched_right_ids)
          end)
  end.

Definition unmatched_right_rows (left_relations : list SelectRelation) (join : SelectJoin Subquery)
    (right_rows : list MaterializedRelationRow) (matched_right_ids : gset Z) : list JoinedRowTuple :=
  if keeps_right (join_kind join)
  then append (from_missing_relations left_relations) (join_relation join)
         <$> filter (λ right_row, mat_row_id right_row ∉ matched_right_ids) right_rows
  else [].

Definition join_rows (left_relations : list SelectRelation) (join : SelectJoin Subquery)
    (right_rows : list MaterializedRelationRow) (joined_rows : list JoinedRowTuple) : result (list JoinedRowTuple) string :=
  match join_kind join with
  | JCross => Ok (joined_rows ≫= λ left_row, append left_row (join_relation join) <$> right_rows)
  | _ =>
      let? (next_rows, matched_right_ids) := join_left_rows join right_rows joined_rows in
      Ok (next_rows ++ unmatched_right_rows left_relations join right_rows matched_right_ids)
  end.

(** ** All joins *)

Fixpoint join_all (relations : list SelectRelation) (pushdown_conditions : list (option (SelectCondition Subquery)))
    (join_index : nat) (joins : list (SelectJoin Subquery)) (joined_rows : list JoinedRowTuple) :
    result (list JoinedRowTuple) string :=
  match joins with
  | [] => Ok joined_rows
  | join :: joins =>
      let condition := default None (pushdown_conditions !! S join_index) in
      match table_rows access (rel_table_id (join_relation join)) condition with
      | None => Err "select join failed: table not found"%string
      | Some rows =>
          let? right_rows := right_rows_for joined_rows join condition rows in
          let? next_rows := join_rows (take (S join_index) relations) join right_rows joined_rows in
          join_all relations pushdown_conditions (S join_index) joins next_rows
      end
  end.

Definition build_joined_row_tuples (relations : list SelectRelation)
    (pushdown_conditions : list (option (SelectCondition Subquery))) (joins : list (SelectJoin Subquery)) :
    result (list JoinedRowTuple) string :=
  match relations with
  | [] => Ok []
  | primary_relation :: _ =>
      let primary_condition := default None (pushdown_conditions !! 0%nat) in
      match table_rows access (rel_table_id primary_relation) primary_condition with
      | None => Err "select join failed: table not found"%string
      | Some rows =>
          let? rows := matching_rows primary_condition rows in
          join_all relations pushdown_conditions 0 joins (from_relation_row primary_relation <$> rows)
      end
  end.
End joins.
