(* ===== verification/JoinFacts.v ===== *)
(** * Facts about joins

    - [join_is_nested_loop]: with a conjunction of comparisons the join through the index of the right rows is the join
      that tries all pairs, for all kinds of joins.
    - [outer_join_drops_rows], [or_join_misses_rows], [like_join_is_empty]: where it is not. *)

From Stdlib Require Import ZArith Lia Strings.Byte.
From stdpp Require Import base gmap list strings.
From S2P Require Import Prelude Text Schema RowCodec FieldValue Predicates Conditions Joins.

Local Open Scope Z_scope.

Section probe_index.
Context (key_of : bytes → bytes) (field_name : ustr).

Definition keyed_rows (rows : list MaterializedRelationRow) (k : bytes) : list MaterializedRelationRow :=
  filter (λ row, key_of <$> mat_row_map row !! field_name = Some k) rows.

Definition indexes_rows (rows : list MaterializedRelationRow) (k : bytes) (entry : option (list nat)) : Prop :=
  match entry with
  | None => keyed_rows rows k = []
  | Some indexes =>
      keyed_rows rows k ≠ [] ∧ Forall (λ i, (i < length rows)%nat) indexes
      ∧ omap (λ i, rows !! i) indexes = keyed_rows rows k
  end.

Lemma keyed_rows_snoc rows row k :
  keyed_rows (rows ++ [row]) k
  = keyed_rows rows k ++ (if decide (key_of <$> mat_row_map row !! field_name = Some k) then [row] else []).
Proof. unfold keyed_rows. by rewrite filter_app. Qed.

Lemma omap_lookup_snoc rows (row : MaterializedRelationRow) indexes :
  Forall (λ i, (i < length rows)%nat) indexes → omap (λ i, (rows ++ [row]) !! i) indexes = omap (λ i, rows !! i) indexes.
Proof. induction 1 as [|i l Hi _ IH]; [done|]. csimpl. by rewrite lookup_app_l, IH by done. Qed.

Lemma build_probe_index_spec rows k : indexes_rows rows k (build_probe_index key_of rows field_name !! k).
Proof.
  revert k. induction rows as [|row rows IH] using rev_ind; intros k; [done|].
  unfold build_probe_index. rewrite imap_app. simpl. rewrite foldl_app. simpl.
  change (foldl _ ∅ (imap pair rows)) with (build_probe_index key_of rows field_name). rewrite Nat.add_0_r.
  specialize (IH k). unfold indexes_rows in *. rewrite keyed_rows_snoc.
  destruct (mat_row_map row !! field_name) as [value|] eqn:Ev; simpl.
  - unfold push_index. destruct (decide (Some (key_of value) = Some k)) as [[= <-]|Hk].
    + rewrite lookup_insert_eq. split; [by destruct (keyed_rows rows _)|].
      destruct (build_probe_index key_of rows field_name !! key_of value) as [indexes|] eqn:Ei; simpl in *.
      * destruct IH as (_ & Hlt & Ho). split.
        -- rewrite Forall_app, length_app. split; [eapply Forall_impl; [exact Hlt|simpl; lia]|by constructor; [simpl; lia|]].
        -- rewrite omap_app, omap_lookup_snoc, Ho by done. simpl. by rewrite lookup_app_r, Nat.sub_diag by lia.
      * rewrite IH, length_app. split; [constructor; [simpl; lia|done]|]. simpl. by rewrite lookup_app_r, Nat.sub_diag by lia.
    + rewrite lookup_insert_ne by congruence. rewrite app_nil_r.
      destruct (build_probe_index key_of rows field_name !! k) as [indexes|]; [|done].
      destruct IH as (Hne & Hlt & Ho). split_and!; [done| |by rewrite omap_lookup_snoc].
      rewrite length_app. eapply Forall_impl; [exact Hlt|simpl; lia].
  - rewrite app_nil_r. destruct (build_probe_index key_of rows field_name !! k) as [indexes|]; [|done].
    destruct IH as (Hne & Hlt & Ho). split_and!; [done| |by rewrite omap_lookup_snoc].
    rewrite length_app. eapply Forall_impl; [exact Hlt|simpl; lia].
Qed.
End probe_index.

Section join_facts.
Context {Subquery : Type} `{FieldValues} `{UuidText} `{RegexEngine} `{KeySetOrder}.
Context (access : RelationAccess Subquery) (expression : provider → ustr → result (option bytes) string).

(** ** Joining by trying all pairs *)

Definition pair_holds (join : SelectJoin Subquery) (left_row : JoinedRowTuple) (right_row : MaterializedRelationRow) : bool :=
  match join_kind join, row_matches (without_subqueries expression) (join_candidate join left_row right_row) (on_condition join) with
  | JCross, _ => true
  | _, Ok matched => matched
  | _, Err _ => false
  end.

Definition nested_loop_join (left_relations : list SelectRelation) (join : SelectJoin Subquery)
    (right_rows : list MaterializedRelationRow) (joined_rows : list JoinedRowTuple) : list JoinedRowTuple :=
  (joined_rows ≫= λ left_row, extend_left join left_row (filter (λ right_row, pair_holds join left_row right_row = true) right_rows))
  ++ (if keeps_right (join_kind join)
      then append (from_missing_relations left_relations) (join_relation join)
             <$> filter (λ right_row, Forall (λ left_row, pair_holds join left_row right_row = false) joined_rows) right_rows
      else []).

(** ** Conjunctions of comparisons *)

Fixpoint comparisons_only (condition : SelectCondition Subquery) : bool :=
  match condition with
  | CAnd children => forallb comparisons_only children
  | CPredicate (PComparison _ _ _) | CPredicate (PFieldComparison _ _ _) => true
  | _ => false
  end.

Lemma comparisons_evaluate subqueries p c :
  comparisons_only c = true → row_matches subqueries p c = Ok (join_condition_matches_provider p c).
Proof.
  induction c as [cs IH|cs IH|c IH|pr] using condition_ind'; simpl; intros Hc; try done.
  - induction IH as [|c cs Hc' _ IHcs]; [done|]. simpl in Hc. apply andb_true_iff in Hc as [Hc1 Hc2].
    rewrite Hc' by done. simpl. destruct (join_condition_matches_provider p c); [by apply IHcs|done].
  - by destruct pr.
Qed.

Lemma equality_required p c names :
  comparisons_only c = true → find_equality c = Some names → join_condition_matches_provider p c = true →
  compare_provider_fields p names.1 names.2 CmpEq = true.
Proof.
  induction c as [cs IH|cs IH|c IH|pr] using condition_ind'; simpl; intros Hc Hf Hm; try done.
  - induction IH as [|c cs Hc' _ IHcs]; [done|]. simpl in *. apply andb_true_iff in Hc as [Hc1 Hc2], Hm as [Hm1 Hm2].
    destruct (find_equality c) as [names'|]; [simplify_eq; by apply Hc'|by apply IHcs].
  - destruct pr; try done. by destruct op; simplify_eq/=.
Qed.

(** Two values that are taken for equal in a join condition. *)
Definition same_key (v w : bytes) : bool :=
  compare_row_value v w CmpEq || compare_row_value (render_stored_field_value v) (render_stored_field_value w) CmpEq.

Lemma compare_fields_same p a b :
  compare_provider_fields p a b CmpEq = true → ∃ v w, p a = Some v ∧ p b = Some w ∧ same_key v w = true.
Proof.
  unfold compare_provider_fields, same_key. destruct (p a) as [v|], (p b) as [w|]; try done.
  intros Hc. exists v, w. split_and!; [done..|]. by destruct (compare_row_value v w CmpEq).
Qed.

(** The left rows have the join field, none of them has the right relation already, and on the two join columns values
    that are taken for equal are the same bytes. *)
Definition join_keys_ok (join : SelectJoin Subquery) (right_rows : list MaterializedRelationRow)
    (joined_rows : list JoinedRowTuple) : Prop :=
  ∀ left_field right_field, simple_join_fields join = Some (left_field, right_field) → ∀ l, l ∈ joined_rows →
    is_Some (tuple_value l left_field) ∧ member_indexes_by_qualifier l !! relation_qualifier (join_relation join) = None
    ∧ ∀ r v w, r ∈ right_rows → tuple_value l left_field = Some v →
        mat_row_map r !! join_field_column_name right_field = Some w → same_key v w = true ∨ same_key w v = true → v = w.

Lemma orientation a b relation left_field right_field :
  normalize_simple_join_field_orientation a b relation = Some (left_field, right_field) →
  ((a, b) = (left_field, right_field) ∨ (a, b) = (right_field, left_field))
  ∧ ∃ column, split_field right_field = Some (relation_qualifier relation, column).
Proof.
  unfold normalize_simple_join_field_orientation, str_eqb. intros E.
  destruct (split_field a) as [[qa ca]|] eqn:Ea, (split_field b) as [[qb cb]|] eqn:Eb; repeat case_bool_decide; simplify_eq; eauto.
Qed.

Lemma indexed_rows_filter (Q : MaterializedRelationRow → Prop) `{∀ r, Decision (Q r)} right_rows column v :
  (∀ r, r ∈ right_rows → Q r → mat_row_map r !! column = Some v) →
  filter Q (indexed_rows right_rows column v) = filter Q right_rows.
Proof.
  intros Hq. unfold indexed_rows.
  pose proof (build_probe_index_spec (λ value, value) column right_rows v) as Hd.
  change (build_probe_index (λ value, value) right_rows column) with (build_relation_probe_index right_rows column) in Hd.
  destruct (build_relation_probe_index right_rows column !! v) as [indexes|]; simpl in Hd.
  - destruct Hd as (_ & _ & ->). unfold keyed_rows. rewrite list_filter_filter. apply filter_ext_in.
    intros r Hr. split; [tauto|]. intros HQ. by rewrite (Hq r Hr HQ).
  - assert (∀ r, r ∈ right_rows → ¬ Q r) as Hnone.
    { intros r Hr HQ. assert (r ∈ keyed_rows (λ value, value) column right_rows v) as Hin.
      { unfold keyed_rows. rewrite list_elem_of_filter, (Hq r Hr HQ). done. }
      rewrite Hd in Hin. by apply elem_of_nil in Hin. }
    rewrite (filter_none Q right_rows) by (by apply Forall_forall).
    pose proof (build_probe_index_spec render_stored_field_value column right_rows (render_stored_field_value v)) as Hr.
    change (build_probe_index render_stored_field_value right_rows column)
      with (build_rendered_relation_probe_index right_rows column) in Hr.
    destruct (build_rendered_relation_probe_index right_rows column !! render_stored_field_value v) as [indexes|]; [|done].
    destruct Hr as (_ & _ & Ho). simpl default. rewrite Ho. apply filter_none, Forall_forall. intros r [_ Hr]%list_elem_of_filter. by apply Hnone.
Qed.

(** ** The join through the index *)

Lemma pair_holds_comparisons join l r :
  comparisons_only (on_condition join) = true → join_kind join ≠ JCross →
  pair_holds join l r = join_condition_matches_provider (join_candidate join l r) (on_condition join).
Proof. intros Hc Hk. unfold pair_holds. rewrite comparisons_evaluate by done. by destruct (join_kind join). Qed.

Lemma pair_matches_comparisons join l right_rows :
  comparisons_only (on_condition join) = true → join_kind join ≠ JCross →
  pair_matches expression join l right_rows = Ok (filter (λ r, pair_holds join l r = true) right_rows).
Proof.
  intros Hc Hk. induction right_rows as [|r right_rows IH]; [done|]. simpl.
  rewrite comparisons_evaluate, IH, filter_cons by done. rewrite (pair_holds_comparisons join l r) by done.
  by destruct (join_condition_matches_provider _ _).
Qed.

(** The value of the right join field of a pair comes from the right row. *)
Lemma candidate_right (join : SelectJoin Subquery) l r left_field right_field :
  simple_join_fields join = Some (left_field, right_field) →
  member_indexes_by_qualifier l !! relation_qualifier (join_relation join) = None →
  join_candidate join l r right_field = mat_row_map r !! join_field_column_name right_field.
Proof.
  unfold simple_join_fields. intros ([a b] & _ & E)%bind_Some Hq. apply orientation in E as [_ [column E]].
  unfold join_candidate, JoinedRowCandidateProvider, tuple_value, join_field_column_name. rewrite E. simpl. rewrite Hq.
  unfold str_eqb. by rewrite bool_decide_true.
Qed.

Lemma pair_key (join : SelectJoin Subquery) l r left_field right_field v :
  simple_join_fields join = Some (left_field, right_field) → comparisons_only (on_condition join) = true →
  join_condition_matches_provider (join_candidate join l r) (on_condition join) = true →
  tuple_value l left_field = Some v →
  member_indexes_by_qualifier l !! relation_qualifier (join_relation join) = None →
  ∃ w, mat_row_map r !! join_field_column_name right_field = Some w ∧ (same_key v w = true ∨ same_key w v = true).
Proof.
  intros Hs Hc Hm Hv Hq. pose proof (candidate_right join l r _ _ Hs Hq) as Er.
  assert (join_candidate join l r left_field = Some v) as El
    by (unfold join_candidate, JoinedRowCandidateProvider; by rewrite Hv).
  unfold simple_join_fields, join_condition_field_names in Hs. apply bind_Some in Hs as ([a b] & Ef & Eo).
  pose proof (equality_required _ _ _ Hc Ef Hm) as He. apply orientation in Eo as [[[= -> ->]|[= -> ->]] _];
    apply compare_fields_same in He as (v' & w' & E1 & E2 & Hk); simpl in E1, E2.
  - exists w'. split; [congruence|]. left. congruence.
  - exists v'. split; [congruence|]. right. congruence.
Qed.

Lemma left_row_matches_pairs join right_rows joined_rows l :
  comparisons_only (on_condition join) = true → join_kind join ≠ JCross → join_keys_ok join right_rows joined_rows →
  l ∈ joined_rows →
  left_row_matches expression join right_rows l = Ok (Some (filter (λ r, pair_holds join l r = true) right_rows)).
Proof.
  intros Hc Hk Hkeys Hl. unfold left_row_matches. destruct (simple_join_fields join) as [[left_field right_field]|] eqn:Hs.
  - destruct (Hkeys _ _ Hs l Hl) as ([v Hv] & Hq & Hcan). rewrite Hv. do 2 f_equal.
    erewrite indexed_rows_filter.
    + apply filter_ext_in. intros r _. by rewrite pair_holds_comparisons.
    + intros r Hr Hm. destruct (pair_key join l r _ _ v Hs Hc Hm Hv Hq) as (w & Hw & Hsame).
      by rewrite (Hcan r v w).
  - by rewrite pair_matches_comparisons.
Qed.

Lemma join_left_rows_pairs join right_rows joined_rows :
  comparisons_only (on_condition join) = true → join_kind join ≠ JCross → join_keys_ok join right_rows joined_rows →
  join_left_rows expression join right_rows joined_rows
  = Ok (joined_rows ≫= λ l, extend_left join l (filter (λ r, pair_holds join l r = true) right_rows),
        list_to_set (joined_rows ≫= λ l, mat_row_id <$> filter (λ r, pair_holds join l r = true) right_rows)).
Proof.
  intros Hc Hk. induction joined_rows as [|l joined_rows IH]; intros Hkeys; [done|]. simpl.
  rewrite (left_row_matches_pairs join right_rows (l :: joined_rows)) by (done || by left).
  rewrite IH by (intros a b E l' Hl'; apply (Hkeys a b E); by right). simpl. by rewrite list_to_set_app_L.
Qed.

Lemma unmatched_iff join right_rows joined_rows r :
  NoDup (mat_row_id <$> right_rows) → r ∈ right_rows →
  mat_row_id r ∉ (list_to_set (joined_rows ≫= λ l, mat_row_id <$> filter (λ r, pair_holds join l r = true) right_rows) : gset Z)
  ↔ Forall (λ l, pair_holds join l r = false) joined_rows.
Proof.
  intros Hnd Hr. rewrite elem_of_list_to_set, Forall_forall, list_elem_of_bind. split.
  - intros Hno l Hl. apply not_true_is_false. intros Hp. apply Hno. exists l. split; [|done].
    apply list_elem_of_fmap. exists r. split; [done|]. by apply list_elem_of_filter.
  - intros Hall (l & (r' & E & [Hp Hr']%list_elem_of_filter)%list_elem_of_fmap & Hl).
    assert (r' = r) as -> by (eapply nodup_fmap_inj; [exact Hnd|done|done|congruence]). by rewrite Hall in Hp.
Qed.

Lemma join_rows_nested_loop left_relations join right_rows joined_rows :
  comparisons_only (on_condition join) = true → NoDup (mat_row_id <$> right_rows) →
  join_keys_ok join right_rows joined_rows →
  join_rows expression left_relations join right_rows joined_rows
  = Ok (nested_loop_join left_relations join right_rows joined_rows).
Proof.
  intros Hc Hnd Hkeys. unfold join_rows, nested_loop_join. destruct (decide (join_kind join = JCross)) as [E|Hk].
  - rewrite E. simpl. rewrite app_nil_r. f_equal. apply list_bind_ext; [|done]. intros l. unfold extend_left, pair_holds. rewrite E.
    rewrite filter_all by (by apply Forall_forall). by destruct right_rows.
  - destruct (join_kind join) eqn:E; try done; rewrite join_left_rows_pairs by (done || by rewrite E); unfold unmatched_right_rows;
      rewrite E; simpl; try done; do 3 f_equal; apply filter_ext_in; intros r Hr;
      by apply unmatched_iff.
Qed.


(** ** Where the join through the index differs *)

Lemma left_field_not_right (join : SelectJoin Subquery) left_field right_field l r :
  simple_join_fields join = Some (left_field, right_field) → tuple_value l left_field = None →
  join_candidate join l r left_field = None.
Proof.
  unfold simple_join_fields, normalize_simple_join_field_orientation. intros ([a b] & _ & E)%bind_Some Hv.
  unfold join_candidate, JoinedRowCandidateProvider. rewrite Hv. destruct (split_field left_field) as [[q column]|] eqn:Es; [|done].
  simpl. destruct (str_eqb q _) eqn:Eq; [|done]. exfalso.
  destruct (split_field a) as [[qa ca]|] eqn:Ea, (split_field b) as [[qb cb]|] eqn:Eb; repeat case_match; simplify_eq; congruence.
Qed.

(** a left or full join drops the left rows that do not have the join field, where it should keep them without a
    partner.  So of two left joins in a row, the second one on a field of the first joined relation, the rows that the
    first one kept without a partner are lost. *)
Theorem outer_join_drops_rows left_relations join right_rows l joined_rows left_field right_field :
  keeps_left (join_kind join) = true → comparisons_only (on_condition join) = true →
  simple_join_fields join = Some (left_field, right_field) → tuple_value l left_field = None →
  join_rows expression left_relations join right_rows (l :: joined_rows)
    = join_rows expression left_relations join right_rows joined_rows
  ∧ append_missing_relation l (join_relation join) ∈ nested_loop_join left_relations join right_rows (l :: joined_rows).
Proof.
  intros Hk Hc Hs Hv. assert (join_kind join ≠ JCross) as Hk' by (by intros E; rewrite E in Hk). split.
  - assert (left_row_matches expression join right_rows l = Ok None) as E by (unfold left_row_matches; by rewrite Hs, Hv).
    unfold join_rows. simpl. rewrite E.
    destruct (join_left_rows expression join right_rows joined_rows) as [[rows ids]|e]; by destruct (join_kind join).
  - unfold nested_loop_join. apply elem_of_app. left. simpl. apply elem_of_app. left. unfold extend_left.
    rewrite filter_none; [simpl; rewrite Hk; by apply list_elem_of_singleton|]. apply Forall_forall. intros r _ Hp.
    rewrite pair_holds_comparisons in Hp by done. pose proof (left_field_not_right join _ _ l r Hs Hv) as Hl.
    unfold simple_join_fields, join_condition_field_names in Hs. apply bind_Some in Hs as ([a b] & Ef & Eo).
    pose proof (equality_required _ _ _ Hc Ef Hp) as He. apply orientation in Eo as [[[= -> ->]|[= -> ->]] _];
      apply compare_fields_same in He as (v' & w' & E1 & E2 & _); simpl in E1, E2; congruence.
Qed.

Lemma partners_have_key right_rows r column v :
  r ∈ indexed_rows right_rows column v →
  ∃ w, mat_row_map r !! column = Some w ∧ (w = v ∨ render_stored_field_value w = render_stored_field_value v).
Proof.
  intros Hr. unfold indexed_rows in Hr.
  pose proof (build_probe_index_spec (λ value, value) column right_rows v) as Hd.
  change (build_probe_index (λ value, value) right_rows column) with (build_relation_probe_index right_rows column) in Hd.
  destruct (build_relation_probe_index right_rows column !! v) as [indexes|]; simpl in Hd.
  - destruct Hd as (_ & _ & Ho). rewrite Ho in Hr. apply list_elem_of_filter in Hr as [Ew _].
    destruct (mat_row_map r !! column) as [w|]; simplify_eq/=. by exists v; auto.
  - pose proof (build_probe_index_spec render_stored_field_value column right_rows (render_stored_field_value v)) as Hd'.
    change (build_probe_index render_stored_field_value right_rows column)
      with (build_rendered_relation_probe_index right_rows column) in Hd'.
    destruct (build_rendered_relation_probe_index right_rows column !! _) as [indexes|]; simpl in Hd', Hr; [|by apply elem_of_nil in Hr].
    destruct Hd' as (_ & _ & Ho). rewrite Ho in Hr. apply list_elem_of_filter in Hr as [Ew _].
    destruct (mat_row_map r !! column) as [w|]; simplify_eq/=. exists w. auto.
Qed.

(** a join on one of two conditions joins only pairs with equal values of the fields that the first one compares:
    [ON a.x = b.x OR a.y = b.y] does not find a pair that matches in [y] only. *)
Theorem or_join_misses_rows left_relations relation a b c l r left_field right_field v w :
  let join := mkSelectJoin JInner relation (COr [CPredicate (PFieldComparison a CmpEq b); c]) in
  simple_join_fields join = Some (left_field, right_field) → tuple_value l left_field = Some v →
  mat_row_map r !! join_field_column_name right_field = Some w → render_stored_field_value w ≠ render_stored_field_value v →
  row_matches (without_subqueries expression) (join_candidate join l r) c = Ok true →
  join_rows expression left_relations join [r] [l] = Ok []
  ∧ nested_loop_join left_relations join [r] [l] = [append l relation r].
Proof.
  intros join Hs Hv Hw Hne Hc. split.
  - unfold join_rows. simpl. unfold left_row_matches. rewrite Hs, Hv. rewrite filter_none; [done|].
    apply Forall_forall. intros r' Hr' _. assert (r' = r) as ->.
    { unfold indexed_rows in Hr'. apply list_elem_of_omap in Hr' as (i & _ & Hi). destruct i as [|i]; simplify_eq/=; done. }
    apply partners_have_key in Hr' as (w' & Hw' & [-> | E]); congruence.
  - unfold nested_loop_join. simpl. rewrite !app_nil_r. unfold extend_left. assert (pair_holds join l r = true) as Hp.
    { unfold pair_holds. change (join_kind join) with JInner. change (on_condition join) with (COr [CPredicate (PFieldComparison a CmpEq b); c]).
      cbn [row_matches row_matches_predicate]. rewrite Hc. by destruct (compare_provider_fields _ _ _ _). }
    by rewrite filter_cons_True, filter_nil by done.
Qed.

(** a join on an equality of fields together with a condition of another kind, such as LIKE or IN, joins nothing. *)
Theorem like_join_is_empty left_relations relation a b predicate right_rows joined_rows :
  let join := mkSelectJoin JInner relation (CAnd [CPredicate (PFieldComparison a CmpEq b); CPredicate predicate]) in
  comparisons_only (CPredicate predicate) = false → is_Some (simple_join_fields join) →
  join_rows expression left_relations join right_rows joined_rows = Ok [].
Proof.
  intros join Hp [[left_field right_field] Hs]. unfold join_rows. cbn [join_kind join].
  assert (∀ rows, ∃ ids, join_left_rows expression join right_rows rows = Ok ([], ids)) as Hrows.
  { induction rows as [|l rows [ids IH]]; [by exists ∅|]. simpl. unfold left_row_matches. rewrite Hs, IH.
    destruct (tuple_value l left_field) as [v|]; [|by exists ids]. rewrite filter_none; [simpl; eauto|].
    apply Forall_forall. intros r _. simpl. rewrite andb_true_r. destruct predicate; try done; by rewrite andb_false_r. }
  destruct (Hrows joined_rows) as [ids ->]. done.
Qed.
End join_facts.
