(* ===== verification/Pushdown.v ===== *)
(** * Conditions pushed to the relations of a join

    Models [derive_relation_pushdown_conditions] of [serverlib/src/engine/sql/select_plan.rs]: the clauses of the WHERE
    condition that concern one relation are also checked on the rows of this relation before the join.

    - [pushdown_keeps_result]: this does not change the rows that match the condition, for inner, left and cross joins.
    - [pushdown_right_join_adds_rows]: for right and full joins it does. *)

From Stdlib Require Import ZArith Lia Strings.Byte.
From stdpp Require Import base gmap list strings.
From S2P Require Import Prelude Text Schema RowCodec FieldValue Predicates Conditions Joins JoinFacts.

Local Open Scope nat_scope.

Section derive.
Context {Subquery : Type}.
Implicit Types (condition : SelectCondition Subquery) (joins : list (SelectJoin Subquery)).

Fixpoint flatten_and_clauses condition : list (SelectCondition Subquery) :=
  match condition with
  | CAnd children =>
      (fix flat_map children :=
         match children with [] => [] | child :: children => flatten_and_clauses child ++ flat_map children end) children
  | _ => [condition]
  end.

Definition combine_conditions (conditions : list (SelectCondition Subquery)) : option (SelectCondition Subquery) :=
  match conditions with
  | [] => None
  | [condition] => Some condition
  | _ => Some (CAnd conditions)
  end.

Definition insert_if_absent (key : ustr) (index : nat) (m : gmap ustr nat) : gmap ustr nat :=
  match m !! key with Some _ => m | None => <[key := index]> m end.

Definition build_relation_index_lookup (relation_bindings : list SelectRelation) : gmap ustr nat :=
  foldl (λ m '(index, binding),
           let m := insert_if_absent (rel_table_id binding) index m in
           match rel_alias binding with Some alias => insert_if_absent alias index m | None => m end)
    ∅ (imap pair relation_bindings).

(** The field of a predicate on one field. *)
Definition predicate_field (predicate : SelectPredicate Subquery) : option ustr :=
  match predicate with
  | PComparison field_name _ _ | PLike field_name _ _ _ _ | PRegex field_name _ _ _ | PInList field_name _ _
  | PIsNull field_name _ | PInSubquery field_name _ _ | PScalarSubqueryComparison field_name _ _
  | PAnySubqueryComparison field_name _ _ | PAllSubqueryComparison field_name _ _ => Some field_name
  | PFieldComparison _ _ _ | PExpressionComparison _ _ _ | PExists _ _ => None
  end.

Definition relation_index_for_condition condition (relation_indexes : gmap ustr nat) : option nat :=
  match condition with
  | CPredicate predicate =>
      field_name ← predicate_field predicate;
      '(q, _) ← split_field field_name;
      relation_indexes !! q
  | _ => None
  end.

Definition is_safe_relation_pushdown (relation_index : nat) joins : bool :=
  is_empty joins || (relation_index =? 0) || forallb (λ join, eqb (join_kind join) JInner) joins.

Definition unqualify_field_name (field_name : ustr) : ustr :=
  match split_field field_name with Some (_, column_name) => column_name | None => field_name end.

Definition localize_condition_for_relation condition : option (SelectCondition Subquery) :=
  match condition with
  | CPredicate predicate =>
      CPredicate <$>
      match predicate with
      | PComparison field_name op value => Some (PComparison (unqualify_field_name field_name) op value)
      | PLike field_name pattern negated case_insensitive escape_char =>
          Some (PLike (unqualify_field_name field_name) pattern negated case_insensitive escape_char)
      | PRegex field_name pattern negated case_insensitive =>
          Some (PRegex (unqualify_field_name field_name) pattern negated case_insensitive)
      | PInList field_name values negated => Some (PInList (unqualify_field_name field_name) values negated)
      | PIsNull field_name negated => Some (PIsNull (unqualify_field_name field_name) negated)
      | PInSubquery field_name subquery negated => Some (PInSubquery (unqualify_field_name field_name) subquery negated)
      | PScalarSubqueryComparison field_name op subquery =>
          Some (PScalarSubqueryComparison (unqualify_field_name field_name) op subquery)
      | PAnySubqueryComparison field_name op subquery =>
          Some (PAnySubqueryComparison (unqualify_field_name field_name) op subquery)
      | PAllSubqueryComparison field_name op subquery =>
          Some (PAllSubqueryComparison (unqualify_field_name field_name) op subquery)
      | PFieldComparison _ _ _ | PExpressionComparison _ _ _ | PExists _ _ => None
      end
  | _ => None
  end.

Definition push_clause (relation_indexes : gmap ustr nat) joins (per_relation : list (list (SelectCondition Subquery)))
    (clause : SelectCondition Subquery) : list (list (SelectCondition Subquery)) :=
  match relation_index_for_condition clause relation_indexes with
  | Some index =>
      if is_safe_relation_pushdown index joins then
        match localize_condition_for_relation clause with
        | Some localized => alter (λ clauses, clauses ++ [localized]) index per_relation
        | None => per_relation
        end
      else per_relation
  | None => per_relation
  end.

Definition derive_relation_pushdown_conditions (condition : option (SelectCondition Subquery))
    (relation_bindings : list SelectRelation) joins : list (option (SelectCondition Subquery)) :=
  match condition with
  | None => replicate (length relation_bindings) None
  | Some condition =>
      combine_conditions <$>
      foldl (push_clause (build_relation_index_lookup relation_bindings) joins)
        (replicate (length relation_bindings) []) (flatten_and_clauses condition)
  end.
End derive.

Section pushdown.
Context {Subquery : Type} `{FieldValues} `{UuidText} `{RegexEngine} `{KeySetOrder}.
Context (subqueries : Subqueries Subquery) (expression : provider → ustr → result (option bytes) string).
Implicit Types (condition : SelectCondition Subquery) (join : SelectJoin Subquery).

(** A condition of a query sees the row, and under the column name alone the row it is evaluated for. *)
Definition row_matches_select_condition_with_outer_result (p outer : provider) (condition : option (SelectCondition Subquery)) :
    result bool string :=
  row_matches_condition_with_result_and_expression subqueries
    (ChainedConditionValueProvider p (UnqualifiedFieldFallbackProvider outer)) condition.

Definition row_matches_relation (row : row_map) (condition : option (SelectCondition Subquery)) : result bool string :=
  row_matches_select_condition_with_outer_result (row_map_provider row) (row_map_provider row) condition.

Definition row_matches_joined (tuple : JoinedRowTuple) (condition : option (SelectCondition Subquery)) : result bool string :=
  row_matches_select_condition_with_outer_result (tuple_value tuple) (tuple_value tuple) condition.

Definition holds (matched : result bool string) : bool := match matched with Ok b => b | Err _ => false end.

Definition where_holds condition (tuple : JoinedRowTuple) : Prop := row_matches_joined tuple (Some condition) = Ok true.

#[global] Instance where_holds_dec condition tuple : Decision (where_holds condition tuple).
Proof.
  unfold where_holds. destruct (row_matches_joined tuple (Some condition)) as [[]|e]; [left|right|right]; congruence.
Defined.

(** ** Joined rows whose members satisfy the pushed conditions *)

Definition relation_holds (condition : option (SelectCondition Subquery)) (row : MaterializedRelationRow) : Prop :=
  holds (row_matches_relation (mat_row_map row) condition) = true.

Definition member_ok (condition : option (SelectCondition Subquery)) (member : JoinedRowMember) : bool :=
  match member_row_map member with
  | None => true
  | Some row => holds (row_matches_relation row condition)
  end.

Definition pushed_ok (conditions : list (option (SelectCondition Subquery))) (tuple : JoinedRowTuple) : Prop :=
  forallb (λ '(c, m), member_ok c m) (zip conditions (members tuple)) = true.

#[global] Instance relation_holds_dec c row : Decision (relation_holds c row).
Proof. unfold relation_holds. apply _. Defined.

#[global] Instance pushed_ok_dec conditions tuple : Decision (pushed_ok conditions tuple).
Proof. unfold pushed_ok. apply _. Defined.

Lemma pushed_ok_push conditions c tuple member :
  length conditions = length (members tuple) →
  pushed_ok (conditions ++ [c]) (push_member tuple member) ↔ pushed_ok conditions tuple ∧ member_ok c member = true.
Proof.
  intros Hlen. unfold pushed_ok, push_member. cbn [members]. rewrite zip_with_app by done. rewrite forallb_app. simpl.
  rewrite andb_true_r. apply andb_true_iff.
Qed.

Definition pushable (kind : SelectJoinKind) (condition : option (SelectCondition Subquery)) : Prop :=
  kind = JInner ∨ (kind = JLeft ∨ kind = JCross) ∧ condition = None.

Lemma extend_left_pushed conditions c join l right_rows :
  pushable (join_kind join) c → length conditions = length (members l) →
  filter (pushed_ok (conditions ++ [c])) (extend_left join l right_rows)
  = if decide (pushed_ok conditions l) then extend_left join l (filter (relation_holds c) right_rows) else [].
Proof.
  intros Hk Hlen.
  assert (filter (pushed_ok (conditions ++ [c])) (append l (join_relation join) <$> right_rows)
          = if decide (pushed_ok conditions l) then append l (join_relation join) <$> filter (relation_holds c) right_rows else [])
    as Hmap.
  { rewrite filter_fmap. destruct (decide (pushed_ok conditions l)) as [Hl|Hl].
    - f_equal. apply list_filter_iff. intros r. unfold append. rewrite pushed_ok_push by done. unfold member_ok, relation_holds. simpl. tauto.
    - erewrite (filter_none _ right_rows); [done|]. apply Forall_forall. intros r _. unfold append. rewrite pushed_ok_push by done. tauto. }
  unfold extend_left. destruct Hk as [-> | [Hk ->]].
  - simpl. destruct right_rows as [|r right_rows]; cbn [is_empty].
    + by destruct (decide _).
    + rewrite Hmap. destruct (decide _); [|done]. by destruct (filter (relation_holds c) (r :: right_rows)).
  - rewrite (filter_all (relation_holds None)) by (by apply Forall_forall).
    destruct right_rows as [|r right_rows]; cbn [is_empty].
    + destruct Hk as [-> | ->]; simpl; [|by destruct (decide _)]. rewrite filter_cons, filter_nil. unfold append_missing_relation.
      rewrite (decide_ext _ _ _ _ (pushed_ok_push conditions None l (missing_member (join_relation join)) Hlen)).
      repeat case_decide; naive_solver.
    + rewrite Hmap. rewrite (filter_all (relation_holds None)) by (by apply Forall_forall). done.
Qed.

Lemma filter_swap {A} (P Q : A → Prop) `{∀ x, Decision (P x)} `{∀ x, Decision (Q x)} (l : list A) :
  filter P (filter Q l) = filter Q (filter P l).
Proof. rewrite !list_filter_filter. apply list_filter_iff. tauto. Qed.

Lemma nested_loop_pushed conditions c rels join right_rows joined_rows :
  pushable (join_kind join) c → Forall (λ l, length conditions = length (members l)) joined_rows →
  nested_loop_join expression rels join (filter (relation_holds c) right_rows) (filter (pushed_ok conditions) joined_rows)
  = filter (pushed_ok (conditions ++ [c])) (nested_loop_join expression rels join right_rows joined_rows).
Proof.
  intros Hk Hlen. assert (keeps_right (join_kind join) = false) as Hr by (by destruct Hk as [-> | [[-> | ->] _]]).
  unfold nested_loop_join. rewrite Hr, !app_nil_r. induction Hlen as [|l joined_rows Hl _ IH]; [done|].
  rewrite filter_cons. rewrite (bind_cons _ l joined_rows), filter_app, <- IH, extend_left_pushed by done.
  destruct (decide (pushed_ok conditions l)); [|done]. rewrite bind_cons. f_equal. f_equal. apply filter_swap.
Qed.

(** ** A chain of joins *)

Definition mat_row (p : Z * row_map) : MaterializedRelationRow := mkMaterializedRelationRow p.1 p.2.

(** The joins one after the other, with the rows of the joined relations. *)
Fixpoint nested_chain (relations : list SelectRelation) (join_index : nat) (joins : list (SelectJoin Subquery))
    (rows : list (list MaterializedRelationRow)) (joined_rows : list JoinedRowTuple) : list JoinedRowTuple :=
  match joins, rows with
  | join :: joins, right_rows :: rows =>
      nested_chain relations (S join_index) joins rows
        (nested_loop_join expression (take (S join_index) relations) join right_rows joined_rows)
  | _, _ => joined_rows
  end.

Lemma extend_left_members join l rows n :
  length (members l) = n → Forall (λ t, length (members t) = S n) (extend_left join l rows).
Proof.
  intros <-. unfold extend_left. destruct (is_empty rows); [destruct (keeps_left _)|]; repeat constructor.
  - simpl. rewrite length_app. simpl. lia.
  - apply Forall_forall. intros t (r & -> & _)%list_elem_of_fmap. simpl. rewrite length_app. simpl. lia.
Qed.

Lemma nested_loop_members rels join rows joined_rows n :
  keeps_right (join_kind join) = false → Forall (λ t, length (members t) = n) joined_rows →
  Forall (λ t, length (members t) = S n) (nested_loop_join expression rels join rows joined_rows).
Proof.
  intros Hr Hl. unfold nested_loop_join. rewrite Hr, app_nil_r. apply Forall_forall.
  intros t (l & Ht & Hin)%list_elem_of_bind. rewrite Forall_forall in Hl.
  pose proof (extend_left_members join l (filter (λ r, pair_holds expression join l r = true) rows) n (Hl l Hin)) as Hf.
  rewrite Forall_forall in Hf. by apply Hf.
Qed.

Lemma nested_chain_pushed relations k joins rows pushed conditions joined_rows :
  length joins = length rows → length joins = length pushed →
  Forall2 (λ join c, pushable (join_kind join) c) joins pushed →
  Forall (λ l, length conditions = length (members l)) joined_rows →
  nested_chain relations k joins (zip_with (λ c, filter (relation_holds c)) pushed rows) (filter (pushed_ok conditions) joined_rows)
  = filter (pushed_ok (conditions ++ pushed)) (nested_chain relations k joins rows joined_rows).
Proof.
  revert k rows pushed conditions joined_rows. induction joins as [|join joins IH]; intros k rows pushed conditions joined_rows Hr Hp Hk Hl;
    destruct rows as [|right_rows rows], pushed as [|c pushed]; try done; simpl.
  - by rewrite app_nil_r.
  - inversion Hk as [|? ? ? ? Hkind Hk']; subst. rewrite nested_loop_pushed by done. rewrite IH; [by rewrite <- app_assoc|naive_solver..|].
    assert (keeps_right (join_kind join) = false) as Hr' by (by destruct Hkind as [-> | [[-> | ->] _]]).
    eapply Forall_impl; [apply (nested_loop_members _ join right_rows joined_rows (length conditions) Hr')|].
    + eapply Forall_impl; [exact Hl|]. done.
    + simpl. intros t Ht. rewrite length_app, Ht. simpl. lia.
Qed.

(** ** The rows of the relations as the code reads them *)

Definition never_fails (c : option (SelectCondition Subquery)) : Prop := ∀ row, is_ok (row_matches_relation row c) = true.

Lemma matching_rows_filter c rows :
  never_fails c → matching_rows row_matches_relation c rows = Ok (filter (relation_holds c) (mat_row <$> rows)).
Proof.
  intros Hc. induction rows as [|[id row] rows IH]; [done|]. csimpl. rewrite IH, filter_cons. specialize (Hc row).
  destruct (decide (relation_holds c (mat_row (id, row)))) as [E|E]; unfold relation_holds in E; simpl in E;
    by destruct (row_matches_relation row c) as [[]|e].
Qed.

Definition no_indexes (access : RelationAccess Subquery) : Prop := ∀ table_id column, has_field_index access table_id column = false.

(** Reading the rows for a condition loses no row that matches it. *)
Definition reads_all (access : RelationAccess Subquery) (relation : SelectRelation) (all : list MaterializedRelationRow) : Prop :=
  ∀ c, ∃ rows, table_rows access (rel_table_id relation) c = Some rows
    ∧ filter (relation_holds c) (mat_row <$> rows) = filter (relation_holds c) all.

Lemma right_rows_filter access joined_rows join c rows :
  no_indexes access → never_fails c →
  right_rows_for access row_matches_relation joined_rows join c rows = Ok (filter (relation_holds c) (mat_row <$> rows)).
Proof.
  intros Hi Hc. unfold right_rows_for. destruct (join_kind join), (simple_join_fields join) as [[a b]|];
    rewrite ?Hi; by apply matching_rows_filter.
Qed.

(** The joins meet the conditions of [join_is_nested_loop] one after the other. *)
Fixpoint chain_keys_ok (relations : list SelectRelation) (join_index : nat) (joins : list (SelectJoin Subquery))
    (rows : list (list MaterializedRelationRow)) (joined_rows : list JoinedRowTuple) : Prop :=
  match joins, rows with
  | join :: joins, right_rows :: rows =>
      comparisons_only (on_condition join) = true ∧ NoDup (mat_row_id <$> right_rows) ∧ join_keys_ok join right_rows joined_rows
      ∧ chain_keys_ok relations (S join_index) joins rows
          (nested_loop_join expression (take (S join_index) relations) join right_rows joined_rows)
  | _, _ => True
  end.

Lemma join_keys_ok_mono join right_rows right_rows' joined_rows joined_rows' :
  (∀ r, r ∈ right_rows' → r ∈ right_rows) → (∀ l, l ∈ joined_rows' → l ∈ joined_rows) →
  join_keys_ok join right_rows joined_rows → join_keys_ok join right_rows' joined_rows'.
Proof.
  intros Hr Hl Hok a b Hs l Hin. destruct (Hok a b Hs l (Hl l Hin)) as (Hv & Hq & Hc). split_and!; [done..|].
  intros r v w Hr'. apply (Hc r v w). by apply Hr.
Qed.

Lemma chain_keys_ok_pushed relations k joins rows pushed conditions joined_rows :
  Forall2 (λ join c, pushable (join_kind join) c) joins pushed → length joins = length rows →
  Forall (λ l, length conditions = length (members l)) joined_rows →
  chain_keys_ok relations k joins rows joined_rows →
  chain_keys_ok relations k joins (zip_with (λ c, filter (relation_holds c)) pushed rows) (filter (pushed_ok conditions) joined_rows).
Proof.
  intros Hk. revert k rows conditions joined_rows.
  induction Hk as [|join c joins pushed Hkind _ IH]; intros k [|right_rows rows] conditions joined_rows Hlen Hl Hok; try done.
  simpl in Hok |- *. destruct Hok as (Hc & Hnd & Hkeys & Hok). split_and!; [done| | |].
  - eapply sublist_NoDup; [exact Hnd|]. apply fmap_sublist, sublist_filter.
  - eapply join_keys_ok_mono; [| |exact Hkeys]; intros x Hx; by apply list_elem_of_filter in Hx as [_ ?].
  - rewrite nested_loop_pushed by done. apply IH; [naive_solver| |done].
    assert (keeps_right (join_kind join) = false) as Hr' by (by destruct Hkind as [-> | [[-> | ->] _]]).
    eapply Forall_impl; [apply (nested_loop_members _ join right_rows joined_rows (length conditions) Hr')|].
    + eapply Forall_impl; [exact Hl|]. done.
    + simpl. intros t Ht. rewrite length_app, Ht. simpl. lia.
Qed.

(** What the code computes for the conditions [pushed] of the joined relations. *)
Lemma join_all_chain access relations conditions k joins rows pushed joined_rows :
  no_indexes access → Forall2 (λ join, reads_all access (join_relation join)) joins rows →
  length pushed = length joins → (∀ i c, pushed !! i = Some c → conditions !! (S k + i)%nat = Some c ∧ never_fails c) →
  chain_keys_ok relations k joins (zip_with (λ c, filter (relation_holds c)) pushed rows) joined_rows →
  join_all access expression row_matches_relation relations conditions k joins joined_rows
  = Ok (nested_chain relations k joins (zip_with (λ c, filter (relation_holds c)) pushed rows) joined_rows).
Proof.
  intros Hi Hrows. revert k pushed joined_rows.
  induction Hrows as [|join all joins rows Hall _ IH]; intros k [|c pushed] joined_rows Hlen Hp Hok; try done.
  simpl in Hok |- *. destruct Hok as (Hc & Hnd & Hkeys & Hok). destruct (Hp 0%nat c eq_refl) as [Ec Hnf].
  rewrite Nat.add_0_r in Ec. rewrite Ec. simpl. destruct (Hall c) as (read & -> & Hread).
  rewrite right_rows_filter, Hread by done. rewrite join_rows_nested_loop by done. apply IH; [naive_solver| |done].
  intros i c' Hi'. destruct (Hp (S i) c' Hi') as [E Hn]. split; [|done]. by replace (S (S k) + i)%nat with (S k + S i)%nat by lia.
Qed.

(** ** Joined rows of the relations *)

(** The members are those of the relations, found by their qualifiers. *)
Definition tuple_of (relations : list SelectRelation) (tuple : JoinedRowTuple) : Prop :=
  length (members tuple) = length relations
  ∧ ∀ i relation, relations !! i = Some relation → member_indexes_by_qualifier tuple !! relation_qualifier relation = Some i.

Lemma tuple_of_push relations relation tuple member :
  NoDup (relation_qualifier <$> relations ++ [relation]) → tuple_of relations tuple →
  qualifier member = relation_qualifier relation → tuple_of (relations ++ [relation]) (push_member tuple member).
Proof.
  intros Hnd [Hlen Hidx] Hq. split; [simpl; rewrite !length_app, Hlen; simpl; lia|]. intros i r Hi. simpl. rewrite Hq.
  apply lookup_app_Some in Hi as [Hi|[Hge Hi]].
  - rewrite lookup_insert_ne; [by apply Hidx|]. rewrite fmap_app in Hnd. apply NoDup_app in Hnd as (_ & Hd & _).
    intros E. apply (Hd (relation_qualifier r)); [|simpl; rewrite E; by left]. apply list_elem_of_fmap. exists r. split; [done|].
    by eapply list_elem_of_lookup_2.
  - apply list_lookup_singleton_Some in Hi as [Hi ->]. rewrite lookup_insert_eq, Hlen. f_equal. lia.
Qed.

Lemma nested_loop_tuples relations rels join rows joined_rows :
  keeps_right (join_kind join) = false → NoDup (relation_qualifier <$> relations ++ [join_relation join]) →
  Forall (tuple_of relations) joined_rows →
  Forall (tuple_of (relations ++ [join_relation join])) (nested_loop_join expression rels join rows joined_rows).
Proof.
  intros Hr Hnd Hl. unfold nested_loop_join. rewrite Hr, app_nil_r. apply Forall_forall.
  intros t (l & Ht & Hin)%list_elem_of_bind. rewrite Forall_forall in Hl. specialize (Hl l Hin). unfold extend_left in Ht.
  destruct (is_empty _); [destruct (keeps_left _); [apply list_elem_of_singleton in Ht as ->|by apply elem_of_nil in Ht]|].
  - by apply tuple_of_push.
  - apply list_elem_of_fmap in Ht as (r & -> & _). by apply tuple_of_push.
Qed.

Lemma nested_chain_tuples all k joins rows relations joined_rows :
  Forall (λ join, keeps_right (join_kind join) = false) joins → length joins = length rows →
  NoDup (relation_qualifier <$> relations ++ (join_relation <$> joins)) → Forall (tuple_of relations) joined_rows →
  Forall (tuple_of (relations ++ (join_relation <$> joins))) (nested_chain all k joins rows joined_rows).
Proof.
  intros Hk. revert k rows relations joined_rows. induction Hk as [|join joins Hj _ IH]; intros k [|right_rows rows] relations joined_rows Hlen Hnd Hl; try done.
  - simpl. by rewrite app_nil_r.
  - simpl in Hnd |- *. rewrite cons_middle, app_assoc in Hnd |- *. apply IH; [naive_solver|done|]. apply nested_loop_tuples; [done| |done].
    rewrite fmap_app in Hnd. by apply NoDup_app in Hnd as (? & _ & _).
Qed.

(** ** The clauses of the condition *)

Lemma flatten_clauses p c clause :
  row_matches subqueries p c = Ok true → clause ∈ flatten_and_clauses c → row_matches subqueries p clause = Ok true.
Proof.
  induction c as [cs IH|cs IH|c IH|pr] using condition_ind'; intros Hm Hin; try (by apply list_elem_of_singleton in Hin as ->).
  simpl in Hm, Hin. induction IH as [|c cs Hc _ IHcs]; [by apply elem_of_nil in Hin|].
  destruct (row_matches subqueries p c) as [[]|e] eqn:E; simpl in Hm; try done.
  apply elem_of_app in Hin as [Hin|Hin]; [by apply Hc|by apply IHcs].
Qed.

Lemma combine_conditions_holds p cs :
  Forall (λ c, row_matches subqueries p c = Ok true) cs →
  row_matches_condition_with_result_and_expression subqueries p (combine_conditions cs) = Ok true.
Proof.
  intros Hcs. assert (row_matches subqueries p (CAnd cs) = Ok true) as Ha.
  { induction Hcs as [|c cs Hc _ IH]; [done|]. simpl. by rewrite Hc. }
  by destruct cs as [|c [|c' cs]]; [|inversion Hcs|].
Qed.

Lemma combine_conditions_ok p cs :
  Forall (λ c, is_ok (row_matches subqueries p c) = true) cs →
  is_ok (row_matches_condition_with_result_and_expression subqueries p (combine_conditions cs)) = true.
Proof.
  intros Hcs. assert (is_ok (row_matches subqueries p (CAnd cs)) = true) as Ha.
  { induction Hcs as [|c cs Hc _ IH]; [done|]. simpl. by destruct (row_matches subqueries p c) as [[]|e]. }
  by destruct cs as [|c [|c' cs]]; [|inversion Hcs|].
Qed.

(** The clauses pushed to a relation. *)
Definition pushes (lookup : gmap ustr nat) (joins : list (SelectJoin Subquery)) (i : nat) (clause localized : SelectCondition Subquery) : Prop :=
  relation_index_for_condition clause lookup = Some i ∧ is_safe_relation_pushdown i joins = true
  ∧ localize_condition_for_relation clause = Some localized.

Lemma pushed_clauses lookup joins clauses per i cs :
  foldl (push_clause lookup joins) per clauses !! i = Some cs →
  ∃ cs0, per !! i = Some cs0 ∧ ∀ c, c ∈ cs → c ∈ cs0 ∨ ∃ clause, clause ∈ clauses ∧ pushes lookup joins i clause c.
Proof.
  revert per. induction clauses as [|clause clauses IH]; intros per Hf; simpl in Hf; [eauto|].
  apply IH in Hf as (cs1 & H1' & Hcs). unfold push_clause in H1'.
  assert (∃ cs0, per !! i = Some cs0 ∧ ∀ c, c ∈ cs1 → c ∈ cs0 ∨ pushes lookup joins i clause c) as (cs0 & E0 & H0').
  { destruct (relation_index_for_condition clause lookup) as [j|] eqn:Ej; [|eauto].
    destruct (is_safe_relation_pushdown j joins) eqn:Es; [|eauto].
    destruct (localize_condition_for_relation clause) as [localized|] eqn:El; [|eauto].
    destruct (decide (i = j)) as [->|]; [|rewrite list_lookup_alter_ne in H1' by done; eauto].
    rewrite list_lookup_alter_eq in H1'. destruct (per !! j) as [cs0|]; simplify_eq/=. exists cs0. split; [done|].
    intros c [Hc|Hc%list_elem_of_singleton]%elem_of_app; [by left|]. subst. by right. }
  exists cs0. split; [done|]. intros c Hc. destruct (Hcs c Hc) as [Hc1|(cl & Hcl & Hp)]; [|right; exists cl; split; [by right|done]].
  destruct (H0' c Hc1) as [?|?]; [by left|]. right. exists clause. split; [by left|done].
Qed.

Definition plain_predicate (predicate : SelectPredicate Subquery) : bool :=
  match predicate with
  | PComparison _ _ _ | PLike _ _ _ _ _ | PRegex _ _ _ _ | PInList _ _ _ | PIsNull _ _ => true
  | _ => false
  end.

(** The clauses that are pushed have no subquery and name the field by the qualifier of its relation. *)
Definition plain_where (relations : list SelectRelation) condition : Prop :=
  ∀ clause i, clause ∈ flatten_and_clauses condition →
    relation_index_for_condition clause (build_relation_index_lookup relations) = Some i →
    ∃ predicate field_name column relation, clause = CPredicate predicate ∧ plain_predicate predicate = true
      ∧ predicate_field predicate = Some field_name ∧ relations !! i = Some relation
      ∧ split_field field_name = Some (relation_qualifier relation, column) ∧ split_field column = None.

Definition select_provider (p : provider) : provider := ChainedConditionValueProvider p (UnqualifiedFieldFallbackProvider p).

Lemma select_row_value row column : split_field column = None → select_provider (row_map_provider row) column = row !! column.
Proof.
  intros Hc. unfold select_provider, ChainedConditionValueProvider, UnqualifiedFieldFallbackProvider, row_map_provider.
  rewrite Hc. by destruct (row !! column).
Qed.

Lemma select_tuple_value tuple i member row field_name q column :
  split_field field_name = Some (q, column) → split_field column = None →
  member_indexes_by_qualifier tuple !! q = Some i → members tuple !! i = Some member → member_row_map member = Some row →
  select_provider (tuple_value tuple) field_name = row !! column.
Proof.
  intros Hf Hc Hi Hm Hr. assert (tuple_value tuple field_name = row !! column) as Ev.
  { unfold tuple_value. rewrite Hf. simpl. rewrite Hi. simpl. rewrite Hm. simpl. by rewrite Hr. }
  unfold select_provider, ChainedConditionValueProvider, UnqualifiedFieldFallbackProvider. rewrite Ev, Hf. simpl.
  destruct (row !! column); [done|]. unfold tuple_value. by rewrite Hc.
Qed.

Lemma localized_clause p p' predicate field_name localized :
  plain_predicate predicate = true → predicate_field predicate = Some field_name →
  localize_condition_for_relation (CPredicate predicate) = Some localized →
  p field_name = p' (unqualify_field_name field_name) →
  row_matches subqueries p' localized = row_matches subqueries p (CPredicate predicate)
  ∧ is_ok (row_matches subqueries p' localized) = true.
Proof. intros Hp Hf Hl Hv. destruct predicate; try done; simplify_eq/=; rewrite ?Hv; done. Qed.

Lemma localized_ok p predicate localized :
  plain_predicate predicate = true → localize_condition_for_relation (CPredicate predicate) = Some localized →
  is_ok (row_matches subqueries p localized) = true.
Proof. intros Hp Hl. destruct predicate; by simplify_eq/=. Qed.

Lemma derive_lookup condition relations joins i c :
  derive_relation_pushdown_conditions (Some condition) relations joins !! i = Some c →
  ∃ cs, c = combine_conditions cs ∧ ∀ localized, localized ∈ cs → ∃ clause,
    clause ∈ flatten_and_clauses condition ∧ pushes (build_relation_index_lookup relations) joins i clause localized.
Proof.
  unfold derive_relation_pushdown_conditions. rewrite list_lookup_fmap.
  intros (cs & Hcs & ->)%fmap_Some. exists cs. split; [done|]. apply pushed_clauses in Hcs as (cs0 & H0' & Hcs).
  apply lookup_replicate in H0' as [-> _]. intros localized Hl. destruct (Hcs localized Hl) as [Hn|?]; [by apply elem_of_nil in Hn|done].
Qed.

Lemma derive_length condition relations joins :
  length (derive_relation_pushdown_conditions (Some condition) relations joins) = length relations.
Proof.
  unfold derive_relation_pushdown_conditions. rewrite length_fmap.
  assert (∀ clauses (per : list (list (SelectCondition Subquery))) lookup,
            length (foldl (push_clause lookup joins) per clauses) = length per) as ->; [|by rewrite length_replicate].
  induction clauses as [|clause clauses IH]; intros per lookup; [done|]. simpl. rewrite IH. unfold push_clause.
  repeat case_match; rewrite ?length_alter; done.
Qed.

Lemma derive_never_fails condition relations joins i c :
  plain_where relations condition → derive_relation_pushdown_conditions (Some condition) relations joins !! i = Some c →
  never_fails c.
Proof.
  intros Hw (cs & -> & Hcs)%derive_lookup row. apply combine_conditions_ok, Forall_forall. intros localized Hl.
  destruct (Hcs localized Hl) as (clause & Hin & Hi & _ & Hloc).
  destruct (Hw clause i Hin Hi) as (predicate & _ & _ & _ & -> & Hp & _). by eapply localized_ok.
Qed.

(** A joined row that matches the condition has members that match the pushed conditions. *)
Lemma where_pushed condition relations joins tuple :
  plain_where relations condition → tuple_of relations tuple → where_holds condition tuple →
  pushed_ok (derive_relation_pushdown_conditions (Some condition) relations joins) tuple.
Proof.
  intros Hw [Hlen Hidx] Hm. unfold pushed_ok. apply forallb_forall. intros [c member] Hin.
  apply list_elem_of_In, list_elem_of_lookup in Hin as [i Hi]. rewrite lookup_zip_with in Hi.
  apply bind_Some in Hi as (c' & Hc & Hi). apply bind_Some in Hi as (member' & Hmem & [= -> ->]).
  unfold member_ok. destruct (member_row_map member) as [row|] eqn:Hrow; [|done].
  apply derive_lookup in Hc as (cs & -> & Hcs).
  unfold row_matches_relation, row_matches_select_condition_with_outer_result.
  rewrite combine_conditions_holds; [done|]. apply Forall_forall. intros localized Hl.
  destruct (Hcs localized Hl) as (clause & Hcl & Hci & _ & Hloc).
  destruct (Hw clause i Hcl Hci) as (predicate & field_name & column & relation & -> & Hp & Hf & Hrel & Hs & Hd).
  pose proof (flatten_clauses _ _ _ Hm Hcl) as Hclause.
  assert (select_provider (tuple_value tuple) field_name = select_provider (row_map_provider row) (unqualify_field_name field_name)) as Ev.
  { unfold unqualify_field_name. rewrite Hs, select_row_value by done. eapply select_tuple_value; eauto. }
  destruct (localized_clause _ _ predicate field_name localized Hp Hf Hloc Ev) as [El _]. by etransitivity; [exact El|].
Qed.

Definition keeps_left_rows (kind : SelectJoinKind) : Prop := kind = JInner ∨ kind = JLeft ∨ kind = JCross.

Lemma derive_pushable condition relations joins c pushed :
  Forall (λ join, keeps_left_rows (join_kind join)) joins → length relations = S (length joins) →
  derive_relation_pushdown_conditions (Some condition) relations joins = c :: pushed →
  Forall2 (λ join c, pushable (join_kind join) c) joins pushed.
Proof.
  intros Hk Hlen E. pose proof (derive_length condition relations joins) as Hl. rewrite E in Hl. simpl in Hl.
  apply Forall2_same_length_lookup. split; [lia|]. intros i join c' Hj Hc. rewrite Forall_forall in Hk.
  pose proof (Hk join (list_elem_of_lookup_2 _ _ _ Hj)) as Hkind.
  destruct (forallb (λ join, eqb (join_kind join) JInner) joins) eqn:Hinner.
  - left. rewrite forallb_forall in Hinner. apply eqb_eq, Hinner, list_elem_of_In. by eapply list_elem_of_lookup_2.
  - destruct Hkind as [?|Hkind]; [by left|right]. split; [done|].
    destruct (derive_lookup condition relations joins (S i) c') as (cs & -> & Hcs); [by rewrite E|].
    destruct cs as [|localized cs]; [done|]. destruct (Hcs localized (list_elem_of_here _ _)) as (clause & _ & _ & Hsafe & _).
    unfold is_safe_relation_pushdown in Hsafe. rewrite Hinner in Hsafe. by destruct joins.
Qed.

Lemma no_conditions_ok n tuple : pushed_ok (replicate n None) tuple.
Proof.
  unfold pushed_ok. generalize (members tuple). induction n as [|n IH]; intros ms; [done|]. destruct ms as [|m ms]; [done|].
  simpl. rewrite IH, andb_true_r. unfold member_ok. by destruct (member_row_map m).
Qed.

(** What the code computes, with the pushed conditions [c :: pushed]. *)
Lemma build_joined_chain access primary joins primary_rows rows c pushed :
  let relations := primary :: (join_relation <$> joins) in
  no_indexes access → reads_all access primary primary_rows →
  Forall2 (λ join, reads_all access (join_relation join)) joins rows →
  Forall2 (λ join c, pushable (join_kind join) c) joins pushed → Forall never_fails (c :: pushed) →
  chain_keys_ok relations 0 joins rows (from_relation_row primary <$> primary_rows) →
  build_joined_row_tuples access expression row_matches_relation relations (c :: pushed) joins
  = Ok (filter (pushed_ok (c :: pushed)) (nested_chain relations 0 joins rows (from_relation_row primary <$> primary_rows))).
Proof.
  intros relations Hi Hprimary Hrows Hpush Hnf Hok. unfold build_joined_row_tuples. simpl.
  inversion Hnf as [|? ? Hc Hnf']; subst. destruct (Hprimary c) as (read & -> & Hread).
  rewrite matching_rows_filter, Hread by done.
  assert (from_relation_row primary <$> filter (relation_holds c) primary_rows
          = filter (pushed_ok [c]) (from_relation_row primary <$> primary_rows)) as ->.
  { rewrite filter_fmap. f_equal. apply list_filter_iff. intros r. unfold pushed_ok, member_ok, relation_holds. simpl. by rewrite andb_true_r. }
  pose proof (Forall2_length _ _ _ Hrows) as Hl1. pose proof (Forall2_length _ _ _ Hpush) as Hl2.
  assert (Forall (λ l, length [c] = length (members l)) (from_relation_row primary <$> primary_rows)) as Hlen.
  { apply Forall_forall. by intros t (r & -> & _)%list_elem_of_fmap. }
  rewrite (join_all_chain _ _ _ _ _ rows pushed); [|done..| |by apply chain_keys_ok_pushed].
  - by rewrite (nested_chain_pushed _ _ _ rows pushed [c]).
  - intros i c' Hc'. split; [done|]. rewrite Forall_forall in Hnf'. apply Hnf'. by eapply list_elem_of_lookup_2.
Qed.


(** ** Right joins *)

Lemma primary_index primary relations : build_relation_index_lookup (primary :: relations) !! relation_qualifier primary = Some 0.
Proof.
  unfold build_relation_index_lookup, relation_qualifier. rewrite imap_cons. cbn [foldl].
  assert (∀ (bindings : list (nat * SelectRelation)) m q i, m !! q = Some i →
    foldl (λ m '(index, binding), let m := insert_if_absent (rel_table_id binding) index m in
             match rel_alias binding with Some alias => insert_if_absent alias index m | None => m end) m bindings !! q = Some i) as Hkeep.
  { assert (∀ k j (m : gmap ustr nat) q i, m !! q = Some i → insert_if_absent k j m !! q = Some i) as Hone.
    { intros k j m q i Hq. unfold insert_if_absent. destruct (m !! k) eqn:Ek; [done|]. rewrite lookup_insert_ne; [done|congruence]. }
    induction bindings as [|[j binding] bindings IH]; intros m q i Hq; [done|]. simpl. apply IH.
    destruct (rel_alias binding); auto. }
  apply Hkeep. unfold insert_if_absent. rewrite lookup_empty. destruct (rel_alias primary) as [alias|]; simpl; [|by rewrite lookup_insert_eq].
  destruct (decide (rel_table_id primary = alias)) as [->|Hne]; [by rewrite !lookup_insert_eq|].
  rewrite lookup_insert_ne, lookup_empty by done. by rewrite lookup_insert_eq.
Qed.

Lemma is_null_holds tuple field_name :
  where_holds (CPredicate (PIsNull field_name false)) tuple ↔ select_provider (tuple_value tuple) field_name = None.
Proof.
  unfold where_holds, row_matches_joined, row_matches_select_condition_with_outer_result. simpl.
  change (ChainedConditionValueProvider _ _) with (select_provider (tuple_value tuple)).
  by destruct (select_provider (tuple_value tuple) field_name).
Qed.

Lemma missing_value primary relation r column field_name :
  split_field field_name = Some (relation_qualifier primary, column) → split_field column = None →
  relation_qualifier primary ≠ relation_qualifier relation →
  select_provider (tuple_value (append (from_missing_relations [primary]) relation r)) field_name = None.
Proof.
  intros Hs Hd Hne. unfold select_provider, ChainedConditionValueProvider, UnqualifiedFieldFallbackProvider, tuple_value.
  rewrite Hs. simpl. rewrite lookup_insert_ne, lookup_insert_eq by done. simpl. by rewrite Hd.
Qed.

Lemma right_join_of_two access primary join l r c :
  join_kind join = JRight → comparisons_only (on_condition join) = true → never_fails c →
  (∀ c, table_rows access (rel_table_id primary) c = Some [l]) →
  (∀ c, table_rows access (rel_table_id (join_relation join)) c = Some [r]) →
  join_keys_ok join [mat_row r] [from_relation_row primary (mat_row l)] →
  build_joined_row_tuples access expression row_matches_relation [primary; join_relation join] [c; None] [join]
  = Ok (nested_loop_join expression [primary] join [mat_row r] (from_relation_row primary <$> filter (relation_holds c) [mat_row l])).
Proof.
  intros Hk Hc Hnf Hl Hr Hkeys. unfold build_joined_row_tuples. cbn [lookup list_lookup default join_all]. simpl default.
  rewrite Hl, matching_rows_filter by done. simpl. rewrite Hr. unfold right_rows_for. rewrite Hk.
  rewrite matching_rows_filter by done. rewrite (filter_all (relation_holds None)) by (by apply Forall_forall).
  rewrite join_rows_nested_loop; [done|done|apply NoDup_singleton|].
  eapply join_keys_ok_mono; [| |exact Hkeys]; [done|]. intros t (x & -> & [_ Hx]%list_elem_of_filter)%list_elem_of_fmap.
  apply list_elem_of_singleton in Hx as ->. by left.
Qed.

(** C35: with a right join the condition [a.x IS NULL], which asks for the rows of [b] without a partner in [a], also
    returns the rows of [b] that have one: the rows of [a] are filtered by the condition before the join, so they are no
    longer there as partners. *)
Theorem pushdown_right_join_adds_rows access primary join l r v column field_name :
  let relations := [primary; join_relation join] in
  let condition := CPredicate (PIsNull field_name false) in
  join_kind join = JRight → comparisons_only (on_condition join) = true →
  relation_qualifier primary ≠ relation_qualifier (join_relation join) →
  split_field field_name = Some (relation_qualifier primary, column) → split_field column = None →
  (∀ c, table_rows access (rel_table_id primary) c = Some [l]) →
  (∀ c, table_rows access (rel_table_id (join_relation join)) c = Some [r]) →
  l.2 !! column = Some v → join_keys_ok join [mat_row r] [from_relation_row primary (mat_row l)] →
  pair_holds expression join (from_relation_row primary (mat_row l)) (mat_row r) = true →
  ∃ t t',
    build_joined_row_tuples access expression row_matches_relation relations [None; None] [join] = Ok [t] ∧ ¬ where_holds condition t
    ∧ build_joined_row_tuples access expression row_matches_relation relations
        (derive_relation_pushdown_conditions (Some condition) relations [join]) [join] = Ok [t'] ∧ where_holds condition t'.
Proof.
  intros relations condition Hk Hc Hne Hs Hd Hl Hr Hv Hkeys Hp. destruct l as [lid lrow], r as [rid rrow].
  set (tl := from_relation_row primary (mat_row (lid, lrow))) in *. set (mr := mat_row (rid, rrow)) in *.
  assert (relation_holds (Some (CPredicate (PIsNull column false))) (mat_row (lid, lrow)) → False) as Hfilter.
  { unfold relation_holds, row_matches_relation, row_matches_select_condition_with_outer_result. simpl.
    change (ChainedConditionValueProvider _ _) with (select_provider (row_map_provider lrow)). rewrite select_row_value by done.
    simpl in Hv. by rewrite Hv. }
  exists (append tl (join_relation join) mr), (append (from_missing_relations [primary]) (join_relation join) mr).
  split_and!.
  - unfold relations. rewrite (right_join_of_two _ _ _ (lid, lrow) (rid, rrow)) by done. fold mr. rewrite (filter_all (relation_holds None)) by (by apply Forall_forall).
    csimpl. fold tl. unfold nested_loop_join, extend_left. rewrite Hk. simpl. rewrite app_nil_r, filter_cons_True, filter_nil by done. simpl.
    rewrite filter_none; [done|]. apply Forall_singleton. intros Hf. inversion Hf. congruence.
  - unfold condition. rewrite is_null_holds. rewrite (select_tuple_value _ 0 (present_member primary (mat_row (lid, lrow))) lrow _ _ _ Hs Hd); [|by simplify_map_eq|done|done].
    simpl in Hv. by rewrite Hv.
  - assert (derive_relation_pushdown_conditions (Some condition) relations [join] = [Some (CPredicate (PIsNull column false)); None]) as ->.
    { unfold derive_relation_pushdown_conditions. simpl. unfold push_clause. simpl. rewrite Hs. simpl.
      unfold relations. rewrite primary_index. simpl. unfold unqualify_field_name. by rewrite Hs. }
    unfold relations. rewrite (right_join_of_two _ _ _ (lid, lrow) (rid, rrow)) by done. fold mr.
    rewrite (filter_none (relation_holds _)) by (by apply Forall_singleton). unfold nested_loop_join. rewrite Hk. simpl.
    reflexivity.
  - apply is_null_holds. by apply (missing_value _ _ _ column).
Qed.
End pushdown.
