(* ===== verification/SelectPlan.v ===== *)
(** * Query plans and the processing of result rows

    Models the plan types of [serverlib/src/engine/sql/types.rs], [serverlib/src/engine/execution/row_windowing.rs] and
    [execution/commands/select/post_processing.rs]: what happens to the projected rows of a query: DISTINCT, ORDER BY,
    window functions, QUALIFY, LIMIT BY, percentages, ties, LIMIT and OFFSET.  Of a plan the fields are kept that the
    executors read.  A function call and a named window are syntax trees of the sqlparser crate, and values of any type
    here; the window functions are a parameter.  [slice::sort_by], which orders as it likes or panics when the given
    comparison is not a total order, is the class [SortBy] with its contract.  The processing panics on some plans, so
    its result is an [outcome]. *)

From Stdlib Require Import ZArith Lia Strings.Byte.
From stdpp Require Import base gmap list strings sorting.
From S2P Require Import Prelude Text Float64 Schema RowCodec FieldValue Predicates Conditions.

Local Open Scope Z_scope.

(** ** Plans *)

Section plans.
Context {Subquery Function NamedWindow : Type}.

Record SelectOrderByItem := mkSelectOrderByItem {
  order_field_name : ustr;
  descending : bool;
  order_function : option Function
}.

Inductive SelectExpression :=
  | ENull
  | ELiteral (value : bytes)
  | EColumn (field_name : ustr)
  | EInbuiltFunction (function : Function).

Inductive SelectCaseWhen :=
  | WhenCondition (condition : SelectCondition Subquery)
  | WhenEquals (expected : SelectExpression).

Inductive SelectProjectionItem :=
  | IColumn (field_name output_name : ustr)
  | ICase (output_name : ustr) (operand : option SelectExpression) (branches : list (SelectCaseWhen * SelectExpression))
      (else_value : option SelectExpression)
  | IWildcard (relation : option ustr)
  | IInbuiltFunction (output_name : ustr) (function : Function)
  | IWindowFunction (output_name : ustr) (function : Function).

Record SelectLimitByPlan := mkSelectLimitByPlan { per_key_limit : Z; limit_by_fields : list ustr }.

Record SelectReadPlan := mkSelectReadPlan {
  plan_table_id : ustr;
  plan_relations : list SelectRelation;
  plan_joins : list (SelectJoin Subquery);
  plan_pushdown_conditions : list (option (SelectCondition Subquery));
  plan_named_windows : list NamedWindow;
  plan_projection_items : list SelectProjectionItem;
  plan_distinct : bool;
  plan_order_by : list SelectOrderByItem;
  plan_group_by : list ustr;
  plan_having_condition : option (SelectCondition Subquery);
  plan_has_window_clause : bool;
  plan_limit_by : option SelectLimitByPlan;
  plan_top_percent : option Z;
  plan_top_percent_with_ties : option Z;
  plan_top_with_ties_limit : option Z;
  plan_fetch_percent : option Z;
  plan_fetch_percent_with_ties : option Z;
  plan_fetch_with_ties_limit : option Z;
  plan_limit : option Z;
  plan_offset : option Z;
  plan_where_condition : option (SelectCondition Subquery);
  plan_qualify_condition : option (SelectCondition Subquery);
  plan_is_explain : bool
}.
End plans.
Arguments SelectOrderByItem : clear implicits.
Arguments SelectExpression : clear implicits.
Arguments SelectCaseWhen : clear implicits.
Arguments SelectProjectionItem : clear implicits.
Arguments SelectReadPlan : clear implicits.

(** ** Windows of rows *)

Abbreviation result_row := (list bytes).

Definition saturating_mul (a b : Z) : Z := Z.min (a * b) usize_max.

(** The number of rows that a percentage of them is, rounded up. *)
Definition percent_of (total_rows percent : Z) : Z :=
  saturating_add (saturating_mul total_rows (Z.min percent 100)) 99 / 100.

Definition apply_percent_rows (rows : list result_row) (percent : option Z) : list result_row :=
  match percent with
  | None => rows
  | Some percent =>
      if is_empty rows || (percent =? 0) then []
      else take (Z.to_nat (percent_of (Z.of_nat (length rows)) percent)) rows
  end.

(** The loop that includes the rows behind the limit with the values of the row at the limit. *)
Fixpoint ties (same : result_row → bool) (rows : list result_row) : nat :=
  match rows with
  | row :: rows => if same row then S (ties same rows) else O
  | [] => O
  end.

Definition apply_with_ties_rows (rows : list result_row) (order_indexes : list nat) (with_ties_limit : option Z) :
    list result_row :=
  match with_ties_limit with
  | None => rows
  | Some limit =>
      if (limit =? 0) || is_empty rows then []
      else if Z.of_nat (length rows) <=? limit then rows
      else
        let limit := Z.to_nat limit in
        if is_empty order_indexes then take limit rows
        else
          let boundary := default [] (rows !! (limit - 1)%nat) in
          let same row := forallb (λ index, bool_decide ((row : result_row) !! index = boundary !! index)) order_indexes in
          take (limit + ties same (drop limit rows)) rows
  end.

(** [collect] into a [HashMap]: of columns with the same name the last one is found. *)
Definition column_index_map (columns : list FieldDef) : gmap ustr nat :=
  foldl (λ m '(index, column), <[field_name column := index]> m) ∅ (imap pair columns).

Fixpoint key_indexes (columns : gmap ustr nat) (error : string) (fields : list ustr) : result (list nat) string :=
  match fields with
  | [] => Ok []
  | field :: fields =>
      match columns !! field with
      | None => Err error
      | Some index => let? indexes := key_indexes columns error fields in Ok (index :: indexes)
      end
  end.

Fixpoint limit_per_key (key : result_row → list bytes) (limit : Z) (counts : gmap (list bytes) Z) (rows : list result_row) :
    list result_row :=
  match rows with
  | [] => []
  | row :: rows =>
      let count := default 0 (counts !! key row) in
      if count <? limit then row :: limit_per_key key limit (<[key row := count + 1]> counts) rows
      else limit_per_key key limit (<[key row := count]> counts) rows
  end.

Definition apply_limit_by_rows (rows : list result_row) (columns : list FieldDef) (limit_by : option SelectLimitByPlan)
    (missing_column_error_prefix : string) : result (list result_row) string :=
  match limit_by with
  | None => Ok rows
  | Some limit_by =>
      let? indexes := key_indexes (column_index_map columns) missing_column_error_prefix (limit_by_fields limit_by) in
      let key row := (λ index, default [] ((row : result_row) !! index)) <$> indexes in
      Ok (limit_per_key key (per_key_limit limit_by) ∅ rows)
  end.

Definition apply_row_window (rows : list result_row) (limit offset : option Z) : list result_row :=
  let len := Z.of_nat (length rows) in
  let start := Z.min (default 0 offset) len in
  let stop := match limit with Some limit => Z.min (saturating_add start limit) len | None => len end in
  take (Z.to_nat (saturating_sub stop start)) (drop (Z.to_nat start) rows).

(** ** Panics *)

(** A result, or [None] when the code panics. *)
Abbreviation outcome A := (option (result A string)).

Notation "'let!' x ':=' e 'in' k" :=
  (match e with Some (Ok x) => k | Some (Err err) => Some (Err err) | None => None end)
  (at level 10, x pattern, e at level 100, k at level 200) : distdb_scope.

(** ** Sorting *)

(** [None] stands for the panic that the documentation allows. *)
Class SortBy := { sort_by : ∀ A : Type, (A → A → comparison) → list A → option (list A) }.

Definition comparison_le (c : comparison) : bool := match c with Gt => false | _ => true end.

(** A comparison is an order on the elements of a list. *)
Record orders {A} (cmp : A → A → comparison) (l : list A) : Prop := {
  orders_opp x y : x ∈ l → y ∈ l → cmp y x = CompOpp (cmp x y);
  orders_trans x y z : x ∈ l → y ∈ l → z ∈ l →
    comparison_le (cmp x y) = true → comparison_le (cmp y z) = true → comparison_le (cmp x z) = true
}.

(** Sorting that leaves equal elements as they were. *)
Fixpoint insert_ordered {A} (cmp : A → A → comparison) (x : A) (l : list A) : list A :=
  match l with
  | [] => [x]
  | y :: l' => if comparison_le (cmp x y) then x :: l else y :: insert_ordered cmp x l'
  end.

Definition stable_sort {A} (cmp : A → A → comparison) (l : list A) : list A := foldr (insert_ordered cmp) [] l.

(** The sort is stable for an order, and where it returns it keeps the elements, whatever the comparison is. *)
Class SortByLaws `{SortBy} := {
  sort_by_stable A (cmp : A → A → comparison) l : orders cmp l → sort_by A cmp l = Some (stable_sort cmp l);
  sort_by_permutation A (cmp : A → A → comparison) l l' : sort_by A cmp l = Some l' → l' ≡ₚ l
}.

(** ** Processing of result rows *)

Section post_processing.
Context {Subquery Function NamedWindow : Type} `{FieldValues} `{UuidText} `{RegexEngine} `{SortBy}.
Context (expression : provider → ustr → result (option bytes) string).
Context (apply_window_function : nat → Function → list FieldDef → list NamedWindow → list result_row → outcome (list result_row)).

Abbreviation plan := (SelectReadPlan Subquery Function NamedWindow).
Abbreviation item := (SelectProjectionItem Subquery Function).

Definition is_hidden (column : FieldDef) : bool :=
  match metadata column with Some metadata => eqb (system_visibility metadata) Hidden | None => false end.

Definition visible_indexes (columns : list FieldDef) : list nat :=
  omap (λ '(index, column), if is_hidden column then None else Some index) (imap pair columns).

Fixpoint unique_rows (key : result_row → list bytes) (seen : gset (list bytes)) (rows : list result_row) : list result_row :=
  match rows with
  | [] => []
  | row :: rows =>
      if bool_decide (key row ∈ seen) then unique_rows key seen rows
      else row :: unique_rows key ({[key row]} ∪ seen) rows
  end.

Definition distinct_rows (columns : list FieldDef) (rows : list result_row) : list result_row :=
  let visible := visible_indexes columns in
  if Nat.eqb (length visible) (length columns) then unique_rows (λ row, row) ∅ rows
  else unique_rows (λ row, omap (λ index, row !! index) visible) ∅ rows.

(** The columns with a name, in any case. *)
Definition columns_named (columns : list FieldDef) (name : ustr) : list nat :=
  omap (λ '(index, column), if eq_ignore_ascii_case (field_name column) name then Some index else None) (imap pair columns).

(** The argument of [then_some] is evaluated first: [matches[0]] panics when no column has the name. *)
Definition sort_index (columns : list FieldDef) (name : ustr) : option (option nat) :=
  match column_index_map columns !! name with
  | Some index => Some (Some index)
  | None =>
      match rsplit_once name (lit ".") with
      | None => Some None
      | Some (_, unqualified) =>
          match columns_named columns unqualified with
          | [] => None
          | [index] => Some (Some index)
          | _ => Some None
          end
      end
  end.

Fixpoint sort_indexes (columns : list FieldDef) (order_by : list (SelectOrderByItem Function)) : option (list (nat * bool)) :=
  match order_by with
  | [] => Some []
  | order :: order_by =>
      index ← sort_index columns (order_field_name order);
      indexes ← sort_indexes columns order_by;
      Some (match index with Some index => (index, descending order) :: indexes | None => indexes end)
  end.

Definition compare_order_by_values (lhs rhs : option bytes) : comparison :=
  match lhs, rhs with
  | None, None => Eq
  | None, Some _ => Lt
  | Some _, None => Gt
  | Some lhs, Some rhs =>
      match from_utf8 lhs ≫= (λ text, parse_f64 (trim text)), from_utf8 rhs ≫= (λ text, parse_f64 (trim text)) with
      | Some left_number, Some right_number => default Eq (partial_cmp left_number right_number)
      | _, _ => bytes_compare lhs rhs
      end
  end.

Fixpoint compare_rows (indexes : list (nat * bool)) (lhs rhs : result_row) : comparison :=
  match indexes with
  | [] => Eq
  | (index, descending) :: indexes =>
      match compare_order_by_values (lhs !! index) (rhs !! index) with
      | Eq => compare_rows indexes lhs rhs
      | ordering => if descending then CompOpp ordering else ordering
      end
  end.

Definition sorted_rows (columns : list FieldDef) (order_by : list (SelectOrderByItem Function)) (rows : list result_row) :
    option (list result_row) :=
  indexes ← sort_indexes columns order_by;
  if is_empty indexes then Some rows else sort_by result_row (compare_rows indexes) rows.

Fixpoint apply_windows (columns : list FieldDef) (named_windows : list NamedWindow) (items : list (nat * item))
    (rows : list result_row) : outcome (list result_row) :=
  match items with
  | [] => Some (Ok rows)
  | (index, IWindowFunction _ function) :: items =>
      let! rows := apply_window_function index function columns named_windows rows in
      apply_windows columns named_windows items rows
  | _ :: items => apply_windows columns named_windows items rows
  end.

Definition apply_window_projection_values (rows : list result_row) (columns : list FieldDef) (projection_items : list item)
    (named_windows : list NamedWindow) : outcome (list result_row) :=
  apply_windows columns named_windows (imap pair projection_items) rows.

(** QUALIFY has no subqueries. *)
Definition qualify_subqueries : Subqueries Subquery :=
  let error := "QUALIFY subquery predicates are not supported in post-window evaluation"%string in
  mkSubqueries (λ _ _, Err error) (λ _ _, Err error) (λ _ _, Err error) expression.

Definition QualifyRowProvider (field_indexes : gmap ustr nat) (row : result_row) : provider := λ field_name,
  index ← field_indexes !! field_name; row !! index.

Fixpoint filter_rows (matches : result_row → result bool string) (rows : list result_row) : result (list result_row) string :=
  match rows with
  | [] => Ok []
  | row :: rows =>
      let? matched := matches row in
      let? rest := filter_rows matches rows in
      Ok (if matched : bool then row :: rest else rest)
  end.

Definition apply_qualify_post_filter (rows : list result_row) (columns : list FieldDef)
    (qualify_condition : option (SelectCondition Subquery)) : result (list result_row) string :=
  match qualify_condition with
  | None => Ok rows
  | Some condition =>
      filter_rows (λ row, row_matches qualify_subqueries (QualifyRowProvider (column_index_map columns) row) condition) rows
  end.

Definition resolve_order_by_projection_index (columns : list FieldDef) (field_name : ustr) : option nat :=
  match columns_named columns field_name with
  | index :: _ => Some index
  | [] =>
      '(_, unqualified) ← split_field field_name;
      match columns_named columns unqualified with [index] => Some index | _ => None end
  end.

Fixpoint tie_indexes (columns : list FieldDef) (order_by : list (SelectOrderByItem Function)) : result (list nat) string :=
  match order_by with
  | [] => Ok []
  | order :: order_by =>
      match resolve_order_by_projection_index columns (order_field_name order) with
      | None => Err "select failed: TOP WITH TIES ORDER BY column is not present in result projection"%string
      | Some index => let? indexes := tie_indexes columns order_by in Ok (index :: indexes)
      end
  end.

Definition apply_top_with_ties_post_filter (rows : list result_row) (columns : list FieldDef)
    (order_by : list (SelectOrderByItem Function)) (top_with_ties_limit : option Z) : result (list result_row) string :=
  let? indexes := tie_indexes columns order_by in Ok (apply_with_ties_rows rows indexes top_with_ties_limit).

Definition apply_fetch_percent_post_filter (rows : list result_row) (columns : list FieldDef)
    (order_by : list (SelectOrderByItem Function)) (fetch_percent fetch_percent_with_ties : option Z) :
    result (list result_row) string :=
  match fetch_percent_with_ties with
  | Some percent =>
      if is_empty rows || (percent =? 0) then Ok []
      else apply_top_with_ties_post_filter rows columns order_by (Some (percent_of (Z.of_nat (length rows)) percent))
  | None => Ok (apply_percent_rows rows fetch_percent)
  end.

Definition apply_post_filters (rows : list result_row) (columns : list FieldDef) (read_plan : plan) :
    result (list result_row) string :=
  let order_by := plan_order_by read_plan in
  let? rows := apply_qualify_post_filter rows columns (plan_qualify_condition read_plan) in
  let? rows := apply_limit_by_rows rows columns (plan_limit_by read_plan) "select failed: LIMIT BY column"%string in
  let rows := apply_percent_rows rows (plan_top_percent read_plan) in
  let? rows := apply_fetch_percent_post_filter rows columns order_by None (plan_top_percent_with_ties read_plan) in
  let? rows :=
    apply_fetch_percent_post_filter rows columns order_by (plan_fetch_percent read_plan)
      (plan_fetch_percent_with_ties read_plan) in
  let? rows := apply_top_with_ties_post_filter rows columns order_by (plan_top_with_ties_limit read_plan) in
  let? rows := apply_top_with_ties_post_filter rows columns order_by (plan_fetch_with_ties_limit read_plan) in
  Ok (apply_row_window rows (plan_limit read_plan) (plan_offset read_plan)).

Definition apply_select_post_processing (rows : list result_row) (columns : list FieldDef) (read_plan : plan)
    (projection_items : list item) : outcome (list result_row) :=
  let rows := if plan_distinct read_plan then distinct_rows columns rows else rows in
  rows ← (if is_empty (plan_order_by read_plan) then Some rows else sorted_rows columns (plan_order_by read_plan) rows);
  let! rows := apply_window_projection_values rows columns projection_items (plan_named_windows read_plan) in
  Some (apply_post_filters rows columns read_plan).

(** [FieldMetadata::default]. *)
Definition default_field_metadata : FieldMetadata := {|
  comment := None; auto_increment := false; unique := false; original_sql_type := None;
  character_set := None; collation := None; system_visibility := Visible
|}.

Definition hide (m : FieldMetadata) : FieldMetadata := {|
  comment := comment m; auto_increment := auto_increment m; unique := unique m; original_sql_type := original_sql_type m;
  character_set := character_set m; collation := collation m; system_visibility := Hidden
|}.

Definition column_metadata_with_visibility (metadata : option FieldMetadata) (hidden : bool) : option FieldMetadata :=
  if hidden then Some (hide (default default_field_metadata metadata)) else metadata.

Definition with_seqno (n : Z) (column : FieldDef) : FieldDef := {|
  seqno := n; field_name := field_name column; field_type := field_type column; nullable := nullable column;
  indexed := indexed column; default_value := default_value column; metadata := metadata column
|}.

(** A row has a value for each column. *)
Definition strip_hidden_output_columns (columns : list FieldDef) (rows : list result_row) :
    list FieldDef * list result_row :=
  let visible := visible_indexes columns in
  if Nat.eqb (length visible) (length columns) then (columns, rows)
  else
    (imap (λ i column, with_seqno ((Z.of_nat i + 1) mod 2 ^ 32) column) (filter (λ column, is_hidden column = false) columns),
     (λ row, omap (λ '(index, value), if bool_decide (index ∈ visible) then Some value else None) (imap pair row)) <$> rows).
End post_processing.
