(* ===== verification/SelectExec.v ===== *)
(** * Execution of queries

    Models [serverlib/src/engine/execution/commands/select/join.rs] and [execute.rs] and the CASE projection of
    [commands/control_flow/case_when.rs]: from a plan over the rows of a table, over joined rows, or over nothing, to the
    columns and rows of the result.  The rows of a table come from the record [RelationSource], with the limit that the
    executor asks for; the value of a function call is a parameter, and so is the result of EXPLAIN.  A panic is the
    [outcome] [None]. *)

From Stdlib Require Import ZArith Lia Strings.Byte.
From stdpp Require Import base gmap list strings sorting.
From S2P Require Import Prelude Text Schema RowCodec FieldValue Predicates Conditions Joins SelectPlan.

Local Open Scope Z_scope.

Record SelectExecutionResult := mkSelectExecutionResult {
  result_columns : list FieldDef;
  result_rows : list result_row
}.

(** What the executor uses of the access to a table with the chosen plan: [materialize_relation_rows_with_limit],
    [load_live_row_count] and [count_star_indexed_equality_fast_path]. *)
Record RelationSource := mkRelationSource {
  source_rows : option Z → list (Z * row_map);
  source_row_count : Z;
  source_indexed_count : option Z
}.

Section executor.
Context {Subquery Function NamedWindow : Type} `{FieldValues} `{UuidText} `{RegexEngine} `{SortBy} `{KeySetOrder}.
Context (expression : provider → ustr → result (option bytes) string).
Context (apply_window_function : nat → Function → list FieldDef → list NamedWindow → list result_row → outcome (list result_row)).
Context (evaluate_function : Function → provider → result (option bytes) string).
Context (sql_function_references_column function_is_count_star : Function → bool).

Abbreviation plan := (SelectReadPlan Subquery Function NamedWindow).
Abbreviation item := (SelectProjectionItem Subquery Function).

(** ** CASE *)

Definition rendered (p : provider) : provider := λ field_name, render_stored_field_value <$> p field_name.

Definition resolve_case_value (p : provider) (value : SelectExpression Function) : result (option bytes) string :=
  match value with
  | ENull => Ok None
  | ELiteral value => Ok (Some value)
  | EColumn field_name => Ok (rendered p field_name)
  | EInbuiltFunction function =>
      map_err (λ _, "case evaluation function failed"%string) (evaluate_function function (rendered p))
  end.

Definition resolve_optional (p : provider) (value : option (SelectExpression Function)) : result (option bytes) string :=
  match value with None => Ok None | Some value => resolve_case_value p value end.

Definition branch_matches (p : provider) (operand : option bytes) (branch_when : SelectCaseWhen Subquery Function) :
    result bool string :=
  match branch_when with
  | WhenCondition condition => row_matches (without_subqueries expression) p condition
  | WhenEquals expected =>
      let? expected := resolve_case_value p expected in
      Ok (match operand, expected with Some lhs, Some rhs => compare_row_value lhs rhs CmpEq | _, _ => false end)
  end.

Fixpoint first_branch (p : provider) (operand : option bytes)
    (branches : list (SelectCaseWhen Subquery Function * SelectExpression Function))
    (else_value : option (SelectExpression Function)) : result (option bytes) string :=
  match branches with
  | [] => resolve_optional p else_value
  | (branch_when, value) :: branches =>
      let? matched := branch_matches p operand branch_when in
      if matched : bool then resolve_case_value p value else first_branch p operand branches else_value
  end.

Definition evaluate_case_projection (p : provider) (operand : option (SelectExpression Function))
    (branches : list (SelectCaseWhen Subquery Function * SelectExpression Function))
    (else_value : option (SelectExpression Function)) : result (option bytes) string :=
  let? operand := resolve_optional p operand in first_branch p operand branches else_value.

(** ** How many rows are needed *)

Definition select_requires_full_result_materialization (read_plan : plan) : bool :=
  plan_distinct read_plan || negb (is_empty (plan_order_by read_plan)) || negb (is_empty (plan_group_by read_plan))
  || negb (is_none (plan_having_condition read_plan)) || negb (is_empty (plan_named_windows read_plan))
  || plan_has_window_clause read_plan || negb (is_none (plan_limit_by read_plan))
  || negb (is_none (plan_top_percent read_plan)) || negb (is_none (plan_top_percent_with_ties read_plan))
  || negb (is_none (plan_top_with_ties_limit read_plan)) || negb (is_none (plan_fetch_percent read_plan))
  || negb (is_none (plan_fetch_percent_with_ties read_plan)) || negb (is_none (plan_fetch_with_ties_limit read_plan))
  || negb (is_none (plan_qualify_condition read_plan)).

Definition select_explicit_result_row_bound (read_plan : plan) : option Z :=
  (λ limit, saturating_add limit (default 0 (plan_offset read_plan))) <$> plan_limit read_plan.

(** The smaller one of two optional bounds. *)
Definition min_bound (a b : option Z) : option Z :=
  match a, b with
  | Some a, Some b => Some (Z.min a b)
  | Some a, None => Some a
  | None, b => b
  end.

Definition effective_result_row_bound (read_plan : plan) (forced_row_bound : option Z) : option Z :=
  if select_requires_full_result_materialization read_plan then None
  else min_bound (select_explicit_result_row_bound read_plan) forced_row_bound.

Definition simple_unordered_relation_row_limit (read_plan : plan) : option Z :=
  if negb (default 0 (plan_offset read_plan) =? 0) then None
  else if negb (is_empty (plan_joins read_plan)) || select_requires_full_result_materialization read_plan
          || negb (is_none (plan_where_condition read_plan)) then None
  else plan_limit read_plan.

(** ** Projection *)

Definition projection_output_name (projection_item : item) : ustr :=
  match projection_item with
  | IColumn _ output_name | ICase output_name _ _ _ | IInbuiltFunction output_name _ | IWindowFunction output_name _ => output_name
  | IWildcard relation => default [] relation
  end.

Definition covers (name : ustr) (projection_item : item) : bool :=
  match projection_item with
  | IColumn field_name output_name => str_eqb field_name name || str_eqb output_name name
  | ICase output_name _ _ _ | IInbuiltFunction output_name _ | IWindowFunction output_name _ => str_eqb output_name name
  | IWildcard _ => false
  end.

(** An item is added for a name that no item covers. *)
Definition cover (name : ustr) (new_item : item) (projection_items : list item) : list item :=
  if existsb (covers name) projection_items then projection_items else projection_items ++ [new_item].

Fixpoint collect_condition_field_names_recursive (condition : SelectCondition Subquery) : list ustr :=
  match condition with
  | CAnd children | COr children =>
      (fix collect children :=
         match children with
         | [] => []
         | child :: children => collect_condition_field_names_recursive child ++ collect children
         end) children
  | CNot child => collect_condition_field_names_recursive child
  | CPredicate predicate =>
      match predicate with
      | PComparison field_name _ _ | PLike field_name _ _ _ _ | PRegex field_name _ _ _ | PInList field_name _ _
      | PIsNull field_name _ | PInSubquery field_name _ _ | PScalarSubqueryComparison field_name _ _
      | PAnySubqueryComparison field_name _ _ | PAllSubqueryComparison field_name _ _ => [field_name]
      | PFieldComparison left_field_name _ right_field_name => [left_field_name; right_field_name]
      | PExpressionComparison _ _ _ | PExists _ _ => []
      end
  end.

(** [Vec::dedup]. *)
Fixpoint dedup_names (l : list ustr) : list ustr :=
  match l with
  | x :: ((y :: _) as l') => if str_eqb x y then dedup_names l' else x :: dedup_names l'
  | _ => l
  end.

Definition str_le (a b : ustr) : Prop := str_leb a b = true.

#[global] Instance str_le_dec a b : Decision (str_le a b).
Proof. unfold str_le. apply _. Defined.

Definition collect_condition_field_names (condition : option (SelectCondition Subquery)) : list ustr :=
  match condition with
  | None => []
  | Some condition => dedup_names (merge_sort str_le (collect_condition_field_names_recursive condition))
  end.

Definition ensure_order_by_projection_items (projection_items : list item) (read_plan : plan) : list item :=
  let items :=
    foldl (λ items name, cover name (IColumn name name) items) projection_items
      (collect_condition_field_names (plan_qualify_condition read_plan)) in
  let items :=
    foldl (λ items order,
             let name := order_field_name order in
             cover name (match order_function order with Some function => IInbuiltFunction name function | None => IColumn name name end) items)
      items (plan_order_by read_plan) in
  match plan_limit_by read_plan with
  | None => items
  | Some limit_by => foldl (λ items name, cover name (IColumn name name) items) items (limit_by_fields limit_by)
  end.

Definition expand_relation_projection_items (schema : TableSchema) (projection_items : list item) : list item :=
  projection_items ≫= λ projection_item,
    match projection_item with
    | IWildcard _ => (λ f, IColumn (field_name f) (field_name f)) <$> fields schema
    | _ => [projection_item]
    end.

Definition count_star_projection (read_plan : plan) : option ustr :=
  match plan_projection_items read_plan with
  | [IInbuiltFunction output_name function] =>
      if is_empty (plan_group_by read_plan) && function_is_count_star function then Some output_name else None
  | _ => None
  end.

Definition count_star_is_strict_full_table (read_plan : plan) : bool :=
  is_none (plan_where_condition read_plan) && is_empty (plan_joins read_plan) && is_empty (plan_group_by read_plan)
  && is_none (plan_having_condition read_plan) && negb (plan_distinct read_plan) && is_empty (plan_order_by read_plan)
  && is_none (plan_limit_by read_plan) && is_none (plan_limit read_plan) && is_none (plan_offset read_plan).

Definition text_column (seq : nat) (name : ustr) (hidden : bool) : FieldDef := {|
  seqno := (Z.of_nat seq + 1) mod 2 ^ 32; field_name := name; field_type := FText; nullable := true; indexed := NotIndexed;
  default_value := None; metadata := column_metadata_with_visibility None hidden
|}.

Definition field_column (seq : nat) (name : ustr) (f : FieldDef) (is_nullable hidden : bool) : FieldDef := {|
  seqno := (Z.of_nat seq + 1) mod 2 ^ 32; field_name := name; field_type := field_type f; nullable := is_nullable;
  indexed := indexed f; default_value := default_value f; metadata := column_metadata_with_visibility (metadata f) hidden
|}.

Definition count_column (name : ustr) : FieldDef := {|
  seqno := 1; field_name := name; field_type := FUInt 64; nullable := false; indexed := NotIndexed;
  default_value := None; metadata := None
|}.

Definition relation_column (schema : TableSchema) (visible_projection_len seq : nat) (projection_item : item) :
    result FieldDef string :=
  let hidden := Nat.leb visible_projection_len seq in
  match projection_item with
  | IColumn name output_name =>
      match field schema name with
      | None => Err "select failed: unknown column"%string
      | Some f => Ok (field_column seq output_name f (nullable f) hidden)
      end
  | ICase output_name _ _ _ | IInbuiltFunction output_name _ | IWindowFunction output_name _ =>
      Ok (text_column seq output_name hidden)
  | IWildcard _ => Err "select failed: wildcard expansion should have been resolved before column building"%string
  end.

Fixpoint map_result {A B} (f : A → result B string) (l : list A) : result (list B) string :=
  match l with
  | [] => Ok []
  | x :: l => let? y := f x in let? ys := map_result f l in Ok (y :: ys)
  end.

(** The value of a function call that does not depend on the row. *)
Definition static_projection_value (error : string) (projection_item : item) : result (option (option bytes)) string :=
  match projection_item with
  | IInbuiltFunction _ function =>
      if sql_function_references_column function then Ok None
      else let? value := map_err (λ _, error) (evaluate_function function (λ _, None)) in Ok (Some value)
  | _ => Ok None
  end.

Definition null_text : bytes := utf8_encode (lit "NULL").

Definition project_item (error : string) (p : provider) (column : FieldDef) (static_value : option (option bytes))
    (projection_item : item) : result bytes string :=
  match projection_item with
  | IColumn name _ =>
      Ok (match p name with
          | Some value => render_stored_field_value value
          | None => if nullable column then null_text else []
          end)
  | IInbuiltFunction _ function =>
      match static_value with
      | Some (Some value) => Ok value
      | _ =>
          let? value := map_err (λ _, error) (evaluate_function function (rendered p)) in Ok (default null_text value)
      end
  | ICase _ operand branches else_value =>
      let? value := evaluate_case_projection p operand branches else_value in
      Ok (render_stored_field_value (default null_text value))
  | IWindowFunction _ _ | IWildcard _ => Ok []
  end.

Definition project_row (error : string) (columns : list FieldDef) (static_values : list (option (option bytes)))
    (projection_items : list item) (p : provider) : result result_row string :=
  map_result (λ '(column, (static_value, projection_item)), project_item error p column static_value projection_item)
    (zip columns (zip static_values projection_items)).

(** ** Collecting rows *)

(** [ResultRowCollector]: the loop ends with the row that fills it. *)
Fixpoint collect_rows {A} (matches : A → result bool string) (project : A → result result_row string) (limit : option Z)
    (collected : Z) (rows : list A) : result (list result_row) string :=
  match rows with
  | [] => Ok []
  | row :: rows =>
      let? matched := matches row in
      if matched : bool then
        let? projected := project row in
        let full := match limit with Some limit => limit <=? collected + 1 | None => false end in
        if full then Ok [projected]
        else let? rest := collect_rows matches project limit (collected + 1) rows in Ok (projected :: rest)
      else collect_rows matches project limit collected rows
  end.

(** [Vec::with_capacity] of rows of 24 bytes panics when their size is more than [isize::MAX]. *)
Definition capacity_overflows (limit : option Z) : bool := 2 ^ 63 - 1 <? 24 * default 0 limit.

Fixpoint count_matching {A} (matches : A → result bool string) (rows : list A) : result Z string :=
  match rows with
  | [] => Ok 0
  | row :: rows =>
      let? matched := matches row in
      let? rest := count_matching matches rows in
      Ok (if matched : bool then rest + 1 else rest)
  end.

Definition count_result (output_name : ustr) (count : Z) : SelectExecutionResult :=
  mkSelectExecutionResult [count_column output_name] [[utf8_encode (show_int count)]].

(** ** A query over one table *)

(** The items of the projection with the hidden ones that are added, and their columns. *)
Definition relation_items (schema : TableSchema) (read_plan : plan) : list item :=
  ensure_order_by_projection_items (expand_relation_projection_items schema (plan_projection_items read_plan)) read_plan.

Definition relation_columns (schema : TableSchema) (read_plan : plan) : result (list FieldDef) string :=
  let visible_projection_len := length (expand_relation_projection_items schema (plan_projection_items read_plan)) in
  map_result (λ '(seq, projection_item), relation_column schema visible_projection_len seq projection_item)
    (imap pair (relation_items schema read_plan)).

(** How many rows are read from the table. *)
Definition materialization_row_limit (read_plan : plan) (forced_row_bound : option Z) : option Z :=
  min_bound (simple_unordered_relation_row_limit read_plan) (effective_result_row_bound read_plan forced_row_bound).

Definition execute_relation_select_plan_with_row_bound (source : RelationSource) (schema : TableSchema)
    (explained : SelectExecutionResult) (read_plan : plan)
    (row_matches_relation : row_map → option (SelectCondition Subquery) → result bool string) (forced_row_bound : option Z) :
    outcome SelectExecutionResult :=
  let matches (row : Z * row_map) := row_matches_relation row.2 (plan_where_condition read_plan) in
  let error := "select failed: inbuilt projection evaluation failed"%string in
  if plan_is_explain read_plan then Some (Ok explained)
  else
    match count_star_projection read_plan with
    | Some output_name =>
        if count_star_is_strict_full_table read_plan then Some (Ok (count_result output_name (source_row_count source)))
        else
          match source_indexed_count source with
          | Some count => Some (Ok (count_result output_name count))
          | None => Some (let? count := count_matching matches (source_rows source None) in Ok (count_result output_name count))
          end
    | None =>
        let projection_items := relation_items schema read_plan in
        let result_row_bound := effective_result_row_bound read_plan forced_row_bound in
        let! columns := Some $ relation_columns schema read_plan in
        let! static_values := Some $ map_result (static_projection_value error) projection_items in
        if capacity_overflows result_row_bound then None else
        let! rows :=
          Some $ collect_rows matches (λ row, project_row error columns static_values projection_items (row_map_provider row.2))
            result_row_bound 0 (source_rows source (materialization_row_limit read_plan forced_row_bound)) in
        let! rows := apply_select_post_processing expression apply_window_function rows columns read_plan projection_items in
        let '(columns, rows) := strip_hidden_output_columns columns rows in
        Some (Ok (mkSelectExecutionResult columns rows))
    end.

Definition execute_relation_select_plan (source : RelationSource) (schema : TableSchema) (explained : SelectExecutionResult)
    (read_plan : plan) (row_matches_relation : row_map → option (SelectCondition Subquery) → result bool string) :
    outcome SelectExecutionResult :=
  execute_relation_select_plan_with_row_bound source schema explained read_plan row_matches_relation None.

(** ** A query over joined tables *)

(** The positions of the relations with a qualifier. *)
Definition build_relation_qualifier_lookup (qualifiers : list ustr) : gmap ustr (list nat) :=
  foldl (λ m '(index, q), <[q := default [] (m !! q) ++ [index]]> m) ∅ (imap pair qualifiers).

(** There is one relation more than there are joins. *)
Definition join_field_can_be_null_extended (relations : list SelectRelation) (joins : list (SelectJoin Subquery))
    (name : ustr) : bool :=
  match split_field name with
  | None => false
  | Some (q, _) =>
      let positions := default [] (build_relation_qualifier_lookup (relation_qualifier <$> relations) !! q) in
      existsb (λ '(join_index, join),
                 (keeps_right (join_kind join) && existsb (λ index, bool_decide (index ∈ positions)) (seq 0 (S join_index)))
                 || (keeps_left (join_kind join) && str_eqb (relation_qualifier (join_relation join)) q))
        (imap pair joins)
  end.

Context (table_schema : ustr → option TableSchema).

Definition resolve_join_field (relations : list SelectRelation) (name : ustr) : option FieldDef :=
  '(q, column_name) ← split_field name;
  relation ← head (filter (λ relation, rel_table_id relation = q ∨ rel_alias relation = Some q) relations);
  schema ← table_schema (rel_table_id relation);
  field schema column_name.

Definition wildcard_columns (relation : SelectRelation) : result (list item) string :=
  match table_schema (rel_table_id relation) with
  | None => Err "select join failed: unknown table schema"%string
  | Some schema =>
      Ok ((λ f, IColumn (relation_qualifier relation ++ lit "." ++ field_name f) (field_name f)) <$> fields schema)
  end.

Definition expand_join_item (relations : list SelectRelation) (projection_item : item) : result (list item) string :=
  match projection_item with
  | IWildcard relation =>
      let target_relations :=
        match relation with
        | Some q =>
            omap (λ index, relations !! index)
              (default [] (build_relation_qualifier_lookup (relation_qualifier <$> relations) !! q))
        | None => relations
        end in
      if is_empty target_relations then Err "select join failed: unknown wildcard relation"%string
      else let? columns := map_result wildcard_columns target_relations in Ok (concat columns)
  | _ => Ok [projection_item]
  end.

Definition expand_join_projection_items (relations : list SelectRelation) (projection_items : list item) :
    result (list item) string :=
  let? items := map_result (expand_join_item relations) projection_items in Ok (concat items).

Definition joined_column (read_plan : plan) (visible_projection_len seq : nat) (projection_item : item) :
    result (FieldDef * option (option bytes)) string :=
  let hidden := Nat.leb visible_projection_len seq in
  match projection_item with
  | IColumn name output_name =>
      match resolve_join_field (plan_relations read_plan) name with
      | None => Err "select join failed: unknown column"%string
      | Some f =>
          let is_nullable :=
            nullable f || join_field_can_be_null_extended (plan_relations read_plan) (plan_joins read_plan) name in
          Ok (field_column seq output_name f is_nullable hidden, None)
      end
  | IInbuiltFunction output_name _ =>
      let? static_value :=
        static_projection_value "select join failed: inbuilt projection evaluation failed"%string projection_item in
      Ok (text_column seq output_name hidden, static_value)
  | ICase output_name _ _ _ | IWindowFunction output_name _ => Ok (text_column seq output_name hidden, None)
  | IWildcard _ => Err "select join failed: wildcard expansion should have been resolved before projection building"%string
  end.

Definition execute_joined_select_plan_with_row_bound (access : RelationAccess Subquery) (explained : SelectExecutionResult)
    (read_plan : plan) (row_matches_relation : row_map → option (SelectCondition Subquery) → result bool string)
    (row_matches_joined : JoinedRowTuple → option (SelectCondition Subquery) → result bool string)
    (forced_row_bound : option Z) : outcome SelectExecutionResult :=
  let matches tuple := row_matches_joined tuple (plan_where_condition read_plan) in
  let error := "select join failed: inbuilt projection evaluation failed"%string in
  let row_tuples :=
    build_joined_row_tuples access expression row_matches_relation (plan_relations read_plan)
      (plan_pushdown_conditions read_plan) (plan_joins read_plan) in
  if plan_is_explain read_plan then Some (Ok explained)
  else
    match count_star_projection read_plan with
    | Some output_name =>
        Some (let? row_tuples := row_tuples in
              let? count := count_matching matches row_tuples in
              Ok (count_result output_name count))
    | None =>
        let! expanded := Some $ expand_join_projection_items (plan_relations read_plan) (plan_projection_items read_plan) in
        let projection_items := ensure_order_by_projection_items expanded read_plan in
        let! columns_and_values :=
          Some $ map_result (λ '(seq, projection_item), joined_column read_plan (length expanded) seq projection_item)
            (imap pair projection_items) in
        let columns := columns_and_values.*1 in
        let! row_tuples := Some row_tuples in
        let result_row_bound := effective_result_row_bound read_plan forced_row_bound in
        if capacity_overflows result_row_bound then None else
        let! rows :=
          Some $ collect_rows matches
            (λ tuple, project_row error columns columns_and_values.*2 projection_items (tuple_value tuple))
            result_row_bound 0 row_tuples in
        let! rows := apply_select_post_processing expression apply_window_function rows columns read_plan projection_items in
        let '(columns, rows) := strip_hidden_output_columns columns rows in
        Some (Ok (mkSelectExecutionResult columns rows))
    end.

Definition execute_joined_select_plan (access : RelationAccess Subquery) (explained : SelectExecutionResult) (read_plan : plan)
    (row_matches_relation : row_map → option (SelectCondition Subquery) → result bool string)
    (row_matches_joined : JoinedRowTuple → option (SelectCondition Subquery) → result bool string) :
    outcome SelectExecutionResult :=
  execute_joined_select_plan_with_row_bound access explained read_plan row_matches_relation row_matches_joined None.

(** ** A query without tables *)

Definition expression_references_column (e : SelectExpression Function) : bool :=
  match e with
  | EColumn _ => true
  | EInbuiltFunction function => sql_function_references_column function
  | _ => false
  end.

Definition case_projection_requires_row_context (operand : option (SelectExpression Function))
    (branches : list (SelectCaseWhen Subquery Function * SelectExpression Function))
    (else_value : option (SelectExpression Function)) : bool :=
  let references e := match e with Some e => expression_references_column e | None => false end in
  references operand || references else_value
  || existsb (λ '(branch_when, value),
                match branch_when with WhenCondition _ => true | WhenEquals expected => expression_references_column expected end
                || expression_references_column value) branches.

Definition projection_only_item (seq : nat) (projection_item : item) : result (FieldDef * bytes) string :=
  match projection_item with
  | IInbuiltFunction output_name function =>
      let? value :=
        map_err (λ _, "select failed: inbuilt projection evaluation failed"%string) (evaluate_function function (λ _, None)) in
      Ok (text_column seq output_name false, default null_text value)
  | IColumn _ _ => Err "select without FROM only supports inbuilt projection functions"%string
  | IWindowFunction output_name _ => Ok (text_column seq output_name false, [])
  | ICase output_name operand branches else_value =>
      if case_projection_requires_row_context operand branches else_value
      then Err "select without FROM CASE projections support only row-independent expressions"%string
      else
        let? value := evaluate_case_projection (λ _, None) operand branches else_value in
        Ok (text_column seq output_name false, default null_text value)
  | IWildcard _ => Err "select without FROM does not support wildcard projections"%string
  end.

Definition execute_projection_only_select_plan (read_plan : plan) : outcome SelectExecutionResult :=
  let! values :=
    Some $ map_result (λ '(seq, projection_item), projection_only_item seq projection_item)
      (imap pair (plan_projection_items read_plan)) in
  let! rows :=
    apply_select_post_processing expression apply_window_function [values.*2] values.*1 read_plan
      (plan_projection_items read_plan) in
  Some (Ok (mkSelectExecutionResult values.*1 rows)).

(** ** The results of subqueries *)

Definition first_column_values (result : SelectExecutionResult) : list bytes :=
  remove_dups (omap head (result_rows result)).

Definition single_scalar_value (result : SelectExecutionResult) : Prelude.result (option bytes) string :=
  match result_rows result with
  | [] => Ok None
  | _ :: _ :: _ => Err "select failed: scalar subquery returned more than one row"%string
  | [row] =>
      match row with
      | [] => Ok None
      | [value] => Ok (Some value)
      | _ => Err "select failed: scalar subquery returned more than one column"%string
      end
  end.
End executor.
