(* ===== verification/SelectFacts.v ===== *)
(** * Facts about queries

    What the definitions of [SelectPlan.v] and [SelectExec.v] compute: LIMIT and OFFSET with the bounded collector, the
    shape of results, DISTINCT and ORDER BY. *)

From Stdlib Require Import ZArith Lia Strings.Byte.
From stdpp Require Import base gmap list strings sorting.
From S2P Require Import Prelude Text Float64 Schema RowCodec FieldValue Predicates Conditions Joins SelectPlan SelectExec.

Local Open Scope Z_scope.

(** ** Lists of results *)

Lemma map_result_length {A B} (f : A → result B string) l ys : map_result f l = Ok ys → length ys = length l.
Proof.
  revert ys. induction l as [|x l IH]; intros ys; simpl; [by intros [= <-]|].
  destruct (f x); [|done]. destruct (map_result f l) as [ys'|]; [|done]. intros [= <-]. simpl. by rewrite IH.
Qed.

(** ** Collecting rows *)

Section collecting.
Context {A : Type} (matches : A → result bool string) (project : A → result result_row string).

Lemma collect_rows_filter (m : A → bool) (p : A → result_row) c rows :
  (∀ row, row ∈ rows → matches row = Ok (m row)) → (∀ row, row ∈ rows → m row = true → project row = Ok (p row)) →
  collect_rows matches project None c rows = Ok (p <$> filter (λ row, m row = true) rows).
Proof.
  revert c. induction rows as [|row rows IH]; intros c Hm Hp; [done|]. simpl.
  rewrite Hm by set_solver. rewrite filter_cons.
  destruct (m row) eqn:E; case_decide; try done.
  - rewrite Hp by set_solver. rewrite IH by set_solver. done.
  - apply IH; set_solver.
Qed.

(** The bounded collector takes a first part of the rows; at least one, since it looks at its size after a row is added. *)
Lemma collect_rows_bounded n c rows all :
  collect_rows matches project None c rows = Ok all →
  collect_rows matches project (Some n) c rows = Ok (take (Z.to_nat (Z.max 1 (n - c))) all).
Proof.
  revert c all. induction rows as [|row rows IH]; intros c all; simpl; [intros [= <-]; by rewrite take_nil|].
  destruct (matches row) as [[]|]; [| |done]; [|apply IH].
  destruct (project row) as [projected|]; [|done].
  destruct (collect_rows matches project None (c + 1) rows) as [rest|] eqn:E; [|done]. intros [= <-].
  destruct (Z.leb_spec n (c + 1)) as [?|?].
  - by replace (Z.to_nat (Z.max 1 (n - c))) with 1%nat by lia.
  - rewrite (IH _ _ E). by replace (Z.to_nat (Z.max 1 (n - c))) with (S (Z.to_nat (Z.max 1 (n - (c + 1))))) by lia.
Qed.

Lemma collect_rows_none limit c rows :
  (∀ row, row ∈ rows → matches row = Ok false) → collect_rows matches project limit c rows = Ok [].
Proof.
  induction rows as [|row rows IH]; intros Hm; [done|]. simpl. rewrite Hm by set_solver. apply IH. set_solver.
Qed.

Lemma collect_rows_shape n limit c rows out :
  (∀ row projected, project row = Ok projected → length projected = n) →
  collect_rows matches project limit c rows = Ok out → Forall (λ row : result_row, length row = n) out.
Proof.
  intros Hp. revert c out. induction rows as [|row rows IH]; intros c out; simpl; [by intros [= <-]|].
  destruct (matches row) as [[]|]; [| |done]; [|apply IH].
  destruct (project row) as [projected|] eqn:E; [|done]. apply Hp in E.
  destruct (match limit with Some limit => limit <=? c + 1 | None => false end); [intros [= <-]; by repeat constructor|].
  destruct (collect_rows matches project limit (c + 1) rows) as [rest|] eqn:Er; [|done]. intros [= <-].
  constructor; [done|]. by eapply IH.
Qed.
End collecting.

(** ** The window of LIMIT and OFFSET *)

(** What LIMIT and OFFSET mean. *)
Definition limit_offset (limit offset : option Z) (rows : list result_row) : list result_row :=
  let rows := drop (Z.to_nat (default 0 offset)) rows in
  match limit with Some limit => take (Z.to_nat limit) rows | None => rows end.

Definition bound_in_range (o : option Z) : Prop := match o with Some n => 0 ≤ n ≤ usize_max | None => True end.

Lemma apply_row_window_spec rows limit offset :
  bound_in_range limit → bound_in_range offset → Z.of_nat (length rows) ≤ usize_max →
  apply_row_window rows limit offset = limit_offset limit offset rows.
Proof.
  unfold apply_row_window, limit_offset, saturating_sub, saturating_add, bound_in_range, usize_max. intros Hl Ho Hn.
  set (o := default 0 offset). assert (0 ≤ o) by (subst o; destruct offset; simpl; lia).
  destruct (Z.le_ge_cases (Z.of_nat (length rows)) o) as [?|?].
  - rewrite Z.min_r by lia. rewrite !drop_ge by lia. rewrite take_nil. by destruct limit; rewrite ?take_nil.
  - rewrite Z.min_l by lia. destruct limit as [l|]; [|rewrite take_ge; [done|rewrite length_drop; lia]].
    destruct (Z.le_ge_cases (o + l) (Z.of_nat (length rows))) as [?|?].
    + f_equal. lia.
    + rewrite !take_ge; rewrite ?length_drop; try done; lia.
Qed.

(** The rows that the bounded collector leaves out are outside the window. *)
Lemma limit_offset_bounded limit offset rows :
  bound_in_range (Some limit) → bound_in_range offset → Z.of_nat (length rows) ≤ usize_max →
  limit_offset (Some limit) offset
    (take (Z.to_nat (Z.max 1 (saturating_add limit (default 0 offset)))) rows)
  = limit_offset (Some limit) offset rows.
Proof.
  unfold limit_offset, saturating_add, bound_in_range, usize_max. intros Hl Ho Hn.
  set (o := default 0 offset). assert (0 ≤ o) by (subst o; destruct offset; simpl; lia).
  destruct (Z.le_gt_cases (Z.of_nat (length rows)) (Z.max 1 (Z.min (limit + o) u64_max))) as [?|?].
  - by rewrite (take_ge rows) by lia.
  - rewrite !take_drop_commute, take_take. do 2 f_equal. lia.
Qed.

(** ** Queries *)

Section queries.
Context {Subquery Function NamedWindow : Type} `{FieldValues} `{UuidText} `{RegexEngine} `{SortBy} `{KeySetOrder}.
Context (expression : provider → ustr → result (option bytes) string).
Context (apply_window_function : nat → Function → list FieldDef → list NamedWindow → list result_row → outcome (list result_row)).
Context (evaluate_function : Function → provider → result (option bytes) string).
Context (sql_function_references_column function_is_count_star : Function → bool).

Abbreviation plan := (SelectReadPlan Subquery Function NamedWindow).
Abbreviation item := (SelectProjectionItem Subquery Function).
Abbreviation project error columns values items :=
  (project_row expression evaluate_function error columns values items).
Abbreviation static_value :=
  (static_projection_value (Subquery := Subquery) evaluate_function sql_function_references_column).
Abbreviation execute_relation :=
  (execute_relation_select_plan_with_row_bound expression apply_window_function evaluate_function
     sql_function_references_column function_is_count_star).

(** The plan is a plain one: nothing in it needs all rows of the result at once. *)
Record streams (read_plan : plan) : Prop := {
  streams_distinct : plan_distinct read_plan = false;
  streams_order_by : plan_order_by read_plan = [];
  streams_limit_by : plan_limit_by read_plan = None;
  streams_top_percent : plan_top_percent read_plan = None;
  streams_top_percent_with_ties : plan_top_percent_with_ties read_plan = None;
  streams_top_with_ties : plan_top_with_ties_limit read_plan = None;
  streams_fetch_percent : plan_fetch_percent read_plan = None;
  streams_fetch_percent_with_ties : plan_fetch_percent_with_ties read_plan = None;
  streams_fetch_with_ties : plan_fetch_with_ties_limit read_plan = None;
  streams_qualify : plan_qualify_condition read_plan = None
}.

Lemma is_none_true {A} (o : option A) : negb (is_none o) = false → o = None.
Proof. by destruct o. Qed.

Lemma is_empty_true {A} (l : list A) : negb (is_empty l) = false → l = [].
Proof. by destruct l. Qed.

Lemma not_full_streams read_plan :
  select_requires_full_result_materialization read_plan = false → streams read_plan.
Proof.
  unfold select_requires_full_result_materialization. rewrite !orb_false_iff. intros. destruct_and?.
  split; auto using is_none_true, is_empty_true.
Qed.

Definition is_window_item (projection_item : item) : bool :=
  match projection_item with IWindowFunction _ _ => true | _ => false end.

Lemma apply_windows_none columns windows (items : list (nat * item)) rows :
  Forall (λ i, is_window_item i.2 = false) items → apply_windows apply_window_function columns windows items rows = Some (Ok rows).
Proof. induction 1 as [|[i it] items Hi Hs IH]; [done|]. by destruct it. Qed.

Lemma imap_pair_snd {A} (P : A → Prop) (l : list A) : Forall P l → Forall (λ i : nat * A, P i.2) (imap pair l).
Proof. rewrite !Forall_lookup. intros Hl i x. rewrite list_lookup_imap, fmap_Some. intros (y & ? & ->). by eapply Hl. Qed.

Lemma streams_post_processing read_plan rows columns items :
  streams read_plan → Forall (λ it, is_window_item it = false) items →
  apply_select_post_processing expression apply_window_function rows columns read_plan items
  = Some (Ok (apply_row_window rows (plan_limit read_plan) (plan_offset read_plan))).
Proof.
  intros [] Hw. unfold apply_select_post_processing, apply_window_projection_values.
  rewrite streams_distinct0, streams_order_by0. simpl. rewrite apply_windows_none by by apply (imap_pair_snd (λ it, is_window_item it = false)).
  unfold apply_post_filters.
  by rewrite ?streams_order_by0, streams_qualify0, streams_limit_by0, streams_top_percent0, streams_top_percent_with_ties0,
    streams_fetch_percent0, streams_fetch_percent_with_ties0, streams_top_with_ties0, streams_fetch_with_ties0.
Qed.

Lemma streams_items schema read_plan :
  streams read_plan →
  relation_items schema read_plan = expand_relation_projection_items schema (plan_projection_items read_plan).
Proof.
  intros []. unfold relation_items, ensure_order_by_projection_items.
  by rewrite streams_qualify0, streams_order_by0, streams_limit_by0.
Qed.

Lemma expand_no_window schema (items : list item) :
  Forall (λ it, is_window_item it = false) items →
  Forall (λ it, is_window_item it = false) (expand_relation_projection_items schema items).
Proof.
  intros Hi. apply Forall_forall. intros it (i & Hit & Hin)%list_elem_of_bind.
  rewrite Forall_forall in Hi. specialize (Hi i Hin).
  destruct i; try (apply list_elem_of_singleton in Hit as ->; done).
  apply list_elem_of_fmap in Hit as (f & -> & _). done.
Qed.

Lemma relation_select_window (source : RelationSource) (schema : TableSchema) (explained : SelectExecutionResult) (read_plan : plan)
    (row_matches_relation : row_map → option (SelectCondition Subquery) → result bool string) (columns : list FieldDef)
    (values : list (option (option bytes))) (m : Z * row_map → bool) (p : Z * row_map → result_row) :
  let error := "select failed: inbuilt projection evaluation failed"%string in
  let rows := source_rows source (materialization_row_limit read_plan None) in
  plan_is_explain read_plan = false → count_star_projection function_is_count_star read_plan = None →
  select_requires_full_result_materialization read_plan = false →
  Forall (λ it, is_window_item it = false) (plan_projection_items read_plan) →
  bound_in_range (plan_limit read_plan) → bound_in_range (plan_offset read_plan) →
  capacity_overflows (effective_result_row_bound read_plan None) = false →
  relation_columns schema read_plan = Ok columns →
  map_result (static_value error) (relation_items schema read_plan) = Ok values →
  Z.of_nat (length rows) ≤ usize_max →
  (∀ row, row ∈ rows → row_matches_relation row.2 (plan_where_condition read_plan) = Ok (m row)) →
  (∀ row, row ∈ rows → m row = true →
     project error columns values (relation_items schema read_plan) (row_map_provider row.2) = Ok (p row)) →
  execute_relation source schema explained read_plan row_matches_relation None
  = let '(columns, rows) :=
      strip_hidden_output_columns columns
        (limit_offset (plan_limit read_plan) (plan_offset read_plan) (p <$> filter (λ row, m row = true) rows)) in
    Some (Ok (mkSelectExecutionResult columns rows)).
Proof.
  intros error rows He Hcount Hfull Hw Hl Ho Hcap Hc Hv Hlen Hm Hp. unfold execute_relation_select_plan_with_row_bound.
  rewrite He, Hcount, Hc. fold error. rewrite Hv, Hcap. fold rows. cbv zeta.
  pose proof (not_full_streams _ Hfull) as Hs.
  set (all := p <$> filter (λ row, m row = true) rows).
  assert (Z.of_nat (length all) ≤ usize_max) as Hall.
  { subst all. rewrite length_fmap. pose proof (length_filter (λ row, m row = true) rows). lia. }
  pose proof (collect_rows_filter _ _ m p 0 rows Hm Hp) as Hcollect.
  unfold effective_result_row_bound, select_explicit_result_row_bound. rewrite Hfull.
  destruct (plan_limit read_plan) as [limit|] eqn:El; simpl.
  - rewrite (collect_rows_bounded _ _ _ _ _ _ Hcollect), Z.sub_0_r. fold all.
    rewrite streams_post_processing by (rewrite ?streams_items; auto using expand_no_window).
    rewrite El, apply_row_window_spec, limit_offset_bounded; try done. rewrite length_take. lia.
  - rewrite Hcollect. fold all.
    rewrite streams_post_processing by (rewrite ?streams_items; auto using expand_no_window).
    by rewrite El, apply_row_window_spec.
Qed.

(** C12: A query over one table that needs no ordering or grouping returns what LIMIT and OFFSET mean: of the rows that
    the access to the table delivers, those that satisfy the WHERE condition, projected, in their order, and of these the
    ones from the offset on, at most as many as the limit.  That the executor stops collecting when it has enough rows
    makes no difference, also for the limit 0 and where the sum of limit and offset overflows. *)
Theorem limit_offset_select (source : RelationSource) (schema : TableSchema) (explained : SelectExecutionResult) (read_plan : plan)
    (row_matches_relation : row_map → option (SelectCondition Subquery) → result bool string) (columns : list FieldDef)
    (values : list (option (option bytes))) (m : Z * row_map → bool) (p : Z * row_map → result_row) :
  let error := "select failed: inbuilt projection evaluation failed"%string in
  let rows := source_rows source (materialization_row_limit read_plan None) in
  plan_is_explain read_plan = false → count_star_projection function_is_count_star read_plan = None →
  select_requires_full_result_materialization read_plan = false →
  Forall (λ it, is_window_item it = false) (plan_projection_items read_plan) →
  bound_in_range (plan_limit read_plan) → bound_in_range (plan_offset read_plan) →
  capacity_overflows (effective_result_row_bound read_plan None) = false →
  relation_columns schema read_plan = Ok columns →
  map_result (static_value error) (relation_items schema read_plan) = Ok values →
  Z.of_nat (length rows) ≤ usize_max →
  (∀ row, row ∈ rows → row_matches_relation row.2 (plan_where_condition read_plan) = Ok (m row)) →
  (∀ row, row ∈ rows → m row = true →
     project error columns values (relation_items schema read_plan) (row_map_provider row.2) = Ok (p row)) →
  execute_relation source schema explained read_plan row_matches_relation None
  = let '(columns, rows) :=
      strip_hidden_output_columns columns
        (limit_offset (plan_limit read_plan) (plan_offset read_plan) (p <$> filter (λ row, m row = true) rows)) in
    Some (Ok (mkSelectExecutionResult columns rows)).
Proof. apply relation_select_window. Qed.

(** ** The shape of results *)

Definition shaped (n : nat) (rows : list result_row) : Prop := Forall (λ row, length row = n) rows.

(** A result has one value for each column in each row, its columns are numbered, and none of them is hidden. *)
Record well_formed_result (r : SelectExecutionResult) : Prop := {
  rows_shaped : shaped (length (result_columns r)) (result_rows r);
  columns_numbered i c : result_columns r !! i = Some c → seqno c = (Z.of_nat i + 1) mod 2 ^ 32;
  columns_visible : Forall (λ c, is_hidden c = false) (result_columns r)
}.

Lemma unique_rows_sublist key seen rows : unique_rows key seen rows `sublist_of` rows.
Proof.
  revert seen. induction rows as [|row rows IH]; intros seen; simpl; [done|].
  destruct (bool_decide _); [by apply sublist_cons|by apply sublist_skip].
Qed.

Lemma limit_per_key_sublist key limit counts rows : limit_per_key key limit counts rows `sublist_of` rows.
Proof.
  revert counts. induction rows as [|row rows IH]; intros counts; simpl; [done|].
  destruct (_ <? _); [by apply sublist_skip|by apply sublist_cons].
Qed.

Lemma filter_rows_sublist matches rows out : filter_rows matches rows = Ok out → out `sublist_of` rows.
Proof.
  revert out. induction rows as [|row rows IH]; intros out; simpl; [by intros [= <-]|].
  destruct (matches row) as [b|]; [|done]. destruct (filter_rows matches rows) as [rest|]; [|done]. intros [= <-].
  destruct b; [by apply sublist_skip, IH|by apply sublist_cons, IH].
Qed.

Lemma with_ties_sublist rows indexes limit : apply_with_ties_rows rows indexes limit `sublist_of` rows.
Proof.
  unfold apply_with_ties_rows. destruct limit as [limit|]; [|done]. simpl.
  destruct (_ || _); [apply sublist_nil_l|]. destruct (_ <=? _); [done|]. destruct (is_empty _); apply sublist_take.
Qed.

Lemma percent_sublist rows percent : apply_percent_rows rows percent `sublist_of` rows.
Proof.
  unfold apply_percent_rows. destruct percent as [percent|]; [|done]. destruct (_ || _); [apply sublist_nil_l|apply sublist_take].
Qed.

Lemma top_with_ties_sublist rows columns (order_by : list (SelectOrderByItem Function)) limit out :
  apply_top_with_ties_post_filter rows columns order_by limit = Ok out → out `sublist_of` rows.
Proof.
  unfold apply_top_with_ties_post_filter. destruct (tie_indexes columns order_by); [|done].
  intros [= <-]. apply with_ties_sublist.
Qed.

Lemma fetch_percent_sublist rows columns (order_by : list (SelectOrderByItem Function)) percent percent_with_ties out :
  apply_fetch_percent_post_filter rows columns order_by percent percent_with_ties = Ok out → out `sublist_of` rows.
Proof.
  unfold apply_fetch_percent_post_filter. destruct percent_with_ties as [q|]; [|intros [= <-]; apply percent_sublist].
  destruct (_ || _); [intros [= <-]; apply sublist_nil_l|apply top_with_ties_sublist].
Qed.

Lemma limit_by_sublist rows columns limit_by error out :
  apply_limit_by_rows rows columns limit_by error = Ok out → out `sublist_of` rows.
Proof.
  unfold apply_limit_by_rows. destruct limit_by as [limit_by|]; [|by intros [= <-]].
  destruct (key_indexes _ _ _); [|done]. intros [= <-]. apply limit_per_key_sublist.
Qed.

Lemma qualify_sublist rows columns (condition : option (SelectCondition Subquery)) out :
  apply_qualify_post_filter expression rows columns condition = Ok out → out `sublist_of` rows.
Proof. unfold apply_qualify_post_filter. destruct condition; [apply filter_rows_sublist|by intros [= <-]]. Qed.

Lemma row_window_sublist rows limit offset : apply_row_window rows limit offset `sublist_of` rows.
Proof. unfold apply_row_window. etrans; [apply sublist_take|apply sublist_drop]. Qed.

Lemma shaped_sublist n rows rows' : rows' `sublist_of` rows → shaped n rows → shaped n rows'.
Proof. intros Hs. unfold shaped. rewrite !Forall_forall. intros Hr row Hin. apply Hr. by eapply elem_of_sublist. Qed.

(** A window function writes cells of the rows and leaves their number of values. *)
Definition keeps_shape : Prop := ∀ index function columns windows rows rows' n,
  apply_window_function index function columns windows rows = Some (Ok rows') → shaped n rows → shaped n rows'.

Lemma apply_windows_shaped n columns windows (items : list (nat * item)) rows rows' :
  keeps_shape → apply_windows apply_window_function columns windows items rows = Some (Ok rows') → shaped n rows → shaped n rows'.
Proof.
  intros Hk. revert rows. induction items as [|[i it] items IH]; intros rows; simpl; [by intros [= <-]|].
  destruct it; try apply IH. destruct (apply_window_function _ _ _ _ _) as [[rows1|]|] eqn:E; [|done..].
  intros ??. eapply IH; [done|]. by eapply Hk.
Qed.

Lemma apply_post_filters_sublist rows columns (read_plan : plan) out :
  apply_post_filters expression rows columns read_plan = Ok out → out `sublist_of` rows.
Proof.
  unfold apply_post_filters.
  destruct (apply_qualify_post_filter _ _ _ _) as [r2|] eqn:E2; [|done].
  destruct (apply_limit_by_rows _ _ _ _) as [r3|] eqn:E3; [|done].
  destruct (apply_fetch_percent_post_filter _ _ _ None _) as [r4|] eqn:E4; [|done].
  destruct (apply_fetch_percent_post_filter r4 _ _ _ _) as [r5|] eqn:E5; [|done].
  destruct (apply_top_with_ties_post_filter r5 _ _ _) as [r6|] eqn:E6; [|done].
  destruct (apply_top_with_ties_post_filter r6 _ _ _) as [r7|] eqn:E7; [|done].
  intros [= <-].
  etrans; [apply row_window_sublist|]. etrans; [by eapply top_with_ties_sublist|]. etrans; [by eapply top_with_ties_sublist|].
  etrans; [by eapply fetch_percent_sublist|]. etrans; [by eapply fetch_percent_sublist|]. etrans; [apply percent_sublist|].
  etrans; [by eapply limit_by_sublist|]. by eapply qualify_sublist.
Qed.

Lemma distinct_sublist columns rows : distinct_rows columns rows `sublist_of` rows.
Proof. unfold distinct_rows. destruct (Nat.eqb _ _); apply unique_rows_sublist. Qed.

Lemma sorted_rows_permutation `{!SortByLaws} columns (order_by : list (SelectOrderByItem Function)) rows rows' :
  sorted_rows columns order_by rows = Some rows' → rows' ≡ₚ rows.
Proof.
  unfold sorted_rows. rewrite bind_Some. intros (indexes & _ & E).
  destruct (is_empty indexes); [by simplify_eq|]. by apply sort_by_permutation in E.
Qed.

Lemma post_processing_shaped `{!SortByLaws} n rows columns (read_plan : plan) items out :
  keeps_shape →
  apply_select_post_processing expression apply_window_function rows columns read_plan items = Some (Ok out) →
  shaped n rows → shaped n out.
Proof.
  intros Hk. unfold apply_select_post_processing. rewrite bind_Some. intros (sorted & Es & Ef) Hr. revert Ef.
  destruct (apply_window_projection_values _ _ _ _ _) as [[windowed|]|] eqn:Ew; [|done..]. intros [= Ef].
  eapply shaped_sublist; [by eapply apply_post_filters_sublist|]. eapply apply_windows_shaped; [done..|].
  assert (shaped n (if plan_distinct read_plan then distinct_rows columns rows else rows)) as Hd.
  { destruct (plan_distinct _); [|done]. eapply shaped_sublist; [apply distinct_sublist|done]. }
  destruct (is_empty _); simplify_eq; [done|]. unfold shaped. by rewrite (sorted_rows_permutation _ _ _ _ Es).
Qed.

(** ** Hidden columns *)

Lemma elem_of_visible_indexes columns i :
  i ∈ visible_indexes columns ↔ ∃ column, columns !! i = Some column ∧ is_hidden column = false.
Proof.
  unfold visible_indexes. rewrite list_elem_of_omap. split.
  - intros ([j column] & Hin & Hj). apply list_elem_of_lookup in Hin as (k & Hk).
    rewrite list_lookup_imap, fmap_Some in Hk. destruct Hk as (c & Hc & [= -> ->]).
    destruct (is_hidden c) eqn:E; simplify_eq. eauto.
  - intros (column & Hc & Hh). exists (i, column). rewrite Hh. split; [|done].
    apply list_elem_of_lookup. exists i. by rewrite list_lookup_imap, Hc.
Qed.

Lemma omap_shift {A} (P : nat → bool) (l : list A) :
  omap (λ '(i, x), if P i then Some x else None) (imap (pair ∘ S) l)
  = omap (λ '(i, x), if P (S i) then Some x else None) (imap pair l).
Proof.
  replace (imap (pair ∘ S) l) with (prod_map S (λ x : A, x) <$> imap pair l) by by rewrite fmap_imap.
  induction (imap pair l) as [|[i x] l' IH]; [done|]. csimpl. by rewrite IH.
Qed.

Lemma omap_visible_length (P : nat → bool) columns (row : result_row) :
  length row = length columns → (∀ i c, columns !! i = Some c → P i = negb (is_hidden c)) →
  length (omap (λ '(i, value), if P i then Some value else None) (imap pair row))
  = length (filter (λ c, is_hidden c = false) columns).
Proof.
  revert row P. induction columns as [|c columns IH]; intros [|v row] P Hl Hp; simplify_eq/=; [done|].
  specialize (IH row (P ∘ S) Hl (λ i c' Hc, Hp (S i) c' Hc)).
  rewrite filter_cons, (Hp 0%nat c eq_refl), omap_shift.
  destruct (is_hidden c); case_decide; simplify_eq/=; [done|by rewrite IH].
Qed.

Lemma length_visible_indexes columns : length (visible_indexes columns) = length (filter (λ c, is_hidden c = false) columns).
Proof.
  unfold visible_indexes. change (imap pair columns) with (imap (λ i (c : FieldDef), ((λ j : nat, j) i, c)) columns).
  generalize (λ j : nat, j). induction columns as [|c columns IH]; intros g; [done|].
  rewrite imap_cons, omap_cons_eq, filter_cons. specialize (IH (g ∘ S)).
  destruct (is_hidden c); case_decide; simplify_eq/=; [exact IH|f_equal; exact IH].
Qed.

Lemma strip_well_formed columns rows :
  shaped (length columns) rows → (∀ i c, columns !! i = Some c → seqno c = (Z.of_nat i + 1) mod 2 ^ 32) →
  well_formed_result
    (let '(columns, rows) := strip_hidden_output_columns columns rows in mkSelectExecutionResult columns rows).
Proof.
  intros Hr Hc. unfold strip_hidden_output_columns. destruct (Nat.eqb_spec (length (visible_indexes columns)) (length columns)) as [E|_].
  - split; [done..|]. simpl. apply Forall_forall. intros c Hin. rewrite length_visible_indexes in E.
    destruct (is_hidden c) eqn:Eh; [|done].
    pose proof (length_filter_lt (λ c, is_hidden c = false) columns c Hin) as Hlt. rewrite E in Hlt. exfalso.
    apply (Nat.lt_irrefl _ (Hlt ltac:(congruence))).
  - split; simpl.
    + apply Forall_fmap, (Forall_impl _ _ _ Hr). intros row Hl. simpl. rewrite length_imap.
      apply omap_visible_length; [done|]. intros i c Hi. destruct (is_hidden c) eqn:Eh; simpl.
      * apply bool_decide_eq_false. rewrite elem_of_visible_indexes. intros (c' & ? & ?). congruence.
      * apply bool_decide_eq_true, elem_of_visible_indexes. eauto.
    + intros i c. rewrite list_lookup_imap, fmap_Some. by intros (c' & _ & ->).
    + apply Forall_lookup. intros i c. rewrite list_lookup_imap, fmap_Some. intros (c' & Hi & ->).
      apply list_elem_of_lookup_2, list_elem_of_filter in Hi as [Hi _]. done.
Qed.

(** ** Executors *)

Lemma map_result_lookup {A B} (f : A → result B string) l ys i y :
  map_result f l = Ok ys → ys !! i = Some y → ∃ x, l !! i = Some x ∧ f x = Ok y.
Proof.
  revert ys i. induction l as [|x l IH]; intros ys i; simpl; [by intros [= <-]|].
  destruct (f x) as [y'|] eqn:E; [|done]. destruct (map_result f l) as [ys'|]; [|done]. intros [= <-].
  destruct i as [|i]; simpl; [intros [= ->]; eauto|]. by apply IH.
Qed.

(** The columns of an executor are made from the items one by one. *)
Lemma columns_seqno (make : nat → item → result FieldDef string) (items : list item) columns :
  (∀ seq it c, make seq it = Ok c → seqno c = (Z.of_nat seq + 1) mod 2 ^ 32) →
  map_result (λ '(seq, it), make seq it) (imap pair items) = Ok columns →
  length columns = length items ∧ ∀ i c, columns !! i = Some c → seqno c = (Z.of_nat i + 1) mod 2 ^ 32.
Proof.
  intros Hmake Hc. split; [by apply map_result_length in Hc; rewrite length_imap in Hc|].
  intros i c Hi. destruct (map_result_lookup _ _ _ _ _ Hc Hi) as ([j it] & Hj & Hm).
  rewrite list_lookup_imap, fmap_Some in Hj. destruct Hj as (it' & _ & [= -> ->]). by eapply Hmake.
Qed.

Lemma relation_column_seqno schema visible seq (it : item) c :
  relation_column schema visible seq it = Ok c → seqno c = (Z.of_nat seq + 1) mod 2 ^ 32.
Proof. destruct it; simpl; try (by intros [= <-]). destruct (field schema _); [|done]. by intros [= <-]. Qed.

Lemma project_row_length error columns values (items : list item) p row :
  length values = length items → length columns = length items →
  project error columns values items p = Ok row → length row = length columns.
Proof.
  intros Hv Hc Hrow. apply map_result_length in Hrow. rewrite !length_zip_with in Hrow. lia.
Qed.

Context (table_schema : ustr → option TableSchema).

Abbreviation execute_joined :=
  (execute_joined_select_plan_with_row_bound expression apply_window_function evaluate_function
     sql_function_references_column function_is_count_star table_schema).
Abbreviation execute_projection_only :=
  (execute_projection_only_select_plan expression apply_window_function evaluate_function sql_function_references_column).

Lemma joined_column_seqno (read_plan : plan) visible seq (it : item) c :
  joined_column evaluate_function sql_function_references_column table_schema read_plan visible seq it = Ok c →
  seqno c.1 = (Z.of_nat seq + 1) mod 2 ^ 32.
Proof.
  destruct it; simpl; try (by intros [= <-]).
  - destruct (resolve_join_field _ _ _); [|done]. by intros [= <-].
  - destruct (sql_function_references_column function); [by intros [= <-]|].
    destruct (map_err _ _); [|done]. by intros [= <-].
Qed.

Lemma count_well_formed output_name count : well_formed_result (count_result output_name count).
Proof. split; [by repeat constructor| |by repeat constructor]. intros [|i] c Hi; by simplify_eq/=. Qed.

(** What the executors do with the collected rows. *)
Lemma processed_well_formed `{!SortByLaws} rows columns (read_plan : plan) items r :
  keeps_shape → shaped (length columns) rows → (∀ i c, columns !! i = Some c → seqno c = (Z.of_nat i + 1) mod 2 ^ 32) →
  (let! rows := apply_select_post_processing expression apply_window_function rows columns read_plan items in
   let '(columns, rows) := strip_hidden_output_columns columns rows in
   Some (Ok (mkSelectExecutionResult columns rows))) = Some (Ok r) →
  well_formed_result r.
Proof.
  intros Hk Hr Hc. destruct (apply_select_post_processing _ _ _ _ _ _) as [[out|]|] eqn:E; [|done..].
  apply (post_processing_shaped (length columns)) in E; [|done..].
  pose proof (strip_well_formed columns out E Hc) as Hs.
  destruct (strip_hidden_output_columns columns out). by intros [= <-].
Qed.

Lemma relation_well_formed `{!SortByLaws} source schema explained (read_plan : plan) row_matches_relation bound r :
  keeps_shape → plan_is_explain read_plan = false →
  execute_relation source schema explained read_plan row_matches_relation bound = Some (Ok r) → well_formed_result r.
Proof.
  intros Hk He. unfold execute_relation_select_plan_with_row_bound.
  rewrite He. destruct (count_star_projection _ _) as [output_name|].
  - destruct (count_star_is_strict_full_table _); [intros [= <-]; apply count_well_formed|].
    destruct (source_indexed_count _); [intros [= <-]; apply count_well_formed|].
    destruct (count_matching _ _); [|done]. intros [= <-]. apply count_well_formed.
  - destruct (relation_columns schema read_plan) as [columns|] eqn:Ec; [|done].
    destruct (map_result _ _) as [values|] eqn:Ev; [|done]. destruct (capacity_overflows _); [done|].
    apply columns_seqno in Ec as [Hlen Hseq]; [|apply relation_column_seqno]. apply map_result_length in Ev.
    destruct (collect_rows _ _ _ _ _) as [rows|] eqn:Er; [|done]. apply processed_well_formed; [done| |done].
    eapply collect_rows_shape, Er. intros row projected. by apply project_row_length.
Qed.

Lemma joined_well_formed `{!SortByLaws} access explained (read_plan : plan) row_matches_relation row_matches_joined bound r :
  keeps_shape → plan_is_explain read_plan = false →
  execute_joined access explained read_plan row_matches_relation row_matches_joined bound = Some (Ok r) →
  well_formed_result r.
Proof.
  intros Hk He. unfold execute_joined_select_plan_with_row_bound.
  rewrite He. destruct (count_star_projection _ _) as [output_name|].
  - destruct (build_joined_row_tuples _ _ _ _ _ _) as [tuples|]; [|done].
    destruct (count_matching _ _); [|done]. intros [= <-]. apply count_well_formed.
  - destruct (expand_join_projection_items _ _ _) as [expanded|]; [|done].
    destruct (map_result _ _) as [cvs|] eqn:Ec; [|done].
    destruct (build_joined_row_tuples _ _ _ _ _ _) as [tuples|]; [|done]. destruct (capacity_overflows _); [done|].
    assert (∀ i c, cvs.*1 !! i = Some c → seqno c = (Z.of_nat i + 1) mod 2 ^ 32) as Hseq.
    { intros i c. rewrite list_lookup_fmap, fmap_Some. intros (cv & Hi & ->).
      destruct (map_result_lookup _ _ _ _ _ Ec Hi) as ([j it] & Hj & Hm).
      rewrite list_lookup_imap, fmap_Some in Hj. destruct Hj as (it' & _ & [= -> ->]). by eapply joined_column_seqno. }
    apply map_result_length in Ec. rewrite length_imap in Ec.
    destruct (collect_rows _ _ _ _ _) as [rows|] eqn:Er; [|done]. apply processed_well_formed; [done| |done].
    eapply collect_rows_shape, Er. intros row projected. apply project_row_length; by rewrite length_fmap.
Qed.

Lemma projection_only_item_column seq (it : item) cv :
  projection_only_item expression evaluate_function sql_function_references_column seq it = Ok cv →
  seqno cv.1 = (Z.of_nat seq + 1) mod 2 ^ 32 ∧ is_hidden cv.1 = false.
Proof.
  destruct it; simpl; try done; [| |by intros [= <-]].
  - destruct (case_projection_requires_row_context _ _ _ _); [done|].
    destruct (evaluate_case_projection _ _ _ _ _ _); [|done]. by intros [= <-].
  - destruct (map_err _ _); [|done]. by intros [= <-].
Qed.

Lemma projection_only_well_formed `{!SortByLaws} (read_plan : plan) r :
  keeps_shape → execute_projection_only read_plan = Some (Ok r) → well_formed_result r.
Proof.
  intros Hk. unfold execute_projection_only_select_plan. destruct (map_result _ _) as [cvs|] eqn:Ec; [|done].
  destruct (apply_select_post_processing _ _ _ _ _ _) as [[out|]|] eqn:E; [|done..]. intros [= <-].
  assert (∀ i c, cvs.*1 !! i = Some c → seqno c = (Z.of_nat i + 1) mod 2 ^ 32 ∧ is_hidden c = false) as Hc.
  { intros i c. rewrite list_lookup_fmap, fmap_Some. intros (cv & Hi & ->).
    destruct (map_result_lookup _ _ _ _ _ Ec Hi) as ([j it] & Hj & Hm).
    rewrite list_lookup_imap, fmap_Some in Hj. destruct Hj as (it' & _ & [= -> ->]). by eapply projection_only_item_column. }
  split; simpl; [|by intros; eapply Hc|apply Forall_lookup; intros; by eapply Hc].
  eapply post_processing_shaped; [done..|]. repeat constructor. by rewrite !length_fmap.
Qed.
End queries.
