(* ===== verification/SortFacts.v ===== *)
(** * DISTINCT and ORDER BY

    Facts about the order of result rows and about duplicates: what [apply_select_post_processing] of [SelectPlan.v] does
    for DISTINCT and ORDER BY, when the comparison of the values is an order, and where it is none. *)

From Stdlib Require Import ZArith Lia Strings.Byte Sorting.Sorted.
From stdpp Require Import base gmap list strings sorting.
From S2P Require Import Prelude Text Float64 Schema RowCodec FieldValue Predicates Conditions Joins.
From S2P Require Import SelectPlan SelectExec SelectFacts.

Local Open Scope Z_scope.

(** ** Stable sorting *)

Section sorting.
Context {A : Type} (cmp : A → A → comparison).

Abbreviation le x y := (comparison_le (cmp x y) = true).

Lemma orders_sub l l' : (∀ x, x ∈ l' → x ∈ l) → orders cmp l → orders cmp l'.
Proof. intros Hs [Ho Ht]. split; [intros; apply Ho; auto|]. intros x y z ???. apply (Ht x y z); auto. Qed.

#[local] Ltac sub_orders Ho := eapply orders_sub; [|exact Ho]; set_solver.

Lemma insert_permutation x l : insert_ordered cmp x l ≡ₚ x :: l.
Proof.
  induction l as [|y l IH]; [done|]. simpl. destruct (comparison_le (cmp x y)); [done|]. rewrite IH. apply Permutation_swap.
Qed.

Lemma stable_sort_permutation l : stable_sort cmp l ≡ₚ l.
Proof. induction l as [|x l IH]; [done|]. simpl. by rewrite insert_permutation, IH. Qed.

(** An element that is not before another one comes behind it. *)
Lemma orders_total l x y : orders cmp l → x ∈ l → y ∈ l → comparison_le (cmp x y) = false → le y x.
Proof. intros [Ho _] Hx Hy. rewrite (Ho x y) by done. by destruct (cmp x y). Qed.

Lemma insert_sorted x l :
  orders cmp (x :: l) → StronglySorted (λ x y, le x y) l → StronglySorted (λ x y, le x y) (insert_ordered cmp x l).
Proof.
  intros Ho. induction 1 as [|y l Hl IH Hy]; [by repeat constructor|]. simpl.
  destruct (comparison_le (cmp x y)) eqn:E.
  - constructor; [by constructor|]. constructor; [done|]. rewrite Forall_forall in Hy |- *. intros z Hz.
    destruct Ho as [_ Ht]. apply (Ht x y z); set_solver.
  - constructor; [apply IH; sub_orders Ho|]. rewrite insert_permutation. constructor; [|done].
    apply (orders_total _ _ _ Ho); set_solver.
Qed.

Lemma stable_sort_ordered l : orders cmp l → StronglySorted (λ x y, le x y) (stable_sort cmp l).
Proof.
  induction l as [|x l IH]; intros Ho; [constructor|]. simpl. apply insert_sorted.
  - eapply orders_sub; [|exact Ho]. intros z. by rewrite stable_sort_permutation.
  - apply IH; sub_orders Ho.
Qed.

Lemma stable_sort_sorted l : orders cmp l → StronglySorted (λ x y, cmp x y ≠ Gt) (stable_sort cmp l).
Proof.
  intros Ho%stable_sort_ordered. induction Ho as [|x l' _ IH Hx]; constructor; [done|].
  eapply Forall_impl; [exact Hx|]. intros y Hy E. simpl in Hy, E. by rewrite E in Hy.
Qed.

Abbreviation peers z l := (filter (λ y, cmp z y = Eq) l).

Lemma insert_stable z x l : orders cmp (z :: x :: l) → peers z (insert_ordered cmp x l) = peers z (x :: l).
Proof.
  induction l as [|y l IH]; intros Ho; [done|]. simpl. destruct (comparison_le (cmp x y)) eqn:E; [done|].
  rewrite (filter_cons _ y (insert_ordered cmp x l)), IH by (sub_orders Ho).
  rewrite !filter_cons. destruct (decide (cmp z x = Eq)) as [Ex|]; [|done].
  destruct (decide (cmp z y = Eq)) as [Ey|]; [exfalso|done]. destruct Ho as [Hop Ht].
  assert (comparison_le (cmp x y) = true); [|congruence].
  apply (Ht x z y); try set_solver; [rewrite (Hop z x) by set_solver; by rewrite Ex|by rewrite Ey].
Qed.

(** Equal elements stay in the order in which they were. *)
Lemma stable_sort_stable z l : orders cmp l → z ∈ l → peers z (stable_sort cmp l) = peers z l.
Proof.
  intros Ho Hz. assert (orders cmp (z :: l)) as Hz' by (sub_orders Ho).
  clear Ho Hz. induction l as [|x l IH]; [done|]. simpl. rewrite insert_stable.
  - rewrite !filter_cons, IH; [done|]. (sub_orders Hz').
  - eapply orders_sub; [|exact Hz']. intros w. by rewrite stable_sort_permutation.
Qed.
End sorting.

(** ** DISTINCT *)

(** The values that DISTINCT compares. *)
Definition distinct_key (columns : list FieldDef) (row : result_row) : list bytes :=
  if Nat.eqb (length (visible_indexes columns)) (length columns) then row
  else omap (λ index, row !! index) (visible_indexes columns).

Lemma distinct_rows_unique columns rows : distinct_rows columns rows = unique_rows (distinct_key columns) ∅ rows.
Proof. unfold distinct_rows, distinct_key. by destruct (Nat.eqb _ _). Qed.

Lemma unique_rows_keys key seen rows :
  NoDup (key <$> unique_rows key seen rows) ∧
  (∀ row, row ∈ unique_rows key seen rows → key row ∉ seen) ∧
  ∀ row, row ∈ rows → key row ∈ seen ∨ ∃ row', row' ∈ unique_rows key seen rows ∧ key row' = key row.
Proof.
  revert seen. induction rows as [|row rows IH]; intros seen; simpl; [split; [constructor|set_solver]|].
  case_bool_decide as Hk.
  - destruct (IH seen) as (? & ? & Hc). split; [done|]. split; [done|]. intros r [->|?]%elem_of_cons; auto.
  - destruct (IH ({[key row]} ∪ seen)) as (Hn & Ho & Hc). split; [|split].
    + csimpl. constructor; [|done]. intros (r & Er & Hr)%list_elem_of_fmap. apply Ho in Hr. set_solver.
    + intros r [->|Hr]%elem_of_cons; [done|]. apply Ho in Hr. set_solver.
    + intros r [->|Hr]%elem_of_cons; [right; exists row; set_solver|].
      destruct (Hc r Hr) as [[E%elem_of_singleton|?]%elem_of_union|(r' & ? & ?)]; [|by left|set_solver].
      right. exists row. set_solver.
Qed.

(** ** ORDER BY *)

Section order_by.
Context {Subquery Function NamedWindow : Type} `{FieldValues} `{UuidText} `{RegexEngine} `{SortBy}.
Context (expression : provider → ustr → result (option bytes) string).
Context (apply_window_function : nat → Function → list FieldDef → list NamedWindow → list result_row → outcome (list result_row)).

Abbreviation plan := (SelectReadPlan Subquery Function NamedWindow).
Abbreviation item := (SelectProjectionItem Subquery Function).
Abbreviation process := (apply_select_post_processing expression apply_window_function).

(** Of the plan only DISTINCT, ORDER BY, LIMIT and OFFSET are used. *)
Record orders_only (read_plan : plan) : Prop := {
  orders_limit_by : plan_limit_by read_plan = None;
  orders_top_percent : plan_top_percent read_plan = None;
  orders_top_percent_with_ties : plan_top_percent_with_ties read_plan = None;
  orders_top_with_ties : plan_top_with_ties_limit read_plan = None;
  orders_fetch_percent : plan_fetch_percent read_plan = None;
  orders_fetch_percent_with_ties : plan_fetch_percent_with_ties read_plan = None;
  orders_fetch_with_ties : plan_fetch_with_ties_limit read_plan = None;
  orders_qualify : plan_qualify_condition read_plan = None
}.

Lemma orders_only_filters (read_plan : plan) rows columns ties :
  orders_only read_plan →
  tie_indexes columns (plan_order_by read_plan) = Ok ties →
  apply_post_filters expression rows columns read_plan
  = Ok (apply_row_window rows (plan_limit read_plan) (plan_offset read_plan)).
Proof.
  intros [] Ht. unfold apply_post_filters.
  rewrite orders_qualify0, orders_limit_by0, orders_top_percent0, orders_top_percent_with_ties0,
    orders_fetch_percent0, orders_fetch_percent_with_ties0, orders_top_with_ties0, orders_fetch_with_ties0.
  simpl. unfold apply_top_with_ties_post_filter. by rewrite Ht.
Qed.

End order_by.

(** ** Where sorting fails *)

(** The comparison of ORDER BY is not an order.  It compares two values as numbers when both are numbers and as bytes
    otherwise, so that the texts 9, 10 and 1a are each smaller than the next one and the last is smaller than the first:
    [slice::sort_by] has no contract for such a comparison, and may panic. *)
Theorem order_by_values_cycle :
  let row text : result_row := [utf8_encode (lit text)] in
  let rows := [row "9"%string; row "10"%string; row "1a"%string] in
  compare_rows [(0%nat, false)] (row "9"%string) (row "10"%string) = Lt ∧
  compare_rows [(0%nat, false)] (row "10"%string) (row "1a"%string) = Lt ∧
  compare_rows [(0%nat, false)] (row "1a"%string) (row "9"%string) = Lt ∧
  ¬ orders (compare_rows [(0%nat, false)]) rows.
Proof.
  intros row rows. assert (∀ a b, compare_rows [(0%nat, false)] (row a) (row b)
    = compare_rows [(0%nat, false)] [utf8_encode (lit a)] [utf8_encode (lit b)]) as E by done.
  repeat split; [by vm_compute..|]. intros [_ Ht].
  assert (comparison_le (compare_rows [(0%nat, false)] (row "9"%string) (row "1a"%string)) = true) as Hle.
  { apply (Ht _ (row "10"%string)); [set_solver..|by vm_compute|by vm_compute]. }
  by vm_compute in Hle.
Qed.

Section unresolved.
Context {Subquery Function NamedWindow : Type} `{FieldValues} `{UuidText} `{RegexEngine} `{SortBy} `{KeySetOrder}.
Context (expression : provider → ustr → result (option bytes) string).
Context (apply_window_function : nat → Function → list FieldDef → list NamedWindow → list result_row → outcome (list result_row)).
Context (evaluate_function : Function → provider → result (option bytes) string).
Context (sql_function_references_column function_is_count_star : Function → bool).
Context (table_schema : ustr → option TableSchema).

Abbreviation plan := (SelectReadPlan Subquery Function NamedWindow).
Abbreviation item := (SelectProjectionItem Subquery Function).
Abbreviation process := (apply_select_post_processing expression apply_window_function).
Abbreviation execute_relation :=
  (execute_relation_select_plan_with_row_bound expression apply_window_function evaluate_function
     sql_function_references_column function_is_count_star).
Abbreviation execute_joined :=
  (execute_joined_select_plan_with_row_bound expression apply_window_function evaluate_function
     sql_function_references_column function_is_count_star table_schema).

Lemma tie_indexes_unresolved columns (order_by : list (SelectOrderByItem Function)) o :
  o ∈ order_by → resolve_order_by_projection_index columns (order_field_name o) = None →
  is_ok (tie_indexes columns order_by) = false.
Proof.
  intros Ho Hr. induction Ho as [o order_by|o o' order_by _ IH]; simpl; [by rewrite Hr|].
  specialize (IH Hr). destruct (resolve_order_by_projection_index columns (order_field_name o')); [|done].
  by destruct (tie_indexes columns order_by).
Qed.

Lemma unresolved_order_fails rows columns (read_plan : plan) items o out :
  o ∈ plan_order_by read_plan → resolve_order_by_projection_index columns (order_field_name o) = None →
  process rows columns read_plan items ≠ Some (Ok out).
Proof.
  intros Ho Hr. pose proof (tie_indexes_unresolved _ _ _ Ho Hr) as Ht.
  unfold apply_select_post_processing. destruct (if is_empty _ then _ else _) as [sorted|]; [|done]. simpl.
  destruct (apply_window_projection_values _ _ _ _ _) as [[windowed|]|]; [|done..].
  unfold apply_post_filters. intros [= E]. revert E.
  repeat (match goal with |- context [match ?e with Ok _ => _ | Err _ => _ end] => destruct e eqn:? end; [|done]).
  all: destruct (tie_indexes columns (plan_order_by read_plan)) eqn:Eti; [done|].
  all: unfold apply_top_with_ties_post_filter in *; rewrite Eti in *. done.
Qed.

(** The only column of a projection that renames it. *)
Lemma renamed_items (items : list item) (read_plan : plan) name output_name descending :
  items = [IColumn name output_name] → plan_order_by read_plan = [mkSelectOrderByItem name descending None] →
  plan_qualify_condition read_plan = None → plan_limit_by read_plan = None →
  ensure_order_by_projection_items items read_plan = items.
Proof.
  intros -> Ho Hq Hl. unfold ensure_order_by_projection_items. rewrite Hq, Ho, Hl. simpl.
  unfold cover. simpl. unfold str_eqb. by rewrite bool_decide_true.
Qed.

Lemma renamed_not_count (read_plan : plan) name output_name :
  plan_projection_items read_plan = [IColumn name output_name] →
  count_star_projection function_is_count_star read_plan = None.
Proof. unfold count_star_projection. by intros ->. Qed.

Lemma renamed_column_unresolved (column : FieldDef) name :
  eq_ignore_ascii_case (field_name column) name = false → split_field name = None →
  resolve_order_by_projection_index [column] name = None.
Proof. intros Hn Hs. unfold resolve_order_by_projection_index, columns_named. simpl. by rewrite Hn, Hs. Qed.

(** A query that renames its sort column fails.  For SELECT a AS b FROM t ORDER BY a no hidden sort column is added,
    since the projection has the field; but the filters for TOP WITH TIES look for a result column of that name, also when
    there is no such clause, and there is none: whatever the rows are, the query has no result. *)
Theorem aliased_order_by_fails source schema explained (read_plan : plan) row_matches_relation bound name output_name
    descending r :
  plan_is_explain read_plan = false → plan_projection_items read_plan = [IColumn name output_name] →
  plan_order_by read_plan = [mkSelectOrderByItem name descending None] →
  plan_qualify_condition read_plan = None → plan_limit_by read_plan = None →
  eq_ignore_ascii_case output_name name = false → split_field name = None →
  execute_relation source schema explained read_plan row_matches_relation bound ≠ Some (Ok r).
Proof.
  intros He Hi Ho Hq Hl Hne Hs. unfold execute_relation_select_plan_with_row_bound.
  rewrite He, (renamed_not_count _ _ _ Hi).
  assert (relation_items schema read_plan = [IColumn name output_name]) as Hitems.
  { unfold relation_items. rewrite Hi. by eapply renamed_items. }
  unfold relation_columns. rewrite Hitems. simpl. destruct (field schema name) as [f|]; [|done].
  destruct (capacity_overflows _); [done|]. destruct (collect_rows _ _ _ _ _) as [rows|]; [|done].
  set (columns := [field_column _ _ _ _ _]).
  destruct (apply_select_post_processing _ _ _ _ _ _) as [[out|]|] eqn:E; [|done..].
  eapply unresolved_order_fails in E; [done| |].
  - rewrite Ho. apply list_elem_of_singleton. reflexivity.
  - by apply renamed_column_unresolved.
Qed.

Lemma collect_rows_ok {A} (matches : A → result bool string) (project : A → result result_row string) limit c rows :
  (∀ row, row ∈ rows → is_ok (matches row) = true) → (∀ row, is_ok (project row) = true) →
  is_ok (collect_rows matches project limit c rows) = true.
Proof.
  intros Hm Hp. revert c. induction rows as [|row rows IH]; intros c; [done|]. simpl.
  pose proof (Hm row ltac:(set_solver)) as Hr. specialize (IH ltac:(set_solver)).
  destruct (matches row) as [[]|]; [|apply IH|done]. specialize (Hp row). destruct (project row); [|done].
  destruct (match limit with Some limit => limit <=? c + 1 | None => false end); [done|].
  specialize (IH (c + 1)). by destruct (collect_rows _ _ _ _ _).
Qed.

Lemma renamed_sort_panics (column : FieldDef) (read_plan : plan) rows items name q unqualified descending :
  plan_order_by read_plan = [mkSelectOrderByItem name descending None] →
  rsplit_once name (lit ".") = Some (q, unqualified) → field_name column ≠ name →
  eq_ignore_ascii_case (field_name column) unqualified = false →
  process rows [column] read_plan items = None.
Proof.
  intros Ho Hsplit Hne Hun. unfold apply_select_post_processing, sorted_rows. rewrite Ho. simpl.
  unfold sort_index, columns_named, column_index_map. simpl.
  rewrite lookup_insert_ne, lookup_empty by done. rewrite Hsplit. simpl. by rewrite Hun.
Qed.

(** C36: Over joined tables the same query panics.  SELECT q.a AS b ... ORDER BY q.a is planned without a hidden column; to
    find the column to sort by the code indexes the list of matching columns before it looks at its length, and the list is
    empty.  This happens whenever the query comes as far as sorting: the tables are joined and the condition is evaluated. *)
Theorem aliased_join_order_by_panics access explained (read_plan : plan) row_matches_relation row_matches_joined bound
    name output_name q unqualified descending f tuples :
  plan_is_explain read_plan = false → plan_projection_items read_plan = [IColumn name output_name] →
  plan_order_by read_plan = [mkSelectOrderByItem name descending None] →
  plan_qualify_condition read_plan = None → plan_limit_by read_plan = None →
  rsplit_once name (lit ".") = Some (q, unqualified) → output_name ≠ name →
  eq_ignore_ascii_case output_name unqualified = false →
  resolve_join_field table_schema (plan_relations read_plan) name = Some f →
  build_joined_row_tuples access expression row_matches_relation (plan_relations read_plan)
    (plan_pushdown_conditions read_plan) (plan_joins read_plan) = Ok tuples →
  (∀ tuple, tuple ∈ tuples → is_ok (row_matches_joined tuple (plan_where_condition read_plan)) = true) →
  execute_joined access explained read_plan row_matches_relation row_matches_joined bound = None.
Proof.
  intros He Hi Ho Hq Hl Hsplit Hne Hun Hf Ht Hm. unfold execute_joined_select_plan_with_row_bound.
  rewrite He, (renamed_not_count _ _ _ Hi), Ht, Hi. simpl. erewrite renamed_items by done. simpl. rewrite Hf. simpl.
  destruct (capacity_overflows _); [done|].
  destruct (collect_rows _ _ _ _ _) as [rows|] eqn:E.
  - erewrite renamed_sort_panics; done.
  - match type of E with collect_rows ?m ?p ?l ?c ?t = _ =>
      pose proof (collect_rows_ok m p l c t Hm ltac:(done)) as Hok end.
    by rewrite E in Hok.
Qed.
End unresolved.
