(* ===== verification/Windows.v ===== *)
(** * Window functions

    Models [serverlib/src/engine/execution/commands/select/window.rs]: the functions with an OVER clause, which write a column
    of the result rows after sorting.  The syntax trees of the sqlparser crate are data here, with the constructors that the
    code distinguishes.  The partitions are the values of a [HashMap], in an order that the class [PartitionOrder] gives. *)

From Stdlib Require Import ZArith Lia SpecFloat Strings.Byte.
From stdpp Require Import base gmap list strings sorting.
From S2P Require Import Prelude Settings Text Float64 Schema RowCodec FieldValue Predicates Conditions Joins SelectPlan SelectExec.

Local Open Scope Z_scope.

(** ** Syntax *)

Inductive UnaryOperator := Plus | Minus | OtherOperator.

Inductive Expr :=
  | Identifier (value : ustr)
  | CompoundIdentifier (parts : list ustr)
  | Number (text : ustr)
  | Null
  | QuotedString (text : ustr)
  | Boolean (value : bool)
  | UnaryOp (op : UnaryOperator) (expr : Expr)
  | OtherExpr.

(** [AExpr] is an expression with or without a name, [AOther] a wildcard. *)
Inductive FunctionArg := AExpr (expr : Expr) | AOther.

Inductive WindowFrameBound := CurrentRow | Preceding (expr : option Expr) | Following (expr : option Expr).

Inductive WindowFrameUnits := Rows | Groups | Range.

Record WindowFrame := mkWindowFrame {
  units : WindowFrameUnits;
  start_bound : WindowFrameBound;
  end_bound : option WindowFrameBound
}.

(** [nulls_or_fill]: NULLS FIRST, NULLS LAST or WITH FILL is given. *)
Record OrderByExpr := mkOrderByExpr { order_expr : Expr; asc : option bool; nulls_or_fill : bool }.

Record WindowSpec := mkWindowSpec {
  spec_window_name : option ustr;
  partition_by : list Expr;
  spec_order_by : list OrderByExpr;
  window_frame : option WindowFrame
}.

(** Also the definition of a named window. *)
Inductive WindowType := NamedWindow (name : ustr) | InlineWindow (spec : WindowSpec).

(** [call_args]: [None] when the arguments are not a list. *)
Record WindowCall := mkWindowCall {
  call_name : ustr;
  call_args : option (list FunctionArg);
  call_over : option WindowType
}.

Abbreviation NamedWindowDefinition := (ustr * WindowType)%type.

(** ** The window of a call *)

Definition merge_window_specs (base_spec override_spec : WindowSpec) : WindowSpec := {|
  spec_window_name := None;
  partition_by := if is_empty (partition_by override_spec) then partition_by base_spec else partition_by override_spec;
  spec_order_by := if is_empty (spec_order_by override_spec) then spec_order_by base_spec else spec_order_by override_spec;
  window_frame := match window_frame override_spec with Some frame => Some frame | None => window_frame base_spec end
|}.

(** The recursion over names; [None] when the fuel is used up. *)
Fixpoint resolve_named_window_spec (fuel : nat) (named_windows : list NamedWindowDefinition) (visiting : list ustr)
    (window_name : ustr) : outcome WindowSpec :=
  match fuel with
  | O => None
  | S fuel =>
      let normalized_name := to_ascii_lowercase window_name in
      if existsb (str_eqb normalized_name) visiting then Some (Err "window reference is recursive"%string)
      else
        match find (λ definition : NamedWindowDefinition, eq_ignore_ascii_case definition.1 window_name) named_windows with
        | None => Some (Err "named window is not defined"%string)
        | Some (_, NamedWindow reference) =>
            resolve_named_window_spec fuel named_windows (normalized_name :: visiting) reference
        | Some (_, InlineWindow spec) =>
            match spec_window_name spec with
            | None => Some (Ok spec)
            | Some base =>
                let! base_spec := resolve_named_window_spec fuel named_windows (normalized_name :: visiting) base in
                Some (Ok (merge_window_specs base_spec spec))
            end
        end
  end.

(** The names that are visited are different names of definitions. *)
Definition window_fuel (named_windows : list NamedWindowDefinition) : nat := S (length named_windows).

Definition resolve_window_spec_from_spec (window_spec : WindowSpec) (named_windows : list NamedWindowDefinition) :
    outcome WindowSpec :=
  match spec_window_name window_spec with
  | Some name =>
      let! base_spec := resolve_named_window_spec (window_fuel named_windows) named_windows [] name in
      Some (Ok (merge_window_specs base_spec window_spec))
  | None => Some (Ok window_spec)
  end.

Definition resolve_window_spec (function : WindowCall) (named_windows : list NamedWindowDefinition) : outcome WindowSpec :=
  match call_over function with
  | None => Some (Err "window projection requires an OVER clause"%string)
  | Some (NamedWindow name) => resolve_named_window_spec (window_fuel named_windows) named_windows [] name
  | Some (InlineWindow spec) => resolve_window_spec_from_spec spec named_windows
  end.

(** ** Columns and arguments *)

Definition number_usize (error : string) (expr : Expr) : result Z string :=
  match expr with
  | Number text => match parse_usize text with Some n => Ok n | None => Err error end
  | _ => Err error
  end.

(** The name that a column position stands for. *)
Definition ordinal_name (columns : list FieldDef) (text : ustr) : result ustr string :=
  match parse_usize text with
  | None => Err "window ordinal must be an unsigned numeric literal"%string
  | Some position =>
      if position =? 0 then Err "window ordinal must start at 1"%string
      else
        match columns !! Z.to_nat (position - 1) with
        | None => Err "window ordinal is out of range"%string
        | Some column => Ok (field_name column)
        end
  end.

(** [join] with dots. *)
Fixpoint join_dots (parts : list ustr) : ustr :=
  match parts with
  | [] => []
  | [part] => part
  | part :: parts => part ++ lit "." ++ join_dots parts
  end.

Definition partition_name (columns : list FieldDef) (expression : Expr) : result ustr string :=
  match expression with
  | Identifier value => Ok (to_ascii_lowercase value)
  | CompoundIdentifier ((_ :: _) as parts) => Ok (join_dots (to_ascii_lowercase <$> parts))
  | Number text => ordinal_name columns text
  | _ => Err "window column must be a direct column reference or an ordinal"%string
  end.

Definition order_name (columns : list FieldDef) (expression : Expr) : result ustr string :=
  match expression with
  | Identifier value => Ok (to_ascii_lowercase value)
  | CompoundIdentifier [part] => Ok (to_ascii_lowercase part)
  | Number text => ordinal_name columns text
  | _ => Err "window column must be a direct column reference or an ordinal"%string
  end.

Definition lowercase_index_map (columns : list FieldDef) : gmap ustr nat :=
  foldl (λ m '(index, column), <[to_ascii_lowercase (field_name column) := index]> m) ∅ (imap pair columns).

Definition find_column (column_indexes : gmap ustr nat) (name : ustr) : result nat string :=
  match column_indexes !! name with
  | None => Err "window references unknown output field"%string
  | Some index => Ok index
  end.

Definition partition_index (columns : list FieldDef) (expression : Expr) : result nat string :=
  let? name := partition_name columns expression in find_column (lowercase_index_map columns) name.

Definition order_index (columns : list FieldDef) (expression : OrderByExpr) : result (nat * bool) string :=
  let? name := order_name columns (order_expr expression) in
  if nulls_or_fill expression then Err "window ORDER BY does not support NULLS FIRST/LAST or WITH FILL yet"%string
  else
    let? index := find_column (lowercase_index_map columns) name in
    Ok (index, bool_decide (asc expression = Some false)).

Definition window_partition_and_order_indexes (window_spec : WindowSpec) (columns : list FieldDef) :
    result (list nat * list (nat * bool)) string :=
  let? partition_indexes := map_result (partition_index columns) (partition_by window_spec) in
  let? order_indexes := map_result (order_index columns) (spec_order_by window_spec) in
  Ok (partition_indexes, order_indexes).

Definition resolve_window_field_index (expression : Expr) (columns : list FieldDef) : result nat string :=
  let? name := partition_name columns expression in
  match list_find (λ column, eq_ignore_ascii_case (field_name column) name = true) columns with
  | None => Err "window references unknown output field"%string
  | Some (index, _) => Ok index
  end.

Definition arg_expr (error : string) (arg : FunctionArg) : result Expr string :=
  match arg with AExpr expr => Ok expr | AOther => Err error end.

Definition resolve_window_single_source_column (function : WindowCall) (columns : list FieldDef) : result nat string :=
  match call_args function with
  | Some (argument :: _) =>
      let? expression := arg_expr "window function currently supports only a direct column argument"%string argument in
      resolve_window_field_index expression columns
  | _ => Err "window function currently requires exactly one argument"%string
  end.

Definition resolve_ntile_bucket_count (function : WindowCall) : result Z string :=
  let error := "NTILE window function bucket count must be an unsigned numeric literal"%string in
  match call_args function with
  | Some [argument] =>
      let? bucket_expr := arg_expr error argument in
      let? bucket_count := number_usize error bucket_expr in
      if bucket_count =? 0 then Err "NTILE window function bucket count must be greater than 0"%string else Ok bucket_count
  | _ => Err "NTILE window function currently requires exactly one argument"%string
  end.

Definition resolve_nth_value_arguments (function : WindowCall) (columns : list FieldDef) : result (nat * Z) string :=
  let error := "NTH_VALUE window function ordinal must be an unsigned numeric literal"%string in
  match call_args function with
  | Some [source; nth] =>
      let? source_expression :=
        arg_expr "NTH_VALUE window function currently supports only a direct column source argument"%string source in
      let? nth_expression := arg_expr error nth in
      let? source_column_index := resolve_window_field_index source_expression columns in
      let? nth_position := number_usize error nth_expression in
      if nth_position =? 0 then Err "NTH_VALUE window function ordinal must start at 1"%string
      else Ok (source_column_index, nth_position)
  | _ => Err "NTH_VALUE window function currently requires exactly two arguments"%string
  end.

Definition render_window_default_value (expression : Expr) : result bytes string :=
  let error := "default value must be a literal"%string in
  match expression with
  | Null => Ok (utf8_encode (lit "NULL"))
  | Number text | QuotedString text => Ok (utf8_encode text)
  | Boolean value => Ok (utf8_encode (lit (if value then "true" else "false")))
  | UnaryOp Plus (Number text) => Ok (utf8_encode text)
  | UnaryOp Minus (Number text) => Ok (utf8_encode (lit "-" ++ text))
  | _ => Err error
  end.

Definition resolve_lag_lead_arguments (function : WindowCall) (columns : list FieldDef) :
    result (nat * Z * option bytes) string :=
  let count_error := "window function currently requires between 1 and 3 arguments"%string in
  let offset_error := "window function offset must be an unsigned numeric literal"%string in
  match call_args function with
  | None | Some [] => Err count_error
  | Some (source :: rest) =>
      if Nat.ltb 2 (length rest) then Err count_error
      else
        let? source_expression :=
          arg_expr "window function currently supports only a direct column source argument"%string source in
        let? source_column_index := resolve_window_field_index source_expression columns in
        let? offset :=
          match rest !! 0%nat with
          | None => Ok 1
          | Some argument => let? offset_expr := arg_expr offset_error argument in number_usize offset_error offset_expr
          end in
        let? default_value :=
          match rest !! 1%nat with
          | None => Ok None
          | Some argument =>
              let? default_expr := arg_expr "window function default value must be a literal"%string argument in
              let? value := render_window_default_value default_expr in Ok (Some value)
          end in
        Ok (source_column_index, offset, default_value)
  end.

(** ** Values *)

Definition parse_window_numeric_value (value : bytes) : result (option f64) string :=
  if is_empty value || bool_decide (value = null_text) then Ok None
  else
    match from_utf8 value with
    | None => Err "window aggregate value is not valid UTF-8"%string
    | Some text =>
        let text := trim text in
        if is_empty text || eq_ignore_ascii_case text (lit "null") then Ok None
        else match parse_f64 text with Some number => Ok (Some number) | None => Err "window aggregate value is not numeric"%string end
    end.

Definition is_window_null_value (value : bytes) : bool :=
  is_empty value || bool_decide (value = null_text)
  || match from_utf8 value with Some text => eq_ignore_ascii_case (trim text) (lit "null") | None => false end.

Definition render_window_numeric_value (value : f64) : bytes :=
  if fract_is_zero value then utf8_encode (show_int (f64_as_int i128_min i128_max value)) else utf8_encode (show_f64 value).

Definition f64_zero : f64 := S754_zero false.
Definition f64_add : f64 → f64 → f64 := SFadd (precision binary64) (max_exponent binary64).
Definition f64_sub : f64 → f64 → f64 := SFsub (precision binary64) (max_exponent binary64).
Definition f64_div : f64 → f64 → f64 := SFdiv (precision binary64) (max_exponent binary64).

(** [f64::max] and [f64::min]: of a number and a NaN the number. *)
Definition f64_pick (is_max : bool) (current candidate : f64) : f64 :=
  match partial_cmp current candidate with
  | Some Lt => if is_max then candidate else current
  | Some Gt => if is_max then current else candidate
  | Some Eq => current
  | None => if is_nan current then candidate else current
  end.

(** ** Partitions *)

Definition partition_key (partition_indexes : list nat) (row : result_row) : list bytes :=
  omap (λ index, row !! index) partition_indexes.

Definition partitioned_row_indexes (rows : list result_row) (partition_indexes : list nat) : gmap (list bytes) (list nat) :=
  foldl (λ m '(row_index, row),
           let key := partition_key partition_indexes row in
           <[key := default [] (m !! key) ++ [row_index]]> m) ∅ (imap pair rows).

Class PartitionOrder := { into_values : gmap (list bytes) (list nat) → list (list nat) }.

Class PartitionOrderLaws `{PartitionOrder} := {
  into_values_permutation m : into_values m ≡ₚ (map_to_list m).*2
}.

(** The order of [Option<&Vec<u8>>]. *)
Definition option_compare (a b : option bytes) : comparison :=
  match a, b with
  | None, None => Eq
  | None, Some _ => Lt
  | Some _, None => Gt
  | Some a, Some b => bytes_compare a b
  end.

(** Indexes of rows are in range. *)
Definition row_value (rows : list result_row) (row_index column : nat) : option bytes := rows !! row_index ≫= (.!! column).

Fixpoint compare_rows_by_order (rows : list result_row) (order_indexes : list (nat * bool)) (lhs rhs : nat) : comparison :=
  match order_indexes with
  | [] => Nat.compare lhs rhs
  | (order_index, descending) :: order_indexes =>
      match option_compare (row_value rows lhs order_index) (row_value rows rhs order_index) with
      | Eq => compare_rows_by_order rows order_indexes lhs rhs
      | ordering => if descending then CompOpp ordering else ordering
      end
  end.

Definition rows_are_window_peers (rows : list result_row) (order_indexes : list (nat * bool)) (lhs rhs : nat) : bool :=
  forallb (λ '(order_index, _), bool_decide (row_value rows lhs order_index = row_value rows rhs order_index)) order_indexes.

Section windows.
Context `{SortBy} `{PartitionOrder}.

Definition sort_partition_row_indexes (rows : list result_row) (order_indexes : list (nat * bool))
    (partition_row_indexes : list nat) : option (list nat) :=
  if is_empty order_indexes then Some partition_row_indexes
  else sort_by nat (compare_rows_by_order rows order_indexes) partition_row_indexes.

(** The loop over the partitions that all window functions have. *)
Fixpoint for_partitions (apply : list result_row → list nat → result (list result_row) string)
    (order_indexes : list (nat * bool)) (partitions : list (list nat)) (rows : list result_row) : outcome (list result_row) :=
  match partitions with
  | [] => Some (Ok rows)
  | partition :: partitions =>
      partition ← sort_partition_row_indexes rows order_indexes partition;
      let! rows := Some (apply rows partition) in for_partitions apply order_indexes partitions rows
  end.

Definition each_partition (apply : list result_row → list nat → result (list result_row) string)
    (partition_indexes : list nat) (order_indexes : list (nat * bool)) (rows : list result_row) : outcome (list result_row) :=
  for_partitions apply order_indexes (into_values (partitioned_row_indexes rows partition_indexes)) rows.

(** A cell that does not exist is not written. *)
Definition set_cell (column_index : nat) (value : bytes) (row_index : nat) (rows : list result_row) : list result_row :=
  alter (λ row : result_row, <[column_index := value]> row) row_index rows.

(** The loop over the positions of a partition; a value is computed from the rows with the cells that are written so far. *)
Fixpoint for_positions (value : list result_row → nat → result bytes string) (column_index position : nat)
    (row_indexes : list nat) (rows : list result_row) : result (list result_row) string :=
  match row_indexes with
  | [] => Ok rows
  | row_index :: row_indexes =>
      let? v := value rows position in
      for_positions value column_index (S position) row_indexes (set_cell column_index v row_index rows)
  end.

(** ** Ranking *)

Definition position_text (n : nat) : bytes := utf8_encode (show_int (Z.of_nat n)).

Definition apply_row_number_window_projection (column_index : nat) : list nat → list (nat * bool) → list result_row →
    outcome (list result_row) :=
  each_partition (λ rows partition, for_positions (λ _ position, Ok (position_text (S position))) column_index 0 partition rows).

(** The loop of the ranks: [next] is the rank of a row at a position that is no peer of the row before it. *)
Fixpoint rank_loop (order_indexes : list (nat * bool)) (next : nat → nat → nat) (text : nat → bytes) (column_index : nat)
    (previous : option nat) (position current_rank : nat) (row_indexes : list nat) (rows : list result_row) : list result_row :=
  match row_indexes with
  | [] => rows
  | row_index :: row_indexes =>
      let current_rank :=
        match previous with
        | Some previous =>
            if rows_are_window_peers rows order_indexes previous row_index then current_rank else next position current_rank
        | None => current_rank
        end in
      rank_loop order_indexes next text column_index (Some row_index) (S position) current_rank row_indexes
        (set_cell column_index (text current_rank) row_index rows)
  end.

Definition apply_rank_window_projection (column_index : nat) (partition_indexes : list nat) (order_indexes : list (nat * bool)) :
    list result_row → outcome (list result_row) :=
  each_partition
    (λ rows partition, Ok (rank_loop order_indexes (λ position _, S position) position_text column_index None 0 1 partition rows))
    partition_indexes order_indexes.

Definition apply_dense_rank_window_projection (column_index : nat) (partition_indexes : list nat)
    (order_indexes : list (nat * bool)) : list result_row → outcome (list result_row) :=
  each_partition
    (λ rows partition, Ok (rank_loop order_indexes (λ _ current, S current) position_text column_index None 0 1 partition rows))
    partition_indexes order_indexes.

Definition percent_rank (partition_len current_rank : nat) : f64 :=
  if Nat.leb partition_len 1 then f64_zero
  else f64_div (f64_of_int (Z.of_nat (current_rank - 1))) (f64_of_int (Z.of_nat (partition_len - 1))).

Definition apply_percent_rank_window_projection (column_index : nat) (partition_indexes : list nat)
    (order_indexes : list (nat * bool)) : list result_row → outcome (list result_row) :=
  each_partition
    (λ rows partition,
       Ok (rank_loop order_indexes (λ position _, S position)
             (λ rank, render_window_numeric_value (percent_rank (length partition) rank)) column_index None 0 1 partition rows))
    partition_indexes order_indexes.

(** How many rows follow a row as peers, each one of the row before it. *)
Fixpoint peer_run (rows : list result_row) (order_indexes : list (nat * bool)) (row_index : nat) (rest : list nat) : nat :=
  match rest with
  | next :: rest =>
      if rows_are_window_peers rows order_indexes row_index next then S (peer_run rows order_indexes next rest) else O
  | [] => O
  end.

(** The groups of peers one after the other; there are at most as many as rows. *)
Fixpoint cume_dist_loop (fuel : nat) (order_indexes : list (nat * bool)) (column_index partition_len group_start : nat)
    (row_indexes : list nat) (rows : list result_row) : list result_row :=
  match fuel, row_indexes with
  | S fuel, row_index :: rest =>
      let further := peer_run rows order_indexes row_index rest in
      let group_end := (group_start + further)%nat in
      let cume_dist := f64_div (f64_of_int (Z.of_nat (S group_end))) (f64_of_int (Z.of_nat partition_len)) in
      let rows :=
        foldl (λ rows row_index, set_cell column_index (render_window_numeric_value cume_dist) row_index rows) rows
          (row_index :: take further rest) in
      cume_dist_loop fuel order_indexes column_index partition_len (S group_end) (drop further rest) rows
  | _, _ => rows
  end.

Definition apply_cume_dist_window_projection (column_index : nat) (partition_indexes : list nat)
    (order_indexes : list (nat * bool)) : list result_row → outcome (list result_row) :=
  each_partition
    (λ rows partition, Ok (cume_dist_loop (length partition) order_indexes column_index (length partition) 0 partition rows))
    partition_indexes order_indexes.

(** [None] is a division by zero. *)
Definition bucket_number (partition_len bucket_count row_position : Z) : option Z :=
  if bucket_count =? 0 then None
  else
    let base_bucket_size := partition_len / bucket_count in
    let remainder := partition_len mod bucket_count in
    let large_bucket_size := saturating_add base_bucket_size 1 in
    let large_bucket_rows := saturating_mul large_bucket_size remainder in
    if row_position <? large_bucket_rows then Some (row_position / large_bucket_size + 1)
    else if base_bucket_size =? 0 then None
    else Some (remainder + (row_position - large_bucket_rows) / base_bucket_size + 1).

(** The loop of NTILE, which panics where a bucket number does. *)
Fixpoint ntile_loop (partition_len bucket_count : Z) (column_index position : nat) (row_indexes : list nat)
    (rows : list result_row) : option (list result_row) :=
  match row_indexes with
  | [] => Some rows
  | row_index :: row_indexes =>
      bucket ← bucket_number partition_len bucket_count (Z.of_nat position);
      ntile_loop partition_len bucket_count column_index (S position) row_indexes
        (set_cell column_index (utf8_encode (show_int bucket)) row_index rows)
  end.

Fixpoint ntile_partitions (bucket_count : Z) (column_index : nat) (order_indexes : list (nat * bool))
    (partitions : list (list nat)) (rows : list result_row) : outcome (list result_row) :=
  match partitions with
  | [] => Some (Ok rows)
  | partition :: partitions =>
      partition ← sort_partition_row_indexes rows order_indexes partition;
      rows ← ntile_loop (Z.of_nat (length partition)) bucket_count column_index 0 partition rows;
      ntile_partitions bucket_count column_index order_indexes partitions rows
  end.

Definition apply_ntile_window_projection (column_index : nat) (function : WindowCall) (partition_indexes : list nat)
    (order_indexes : list (nat * bool)) (rows : list result_row) : outcome (list result_row) :=
  let! bucket_count := Some (resolve_ntile_bucket_count function) in
  ntile_partitions bucket_count column_index order_indexes (into_values (partitioned_row_indexes rows partition_indexes)) rows.

(** ** Neighbours *)

Definition lag_lead_value (is_lead : bool) (source_column_index : nat) (offset : Z) (default_value : option bytes)
    (partition : list nat) (rows : list result_row) (row_position : nat) : bytes :=
  let target := if is_lead then Z.of_nat row_position + offset else Z.of_nat row_position - offset in
  let resolved :=
    if (0 <=? target) && (target <? Z.of_nat (length partition))
    then source_row_index ← partition !! Z.to_nat target; row_value rows source_row_index source_column_index
    else None in
  default (default null_text default_value) resolved.

Definition apply_lag_lead_window_projection (columns : list FieldDef) (column_index : nat) (function : WindowCall)
    (partition_indexes : list nat) (order_indexes : list (nat * bool)) (is_lead : bool) (rows : list result_row) :
    outcome (list result_row) :=
  let! (source_column_index, offset, default_value) := Some (resolve_lag_lead_arguments function columns) in
  each_partition
    (λ rows partition,
       for_positions (λ rows position, Ok (lag_lead_value is_lead source_column_index offset default_value partition rows position))
         column_index 0 partition rows)
    partition_indexes order_indexes rows.

(** ** Frames *)

Definition parse_window_frame_offset (expr : Expr) : result Z string :=
  match expr with
  | Number value =>
      match parse_usize value with
      | Some offset => Ok offset
      | None => Err "window frame offset must be an unsigned numeric literal"%string
      end
  | _ => Err "window frame offset currently supports only unsigned numeric literals"%string
  end.

(** [window_frame_rows_bound_index] and [window_frame_groups_bound_index], for the position of a row or of a group. *)
Definition window_frame_bound_index (bound : WindowFrameBound) (position len : nat) : result nat string :=
  let last_index := (len - 1)%nat in
  match bound with
  | CurrentRow => Ok (Nat.min position last_index)
  | Preceding None => Ok 0%nat
  | Following None => Ok last_index
  | Preceding (Some expr) =>
      let? offset := parse_window_frame_offset expr in
      Ok (Z.to_nat (Z.min (saturating_sub (Z.of_nat position) offset) (Z.of_nat last_index)))
  | Following (Some expr) =>
      let? offset := parse_window_frame_offset expr in
      Ok (Z.to_nat (Z.min (saturating_add (Z.of_nat position) offset) (Z.of_nat last_index)))
  end.

Fixpoint peer_groups_from (rows : list result_row) (order_indexes : list (nat * bool)) (start position previous : nat)
    (rest : list nat) : list (nat * nat) :=
  match rest with
  | [] => [(start, (position - 1)%nat)]
  | row_index :: rest =>
      if rows_are_window_peers rows order_indexes previous row_index
      then peer_groups_from rows order_indexes start (S position) row_index rest
      else (start, (position - 1)%nat) :: peer_groups_from rows order_indexes position (S position) row_index rest
  end.

Definition partition_peer_groups (rows : list result_row) (partition : list nat) (order_indexes : list (nat * bool)) :
    list (nat * nat) :=
  match partition with
  | [] => []
  | row_index :: rest => peer_groups_from rows order_indexes 0 1 row_index rest
  end.

Definition peer_group_index_for_row (row_position : nat) (groups : list (nat * nat)) : nat :=
  match list_find (λ group : nat * nat, (group.1 ≤ row_position ∧ row_position ≤ group.2)%nat) groups with
  | Some (index, _) => index
  | None => O
  end.

Definition transformed_range_order_value (value : bytes) (descending : bool) : result f64 string :=
  let? number := parse_window_numeric_value value in
  match number with
  | None => Err "RANGE window frames currently require numeric ORDER BY values"%string
  | Some numeric => Ok (if descending then SFopp numeric else numeric)
  end.

Definition range_order_value (rows : list result_row) (order_index : nat) (descending : bool) (row_index : nat) :
    result f64 string :=
  match row_value rows row_index order_index with
  | None => Err "window RANGE ORDER BY value is out of range"%string
  | Some value => transformed_range_order_value value descending
  end.

(** The first position in a list of (position, row) whose value satisfies the test. *)
Fixpoint range_search (value : nat → result f64 string) (test : f64 → bool) (otherwise : nat) (rest : list (nat * nat)) :
    result nat string :=
  match rest with
  | [] => Ok otherwise
  | (position, row_index) :: rest =>
      let? number := value row_index in
      if test number then Ok position else range_search value test otherwise rest
  end.

(** [>=] and [<=]. *)
Definition f64_ge (x y : f64) : bool := match partial_cmp x y with Some Gt | Some Eq => true | _ => false end.
Definition f64_le (x y : f64) : bool := match partial_cmp x y with Some Lt | Some Eq => true | _ => false end.

Definition range_bound_position (rows : list result_row) (partition : list nat) (order_index : nat) (descending : bool)
    (bound : WindowFrameBound) (current : f64) (is_start : bool) : result nat string :=
  let last_index := (length partition - 1)%nat in
  let value := range_order_value rows order_index descending in
  let search target :=
    if is_start then range_search value (λ number, f64_ge number target) last_index (imap pair partition)
    else range_search value (λ number, f64_le number target) 0 (reverse (imap pair partition)) in
  match bound with
  | Preceding None => Ok 0%nat
  | Following None => Ok last_index
  | CurrentRow => search current
  | Preceding (Some expr) =>
      let? offset := parse_window_frame_offset expr in search (f64_sub current (f64_of_int offset))
  | Following (Some expr) =>
      let? offset := parse_window_frame_offset expr in search (f64_add current (f64_of_int offset))
  end.

Definition window_frame_range_bounds (rows : list result_row) (partition : list nat) (order_indexes : list (nat * bool))
    (row_position : nat) (start_bound end_bound : WindowFrameBound) : result (nat * nat) string :=
  match order_indexes with
  | [] => Ok (0%nat, (length partition - 1)%nat)
  | [(order_index, descending)] =>
      let? current := range_order_value rows order_index descending (default O (partition !! row_position)) in
      let? start := range_bound_position rows partition order_index descending start_bound current true in
      let? stop := range_bound_position rows partition order_index descending end_bound current false in
      Ok (start, stop)
  | _ => Err "RANGE window frames currently require exactly one ORDER BY expression"%string
  end.

Definition window_frame_bounds_for_partition (rows : list result_row) (partition : list nat) (order_indexes : list (nat * bool))
    (frame : option WindowFrame) (row_position : nat) : result (option (nat * nat)) string :=
  match frame with
  | None => Ok (Some (0%nat, (length partition - 1)%nat))
  | Some frame =>
      if is_empty partition then Ok None
      else
        let last_bound := default CurrentRow (end_bound frame) in
        let? (start, stop) :=
          match units frame with
          | Rows =>
              let? start := window_frame_bound_index (start_bound frame) row_position (length partition) in
              let? stop := window_frame_bound_index last_bound row_position (length partition) in
              Ok (start, stop)
          | Groups =>
              let peer_groups := partition_peer_groups rows partition order_indexes in
              let current_group := peer_group_index_for_row row_position peer_groups in
              let? start_group := window_frame_bound_index (start_bound frame) current_group (length peer_groups) in
              let? end_group := window_frame_bound_index last_bound current_group (length peer_groups) in
              Ok ((default (O, O) (peer_groups !! start_group)).1, (default (O, O) (peer_groups !! end_group)).2)
          | Range => window_frame_range_bounds rows partition order_indexes row_position (start_bound frame) last_bound
          end in
        if Nat.ltb stop start then Ok None else Ok (Some (start, stop))
  end.

(** ** Aggregates over frames *)

Definition source_value (rows : list result_row) (source_column_index row_index : nat) : result bytes string :=
  match row_value rows row_index source_column_index with
  | None => Err "window source column index is out of range"%string
  | Some value => Ok value
  end.

Definition numeric_value (rows : list result_row) (source_column_index row_index : nat) : result (option f64) string :=
  let? value := source_value rows source_column_index row_index in parse_window_numeric_value value.

(** The sums of the first values, from none to all of them. *)
Definition prefixes {A B} (f : A → B → A) (start : A) (values : list B) : list A :=
  (λ n, foldl f start (take n values)) <$> seq 0 (S (length values)).

(** The loop that all aggregates have: the values of the partition are read first, and then each row gets what the function
    makes of them and the row's frame. *)
Definition apply_aggregate {V} (read : list result_row → nat → nat → result V string)
    (value : list V → option (nat * nat) → bytes) (column_index source_column_index : nat)
    (window_spec : WindowSpec) (partition_indexes : list nat) (order_indexes : list (nat * bool)) :
    list result_row → outcome (list result_row) :=
  each_partition
    (λ rows partition,
       let? values := map_result (read rows source_column_index) partition in
       for_positions
         (λ rows position,
            let? bounds := window_frame_bounds_for_partition rows partition order_indexes (window_frame window_spec) position in
            Ok (value values bounds))
         column_index 0 partition rows)
    partition_indexes order_indexes.

Definition sum_of (prefix_sums : list f64) (start stop : nat) : f64 :=
  f64_sub (default f64_zero (prefix_sums !! S stop)) (default f64_zero (prefix_sums !! start)).

Definition prefix_sums (values : list (option f64)) : list f64 :=
  prefixes (λ sum value, f64_add sum (default f64_zero value)) f64_zero values.

Definition sum_value (values : list (option f64)) (bounds : option (nat * nat)) : bytes :=
  render_window_numeric_value
    match bounds with Some (start, stop) => sum_of (prefix_sums values) start stop | None => f64_zero end.

(** How many values are not NULL, by prefixes. *)
Definition prefix_counts {V} (counted : V → bool) (values : list V) : list Z :=
  prefixes (λ count value, if counted value then saturating_add count 1 else count) 0 values.

Definition count_of (counts : list Z) (start stop : nat) : Z :=
  saturating_sub (default 0 (counts !! S stop)) (default 0 (counts !! start)).

Definition count_value (values : list bytes) (bounds : option (nat * nat)) : bytes :=
  utf8_encode
    (show_int
       match bounds with
       | Some (start, stop) => count_of (prefix_counts (λ value, negb (is_window_null_value value)) values) start stop
       | None => 0
       end).

Definition avg_value (values : list (option f64)) (bounds : option (nat * nat)) : bytes :=
  render_window_numeric_value
    match bounds with
    | Some (start, stop) =>
        let count := count_of (prefix_counts (λ value, negb (is_none value)) values) start stop in
        if count =? 0 then f64_zero else f64_div (sum_of (prefix_sums values) start stop) (f64_of_int count)
    | None => f64_zero
    end.

Definition min_max_value (is_max : bool) (values : list (option f64)) (bounds : option (nat * nat)) : bytes :=
  render_window_numeric_value
    match bounds with
    | Some (start, stop) =>
        let candidates := omap (λ value, value) (take (S stop - start) (drop start values)) in
        default f64_zero
          (foldl (λ selected candidate,
                    Some match selected with Some current => f64_pick is_max current candidate | None => candidate end)
             None candidates)
    | None => f64_zero
    end.

Definition first_last_value (is_last : bool) (values : list bytes) (bounds : option (nat * nat)) : bytes :=
  match bounds with
  | Some (start, stop) => default null_text (values !! (if is_last then stop else start))
  | None => null_text
  end.

Definition nth_value (nth_position : Z) (values : list bytes) (bounds : option (nat * nat)) : bytes :=
  match bounds with
  | Some (start, stop) =>
      if Z.of_nat (stop - start) + 1 <? nth_position then null_text
      else default null_text (values !! (start + Z.to_nat (nth_position - 1))%nat)
  | None => null_text
  end.

Definition apply_sum_window_projection (columns : list FieldDef) (column_index : nat) (function : WindowCall)
    (window_spec : WindowSpec) (partition_indexes : list nat) (order_indexes : list (nat * bool)) (rows : list result_row) :
    outcome (list result_row) :=
  let! source := Some (resolve_window_single_source_column function columns) in
  apply_aggregate numeric_value sum_value column_index source window_spec partition_indexes order_indexes rows.

Definition apply_count_window_projection (columns : list FieldDef) (column_index : nat) (function : WindowCall)
    (window_spec : WindowSpec) (partition_indexes : list nat) (order_indexes : list (nat * bool)) (rows : list result_row) :
    outcome (list result_row) :=
  let! source := Some (resolve_window_single_source_column function columns) in
  apply_aggregate source_value count_value column_index source window_spec partition_indexes order_indexes rows.

Definition apply_avg_window_projection (columns : list FieldDef) (column_index : nat) (function : WindowCall)
    (window_spec : WindowSpec) (partition_indexes : list nat) (order_indexes : list (nat * bool)) (rows : list result_row) :
    outcome (list result_row) :=
  let! source := Some (resolve_window_single_source_column function columns) in
  apply_aggregate numeric_value avg_value column_index source window_spec partition_indexes order_indexes rows.

Definition apply_min_max_window_projection (columns : list FieldDef) (column_index : nat) (function : WindowCall)
    (window_spec : WindowSpec) (partition_indexes : list nat) (order_indexes : list (nat * bool)) (is_max : bool)
    (rows : list result_row) : outcome (list result_row) :=
  let! source := Some (resolve_window_single_source_column function columns) in
  apply_aggregate numeric_value (min_max_value is_max) column_index source window_spec partition_indexes order_indexes rows.

Definition apply_first_last_value_window_projection (columns : list FieldDef) (column_index : nat) (function : WindowCall)
    (window_spec : WindowSpec) (partition_indexes : list nat) (order_indexes : list (nat * bool)) (is_last : bool)
    (rows : list result_row) : outcome (list result_row) :=
  let! source := Some (resolve_window_single_source_column function columns) in
  apply_aggregate source_value (first_last_value is_last) column_index source window_spec partition_indexes order_indexes
    rows.

Definition apply_nth_value_window_projection (columns : list FieldDef) (column_index : nat) (function : WindowCall)
    (window_spec : WindowSpec) (partition_indexes : list nat) (order_indexes : list (nat * bool)) (rows : list result_row) :
    outcome (list result_row) :=
  let! (source, nth_position) := Some (resolve_nth_value_arguments function columns) in
  apply_aggregate source_value (nth_value nth_position) column_index source window_spec partition_indexes order_indexes
    rows.

(** ** The window functions by name *)

(** One round of the loop of [apply_window_projection_values]. *)
Definition apply_window_function (column_index : nat) (function : WindowCall) (columns : list FieldDef)
    (named_windows : list NamedWindowDefinition) (rows : list result_row) : outcome (list result_row) :=
  let! window_spec := resolve_window_spec function named_windows in
  let! (partition_indexes, order_indexes) := Some (window_partition_and_order_indexes window_spec columns) in
  let aggregate (apply : list FieldDef → nat → WindowCall → WindowSpec → list nat → list (nat * bool) → list result_row →
                 outcome (list result_row)) :=
    apply columns column_index function window_spec partition_indexes order_indexes rows in
  let named name := str_eqb (to_ascii_lowercase (call_name function)) (lit name) in
  if named "row_number"%string then apply_row_number_window_projection column_index partition_indexes order_indexes rows
  else if named "rank"%string then apply_rank_window_projection column_index partition_indexes order_indexes rows
  else if named "dense_rank"%string then apply_dense_rank_window_projection column_index partition_indexes order_indexes rows
  else if named "percent_rank"%string then apply_percent_rank_window_projection column_index partition_indexes order_indexes rows
  else if named "cume_dist"%string then apply_cume_dist_window_projection column_index partition_indexes order_indexes rows
  else if named "ntile"%string then apply_ntile_window_projection column_index function partition_indexes order_indexes rows
  else if named "lag"%string then
    apply_lag_lead_window_projection columns column_index function partition_indexes order_indexes false rows
  else if named "lead"%string then
    apply_lag_lead_window_projection columns column_index function partition_indexes order_indexes true rows
  else if named "sum"%string then aggregate apply_sum_window_projection
  else if named "count"%string then aggregate apply_count_window_projection
  else if named "avg"%string then aggregate apply_avg_window_projection
  else if named "min"%string then
    apply_min_max_window_projection columns column_index function window_spec partition_indexes order_indexes false rows
  else if named "max"%string then
    apply_min_max_window_projection columns column_index function window_spec partition_indexes order_indexes true rows
  else if named "first_value"%string then
    apply_first_last_value_window_projection columns column_index function window_spec partition_indexes order_indexes false rows
  else if named "last_value"%string then
    apply_first_last_value_window_projection columns column_index function window_spec partition_indexes order_indexes true rows
  else if named "nth_value"%string then aggregate apply_nth_value_window_projection
  else Some (Err "SELECT window function is not supported yet"%string).
End windows.
