(* ===== verification/Postings.v ===== *)
(** * Posting pages

    Models [PostingPages] of [engine/database/indexing/runtime_index.rs]: the row references of one key
    of a runtime index, kept inline while there is one and in sorted pages of at most 1024 references
    beyond that.  A [NonZeroU64] is a [Z] between 1 and [u64::MAX]; a panic of the code is [None].

    The pages implement a sorted set of references: [posting_insert_spec] and [posting_remove_spec]. *)

From Stdlib Require Import ZArith Lia Sorting.Sorted.
From stdpp Require Import base list gmap sorting.
From S2P Require Import Prelude Record Wal.

Local Open Scope Z_scope.

(** ** The data *)

Definition RUNTIME_INDEX_POSTING_PAGE_SIZE : nat := 1024.

Record PostingPages := {
  inline_row_ref : option Z;
  pages : list (list Z);
  posting_len : Z
}.

Definition PostingPages_default : PostingPages := {| inline_row_ref := None; pages := []; posting_len := 0 |}.

(** [page.last().is_some_and(|last| *last < row_ref)]. *)
Definition page_ends_before (row_ref : Z) (page : list Z) : bool :=
  match last page with Some l => l <? row_ref | None => false end.

Definition with_pages (ps : list (list Z)) (len : Z) (p : PostingPages) : PostingPages :=
  {| inline_row_ref := inline_row_ref p; pages := ps; posting_len := len |}.

Definition pack_row_ref (row_ref : Z) : option Z := if row_ref <? u64_max then Some (row_ref + 1) else None.

Definition unpack_row_ref (row_ref : option Z) : option Z := (λ r, saturating_sub r 1) <$> row_ref.

Section operations.
Context `{BinarySearch}.

(** The page after the insertion, and the half that is split off a page that outgrew its size. *)
Definition insert_in_page (row_ref : Z) (insert_at : nat) (page : list Z) : list (list Z) :=
  let page := vec_insert insert_at row_ref page in
  if (RUNTIME_INDEX_POSTING_PAGE_SIZE <? length page)%nat
  then [take (length page / 2) page; drop (length page / 2) page]
  else [page].

(** The insertion that is not at the end: the page is found by its last reference. *)
Definition insert_by_search (row_ref : Z) (p : PostingPages) : option PostingPages :=
  let page_index := partition_point (page_ends_before row_ref) (pages p) in
  let ps := if Nat.eqb page_index (length (pages p)) then pages p ++ [[]] else pages p in
  page ← ps !! page_index;
  match binary_search page row_ref with
  | Ok _ => Some (with_pages ps (posting_len p) p)
  | Err insert_at =>
      Some (with_pages (take page_index ps ++ insert_in_page row_ref insert_at page ++ drop (S page_index) ps)
              (saturating_add (posting_len p) 1) p)
  end.

Definition insert_unique_sorted (row_ref : Z) (p : PostingPages) : option PostingPages :=
  if posting_len p =? 0 then
    Some {| inline_row_ref := Some row_ref; pages := pages p; posting_len := 1 |}
  else if posting_len p =? 1 then
    existing ← inline_row_ref p;
    if existing =? row_ref then Some p
    else
      let page := if existing <? row_ref then [existing; row_ref] else [row_ref; existing] in
      Some {| inline_row_ref := None; pages := pages p ++ [page]; posting_len := 2 |}
  else
    match last (pages p) with
    | Some last_page =>
        if page_ends_before row_ref last_page then
          let ps :=
            if Nat.eqb (length last_page) RUNTIME_INDEX_POSTING_PAGE_SIZE then pages p ++ [[row_ref]]
            else take (length (pages p) - 1) (pages p) ++ [last_page ++ [row_ref]] in
          Some (with_pages ps (saturating_add (posting_len p) 1) p)
        else insert_by_search row_ref p
    | None => insert_by_search row_ref p
    end.

(** The loop over the pages: the pages without the reference, when one holds it. *)
Fixpoint remove_from_pages (row_ref : Z) (ps : list (list Z)) : option (list (list Z)) :=
  match ps with
  | [] => None
  | page :: rest =>
      match binary_search page row_ref with
      | Ok remove_at =>
          let page := delete remove_at page in
          Some (if is_empty page then rest else page :: rest)
      | Err _ => cons page <$> remove_from_pages row_ref rest
      end
  end.

Definition posting_remove (row_ref : Z) (p : PostingPages) : bool * PostingPages :=
  if posting_len p =? 1 then
    if eqb (inline_row_ref p) (Some row_ref)
    then (true, {| inline_row_ref := None; pages := pages p; posting_len := 0 |})
    else (false, p)
  else
    match remove_from_pages row_ref (pages p) with
    | Some ps =>
        let len := saturating_sub (posting_len p) 1 in
        (true,
         if len =? 1 then {| inline_row_ref := head (omap head ps); pages := []; posting_len := len |}
         else with_pages ps len p)
    | None => (false, p)
    end.
End operations.

Definition posting_is_empty (p : PostingPages) : bool := posting_len p =? 0.

(** The inner loops of [append_row_refs], with the number of references already collected. *)
Fixpoint append_limited (limit : option Z) (collected : list Z) (refs : list Z) : list Z :=
  match refs with
  | [] => collected
  | r :: refs =>
      if match limit with Some limit => limit <=? Z.of_nat (length collected) | None => false end then collected
      else append_limited limit (collected ++ option_list (unpack_row_ref (Some r))) refs
  end.

Definition append_row_refs (p : PostingPages) (row_refs : list Z) (limit : option Z) : list Z :=
  match inline_row_ref p with
  | Some r => row_refs ++ option_list (unpack_row_ref (Some r))
  | None => append_limited limit row_refs (concat (pages p))
  end.

Definition posting_iter (p : PostingPages) : list Z := option_list (inline_row_ref p) ++ concat (pages p).

Definition only_row_ref (p : PostingPages) : option Z :=
  if posting_len p =? 1 then head (posting_iter p) else None.

(** ** Well-formed postings *)

(** A [NonZeroU64]. *)
Definition ref_ok (r : Z) : Prop := 1 ≤ r ≤ u64_max.

Definition page_ok (page : list Z) : Prop := page ≠ [] ∧ (length page ≤ RUNTIME_INDEX_POSTING_PAGE_SIZE)%nat.

Definition pages_wf (ps : list (list Z)) : Prop :=
  StronglySorted Z.lt (concat ps) ∧ Forall ref_ok (concat ps) ∧ Forall page_ok ps.

Inductive posting_wf : PostingPages → Prop :=
| posting_wf_empty : posting_wf PostingPages_default
| posting_wf_inline r : ref_ok r → posting_wf {| inline_row_ref := Some r; pages := []; posting_len := 1 |}
| posting_wf_paged ps :
    pages_wf ps → (2 ≤ length (concat ps))%nat →
    posting_wf {| inline_row_ref := None; pages := ps; posting_len := Z.of_nat (length (concat ps)) |}.

(** *** Sorted lists *)

Lemma sorted_count l lo hi :
  StronglySorted Z.lt l → Forall (λ r, lo ≤ r ≤ hi) l → Z.of_nat (length l) ≤ Z.max 0 (hi - lo + 1).
Proof.
  intros Hs. revert lo. induction Hs as [|x l Hs IH Hx]; intros lo Hb; [simpl; lia|].
  inversion Hb as [|? ? Hx0 Hl]; subst. specialize (IH (x + 1)). simpl.
  assert (Z.of_nat (length l) ≤ Z.max 0 (hi - (x + 1) + 1)); [|lia].
  apply IH. rewrite Forall_forall in *. intros y Hy. specialize (Hx y Hy). specialize (Hl y Hy). simpl in *. lia.
Qed.

Lemma sorted_refs_count l : StronglySorted Z.lt l → Forall ref_ok l → Z.of_nat (length l) ≤ u64_max.
Proof. intros Hs Hr. apply (sorted_count l 1 u64_max) in Hs; [unfold u64_max in *; lia|exact Hr]. Qed.

Lemma sorted_insert l1 r l2 :
  StronglySorted Z.lt (l1 ++ l2) → Forall (λ x, x < r) l1 → Forall (λ x, r < x) l2 →
  StronglySorted Z.lt (l1 ++ r :: l2).
Proof.
  rewrite !StronglySorted_app, StronglySorted_cons, !Forall_forall. intros (Hlt & H1 & H2) Hl Hr.
  split_and!; auto. intros x1 x2 Hx1 [-> | Hx2]%elem_of_cons; auto.
Qed.

Lemma sorted_remove l1 r l2 : StronglySorted Z.lt (l1 ++ r :: l2) →
  StronglySorted Z.lt (l1 ++ l2) ∧ ∀ x, x ∈ l1 ++ l2 ↔ x ∈ l1 ++ r :: l2 ∧ x ≠ r.
Proof.
  rewrite !StronglySorted_app, StronglySorted_cons, !Forall_forall. intros (Hlt & H1 & Hr & H2). split.
  - split_and!; auto. intros x1 x2 Hx1 Hx2. apply Hlt; [done|]. by right.
  - intros x. rewrite !elem_of_app, elem_of_cons. split; [|naive_solver]. intros [Hx|Hx].
    + split; [by left|]. intros ->. specialize (Hlt r r Hx ltac:(by left)). lia.
    + split; [by right; right|]. intros ->. specialize (Hr r Hx). lia.
Qed.

Lemma sorted_lt_le l : StronglySorted Z.lt l → Sorted Z.le l.
Proof.
  intros Hs. apply StronglySorted_Sorted. induction Hs as [|x l Hs IH Hx]; constructor; [done|].
  eapply Forall_impl; [exact Hx|]. simpl. lia.
Qed.

Lemma sorted_last_max l x : StronglySorted Z.lt l → last l = Some x → Forall (λ y, y ≤ x) l.
Proof.
  intros Hs Hl. apply last_Some in Hl as [l' ->]. apply StronglySorted_app in Hs as (Hlt & _ & _).
  apply Forall_app. split; [|repeat constructor; lia]. apply Forall_forall. intros y Hy.
  specialize (Hlt y x Hy ltac:(by left)). lia.
Qed.

Lemma page_ends_before_spec r page :
  StronglySorted Z.lt page → page_ends_before r page = true → Forall (λ y, y < r) page.
Proof.
  unfold page_ends_before. destruct (last page) as [x|] eqn:E; [|done]. intros Hs Hx%Z.ltb_lt.
  eapply Forall_impl; [by apply sorted_last_max|]. simpl. lia.
Qed.

Lemma page_reaches r page : page ≠ [] → page_ends_before r page = false → ∃ x, x ∈ page ∧ r ≤ x.
Proof.
  unfold page_ends_before. intros Hp. destruct (last page) as [x|] eqn:E; [|by apply last_None in E].
  intros Hx%Z.ltb_ge. exists x. split; [by apply last_Some_elem_of|done].
Qed.

(** ** Insertion *)

Section insertion.
Context `{BinarySearchLaws}.

(** A page is replaced by pages that hold one more reference at its place in the order. *)
Lemma pages_insert ps1 ps2 news l1 r l2 :
  pages_wf (ps1 ++ (l1 ++ l2) :: ps2) → ref_ok r →
  Forall (λ x, x < r) (concat ps1 ++ l1) → Forall (λ x, r < x) (l2 ++ concat ps2) →
  concat news = l1 ++ r :: l2 → Forall page_ok news →
  pages_wf (ps1 ++ news ++ ps2) ∧
  length (concat (ps1 ++ news ++ ps2)) = S (length (concat (ps1 ++ (l1 ++ l2) :: ps2))) ∧
  ∀ x, x ∈ concat (ps1 ++ news ++ ps2) ↔ x = r ∨ x ∈ concat (ps1 ++ (l1 ++ l2) :: ps2).
Proof.
  unfold pages_wf. rewrite !concat_app, concat_cons. intros (Hs & Hr & Hp) Hok Hlt Hgt -> Hnews.
  assert (concat ps1 ++ (l1 ++ r :: l2) ++ concat ps2 = (concat ps1 ++ l1) ++ r :: (l2 ++ concat ps2)) as ->
    by by rewrite <-!app_assoc.
  assert (concat ps1 ++ (l1 ++ l2) ++ concat ps2 = (concat ps1 ++ l1) ++ (l2 ++ concat ps2)) as Eq
    by by rewrite <-!app_assoc.
  rewrite Eq in *. split_and!.
  - by apply sorted_insert.
  - rewrite Forall_app, Forall_cons. apply Forall_app in Hr as [? ?]. done.
  - rewrite Forall_app in Hp |- *. rewrite Forall_app. destruct Hp as [? Hp2]. by inversion Hp2.
  - rewrite !length_app. simpl. rewrite !length_app. lia.
  - intros x. set_solver.
Qed.

Definition inserted (r : Z) (p : PostingPages) (result : option PostingPages) : Prop :=
  ∃ p', result = Some p' ∧ posting_wf p' ∧ ∀ x, x ∈ posting_iter p' ↔ x = r ∨ x ∈ posting_iter p.

(** The same on postings, whose counter never saturates. *)
Lemma posting_insert_at ps1 ps2 news l1 r l2 :
  let ps := ps1 ++ (l1 ++ l2) :: ps2 in
  let p := {| inline_row_ref := None; pages := ps; posting_len := Z.of_nat (length (concat ps)) |} in
  pages_wf ps → (2 ≤ length (concat ps))%nat → ref_ok r →
  Forall (λ x, x < r) (concat ps1 ++ l1) → Forall (λ x, r < x) (l2 ++ concat ps2) →
  concat news = l1 ++ r :: l2 → Forall page_ok news →
  inserted r p (Some (with_pages (ps1 ++ news ++ ps2) (saturating_add (posting_len p) 1) p)).
Proof.
  intros ps p Hps Hlen Hok Hlt Hgt Hnews Hpages.
  destruct (pages_insert ps1 ps2 news l1 r l2) as (Hwf & Hl & Hin); [done..|]. fold ps in Hl, Hin.
  eexists. split; [done|]. split.
  - pose proof (sorted_refs_count _ (proj1 Hwf) (proj1 (proj2 Hwf))) as Hmax.
    assert (saturating_add (posting_len p) 1 = Z.of_nat (length (concat (ps1 ++ news ++ ps2)))) as ->
      by (unfold saturating_add; simpl; rewrite Hl in *; lia).
    apply posting_wf_paged; [done|]. rewrite Hl. lia.
  - intros x. apply Hin.
Qed.

Lemma half_split {A} (l : list A) : (RUNTIME_INDEX_POSTING_PAGE_SIZE < length l)%nat →
  (length l ≤ S RUNTIME_INDEX_POSTING_PAGE_SIZE)%nat →
  let half := (length l / 2)%nat in
  (0 < half ∧ half ≤ RUNTIME_INDEX_POSTING_PAGE_SIZE ∧ half < length l ∧ length l - half ≤ RUNTIME_INDEX_POSTING_PAGE_SIZE)%nat.
Proof.
  intros H1 H2. unfold RUNTIME_INDEX_POSTING_PAGE_SIZE in *. assert (length l = 1025)%nat as -> by lia.
  change (1025 / 2)%nat with 512%nat. simpl. lia.
Qed.

Lemma insert_in_page_ok r at_ page : page_ok page →
  concat (insert_in_page r at_ page) = take at_ page ++ r :: drop at_ page ∧ Forall page_ok (insert_in_page r at_ page).
Proof.
  intros [_ Hlen]. unfold insert_in_page. set (page' := vec_insert at_ r page).
  assert (length page' = S (length page)) as Hl.
  { unfold page', vec_insert. rewrite length_app, length_take. simpl. rewrite length_drop. lia. }
  destruct (Nat.ltb_spec RUNTIME_INDEX_POSTING_PAGE_SIZE (length page')) as [Hbig|Hsmall].
  - destruct (half_split page') as (? & ? & ? & ?); [lia|lia|]. split.
    + cbn [concat]. rewrite app_nil_r, take_drop. done.
    + rewrite !Forall_cons. split_and!; [..|done]; (split; [intros E%(f_equal length)|]);
        rewrite ?length_take, ?length_drop in *; cbn [length] in *; lia.
  - split; [simpl; by rewrite app_nil_r|]. rewrite Forall_singleton. split; [|done].
    intros E. rewrite E in Hl. done.
Qed.

Lemma partition_point_stop {A} (f : A → bool) l x :
  x ∈ l → f x = false → ∃ y, l !! partition_point f l = Some y ∧ f y = false.
Proof.
  intros Hx Hf. induction l as [|z l IH]; [by apply not_elem_of_nil in Hx|]. simpl.
  destruct (f z) eqn:E; [|by exists z]. apply elem_of_cons in Hx as [-> | Hx]; [congruence|]. by apply IH.
Qed.

Lemma page_sorted ps1 page ps2 : StronglySorted Z.lt (concat (ps1 ++ page :: ps2)) → StronglySorted Z.lt page.
Proof.
  rewrite concat_app, concat_cons. intros Hs%StronglySorted_app_1_r%StronglySorted_app_1_l. done.
Qed.

Lemma ending_pages_below r ps : StronglySorted Z.lt (concat ps) →
  Forall (λ page, page_ends_before r page = true) ps → Forall (λ x, x < r) (concat ps).
Proof.
  intros Hs Hp. induction ps as [|page ps IH]; [done|]. rewrite concat_cons in *. inversion Hp; subst.
  apply Forall_app. split; [apply page_ends_before_spec; [by eapply StronglySorted_app_1_l|done]|].
  apply IH; [by eapply StronglySorted_app_1_r|done].
Qed.

Lemma insert_by_search_spec ps r page :
  let p := {| inline_row_ref := None; pages := ps; posting_len := Z.of_nat (length (concat ps)) |} in
  pages_wf ps → (2 ≤ length (concat ps))%nat → ref_ok r →
  page ∈ ps → page_ends_before r page = false →
  inserted r p (insert_by_search r p).
Proof.
  intros p Hps Hlen Hok Hin Hend. unfold insert_by_search. cbn [pages p].
  destruct (partition_point_stop (page_ends_before r) ps page Hin Hend) as (found & Hf & Hfend).
  pose proof (partition_point_take (page_ends_before r) ps) as Hbefore.
  set (i := partition_point (page_ends_before r) ps) in *. clear page Hin Hend.
  rewrite (proj2 (Nat.eqb_neq _ _)) by (apply lookup_lt_Some in Hf; lia). rewrite Hf. cbn [mbind option_bind].
  pose proof (take_drop_middle ps i found Hf) as Hmid. destruct Hps as (Hs & Hr & Hpo).
  assert (StronglySorted Z.lt found) as Hfs by (rewrite <-Hmid in Hs; by eapply page_sorted).
  assert (page_ok found) as Hfo by (rewrite Forall_forall in Hpo; apply Hpo; by eapply list_elem_of_lookup_2).
  destruct (binary_search found r) as [j|j] eqn:E.
  - apply binary_search_found in E; [|by apply sorted_lt_le]. eexists. split; [done|].
    split; [by apply posting_wf_paged|]. intros x. split; [by right|]. intros [-> | Hx]; [|done].
    unfold posting_iter. cbn [with_pages inline_row_ref pages p option_list app].
    rewrite <-Hmid, concat_app, concat_cons. apply list_elem_of_lookup_2 in E. set_solver.
  - apply binary_search_absent in E as (_ & Hl & Hg); [|by apply sorted_lt_le].
    destruct (insert_in_page_ok r j found Hfo) as [Hc Hnews].
    pose proof (posting_insert_at (take i ps) (drop (S i) ps) (insert_in_page r j found) (take j found) r (drop j found)) as Hat.
    rewrite take_drop, Hmid in Hat. apply Hat; auto; [by split| |].
    + apply Forall_app. split; [|done]. apply ending_pages_below; [|done].
      rewrite <-Hmid, concat_app in Hs. by eapply StronglySorted_app_1_l.
    + apply Forall_app. split; [done|]. destruct (page_reaches r found (proj1 Hfo) Hfend) as (x & Hx & Hrx).
      rewrite <-Hmid, concat_app, concat_cons in Hs. apply StronglySorted_app_1_r in Hs. apply Forall_forall.
      intros y Hy. pose proof (StronglySorted_app_1_elem_of _ _ _ x y Hs Hx Hy). lia.
Qed.

(** A second reference moves the inline one into a page. *)
Lemma insert_second e r : ref_ok e → ref_ok r →
  let p := {| inline_row_ref := Some e; pages := []; posting_len := 1 |} in
  inserted r p (insert_unique_sorted r p).
Proof.
  intros He Hok p. unfold insert_unique_sorted. cbn [posting_len inline_row_ref pages p Z.eqb mbind option_bind].
  destruct (Z.eqb_spec e r) as [-> |Hne].
  - eexists. split; [done|]. split; [by apply posting_wf_inline|]. intros x. unfold posting_iter. simpl. set_solver.
  - eexists. split; [done|]. set (page := if e <? r then [e; r] else [r; e]).
    assert (∀ a b, a < b → StronglySorted Z.lt [a; b]) as Hpair.
    { intros a b Hab. rewrite !StronglySorted_cons, Forall_singleton. split_and!; [done|done|constructor]. }
    assert (StronglySorted Z.lt page ∧ Forall ref_ok page ∧ length page = 2%nat ∧ ∀ x, x ∈ page ↔ x = r ∨ x = e) as (Hs & Hr & Hl & Hin).
    { unfold page. destruct (Z.ltb_spec e r); (split; [apply Hpair; lia|]); rewrite Forall_cons, Forall_singleton; set_solver. }
    split; [|intros x; unfold posting_iter; simpl; rewrite app_nil_r, Hin; set_solver].
    assert (length (concat [page]) = 2%nat) as Hc by (simpl; by rewrite app_nil_r).
    change 2 with (Z.of_nat 2). rewrite <-Hc. apply posting_wf_paged; [|lia]. unfold pages_wf.
    cbn [concat app]. rewrite app_nil_r, Forall_singleton. split_and!; [done..|]. split; [by intros ->|].
    rewrite Hl. unfold RUNTIME_INDEX_POSTING_PAGE_SIZE. lia.
Qed.

(** The fast path at the end of the last page, which may be full, and the search. *)
Lemma insert_paged ps r :
  let p := {| inline_row_ref := None; pages := ps; posting_len := Z.of_nat (length (concat ps)) |} in
  pages_wf ps → (2 ≤ length (concat ps))%nat → ref_ok r → inserted r p (insert_unique_sorted r p).
Proof.
  intros p Hps Hlen Hok. unfold insert_unique_sorted. cbn [posting_len inline_row_ref pages p].
  rewrite !(proj2 (Z.eqb_neq _ _)) by lia. destruct (last ps) as [page|] eqn:E.
  2: { apply last_None in E as ->. simpl in Hlen. lia. }
  destruct (page_ends_before r page) eqn:Hend.
  2: { eapply insert_by_search_spec; eauto. by apply last_Some_elem_of. }
  apply last_Some in E as [ps' ->]. rewrite length_app, Nat.add_sub, take_app_length by done.
  pose proof Hps as (Hs & Hr & Hpo). pose proof Hpo as [_ Hpage]%Forall_app. rewrite Forall_singleton in Hpage.
  assert (Forall (λ x, x < r) (concat ps' ++ page)) as Hbelow.
  { apply page_ends_before_spec in Hend; [|by eapply page_sorted]. apply Forall_app. split; [|done].
    destruct Hpage as [Hne _]. destruct page as [|x page]; [done|]. inversion Hend; subst.
    rewrite concat_app in Hs. apply Forall_forall. intros y Hy.
    pose proof (StronglySorted_app_1_elem_of _ _ _ y x Hs Hy ltac:(by left)). lia. }
  pose proof (λ news, posting_insert_at ps' [] news page r []) as Hat. rewrite app_nil_r in Hat. cbn [concat app] in Hat.
  destruct (Nat.eqb_spec (length page) RUNTIME_INDEX_POSTING_PAGE_SIZE) as [Hfull|Hroom].
  - specialize (Hat [page; [r]]). rewrite app_nil_r in Hat. cbn [app] in Hat. rewrite <-app_assoc. apply Hat; auto.
    rewrite Forall_cons, Forall_singleton. split; [done|]. split; [done|]. unfold RUNTIME_INDEX_POSTING_PAGE_SIZE. simpl. lia.
  - specialize (Hat [page ++ [r]]). rewrite app_nil_r in Hat. apply Hat; auto.
    + simpl. by rewrite app_nil_r.
    + rewrite Forall_singleton. split; [by destruct page|]. destruct Hpage as [_ Hle]. rewrite length_app. cbn [length]. lia.
Qed.

Lemma posting_insert_spec p r : posting_wf p → ref_ok r → inserted r p (insert_unique_sorted r p).
Proof.
  intros Hp Hok. destruct Hp as [|e He|ps Hps Hlen]; [|by apply insert_second|by apply insert_paged].
  eexists. split; [done|]. split; [by apply posting_wf_inline|]. intros x. unfold posting_iter. simpl. set_solver.
Qed.
End insertion.

(** ** Reading *)

Lemma posting_iter_sorted p : posting_wf p → StronglySorted Z.lt (posting_iter p).
Proof. intros [|r _|ps [Hs _] _]; [apply SSorted_nil|apply StronglySorted_cons; by split; [|constructor]|exact Hs]. Qed.

Lemma posting_iter_ok p : posting_wf p → Forall ref_ok (posting_iter p).
Proof. intros [|r Hr|ps (_ & Hr & _) _]; [by apply Forall_nil|by apply Forall_singleton|exact Hr]. Qed.

Lemma posting_len_spec p : posting_wf p → posting_len p = Z.of_nat (length (posting_iter p)).
Proof. by intros []. Qed.

Lemma posting_is_empty_spec p : posting_wf p → posting_is_empty p = true ↔ posting_iter p = [].
Proof.
  intros Hp. unfold posting_is_empty. rewrite Z.eqb_eq, posting_len_spec, <-length_zero_iff_nil by done. lia.
Qed.

Lemma only_row_ref_spec p r : posting_wf p → only_row_ref p = Some r ↔ posting_iter p = [r].
Proof.
  intros Hp. unfold only_row_ref. rewrite posting_len_spec by done.
  destruct (posting_iter p) as [|x [|y l]]; cbn [length head]; [|naive_solver|].
  - by split.
  - rewrite (proj2 (Z.eqb_neq _ _)) by lia. by split.
Qed.

Definition unpacked (refs : list Z) : list Z := (λ r, r - 1) <$> refs.

Lemma unpack_ok r : ref_ok r → unpack_row_ref (Some r) = Some (r - 1).
Proof. intros Hr. unfold unpack_row_ref, saturating_sub, ref_ok in *. simpl. f_equal. lia. Qed.

Lemma append_limited_spec limit refs collected :
  Forall ref_ok refs →
  append_limited limit collected refs =
    match limit with
    | None => collected ++ unpacked refs
    | Some n => collected ++ take (Z.to_nat n - length collected) (unpacked refs)
    end.
Proof.
  intros Hr. revert collected. induction Hr as [|r refs Hr0 Hr IH]; intros collected; cbn [append_limited].
  - destruct limit; unfold unpacked; simpl; by rewrite ?take_nil, app_nil_r.
  - rewrite unpack_ok by done. cbn [option_list]. rewrite IH. unfold unpacked. destruct limit as [n|].
    + destruct (Z.leb_spec n (Z.of_nat (length collected))) as [Hn|Hn].
      * replace (Z.to_nat n - length collected)%nat with 0%nat by lia. by rewrite take_0, app_nil_r.
      * replace (Z.to_nat n - length collected)%nat with (S (Z.to_nat n - S (length collected)))%nat by lia.
        rewrite fmap_cons, length_app. cbn [length take]. rewrite <-app_assoc, Nat.add_1_r. done.
    + by rewrite fmap_cons, <-app_assoc.
Qed.

Lemma append_row_refs_all p acc : posting_wf p → append_row_refs p acc None = acc ++ unpacked (posting_iter p).
Proof.
  intros Hp. pose proof (posting_iter_ok p Hp) as Hr. unfold append_row_refs.
  destruct Hp as [|r H1|ps H1 H2]; cbn [inline_row_ref pages].
  - unfold unpacked. simpl. by rewrite app_nil_r.
  - by rewrite unpack_ok.
  - by rewrite append_limited_spec.
Qed.

(** A single reference is returned whatever the limit. *)
Lemma append_row_refs_limited p n : posting_wf p → posting_iter p ≠ [] →
  append_row_refs p [] (Some n) =
    take (if (1 <? length (posting_iter p))%nat then Z.to_nat n else 1) (unpacked (posting_iter p)).
Proof.
  intros Hp Hne. pose proof (posting_iter_ok p Hp) as Hr. unfold append_row_refs.
  destruct Hp as [|r H1|ps H1 H2]; cbn [inline_row_ref pages]; [done|by rewrite unpack_ok|].
  rewrite append_limited_spec by done. cbn [app length]. rewrite Nat.sub_0_r.
  unfold posting_iter in *. cbn [inline_row_ref pages option_list app] in *.
  change (option_list None ++ concat ps) with (concat ps). destruct (Nat.ltb_spec 1 (length (concat ps))); [done|lia].
Qed.

(** ** Removal *)

Section removal.
Context `{BinarySearchLaws}.

Lemma remove_from_pages_spec r ps : pages_wf ps →
  match remove_from_pages r ps with
  | None => r ∉ concat ps
  | Some ps' =>
      r ∈ concat ps ∧ pages_wf ps' ∧ length (concat ps) = S (length (concat ps')) ∧
      ∀ x, x ∈ concat ps' ↔ x ∈ concat ps ∧ x ≠ r
  end.
Proof.
  induction ps as [|page ps IH]; cbn [remove_from_pages concat]; [intros _; apply not_elem_of_nil|].
  unfold pages_wf in *. cbn [concat]. intros (Hs & Hr & Hpo). inversion Hpo as [|? ? Hp Hps]; subst.
  pose proof (StronglySorted_app_1_l _ _ _ Hs) as Hs1. pose proof (StronglySorted_app_1_r _ _ _ Hs) as Hs2.
  apply Forall_app in Hr as [Hr1 Hr2]. destruct (binary_search page r) as [i|i] eqn:E.
  - apply binary_search_found in E; [|by apply sorted_lt_le]. pose proof (delete_take_drop page i) as Hd.
    pose proof (take_drop_middle page i r E) as Hm. set (l1 := take i page) in *. set (l2 := drop (S i) page) in *.
    rewrite <-Hm, <-app_assoc, <-app_comm_cons in Hs. apply sorted_remove in Hs as [Hs' Hin].
    assert (concat (if is_empty (delete i page) then ps else delete i page :: ps) = l1 ++ l2 ++ concat ps) as Hc.
    { rewrite Hd, (app_assoc l1). destruct (l1 ++ l2) eqn:El; done. }
    rewrite Hc. split_and!; [rewrite <-Hm; set_solver|done|rewrite app_assoc; apply Forall_app| |rewrite <-Hm, !length_app; simpl; lia|].
    + split; [|done]. rewrite <-Hm in Hr1. rewrite Forall_app in Hr1 |- *. destruct Hr1 as [? Hr1]. by inversion Hr1.
    + rewrite Hd. destruct (l1 ++ l2) eqn:El; [done|]. cbn [is_empty]. constructor; [|done]. split; [done|].
      destruct Hp as [_ Hp]. rewrite <-El. rewrite <-Hm, length_app in Hp. rewrite length_app. simpl in Hp. lia.
    + intros x. rewrite Hin, <-Hm, <-app_assoc, <-app_comm_cons. done.
  - apply binary_search_absent in E as (_ & Hl & Hg); [|by apply sorted_lt_le].
    assert (r ∉ page) as Hnot.
    { rewrite <-(take_drop i page), elem_of_app. rewrite Forall_forall in Hl, Hg.
      intros [Hx%Hl|Hx%Hg]; lia. }
    specialize (IH (conj Hs2 (conj Hr2 Hps))). destruct (remove_from_pages r ps) as [ps'|]; cbn [fmap option_fmap option_map].
    + destruct IH as (Hin & (Hs' & Hr' & Hp') & Hlen & Hmem). cbn [concat]. split_and!.
      * set_solver.
      * apply StronglySorted_app. split_and!; [|done..]. intros x1 x2 H1 [H2 _]%Hmem.
        by apply (StronglySorted_app_1_elem_of _ _ _ _ _ Hs).
      * by apply Forall_app.
      * by constructor.
      * rewrite !length_app, Hlen. lia.
      * intros x. rewrite !elem_of_app, Hmem. set_solver.
    + set_solver.
Qed.

Lemma posting_remove_spec p r : posting_wf p →
  let '(found, p') := posting_remove r p in
  posting_wf p' ∧ found = bool_decide (r ∈ posting_iter p) ∧
  ∀ x, x ∈ posting_iter p' ↔ x ∈ posting_iter p ∧ x ≠ r.
Proof.
  intros [|e He|ps Hps Hlen]; unfold posting_remove; cbn [posting_len inline_row_ref pages].
  - cbn. split; [constructor|]. set_solver.
  - change (posting_iter _) with [e] at 1. change (posting_iter {| inline_row_ref := Some e; pages := []; posting_len := 1 |}) with [e].
    destruct (eqb (Some e) (Some r)) eqn:E; cbn [Z.eqb].
    + apply eqb_eq in E as [= ->].
      rewrite bool_decide_eq_true_2 by set_solver. split; [constructor|]. unfold posting_iter. simpl. set_solver.
    + apply eqb_false in E. rewrite bool_decide_eq_false_2 by set_solver.
      split; [by constructor|]. unfold posting_iter. simpl. set_solver.
  - rewrite (proj2 (Z.eqb_neq _ _)) by lia. pose proof (remove_from_pages_spec r ps Hps) as Hrem.
    unfold posting_iter at 1 3. cbn [inline_row_ref pages option_list app].
    destruct (remove_from_pages r ps) as [ps'|]; cbn [option_list app].
    2: { rewrite bool_decide_eq_false_2 by done. split; [by constructor|]. split; [done|].
         intros x. unfold posting_iter. simpl. set_solver. }
    destruct Hrem as (Hin & Hps' & Hl & Hmem). rewrite bool_decide_eq_true_2 by done.
    assert (saturating_sub (Z.of_nat (length (concat ps))) 1 = Z.of_nat (length (concat ps'))) as ->
      by (unfold saturating_sub; lia).
    destruct (Z.eqb_spec (Z.of_nat (length (concat ps'))) 1) as [H1|H1].
    + destruct Hps' as (Hs & Hr & Hp). destruct ps' as [|[|x page] ps']; [done| |].
      { inversion Hp as [|? ? [Hne _]]; subst. done. }
      cbn [concat app length] in *. assert (page ++ concat ps' = []) as Hn by (apply length_zero_iff_nil; lia).
      rewrite Hn in *. inversion Hr; subst. split; [|split; [done|]].
      * by apply posting_wf_inline.
      * intros y. rewrite <-Hmem. unfold posting_iter. simpl. set_solver.
    + split; [apply posting_wf_paged; [done|lia]|]. split; [done|]. intros x. rewrite <-Hmem. done.
Qed.
End removal.
