(* ===== verification/IndexKey.v ===== *)
(** * Keys of runtime indexes

    Models [engine/database/indexing/runtime_index_key_codec.rs]: numbers as eight bytes that sort in
    numeric order, the folding of string keys, and the serialisation of a key tuple.

    The order of the bytes is the order of the numbers: [signed_keys_sorted], [unsigned_keys_sorted] and,
    up to the sign of zero, [float_keys_sorted]. *)

From Stdlib Require Import ZArith Lia Strings.Byte Floats.SpecFloat.
From stdpp Require Import base list gmap strings.
From S2P Require Import Prelude Record Identifiers Text Float64 Schema RowCodec FieldValue.

Local Open Scope Z_scope.

(** ** The codec *)

Inductive RuntimeIndexKeyStrategy :=
| StringKey (case_insensitive : bool)
| NumericKey
| DateTimeKey
| BinaryKey.

Inductive RuntimeIndexNumericKind := KSigned | KUnsigned | KFloat.

#[global] Instance RuntimeIndexNumericKind_eq_dec : EqDecision RuntimeIndexNumericKind.
Proof. solve_decision. Defined.

(** [to_be_bytes] on [n] bytes. *)
Definition to_be_bytes (n : nat) (z : Z) : bytes := reverse (to_le_bytes n z).

(** [usize::div_ceil]. *)
Definition div_ceil (a b : Z) : Z := (a + b - 1) / b.

Definition sign_bit : Z := 2 ^ 63.

(** The bits of a double, every bit flipped for negatives and the sign bit for the others. *)
Definition sortable_float_bits (bits : Z) : Z :=
  if Z.testbit bits 63 then Z.lxor bits u64_max else Z.lxor bits sign_bit.

(** [value as u64] of an [i64]. *)
Definition i64_as_u64 (v : Z) : Z := v mod 2 ^ 64.

Definition encode_sortable_numeric (value : bytes) (kind : RuntimeIndexNumericKind) : option bytes :=
  match kind with
  | KSigned =>
      text ← from_utf8 value; v ← parse_i64 text;
      Some (to_be_bytes 8 (Z.lxor (i64_as_u64 v) sign_bit))
  | KUnsigned => text ← from_utf8 value; v ← parse_u64 text; Some (to_be_bytes 8 v)
  | KFloat =>
      text ← from_utf8 value; v ← parse_f64 (trim text);
      if is_nan v then None else Some (to_be_bytes 8 (sortable_float_bits (to_bits binary64 v)))
  end.

Definition numeric_gate_depth (bit_width : Z) : Z := div_ceil (saturating_sub bit_width 8) 8.

Definition numeric_gate_prefix (value : bytes) (kind : RuntimeIndexNumericKind) (bit_width : Z) : option bytes :=
  sortable ← encode_sortable_numeric value kind;
  let byte_width := Z.min (div_ceil bit_width 8) (Z.of_nat (length sortable)) in
  let depth := Z.min (numeric_gate_depth bit_width) byte_width in
  Some (take (Z.to_nat depth) sortable).

Definition for_field_kind (field_kind : FieldKind) (case_insensitive : bool) : RuntimeIndexKeyStrategy :=
  match field_kind with
  | FStringFixed _ | FText | FEnum _ => StringKey case_insensitive
  | FInt _ | FUInt _ | FFloat _ => NumericKey
  | FDate | FDateTime | FTimestamp => DateTimeKey
  | _ => BinaryKey
  end.

(** An upper-case ASCII letter in lower case. *)
Definition fold_byte (b : byte) : byte :=
  if (65 <=? u8_Z b) && (u8_Z b <=? 90) then Z_u8 (u8_Z b + 32) else b.

Definition normalize_runtime_index_string_key (value : bytes) (case_insensitive : bool) : bytes :=
  if case_insensitive then fold_byte <$> value else value.

Definition normalize (strategy : RuntimeIndexKeyStrategy) (value : bytes) : bytes :=
  match strategy with
  | StringKey case_insensitive => normalize_runtime_index_string_key value case_insensitive
  | NumericKey | DateTimeKey | BinaryKey => value
  end.

Definition page_head (strategy : RuntimeIndexKeyStrategy) (value : bytes) (head_len : nat) : bytes :=
  if Nat.eqb head_len 0 then []
  else
    let normalized := normalize strategy value in
    take (Nat.min (length normalized) head_len) normalized.

Definition runtime_index_string_page_head (value : bytes) (head_len : nat) (case_insensitive : bool) : bytes :=
  page_head (StringKey case_insensitive) value head_len.

Definition runtime_index_string_probe_variants (value : bytes) (case_insensitive : bool) : list bytes :=
  let normalized := normalize_runtime_index_string_key value case_insensitive in
  if is_empty normalized then []
  else
    normalized ::
    omap (λ head_len, if (head_len <=? length normalized)%nat then Some (take head_len normalized) else None)
      [5; 4; 3]%nat.

Section entry_keys.
Context {value_list_bincode : Bincode (list bytes)}.

Definition encode_runtime_index_entry_key (key : list bytes) : option bytes := serialize key.
Definition decode_runtime_index_entry_key (key : bytes) : option (list bytes) := deserialize key.
End entry_keys.

(** Bincode's documented encoding of vectors of byte vectors, with fixed-width little-endian lengths. *)
Class ByteVecLayout {value_list_bincode : Bincode (list bytes)} := {
  serialize_byte_vecs (key : list bytes) :
    serialize key = Some (to_le_bytes 8 (Z.of_nat (length key))
                          ++ concat ((λ v, to_le_bytes 8 (Z.of_nat (length v)) ++ v) <$> key))
}.

(** ** The order of byte strings *)

Lemma bytes_compare_refl a : bytes_compare a a = Eq.
Proof. induction a as [|x a IH]; [done|]. simpl. by rewrite Z.compare_refl. Qed.

Lemma bytes_compare_eq a b : bytes_compare a b = Eq → a = b.
Proof.
  revert b. induction a as [|x a IH]; intros [|y b]; simpl; try done.
  destruct (Z.compare_spec (u8_Z x) (u8_Z y)) as [E| |]; try done. intros ->%IH. by rewrite (u8_Z_inj x y).
Qed.

Lemma bytes_compare_antisym a b : bytes_compare b a = CompOpp (bytes_compare a b).
Proof.
  revert b. induction a as [|x a IH]; intros [|y b]; simpl; try done.
  rewrite (Z.compare_antisym (u8_Z x) (u8_Z y)). destruct (u8_Z x ?= u8_Z y); simpl; auto.
Qed.

Lemma bytes_compare_trans a b c : bytes_compare a b = Lt → bytes_compare b c = Lt → bytes_compare a c = Lt.
Proof.
  revert b c. induction a as [|x a IH]; intros [|y b] [|z c]; simpl; try done.
  destruct (Z.compare_spec (u8_Z x) (u8_Z y)) as [E1|E1|E1], (Z.compare_spec (u8_Z y) (u8_Z z)) as [E2|E2|E2]; try done;
    intros H1 H2.
  - rewrite (proj2 (Z.compare_eq_iff _ _)) by lia. eauto.
  - by rewrite (proj2 (Z.compare_lt_iff _ _)) by lia.
  - by rewrite (proj2 (Z.compare_lt_iff _ _)) by lia.
  - by rewrite (proj2 (Z.compare_lt_iff _ _)) by lia.
Qed.

Lemma bytes_compare_app a b c d : length a = length b →
  bytes_compare (a ++ c) (b ++ d) = match bytes_compare a b with Eq => bytes_compare c d | r => r end.
Proof.
  revert b. induction a as [|x a IH]; intros [|y b]; simpl; try done. intros [= Hl].
  destruct (u8_Z x ?= u8_Z y); [|done..]. by apply IH.
Qed.

Definition bytes_lt (a b : bytes) : Prop := bytes_compare a b = Lt.
Definition bytes_le (a b : bytes) : Prop := bytes_compare a b ≠ Gt.

#[global] Instance bytes_lt_dec a b : Decision (bytes_lt a b) := decide (bytes_compare a b = Lt).
#[global] Instance bytes_le_dec : RelDecision bytes_le := λ a b, decide (bytes_compare a b ≠ Gt).

Lemma bytes_le_lt a b : bytes_le a b ↔ bytes_lt a b ∨ a = b.
Proof.
  unfold bytes_le, bytes_lt. split.
  - destruct (bytes_compare a b) eqn:E; [right; by apply bytes_compare_eq|by left|done].
  - intros [-> | ->]; [done|]. by rewrite bytes_compare_refl.
Qed.

Lemma bytes_not_le a b : ¬ bytes_le a b ↔ bytes_lt b a.
Proof. unfold bytes_le, bytes_lt. rewrite (bytes_compare_antisym a b). destruct (bytes_compare a b); naive_solver. Qed.

Lemma bytes_lt_irrefl a : ¬ bytes_lt a a.
Proof. unfold bytes_lt. by rewrite bytes_compare_refl. Qed.

#[global] Instance bytes_le_trans : Transitive bytes_le.
Proof.
  intros a b c. rewrite !bytes_le_lt. intros [H1| ->]; [|done]. intros [H2| <-]; [|by left]. left. by eapply bytes_compare_trans.
Qed.

#[global] Instance bytes_le_total : Total bytes_le.
Proof.
  intros a b. unfold bytes_le. rewrite (bytes_compare_antisym a b). destruct (bytes_compare a b); naive_solver.
Qed.

#[global] Instance bytes_le_antisymm : AntiSymm (=) bytes_le.
Proof.
  intros a b. rewrite !bytes_le_lt. intros [H1| ->]; [|done]. intros [H2| ->]; [|done].
  exfalso. apply (bytes_lt_irrefl a). by eapply bytes_compare_trans.
Qed.

(** Big-endian bytes compare as the number. *)
Lemma to_be_bytes_compare n a b : 0 ≤ a < 256 ^ Z.of_nat n → 0 ≤ b < 256 ^ Z.of_nat n →
  bytes_compare (to_be_bytes n a) (to_be_bytes n b) = (a ?= b).
Proof.
  unfold to_be_bytes. revert a b. induction n as [|n IH]; intros a b Ha Hb.
  - change (256 ^ Z.of_nat 0) with 1 in *. simpl. symmetry. apply Z.compare_eq_iff. lia.
  - rewrite Nat2Z.inj_succ, Z.pow_succ_r in Ha, Hb by lia. cbn [to_le_bytes]. rewrite !reverse_cons.
    rewrite bytes_compare_app by by rewrite !length_reverse, !length_to_le_bytes.
    rewrite IH by (split; [apply Z.div_pos; lia|apply Z.div_lt_upper_bound; lia]).
    cbn [bytes_compare]. rewrite !u8_Z_u8.
    pose proof (Z.div_mod a 256 ltac:(lia)). pose proof (Z.div_mod b 256 ltac:(lia)).
    pose proof (Z.mod_pos_bound a 256 ltac:(lia)). pose proof (Z.mod_pos_bound b 256 ltac:(lia)).
    destruct (Z.compare_spec (a / 256) (b / 256)).
    + destruct (Z.compare_spec (a mod 256) (b mod 256)), (Z.compare_spec a b); (done || lia).
    + symmetry. apply Z.compare_lt_iff. lia.
    + symmetry. apply Z.compare_gt_iff. lia.
Qed.

Lemma length_to_be_bytes n z : length (to_be_bytes n z) = n.
Proof. unfold to_be_bytes. by rewrite length_reverse, length_to_le_bytes. Qed.

(** ** Sortable integers *)

Lemma lxor_sign_small x : 0 ≤ x < sign_bit → Z.lxor x sign_bit = x + sign_bit.
Proof.
  intros Hx. symmetry. apply Z.add_nocarry_lxor. apply Z.bits_inj'. intros i Hi. rewrite Z.land_spec, Z.bits_0.
  unfold sign_bit in *. rewrite Z.pow2_bits_eqb by lia. destruct (Z.eqb_spec 63 i) as [<-|]; [|apply andb_false_r].
  rewrite andb_true_r. destruct (Z.eq_dec x 0) as [-> |Hx0]; [apply Z.bits_0|]. apply Z.bits_above_log2; [lia|]. apply Z.log2_lt_pow2; lia.
Qed.

Lemma lxor_sign_large x : sign_bit ≤ x < 2 * sign_bit → Z.lxor x sign_bit = x - sign_bit.
Proof.
  intros Hx. pose proof (lxor_sign_small (x - sign_bit) ltac:(lia)) as E.
  replace (x - sign_bit + sign_bit) with x in E by lia. rewrite <-E at 1. by rewrite Z.lxor_assoc, Z.lxor_nilpotent, Z.lxor_0_r.
Qed.

Lemma lxor_complement x : 0 ≤ x ≤ u64_max → Z.lxor x u64_max = u64_max - x.
Proof.
  intros Hx. change u64_max with (Z.ones 64) in *. rewrite Z.sub_nocarry_ldiff.
  - apply Z.bits_inj'. intros i Hi. rewrite Z.lxor_spec, Z.ldiff_spec. destruct (Z.lt_ge_cases i 64) as [Hl|Hl].
    + rewrite Z.ones_spec_low by lia. destruct (Z.testbit x i); done.
    + rewrite Z.ones_spec_high by lia. assert (Z.testbit x i = false) as ->; [|done].
      destruct (Z.eq_dec x 0) as [-> |Hx0]; [apply Z.bits_0|]. apply Z.bits_above_log2; [lia|].
      apply Z.log2_lt_pow2; [lia|]. assert (2 ^ 64 ≤ 2 ^ i) by (apply Z.pow_le_mono_r; lia). change (Z.ones 64) with (2 ^ 64 - 1) in Hx. lia.
  - apply Z.ldiff_ones_r_low; [lia|]. destruct (Z.eq_dec x 0) as [-> |Hx0]; [done|]. apply Z.log2_lt_pow2; [lia|].
    change (Z.ones 64) with (2 ^ 64 - 1) in Hx. lia.
Qed.

Definition is_i64 (v : Z) : Prop := - 2 ^ 63 ≤ v < 2 ^ 63.

Lemma sortable_signed v : is_i64 v → Z.lxor (i64_as_u64 v) sign_bit = v + sign_bit.
Proof.
  unfold is_i64, i64_as_u64. intros Hv. destruct (Z.lt_ge_cases v 0) as [Hn|Hn].
  - assert (v mod 2 ^ 64 = v + 2 ^ 64) as ->.
    { rewrite <-(Z_mod_plus_full v 1). apply Z.mod_small. lia. }
    rewrite lxor_sign_large; unfold sign_bit; lia.
  - rewrite Z.mod_small by lia. apply lxor_sign_small. unfold sign_bit. lia.
Qed.

(** The text of an integer as an index key. *)
Definition integer_text (v : Z) : bytes := utf8_encode (show_int v).

Lemma integer_text_utf8 v : from_utf8 (integer_text v) = Some (show_int v).
Proof.
  assert (∀ z, 0 ≤ z → Forall (λ c, 0 ≤ c < 128) (decimal_digits 40 z)) as Hd.
  { intros z Hz. eapply Forall_impl; [by apply decimal_digits_digits|]. intros c [H1%Z.leb_le H2%Z.leb_le]%andb_true_iff. lia. }
  apply from_utf8_encode. eapply Forall_impl.
  - unfold show_int. instantiate (1 := λ c, 0 ≤ c < 128). destruct (Z.ltb_spec v 0); [constructor; [lia|]|]; apply Hd; lia.
  - intros c Hc. simpl in Hc. unfold is_scalar. by rewrite (proj2 (Z.leb_le 0 c)), (proj2 (Z.ltb_lt c 55296)) by lia.
Qed.

Lemma encode_signed_text v : is_i64 v →
  encode_sortable_numeric (integer_text v) KSigned = Some (to_be_bytes 8 (v + sign_bit)).
Proof.
  intros Hv. unfold encode_sortable_numeric. rewrite integer_text_utf8. cbn [mbind option_bind]. unfold parse_i64.
  rewrite parse_show_int by (unfold is_i64 in Hv; lia). cbn [mbind option_bind]. by rewrite sortable_signed.
Qed.

Lemma encode_unsigned_text v : is_u64 v →
  encode_sortable_numeric (integer_text v) KUnsigned = Some (to_be_bytes 8 v).
Proof.
  intros Hv. unfold encode_sortable_numeric. rewrite integer_text_utf8. cbn [mbind option_bind]. unfold parse_u64.
  unfold is_u64, u64_max in *. by rewrite parse_show_int by lia.
Qed.

Lemma signed_keys_sorted v w : is_i64 v → is_i64 w →
  bytes_compare (to_be_bytes 8 (v + sign_bit)) (to_be_bytes 8 (w + sign_bit)) = (v ?= w).
Proof.
  unfold is_i64, sign_bit. intros Hv Hw. change (256 ^ Z.of_nat 8) with (2 ^ 64).
  rewrite to_be_bytes_compare by (change (256 ^ Z.of_nat 8) with (2 ^ 64); lia).
  destruct (Z.compare_spec v w), (Z.compare_spec (v + 2 ^ 63) (w + 2 ^ 63)); (done || lia).
Qed.

Lemma unsigned_keys_sorted v w : is_u64 v → is_u64 w →
  bytes_compare (to_be_bytes 8 v) (to_be_bytes 8 w) = (v ?= w).
Proof.
  unfold is_u64, u64_max. intros Hv Hw. apply to_be_bytes_compare; change (256 ^ Z.of_nat 8) with (2 ^ 64); lia.
Qed.

(** ** Sortable doubles *)

(** The bit pattern of a double that is a number. *)
Definition number_bits (bits : Z) : Prop := 0 ≤ bits ≤ u64_max ∧ bits mod sign_bit ≤ 2047 * 2 ^ 52.

Definition negative_bits (bits : Z) : bool := sign_bit <=? bits.

(** Sign and magnitude as one integer. *)
Definition signed_magnitude (bits : Z) : Z :=
  if negative_bits bits then - (bits mod sign_bit) else bits mod sign_bit.

Lemma negative_bits_testbit bits : 0 ≤ bits ≤ u64_max → Z.testbit bits 63 = negative_bits bits.
Proof.
  intros Hb. rewrite Z.testbit_odd, Z.shiftr_div_pow2 by lia. unfold negative_bits, sign_bit, u64_max in *.
  destruct (Z.leb_spec (2 ^ 63) bits).
  - assert (bits / 2 ^ 63 = 1) as ->; [|done]. symmetry. apply (Z.div_unique_pos _ _ _ (bits - 2 ^ 63)); lia.
  - by rewrite Z.div_small by lia.
Qed.

Lemma sortable_float_spec bits : 0 ≤ bits ≤ u64_max →
  sortable_float_bits bits =
    if negative_bits bits then sign_bit - 1 - bits mod sign_bit else sign_bit + bits mod sign_bit.
Proof.
  intros Hb. unfold sortable_float_bits. rewrite negative_bits_testbit by done.
  unfold negative_bits. destruct (Z.leb_spec sign_bit bits).
  - rewrite lxor_complement by done. assert (bits mod sign_bit = bits - sign_bit) as ->; [|unfold u64_max, sign_bit in *; lia].
    symmetry. apply (Z.mod_unique_pos _ _ 1); unfold u64_max, sign_bit in *; lia.
  - rewrite lxor_sign_small by lia. rewrite Z.mod_small by lia. lia.
Qed.

Definition mag_mantissa (mag : Z) : Z := if mag <? 2 ^ 52 then mag else mag mod 2 ^ 52 + 2 ^ 52.
Definition mag_exponent (mag : Z) : Z := Z.max 0 (mag / 2 ^ 52 - 1) - 1074.

Lemma bits_fields bits : 0 ≤ bits ≤ u64_max →
  let mag := bits mod sign_bit in
  0 ≤ mag < sign_bit ∧ bits mod 2 ^ 52 = mag mod 2 ^ 52 ∧ bits / 2 ^ 52 mod 2 ^ 11 = mag / 2 ^ 52 ∧
  Z.odd (bits / 2 ^ 63) = negative_bits bits.
Proof.
  intros Hb mag. unfold u64_max, sign_bit in *.
  assert (∃ s, (s = 0 ∨ s = 1) ∧ bits = s * 2 ^ 63 + mag ∧ 0 ≤ mag < 2 ^ 63) as (s & Hs & Hbits & Hm).
  { exists (bits / 2 ^ 63). subst mag. pose proof (Z.div_mod bits (2 ^ 63) ltac:(lia)).
    pose proof (Z.mod_pos_bound bits (2 ^ 63) ltac:(lia)). split; [|lia].
    assert (0 ≤ bits / 2 ^ 63 < 2); [|lia]. split; [apply Z.div_pos; lia|apply Z.div_lt_upper_bound; lia]. }
  clearbody mag. subst bits. pose proof (Z.div_mod mag (2 ^ 52) ltac:(lia)) as Hd.
  pose proof (Z.mod_pos_bound mag (2 ^ 52) ltac:(lia)) as Hr.
  assert (0 ≤ mag / 2 ^ 52 < 2 ^ 11) as He by (split; [apply Z.div_pos; lia|apply Z.div_lt_upper_bound; lia]).
  split; [done|]. split_and!.
  - symmetry. apply (Z.mod_unique_pos _ _ (s * 2 ^ 11 + mag / 2 ^ 52)); lia.
  - assert ((s * 2 ^ 63 + mag) / 2 ^ 52 = s * 2 ^ 11 + mag / 2 ^ 52) as ->.
    { symmetry. apply (Z.div_unique_pos _ _ _ (mag mod 2 ^ 52)); lia. }
    symmetry. apply (Z.mod_unique_pos _ _ s); lia.
  - unfold negative_bits, sign_bit. assert ((s * 2 ^ 63 + mag) / 2 ^ 63 = s) as ->.
    { symmetry. apply (Z.div_unique_pos _ _ _ mag); lia. }
    destruct Hs as [-> | ->]; simpl Z.odd; destruct (Z.leb_spec (2 ^ 63) (0 * 2 ^ 63 + mag)), (Z.leb_spec (2 ^ 63) (1 * 2 ^ 63 + mag)); (done || lia).
Qed.

Lemma of_bits_number bits : number_bits bits →
  let mag := bits mod sign_bit in
  let s := negative_bits bits in
  of_bits binary64 bits =
    if mag =? 0 then S754_zero s
    else if mag =? 2047 * 2 ^ 52 then S754_infinity s
    else S754_finite s (Z.to_pos (mag_mantissa mag)) (mag_exponent mag).
Proof.
  intros [Hb Hn] mag s. unfold of_bits. cbn [mantissa_width exponent_width binary64].
  destruct (bits_fields bits Hb) as (Hm & H1 & H2 & H3). fold mag in Hm, Hn, H1, H2. change (52 + 11) with 63.
  rewrite H1, H2, H3. fold s. clearbody mag s. clear H1 H2 H3. unfold mag_mantissa, mag_exponent, sign_bit in *.
  pose proof (Z.div_mod mag (2 ^ 52) ltac:(lia)) as Hd. pose proof (Z.mod_pos_bound mag (2 ^ 52) ltac:(lia)) as Hr.
  change (min_exponent binary64) with (-1074). change (2 ^ 11 - 1) with 2047.
  destruct (Z.eqb_spec (mag / 2 ^ 52) 0) as [He|He].
  - rewrite (Z.mod_small mag) by lia. destruct (Z.eqb_spec mag 0) as [-> |H0]; [done|].
    rewrite (proj2 (Z.eqb_neq mag _)), (proj2 (Z.ltb_lt mag _)) by lia. rewrite He.
    destruct mag as [|p|p]; [lia| |lia]. done.
  - rewrite (proj2 (Z.eqb_neq mag 0)) by (intros ->; by rewrite Z.div_0_l in He).
    assert (0 ≤ mag / 2 ^ 52) by (apply Z.div_pos; lia). rewrite (proj2 (Z.ltb_ge mag _)) by lia.
    destruct (Z.eqb_spec (mag / 2 ^ 52) 2047) as [E|E].
    + assert (mag = 2047 * 2 ^ 52) as -> by lia. done.
    + rewrite (proj2 (Z.eqb_neq mag _)) by (intros ->; by rewrite Z.div_mul in E by lia).
      rewrite Z.max_r by lia. destruct (mag mod 2 ^ 52 + 2 ^ 52) as [|p|p] eqn:Ep; [lia| |lia].
      done.
Qed.

Lemma mag_compare a b : 0 < a < sign_bit → 0 < b < sign_bit →
  match mag_exponent a ?= mag_exponent b with
  | Eq => mag_mantissa a ?= mag_mantissa b
  | c => c
  end = (a ?= b).
Proof.
  intros Ha Hb. unfold mag_exponent, mag_mantissa, sign_bit in *.
  pose proof (Z.div_mod a (2 ^ 52) ltac:(lia)). pose proof (Z.mod_pos_bound a (2 ^ 52) ltac:(lia)).
  pose proof (Z.div_mod b (2 ^ 52) ltac:(lia)). pose proof (Z.mod_pos_bound b (2 ^ 52) ltac:(lia)).
  assert (0 ≤ a / 2 ^ 52) by (apply Z.div_pos; lia). assert (0 ≤ b / 2 ^ 52) by (apply Z.div_pos; lia).
  assert (0 ≤ a mod 2 ^ 52 < 2 ^ 52) by done. set (ea := a / 2 ^ 52) in *. set (eb := b / 2 ^ 52) in *.
  set (ma := a mod 2 ^ 52) in *. set (mb := b mod 2 ^ 52) in *. clearbody ea eb ma mb.
  destruct (Z.compare_spec (Z.max 0 (ea - 1) - 1074) (Z.max 0 (eb - 1) - 1074)).
  - destruct (Z.ltb_spec a (2 ^ 52)), (Z.ltb_spec b (2 ^ 52));
      repeat match goal with |- context [?x ?= ?y] => destruct (Z.compare_spec x y) end; (done || lia).
  - symmetry. apply Z.compare_lt_iff. lia.
  - symmetry. apply Z.compare_gt_iff. lia.
Qed.

Lemma partial_cmp_bits a b : number_bits a → number_bits b →
  partial_cmp (of_bits binary64 a) (of_bits binary64 b) = Some (signed_magnitude a ?= signed_magnitude b).
Proof.
  intros Ha Hb. rewrite !of_bits_number by done. unfold signed_magnitude, partial_cmp.
  destruct (bits_fields a (proj1 Ha)) as [Hma _]. destruct (bits_fields b (proj1 Hb)) as [Hmb _].
  destruct Ha as [_ Ha], Hb as [_ Hb]. set (x := a mod sign_bit) in *. set (y := b mod sign_bit) in *.
  generalize (negative_bits a) (negative_bits b). intros s t. clearbody x y. clear a b.
  assert (∀ p q : Z, 0 < p → 0 < q → (Z.to_pos p ?= Z.to_pos q)%positive = (p ?= q)) as Hpos.
  { intros [|p|p] [|q|q] ??; lia || done. }
  assert (∀ z, 0 < z < sign_bit → 0 < mag_mantissa z) as Hmant.
  { intros z Hz. unfold mag_mantissa. pose proof (Z.mod_pos_bound z (2 ^ 52) ltac:(lia)). destruct (Z.ltb_spec z (2 ^ 52)); lia. }
  destruct (Z.eqb_spec x 0) as [-> |Hx0], (Z.eqb_spec y 0) as [-> |Hy0].
  - by destruct s, t.
  - destruct (Z.eqb_spec y (2047 * 2 ^ 52)); cbn [SFcompare]; f_equal; destruct s, t; symmetry;
      (apply Z.compare_lt_iff || apply Z.compare_gt_iff); lia.
  - destruct (Z.eqb_spec x (2047 * 2 ^ 52)); cbn [SFcompare]; f_equal; destruct s, t; symmetry;
      (apply Z.compare_lt_iff || apply Z.compare_gt_iff); lia.
  - destruct (Z.eqb_spec x (2047 * 2 ^ 52)) as [-> |Hx1], (Z.eqb_spec y (2047 * 2 ^ 52)) as [-> |Hy1]; cbn [SFcompare]; f_equal.
    + by destruct s, t.
    + destruct s, t; symmetry; (apply Z.compare_lt_iff || apply Z.compare_gt_iff); lia.
    + destruct s, t; symmetry; (apply Z.compare_lt_iff || apply Z.compare_gt_iff); lia.
    + pose proof (mag_compare x y ltac:(lia) ltac:(lia)) as Hc. rewrite <-(Hpos (mag_mantissa x)) in Hc by (apply Hmant; lia).
      change (Pos.compare_cont Eq ?p ?q) with (Pos.compare p q).
      destruct s, t.
      * assert ((- x ?= - y) = CompOpp (x ?= y)) as -> by (rewrite <-Z.compare_antisym; destruct (Z.compare_spec (- x) (- y)), (Z.compare_spec y x); (done || lia)).
        rewrite <-Hc.
        destruct (mag_exponent x ?= mag_exponent y); done.
      * symmetry. apply Z.compare_lt_iff. lia.
      * symmetry. apply Z.compare_gt_iff. lia.
      * done.
Qed.

Lemma to_bits_of_bits bits : number_bits bits → to_bits binary64 (of_bits binary64 bits) = bits.
Proof.
  intros Hb. rewrite of_bits_number by done. destruct (bits_fields bits (proj1 Hb)) as [Hm _].
  assert ((if negative_bits bits then 2 ^ 63 else 0) + bits mod sign_bit = bits) as Heq.
  { unfold negative_bits. destruct Hb as [Hb _]. unfold u64_max, sign_bit in *. destruct (Z.leb_spec (2 ^ 63) bits).
    - assert (bits mod 2 ^ 63 = bits - 2 ^ 63) as ->; [|lia]. symmetry. apply (Z.mod_unique_pos _ _ 1); lia.
    - rewrite Z.mod_small; lia. }
  destruct Hb as [_ Hn]. unfold to_bits, magnitude_bits. cbn [mantissa_width exponent_width binary64].
  set (mag := bits mod sign_bit) in *. clearbody mag. change (52 + 11) with 63.
  destruct (Z.eqb_spec mag 0) as [-> |H0]; [cbn [is_sign_negative]; lia|].
  destruct (Z.eqb_spec mag (2047 * 2 ^ 52)) as [-> |H1]; [cbn [is_sign_negative]; lia|].
  cbn [is_sign_negative]. cbv beta iota zeta. etrans; [|exact Heq]. f_equal. change (min_exponent binary64) with (-1074).
  unfold mag_mantissa, mag_exponent. pose proof (Z.div_mod mag (2 ^ 52) ltac:(lia)).
  pose proof (Z.mod_pos_bound mag (2 ^ 52) ltac:(lia)). destruct (Z.ltb_spec mag (2 ^ 52)).
  - rewrite !Z2Pos.id by lia. by rewrite (proj2 (Z.ltb_lt _ _)) by lia.
  - rewrite !Z2Pos.id by lia. rewrite (proj2 (Z.ltb_ge _ _)) by lia.
    assert (1 ≤ mag / 2 ^ 52) by (apply Z.div_le_lower_bound; lia). rewrite Z.max_r by lia. lia.
Qed.

Lemma number_not_nan bits : number_bits bits → is_nan (of_bits binary64 bits) = false.
Proof. intros Hb. rewrite of_bits_number by done. cbv zeta. destruct (_ =? 0); [done|]. by destruct (_ =? _). Qed.

Lemma sortable_float_bounds bits : 0 ≤ bits ≤ u64_max → 0 ≤ sortable_float_bits bits < 256 ^ Z.of_nat 8.
Proof.
  intros Hb. rewrite sortable_float_spec by done. destruct (bits_fields bits Hb) as [Hm _].
  change (256 ^ Z.of_nat 8) with (2 * sign_bit). unfold sign_bit in *. case_match; lia.
Qed.

Lemma encode_float_text value text bits : number_bits bits →
  from_utf8 value = Some text → parse_f64 (trim text) = Some (of_bits binary64 bits) →
  encode_sortable_numeric value KFloat = Some (to_be_bytes 8 (sortable_float_bits bits)).
Proof.
  intros Hb Ht Hp. unfold encode_sortable_numeric. rewrite Ht. cbn [mbind option_bind]. rewrite Hp. cbn [mbind option_bind].
  by rewrite number_not_nan, to_bits_of_bits.
Qed.

Lemma float_keys_sorted a b c : number_bits a → number_bits b →
  partial_cmp (of_bits binary64 a) (of_bits binary64 b) = Some c →
  let order := bytes_compare (to_be_bytes 8 (sortable_float_bits a)) (to_be_bytes 8 (sortable_float_bits b)) in
  order = c ∨ (c = Eq ∧ signed_magnitude a = 0 ∧ signed_magnitude b = 0).
Proof.
  intros Ha Hb. rewrite partial_cmp_bits by done. intros [= <-] order. subst order.
  rewrite to_be_bytes_compare by (apply sortable_float_bounds; (apply Ha || apply Hb)).
  rewrite !sortable_float_spec by (apply Ha || apply Hb). unfold signed_magnitude.
  destruct (bits_fields a (proj1 Ha)) as [Hma _]. destruct (bits_fields b (proj1 Hb)) as [Hmb _].
  set (x := a mod sign_bit) in *. set (y := b mod sign_bit) in *. clearbody x y.
  destruct (negative_bits a), (negative_bits b);
    match goal with |- (?p ?= ?q) = (?r ?= ?s) ∨ _ => destruct (Z.compare_spec p q), (Z.compare_spec r s) end;
    (by left) || (exfalso; lia) || (right; split; [done|lia]).
Qed.

(** The key bytes of a numeric index sort as the numbers do: signed and unsigned 64-bit integers in
    their order, doubles in the order of [partial_cmp] except that the two zeros have different keys. *)
Theorem sortable_keys_ordered :
  (∀ v w, is_i64 v → is_i64 w → ∃ a b,
     encode_sortable_numeric (integer_text v) KSigned = Some a ∧
     encode_sortable_numeric (integer_text w) KSigned = Some b ∧ bytes_compare a b = (v ?= w)) ∧
  (∀ v w, is_u64 v → is_u64 w → ∃ a b,
     encode_sortable_numeric (integer_text v) KUnsigned = Some a ∧
     encode_sortable_numeric (integer_text w) KUnsigned = Some b ∧ bytes_compare a b = (v ?= w)) ∧
  (∀ vb wb s t x y c, from_utf8 vb = Some s → from_utf8 wb = Some t → number_bits x → number_bits y →
     parse_f64 (trim s) = Some (of_bits binary64 x) → parse_f64 (trim t) = Some (of_bits binary64 y) →
     partial_cmp (of_bits binary64 x) (of_bits binary64 y) = Some c → ∃ a b,
     encode_sortable_numeric vb KFloat = Some a ∧ encode_sortable_numeric wb KFloat = Some b ∧
     (bytes_compare a b = c ∨ (c = Eq ∧ signed_magnitude x = 0 ∧ signed_magnitude y = 0))).
Proof.
  split_and!.
  - intros v w Hv Hw. do 2 eexists. split_and!; [by apply encode_signed_text..|by apply signed_keys_sorted].
  - intros v w Hv Hw. do 2 eexists. split_and!; [by apply encode_unsigned_text..|by apply unsigned_keys_sorted].
  - intros vb wb s t x y c Hs Ht Hx Hy Hps Hpt Hc. do 2 eexists.
    split; [exact (encode_float_text vb s x Hx Hs Hps)|]. split; [exact (encode_float_text wb t y Hy Ht Hpt)|].
    by apply float_keys_sorted.
Qed.
