(* ===== verification/DatabaseIndex.v ===== *)
(** * Index definitions

    Models [engine/database/databaseindex.rs]: the kinds and origins of indexes, how an index is derived
    from a field and how its id is composed. *)

From Stdlib Require Import ZArith Lia.
From stdpp Require Import base list strings.
From S2P Require Import Prelude Identifiers Schema.

Inductive DatabaseIndexKind := IndexPrimaryKey | IndexUnique | IndexIndexed.

Inductive DatabaseIndexOrigin := Derived | UserDefined | Relationship | Temporary.

Record DatabaseIndex := {
  index_id : ustr;
  index_table_id : ustr;
  index_kind : DatabaseIndexKind;
  origin : DatabaseIndexOrigin;
  temp_id : option ustr;
  field_names : list ustr;
  index_field_name : ustr
}.

#[global] Instance DatabaseIndexKind_eq_dec : EqDecision DatabaseIndexKind.
Proof. solve_decision. Defined.
#[global] Instance DatabaseIndexOrigin_eq_dec : EqDecision DatabaseIndexOrigin.
Proof. solve_decision. Defined.
#[global] Instance DatabaseIndex_eq_dec : EqDecision DatabaseIndex.
Proof. solve_decision. Defined.

Definition origin_prefix (o : DatabaseIndexOrigin) : ustr :=
  match o with
  | Derived => lit "drv" | UserDefined => lit "usr" | Relationship => lit "rel" | Temporary => lit "tmp"
  end.

Definition kind_prefix (k : DatabaseIndexKind) : ustr :=
  match k with IndexPrimaryKey => lit "pri" | IndexUnique => lit "uni" | IndexIndexed => lit "ind" end.

(** [slice::join]. *)
Fixpoint join (sep : ustr) (parts : list ustr) : ustr :=
  match parts with
  | [] => []
  | [part] => part
  | part :: rest => part ++ sep ++ join sep rest
  end.

Definition compose_index_id (table_id : ustr) (k : DatabaseIndexKind) (o : DatabaseIndexOrigin)
    (temp : option ustr) (names : list ustr) : ustr :=
  let field_list := join (lit ",") names in
  let colon := lit ":" in
  match o with
  | Derived => kind_prefix k ++ colon ++ table_id ++ colon ++ field_list
  | UserDefined | Relationship =>
      origin_prefix o ++ colon ++ kind_prefix k ++ colon ++ table_id ++ colon ++ field_list
  | Temporary =>
      origin_prefix o ++ colon ++ default (lit "temp") temp ++ colon ++ kind_prefix k ++ colon
      ++ table_id ++ colon ++ field_list
  end.

Definition from_table_fields_with_origin (table_id : ustr) (k : DatabaseIndexKind) (o : DatabaseIndexOrigin)
    (temp : option ustr) (names : list ustr) : DatabaseIndex :=
  let table_id := normalize_identifier table_id in
  let names := normalize_identifier <$> names in
  {| index_id := compose_index_id table_id k o temp names; index_table_id := table_id; index_kind := k; origin := o;
     temp_id := temp; field_names := names; index_field_name := default [] (head names) |}.

Definition from_table_fields (table_id : ustr) (k : DatabaseIndexKind) (names : list ustr) : DatabaseIndex :=
  from_table_fields_with_origin table_id k Derived None names.

Definition from_table_field (table_id : ustr) (field : FieldDef) : DatabaseIndex :=
  let k :=
    match indexed field with
    | PrimaryKey => IndexPrimaryKey
    | Indexed => if default false (unique <$> metadata field) then IndexUnique else IndexIndexed
    | _ => IndexIndexed
    end in
  from_table_fields_with_origin table_id k Derived None [normalize_identifier (field_name field)].

Definition temporary (table_id : ustr) (k : DatabaseIndexKind) (temp : ustr) (names : list ustr) : DatabaseIndex :=
  from_table_fields_with_origin table_id k Temporary (Some temp) names.

Definition refresh_index_id (i : DatabaseIndex) : DatabaseIndex :=
  let names :=
    if is_empty (field_names i) && negb (is_empty (index_field_name i)) then [index_field_name i] else field_names i in
  let names := normalize_identifier <$> names in
  let table_id := normalize_identifier (index_table_id i) in
  {| index_id := compose_index_id table_id (index_kind i) (origin i) (temp_id i) names; index_table_id := table_id;
     index_kind := index_kind i; origin := origin i; temp_id := temp_id i; field_names := names;
     index_field_name := default [] (head names) |}.

Definition is_primary_key (i : DatabaseIndex) : bool := eqb (index_kind i) IndexPrimaryKey.
Definition is_unique_key (i : DatabaseIndex) : bool := eqb (index_kind i) IndexPrimaryKey || eqb (index_kind i) IndexUnique.
Definition is_temporary (i : DatabaseIndex) : bool := eqb (origin i) Temporary.
Definition is_relationship_driven (i : DatabaseIndex) : bool := eqb (origin i) Relationship.
Definition is_user_defined (i : DatabaseIndex) : bool := eqb (origin i) UserDefined.
