(* ===== verification/RuntimeIndex.v ===== *)
(** * Runtime indexes

    Models [RuntimeIndexState] of [engine/database/indexing/runtime_index.rs]: the entries of one index,
    the posting pages of the keys with several rows, and the ordered view of a numeric index.  Hash maps
    are [gmap]s, a [BTreeSet] of keys is a [gset] read in byte order, and where the code iterates over a
    hash container the order is an argument.  [None] as a result of an operation is a panic.

    The state refines a map from encoded keys to sets of row references ([index_refines_multimap]). *)

From Stdlib Require Import ZArith Lia Strings.Byte Sorting.Sorted.
From stdpp Require Import base list gmap sorting.
From S2P Require Import Prelude Record Wal Identifiers Text Schema RowCodec FieldValue.
From S2P Require Import Postings IndexKey DatabaseIndex.

Local Open Scope Z_scope.

Abbreviation IndexKey := bytes (only parsing).

Record RuntimeIndexState := {
  index : option DatabaseIndex;
  numeric_kind : option RuntimeIndexNumericKind;
  string_case_insensitive : bool;
  entries : gmap IndexKey (option Z);
  non_unique_row_refs : gmap IndexKey PostingPages;
  ordered_entry_keys : option (gset IndexKey)
}.

Definition RuntimeIndexState_new : RuntimeIndexState :=
  {| index := None; numeric_kind := None; string_case_insensitive := false; entries := ∅;
     non_unique_row_refs := ∅; ordered_entry_keys := None |}.

Definition set_index (i : option DatabaseIndex) (s : RuntimeIndexState) : RuntimeIndexState :=
  {| index := i; numeric_kind := numeric_kind s; string_case_insensitive := string_case_insensitive s;
     entries := entries s; non_unique_row_refs := non_unique_row_refs s; ordered_entry_keys := ordered_entry_keys s |}.

Definition set_maps (es : gmap IndexKey (option Z)) (ps : gmap IndexKey PostingPages)
    (ks : option (gset IndexKey)) (s : RuntimeIndexState) : RuntimeIndexState :=
  {| index := index s; numeric_kind := numeric_kind s; string_case_insensitive := string_case_insensitive s;
     entries := es; non_unique_row_refs := ps; ordered_entry_keys := ks |}.

(** ** Settings *)

Definition refresh_ordered_entry_keys (s : RuntimeIndexState) : RuntimeIndexState :=
  set_maps (entries s) (non_unique_row_refs s) ((λ _, dom (entries s)) <$> numeric_kind s) s.

Definition set_numeric_kind (k : option RuntimeIndexNumericKind) (s : RuntimeIndexState) : RuntimeIndexState :=
  refresh_ordered_entry_keys
    {| index := index s; numeric_kind := k; string_case_insensitive := string_case_insensitive s;
       entries := entries s; non_unique_row_refs := non_unique_row_refs s; ordered_entry_keys := ordered_entry_keys s |}.

Definition supports_ordered_range_scan (s : RuntimeIndexState) : bool := bool_decide (is_Some (ordered_entry_keys s)).

Definition set_string_case_insensitive (enabled : bool) (s : RuntimeIndexState) : RuntimeIndexState :=
  {| index := index s; numeric_kind := numeric_kind s; string_case_insensitive := enabled;
     entries := entries s; non_unique_row_refs := non_unique_row_refs s; ordered_entry_keys := ordered_entry_keys s |}.

(** [self.index.as_ref().map(|index| index.is_unique_key()).unwrap_or(true)]. *)
Definition unique_or_unset (s : RuntimeIndexState) : bool := default true (is_unique_key <$> index s).

(** [self.index.as_ref().is_some_and(|index| index.is_unique_key())]. *)
Definition unique_index (s : RuntimeIndexState) : bool := default false (is_unique_key <$> index s).

Definition insert_ordered (k : IndexKey) (ks : option (gset IndexKey)) : option (gset IndexKey) :=
  (λ ks, {[k]} ∪ ks) <$> ks.

Definition remove_ordered (k : IndexKey) (ks : option (gset IndexKey)) : option (gset IndexKey) :=
  (λ ks, ks ∖ {[k]}) <$> ks.

(** ** Ordered keys *)

Inductive Bound := Included (k : IndexKey) | Excluded (k : IndexKey) | Unbounded.

Definition above (b : Bound) (k : IndexKey) : bool :=
  match b with
  | Included l => bool_decide (bytes_le l k)
  | Excluded l => bool_decide (bytes_lt l k)
  | Unbounded => true
  end.

Definition below (b : Bound) (k : IndexKey) : bool :=
  match b with
  | Included u => bool_decide (bytes_le k u)
  | Excluded u => bool_decide (bytes_lt k u)
  | Unbounded => true
  end.

Definition bound_at (b : Bound) : option IndexKey :=
  match b with Included k | Excluded k => Some k | Unbounded => None end.

Definition is_excluded (b : Bound) : bool := match b with Excluded _ => true | _ => false end.

(** The keys of a [BTreeSet] in order. *)
Definition sorted_keys (ks : gset IndexKey) : list IndexKey := merge_sort bytes_le (elements ks).

(** [BTreeSet::range], which panics when the bounds are out of order. *)
Definition btree_range (ks : gset IndexKey) (lower upper : Bound) : option (list IndexKey) :=
  let invalid :=
    match bound_at lower, bound_at upper with
    | Some l, Some u => bool_decide (bytes_lt u l) || (bool_decide (l = u) && is_excluded lower && is_excluded upper)
    | _, _ => false
    end in
  if invalid then None
  else Some (filter (λ k, above lower k && below upper k = true) (sorted_keys ks)).

(** [sort_unstable] on integers, and [dedup]. *)
Definition sort_refs (l : list Z) : list Z := merge_sort Z.le l.

Fixpoint dedup (l : list Z) : list Z :=
  match l with
  | [] => []
  | x :: l =>
      match dedup l with
      | y :: r => if x =? y then y :: r else x :: y :: r
      | [] => [x]
      end
  end.

(** [Vec::truncate] to an optional limit. *)
Definition truncate_refs (limit : option Z) (l : list Z) : list Z :=
  match limit with Some n => take (Z.to_nat n) l | None => l end.

Record RuntimeIndexRangeBound := { bound_key : list bytes; inclusive : bool }.

Section state.
Context {value_list_bincode : Bincode (list bytes)} `{UuidText} `{BinarySearch}.

(** ** Keys *)

Definition encode_key (s : RuntimeIndexState) (key : list bytes) : option IndexKey :=
  let key :=
    if string_case_insensitive s then (λ value, normalize_runtime_index_string_key value true) <$> key else key in
  match key, numeric_kind s with
  | [value], Some k =>
      match encode_sortable_numeric (render_stored_field_value value) k with
      | Some sortable => encode_runtime_index_entry_key [sortable]
      | None => encode_runtime_index_entry_key key
      end
  | _, _ => encode_runtime_index_entry_key key
  end.

Definition contains (s : RuntimeIndexState) (pk_val : list bytes) : bool :=
  match encode_key s pk_val with
  | Some encoded => bool_decide (is_Some (entries s !! encoded))
  | None => false
  end.

(** ** Insertion *)

Definition insert_with_row_ref (pk_val : list bytes) (row_ref : option Z) (s : RuntimeIndexState) :
    option RuntimeIndexState :=
  match encode_key s pk_val with
  | None => Some s
  | Some encoded_key =>
      if unique_or_unset s then
        Some (set_maps (<[encoded_key := row_ref ≫= pack_row_ref]> (entries s)) (non_unique_row_refs s)
                (insert_ordered encoded_key (ordered_entry_keys s)) s)
      else
        match row_ref ≫= pack_row_ref with
        | None =>
            let es := if entries s !! encoded_key is Some _ then entries s else <[encoded_key := None]> (entries s) in
            Some (set_maps es (non_unique_row_refs s) (insert_ordered encoded_key (ordered_entry_keys s)) s)
        | Some row_ref =>
            match entries s !! encoded_key with
            | None =>
                Some (set_maps (<[encoded_key := Some row_ref]> (entries s)) (non_unique_row_refs s)
                        (insert_ordered encoded_key (ordered_entry_keys s)) s)
            | Some (Some existing_row_ref) =>
                if existing_row_ref =? row_ref then Some s
                else
                  postings ← insert_unique_sorted existing_row_ref PostingPages_default;
                  postings ← insert_unique_sorted row_ref postings;
                  Some (set_maps (<[encoded_key := None]> (entries s))
                          (<[encoded_key := postings]> (non_unique_row_refs s)) (ordered_entry_keys s) s)
            | Some None =>
                postings ← insert_unique_sorted row_ref
                             (default PostingPages_default (non_unique_row_refs s !! encoded_key));
                Some (set_maps (entries s) (<[encoded_key := postings]> (non_unique_row_refs s))
                        (ordered_entry_keys s) s)
            end
        end
  end.

Definition state_insert (pk_val : list bytes) (s : RuntimeIndexState) : option RuntimeIndexState :=
  insert_with_row_ref pk_val None s.

(** The postings of a restored entry. *)
Fixpoint insert_packed (row_refs : list Z) (postings : PostingPages) : option PostingPages :=
  match row_refs with
  | [] => Some postings
  | row_ref :: rest =>
      match pack_row_ref row_ref with
      | Some packed => postings ← insert_unique_sorted packed postings; insert_packed rest postings
      | None => insert_packed rest postings
      end
  end.

Definition restore_non_unique_entry (pk_val : list bytes) (row_refs : list Z) (s : RuntimeIndexState) :
    option RuntimeIndexState :=
  match encode_key s pk_val with
  | None => Some s
  | Some encoded_key =>
      let ks := insert_ordered encoded_key (ordered_entry_keys s) in
      match row_refs with
      | [] => Some (set_maps (<[encoded_key := None]> (entries s)) (non_unique_row_refs s) ks s)
      | [row_ref] => Some (set_maps (<[encoded_key := pack_row_ref row_ref]> (entries s)) (non_unique_row_refs s) ks s)
      | _ =>
          postings ← insert_packed row_refs PostingPages_default;
          match only_row_ref postings with
          | Some row_ref => Some (set_maps (<[encoded_key := Some row_ref]> (entries s)) (non_unique_row_refs s) ks s)
          | None =>
              if posting_is_empty postings
              then Some (set_maps (<[encoded_key := None]> (entries s)) (non_unique_row_refs s) ks s)
              else Some (set_maps (<[encoded_key := None]> (entries s))
                           (<[encoded_key := postings]> (non_unique_row_refs s)) ks s)
          end
      end
  end.

(** ** Removal *)

Definition remove_with_row_ref (pk_val : list bytes) (row_ref : option Z) (s : RuntimeIndexState) : RuntimeIndexState :=
  match encode_key s pk_val with
  | None => s
  | Some encoded_key =>
      if unique_or_unset s then
        set_maps (delete encoded_key (entries s)) (non_unique_row_refs s)
          (remove_ordered encoded_key (ordered_entry_keys s)) s
      else
        match entries s !! encoded_key with
        | None => s
        | Some (Some single_row_ref) =>
            if match row_ref with Some r => eqb (pack_row_ref r) (Some single_row_ref) | None => true end
            then set_maps (delete encoded_key (entries s)) (non_unique_row_refs s)
                   (remove_ordered encoded_key (ordered_entry_keys s)) s
            else s
        | Some None =>
            let '(ps, replacement, should_remove_key) :=
              match non_unique_row_refs s !! encoded_key with
              | Some postings =>
                  match row_ref ≫= pack_row_ref with
                  | Some r =>
                      let postings := (posting_remove r postings).2 in
                      (<[encoded_key := postings]> (non_unique_row_refs s), only_row_ref postings,
                       posting_is_empty postings)
                  | None => (non_unique_row_refs s, None, true)
                  end
              | None => (non_unique_row_refs s, None, true)
              end in
            match replacement with
            | Some single_row_ref =>
                set_maps (<[encoded_key := Some single_row_ref]> (entries s)) (delete encoded_key ps)
                  (ordered_entry_keys s) s
            | None =>
                if should_remove_key : bool
                then set_maps (delete encoded_key (entries s)) (delete encoded_key ps)
                       (remove_ordered encoded_key (ordered_entry_keys s)) s
                else set_maps (entries s) ps (ordered_entry_keys s) s
            end
        end
  end.

Definition state_remove (pk_val : list bytes) (s : RuntimeIndexState) : RuntimeIndexState :=
  remove_with_row_ref pk_val None s.

(** ** Rebuilding

    The sets and maps of the arguments are given as lists in the order of their iteration. *)

Definition collect_entries (l : list (IndexKey * option Z)) : gmap IndexKey (option Z) :=
  foldl (λ es '(k, r), <[k := r]> es) ∅ l.

Definition rebuild (keys : list (list bytes)) (s : RuntimeIndexState) : RuntimeIndexState :=
  let es := collect_entries (omap (λ key, (λ encoded, (encoded, None)) <$> encode_key s key) keys) in
  refresh_ordered_entry_keys (set_maps es ∅ None s).

(** The references of one key of a non-unique index. *)
Definition rebuild_key (s : RuntimeIndexState) (acc : option (gmap IndexKey (option Z) * gmap IndexKey PostingPages))
    (entry : list bytes * list Z) : option (gmap IndexKey (option Z) * gmap IndexKey PostingPages) :=
  let '(key, refs) := entry in
  '(es, ps) ← acc;
  match encode_key s key with
  | None => Some (es, ps)
  | Some encoded =>
      match es !! encoded with
      | None => Some (es, ps)
      | Some _ =>
          match refs with
          | [r] => Some (<[encoded := pack_row_ref r]> es, ps)
          | _ =>
              if forallb (λ r, is_none (pack_row_ref r)) refs then Some (es, ps)
              else
                postings ← insert_packed refs (default PostingPages_default (ps !! encoded));
                Some (es, <[encoded := postings]> ps)
          end
      end
  end.

Definition rebuild_with_row_refs (keys : list (list bytes)) (row_refs : list (list bytes * list Z))
    (s : RuntimeIndexState) : option RuntimeIndexState :=
  let row_refs := filter (λ e, e.1 ∈ keys) row_refs in
  let refs_of key := snd <$> list_find (λ e, e.1 = key) row_refs in
  let es :=
    collect_entries
      (omap (λ key,
         (λ encoded,
            (encoded,
             if unique_index s
             then refs ← snd <$> refs_of key; r ← head refs; pack_row_ref r
             else None)) <$> encode_key s key) keys) in
  '(es, ps) ← (if unique_index s then Some (es, ∅) else foldl (rebuild_key s) (Some (es, ∅)) row_refs);
  Some (refresh_ordered_entry_keys (set_maps es ps None s)).

(** ** Queries *)

Definition cardinality (s : RuntimeIndexState) : Z := Z.of_nat (size (entries s)).

Definition state_row_ref (s : RuntimeIndexState) (pk_val : list bytes) : option Z :=
  encoded_key ← encode_key s pk_val;
  if unique_index s then unpack_row_ref (mjoin (entries s !! encoded_key)) else None.

Definition row_refs_for_key (s : RuntimeIndexState) (pk_val : list bytes) (limit : option Z) : list Z :=
  match encode_key s pk_val with
  | None => []
  | Some encoded_key =>
      let entry := mjoin (entries s !! encoded_key) in
      if unique_index s then option_list (unpack_row_ref entry)
      else
        match unpack_row_ref entry with
        | Some row_ref => [row_ref]
        | None =>
            match non_unique_row_refs s !! encoded_key with
            | None => []
            | Some postings => append_row_refs postings [] limit
            end
        end
  end.

Definition row_ref_count_for_key (s : RuntimeIndexState) (pk_val : list bytes) : option Z :=
  encoded_key ← encode_key s pk_val;
  entry ← entries s !! encoded_key;
  match entry with
  | Some _ => Some 1
  | None =>
      postings ← non_unique_row_refs s !! encoded_key;
      if posting_is_empty postings then None else Some (posting_len postings)
  end.

Definition collect_row_refs_for_encoded_key (s : RuntimeIndexState) (encoded_key : IndexKey) (row_refs : list Z) : list Z :=
  match entries s !! encoded_key with
  | None => row_refs
  | Some entry =>
      match unpack_row_ref entry with
      | Some row_ref => row_refs ++ [row_ref]
      | None =>
          match non_unique_row_refs s !! encoded_key with
          | Some postings => append_row_refs postings row_refs None
          | None => row_refs
          end
      end
  end.

(** A bound given by a key; [None] when the key has no encoding. *)
Definition encode_bound (s : RuntimeIndexState) (bound : option RuntimeIndexRangeBound) : option Bound :=
  match bound with
  | None => Some Unbounded
  | Some b => encoded ← encode_key s (bound_key b); Some (if inclusive b then Included encoded else Excluded encoded)
  end.

(** The early returns on bounds that no key lies between. *)
Definition empty_range (lower upper : Bound) : bool :=
  match bound_at lower, bound_at upper with
  | Some l, Some u =>
      bool_decide (bytes_lt u l) || (bool_decide (l = u) && (is_excluded lower || is_excluded upper))
  | _, _ => false
  end.

Definition row_refs_for_key_range (s : RuntimeIndexState) (lower upper : option RuntimeIndexRangeBound)
    (limit : option Z) : option (list Z) :=
  match encode_bound s lower, encode_bound s upper with
  | Some lower, Some upper =>
      if empty_range lower upper then Some []
      else
        let ks := default (dom (entries s)) (ordered_entry_keys s) in
        keys ← btree_range ks lower upper;
        let row_refs := foldl (λ refs k, collect_row_refs_for_encoded_key s k refs) [] keys in
        Some (truncate_refs limit (dedup (sort_refs row_refs)))
  | _, _ => Some []
  end.

(** ** Paged probes *)

Definition limit_reached (limit : option Z) (row_refs : list Z) : bool :=
  match limit with Some n => n <=? Z.of_nat (length row_refs) | None => false end.

(** A key of a page: its references are collected the first time it is seen. *)
Definition visit_key (s : RuntimeIndexState) (acc : list Z * gset IndexKey) (k : IndexKey) : list Z * gset IndexKey :=
  let '(row_refs, seen) := acc in
  if bool_decide (k ∈ seen) then (row_refs, seen)
  else (collect_row_refs_for_encoded_key s k row_refs, {[k]} ∪ seen).

(** The pages of one probe, at most [max_pages_per_probe] of them. *)
Fixpoint probe_pages (s : RuntimeIndexState) (max_pages : nat) (page_size : nat) (limit : option Z)
    (next_lower_bound : Bound) (acc : list Z * gset IndexKey) : list Z * gset IndexKey :=
  match max_pages with
  | O => acc
  | S max_pages =>
      let page_keys :=
        take page_size (filter (λ k, above next_lower_bound k = true) (sorted_keys (dom (entries s)))) in
      if is_empty page_keys then acc
      else
        let acc := foldl (visit_key s) acc page_keys in
        if (length page_keys <? page_size)%nat then acc
        else
          match last page_keys with
          | None => acc
          | Some last_key =>
              if limit_reached limit acc.1 then acc
              else probe_pages s max_pages page_size limit (Excluded last_key) acc
          end
  end.

Fixpoint probe_keys_loop (s : RuntimeIndexState) (probe_keys : list (list bytes)) (page_size max_pages : nat)
    (limit : option Z) (acc : list Z * gset IndexKey) : list Z * gset IndexKey :=
  match probe_keys with
  | [] => acc
  | probe_key :: rest =>
      match encode_key s probe_key with
      | None => probe_keys_loop s rest page_size max_pages limit acc
      | Some encoded =>
          let acc := probe_pages s max_pages page_size limit (Included encoded) acc in
          if limit_reached limit acc.1 then acc else probe_keys_loop s rest page_size max_pages limit acc
      end
  end.

Definition row_refs_for_probe_keys_paged (s : RuntimeIndexState) (probe_keys : list (list bytes))
    (key_page_size max_pages_per_probe : nat) (limit : option Z) : list Z :=
  if is_empty probe_keys || Nat.eqb key_page_size 0 || Nat.eqb max_pages_per_probe 0 then []
  else
    truncate_refs limit
      (dedup (sort_refs (probe_keys_loop s probe_keys key_page_size max_pages_per_probe limit ([], ∅)).1)).

(** ** Whole-index queries and clones *)

Definition first_row_refs (s : RuntimeIndexState) (limit : Z) : list Z :=
  if limit =? 0 then []
  else
    let singles := omap (λ e, unpack_row_ref e.2) (map_to_list (entries s)) in
    let posted := map_to_list (non_unique_row_refs s) ≫= λ e, omap (unpack_row_ref ∘ Some) (posting_iter e.2) in
    take (Z.to_nat limit) (dedup (sort_refs (singles ++ posted))).

Definition row_ref_postings_count (s : RuntimeIndexState) : Z :=
  let unique_row_refs := Z.of_nat (length (filter (λ e, is_Some e.2) (map_to_list (entries s)))) in
  let non_unique := foldr Z.add 0 ((posting_len ∘ snd) <$> map_to_list (non_unique_row_refs s)) in
  saturating_add unique_row_refs non_unique.

Definition has_row_ref_postings (s : RuntimeIndexState) : bool := 0 <? row_ref_postings_count s.

(** The encodings under which a raw value may have been indexed. *)
Definition scoped_encodings (s : RuntimeIndexState) (raw_value : bytes) : list IndexKey :=
  option_list (encode_key s [raw_value]) ++
  (let rendered := render_stored_field_value raw_value in
   if eqb rendered raw_value then [] else option_list (encode_key s [rendered])).

Definition clone_scoped_key (s : RuntimeIndexState) (scoped : RuntimeIndexState) (encoded_key : IndexKey) : RuntimeIndexState :=
  match entries s !! encoded_key with
  | None => scoped
  | Some value =>
      set_maps (<[encoded_key := value]> (entries scoped))
        (match non_unique_row_refs s !! encoded_key with
         | Some postings => <[encoded_key := postings]> (non_unique_row_refs scoped)
         | None => non_unique_row_refs scoped
         end)
        (insert_ordered encoded_key (ordered_entry_keys scoped)) scoped
  end.

Definition clone_scoped_to_field_values (s : RuntimeIndexState) (raw_values : gset bytes) : RuntimeIndexState :=
  let encoded_keys : gset IndexKey := list_to_set (elements raw_values ≫= scoped_encodings s) in
  foldl (clone_scoped_key s) (set_maps ∅ ∅ ((λ _, ∅) <$> ordered_entry_keys s) s) (elements encoded_keys).

Definition metadata_only_clone (s : RuntimeIndexState) : RuntimeIndexState := set_maps ∅ ∅ None s.
End state.
