(* ===== verification/FullScan.v ===== *)
(** * The rows of a table scan

    Models the full scan of [serverlib/src/engine/execution/access.rs]: the rows that a query over one table reads when no
    index fits its condition, and the limit that the executor of [SelectExec.v] hands down.  With a primary key index the
    rows come through the index, otherwise from the end of the log.  The theorems say what a query sees of its table: the
    newest rows only, and so fewer rows than match. *)

From Stdlib Require Import ZArith Lia Strings.Byte.
From stdpp Require Import base gmap list strings sorting.
From S2P Require Import Prelude Settings Text Record Wal LiveRows Schema RowCodec FieldValue Predicates Conditions Joins.
From S2P Require Import SelectPlan SelectExec SelectFacts Postings IndexKey DatabaseIndex RuntimeIndex.

Local Open Scope Z_scope.

Definition RELATION_DEFAULT_ROW_CAP : Z := 50000.

Section scan.
Context (decode_row : bytes → option row_map).

Definition load_live_rows_in_place_limited (records : option (list TransactionRecord)) (max_rows : Z) : list (Z * row_map) :=
  if max_rows =? 0 then []
  else
    match records with
    | Some records => collect_live_rows_from_records_limited decode_row records (Z.to_nat max_rows)
    | None => []
    end.

Definition record_at_wal_offset (records : list TransactionRecord) (row_id : Z) : option TransactionRecord :=
  records !! Z.to_nat row_id.

Definition load_live_rows_by_runtime_index_row_refs (records : option (list TransactionRecord)) (row_refs : list Z) :
    list (Z * row_map) :=
  match records with
  | Some records =>
      omap (λ row_ref,
              record ← record_at_wal_offset records row_ref;
              row ← record_row decode_row record;
              Some (id record, row)) row_refs
  | None => []
  end.

(** [pk_state]: the state of the primary key's index, if there is one. *)
Definition load_live_rows_via_primary_key_limit (pk_state : option RuntimeIndexState)
    (records : option (list TransactionRecord)) (row_limit : Z) : option (list (Z * row_map)) :=
  state ← pk_state;
  let row_refs := first_row_refs state row_limit in
  if is_empty row_refs then None else Some (load_live_rows_by_runtime_index_row_refs records row_refs).

Definition load_live_rows_with_optional_pk_cap (pk_state : option RuntimeIndexState)
    (records : option (list TransactionRecord)) (row_limit : option Z) : list (Z * row_map) :=
  let max_rows := default RELATION_DEFAULT_ROW_CAP row_limit in
  match load_live_rows_via_primary_key_limit pk_state records max_rows with
  | Some rows => rows
  | None => load_live_rows_in_place_limited records max_rows
  end.

(** The source of the rows for the access plan [FullScan], for which there is no indexed count. *)
Definition full_scan (pk_state : option RuntimeIndexState) (records : option (list TransactionRecord)) (row_count : Z) :
    RelationSource :=
  mkRelationSource (load_live_rows_with_optional_pk_cap pk_state records) row_count None.
(** ** What a scan sees *)

(** A log as the log manager writes it. *)
Record log_ok (records : list TransactionRecord) : Prop := {
  log_unique : unique_ids records;
  log_back : refs_back records;
  log_last : terminals_last ∅ records = true
}.

(** The newest rows of a table. *)
Definition newest `{Env} (workers : Z) (records : list TransactionRecord) (n : Z) : list (Z * row_map) :=
  let rows := collect_live_rows_from_records decode_row workers records in drop (length rows - Z.to_nat n) rows.

Lemma full_scan_newest `{Env} workers records row_limit row_count :
  let n := default RELATION_DEFAULT_ROW_CAP row_limit in
  0 < n → log_ok records →
  source_rows (full_scan None (Some records) row_count) row_limit = newest workers records n.
Proof.
  intros n Hn []. simpl. unfold load_live_rows_with_optional_pk_cap, load_live_rows_in_place_limited. simpl. fold n.
  destruct (Z.eqb_spec n 0) as [?|_]; [lia|]. unfold newest.
  by apply limited_replay_is_suffix; [lia|done..].
Qed.

Section queries.
Context `{Env} {Subquery Function NamedWindow : Type} `{FieldValues} `{UuidText} `{RegexEngine} `{SortBy}.
Context (expression : provider → ustr → result (option bytes) string).
Context (apply_window_function : nat → Function → list FieldDef → list NamedWindow → list result_row → outcome (list result_row)).
Context (evaluate_function : Function → provider → result (option bytes) string).
Context (sql_function_references_column function_is_count_star : Function → bool).

Abbreviation plan := (SelectReadPlan Subquery Function NamedWindow).
Abbreviation execute_relation :=
  (execute_relation_select_plan_with_row_bound expression apply_window_function evaluate_function
     sql_function_references_column function_is_count_star).
Abbreviation static_value :=
  (static_projection_value (Subquery := Subquery) evaluate_function sql_function_references_column).

(** What is not looked at here: EXPLAIN, COUNT, a projection that fails, window functions. *)
Record plain_select (schema : TableSchema) (read_plan : plan) (columns : list FieldDef) (values : list (option (option bytes))) :
    Prop := {
  plain_explain : plan_is_explain read_plan = false;
  plain_count : count_star_projection function_is_count_star read_plan = None;
  plain_window : Forall (λ it, is_window_item it = false) (plan_projection_items read_plan);
  plain_columns : relation_columns schema read_plan = Ok columns;
  plain_values :
    map_result (static_value "select failed: inbuilt projection evaluation failed"%string) (relation_items schema read_plan)
    = Ok values
}.


Lemma limit_offset_materialization (read_plan : plan) limit offset :
  select_requires_full_result_materialization read_plan = false →
  plan_limit read_plan = Some limit → plan_offset read_plan = Some offset → 0 ≤ limit → 0 ≤ offset →
  limit + offset ≤ usize_max → materialization_row_limit read_plan None = Some (limit + offset).
Proof.
  intros Hfull Hl Ho Hl0 Ho0 Hmax. unfold usize_max in Hmax.
  unfold materialization_row_limit, effective_result_row_bound, select_explicit_result_row_bound, simple_unordered_relation_row_limit.
  rewrite Hfull, Hl, Ho. simpl. unfold saturating_add. rewrite Z.min_l by lia.
  destruct (Z.eqb_spec offset 0) as [->|?]; [|done]. simpl. destruct (_ || _); [done|]. simpl. f_equal. lia.
Qed.

Lemma newest_page workers records limit offset :
  0 ≤ limit → 0 ≤ offset →
  limit + offset ≤ Z.of_nat (length (collect_live_rows_from_records decode_row workers records)) →
  take (Z.to_nat limit) (drop (Z.to_nat offset) (newest workers records (limit + offset))) = newest workers records limit.
Proof.
  unfold newest. intros Hl Ho Hlen. rewrite drop_drop, take_ge; [f_equal; lia|]. rewrite length_drop. lia.
Qed.

(** All pages are the same page.  A query without a condition and an order that asks with LIMIT and OFFSET for a part of a
    table without a primary key index gets the newest rows, for every offset: as many rows are read as limit and offset say,
    from the end of the table, and the offset then skips the oldest ones of these. *)
Theorem pages_repeat (workers : Z) (records : list TransactionRecord) (row_count : Z) (schema : TableSchema)
    (explained : SelectExecutionResult) (read_plan : plan) (columns : list FieldDef) (values : list (option (option bytes)))
    (row_matches_relation : row_map → option (SelectCondition Subquery) → result bool string) (limit offset : Z)
    (p : Z * row_map → result_row) :
  let error := "select failed: inbuilt projection evaluation failed"%string in
  plain_select schema read_plan columns values →
  select_requires_full_result_materialization read_plan = false →
  plan_limit read_plan = Some limit → plan_offset read_plan = Some offset → 0 < limit → 0 ≤ offset →
  limit + offset ≤ Z.of_nat (length (collect_live_rows_from_records decode_row workers records)) → limit + offset ≤ usize_max →
  capacity_overflows (Some (limit + offset)) = false → log_ok records →
  (∀ row, row_matches_relation row (plan_where_condition read_plan) = Ok true) →
  (∀ row, row ∈ newest workers records (limit + offset) →
     project_row expression evaluate_function error columns values (relation_items schema read_plan) (row_map_provider row.2)
     = Ok (p row)) →
  execute_relation (full_scan None (Some records) row_count) schema explained read_plan row_matches_relation None
  = let '(columns, rows) := strip_hidden_output_columns columns (p <$> newest workers records limit) in
    Some (Ok (mkSelectExecutionResult columns rows)).
Proof.
  intros error [He Hcount Hw Hc Hv] Hfull Hl Ho Hl0 Ho0 Hlen Hmax Hcap Hlog Hm Hp.
  pose proof (limit_offset_materialization _ _ _ Hfull Hl Ho ltac:(lia) Ho0 Hmax) as Hmat.
  pose proof (full_scan_newest workers records (Some (limit + offset)) row_count ltac:(simpl; lia) Hlog) as Hrows.
  rewrite (relation_select_window expression apply_window_function evaluate_function sql_function_references_column
             function_is_count_star (full_scan None (Some records) row_count) schema explained read_plan row_matches_relation
             columns values (λ _, true) p); try done.
  - rewrite Hmat, Hrows, filter_all by by apply Forall_forall. unfold limit_offset. rewrite Hl, Ho. simpl.
    rewrite <-fmap_drop, <-fmap_take. by rewrite newest_page by lia.
  - rewrite Hl. simpl. lia.
  - rewrite Ho. simpl. lia.
  - unfold effective_result_row_bound, select_explicit_result_row_bound. rewrite Hfull, Hl, Ho. simpl.
    unfold saturating_add. by rewrite Z.min_l.
  - rewrite Hmat, Hrows. unfold newest. rewrite length_drop. simpl. lia.
  - intros row. rewrite Hmat, Hrows. intros Hin _. by apply Hp.
Qed.
End queries.
End scan.
