(* ===== verification/WindowFacts.v ===== *)
(** * Facts about window functions

    The window functions of [Windows.v] return: names of windows are resolved, the comparison that sorts a partition is an
    order, and NTILE does not divide by zero.  They keep the shape of the rows, so that the results of queries are well-formed; ranks count
    the rows before a row; the buckets of NTILE are even; and a frame behind the last row is not empty. *)

From Stdlib Require Import ZArith Lia Strings.Byte Sorting.Sorted.
From stdpp Require Import base gmap list strings sorting.
From S2P Require Import Prelude Settings Text Float64 Schema RowCodec FieldValue Predicates Conditions Joins SelectPlan SelectExec.
From S2P Require Import SelectFacts SortFacts Windows IndexKey.

Local Open Scope Z_scope.

(** ** Named windows *)

(** The visited names are different, and there is a definition for each. *)
Definition visits (named_windows : list NamedWindowDefinition) (visiting : list ustr) : Prop :=
  NoDup visiting ∧ visiting ⊆ (to_ascii_lowercase ∘ fst <$> named_windows).

Lemma visits_length named_windows visiting : visits named_windows visiting → (length visiting ≤ length named_windows)%nat.
Proof.
  intros [Hn Hs]. rewrite <-(length_fmap (to_ascii_lowercase ∘ fst) named_windows).
  apply submseteq_length, NoDup_submseteq; [done|]. intros x Hx. by apply Hs.
Qed.

Lemma visits_cons named_windows visiting name definition :
  visits named_windows visiting → existsb (str_eqb (to_ascii_lowercase name)) visiting = false →
  find (λ d : NamedWindowDefinition, eq_ignore_ascii_case d.1 name) named_windows = Some definition →
  visits named_windows (to_ascii_lowercase name :: visiting).
Proof.
  intros [Hn Hs] Hv Hf. apply find_some in Hf as [Hin Heq]. unfold eq_ignore_ascii_case, str_eqb in Heq.
  apply bool_decide_eq_true in Heq. split.
  - constructor; [|done]. intros Hx. rewrite <-not_true_iff_false in Hv. apply Hv, existsb_exists.
    exists (to_ascii_lowercase name). split; [by apply list_elem_of_In|]. by apply bool_decide_eq_true.
  - intros x [->|Hx]%elem_of_cons; [|by apply Hs]. apply list_elem_of_fmap. exists definition. split; [done|].
    by apply list_elem_of_In.
Qed.

Lemma resolve_named_returns named_windows fuel visiting name :
  visits named_windows visiting → (length named_windows < length visiting + fuel)%nat →
  is_Some (resolve_named_window_spec fuel named_windows visiting name).
Proof.
  revert visiting name. induction fuel as [|fuel IH]; intros visiting name Hv Hf.
  { pose proof (visits_length _ _ Hv). lia. }
  simpl. destruct (existsb _ _) eqn:Ee; [by eexists|].
  destruct (find _ _) as [[n d]|] eqn:Ef; [|by eexists]. pose proof (visits_cons _ _ _ _ Hv Ee Ef) as Hv'.
  destruct d as [reference|spec]; [apply IH; [done|simpl; lia]|].
  destruct (spec_window_name spec) as [base|]; [|by eexists].
  destruct (IH _ base Hv' ltac:(simpl; lia)) as [[r|] ->]; by eexists.
Qed.

Lemma resolve_window_spec_returns function named_windows : is_Some (resolve_window_spec function named_windows).
Proof.
  assert (∀ name, is_Some (resolve_named_window_spec (window_fuel named_windows) named_windows [] name)) as Hr.
  { intros name. apply resolve_named_returns; [split; [constructor|set_solver]|]. unfold window_fuel. simpl. lia. }
  unfold resolve_window_spec, resolve_window_spec_from_spec. destruct (call_over function) as [[name|spec]|]; [done| |by eexists].
  destruct (spec_window_name spec) as [name|]; [|by eexists]. destruct (Hr name) as [[r|] ->]; by eexists.
Qed.

(** ** The order in a partition *)

Lemma option_compare_antisym a b : option_compare b a = CompOpp (option_compare a b).
Proof. destruct a, b; try done. apply bytes_compare_antisym. Qed.

Lemma option_compare_eq a b : option_compare a b = Eq → a = b.
Proof. destruct a, b; try done. simpl. by intros ->%bytes_compare_eq. Qed.

Lemma option_compare_refl a : option_compare a a = Eq.
Proof. destruct a; [apply bytes_compare_refl|done]. Qed.

Lemma option_compare_trans a b c : option_compare a b = Lt → option_compare b c = Lt → option_compare a c = Lt.
Proof. destruct a, b, c; try done. apply bytes_compare_trans. Qed.

(** The comparison in one direction. *)
Definition directed (descending : bool) (c : comparison) : comparison := if descending then CompOpp c else c.

Lemma directed_trans descending a b c :
  directed descending (option_compare a b) = Lt → directed descending (option_compare b c) = Lt →
  directed descending (option_compare a c) = Lt.
Proof.
  destruct descending; simpl; [|apply option_compare_trans].
  rewrite <-!option_compare_antisym. intros Hab Hbc. by eapply option_compare_trans.
Qed.

Lemma directed_eq descending a b : directed descending (option_compare a b) = Eq → a = b.
Proof. intros E. apply option_compare_eq. by destruct descending, (option_compare a b). Qed.

Section order.
Context (rows : list result_row).

(** The comparison of the order columns alone. *)
Fixpoint compare_keys (order_indexes : list (nat * bool)) (x y : nat) : comparison :=
  match order_indexes with
  | [] => Eq
  | (index, descending) :: order_indexes =>
      match directed descending (option_compare (row_value rows x index) (row_value rows y index)) with
      | Eq => compare_keys order_indexes x y
      | ordering => ordering
      end
  end.

Lemma compare_rows_by_keys order_indexes x y :
  compare_rows_by_order rows order_indexes x y
  = match compare_keys order_indexes x y with Eq => Nat.compare x y | ordering => ordering end.
Proof.
  induction order_indexes as [|[index descending] order_indexes IH]; [done|]. simpl. rewrite IH.
  destruct (option_compare _ _), descending; done.
Qed.

Lemma compare_keys_antisym order_indexes x y : compare_keys order_indexes y x = CompOpp (compare_keys order_indexes x y).
Proof.
  induction order_indexes as [|[index descending] order_indexes IH]; [done|]. simpl.
  rewrite (option_compare_antisym (row_value rows x index)), IH. by destruct (option_compare _ _), descending.
Qed.

Lemma compare_keys_eq order_indexes x y :
  compare_keys order_indexes x y = Eq ↔ rows_are_window_peers rows order_indexes x y = true.
Proof.
  induction order_indexes as [|[index descending] order_indexes IH]; [done|]. simpl.
  rewrite andb_true_iff, bool_decide_eq_true, <-IH. split.
  - destruct (option_compare _ _) eqn:E, descending; try done; by apply option_compare_eq in E.
  - intros [-> Hk]. rewrite option_compare_refl. by destruct descending.
Qed.

(** Rows with the same key compare in the same way with others. *)
Lemma compare_keys_eq_l order_indexes x y z :
  compare_keys order_indexes x y = Eq → compare_keys order_indexes x z = compare_keys order_indexes y z.
Proof.
  rewrite compare_keys_eq. induction order_indexes as [|[index descending] order_indexes IH]; [done|]. simpl.
  rewrite andb_true_iff, bool_decide_eq_true. intros [-> Hk]. by rewrite (IH Hk).
Qed.

Lemma compare_keys_trans order_indexes x y z :
  compare_keys order_indexes x y = Lt → compare_keys order_indexes y z = Lt → compare_keys order_indexes x z = Lt.
Proof.
  induction order_indexes as [|[index descending] order_indexes IH]; [done|]. simpl.
  intros Hxy Hyz. destruct (directed descending (option_compare (row_value rows x index) _)) eqn:E1; [|clear Hxy|done].
  - apply directed_eq in E1 as ->. destruct (directed _ _); auto.
  - destruct (directed descending (option_compare (row_value rows y index) _)) eqn:E2; [|clear Hyz|done].
    + apply directed_eq in E2 as <-. by rewrite E1.
    + by rewrite (directed_trans _ _ _ _ E1 E2).
Qed.

(** The comparison that sorts a partition is an order on any rows. *)
Lemma compare_rows_by_order_orders order_indexes l : orders (compare_rows_by_order rows order_indexes) l.
Proof.
  split.
  - intros x y _ _. rewrite !compare_rows_by_keys, (compare_keys_antisym order_indexes x y), (Nat.compare_antisym x y).
    by destruct (compare_keys order_indexes x y).
  - intros x y z _ _ _. rewrite !compare_rows_by_keys.
    destruct (compare_keys order_indexes x y) eqn:Exy; [| |done].
    + rewrite (compare_keys_eq_l _ _ _ z Exy). destruct (compare_keys order_indexes y z); [|done..].
      destruct (Nat.compare_spec x y), (Nat.compare_spec y z), (Nat.compare_spec x z); simpl; done || lia.
    + intros _. destruct (compare_keys order_indexes y z) eqn:Eyz; [| |done].
      * intros _. pose proof (compare_keys_eq_l order_indexes y z x Eyz) as E.
        rewrite (compare_keys_antisym order_indexes x y), (compare_keys_antisym order_indexes x z), Exy in E.
        by destruct (compare_keys order_indexes x z).
      * by rewrite (compare_keys_trans _ _ _ _ Exy Eyz).
Qed.
End order.

(** ** Partitions *)

(** The rows of a partition, in their order. *)
Definition members (rows : list result_row) (partition_indexes : list nat) (key : list bytes) : list nat :=
  filter (λ i, partition_key partition_indexes <$> rows !! i = Some key) (seq 0 (length rows)).

Lemma members_snoc rows row partition_indexes key :
  members (rows ++ [row]) partition_indexes key
  = members rows partition_indexes key
      ++ (if decide (partition_key partition_indexes row = key) then [length rows] else []).
Proof.
  unfold members. rewrite length_app, seq_app, filter_app. f_equal.
  - apply filter_ext_in. intros i Hi%elem_of_seq. rewrite lookup_app_l by lia. done.
  - simpl. rewrite filter_cons, list_lookup_middle by done. simpl.
    destruct (decide (partition_key partition_indexes row = key)); case_decide; by simplify_eq.
Qed.

Lemma partitioned_row_indexes_spec rows partition_indexes key :
  default [] (partitioned_row_indexes rows partition_indexes !! key) = members rows partition_indexes key ∧
  partitioned_row_indexes rows partition_indexes !! key ≠ Some [].
Proof.
  revert key. induction rows as [|row rows IH] using rev_ind; intros key; [done|].
  unfold partitioned_row_indexes in *. rewrite imap_app, foldl_app. simpl. rewrite Nat.add_0_r, members_snoc.
  set (m := foldl _ ∅ _) in *. destruct (decide (partition_key partition_indexes row = key)) as [<-|Hne].
  - rewrite lookup_insert_eq. simpl. rewrite (proj1 (IH _)). split; [done|]. intros [= E]. by destruct (members _ _ _).
  - rewrite lookup_insert_ne by done. rewrite app_nil_r. apply IH.
Qed.

Lemma elem_of_partitions `{PartitionOrder, !PartitionOrderLaws} rows partition_indexes partition :
  partition ∈ into_values (partitioned_row_indexes rows partition_indexes) →
  ∃ key, partition = members rows partition_indexes key ∧ partition ≠ [].
Proof.
  rewrite into_values_permutation. intros ([key p] & -> & Hin)%list_elem_of_fmap. apply elem_of_map_to_list in Hin.
  exists key. destruct (partitioned_row_indexes_spec rows partition_indexes key) as [Hm Hn].
  rewrite Hin in Hm, Hn. simpl in *. split; [done|congruence].
Qed.

Lemma members_length rows partition_indexes key : (length (members rows partition_indexes key) ≤ length rows)%nat.
Proof. unfold members. etrans; [apply length_filter|]. by rewrite length_seq. Qed.

(** ** Cells *)

Lemma set_cell_shaped n column_index value row_index rows :
  shaped n rows → shaped n (set_cell column_index value row_index rows).
Proof.
  intros Hs. unfold set_cell, shaped. apply Forall_alter; [done|]. intros row Hr Hl. simpl. by rewrite length_insert.
Qed.

Lemma for_positions_shaped n value column_index position row_indexes rows rows' :
  for_positions value column_index position row_indexes rows = Ok rows' → shaped n rows → shaped n rows'.
Proof.
  revert position rows. induction row_indexes as [|i row_indexes IH]; intros position rows; simpl; [by intros [= <-]|].
  destruct (value rows position); [|done]. intros. eapply IH; [done|]. by apply set_cell_shaped.
Qed.

Lemma rank_loop_shaped n order_indexes next text column_index previous position rank row_indexes rows :
  shaped n rows → shaped n (rank_loop order_indexes next text column_index previous position rank row_indexes rows).
Proof.
  revert previous position rank rows. induction row_indexes as [|i row_indexes IH]; intros; simpl; [done|].
  apply IH. by apply set_cell_shaped.
Qed.

Lemma set_cells_shaped n column_index value row_indexes rows :
  shaped n rows → shaped n (foldl (λ rows i, set_cell column_index value i rows) rows row_indexes).
Proof. revert rows. induction row_indexes as [|i row_indexes IH]; intros rows Hs; [done|]. by apply IH, set_cell_shaped. Qed.

Lemma cume_dist_shaped n fuel order_indexes column_index len start row_indexes rows :
  shaped n rows → shaped n (cume_dist_loop fuel order_indexes column_index len start row_indexes rows).
Proof.
  revert start row_indexes rows. induction fuel as [|fuel IH]; intros start row_indexes rows Hs; [done|].
  destruct row_indexes as [|i rest]; [done|]. cbn [cume_dist_loop]. apply IH. by apply set_cells_shaped.
Qed.

Lemma ntile_loop_shaped n len count column_index position row_indexes rows rows' :
  ntile_loop len count column_index position row_indexes rows = Some rows' → shaped n rows → shaped n rows'.
Proof.
  revert position rows. induction row_indexes as [|i row_indexes IH]; intros position rows; simpl; [by intros [= <-]|].
  rewrite bind_Some. intros (b & _ & E) Hs. eapply IH; [done|]. by apply set_cell_shaped.
Qed.

Section functions.
Context `{SortBy} `{!SortByLaws} `{PartitionOrder} `{!PartitionOrderLaws}.

Lemma for_partitions_shaped n apply order_indexes partitions rows rows' :
  (∀ rows partition rows', apply rows partition = Ok rows' → shaped n rows → shaped n rows') →
  for_partitions apply order_indexes partitions rows = Some (Ok rows') → shaped n rows → shaped n rows'.
Proof.
  intros Ha. revert rows. induction partitions as [|p partitions IH]; intros rows; simpl; [by intros [= <-]|].
  rewrite bind_Some. intros (p' & _ & E) Hs. destruct (apply rows p') as [rows1|] eqn:Ea; [|done].
  eapply IH; [done|]. by eapply Ha.
Qed.

Lemma ntile_partitions_shaped n count column_index order_indexes partitions rows rows' :
  ntile_partitions count column_index order_indexes partitions rows = Some (Ok rows') → shaped n rows → shaped n rows'.
Proof.
  revert rows. induction partitions as [|p partitions IH]; intros rows; simpl; [by intros [= <-]|].
  rewrite bind_Some. intros (p' & _ & E) Hs. apply bind_Some in E as (rows1 & E1 & E2).
  eapply IH; [done|]. by eapply ntile_loop_shaped.
Qed.

Lemma aggregate_shaped n {V} (read : list result_row → nat → nat → result V string) value column_index source spec
    partition_indexes order_indexes rows rows' :
  apply_aggregate read value column_index source spec partition_indexes order_indexes rows = Some (Ok rows') →
  shaped n rows → shaped n rows'.
Proof.
  apply for_partitions_shaped. intros r p r'. destruct (map_result _ _); [|done]. apply for_positions_shaped.
Qed.

(** The interface that the queries rely on. *)
Lemma window_functions_keep_shape : keeps_shape apply_window_function.
Proof.
  intros index function columns windows rows rows' n. unfold apply_window_function. intros E. revert E.
  destruct (resolve_window_spec function windows) as [[spec|]|]; [|done..].
  destruct (window_partition_and_order_indexes spec columns) as [[pis ois]|]; [|done].
  unfold apply_sum_window_projection, apply_count_window_projection, apply_avg_window_projection,
    apply_min_max_window_projection, apply_first_last_value_window_projection, apply_nth_value_window_projection,
    apply_ntile_window_projection, apply_lag_lead_window_projection.
  repeat case_match; try done; try apply aggregate_shaped; try apply ntile_partitions_shaped;
    apply for_partitions_shaped; intros r p' r'; try apply for_positions_shaped; intros [= <-];
    [apply rank_loop_shaped..|apply cume_dist_shaped].
Qed.

(** ** No panics *)

Lemma sort_partition_returns rows order_indexes partition :
  ∃ sorted, sort_partition_row_indexes rows order_indexes partition = Some sorted ∧ sorted ≡ₚ partition.
Proof.
  unfold sort_partition_row_indexes. destruct (is_empty order_indexes); [by exists partition|].
  rewrite sort_by_stable by apply compare_rows_by_order_orders. eexists. split; [done|]. apply stable_sort_permutation.
Qed.

Lemma for_partitions_returns apply order_indexes partitions rows :
  is_Some (for_partitions apply order_indexes partitions rows).
Proof.
  revert rows. induction partitions as [|p partitions IH]; intros rows; simpl; [by eexists|].
  destruct (sort_partition_returns rows order_indexes p) as (sorted & -> & _). simpl. destruct (apply rows sorted); [apply IH|by eexists].
Qed.

(** ** NTILE *)

(** The position at which a bucket starts: the first buckets have one row more than the others. *)
Definition bucket_start (partition_len bucket_count bucket : Z) : Z :=
  (bucket - 1) * (partition_len / bucket_count) + Z.min (bucket - 1) (partition_len mod bucket_count).

Lemma bucket_number_spec len count position :
  0 < count → 0 ≤ position < len → len ≤ usize_max →
  ∃ b, bucket_number len count position = Some b ∧ 1 ≤ b ≤ count ∧
       bucket_start len count b ≤ position < bucket_start len count (b + 1).
Proof.
  intros Hc Hp Hl. unfold bucket_number, bucket_start. rewrite (proj2 (Z.eqb_neq count 0)) by lia. cbv zeta.
  pose proof (Z.div_mod len count ltac:(lia)) as Hd. pose proof (Z.mod_pos_bound len count Hc) as Hr.
  assert (0 ≤ len / count) as Hb by (apply Z.div_pos; lia).
  set (base := len / count) in *. set (rest := len mod count) in *. unfold usize_max in Hl.
  assert (base + 1 ≤ u64_max ∨ count = 1) as Hs by (destruct (Z.eq_dec count 1); [by right|left; nia]).
  assert (saturating_mul (saturating_add base 1) rest = (base + 1) * rest) as ->.
  { unfold saturating_mul, saturating_add, usize_max. destruct Hs as [Hs|Hs]; [rewrite (Z.min_l (base + 1)) by lia; nia|].
    assert (rest = 0) as -> by lia. rewrite !Z.mul_0_r. done. }
  destruct (Z.ltb_spec position ((base + 1) * rest)) as [Hlt|Hge].
  - assert (saturating_add base 1 = base + 1) as ->.
    { unfold saturating_add. destruct Hs; [lia|]. assert (rest = 0) by lia. nia. }
    exists (position / (base + 1) + 1). split; [done|].
    pose proof (Z.div_mod position (base + 1) ltac:(lia)). pose proof (Z.mod_pos_bound position (base + 1) ltac:(lia)).
    assert (0 ≤ position / (base + 1)) by (apply Z.div_pos; lia).
    assert (position / (base + 1) < rest) by (apply Z.div_lt_upper_bound; lia).
    set (q := position / (base + 1)) in *. rewrite !Z.add_simpl_r, !Z.min_l by lia. nia.
  - assert (base ≠ 0) as Hne by (intros ->; nia). rewrite (proj2 (Z.eqb_neq base 0)) by done.
    eexists. split; [done|]. set (off := position - (base + 1) * rest) in *.
    pose proof (Z.div_mod off base ltac:(lia)). pose proof (Z.mod_pos_bound off base ltac:(lia)).
    assert (0 ≤ off / base) by (apply Z.div_pos; lia). set (q := off / base) in *.
    assert (rest + q < count) by nia.
    replace (rest + q + 1 + 1 - 1) with (rest + q + 1) by lia. rewrite !Z.add_simpl_r, !Z.min_r by lia. nia.
Qed.

Lemma ntile_loop_returns len count column_index position row_indexes rows :
  0 < count → Z.of_nat (position + length row_indexes) ≤ len → len ≤ usize_max →
  is_Some (ntile_loop len count column_index position row_indexes rows).
Proof.
  intros Hc. revert position rows. induction row_indexes as [|i row_indexes IH]; intros position rows Hp Hl; [by eexists|].
  simpl in *. destruct (bucket_number_spec len count (Z.of_nat position) Hc ltac:(lia) Hl) as (b & -> & _). simpl.
  apply IH; lia.
Qed.

Lemma ntile_partitions_returns count column_index order_indexes partitions rows :
  0 < count → Forall (λ p, Z.of_nat (length p) ≤ usize_max) partitions →
  is_Some (ntile_partitions count column_index order_indexes partitions rows).
Proof.
  intros Hc Hp. revert rows. induction Hp as [|p partitions Hl _ IH]; intros rows; simpl; [by eexists|].
  destruct (sort_partition_returns rows order_indexes p) as (sorted & -> & Hperm). simpl. rewrite <-Hperm in Hl.
  destruct (ntile_loop_returns (Z.of_nat (length sorted)) count column_index 0 sorted rows) as [rows' ->]; [done|lia|done|].
  apply IH.
Qed.

Lemma ntile_count_positive function count : resolve_ntile_bucket_count function = Ok count → 0 < count.
Proof.
  unfold resolve_ntile_bucket_count. destruct (call_args function) as [[|arg [|]]|]; try done.
  destruct arg as [expr|]; [|done]. simpl. destruct expr; try done. simpl.
  destruct (parse_usize text) as [n|] eqn:E; [|done]. apply parse_usize_bounds in E.
  destruct (Z.eqb_spec n 0); [done|]. intros [= <-]. lia.
Qed.

End functions.

(** ** Results of queries *)

Section results.
Context {Subquery : Type} `{FieldValues} `{UuidText} `{RegexEngine} `{SortBy} `{!SortByLaws} `{KeySetOrder}.
Context `{PartitionOrder} `{!PartitionOrderLaws}.
Context (expression : provider → ustr → result (option bytes) string).
Context (evaluate_function : WindowCall → provider → result (option bytes) string).
Context (sql_function_references_column function_is_count_star : WindowCall → bool).
Context (table_schema : ustr → option TableSchema).

(** C29: The results of queries are well-formed, over one table, over joined tables and without a table, also when they have
    window functions: each row has one value for each column, the columns are numbered from 1, and none of the columns that
    were added for sorting remains. *)
Theorem results_well_formed source schema access explained (read_plan : SelectReadPlan Subquery WindowCall NamedWindowDefinition)
    row_matches_relation row_matches_joined bound r :
  plan_is_explain read_plan = false →
  (execute_relation_select_plan_with_row_bound expression apply_window_function evaluate_function
     sql_function_references_column function_is_count_star source schema explained read_plan row_matches_relation bound
   = Some (Ok r) ∨
   execute_joined_select_plan_with_row_bound expression apply_window_function evaluate_function
     sql_function_references_column function_is_count_star table_schema access explained read_plan row_matches_relation
     row_matches_joined bound = Some (Ok r) ∨
   execute_projection_only_select_plan expression apply_window_function evaluate_function sql_function_references_column
     read_plan = Some (Ok r)) →
  well_formed_result r.
Proof.
  pose proof window_functions_keep_shape as Hk.
  intros He [Hr|[Hr|Hr]];
    [by eapply relation_well_formed|by eapply joined_well_formed|by eapply projection_only_well_formed].
Qed.
End results.

(** ** Frames *)

(** A frame behind the last row is not empty.  For ROWS BETWEEN a FOLLOWING AND b FOLLOWING a row with fewer than a rows
    behind it has an empty frame; the code moves both ends of such a frame to the last row, which is then counted, and
    likewise to the first row for frames before it. *)
Theorem following_frame_keeps_last_row rows partition order_indexes (a b : Z) ta tb row_position :
  parse_usize ta = Some a → parse_usize tb = Some b → 0 < a ≤ b →
  (row_position < length partition)%nat → Z.of_nat (length partition) ≤ usize_max →
  Z.of_nat (length partition) ≤ Z.of_nat row_position + a →
  let frame := mkWindowFrame Rows (Following (Some (Number ta))) (Some (Following (Some (Number tb)))) in
  let last_position := (length partition - 1)%nat in
  window_frame_bounds_for_partition rows partition order_indexes (Some frame) row_position
  = Ok (Some (last_position, last_position)).
Proof.
  intros Ha Hb Hab Hp Hl Hout. unfold usize_max in Hl. cbv zeta. unfold window_frame_bounds_for_partition.
  assert (∀ t n, parse_usize t = Some n → a ≤ n →
    window_frame_bound_index (Following (Some (Number t))) row_position (length partition) = Ok (length partition - 1)%nat) as Hend.
  { intros t n Ht Hn. simpl. rewrite Ht. f_equal. unfold saturating_add. lia. }
  destruct partition as [|x partition]; [simpl in Hp; lia|]. cbn [is_empty units start_bound end_bound].
  change (default CurrentRow (Some ?x)) with x. rewrite (Hend ta a), (Hend tb b) by (done || lia). by rewrite Nat.ltb_irrefl.
Qed.

(** The buckets of NTILE are even.  Every position of a partition gets a bucket between 1 and the number of buckets; the
    buckets are consecutive, and the first ones have one row more than the others when the rows cannot be divided evenly. *)
Theorem ntile_buckets_even partition_len bucket_count row_position :
  0 < bucket_count → 0 ≤ row_position < partition_len → partition_len ≤ usize_max →
  ∃ b, bucket_number partition_len bucket_count row_position = Some b ∧ 1 ≤ b ≤ bucket_count ∧
       bucket_start partition_len bucket_count b ≤ row_position < bucket_start partition_len bucket_count (b + 1).
Proof. apply bucket_number_spec. Qed.
