(* ===== verification/RankFacts.v ===== *)
(** * What ranks count

    ROW_NUMBER and RANK of [Windows.v] against their definition: a row's number is one more than the number of rows of its
    partition that come before it, and its rank one more than the number of those with a smaller key. *)

From Stdlib Require Import ZArith Lia Strings.Byte Sorting.Sorted.
From stdpp Require Import base gmap list strings sorting.
From S2P Require Import Prelude Settings Text Float64 Schema RowCodec FieldValue Predicates Conditions Joins SelectPlan SelectExec.
From S2P Require Import SelectFacts SortFacts Windows IndexKey WindowFacts.

(** ** Counting *)

Definition count {A} (P : A → Prop) `{∀ x, Decision (P x)} (l : list A) : nat := length (filter P l).

Lemma count_permutation {A} (P : A → Prop) `{∀ x, Decision (P x)} l l' : l ≡ₚ l' → count P l = count P l'.
Proof. intros Hp. unfold count. by rewrite Hp. Qed.

Lemma count_app {A} (P : A → Prop) `{∀ x, Decision (P x)} l l' : count P (l ++ l') = (count P l + count P l')%nat.
Proof. unfold count. by rewrite filter_app, length_app. Qed.

Lemma count_all {A} (P : A → Prop) `{∀ x, Decision (P x)} l : Forall P l → count P l = length l.
Proof. intros Hl. unfold count. by rewrite filter_all. Qed.

Lemma count_none {A} (P : A → Prop) `{∀ x, Decision (P x)} l : Forall (λ x, ¬ P x) l → count P l = O.
Proof. intros Hl. unfold count. by rewrite filter_none. Qed.

Lemma count_ext {A} (P Q : A → Prop) `{∀ x, Decision (P x)} `{∀ x, Decision (Q x)} l :
  (∀ x, x ∈ l → P x ↔ Q x) → count P l = count Q l.
Proof.
  intros Hpq. unfold count. f_equal. induction l as [|x l IH]; [done|]. rewrite !filter_cons, IH by set_solver.
  pose proof (Hpq x ltac:(set_solver)). do 2 case_decide; tauto.
Qed.

Section cells.
Context `{SortBy} `{!SortByLaws} `{PartitionOrder} `{!PartitionOrderLaws}.
Context (R : list result_row) (column_index : nat) (order_indexes : list (nat * bool)).

(** The order columns have the values that they had. *)
Definition agrees (rows : list result_row) : Prop :=
  ∀ x index, index ∈ order_indexes.*1 → row_value rows x index = row_value R x index.

Lemma agrees_compare rows : agrees rows →
  ∀ x y, compare_rows_by_order rows order_indexes x y = compare_rows_by_order R order_indexes x y.
Proof.
  unfold agrees. intros Ha x y. induction order_indexes as [|[index d] ois IH]; [done|]. simpl.
  rewrite !(Ha _ index) by set_solver. rewrite IH; [done|]. intros z ix Hix. apply Ha. set_solver.
Qed.

Lemma agrees_peers rows : agrees rows →
  ∀ x y, rows_are_window_peers rows order_indexes x y = rows_are_window_peers R order_indexes x y.
Proof.
  unfold agrees. intros Ha x y. induction order_indexes as [|[index d] ois IH]; [done|]. simpl.
  rewrite !(Ha _ index) by set_solver. rewrite IH; [done|]. intros z ix Hix. apply Ha. set_solver.
Qed.

Lemma set_cell_lookup value i rows j :
  set_cell column_index value i rows !! j
  = if decide (i = j) then (λ row : result_row, <[column_index := value]> row) <$> rows !! j else rows !! j.
Proof.
  unfold set_cell. destruct (decide (i = j)) as [->|]; [by rewrite list_lookup_alter_eq|by rewrite list_lookup_alter_ne].
Qed.

Lemma set_cell_agrees value i rows : column_index ∉ order_indexes.*1 → agrees rows → agrees (set_cell column_index value i rows).
Proof.
  intros Hc Ha x index Hi. rewrite <-(Ha x index Hi). unfold row_value. rewrite set_cell_lookup.
  destruct (decide (i = x)); [|done]. destruct (rows !! x) as [row|]; [|done]. simpl.
  rewrite list_lookup_insert_ne; [done|]. by intros ->.
Qed.

(** The cells of some rows are written, and nothing else. *)
Definition written (cell : nat → bytes) (s : list nat) (rows out : list result_row) : Prop :=
  ∀ i, out !! i = if decide (i ∈ s) then (λ row : result_row, <[column_index := cell i]> row) <$> rows !! i else rows !! i.

Lemma written_cons cell i s rows out :
  i ∉ s → written cell s (set_cell column_index (cell i) i rows) out → written cell (i :: s) rows out.
Proof.
  intros Hi Hw j. rewrite (Hw j), set_cell_lookup. destruct (decide (j ∈ s)) as [Hj|Hj].
  - rewrite decide_False by set_solver. by rewrite decide_True by set_solver.
  - destruct (decide (i = j)) as [->|]; [by rewrite decide_True by set_solver|by rewrite decide_False by set_solver].
Qed.

Abbreviation smaller x y := (compare_keys R order_indexes x y = Lt).
Abbreviation before x y := (compare_rows_by_order R order_indexes x y = Lt).
Abbreviation key_sorted := (StronglySorted (λ x y, compare_keys R order_indexes x y ≠ Gt)).
Abbreviation sorted := (StronglySorted (λ x y, compare_rows_by_order R order_indexes x y ≠ Gt)).

Lemma sorted_key_sorted s : sorted s → key_sorted s.
Proof.
  induction 1 as [|x s _ IH Hx]; constructor; [done|]. eapply Forall_impl; [exact Hx|]. intros y Hy Hk. apply Hy.
  by rewrite compare_rows_by_keys, Hk.
Qed.

Lemma StronglySorted_weaken {A} (P Q : A → A → Prop) l :
  (∀ x y, P x y → Q x y) → StronglySorted P l → StronglySorted Q l.
Proof. intros Hpq. induction 1 as [|x l _ IH Hx]; constructor; [done|]. eapply Forall_impl; [exact Hx|]. auto. Qed.

Lemma StronglySorted_app_inv {A} (le : A → A → Prop) l l' x y :
  StronglySorted le (l ++ l') → x ∈ l → y ∈ l' → le x y.
Proof.
  induction l as [|z l IH]; simpl; [set_solver|]. inversion 1 as [|? ? Hs Hz]; subst.
  intros [->|Hx]%elem_of_cons Hy; [|by apply IH]. rewrite Forall_forall in Hz. apply Hz. set_solver.
Qed.

(** The rank of the row that follows a part of the partition. *)
Lemma rank_step pre p i rest :
  key_sorted (pre ++ [p] ++ i :: rest) →
  (if rows_are_window_peers R order_indexes p i then S (count (λ j, smaller j p) (pre ++ [p])) else S (length (pre ++ [p])))
  = S (count (λ j, smaller j i) (pre ++ [p])).
Proof.
  rewrite app_assoc. intros Hs. destruct (rows_are_window_peers R order_indexes p i) eqn:E; f_equal.
  - apply compare_keys_eq in E. apply count_ext. intros j _.
    rewrite (compare_keys_antisym R order_indexes p j), (compare_keys_antisym R order_indexes i j).
    by rewrite (compare_keys_eq_l R _ _ _ j E).
  - symmetry. apply count_all, Forall_forall. intros j Hj.
    assert (smaller p i) as Hpi.
    { pose proof (StronglySorted_app_inv _ _ _ p i Hs ltac:(set_solver) ltac:(set_solver)) as Hle. simpl in Hle.
      destruct (compare_keys R order_indexes p i) eqn:Ek; [|done..]. apply compare_keys_eq in Ek. congruence. }
    apply elem_of_app in Hj as [Hj|[= ->]%list_elem_of_singleton]; [|done].
    rewrite <-app_assoc in Hs. pose proof (StronglySorted_app_inv _ _ _ j p Hs Hj ltac:(set_solver)) as Hle. simpl in Hle.
    destruct (compare_keys R order_indexes j p) eqn:Ek; [|by eapply compare_keys_trans|done].
    by rewrite (compare_keys_eq_l R _ _ _ i Ek).
Qed.

(** Rows behind a row are not smaller. *)
Lemma count_prefix pre i rest :
  key_sorted (pre ++ i :: rest) → count (λ j, smaller j i) (pre ++ i :: rest) = count (λ j, smaller j i) pre.
Proof.
  intros Hs. rewrite count_app, (count_none _ (i :: rest)); [lia|]. apply Forall_forall. intros j [->|Hj]%elem_of_cons Hlt.
  - pose proof (proj2 (compare_keys_eq R order_indexes i i)) as Hr. rewrite Hr in Hlt; [done|].
    unfold rows_are_window_peers. apply forallb_forall. intros [ix d] _. by apply bool_decide_eq_true.
  - change (i :: rest) with ([i] ++ rest) in Hs. rewrite app_assoc in Hs.
    pose proof (StronglySorted_app_inv _ _ _ i j Hs ltac:(set_solver) Hj) as Hle. simpl in Hle.
    rewrite (compare_keys_antisym R order_indexes j i), Hlt in Hle. done.
Qed.

Lemma rank_loop_written text s pre rank rows :
  column_index ∉ order_indexes.*1 → agrees rows → key_sorted (pre ++ s) → NoDup s →
  (match last pre with Some p => rank = S (count (λ j, smaller j p) pre) | None => rank = 1%nat end) →
  let out := rank_loop order_indexes (λ position _, S position) text column_index (last pre) (length pre) rank s rows in
  agrees out ∧ written (λ i, text (S (count (λ j, smaller j i) (pre ++ s)))) s rows out.
Proof.
  intros Hc. revert pre rank rows. induction s as [|i s IH]; intros pre rank rows Ha Hs Hn Hr; simpl.
  { split; [done|]. intros j. by rewrite decide_False by set_solver. }
  apply NoDup_cons in Hn as [Hi Hn].
  set (rank' := match last pre with Some p => if rows_are_window_peers rows order_indexes p i then rank else S (length pre) | None => rank end).
  assert (rank' = S (count (λ j, smaller j i) (pre ++ i :: s))) as Hrank.
  { rewrite count_prefix by done. subst rank'. destruct (last pre) as [p|] eqn:El.
    - apply last_Some in El as [pre' ->]. rewrite (agrees_peers _ Ha), Hr. rewrite <-app_assoc in Hs. by eapply rank_step.
    - apply last_None in El as ->. by rewrite Hr. }
  rewrite Hrank. destruct (IH (pre ++ [i]) (S (count (λ j, smaller j i) (pre ++ i :: s)))
    (set_cell column_index (text (S (count (λ j, smaller j i) (pre ++ i :: s)))) i rows)) as [Ha' Hw].
  - by apply set_cell_agrees.
  - by rewrite <-app_assoc.
  - done.
  - rewrite last_snoc, count_prefix by done. f_equal. rewrite <-(count_prefix pre i []); [done|].
    revert Hs. clear. induction pre as [|x pre IHp]; simpl; [by repeat constructor|].
    inversion 1 as [|? ? Hs' Hx]; subst. constructor; [by apply IHp|]. rewrite Forall_app in Hx |- *. destruct Hx as [? Hx].
    split; [done|]. by inversion Hx; repeat constructor.
  - rewrite last_snoc, length_app, Nat.add_1_r, <-app_assoc in *. split; [done|]. by apply written_cons.
Qed.

Lemma before_or_same x y : compare_rows_by_order R order_indexes x y = Eq → x = y.
Proof.
  rewrite compare_rows_by_keys. destruct (compare_keys _ _ _ _); try done. by intros ?%Nat.compare_eq.
Qed.

Lemma count_before pre i rest :
  sorted (pre ++ i :: rest) → NoDup (pre ++ i :: rest) → count (λ j, before j i) (pre ++ i :: rest) = length pre.
Proof.
  intros Hs (Hn & Hd & _)%NoDup_app. rewrite count_app, count_all, count_none; [lia| |].
  - apply Forall_forall. intros j [->|Hj]%elem_of_cons Hlt.
    { destruct (compare_rows_by_order_orders R order_indexes [i]) as [Ho _]. pose proof (Ho i i) as Hii.
      rewrite Hlt in Hii. by specialize (Hii ltac:(set_solver) ltac:(set_solver)). }
    change (i :: rest) with ([i] ++ rest) in Hs. rewrite app_assoc in Hs.
    pose proof (StronglySorted_app_inv _ _ _ i j Hs ltac:(set_solver) Hj) as Hle. simpl in Hle.
    destruct (compare_rows_by_order_orders R order_indexes [i; j]) as [Ho _].
    rewrite (Ho j i), Hlt in Hle by set_solver. done.
  - apply Forall_forall. intros j Hj.
    pose proof (StronglySorted_app_inv _ _ _ j i Hs Hj ltac:(set_solver)) as Hle. simpl in Hle.
    destruct (compare_rows_by_order R order_indexes j i) eqn:E; [|done..].
    apply before_or_same in E as ->. destruct (Hd i Hj). set_solver.
Qed.

Lemma row_number_written s pre rows :
  column_index ∉ order_indexes.*1 → agrees rows → sorted (pre ++ s) → NoDup (pre ++ s) →
  ∃ out, for_positions (λ _ position, Ok (position_text (S position))) column_index (length pre) s rows = Ok out ∧ agrees out ∧
         written (λ i, position_text (S (count (λ j, before j i) (pre ++ s)))) s rows out.
Proof.
  intros Hc. revert pre rows. induction s as [|i s IH]; intros pre rows Ha Hs Hn; simpl.
  { exists rows. split; [done|]. split; [done|]. intros j. by rewrite decide_False by set_solver. }
  destruct (IH (pre ++ [i]) (set_cell column_index (position_text (S (length pre))) i rows)) as (out & Ho & Ha' & Hw).
  - by apply set_cell_agrees.
  - by rewrite <-app_assoc.
  - by rewrite <-app_assoc.
  - rewrite length_app, Nat.add_1_r, <-app_assoc in *. exists out. split; [exact Ho|]. split; [done|].
    apply written_cons; [by apply NoDup_app in Hn as (_ & _ & [? _]%NoDup_cons)|]. by rewrite (count_before pre i s).
Qed.

(** ** All partitions *)

Context (partition_indexes : list nat).

Abbreviation partition_of key := (members R partition_indexes key).

Lemma members_sorted key : StronglySorted lt (partition_of key).
Proof.
  unfold members. generalize 0%nat as start. induction (length R) as [|n IH]; intros start; simpl; [constructor|].
  rewrite filter_cons. case_decide; [|apply IH]. constructor; [apply IH|].
  apply Forall_forall. intros j [_ Hj%elem_of_seq]%list_elem_of_filter. lia.
Qed.

Lemma members_nodup key : NoDup (partition_of key).
Proof. apply NoDup_filter, NoDup_seq. Qed.

Lemma sort_partition_sorted rows key :
  agrees rows →
  ∃ s, sort_partition_row_indexes rows order_indexes (partition_of key) = Some s ∧ s ≡ₚ partition_of key ∧ sorted s.
Proof.
  intros Ha. unfold sort_partition_row_indexes. destruct (is_empty order_indexes) eqn:Ee.
  - exists (partition_of key). split; [done|]. split; [done|]. eapply StronglySorted_weaken; [|apply members_sorted].
    intros x y Hxy%Nat.compare_lt_iff. replace (compare_rows_by_order R order_indexes x y) with (Nat.compare x y); [by rewrite Hxy|].
    by destruct order_indexes.
  - rewrite sort_by_stable by apply compare_rows_by_order_orders.
    eexists. split; [done|]. split; [apply stable_sort_permutation|].
    eapply StronglySorted_weaken; [|apply stable_sort_sorted, compare_rows_by_order_orders].
    intros x y. cbv beta. by rewrite (agrees_compare _ Ha).
Qed.

(** A function that writes a cell of each row of a sorted partition. *)
Definition writes_partition (apply : list result_row → list nat → result (list result_row) string)
    (cell : list nat → nat → bytes) : Prop := ∀ rows s,
  agrees rows → sorted s → NoDup s → ∃ out, apply rows s = Ok out ∧ agrees out ∧ written (cell s) s rows out.

Lemma elem_of_partition_of i key : i ∈ partition_of key ↔ partition_key partition_indexes <$> R !! i = Some key.
Proof.
  unfold members. rewrite list_elem_of_filter, elem_of_seq. split; [by intros []|]. intros Hk. split; [done|].
  destruct (R !! i) eqn:E; [|done]. apply lookup_lt_Some in E. lia.
Qed.

Lemma for_partitions_written apply cell keys rows :
  (∀ s s' i, s ≡ₚ s' → cell s i = cell s' i) → writes_partition apply cell → agrees rows → NoDup keys →
  ∃ out, for_partitions apply order_indexes ((λ key, partition_of key) <$> keys) rows = Some (Ok out) ∧
    ∀ i, out !! i = match partition_key partition_indexes <$> R !! i with
                    | Some key =>
                        if decide (key ∈ keys)
                        then (λ row : result_row, <[column_index := cell (partition_of key) i]> row) <$> rows !! i else rows !! i
                    | None => rows !! i
                    end.
Proof.
  intros Hcell Hw. revert rows. induction keys as [|key keys IH]; intros rows Ha Hn; csimpl.
  { exists rows. split; [done|]. intros i. by destruct (_ <$> R !! i). }
  apply NoDup_cons in Hn as [Hk Hn]. destruct (sort_partition_sorted rows key Ha) as (s & -> & Hp & Hs). simpl.
  assert (NoDup s) as Hns by (rewrite Hp; apply members_nodup).
  destruct (Hw rows s Ha Hs Hns) as (rows1 & -> & Ha1 & Hw1). destruct (IH rows1 Ha1 Hn) as (out & Ho & Hout).
  exists out. split; [done|]. intros i. rewrite (Hout i), (Hw1 i).
  destruct (partition_key partition_indexes <$> R !! i) as [k|] eqn:Ek.
  - assert (i ∈ s ↔ k = key) as His by (rewrite Hp, elem_of_partition_of, Ek; naive_solver).
    destruct (decide (k = key)) as [->|Hne].
    + rewrite decide_False by done. rewrite decide_True by by apply His. rewrite decide_True by set_solver.
      by rewrite (Hcell _ _ i Hp).
    + rewrite (decide_False (P := i ∈ s)) by tauto.
      destruct (decide (k ∈ keys)); [by rewrite decide_True by set_solver|by rewrite decide_False by set_solver].
  - rewrite decide_False; [done|]. rewrite Hp, elem_of_partition_of, Ek. done.
Qed.

Lemma into_values_keys :
  ∃ keys, into_values (partitioned_row_indexes R partition_indexes) = (λ key, partition_of key) <$> keys ∧ NoDup keys ∧
    ∀ key, key ∈ keys ↔ partition_of key ≠ [].
Proof.
  set (m := partitioned_row_indexes R partition_indexes). set (ks := (map_to_list m).*1).
  assert ((map_to_list m).*2 = (λ key, partition_of key) <$> ks) as E.
  { subst ks. rewrite <-list_fmap_compose. apply list_fmap_ext. intros i [k p] Hi. simpl.
    apply list_elem_of_lookup_2, elem_of_map_to_list in Hi.
    destruct (partitioned_row_indexes_spec R partition_indexes k) as [Hm _]. fold m in Hm. by rewrite Hi in Hm. }
  pose proof (into_values_permutation m) as Hp. rewrite E in Hp. apply Permutation_map_inv in Hp as (keys & Hkeys & Hperm).
  exists keys. split; [exact Hkeys|]. split; [rewrite <-Hperm; apply NoDup_fst_map_to_list|]. intros key. rewrite <-Hperm.
  destruct (partitioned_row_indexes_spec R partition_indexes key) as [Hm Hn]. fold m in Hm, Hn. rewrite <-Hm. subst ks.
  rewrite list_elem_of_fmap. split.
  - intros ([k p] & -> & Hin%elem_of_map_to_list). simpl in *. rewrite Hin in *. simpl. congruence.
  - destruct (m !! key) as [p|] eqn:Ep; [|done]. intros _. exists (key, p). by rewrite elem_of_map_to_list.
Qed.

Lemma each_partition_written apply cell :
  (∀ s s' i, s ≡ₚ s' → cell s i = cell s' i) → writes_partition apply cell →
  ∃ out, each_partition apply partition_indexes order_indexes R = Some (Ok out) ∧
    ∀ i row, R !! i = Some row →
      out !! i = Some (<[column_index := cell (partition_of (partition_key partition_indexes row)) i]> row).
Proof.
  intros Hcell Hw. destruct into_values_keys as (keys & Ek & Hn & Hkeys). unfold each_partition. rewrite Ek.
  destruct (for_partitions_written apply cell keys R Hcell Hw ltac:(by intros x ix) Hn) as (out & -> & Hout).
  exists out. split; [done|]. intros i row Hi. rewrite Hout, Hi. simpl. rewrite decide_True; [done|].
  apply Hkeys. assert (i ∈ partition_of (partition_key partition_indexes row)) as Hin.
  { apply elem_of_partition_of. by rewrite Hi. }
  intros E. rewrite E in Hin. set_solver.
Qed.

Lemma rank_written :
  column_index ∉ order_indexes.*1 →
  ∃ out, apply_rank_window_projection column_index partition_indexes order_indexes R = Some (Ok out) ∧
    ∀ i row, R !! i = Some row →
      out !! i = Some (<[column_index := position_text (S (count (λ j, smaller j i)
                          (partition_of (partition_key partition_indexes row))))]> row).
Proof.
  intros Hc. apply (each_partition_written _ (λ s i, position_text (S (count (λ j, smaller j i) s)))).
  - intros s s' i Hp. by rewrite (count_permutation _ _ _ Hp).
  - intros rows s Ha Hs Hn. eexists. split; [done|].
    apply (rank_loop_written position_text s [] 1 rows Hc Ha); [by apply sorted_key_sorted|done..].
Qed.

Lemma row_number_written_all :
  column_index ∉ order_indexes.*1 →
  ∃ out, apply_row_number_window_projection column_index partition_indexes order_indexes R = Some (Ok out) ∧
    ∀ i row, R !! i = Some row →
      out !! i = Some (<[column_index := position_text (S (count (λ j, before j i)
                          (partition_of (partition_key partition_indexes row))))]> row).
Proof.
  intros Hc. apply (each_partition_written _ (λ s i, position_text (S (count (λ j, before j i) s)))).
  - intros s s' i Hp. by rewrite (count_permutation _ _ _ Hp).
  - intros rows s Ha Hs Hn. by apply (row_number_written s [] rows).
Qed.

End cells.
