(* ===== verification/RuntimeIndexFacts.v ===== *)
(** * Correctness of runtime indexes

    The abstract index is a map from encoded keys to sets of row references.  [RuntimeIndexState]
    implements it: every operation preserves the invariant [state_wf], never panics, and is the map
    operation [spec_insert] or [spec_remove] on the abstraction [index_map]; the queries read that map. *)

From Stdlib Require Import ZArith Lia Strings.Byte Sorting.Sorted.
From stdpp Require Import base list gmap sorting.
From S2P Require Import Prelude Record Wal Identifiers Text Schema RowCodec FieldValue.
From S2P Require Import Postings IndexKey DatabaseIndex RuntimeIndex.

Local Open Scope Z_scope.

(** ** The abstract index *)

Definition spec_insert {K} `{Countable K} (uniq : bool) (k : K) (row_ref : option Z) (m : gmap K (gset Z)) : gmap K (gset Z) :=
  let refs : gset Z := match row_ref with Some r => {[r]} | None => ∅ end in
  if uniq then <[k := refs]> m else <[k := refs ∪ default ∅ (m !! k)]> m.

Definition spec_remove {K} `{Countable K} (uniq : bool) (k : K) (row_ref : option Z) (m : gmap K (gset Z)) : gmap K (gset Z) :=
  if uniq then delete k m
  else
    match m !! k with
    | None => m
    | Some X =>
        let rest : gset Z := match row_ref with Some r => X ∖ {[r]} | None => ∅ end in
        if decide (rest = ∅) then delete k m else <[k := rest]> m
    end.

(** The number of references of a key that has some. *)
Definition counted (X : gset Z) : option Z := if decide (X = ∅) then None else Some (Z.of_nat (size X)).

(** ** Invariant and abstraction *)

(** The packed references behind an entry. *)
Definition entry_refs (s : RuntimeIndexState) (k : bytes) (entry : option Z) : list Z :=
  match entry with
  | Some r => [r]
  | None => from_option posting_iter [] (non_unique_row_refs s !! k)
  end.

Definition index_map (s : RuntimeIndexState) : gmap bytes (gset Z) :=
  map_imap (λ k entry, Some (list_to_set (unpacked (entry_refs s k entry)))) (entries s).

Record state_wf (s : RuntimeIndexState) : Prop := {
  wf_entries k r : entries s !! k = Some (Some r) → ref_ok r;
  wf_postings k p : non_unique_row_refs s !! k = Some p →
    entries s !! k = Some None ∧ posting_wf p ∧ posting_iter p ≠ [] ∧ unique_or_unset s = false;
  wf_ordered ks : ordered_entry_keys s = Some ks → dom (entries s) ⊆ ks
}.

Definition same_config (s s' : RuntimeIndexState) : Prop :=
  index s' = index s ∧ numeric_kind s' = numeric_kind s ∧ string_case_insensitive s' = string_case_insensitive s.

Lemma index_map_lookup s k :
  index_map s !! k = (λ entry, list_to_set (unpacked (entry_refs s k entry))) <$> entries s !! k.
Proof. unfold index_map. rewrite map_lookup_imap. by destruct (entries s !! k). Qed.

(** What one key holds is consistent. *)
Definition key_wf (s : RuntimeIndexState) (entry : option (option Z)) (postings : option PostingPages) : Prop :=
  (∀ r, entry = Some (Some r) → ref_ok r) ∧
  (∀ p, postings = Some p → entry = Some None ∧ posting_wf p ∧ posting_iter p ≠ [] ∧ unique_or_unset s = false).

(** Maps that differ at one key only. *)
Lemma update_key s k es ps ks :
  state_wf s → key_wf s (es !! k) (ps !! k) →
  (∀ k', k' ≠ k → es !! k' = entries s !! k' ∧ ps !! k' = non_unique_row_refs s !! k') →
  (∀ ks', ks = Some ks' → dom es ⊆ ks') →
  state_wf (set_maps es ps ks s) ∧
  index_map (set_maps es ps ks s) =
    partial_alter (λ _, (λ entry, list_to_set (unpacked (entry_refs (set_maps es ps ks s) k entry))) <$> es !! k) k (index_map s).
Proof.
  intros [Hen Hpo Hor] [Hk1 Hk2] Hother Hks. split.
  - split; cbn [entries non_unique_row_refs ordered_entry_keys set_maps].
    + intros k' r. destruct (decide (k' = k)) as [-> |Hne]; [apply Hk1|]. rewrite (proj1 (Hother k' Hne)). apply Hen.
    + intros k' p. destruct (decide (k' = k)) as [-> |Hne]; [apply Hk2|].
      destruct (Hother k' Hne) as [-> ->]. apply Hpo.
    + exact Hks.
  - apply map_eq. intros k'. rewrite index_map_lookup. destruct (decide (k' = k)) as [-> |Hne].
    + by rewrite lookup_partial_alter_eq.
    + rewrite lookup_partial_alter_ne by done. rewrite index_map_lookup. cbn [entries set_maps]. unfold entry_refs.
      cbn [non_unique_row_refs set_maps]. by destruct (Hother k' Hne) as [-> ->].
Qed.

(** References that fit a [NonZeroU64] after packing. *)
Definition valid_ref (row_ref : option Z) : Prop := ∀ r, row_ref = Some r → 0 ≤ r < u64_max.

Lemma pack_valid row_ref : valid_ref row_ref → row_ref ≫= pack_row_ref = (λ r, r + 1) <$> row_ref.
Proof.
  intros Hv. destruct row_ref as [r|]; [|done]. specialize (Hv r eq_refl). simpl. unfold pack_row_ref.
  by rewrite (proj2 (Z.ltb_lt _ _)) by lia.
Qed.

Lemma ref_ok_succ r : 0 ≤ r < u64_max → ref_ok (r + 1).
Proof. unfold ref_ok. lia. Qed.

Lemma elem_of_unpacked x l : x ∈ unpacked l ↔ x + 1 ∈ l.
Proof.
  unfold unpacked. rewrite list_elem_of_fmap. split; [intros (y & -> & Hy)|intros Hx].
  - by replace (y - 1 + 1) with y by lia.
  - exists (x + 1). split; [lia|done].
Qed.

Lemma ordered_insert (es : gmap bytes (option Z)) k v oks :
  (∀ ks, oks = Some ks → dom es ⊆ ks) → ∀ ks, insert_ordered k oks = Some ks → dom (<[k := v]> es) ⊆ ks.
Proof.
  intros Hs ks. unfold insert_ordered. destruct oks as [ks0|]; [|done]. intros [= <-]. specialize (Hs ks0 eq_refl).
  rewrite dom_insert_L. set_solver.
Qed.

Lemma ordered_remove (es : gmap bytes (option Z)) k oks :
  (∀ ks, oks = Some ks → dom es ⊆ ks) → ∀ ks, remove_ordered k oks = Some ks → dom (delete k es) ⊆ ks.
Proof.
  intros Hs ks. unfold remove_ordered. destruct oks as [ks0|]; [|done]. intros [= <-]. specialize (Hs ks0 eq_refl).
  rewrite dom_delete_L. set_solver.
Qed.

Lemma ordered_keep (es : gmap bytes (option Z)) (k : bytes) (v w : option Z) (oks : option (gset bytes)) :
  es !! k = Some w → (∀ ks, oks = Some ks → dom es ⊆ ks) → ∀ ks, oks = Some ks → dom (<[k := v]> es) ⊆ ks.
Proof.
  intros Hk Hs ks Hks. specialize (Hs ks Hks). rewrite dom_insert_L. apply elem_of_dom_2 in Hk. set_solver.
Qed.

(** ** Insertion and removal *)

Lemma if_same {A} (b : bool) (x : A) : (if b then x else x) = x.
Proof. by destruct b. Qed.

Lemma sorted_lt_nodup l : StronglySorted Z.lt l → NoDup l.
Proof.
  induction 1 as [|x l Hs IH Hx]; constructor; [|done]. intros Hin. rewrite Forall_forall in Hx. specialize (Hx x Hin). lia.
Qed.

Section operations.
Context {value_list_bincode : Bincode (list bytes)} `{UuidText} `{BinarySearchLaws}.

(** The outcome of an operation on one key. *)
Definition refines (s : RuntimeIndexState) (m : gmap bytes (gset Z)) (s' : RuntimeIndexState) : Prop :=
  state_wf s' ∧ same_config s s' ∧ index_map s' = m.

(** [update_key] as a step from [s] that sets a key of the abstract map. *)
Lemma update_insert s k es ps ks entry X :
  state_wf s → es !! k = Some entry → key_wf s (Some entry) (ps !! k) →
  (∀ k', k' ≠ k → es !! k' = entries s !! k' ∧ ps !! k' = non_unique_row_refs s !! k') →
  (∀ ks', ks = Some ks' → dom es ⊆ ks') →
  (∀ x, x ∈ X ↔ x + 1 ∈ match entry with Some r => [r] | None => from_option posting_iter [] (ps !! k) end) →
  refines s (<[k := X]> (index_map s)) (set_maps es ps ks s).
Proof.
  intros Hwf He Hk Ho Hks HX. destruct (update_key s k es ps ks) as [Hwf' Hm]; [done|by rewrite He|done..|].
  split_and!; [done|done|]. rewrite Hm, He. apply map_eq. intros k'. destruct (decide (k' = k)) as [-> |Hne].
  - rewrite lookup_insert_eq, lookup_partial_alter_eq. simpl. f_equal. apply set_eq. intros x.
    by rewrite elem_of_list_to_set, elem_of_unpacked, HX.
  - by rewrite lookup_insert_ne, lookup_partial_alter_ne.
Qed.

(** And one that removes a key. *)
Lemma update_delete s k ps ks :
  state_wf s → ps !! k = None → (∀ k', k' ≠ k → ps !! k' = non_unique_row_refs s !! k') →
  (∀ ks', ks = Some ks' → dom (delete k (entries s)) ⊆ ks') →
  refines s (delete k (index_map s)) (set_maps (delete k (entries s)) ps ks s).
Proof.
  intros Hwf Hp Ho Hks. destruct (update_key s k (delete k (entries s)) ps ks) as [Hwf' Hm]; [done| | |done|].
  - by rewrite lookup_delete_eq, Hp.
  - intros k' Hne. rewrite lookup_delete_ne by done. auto.
  - split_and!; [done|done|]. rewrite Hm, lookup_delete_eq. done.
Qed.

(** A step that changes nothing at the abstract level. *)
Lemma index_refines_same s m : state_wf s → index_map s = m → refines s m s.
Proof. intros Hwf Hm. by split_and!. Qed.

Lemma no_postings s k r : state_wf s → entries s !! k = Some (Some r) → non_unique_row_refs s !! k = None.
Proof.
  intros Hwf Hk. destruct (non_unique_row_refs s !! k) as [p|] eqn:E; [|done].
  apply (wf_postings s Hwf) in E as [E _]. congruence.
Qed.

Lemma no_postings_absent s k : state_wf s → entries s !! k = None → non_unique_row_refs s !! k = None.
Proof.
  intros Hwf Hk. destruct (non_unique_row_refs s !! k) as [p|] eqn:E; [|done].
  apply (wf_postings s Hwf) in E as [E _]. congruence.
Qed.

Lemma no_postings_unique s k : state_wf s → unique_or_unset s = true → non_unique_row_refs s !! k = None.
Proof.
  intros Hwf Hu. destruct (non_unique_row_refs s !! k) as [p|] eqn:E; [|done].
  apply (wf_postings s Hwf) in E as (_ & _ & _ & E). congruence.
Qed.

Lemma insert_unique_refines s k row_ref : state_wf s → valid_ref row_ref → unique_or_unset s = true →
  refines s (spec_insert true k row_ref (index_map s))
    (set_maps (<[k := row_ref ≫= pack_row_ref]> (entries s)) (non_unique_row_refs s) (insert_ordered k (ordered_entry_keys s)) s).
Proof.
  intros Hwf Hv Hu. rewrite pack_valid by done. pose proof (no_postings_unique s k Hwf Hu) as Hp.
  unfold spec_insert. apply (update_insert s k _ _ _ ((λ r, r + 1) <$> row_ref)); [done|apply lookup_insert_eq| | |apply ordered_insert, wf_ordered, Hwf|].
  - rewrite Hp. split; [|done]. intros r. destruct row_ref as [x|]; [|done]. intros [= <-]. apply ref_ok_succ. by apply Hv.
  - intros k' Hne. by rewrite lookup_insert_ne.
  - intros x. rewrite Hp. destruct row_ref as [r|]; simpl; set_solver by lia.
Qed.

Lemma insert_without_ref_refines s k : state_wf s → unique_or_unset s = false →
  refines s (spec_insert false k None (index_map s))
    (set_maps (if entries s !! k is Some _ then entries s else <[k := None]> (entries s)) (non_unique_row_refs s)
       (insert_ordered k (ordered_entry_keys s)) s).
Proof.
  intros Hwf Hu. unfold spec_insert. rewrite (left_id_L ∅ (∪)), index_map_lookup.
  destruct (entries s !! k) as [entry|] eqn:E; cbn [fmap option_fmap option_map from_option Datatypes.id].
  - apply (update_insert s k _ _ _ entry); [done|done| |done| |].
    + split; [intros r [= ->]; by eapply wf_entries|]. intros p Hp. rewrite <-E. by apply (wf_postings s Hwf).
    + intros ks' Hks'. pose proof (ordered_insert (entries s) k entry _ (wf_ordered s Hwf) ks' Hks') as Hd.
      by rewrite insert_id in Hd.
    + intros x. by rewrite elem_of_list_to_set, elem_of_unpacked.
  - pose proof (no_postings_absent s k Hwf E) as Hp.
    apply (update_insert s k _ _ _ None); [done|apply lookup_insert_eq| | |apply ordered_insert, wf_ordered, Hwf|].
    + by rewrite Hp.
    + intros k' Hne. by rewrite lookup_insert_ne.
    + intros x. rewrite Hp. simpl. set_solver.
Qed.

Lemma insert_second_refines s k r existing p : state_wf s → 0 ≤ r < u64_max → unique_or_unset s = false →
  entries s !! k = Some (Some existing) → existing ≠ r + 1 →
  insert_unique_sorted existing PostingPages_default = Some p →
  ∃ p', insert_unique_sorted (r + 1) p = Some p' ∧
  refines s (spec_insert false k (Some r) (index_map s))
    (set_maps (<[k := None]> (entries s)) (<[k := p']> (non_unique_row_refs s)) (ordered_entry_keys s) s).
Proof.
  intros Hwf Hr Hu He Hne Hp. pose proof (wf_entries s Hwf _ _ He) as Hok.
  destruct (posting_insert_spec PostingPages_default existing) as (p0 & Hp0 & Hwf0 & Hin0); [constructor|done|].
  assert (p0 = p) as -> by congruence.
  destruct (posting_insert_spec p (r + 1) Hwf0 (ref_ok_succ r Hr)) as (p' & Hp' & Hwf' & Hin').
  exists p'. split; [done|]. unfold spec_insert. rewrite index_map_lookup, He.
  apply (update_insert s k _ _ _ None); [done|apply lookup_insert_eq| | | |].
  - rewrite lookup_insert_eq. split; [done|]. intros ? [= <-]. split_and!; [done|done| |done].
    intros E. specialize (Hin' (r + 1)). rewrite E in Hin'. set_solver.
  - intros k' Hk'. by rewrite !lookup_insert_ne.
  - by eapply ordered_keep, wf_ordered.
  - intros x. rewrite lookup_insert_eq. cbn [from_option]. rewrite Hin', Hin0.
    cbn [fmap option_fmap option_map from_option Datatypes.id entry_refs]. rewrite elem_of_union, elem_of_list_to_set, elem_of_unpacked.
    change (posting_iter PostingPages_default) with (@nil Z). set_solver by lia.
Qed.

Lemma insert_posting_refines s k r : state_wf s → 0 ≤ r < u64_max → unique_or_unset s = false →
  entries s !! k = Some None →
  ∃ p', insert_unique_sorted (r + 1) (default PostingPages_default (non_unique_row_refs s !! k)) = Some p' ∧
  refines s (spec_insert false k (Some r) (index_map s))
    (set_maps (entries s) (<[k := p']> (non_unique_row_refs s)) (ordered_entry_keys s) s).
Proof.
  intros Hwf Hr Hu He. set (p := default _ _).
  assert (posting_wf p ∧ posting_iter p = from_option posting_iter [] (non_unique_row_refs s !! k)) as [Hp Hit].
  { unfold p. destruct (non_unique_row_refs s !! k) as [q|] eqn:E; [|by split; [constructor|]].
    apply (wf_postings s Hwf) in E as (_ & Hq & _). by split. }
  destruct (posting_insert_spec p (r + 1) Hp (ref_ok_succ r Hr)) as (p' & Hp' & Hwf' & Hin').
  exists p'. split; [done|]. unfold spec_insert. rewrite index_map_lookup, He.
  apply (update_insert s k _ _ _ None); [done|done| | |apply wf_ordered, Hwf|].
  - rewrite lookup_insert_eq. split; [done|]. intros ? [= <-]. split_and!; [done|done| |done].
    intros E. specialize (Hin' (r + 1)). rewrite E in Hin'. set_solver.
  - intros k' Hk'. by rewrite !lookup_insert_ne.
  - intros x. rewrite lookup_insert_eq. cbn [from_option]. rewrite Hin'.
    cbn [fmap option_fmap option_map from_option Datatypes.id entry_refs]. rewrite elem_of_union, elem_of_list_to_set, elem_of_unpacked, Hit.
    set_solver by lia.
Qed.

(** Inserting never panics and inserts into the abstract map. *)
Lemma insert_refines s key row_ref : state_wf s → valid_ref row_ref →
  ∃ s', insert_with_row_ref key row_ref s = Some s' ∧
  refines s (match encode_key s key with
             | Some k => spec_insert (unique_or_unset s) k row_ref (index_map s)
             | None => index_map s
             end) s'.
Proof.
  intros Hwf Hv. unfold insert_with_row_ref. destruct (encode_key s key) as [k|]; [|eexists; split; [done|by apply index_refines_same]].
  destruct (unique_or_unset s) eqn:Hu; [eexists; split; [done|by apply insert_unique_refines]|].
  rewrite pack_valid by done. destruct row_ref as [r|]; cbn [fmap option_fmap option_map];
    [|eexists; split; [done|by apply insert_without_ref_refines]].
  specialize (Hv r eq_refl). destruct (entries s !! k) as [[existing|]|] eqn:E.
  - destruct (Z.eqb_spec existing (r + 1)) as [-> |Hne].
    + eexists. split; [done|]. apply index_refines_same; [done|]. unfold spec_insert. rewrite index_map_lookup, E.
      symmetry. apply insert_id. rewrite index_map_lookup, E. cbn [fmap option_fmap option_map from_option Datatypes.id entry_refs].
      f_equal. apply set_eq. intros x. rewrite elem_of_union, elem_of_list_to_set, elem_of_unpacked. set_solver by lia.
    + destruct (posting_insert_spec PostingPages_default existing) as (p & Hp & _); [constructor|by eapply wf_entries|].
      rewrite Hp. cbn [mbind option_bind]. destruct (insert_second_refines s k r existing p) as (p' & Hp' & Href); [done..|].
      rewrite Hp'. by eexists.
  - destruct (insert_posting_refines s k r Hwf Hv Hu E) as (p' & Hp' & Href). rewrite Hp'. by eexists.
  - eexists. split; [done|]. pose proof (no_postings_absent s k Hwf E) as Hp. unfold spec_insert. rewrite index_map_lookup, E.
    apply (update_insert s k _ _ _ (Some (r + 1))); [done|apply lookup_insert_eq| | |apply ordered_insert, wf_ordered, Hwf|].
    + rewrite Hp. split; [|done]. intros ? [= <-]. by apply ref_ok_succ.
    + intros k' Hne. by rewrite lookup_insert_ne.
    + intros x. cbn [fmap option_fmap option_map from_option]. set_solver by lia.
Qed.

Lemma index_map_present s k entry : entries s !! k = Some entry →
  ∃ X, index_map s !! k = Some X ∧ ∀ x, x ∈ X ↔ x + 1 ∈ entry_refs s k entry.
Proof.
  intros E. rewrite index_map_lookup, E. eexists. split; [done|]. intros x. by rewrite elem_of_list_to_set, elem_of_unpacked.
Qed.

(** Removing a reference from the postings of a key: the key goes with its last reference, and a single
    one moves back into the entry. *)
Lemma remove_posting_refines s k r p : state_wf s → 0 ≤ r < u64_max →
  entries s !! k = Some None → non_unique_row_refs s !! k = Some p →
  let p' := (posting_remove (r + 1) p).2 in
  refines s (spec_remove false k (Some r) (index_map s))
    (match only_row_ref p' with
     | Some single =>
         set_maps (<[k := Some single]> (entries s)) (delete k (<[k := p']> (non_unique_row_refs s))) (ordered_entry_keys s) s
     | None =>
         if posting_is_empty p'
         then set_maps (delete k (entries s)) (delete k (<[k := p']> (non_unique_row_refs s)))
                (remove_ordered k (ordered_entry_keys s)) s
         else set_maps (entries s) (<[k := p']> (non_unique_row_refs s)) (ordered_entry_keys s) s
     end).
Proof.
  intros Hwf Hr He Hp p'. destruct (wf_postings s Hwf k p Hp) as (_ & Hpw & Hne & Hu).
  pose proof (posting_remove_spec p (r + 1) Hpw) as Hrem. subst p'.
  destruct (posting_remove (r + 1) p) as [found p']. destruct Hrem as (Hpw' & _ & Hin). cbn [snd].
  destruct (index_map_present s k None He) as (X & HX & HXin). unfold entry_refs in HXin. rewrite Hp in HXin. cbn [from_option] in HXin.
  unfold spec_remove. rewrite HX.
  assert (∀ x, x ∈ X ∖ {[r]} ↔ x + 1 ∈ posting_iter p') as Hrest.
  { intros x. rewrite Hin, elem_of_difference, HXin, elem_of_singleton. split; intros [? ?]; split; (done || lia). }
  assert (X ∖ {[r]} = ∅ ↔ posting_iter p' = []) as Hempty.
  { split.
    - intros E. apply elem_of_nil_inv. intros x Hx. specialize (Hrest (x - 1)). rewrite E in Hrest.
      replace (x - 1 + 1) with x in Hrest by lia. set_solver.
    - intros E. apply set_eq. intros x. rewrite Hrest, E. set_solver. }
  assert (∀ k', k' ≠ k → delete k (<[k := p']> (non_unique_row_refs s)) !! k' = non_unique_row_refs s !! k') as Hother
    by (intros k' Hk'; by rewrite lookup_delete_ne, lookup_insert_ne).
  destruct (only_row_ref p') as [single|] eqn:Eo.
  - apply only_row_ref_spec in Eo; [|done]. rewrite decide_False by (rewrite Hempty, Eo; done).
    apply (update_insert s k _ _ _ (Some single)); [done|apply lookup_insert_eq| | | |].
    + rewrite lookup_delete_eq. split; [|done]. intros ? [= <-]. pose proof (posting_iter_ok p' Hpw') as Hok. rewrite Eo in Hok. by inversion Hok.
    + intros k' Hk'. rewrite lookup_insert_ne by done. auto.
    + by eapply ordered_keep, wf_ordered.
    + intros x. by rewrite Hrest, Eo.
  - destruct (posting_is_empty p') eqn:Ee.
    + apply posting_is_empty_spec in Ee; [|done]. rewrite decide_True by by apply Hempty.
      apply update_delete; [done|apply lookup_delete_eq|done|apply ordered_remove, wf_ordered, Hwf].
    + assert (posting_iter p' ≠ []) as Hne' by (intros E%posting_is_empty_spec; [congruence|done]).
      rewrite decide_False by by rewrite Hempty.
      apply (update_insert s k _ _ _ None); [done|done| | |apply wf_ordered, Hwf|].
      * rewrite lookup_insert_eq. split; [done|]. by intros ? [= <-].
      * intros k' Hk'. by rewrite lookup_insert_ne.
      * intros x. by rewrite lookup_insert_eq.
Qed.

Lemma remove_single_refines s k row_ref r : state_wf s → valid_ref row_ref → entries s !! k = Some (Some r) →
  refines s (spec_remove false k row_ref (index_map s))
    (if match row_ref with Some x => eqb (pack_row_ref x) (Some r) | None => true end
     then set_maps (delete k (entries s)) (non_unique_row_refs s) (remove_ordered k (ordered_entry_keys s)) s
     else s).
Proof.
  intros Hwf Hv He. destruct (index_map_present s k _ He) as (X & HX & HXin). cbn [entry_refs] in HXin.
  unfold spec_remove. rewrite HX. pose proof (no_postings s k r Hwf He) as Hp.
  assert (refines s (delete k (index_map s))
    (set_maps (delete k (entries s)) (non_unique_row_refs s) (remove_ordered k (ordered_entry_keys s)) s)) as Hdel
    by (apply update_delete; [done|done|done|apply ordered_remove, wf_ordered, Hwf]).
  destruct row_ref as [x|]; [|by rewrite decide_True].
  pose proof (pack_valid (Some x) Hv) as Hx. simpl in Hx. rewrite Hx.
  destruct (eqb (Some (x + 1)) (Some r)) eqn:E.
  - apply eqb_eq in E as [= <-]. rewrite decide_True; [done|]. apply set_eq. intros y.
    rewrite elem_of_difference, HXin, list_elem_of_singleton, elem_of_singleton, elem_of_empty. lia.
  - apply eqb_false in E. assert (X ∖ {[x]} = X) as ->.
    { apply set_eq. intros y. rewrite elem_of_difference, HXin, list_elem_of_singleton, elem_of_singleton. split; [by intros []|].
      intros Hy. split; [done|]. intros Hyx. apply E. by rewrite <-Hy, Hyx. }
    rewrite decide_False.
    + apply index_refines_same; [done|]. symmetry. by apply insert_id.
    + intros EX. specialize (HXin (r - 1)). rewrite EX, list_elem_of_singleton in HXin. apply (not_elem_of_empty (C:=gset Z) (r - 1)), HXin. lia.
Qed.

Lemma remove_refines s key row_ref : state_wf s → valid_ref row_ref →
  refines s (match encode_key s key with
             | Some k => spec_remove (unique_or_unset s) k row_ref (index_map s)
             | None => index_map s
             end) (remove_with_row_ref key row_ref s).
Proof.
  intros Hwf Hv. unfold remove_with_row_ref. destruct (encode_key s key) as [k|]; [|by apply index_refines_same].
  destruct (unique_or_unset s) eqn:Hu.
  { apply update_delete; [done|by apply no_postings_unique|done|apply ordered_remove, wf_ordered, Hwf]. }
  destruct (entries s !! k) as [[r|]|] eqn:E.
  - by apply remove_single_refines.
  - assert (refines s (delete k (index_map s))
      (set_maps (delete k (entries s)) (delete k (non_unique_row_refs s)) (remove_ordered k (ordered_entry_keys s)) s)) as Hdel.
    { apply update_delete; [done|apply lookup_delete_eq|intros k' Hne; by rewrite lookup_delete_ne|apply ordered_remove, wf_ordered, Hwf]. }
    destruct (index_map_present s k _ E) as (X & HX & HXin). unfold spec_remove at 1. rewrite HX.
    destruct (non_unique_row_refs s !! k) as [p|] eqn:Ep.
    + rewrite pack_valid by done. destruct row_ref as [r|]; cbn [fmap option_fmap option_map]; [|by rewrite decide_True].
      pose proof (remove_posting_refines s k r p Hwf (Hv r eq_refl) E Ep) as Href. unfold spec_remove in Href. by rewrite HX in Href.
    + unfold entry_refs in HXin. rewrite Ep in HXin. cbn [from_option] in HXin.
      assert (X = ∅) as -> by (apply set_eq; intros x; rewrite HXin; set_solver).
      rewrite decide_True; [done|]. destruct row_ref; set_solver.
  - apply index_refines_same; [done|]. unfold spec_remove. by rewrite index_map_lookup, E.
Qed.

(** ** Histories *)

Inductive IndexOp :=
| OpInsert (key : list bytes) (row_ref : option Z)
| OpRemove (key : list bytes) (row_ref : option Z).

Definition op_valid (op : IndexOp) : Prop :=
  match op with OpInsert _ r | OpRemove _ r => valid_ref r end.

Definition apply_op (op : IndexOp) (s : RuntimeIndexState) : option RuntimeIndexState :=
  match op with
  | OpInsert key row_ref => insert_with_row_ref key row_ref s
  | OpRemove key row_ref => Some (remove_with_row_ref key row_ref s)
  end.

Fixpoint apply_ops (ops : list IndexOp) (s : RuntimeIndexState) : option RuntimeIndexState :=
  match ops with
  | [] => Some s
  | op :: ops => s ← apply_op op s; apply_ops ops s
  end.

(** The operation on the abstract map, under the key encoding of [s]. *)
Definition spec_op (s : RuntimeIndexState) (m : gmap bytes (gset Z)) (op : IndexOp) : gmap bytes (gset Z) :=
  match op with
  | OpInsert key r => if encode_key s key is Some k then spec_insert (unique_or_unset s) k r m else m
  | OpRemove key r => if encode_key s key is Some k then spec_remove (unique_or_unset s) k r m else m
  end.

Lemma same_config_encode s s' key : same_config s s' → encode_key s' key = encode_key s key.
Proof. intros (_ & Hn & Hc). unfold encode_key. by rewrite Hn, Hc. Qed.

Lemma same_config_spec s s' m op : same_config s s' → spec_op s' m op = spec_op s m op.
Proof.
  intros Hs. unfold spec_op, unique_or_unset. destruct op; rewrite (same_config_encode s s') by done; by rewrite (proj1 Hs).
Qed.

Lemma apply_op_refines s op : state_wf s → op_valid op →
  ∃ s', apply_op op s = Some s' ∧ refines s (spec_op s (index_map s) op) s'.
Proof.
  intros Hwf Hv. destruct op as [key r|key r]; simpl.
  - by apply insert_refines.
  - eexists. split; [done|]. by apply remove_refines.
Qed.

Lemma apply_ops_refines ops s : state_wf s → Forall op_valid ops →
  ∃ s', apply_ops ops s = Some s' ∧ refines s (foldl (spec_op s) (index_map s) ops) s'.
Proof.
  intros Hwf Hops. revert s Hwf. induction Hops as [|op ops Hop Hops IH]; intros s Hwf.
  - eexists. split; [done|]. by apply index_refines_same.
  - destruct (apply_op_refines s op Hwf Hop) as (s1 & E1 & Hwf1 & Hc1 & Hm1). cbn [apply_ops]. rewrite E1. cbn [mbind option_bind].
    destruct (IH s1 Hwf1) as (s2 & E2 & Hwf2 & Hc2 & Hm2). exists s2. split; [done|]. split; [done|]. split.
    + destruct Hc1 as (? & ? & ?), Hc2 as (? & ? & ?). split_and!; congruence.
    + rewrite Hm2, Hm1. cbn [foldl]. generalize (spec_op s (index_map s) op). intros m.
      clear -Hc1. revert m. induction ops as [|op' ops IH]; intros m; [done|]. cbn [foldl].
      by rewrite (same_config_spec s s1).
Qed.

(** ** Queries *)

Lemma contains_spec s key : contains s key =
  match encode_key s key with Some k => bool_decide (is_Some (index_map s !! k)) | None => false end.
Proof.
  unfold contains. destruct (encode_key s key) as [k|]; [|done]. apply bool_decide_ext. rewrite index_map_lookup. by rewrite fmap_is_Some.
Qed.

Lemma cardinality_spec s : cardinality s = Z.of_nat (size (index_map s)).
Proof.
  unfold cardinality. f_equal. rewrite <-!size_dom. f_equal. apply set_eq. intros k.
  rewrite !elem_of_dom, index_map_lookup. by rewrite fmap_is_Some.
Qed.

Lemma unique_index_or_unset s : unique_index s = true → unique_or_unset s = true.
Proof. unfold unique_index, unique_or_unset. by destruct (index s). Qed.

Lemma fmap_pred_sorted l : StronglySorted Z.lt l → StronglySorted Z.lt (unpacked l).
Proof. intros Hs. unfold unpacked. eapply StronglySorted_fmap; [|exact Hs]. intros x y Hxy. lia. Qed.

Lemma entry_refs_sorted s k entry : state_wf s → entries s !! k = Some entry →
  StronglySorted Z.lt (entry_refs s k entry) ∧ Forall ref_ok (entry_refs s k entry).
Proof.
  intros Hwf He. unfold entry_refs. destruct entry as [r|].
  - split; [apply StronglySorted_cons; by split; [|constructor]|]. apply Forall_singleton. by eapply wf_entries.
  - destruct (non_unique_row_refs s !! k) as [p|] eqn:Ep; [|by split; [constructor|]].
    apply (wf_postings s Hwf) in Ep as (_ & Hp & _). split; [by apply posting_iter_sorted|by apply posting_iter_ok].
Qed.

(** The references of a key, in order; the limit cuts them off after the first. *)
Lemma row_refs_for_key_spec s key k limit : state_wf s → encode_key s key = Some k →
  row_refs_for_key s key limit =
    match entries s !! k with
    | Some entry =>
        let refs := unpacked (entry_refs s k entry) in
        if (1 <? length refs)%nat then truncate_refs limit refs else refs
    | None => []
    end.
Proof.
  intros Hwf Hk. unfold row_refs_for_key. rewrite Hk.
  assert (unique_index s = true → non_unique_row_refs s !! k = None) as Hnp
    by (intros Hu; by apply no_postings_unique, unique_index_or_unset).
  destruct (entries s !! k) as [[r|]|] eqn:E; cbn [mjoin option_join].
  - rewrite unpack_ok by by eapply wf_entries. cbn [option_list]. by case_match.
  - unfold entry_refs. change (unpack_row_ref None) with (@None Z). cbn [option_list]. destruct (unique_index s); [by rewrite Hnp|].
    destruct (non_unique_row_refs s !! k) as [p|] eqn:Ep; [|done]. cbn [from_option].
    apply (wf_postings s Hwf) in Ep as (_ & Hp & Hne & _). destruct limit as [n|]; cbn [truncate_refs].
    + rewrite append_row_refs_limited by done. unfold unpacked. rewrite length_fmap.
      destruct (Nat.ltb_spec 1 (length (posting_iter p))); [done|]. apply take_ge. rewrite length_fmap. lia.
    + rewrite append_row_refs_all by done. by case_match.
  - change (unpack_row_ref None) with (@None Z). cbn [option_list]. rewrite (no_postings_absent s k Hwf E). by case_match.
Qed.

Lemma row_refs_for_key_map s key k : state_wf s → encode_key s key = Some k →
  StronglySorted Z.lt (row_refs_for_key s key None) ∧
  ∀ r, r ∈ row_refs_for_key s key None ↔ r ∈ default ∅ (index_map s !! k).
Proof.
  intros Hwf Hk. rewrite (row_refs_for_key_spec s key k None) by done. rewrite index_map_lookup.
  destruct (entries s !! k) as [entry|] eqn:E; cbn [fmap option_fmap option_map from_option Datatypes.id truncate_refs].
  - rewrite (if_same (_ <? _)%nat). split; [apply fmap_pred_sorted; by eapply entry_refs_sorted|].
    intros r. by rewrite elem_of_list_to_set.
  - split; [constructor|]. set_solver.
Qed.

Lemma row_ref_count_spec s key k : state_wf s → encode_key s key = Some k →
  row_ref_count_for_key s key =
    index_map s !! k ≫= counted.
Proof.
  intros Hwf Hk. unfold row_ref_count_for_key. rewrite Hk. cbn [mbind option_bind]. rewrite index_map_lookup.
  destruct (entries s !! k) as [entry|] eqn:E; [|done]. cbn [fmap option_fmap option_map mbind option_bind].
  destruct (entry_refs_sorted s k entry Hwf E) as [Hs Hok].
  assert (size (list_to_set (unpacked (entry_refs s k entry)) : gset Z) = length (entry_refs s k entry)) as Hsize.
  { rewrite size_list_to_set by by apply sorted_lt_nodup, fmap_pred_sorted. unfold unpacked. by rewrite length_fmap. }
  unfold counted. rewrite Hsize. unfold entry_refs in *. destruct entry as [r|].
  - rewrite decide_False; [done|]. unfold unpacked. simpl. set_solver.
  - destruct (non_unique_row_refs s !! k) as [p|] eqn:Ep; cbn [mbind option_bind from_option] in *; [|done].
    apply (wf_postings s Hwf) in Ep as (_ & Hp & Hne & _).
    destruct (posting_is_empty p) eqn:Ee; [by apply posting_is_empty_spec in Ee|]. rewrite decide_False.
    + by rewrite posting_len_spec.
    + intros Hset. apply (f_equal size) in Hset. rewrite Hsize, size_empty in Hset. by apply Hne, length_zero_iff_nil.
Qed.

(** C16: A runtime index is a map from keys to sets of row references.  Whatever insertions and removals
    are made, with or without a reference, on a unique or a non-unique index, no operation panics, the
    posting pages stay sorted and of bounded size, and the state holds exactly the map that the same
    operations build; membership, cardinality, the references of a key and their number are read off it. *)
Theorem index_refines_multimap ops s : state_wf s → Forall op_valid ops →
  ∃ s', apply_ops ops s = Some s' ∧ state_wf s' ∧
  let m := foldl (spec_op s) (index_map s) ops in
  index_map s' = m ∧ cardinality s' = Z.of_nat (size m) ∧
  ∀ key k, encode_key s key = Some k →
    contains s' key = bool_decide (is_Some (m !! k)) ∧
    StronglySorted Z.lt (row_refs_for_key s' key None) ∧
    (∀ r, r ∈ row_refs_for_key s' key None ↔ r ∈ default ∅ (m !! k)) ∧
    row_ref_count_for_key s' key = m !! k ≫= counted.
Proof.
  intros Hwf Hops. destruct (apply_ops_refines ops s Hwf Hops) as (s' & Hrun & Hwf' & Hc & Hm).
  exists s'. split; [done|]. split; [done|]. cbv zeta. rewrite <-Hm. split; [done|]. split; [apply cardinality_spec|].
  intros key k Hk. rewrite <-(same_config_encode s s') in Hk by done.
  destruct (row_refs_for_key_map s' key k Hwf' Hk) as [Hs Hin].
  split; [by rewrite contains_spec, Hk|]. split; [done|]. split; [done|]. by apply row_ref_count_spec.
Qed.
End operations.
