(* ===== verification/RuntimeIndexRange.v ===== *)
(** * Range scans and paged probes of runtime indexes

    What [row_refs_for_key_range] and [row_refs_for_probe_keys_paged] return, in terms of the abstract
    index of [RuntimeIndexFacts.v]; and that on an integer index a range scan returns the rows whose
    integer lies in the range. *)

From Stdlib Require Import ZArith Lia Strings.Byte Sorting.Sorted.
From stdpp Require Import base list gmap sorting.
From S2P Require Import Prelude Record Wal Identifiers Text Float64 Schema RowCodec FieldValue.
From S2P Require Import Postings IndexKey DatabaseIndex RuntimeIndex RuntimeIndexFacts.

Local Open Scope Z_scope.

(** ** Sorted results *)

Lemma dedup_head x l : ∃ r, dedup (x :: l) = x :: r ∧ ∀ y, y ∈ dedup (x :: l) ↔ y = x ∨ y ∈ dedup l.
Proof.
  simpl. destruct (dedup l) as [|y r]; [exists []; set_solver|].
  destruct (Z.eqb_spec x y) as [-> |]; eexists; split; try done; set_solver.
Qed.

Lemma elem_of_dedup x l : x ∈ dedup l ↔ x ∈ l.
Proof.
  induction l as [|y l IH]; [done|]. destruct (dedup_head y l) as (r & _ & Hin). rewrite Hin, IH. set_solver.
Qed.

Lemma dedup_sorted l : StronglySorted Z.le l → StronglySorted Z.lt (dedup l).
Proof.
  induction 1 as [|x l Hs IH Hx]; [constructor|]. simpl. pose proof (λ y, elem_of_dedup y l) as Hin.
  destruct (dedup l) as [|y r]; [by apply StronglySorted_cons; split|].
  destruct (Z.eqb_spec x y) as [-> |Hne]; [done|]. apply StronglySorted_cons. split; [|done].
  rewrite Forall_forall in Hx. apply StronglySorted_cons in IH as [Hy _]. rewrite Forall_forall in Hy.
  assert (x < y) by (specialize (Hx y ltac:(apply Hin; by left)); lia).
  apply Forall_forall. intros z [-> |Hz]%elem_of_cons; [done|]. specialize (Hy z Hz). lia.
Qed.

Lemma sort_refs_sorted l : StronglySorted Z.lt (dedup (sort_refs l)).
Proof. apply dedup_sorted. unfold sort_refs. apply (StronglySorted_merge_sort Z.le). Qed.

Lemma elem_of_sort_refs x l : x ∈ dedup (sort_refs l) ↔ x ∈ l.
Proof. rewrite elem_of_dedup. unfold sort_refs. by rewrite (merge_sort_Permutation Z.le l). Qed.

Lemma elem_of_sorted_keys k ks : k ∈ sorted_keys ks ↔ k ∈ ks.
Proof. unfold sorted_keys. rewrite (merge_sort_Permutation bytes_le (elements ks)). apply elem_of_elements. Qed.

(** The keys in order, without repetition. *)
Lemma sorted_keys_sorted ks : StronglySorted bytes_lt (sorted_keys ks).
Proof.
  assert (StronglySorted bytes_le (sorted_keys ks)) as Hs by apply (StronglySorted_merge_sort bytes_le).
  assert (NoDup (sorted_keys ks)) as Hn.
  { unfold sorted_keys. rewrite (merge_sort_Permutation bytes_le (elements ks)). apply NoDup_elements. }
  induction Hs as [|k l Hs IH Hk]; [constructor|]. apply NoDup_cons in Hn as [Hnot Hn]. apply StronglySorted_cons.
  split; [|by apply IH]. rewrite Forall_forall in *. intros k' Hk'. specialize (Hk k' Hk'). apply bytes_le_lt in Hk as [?| ->]; done.
Qed.

(** ** Collecting references *)

(** The references the abstract index has for a key. *)
Definition refs_at (s : RuntimeIndexState) (k : bytes) : gset Z := default ∅ (index_map s !! k).

Lemma refs_at_present s k r : r ∈ refs_at s k → k ∈ dom (entries s).
Proof.
  unfold refs_at. rewrite index_map_lookup, elem_of_dom. destruct (entries s !! k); [done|]. simpl. set_solver.
Qed.

Lemma collect_spec s k acc : state_wf s →
  ∃ refs, collect_row_refs_for_encoded_key s k acc = acc ++ refs ∧ ∀ r, r ∈ refs ↔ r ∈ refs_at s k.
Proof.
  intros Hwf. unfold collect_row_refs_for_encoded_key, refs_at. rewrite index_map_lookup.
  destruct (entries s !! k) as [entry|] eqn:E; [|exists []; rewrite app_nil_r; set_solver].
  cbn [fmap option_fmap option_map from_option Datatypes.id].
  assert (∀ r, r ∈ unpacked (entry_refs s k entry) ↔ r ∈ (list_to_set (unpacked (entry_refs s k entry)) : gset Z)) as Hin
    by (intros r; by rewrite elem_of_list_to_set).
  exists (unpacked (entry_refs s k entry)). split; [|done]. unfold entry_refs. destruct entry as [r|].
  - by rewrite unpack_ok by by eapply wf_entries.
  - change (unpack_row_ref None) with (@None Z). cbn [option_list].
    destruct (non_unique_row_refs s !! k) as [p|] eqn:Ep; cbn [from_option]; [|by rewrite app_nil_r].
    apply (wf_postings s Hwf) in Ep as (_ & Hp & _). by apply append_row_refs_all.
Qed.

Lemma collect_all s keys acc r : state_wf s →
  r ∈ foldl (λ refs k, collect_row_refs_for_encoded_key s k refs) acc keys ↔
  r ∈ acc ∨ ∃ k, k ∈ keys ∧ r ∈ refs_at s k.
Proof.
  intros Hwf. revert acc. induction keys as [|k keys IH]; intros acc; cbn [foldl]; [set_solver|].
  destruct (collect_spec s k acc Hwf) as (refs & -> & Hin). rewrite IH, elem_of_app, Hin. set_solver.
Qed.

(** ** Range scans *)

Lemma above_at b l k : bound_at b = Some l → above b k = true → bytes_le l k ∧ (is_excluded b = true → bytes_lt l k).
Proof.
  destruct b; simpl; intros [= ->] Hk%bool_decide_eq_true; [done|]. split; [apply bytes_le_lt; by left|done].
Qed.

Lemma below_at b u k : bound_at b = Some u → below b k = true → bytes_le k u ∧ (is_excluded b = true → bytes_lt k u).
Proof.
  destruct b; simpl; intros [= ->] Hk%bool_decide_eq_true; [done|]. split; [apply bytes_le_lt; by left|done].
Qed.

Lemma empty_range_spec lo hi k : empty_range lo hi = true → above lo k = true → below hi k = true → False.
Proof.
  unfold empty_range. destruct (bound_at lo) as [l|] eqn:El, (bound_at hi) as [u|] eqn:Eu; try done.
  intros Hr Ha Hb. destruct (above_at _ _ _ El Ha) as [Ha1 Ha2], (below_at _ _ _ Eu Hb) as [Hb1 Hb2].
  pose proof (transitivity Ha1 Hb1) as Hlu. apply orb_true_iff in Hr as [Hr%bool_decide_eq_true|Hr].
  - by apply bytes_not_le in Hr.
  - apply andb_true_iff in Hr as [->%bool_decide_eq_true [Hr|Hr]%orb_true_iff].
    + apply (bytes_not_le k u); auto.
    + apply (bytes_not_le u k); auto.
Qed.

Lemma btree_range_valid ks lo hi : empty_range lo hi = false →
  btree_range ks lo hi = Some (filter (λ k, above lo k && below hi k = true) (sorted_keys ks)).
Proof.
  unfold empty_range, btree_range. destruct (bound_at lo), (bound_at hi); try done. intros [-> Hr]%orb_false_iff.
  apply andb_false_iff in Hr as [-> |[-> ->]%orb_false_iff]; [done|]. by rewrite andb_false_r.
Qed.

Section scans.
Context {value_list_bincode : Bincode (list bytes)} `{UuidText} `{BinarySearchLaws}.

(** The references of the keys between the bounds, in order, cut off at the limit. *)
Lemma range_scan s lower upper lo hi limit : state_wf s →
  encode_bound s lower = Some lo → encode_bound s upper = Some hi →
  ∃ refs, row_refs_for_key_range s lower upper limit = Some (truncate_refs limit refs) ∧
  StronglySorted Z.lt refs ∧
  ∀ r, r ∈ refs ↔ ∃ k, above lo k = true ∧ below hi k = true ∧ r ∈ refs_at s k.
Proof.
  intros Hwf Hlo Hhi. unfold row_refs_for_key_range. rewrite Hlo, Hhi.
  destruct (empty_range lo hi) eqn:Ee.
  - exists []. split; [by destruct limit; simpl; rewrite ?take_nil|]. split; [constructor|].
    intros r. split; [by intros ?%not_elem_of_nil|]. intros (k & Ha & Hb & _). destruct (empty_range_spec lo hi k Ee Ha Hb).
  - rewrite btree_range_valid by done. cbn [mbind option_bind]. eexists. split; [done|]. split; [apply sort_refs_sorted|].
    intros r. rewrite elem_of_sort_refs, collect_all by done. split.
    + intros [?%not_elem_of_nil|(k & Hk & Hr)]; [done|]. apply list_elem_of_filter in Hk as [[? ?]%andb_true_iff _]. by exists k.
    + intros (k & Ha & Hb & Hr). right. exists k. split; [|done]. apply list_elem_of_filter. rewrite Ha, Hb. split; [done|].
      apply elem_of_sorted_keys. apply refs_at_present in Hr as Hk.
      destruct (ordered_entry_keys s) as [ks|] eqn:Eo; simpl; [|done]. by apply (wf_ordered s Hwf ks Eo).
Qed.

(** ** Paged probes *)

(** The keys of the index from a bound on. *)
Definition keys_from (s : RuntimeIndexState) (b : Bound) : list bytes :=
  filter (λ k, above b k = true) (sorted_keys (dom (entries s))).

(** The references collected are those of the keys seen. *)
Definition collected (s : RuntimeIndexState) (acc : list Z * gset bytes) : Prop :=
  ∀ r, r ∈ acc.1 ↔ ∃ k, k ∈ acc.2 ∧ r ∈ refs_at s k.

Lemma visit_keys s keys acc : state_wf s → collected s acc →
  collected s (foldl (visit_key s) acc keys) ∧ (foldl (visit_key s) acc keys).2 = acc.2 ∪ list_to_set keys.
Proof.
  intros Hwf. revert acc. induction keys as [|k keys IH]; intros [refs seen] Hc; cbn [foldl].
  - split; [done|]. simpl. set_solver.
  - cbn [visit_key]. case_bool_decide as Hk.
    + destruct (IH (refs, seen) Hc) as [Hcol ->]. split; [done|]. simpl. set_solver.
    + destruct (collect_spec s k refs Hwf) as (new & -> & Hnew).
      destruct (IH (refs ++ new, {[k]} ∪ seen)) as [Hcol ->].
      { intros r. cbn [fst snd]. rewrite elem_of_app, Hnew, (Hc r). cbn [snd]. set_solver. }
      split; [done|]. simpl. set_solver.
Qed.

(** Going on behind the last key of a full page. *)
Lemma keys_from_next s b n last_key : last (take n (keys_from s b)) = Some last_key →
  length (take n (keys_from s b)) = n → keys_from s (Excluded last_key) = drop n (keys_from s b).
Proof.
  intros Hl Hn. unfold keys_from in *. pose proof (sorted_keys_sorted (dom (entries s))) as Hs.
  set (L := sorted_keys (dom (entries s))) in *. clearbody L.
  assert (StronglySorted bytes_lt (filter (λ k, above b k = true) L)) as Hf.
  { clear Hl Hn. induction Hs as [|k l Hs IH Hk]; [constructor|]. rewrite filter_cons. case_decide; [|done].
    apply StronglySorted_cons. split; [|done]. rewrite Forall_forall in *. intros k' [_ Hk']%list_elem_of_filter. auto. }
  assert (filter (λ k, above (Excluded last_key) k = true) L
          = filter (λ k, above (Excluded last_key) k = true) (filter (λ k, above b k = true) L)) as ->.
  { rewrite list_filter_filter. apply filter_ext_in. intros k Hk. split; [|naive_solver]. intros Hlt. split; [done|].
    apply last_Some_elem_of, elem_of_take in Hl as (i & Hi & _). apply list_elem_of_lookup_2, list_elem_of_filter in Hi as [Hab _].
    simpl in Hlt. apply bool_decide_eq_true in Hlt. destruct b as [l|l|]; cbn [above] in *; [| |done]; apply bool_decide_eq_true in Hab; apply bool_decide_eq_true.
    - etrans; [exact Hab|]. apply bytes_le_lt. by left.
    - by eapply bytes_compare_trans. }
  rewrite <-(take_drop n (filter (λ k, above b k = true) L)) at 1. rewrite filter_app.
  rewrite <-(take_drop n (filter (λ k, above b k = true) L)) in Hf. apply last_Some in Hl as [front Hfront].
  rewrite filter_none, filter_all; [done| |].
  - apply Forall_forall. intros k Hk. simpl. apply bool_decide_eq_true.
    apply (StronglySorted_app_1_elem_of _ _ _ last_key k Hf); [|done]. rewrite Hfront. set_solver.
  - apply StronglySorted_app_1_l in Hf. rewrite Hfront in Hf |- *. apply Forall_forall. intros k Hk. simpl. rewrite bool_decide_eq_true.
    intros Hlt. apply elem_of_app in Hk as [Hk| ->%list_elem_of_singleton]; [|by apply bytes_lt_irrefl in Hlt].
    pose proof (StronglySorted_app_1_elem_of _ _ _ k last_key Hf Hk ltac:(by left)) as Hlt'.
    eapply bytes_lt_irrefl, bytes_compare_trans; [exact Hlt|exact Hlt'].
Qed.

(** A probe sees the keys from its bound on, page by page, up to its number of pages. *)
Lemma probe_pages_spec s max_pages n limit b acc : state_wf s → n ≠ 0%nat → collected s acc →
  let acc' := probe_pages s max_pages n limit b acc in
  collected s acc' ∧ acc.2 ⊆ acc'.2 ∧ acc'.2 ⊆ acc.2 ∪ dom (entries s) ∧
  (limit = None → acc'.2 = acc.2 ∪ list_to_set (take (max_pages * n) (keys_from s b))).
Proof.
  intros Hwf Hn. revert b acc. induction max_pages as [|m IH]; intros b acc Hc; cbn [probe_pages].
  { split_and!; [done|done|set_solver|]. intros _. simpl. set_solver. }
  fold (keys_from s b). assert (∀ k, k ∈ take n (keys_from s b) → k ∈ dom (entries s)) as Hdom.
  { intros k (i & Hi & _)%elem_of_take. apply list_elem_of_lookup_2, list_elem_of_filter in Hi as [_ Hi]. by apply elem_of_sorted_keys in Hi. }
  destruct (is_empty (take n (keys_from s b))) eqn:Ee.
  { split_and!; [done|done|set_solver|]. intros _. assert (keys_from s b = []) as ->.
    { destruct (keys_from s b), n; done. }
    rewrite take_nil. set_solver. }
  destruct (visit_keys s (take n (keys_from s b)) acc Hwf Hc) as [Hc' Hseen].
  set (acc1 := foldl (visit_key s) acc (take n (keys_from s b))) in *.
  assert (acc1.2 ⊆ acc.2 ∪ dom (entries s)) as Hsub.
  { rewrite Hseen. intros k. rewrite !elem_of_union, elem_of_list_to_set. naive_solver. }
  destruct (Nat.ltb_spec (length (take n (keys_from s b))) n) as [Hlt|Hge].
  { split_and!; [done|set_solver|done|]. intros _. rewrite Hseen. f_equal. f_equal. rewrite length_take in Hlt.
    rewrite !take_ge by lia. done. }
  destruct (last (take n (keys_from s b))) as [last_key|] eqn:El.
  2: { apply last_None in El. by rewrite El in Ee. }
  destruct (limit_reached limit acc1.1) eqn:Elim.
  { split_and!; [done|set_solver|done|]. by intros ->. }
  destruct (IH (Excluded last_key) acc1 Hc') as (H1' & H2' & H3' & H4').
  split_and!; [done|set_solver|set_solver|]. intros ->. rewrite H4', Hseen by done.
  assert (length (take n (keys_from s b)) = n) as Hlen by (pose proof (length_take_le (keys_from s b) n); rewrite length_take in *; lia).
  rewrite (keys_from_next s b n last_key El Hlen).
  replace (S m * n)%nat with (n + m * n)%nat by lia. rewrite <-take_take_drop, list_to_set_app_L. set_solver.
Qed.

Lemma probe_keys_loop_spec s probes n m limit acc : state_wf s → n ≠ 0%nat → collected s acc →
  let acc' := probe_keys_loop s probes n m limit acc in
  collected s acc' ∧ acc'.2 ⊆ acc.2 ∪ dom (entries s) ∧
  (limit = None → ∀ k, k ∈ acc'.2 ↔
     k ∈ acc.2 ∨ ∃ key p, key ∈ probes ∧ encode_key s key = Some p ∧ k ∈ take (m * n) (keys_from s (Included p))).
Proof.
  intros Hwf Hn. revert acc. induction probes as [|key probes IH]; intros acc Hc; cbn [probe_keys_loop].
  { split_and!; [done|set_solver|]. intros _ k. set_solver. }
  destruct (encode_key s key) as [p|] eqn:Ep.
  - destruct (probe_pages_spec s m n limit (Included p) acc Hwf Hn Hc) as (Hc1 & _ & Hsub1 & Hnl1).
    set (acc1 := probe_pages s m n limit (Included p) acc) in *.
    destruct (limit_reached limit acc1.1) eqn:Elim; [split_and!; [done|done|by intros ->]|].
    destruct (IH acc1 Hc1) as (Hc2 & Hsub2 & Hnl2). split_and!; [done|set_solver|]. intros Hl k.
    rewrite (Hnl2 Hl k), (Hnl1 Hl), elem_of_union, elem_of_list_to_set. setoid_rewrite elem_of_cons. naive_solver.
  - destruct (IH acc Hc) as (Hc2 & Hsub2 & Hnl2). split_and!; [done|done|]. intros Hl k. rewrite (Hnl2 Hl k).
    setoid_rewrite elem_of_cons. naive_solver.
Qed.

Lemma sorted_lt_unique (l l' : list Z) : StronglySorted Z.lt l → StronglySorted Z.lt l' → (∀ r, r ∈ l ↔ r ∈ l') → l = l'.
Proof.
  intros Hs Hs' Hin. apply (StronglySorted_unique_strong Z.lt); [|done|done|].
  - intros x y _ _ Hxy Hyx. lia.
  - apply NoDup_Permutation; [by apply sorted_lt_nodup..|done].
Qed.

Lemma enough_pages s b k r n : (size (entries s) ≤ n)%nat → above b k = true → r ∈ refs_at s k → k ∈ take n (keys_from s b).
Proof.
  intros Hn Ha Hr%refs_at_present. rewrite take_ge.
  - apply list_elem_of_filter. split; [done|]. by apply elem_of_sorted_keys.
  - etrans; [apply length_filter|]. unfold sorted_keys. rewrite (merge_sort_Permutation bytes_le (elements (dom (entries s)))).
    change (length (elements (dom (entries s)))) with (size (dom (entries s))). by rewrite size_dom.
Qed.

(** The paged probe visits, for every probe key, the keys of the index from the probe on, page by
    page up to its number of pages, and returns their references in order and once each, at most as many
    as the limit allows; it never returns a reference that is not in the index.  One probe with enough
    pages returns what the range scan from the probe key returns. *)
Theorem paged_probe_exact s probes n m limit : state_wf s → n ≠ 0%nat → m ≠ 0%nat →
  let result := row_refs_for_probe_keys_paged s probes n m limit in
  StronglySorted Z.lt result ∧
  (∀ l, limit = Some l → (length result ≤ Z.to_nat l)%nat) ∧
  (∀ r, r ∈ result → ∃ k, k ∈ dom (entries s) ∧ r ∈ refs_at s k) ∧
  (limit = None → ∀ r, r ∈ result ↔ ∃ key p k,
     key ∈ probes ∧ encode_key s key = Some p ∧ k ∈ take (m * n) (keys_from s (Included p)) ∧ r ∈ refs_at s k) ∧
  (limit = None → (size (entries s) ≤ m * n)%nat → ∀ key p, probes = [key] → encode_key s key = Some p →
     row_refs_for_key_range s (Some {| bound_key := key; inclusive := true |}) None None = Some result).
Proof.
  intros Hwf Hn Hm result. subst result. unfold row_refs_for_probe_keys_paged.
  rewrite (proj2 (Nat.eqb_neq n 0) Hn), (proj2 (Nat.eqb_neq m 0) Hm), !orb_false_r.
  destruct (probe_keys_loop_spec s probes n m limit ([], ∅) Hwf Hn) as (Hc & Hsub & Hnl).
  { intros r. simpl. set_solver. }
  set (acc := probe_keys_loop s probes n m limit ([], ∅)) in *.
  assert (probes = [] → acc.1 = []) as Hnil by by intros ->.
  assert ((if is_empty probes then [] else truncate_refs limit (dedup (sort_refs acc.1)))
          = truncate_refs limit (dedup (sort_refs acc.1))) as ->.
  { destruct probes; [|done]. rewrite (Hnil eq_refl). destruct limit; simpl; by rewrite ?take_nil. }
  pose proof (sort_refs_sorted acc.1) as Hsort.
  assert (limit = None → ∀ r, r ∈ dedup (sort_refs acc.1) ↔ ∃ key p k,
     key ∈ probes ∧ encode_key s key = Some p ∧ k ∈ take (m * n) (keys_from s (Included p)) ∧ r ∈ refs_at s k) as Hall.
  { intros Hl r. rewrite elem_of_sort_refs, (Hc r). setoid_rewrite (Hnl Hl). set_solver. }
  split_and!.
  - destruct limit as [l|]; [|done]. cbn [truncate_refs]. rewrite <-(take_drop (Z.to_nat l)) in Hsort. by eapply StronglySorted_app_1_l.
  - intros l ->. cbn [truncate_refs]. rewrite length_take. lia.
  - intros r Hr. assert (r ∈ dedup (sort_refs acc.1)) as Hin.
    { destruct limit as [l|]; [|done]. cbn [truncate_refs] in Hr. apply elem_of_take in Hr as (i & Hi & _). by eapply list_elem_of_lookup_2. }
    rewrite elem_of_sort_refs, (Hc r) in Hin. destruct Hin as (k & Hk & Hr'). exists k. split; [|done]. simpl in Hsub. set_solver.
  - intros ->. by apply Hall.
  - intros -> Hsize key p -> Hp.
    destruct (range_scan s (Some {| bound_key := key; inclusive := true |}) None (Included p) Unbounded None) as (refs & -> & Hs & Hin); [done| |done|].
    { unfold encode_bound. simpl. by rewrite Hp. }
    cbn [truncate_refs]. f_equal. apply sorted_lt_unique; [done|done|]. intros r. rewrite Hin, (Hall eq_refl). split.
    + intros (k & Ha & _ & Hr). exists key, p, k. split_and!; [by left|done| |done]. by eapply enough_pages.
    + intros (key' & p' & k & ->%list_elem_of_singleton & Hp' & Hk & Hr). exists k. assert (p' = p) as -> by congruence.
      apply elem_of_take in Hk as (i & Hi & _). apply list_elem_of_lookup_2, list_elem_of_filter in Hi as [Ha _]. done.
Qed.

(** ** Integer indexes *)

Context {key_layout : ByteVecLayout}.

Definition entry_prefix (len : nat) : bytes := to_le_bytes 8 1 ++ to_le_bytes 8 (Z.of_nat len).

Lemma encode_single value : encode_runtime_index_entry_key [value] = Some (entry_prefix (length value) ++ value).
Proof. unfold encode_runtime_index_entry_key, entry_prefix. rewrite serialize_byte_vecs.
  cbn [fmap list_fmap concat length]. by rewrite app_nil_r, app_assoc.
Qed.

Lemma length_entry_prefix n : length (entry_prefix n) = 16%nat.
Proof. unfold entry_prefix. by rewrite length_app, !length_to_le_bytes. Qed.

(** The integers an index of a kind holds in order. *)
Definition in_kind (k : RuntimeIndexNumericKind) (v : Z) : Prop :=
  match k with KSigned => is_i64 v | KUnsigned => is_u64 v | KFloat => False end.

Definition number_key (k : RuntimeIndexNumericKind) (v : Z) : bytes :=
  entry_prefix 8 ++ to_be_bytes 8 (match k with KSigned => v + sign_bit | _ => v end).

(** [value] is a stored form of the integer [v]. *)
Definition renders (value : bytes) (v : Z) : Prop := render_stored_field_value value = integer_text v.

Lemma encode_integer_key s k value v : numeric_kind s = Some k → string_case_insensitive s = false →
  in_kind k v → renders value v → encode_key s [value] = Some (number_key k v).
Proof.
  intros Hk Hc Hv Hr. unfold encode_key. rewrite Hc, Hk, Hr. unfold number_key. destruct k; simpl in Hv; [| |done].
  - rewrite encode_signed_text, encode_single by done. by rewrite length_to_be_bytes.
  - rewrite encode_unsigned_text, encode_single by done. by rewrite length_to_be_bytes.
Qed.

Lemma number_key_compare k v w : in_kind k v → in_kind k w → bytes_compare (number_key k v) (number_key k w) = (v ?= w).
Proof.
  intros Hv Hw. unfold number_key. rewrite bytes_compare_app, bytes_compare_refl by done.
  destruct k; simpl in *; [by apply signed_keys_sorted|by apply unsigned_keys_sorted|done].
Qed.

Lemma number_key_inj k v w : in_kind k v → in_kind k w → number_key k v = number_key k w → v = w.
Proof.
  intros Hv Hw E. pose proof (number_key_compare k v w Hv Hw) as Hc. rewrite E, bytes_compare_refl in Hc.
  symmetry in Hc. by apply Z.compare_eq in Hc.
Qed.

(** What an operation makes of the references of its own key. *)
Definition op_effect (uniq : bool) (op : IndexOp) (X : option (gset Z)) : option (gset Z) :=
  let m : gmap Z (gset Z) := from_option (λ X, {[0 := X]}) ∅ X in
  match op with OpInsert _ r => spec_insert uniq 0 r m !! 0 | OpRemove _ r => spec_remove uniq 0 r m !! 0 end.

Definition op_at {K} `{Countable K} (uniq : bool) (k : K) (op : IndexOp) (m : gmap K (gset Z)) : gmap K (gset Z) :=
  match op with OpInsert _ r => spec_insert uniq k r m | OpRemove _ r => spec_remove uniq k r m end.

Lemma op_at_lookup {K} `{Countable K} uniq (k k' : K) op m :
  op_at uniq k op m !! k' = if decide (k' = k) then op_effect uniq op (m !! k) else m !! k'.
Proof.
  unfold op_at, op_effect, spec_insert, spec_remove.
  assert (∀ X : option (gset Z), (from_option (λ X, {[0 := X]}) ∅ X : gmap Z (gset Z)) !! 0 = X) as Hzero.
  { intros [X|]; simpl; [apply lookup_singleton_eq|apply lookup_empty]. }
  destruct op as [key r|key r].
  - rewrite !Hzero. destruct uniq; rewrite lookup_insert_eq; (destruct (decide (k' = k)) as [-> |];
      [by rewrite lookup_insert_eq|by rewrite lookup_insert_ne]).
  - destruct uniq.
    + rewrite lookup_delete_eq. destruct (decide (k' = k)) as [-> |]; [by rewrite lookup_delete_eq|by rewrite lookup_delete_ne].
    + rewrite !Hzero. destruct (m !! k) as [X|] eqn:E.
      * case_decide; [rewrite lookup_delete_eq|rewrite lookup_insert_eq]; (destruct (decide (k' = k)) as [-> |];
          [by rewrite ?lookup_delete_eq, ?lookup_insert_eq|by rewrite ?lookup_delete_ne, ?lookup_insert_ne]).
      * destruct (decide (k' = k)) as [-> |]; [|done]. rewrite E. by rewrite Hzero.
Qed.

(** The index holds the map [M] from integers to references. *)
Record int_index (k : RuntimeIndexNumericKind) (s : RuntimeIndexState) (M : gmap Z (gset Z)) : Prop := {
  int_wf : state_wf s;
  int_kind : numeric_kind s = Some k;
  int_case : string_case_insensitive s = false;
  int_lookup v : in_kind k v → index_map s !! number_key k v = M !! v;
  int_keys key : is_Some (index_map s !! key) → ∃ v, in_kind k v ∧ key = number_key k v
}.

Definition op_key (op : IndexOp) : list bytes := match op with OpInsert key _ | OpRemove key _ => key end.

Lemma int_index_step k s M op v value : int_index k s M → op_valid op → op_key op = [value] → renders value v → in_kind k v →
  ∃ s', apply_op op s = Some s' ∧ same_config s s' ∧ int_index k s' (op_at (unique_or_unset s) v op M).
Proof.
  intros Hi Hop Hkey Hr Hv. destruct (apply_op_refines s op (int_wf _ _ _ Hi) Hop) as (s' & Hs' & Hwf' & Hc & Hm).
  pose proof (encode_integer_key s k value v (int_kind _ _ _ Hi) (int_case _ _ _ Hi) Hv Hr) as He.
  assert (index_map s' = op_at (unique_or_unset s) (number_key k v) op (index_map s)) as Hm'.
  { rewrite Hm. unfold spec_op, op_at. destruct op; simpl in Hkey; subst; by rewrite He. }
  exists s'. split; [done|]. split; [done|]. split; [done| | | |].
  - rewrite (proj1 (proj2 Hc)). apply Hi.
  - rewrite (proj2 (proj2 Hc)). apply Hi.
  - intros w Hw. rewrite Hm', !op_at_lookup. destruct (decide (w = v)) as [-> |Hne].
    + rewrite decide_True by done. by rewrite (int_lookup _ _ _ Hi v Hv).
    + rewrite decide_False by (intros E; by apply Hne, (number_key_inj k)). by apply Hi.
  - intros key. rewrite Hm', op_at_lookup. case_decide as Hd; [by exists v|]. apply Hi.
Qed.

Lemma int_index_steps k ops s M : int_index k s M →
  Forall (λ '(op, v), op_valid op ∧ in_kind k v ∧ ∃ value, op_key op = [value] ∧ renders value v) ops →
  ∃ s', apply_ops (fst <$> ops) s = Some s' ∧
        int_index k s' (foldl (λ M '(op, v), op_at (unique_or_unset s) v op M) M ops).
Proof.
  intros Hi Hops. revert s M Hi. induction Hops as [|[op v] ops (Hop & Hv & value & Hkey & Hr) Hops IH]; intros s M Hi.
  - by exists s.
  - destruct (int_index_step k s M op v value Hi Hop Hkey Hr Hv) as (s1 & E1 & Hc1 & Hi1).
    destruct (IH s1 _ Hi1) as (s2 & E2 & Hi2). exists s2. rewrite fmap_cons. cbn [apply_ops fst]. rewrite E1. split; [done|].
    assert (unique_or_unset s1 = unique_or_unset s) as Hu by (unfold unique_or_unset; by rewrite (proj1 Hc1)).
    rewrite Hu in Hi2. exact Hi2.
Qed.

(** *** Bounds *)

(** A bound of a range: a stored integer, its value, and whether it is included. *)
Record IntBound := { stored : bytes; number : Z; included : bool }.

Definition range_bound (b : IntBound) : RuntimeIndexRangeBound := {| bound_key := [stored b]; inclusive := included b |}.

Definition at_least (b : option IntBound) (v : Z) : Prop :=
  match b with Some b => if included b then number b ≤ v else number b < v | None => True end.

Definition at_most (b : option IntBound) (v : Z) : Prop :=
  match b with Some b => if included b then v ≤ number b else v < number b | None => True end.

Definition bound_ok (k : RuntimeIndexNumericKind) (b : option IntBound) : Prop :=
  match b with Some b => in_kind k (number b) ∧ renders (stored b) (number b) | None => True end.

Definition key_bound (k : RuntimeIndexNumericKind) (b : option IntBound) : Bound :=
  match b with
  | Some b => if included b then Included (number_key k (number b)) else Excluded (number_key k (number b))
  | None => Unbounded
  end.

Lemma encode_int_bound k s M b : int_index k s M → bound_ok k b →
  encode_bound s (range_bound <$> b) = Some (key_bound k b).
Proof.
  intros Hi Hb. destruct b as [b|]; [|done]. destruct Hb as [Hv Hr]. cbn [fmap option_fmap option_map encode_bound range_bound bound_key inclusive key_bound].
  rewrite (encode_integer_key s k (stored b) (number b)) by (apply Hi || done). cbn [mbind option_bind]. by destruct (included b).
Qed.

Lemma key_bound_above k b v : bound_ok k b → in_kind k v → above (key_bound k b) (number_key k v) = true ↔ at_least b v.
Proof.
  intros Hb Hv. destruct b as [b|]; [|done]. destruct Hb as [Hn _]. pose proof (number_key_compare k (number b) v Hn Hv) as Hc.
  cbn [key_bound at_least]. destruct (included b); cbn [above]; rewrite bool_decide_eq_true; unfold bytes_le, bytes_lt; rewrite Hc.
  - by rewrite Z.compare_le_iff.
  - by rewrite Z.compare_lt_iff.
Qed.

Lemma key_bound_below k b v : bound_ok k b → in_kind k v → below (key_bound k b) (number_key k v) = true ↔ at_most b v.
Proof.
  intros Hb Hv. destruct b as [b|]; [|done]. destruct Hb as [Hn _]. pose proof (number_key_compare k v (number b) Hv Hn) as Hc.
  cbn [key_bound at_most]. destruct (included b); cbn [below]; rewrite bool_decide_eq_true; unfold bytes_le, bytes_lt; rewrite Hc.
  - by rewrite Z.compare_le_iff.
  - by rewrite Z.compare_lt_iff.
Qed.

Lemma int_range_scan k s M lower upper limit : int_index k s M → bound_ok k lower → bound_ok k upper →
  ∃ refs, row_refs_for_key_range s (range_bound <$> lower) (range_bound <$> upper) limit = Some (truncate_refs limit refs) ∧
  StronglySorted Z.lt refs ∧
  ∀ r, r ∈ refs ↔ ∃ v X, in_kind k v ∧ M !! v = Some X ∧ r ∈ X ∧ at_least lower v ∧ at_most upper v.
Proof.
  intros Hi Hlo Hhi. destruct (range_scan s (range_bound <$> lower) (range_bound <$> upper) (key_bound k lower) (key_bound k upper) limit)
    as (refs & Hrun & Hs & Hin); [apply Hi|by eapply encode_int_bound..|].
  exists refs. split; [done|]. split; [done|]. intros r. rewrite Hin. unfold refs_at. split.
  - intros (key & Ha & Hb & Hr). destruct (index_map s !! key) as [X|] eqn:E; [|simpl in Hr; set_solver].
    destruct (int_keys _ _ _ Hi key) as (v & Hv & ->); [by rewrite E|]. exists v, X.
    rewrite (int_lookup _ _ _ Hi v Hv) in E. split_and!; [done|done|done|by apply key_bound_above in Ha|by apply key_bound_below in Hb].
  - intros (v & X & Hv & HX & Hr & Ha & Hb). exists (number_key k v).
    rewrite key_bound_above, key_bound_below, (int_lookup _ _ _ Hi v Hv), HX by done. done.
Qed.

(** C17: A range scan of an integer index returns the rows in the range.  After any insertions and
    removals under stored integers, in whatever forms they are stored, the scan between two integers,
    each included or not or left out, returns in order and once each the references of exactly those
    integers of the map that lie in the range, cut off at the limit. *)
Theorem integer_range_scan k s ops lower upper limit :
  state_wf s → entries s = ∅ → numeric_kind s = Some k → string_case_insensitive s = false →
  Forall (λ '(op, v), op_valid op ∧ in_kind k v ∧ ∃ value, op_key op = [value] ∧ renders value v) ops →
  bound_ok k lower → bound_ok k upper →
  ∃ s' refs, apply_ops (fst <$> ops) s = Some s' ∧
  row_refs_for_key_range s' (range_bound <$> lower) (range_bound <$> upper) limit = Some (truncate_refs limit refs) ∧
  StronglySorted Z.lt refs ∧
  ∀ r, r ∈ refs ↔ ∃ v X, foldl (λ M '(op, v), op_at (unique_or_unset s) v op M) ∅ ops !! v = Some X ∧
                         r ∈ X ∧ at_least lower v ∧ at_most upper v.
Proof.
  intros Hwf Hes Hk Hc Hops Hlo Hhi.
  assert (∀ key, index_map s !! key = None) as Hnone by (intros key; by rewrite index_map_lookup, Hes, lookup_empty).
  assert (int_index k s ∅) as Hi.
  { split; [done..| |]; [intros v _; by rewrite Hnone, lookup_empty|]. intros key. rewrite Hnone. by intros []. }
  destruct (int_index_steps k ops s ∅ Hi Hops) as (s' & Hrun & Hi').
  destruct (int_range_scan k s' _ lower upper limit Hi' Hlo Hhi) as (refs & Hscan & Hs & Hin).
  exists s', refs. split; [done|]. split; [done|]. split; [done|]. intros r. rewrite Hin. split; [naive_solver|].
  intros (v & X & HX & Hr & Ha & Hb). exists v, X. split_and!; try done.
  clear -HX Hops. revert HX. generalize (unique_or_unset s). intros u.
  assert (∀ M : gmap Z (gset Z), (∀ w, is_Some (M !! w) → in_kind k w) →
            ∀ w, is_Some (foldl (λ M '(op, v), op_at u v op M) M ops !! w) → in_kind k w) as Hdom.
  { induction Hops as [|[op w] ops (_ & Hw & _) Hops IH]; intros M HM; [done|]. cbn [foldl]. apply IH.
    intros w'. rewrite op_at_lookup. case_decide as Hd; [by subst|]. apply HM. }
  intros HX. apply (Hdom ∅); [intros w; rewrite lookup_empty; by intros []|by rewrite HX].
Qed.
End scans.
