(* ===== verification/Indexors.v ===== *)
(** * Indexors

    Models [runtime_index_storage.rs] and [runtime_indexors.rs]: the storage contract of runtime indexes as
    a type class, the datatype-specific indexors that implement it, and the choice of the indexor for a
    column type.  [RuntimeIndexStorageLaws] states what the contract promises: a map from encoded keys to
    sets of row references.  Clients are proved against it, and every indexor implements it. *)

From Stdlib Require Import ZArith Lia Strings.Byte Sorting.Sorted.
From stdpp Require Import base list gmap sorting.
From S2P Require Import Prelude Record Wal Identifiers Text Schema RowCodec FieldValue.
From S2P Require Import Postings IndexKey DatabaseIndex RuntimeIndex RuntimeIndexFacts RuntimeIndexRange.

Local Open Scope Z_scope.

(** ** The contract *)

(** The trait [RuntimeIndexStorage]; [None] is a panic. *)
Class RuntimeIndexStorage (T : Type) := {
  storage_contains : T → list bytes → bool;
  storage_insert : list bytes → option Z → T → option T;
  storage_remove : list bytes → option Z → T → T;
  storage_cardinality : T → Z;
  storage_row_refs_for_key : T → list bytes → option Z → list Z;
  storage_row_refs_for_key_range :
    T → option RuntimeIndexRangeBound → option RuntimeIndexRangeBound → option Z → option (list Z)
}.

(** The bound of a range under an encoding of keys. *)
Definition bound_by (encode : list bytes → option bytes) (b : option RuntimeIndexRangeBound) : option Bound :=
  match b with
  | None => Some Unbounded
  | Some b => (λ k, if inclusive b then Included k else Excluded k) <$> encode (bound_key b)
  end.

(** What the implementations promise: a map from encoded keys to references. *)
Class RuntimeIndexStorageLaws (T : Type) `{RuntimeIndexStorage T} := {
  storage_wf : T → Prop;
  storage_key : T → list bytes → option bytes;
  storage_unique : T → bool;
  storage_map : T → gmap bytes (gset Z);
  storage_insert_law t key r : storage_wf t → valid_ref r →
    ∃ t', storage_insert key r t = Some t' ∧ storage_wf t' ∧ (∀ key', storage_key t' key' = storage_key t key') ∧
          storage_unique t' = storage_unique t ∧
          storage_map t' = match storage_key t key with
                           | Some k => spec_insert (storage_unique t) k r (storage_map t)
                           | None => storage_map t
                           end;
  storage_remove_law t key r : storage_wf t → valid_ref r →
    let t' := storage_remove key r t in
    storage_wf t' ∧ (∀ key', storage_key t' key' = storage_key t key') ∧ storage_unique t' = storage_unique t ∧
    storage_map t' = match storage_key t key with
                     | Some k => spec_remove (storage_unique t) k r (storage_map t)
                     | None => storage_map t
                     end;
  storage_contains_law t key : storage_wf t →
    storage_contains t key = match storage_key t key with
                             | Some k => bool_decide (is_Some (storage_map t !! k))
                             | None => false
                             end;
  storage_cardinality_law t : storage_wf t → storage_cardinality t = Z.of_nat (size (storage_map t));
  storage_refs_law t key k : storage_wf t → storage_key t key = Some k →
    StronglySorted Z.lt (storage_row_refs_for_key t key None) ∧
    ∀ r, r ∈ storage_row_refs_for_key t key None ↔ r ∈ default ∅ (storage_map t !! k);
  storage_range_law t lower upper lo hi limit : storage_wf t →
    bound_by (storage_key t) lower = Some lo → bound_by (storage_key t) upper = Some hi →
    ∃ refs, storage_row_refs_for_key_range t lower upper limit = Some (truncate_refs limit refs) ∧
    StronglySorted Z.lt refs ∧
    ∀ r, r ∈ refs ↔ ∃ k, above lo k = true ∧ below hi k = true ∧ r ∈ default ∅ (storage_map t !! k)
}.

(** ** Indexors *)

(** [StringIndexor]: keys are folded before they reach the state, which folds them again. *)
Record StringIndexor := { string_state : RuntimeIndexState; case_insensitive : bool }.

(** The families of [DatatypeIndexor]; all but the first hold just a state. *)
Inductive DatatypeIndexor :=
| IxString (indexor : StringIndexor)
| IxSignedInteger (s : RuntimeIndexState)
| IxUnsignedInteger (s : RuntimeIndexState)
| IxFloat (s : RuntimeIndexState)
| IxDateTime (s : RuntimeIndexState)
| IxComposite (s : RuntimeIndexState).

Definition StringIndexor_new (i : DatabaseIndex) : StringIndexor :=
  {| string_state := set_string_case_insensitive true (set_index (Some i) RuntimeIndexState_new);
     case_insensitive := true |}.

(** The [new] of the other indexors. *)
Definition indexor_new (i : DatabaseIndex) : RuntimeIndexState := set_index (Some i) RuntimeIndexState_new.

Definition from_state (s : RuntimeIndexState) : DatatypeIndexor := IxComposite s.

Definition indexor_state (t : DatatypeIndexor) : RuntimeIndexState :=
  match t with
  | IxString i => string_state i
  | IxSignedInteger s | IxUnsignedInteger s | IxFloat s | IxDateTime s | IxComposite s => s
  end.

(** An update through [state_mut]. *)
Definition set_indexor_state (s : RuntimeIndexState) (t : DatatypeIndexor) : DatatypeIndexor :=
  match t with
  | IxString i => IxString {| string_state := s; case_insensitive := case_insensitive i |}
  | IxSignedInteger _ => IxSignedInteger s
  | IxUnsignedInteger _ => IxUnsignedInteger s
  | IxFloat _ => IxFloat s
  | IxDateTime _ => IxDateTime s
  | IxComposite _ => IxComposite s
  end.

Definition indexor_for_field_kind (i : DatabaseIndex) (field_kind : FieldKind) : DatatypeIndexor :=
  match field_kind with
  | FInt _ => IxSignedInteger (indexor_new i)
  | FUInt _ => IxUnsignedInteger (indexor_new i)
  | FFloat _ => IxFloat (indexor_new i)
  | FDate | FDateTime | FTimestamp => IxDateTime (indexor_new i)
  | FStringFixed _ | FText | FEnum _ | FUuid => IxString (StringIndexor_new i)
  | FSpatial | FBlob => IxComposite (indexor_new i)
  end.

Definition numeric_kind_for_field_kind (field_kind : FieldKind) : option RuntimeIndexNumericKind :=
  match field_kind with
  | FInt _ => Some KSigned
  | FUInt _ => Some KUnsigned
  | _ => None
  end.

Definition normalize_key (i : StringIndexor) (key : list bytes) : list bytes :=
  (λ value, normalize_runtime_index_string_key value (case_insensitive i)) <$> key.

Definition normalize_bound (i : StringIndexor) (b : RuntimeIndexRangeBound) : RuntimeIndexRangeBound :=
  {| bound_key := normalize_key i (bound_key b); inclusive := inclusive b |}.

Section indexors.
Context {value_list_bincode : Bincode (list bytes)} `{UuidText} `{BinarySearch}.

#[global] Instance state_storage : RuntimeIndexStorage RuntimeIndexState := {|
  storage_contains := contains;
  storage_insert := insert_with_row_ref;
  storage_remove := remove_with_row_ref;
  storage_cardinality := cardinality;
  storage_row_refs_for_key := row_refs_for_key;
  storage_row_refs_for_key_range := row_refs_for_key_range
|}.

#[global] Instance string_storage : RuntimeIndexStorage StringIndexor := {|
  storage_contains i key := contains (string_state i) (normalize_key i key);
  storage_insert key r i :=
    s ← insert_with_row_ref (normalize_key i key) r (string_state i);
    Some {| string_state := s; case_insensitive := case_insensitive i |};
  storage_remove key r i :=
    {| string_state := remove_with_row_ref (normalize_key i key) r (string_state i);
       case_insensitive := case_insensitive i |};
  storage_cardinality i := cardinality (string_state i);
  storage_row_refs_for_key i key limit := row_refs_for_key (string_state i) (normalize_key i key) limit;
  storage_row_refs_for_key_range i lower upper limit :=
    row_refs_for_key_range (string_state i) (normalize_bound i <$> lower) (normalize_bound i <$> upper) limit
|}.

(** [delegate_indexor!]. *)
#[global] Instance datatype_storage : RuntimeIndexStorage DatatypeIndexor := {|
  storage_contains t key :=
    match t with IxString i => storage_contains i key | _ => contains (indexor_state t) key end;
  storage_insert key r t :=
    match t with
    | IxString i => IxString <$> storage_insert key r i
    | _ => s ← insert_with_row_ref key r (indexor_state t); Some (set_indexor_state s t)
    end;
  storage_remove key r t :=
    match t with
    | IxString i => IxString (storage_remove key r i)
    | _ => set_indexor_state (remove_with_row_ref key r (indexor_state t)) t
    end;
  storage_cardinality t := cardinality (indexor_state t);
  storage_row_refs_for_key t key limit :=
    match t with
    | IxString i => storage_row_refs_for_key i key limit
    | _ => row_refs_for_key (indexor_state t) key limit
    end;
  storage_row_refs_for_key_range t lower upper limit :=
    match t with
    | IxString i => storage_row_refs_for_key_range i lower upper limit
    | _ => row_refs_for_key_range (indexor_state t) lower upper limit
    end
|}.
End indexors.

(** ** The indexors implement the contract *)

Section laws.
Context {value_list_bincode : Bincode (list bytes)} `{UuidText} `{BinarySearchLaws}.

Lemma bound_by_encode s b : bound_by (encode_key s) b = encode_bound s b.
Proof. destruct b as [b|]; [|done]. simpl. by destruct (encode_key s (bound_key b)). Qed.

Lemma same_config_unique s s' : same_config s s' → unique_or_unset s' = unique_or_unset s.
Proof. intros (Hi & _). unfold unique_or_unset. by rewrite Hi. Qed.

#[global] Program Instance state_storage_laws : RuntimeIndexStorageLaws RuntimeIndexState := {|
  storage_wf := state_wf;
  storage_key := encode_key;
  storage_unique := unique_or_unset;
  storage_map := index_map
|}.
Next Obligation.
  intros s key r Hwf Hr. destruct (insert_refines s key r Hwf Hr) as (s' & Hs' & Hwf' & Hc & Hm). exists s'.
  split_and!; [done|done|intros; by apply same_config_encode|by apply same_config_unique|done].
Qed.
Next Obligation.
  intros s key r Hwf Hr. destruct (remove_refines s key r Hwf Hr) as (Hwf' & Hc & Hm).
  split_and!; [done|intros; by apply same_config_encode|by apply same_config_unique|done].
Qed.
Next Obligation. intros s key _. apply contains_spec. Qed.
Next Obligation. intros s _. apply cardinality_spec. Qed.
Next Obligation. intros s key k. apply row_refs_for_key_map. Qed.
Next Obligation. intros s lower upper lo hi limit Hwf. rewrite !bound_by_encode. by apply range_scan. Qed.

Lemma bound_by_normalize i b :
  bound_by (λ key, encode_key (string_state i) (normalize_key i key)) b = encode_bound (string_state i) (normalize_bound i <$> b).
Proof. rewrite <-bound_by_encode. by destruct b. Qed.

#[global] Program Instance string_storage_laws : RuntimeIndexStorageLaws StringIndexor := {|
  storage_wf i := state_wf (string_state i);
  storage_key i key := encode_key (string_state i) (normalize_key i key);
  storage_unique i := unique_or_unset (string_state i);
  storage_map i := index_map (string_state i)
|}.
Next Obligation.
  intros i key r Hwf Hr. destruct (insert_refines (string_state i) (normalize_key i key) r Hwf Hr) as (s' & Hs' & Hwf' & Hc & Hm).
  simpl. rewrite Hs'. eexists. split; [done|].
  split_and!; [done|intros; by apply same_config_encode|by apply same_config_unique|done].
Qed.
Next Obligation.
  intros i key r Hwf Hr. destruct (remove_refines (string_state i) (normalize_key i key) r Hwf Hr) as (Hwf' & Hc & Hm).
  split_and!; [done|intros; by apply same_config_encode|by apply same_config_unique|done].
Qed.
Next Obligation. intros i key _. apply contains_spec. Qed.
Next Obligation. intros i _. apply cardinality_spec. Qed.
Next Obligation. intros i key k Hwf Hk. by apply row_refs_for_key_map. Qed.
Next Obligation.
  intros i lower upper lo hi limit Hwf Hlo Hhi.
  pose proof (bound_by_normalize i lower) as E1. pose proof (bound_by_normalize i upper) as E2.
  apply range_scan; [done|etrans; [symmetry; exact E1|exact Hlo]|etrans; [symmetry; exact E2|exact Hhi]].
Qed.

Definition datatype_key (t : DatatypeIndexor) (key : list bytes) : option bytes :=
  match t with IxString i => storage_key i key | _ => encode_key (indexor_state t) key end.

#[global] Program Instance datatype_storage_laws : RuntimeIndexStorageLaws DatatypeIndexor := {|
  storage_wf t := state_wf (indexor_state t);
  storage_key := datatype_key;
  storage_unique t := unique_or_unset (indexor_state t);
  storage_map t := index_map (indexor_state t)
|}.
Next Obligation.
  intros t key r Hwf Hr. destruct t as [i|s|s|s|s|s];
    [pose proof (storage_insert_law i key r) as Hl|pose proof (storage_insert_law s key r) as Hl..];
    destruct (Hl Hwf Hr) as (t' & Ht' & Hrest); cbn in Ht'; cbn; rewrite Ht'; by eexists.
Qed.
Next Obligation.
  intros t key r Hwf Hr. destruct t as [i|s|s|s|s|s];
    [pose proof (storage_remove_law i key r) as Hl|pose proof (storage_remove_law s key r) as Hl..]; exact (Hl Hwf Hr).
Qed.
Next Obligation.
  intros t key Hwf. destruct t as [i|s|s|s|s|s];
    [pose proof (storage_contains_law i key) as Hl|pose proof (storage_contains_law s key) as Hl..]; exact (Hl Hwf).
Qed.
Next Obligation. intros t Hwf. apply cardinality_spec. Qed.
Next Obligation.
  intros t key k Hwf Hk. destruct t as [i|s|s|s|s|s];
    [pose proof (storage_refs_law i key k) as Hl|pose proof (storage_refs_law s key k) as Hl..]; exact (Hl Hwf Hk).
Qed.
Next Obligation.
  intros t lower upper lo hi limit Hwf Hlo Hhi.
  destruct t as [i|s|s|s|s|s];
    [pose proof (storage_range_law i lower upper lo hi limit) as Hl|pose proof (storage_range_law s lower upper lo hi limit) as Hl..];
    exact (Hl Hwf Hlo Hhi).
Qed.

(** ** Clients of the contract *)

Section client.
Context {T : Type} {storage : RuntimeIndexStorage T} {laws : RuntimeIndexStorageLaws T}.

Lemma spec_insert_other {K} `{Countable K} uniq (k k' : K) r m : k' ≠ k → spec_insert uniq k r m !! k' = m !! k'.
Proof. intros Hne. pose proof (op_at_lookup uniq k k' (OpInsert [] r) m) as Hl. simpl in Hl. by rewrite Hl, decide_False. Qed.

Lemma spec_remove_other {K} `{Countable K} uniq (k k' : K) r m : k' ≠ k → spec_remove uniq k r m !! k' = m !! k'.
Proof. intros Hne. pose proof (op_at_lookup uniq k k' (OpRemove [] r) m) as Hl. simpl in Hl. by rewrite Hl, decide_False. Qed.

Lemma spec_insert_here {K} `{Countable K} uniq (k : K) r m :
  ∃ X, spec_insert uniq k (Some r) m !! k = Some X ∧ r ∈ X ∧ (uniq = false → default ∅ (m !! k) ⊆ X).
Proof. unfold spec_insert. destruct uniq; rewrite lookup_insert_eq; eexists; (split; [done|]); set_solver. Qed.

Lemma spec_remove_here {K} `{Countable K} uniq (k : K) r m : r ∉ (default ∅ (spec_remove uniq k (Some r) m !! k) : gset Z).
Proof.
  unfold spec_remove. destruct uniq; [rewrite lookup_delete_eq; simpl; set_solver|].
  destruct (m !! k) as [X|] eqn:E; [|rewrite E; simpl; set_solver]. case_decide.
  - rewrite lookup_delete_eq. simpl. set_solver.
  - rewrite lookup_insert_eq. simpl. set_solver.
Qed.

Lemma same_refs t t' key k : storage_wf t → storage_wf t' → storage_key t key = Some k → storage_key t' key = Some k →
  storage_map t' !! k = storage_map t !! k →
  storage_row_refs_for_key t' key None = storage_row_refs_for_key t key None.
Proof.
  intros Hwf Hwf' Hk Hk' Hm. destruct (storage_refs_law t key k Hwf Hk) as [Hs Hin], (storage_refs_law t' key k Hwf' Hk') as [Hs' Hin'].
  apply sorted_lt_unique; [done|done|]. intros r. by rewrite Hin, Hin', Hm.
Qed.

(** What the storage contract gives its clients, whichever indexor implements it: a reference
    inserted under a key is found under it, a non-unique key keeps its other references, removing the
    reference takes it away again, and keys with other encodings are not affected. *)
Theorem storage_insert_remove t key r k : storage_wf t → 0 ≤ r < u64_max → storage_key t key = Some k →
  ∃ t', storage_insert key (Some r) t = Some t' ∧ storage_contains t' key = true ∧
  r ∈ storage_row_refs_for_key t' key None ∧
  (storage_unique t = false → ∀ r', r' ∈ storage_row_refs_for_key t key None → r' ∈ storage_row_refs_for_key t' key None) ∧
  let t'' := storage_remove key (Some r) t' in
  r ∉ storage_row_refs_for_key t'' key None ∧
  ∀ key' k', storage_key t key' = Some k' → k' ≠ k →
    storage_row_refs_for_key t' key' None = storage_row_refs_for_key t key' None ∧
    storage_row_refs_for_key t'' key' None = storage_row_refs_for_key t key' None.
Proof.
  intros Hwf Hr Hk. assert (valid_ref (Some r)) as Hv by (intros ? [= <-]; done).
  destruct (storage_insert_law t key (Some r) Hwf Hv) as (t' & Ht' & Hwf' & Hkey' & Hu' & Hm'). rewrite Hk in Hm'.
  destruct (spec_insert_here (storage_unique t) k r (storage_map t)) as (X & HX & HrX & HoldX).
  pose proof (storage_remove_law t' key (Some r) Hwf' Hv) as (Hwf2 & Hkey2 & Hu2 & Hm2).
  pose proof (Hkey' key) as Hk'. rewrite Hk in Hk'. rewrite Hk' in Hm2. pose proof (Hkey2 key) as Hk2. rewrite Hk' in Hk2.
  destruct (storage_refs_law t key k Hwf Hk) as [_ Hin], (storage_refs_law t' key k Hwf' Hk') as [_ Hin'],
    (storage_refs_law _ key k Hwf2 Hk2) as [_ Hin2].
  exists t'. split; [done|]. cbv zeta. split_and!.
  - rewrite storage_contains_law, Hk', Hm', HX by done. by apply bool_decide_eq_true.
  - by rewrite Hin', Hm', HX.
  - intros Hu r' Hr'. rewrite Hin', Hm', HX. rewrite Hin in Hr'. by apply HoldX.
  - rewrite Hin2, Hm2. apply spec_remove_here.
  - intros key' k' Hkey Hne. pose proof (Hkey' key') as E1. rewrite Hkey in E1. pose proof (Hkey2 key') as E2. rewrite E1 in E2.
    split; [apply (same_refs t t' key' k'); try done; by rewrite Hm', spec_insert_other|].
    apply (same_refs t _ key' k'); [done..|]. by rewrite Hm2, spec_remove_other, Hm', spec_insert_other.
Qed.
End client.

(** ** Folded keys *)

Context {key_layout : ByteVecLayout}.

(** The columns whose indexor folds its keys. *)
Definition string_kind (field_kind : FieldKind) : Prop :=
  match field_kind with FStringFixed _ | FText | FEnum _ | FUuid => True | _ => False end.

Lemma fresh_wf s : entries s = ∅ → non_unique_row_refs s = ∅ → ordered_entry_keys s = None → state_wf s.
Proof. intros He Hp Ho. split; intros *; rewrite ?He, ?Hp, ?Ho, ?lookup_empty; done. Qed.

Lemma encode_single_inj a b : encode_runtime_index_entry_key [a] = encode_runtime_index_entry_key [b] → a = b.
Proof.
  rewrite !encode_single. intros E%(inj Some). apply (f_equal (drop 16)) in E.
  by rewrite !drop_app_length' in E by by rewrite length_entry_prefix.
Qed.

Lemma fold_byte_idemp c : fold_byte (fold_byte c) = fold_byte c.
Proof. by destruct c. Qed.

(** Two insertions into a unique index under keys [ka] and [kb]. *)
Lemma two_inserts {T} `{RuntimeIndexStorageLaws T} t a b ka kb r1 r2 :
  storage_wf t → storage_unique t = true → storage_map t = ∅ →
  storage_key t a = Some ka → storage_key t b = Some kb → 0 ≤ r1 < u64_max → 0 ≤ r2 < u64_max →
  ∃ t', (storage_insert a (Some r1) t ≫= storage_insert b (Some r2)) = Some t' ∧ storage_wf t' ∧
        (∀ key, storage_key t' key = storage_key t key) ∧ storage_unique t' = true ∧
        storage_map t' = <[kb := {[r2]}]> (<[ka := {[r1]}]> ∅).
Proof.
  intros Hwf Hu Hm Ha Hb Hr1 Hr2.
  destruct (storage_insert_law t a (Some r1) Hwf ltac:(intros ? [= <-]; done)) as (t1 & E1 & Hwf1 & Hk1 & Hu1 & Hm1).
  destruct (storage_insert_law t1 b (Some r2) Hwf1 ltac:(intros ? [= <-]; done)) as (t2 & E2 & Hwf2 & Hk2 & Hu2 & Hm2).
  exists t2. rewrite E1. split; [done|]. split; [done|]. split; [intros key; by rewrite Hk2, Hk1|].
  split; [by rewrite Hu2, Hu1|]. by rewrite Hm2, Hk1, Hb, Hu1, Hu, Hm1, Ha, Hu, Hm.
Qed.

Lemma single_refs {T} `{RuntimeIndexStorageLaws T} t key k r : storage_wf t → storage_key t key = Some k →
  storage_map t !! k = Some {[r]} → storage_row_refs_for_key t key None = [r].
Proof.
  intros Hwf Hk Hm. destruct (storage_refs_law t key k Hwf Hk) as [Hs Hin]. apply sorted_lt_unique; [done| |].
  - apply StronglySorted_cons. by split; [|constructor].
  - intros x. rewrite Hin, Hm. simpl. by rewrite elem_of_singleton, list_elem_of_singleton.
Qed.

(** Keys that differ only in ASCII case, byte by byte, are two keys of a unique index until the
    server restarts and one key after it.  The index of a new table is a composite one and keeps both rows
    apart; at the restart a text or UUID column gets the string indexor, which folds the bytes of its keys:
    the second row replaces the first, and deleting it removes the key of the other row.  UUIDs are stored
    in binary, where the folding merges unrelated values. *)
Theorem restart_folds_keys i field_kind a b r1 r2 :
  is_unique_key i = true → string_kind field_kind → a ≠ b → fold_byte <$> a = fold_byte <$> b →
  0 ≤ r1 < u64_max → 0 ≤ r2 < u64_max →
  (∃ t, (storage_insert [a] (Some r1) (from_state (indexor_new i)) ≫= storage_insert [b] (Some r2)) = Some t ∧
        storage_row_refs_for_key t [a] None = [r1] ∧ storage_row_refs_for_key t [b] None = [r2]) ∧
  (∃ t, (storage_insert [a] (Some r1) (indexor_for_field_kind i field_kind) ≫= storage_insert [b] (Some r2)) = Some t ∧
        storage_row_refs_for_key t [a] None = [r2] ∧
        storage_contains (storage_remove [b] (Some r2) t) [a] = false).
Proof.
  intros Hu Hk Hab Hfold Hr1 Hr2. split.
  - set (t := from_state (indexor_new i)).
    assert (∀ v, storage_key t [v] = Some (entry_prefix (length v) ++ v)) as Hkey by (intros v; apply encode_single).
    edestruct (two_inserts t [a] [b]) as (t' & E & Hwf' & Hk' & _ & Hm');
      [by apply fresh_wf|exact Hu|done|exact (Hkey a)|exact (Hkey b)|exact Hr1|exact Hr2|].
    exists t'. split; [done|].
    split; (eapply single_refs; [done|by rewrite Hk', Hkey|rewrite Hm']).
    + rewrite lookup_insert_ne, lookup_insert_eq; [done|]. intros Eq. apply Hab, encode_single_inj. by rewrite !encode_single, Eq.
    + by rewrite lookup_insert_eq.
  - set (t := indexor_for_field_kind i field_kind).
    assert (t = IxString (StringIndexor_new i)) as Ht by (subst t; by destruct field_kind).
    assert (∀ v, storage_key t [v] = encode_runtime_index_entry_key [fold_byte <$> v]) as Hkey.
    { intros v. rewrite Ht. change (encode_runtime_index_entry_key [fold_byte <$> (fold_byte <$> v)] = encode_runtime_index_entry_key [fold_byte <$> v]).
      do 2 f_equal. rewrite <-list_fmap_compose. apply list_fmap_ext. intros ? c _. apply fold_byte_idemp. }
    pose proof (Hkey a) as Ha. pose proof (Hkey b) as Hb. rewrite <-Hfold in Hb. rewrite encode_single in Ha, Hb.
    edestruct (two_inserts t [a] [b]) as (t' & E & Hwf' & Hk' & Hu' & Hm');
      [rewrite Ht; by apply fresh_wf|by rewrite Ht|by rewrite Ht|exact Ha|exact Hb|exact Hr1|exact Hr2|].
    exists t'. split; [done|]. rewrite <-Hk' in Ha, Hb. split.
    + eapply single_refs; [done|exact Ha|]. by rewrite Hm', lookup_insert_eq.
    + destruct (storage_remove_law t' [b] (Some r2) Hwf' ltac:(intros ? [= <-]; done)) as (Hwf2 & Hk2 & _ & Hm2).
      rewrite storage_contains_law, Hk2, Ha, Hm2, Hb, Hu' by done. unfold spec_remove. rewrite lookup_delete_eq. done.
Qed.
End laws.
