(* ===== verification/IndexStore.v ===== *)
(** * The runtime index store

    Models [RuntimeIndexStore] of [engine/database/indexing/runtime_index.rs]: the indexors of all tables by
    their scoped ids, how rows are recorded and removed one by one and in batches, how the indexes of a
    table are set up and rebuilt at bootstrap.  An [Arc] that is written through [make_mut] is a value.

    [IndexTracking.v] proves that under the row mutations of a table its indexes hold the keys of its live
    rows, and that a batch is its rows one after the other. *)

From Stdlib Require Import ZArith Lia Strings.Byte Sorting.Sorted.
From stdpp Require Import base list gmap sorting relations strings.
From S2P Require Import Prelude Record Wal Identifiers Text Schema RowCodec FieldValue.
From S2P Require Import Postings IndexKey DatabaseIndex RuntimeIndex RuntimeIndexFacts RuntimeIndexRange Indexors.

Local Open Scope Z_scope.

Record RuntimeIndexStore := {
  indexes : gmap ustr DatatypeIndexor;
  incremental_persist_last_saved_ms : gmap ustr Z
}.

Definition RuntimeIndexStore_new : RuntimeIndexStore :=
  {| indexes := ∅; incremental_persist_last_saved_ms := ∅ |}.

Definition set_indexes (m : gmap ustr DatatypeIndexor) (store : RuntimeIndexStore) : RuntimeIndexStore :=
  {| indexes := m; incremental_persist_last_saved_ms := incremental_persist_last_saved_ms store |}.

Definition scoped_index_id (table_scope_id index_id : ustr) : ustr := table_scope_id ++ lit "::" ++ index_id.

(** ** Index definitions and keys *)

Definition numeric_kind_for_index (i : DatabaseIndex) (schema : TableSchema) : option RuntimeIndexNumericKind :=
  name ← (match field_names i with
          | [name] => Some name
          | [] => if is_empty (index_field_name i) then None else Some (index_field_name i)
          | _ => None
          end);
  f ← field schema name;
  match field_type f with
  | FInt _ => Some KSigned
  | FUInt _ => Some KUnsigned
  | FFloat _ => Some KFloat
  | _ =>
      sql_type ← (metadata f ≫= original_sql_type);
      let sql_type := to_ascii_lowercase sql_type in
      if str_contains sql_type (lit "decimal") || str_contains sql_type (lit "numeric")
         || str_contains sql_type (lit "double") || str_contains sql_type (lit "float")
      then Some KFloat else None
  end.

(** [index_value_tuple] and [write_index_value_tuple]. *)
Definition index_value_tuple (i : DatabaseIndex) (row : row_map) : list bytes :=
  if is_empty (field_names i) && negb (is_empty (index_field_name i))
  then [default [] (row !! index_field_name i)]
  else (λ name, default [] (row !! name)) <$> field_names i.

Definition should_track_index (i : DatabaseIndex) : bool :=
  if is_temporary i then false else if is_unique_key i then true else true.

(** The indexes of a table as the write path sees them. *)
Definition derived_indexes_for_table (table_indexes : list DatabaseIndex) : list DatabaseIndex :=
  filter (λ i, origin i ≠ Temporary) table_indexes.

Definition primary_key_index (table_indexes : list DatabaseIndex) : option DatabaseIndex :=
  match list_find (λ i, is_primary_key i = true) table_indexes with
  | Some (_, i) => Some i
  | None => snd <$> list_find (λ i, starts_with (to_ascii_lowercase (index_id i)) (lit "pri:") = true) table_indexes
  end.

(** ** Access *)

Definition store_index (store : RuntimeIndexStore) (id : ustr) : option RuntimeIndexState :=
  indexor_state <$> indexes store !! id.

Definition index_for_table (store : RuntimeIndexStore) (table_scope_id id : ustr) : option RuntimeIndexState :=
  store_index store (scoped_index_id table_scope_id id).

(** The state for writing, created when the index is not there. *)
Definition update_index (id : ustr) (f : RuntimeIndexState → option RuntimeIndexState) (store : RuntimeIndexStore) :
    option RuntimeIndexStore :=
  let t := default (from_state RuntimeIndexState_new) (indexes store !! id) in
  s ← f (indexor_state t);
  Some (set_indexes (<[id := set_indexor_state s t]> (indexes store)) store).

Definition update_index_for_table (table_scope_id id : ustr) (f : RuntimeIndexState → option RuntimeIndexState)
    (store : RuntimeIndexStore) : option RuntimeIndexStore :=
  update_index (scoped_index_id table_scope_id id) f store.

Definition remove_index_for_table (table_scope_id id : ustr) (store : RuntimeIndexStore) : RuntimeIndexStore :=
  set_indexes (delete (scoped_index_id table_scope_id id) (indexes store)) store.

Definition remove_table_indexes (table_scope_id : ustr) (store : RuntimeIndexStore) : RuntimeIndexStore :=
  {| indexes := filter (λ e, starts_with e.1 (table_scope_id ++ lit "::") = false) (indexes store);
     incremental_persist_last_saved_ms := delete table_scope_id (incremental_persist_last_saved_ms store) |}.

Definition cardinality_for_table (store : RuntimeIndexStore) (table_scope_id id : ustr) : option Z :=
  cardinality <$> index_for_table store table_scope_id id.

Definition register_index (id : ustr) (i : DatabaseIndex) (store : RuntimeIndexStore) : RuntimeIndexStore :=
  if should_track_index i then
    if indexes store !! id is Some _ then store
    else set_indexes (<[id := from_state (indexor_new i)]> (indexes store)) store
  else store.

Definition register_index_for_table (table_scope_id : ustr) (i : DatabaseIndex) (store : RuntimeIndexStore) : RuntimeIndexStore :=
  register_index (scoped_index_id table_scope_id (index_id i)) i store.

Definition select_indexor_for_table (table_scope_id : ustr) (i : DatabaseIndex) (field_kind : FieldKind)
    (store : RuntimeIndexStore) : RuntimeIndexStore :=
  if should_track_index i
  then set_indexes (<[scoped_index_id table_scope_id (index_id i) := indexor_for_field_kind i field_kind]> (indexes store)) store
  else store.

(** Whether a scoped id is a form of an index id. *)
Definition matches_index_id (scoped_id normalized_index_id : ustr) : option ustr :=
  let by_name :=
    let normalized_scoped_id := normalize_identifier scoped_id in
    if str_eqb normalized_scoped_id normalized_index_id || ends_with normalized_scoped_id normalized_index_id
       || str_contains normalized_scoped_id normalized_index_id
    then Some scoped_id else None in
  match rsplit_once scoped_id (lit "::") with
  | Some (scope_id, id) => if str_eqb (normalize_identifier id) normalized_index_id then Some scope_id else by_name
  | None => by_name
  end.

Definition has_scoped_index_state (store : RuntimeIndexStore) (id : ustr) : bool :=
  existsb (λ e, negb (is_none (matches_index_id e.1 (normalize_identifier id)))) (map_to_list (indexes store)).

Section store.
Context {value_list_bincode : Bincode (list bytes)} `{UuidText} `{BinarySearch}.

(** [find_scoped_index_state_for_lookup]; [order] is the iteration order of the map. *)
Definition find_scoped_index_state_for_lookup (order : list (ustr * DatatypeIndexor)) (id : ustr) (lookup_key : list bytes) :
    option (ustr * RuntimeIndexState) :=
  let candidates := omap (λ e, (λ scope, (scope, indexor_state e.2)) <$> matches_index_id e.1 (normalize_identifier id)) order in
  snd <$> list_find (λ c, contains c.2 lookup_key = true) candidates.

(** ** Recording rows *)

(** [for index in indexes], skipping the indexes that are not tracked. *)
Fixpoint for_tracked (ixs : list DatabaseIndex) (f : DatabaseIndex → RuntimeIndexStore → option RuntimeIndexStore)
    (store : RuntimeIndexStore) : option RuntimeIndexStore :=
  match ixs with
  | [] => Some store
  | i :: ixs => store ← (if should_track_index i then f i store else Some store); for_tracked ixs f store
  end.

Definition record_state (i : DatabaseIndex) (row : row_map) (row_ref : option Z) (s : RuntimeIndexState) :
    option RuntimeIndexState :=
  insert_with_row_ref (index_value_tuple i row) row_ref (set_index (Some i) s).

Definition record_row_for_table (table_scope_id : ustr) (i : DatabaseIndex) (row : row_map) (row_ref : option Z)
    (store : RuntimeIndexStore) : option RuntimeIndexStore :=
  if should_track_index i
  then update_index_for_table table_scope_id (index_id i) (record_state i row row_ref) store
  else Some store.

Definition record_table_row_for_table (table_scope_id : ustr) (ixs : list DatabaseIndex) (row : row_map)
    (row_ref : option Z) : RuntimeIndexStore → option RuntimeIndexStore :=
  for_tracked ixs (λ i, update_index_for_table table_scope_id (index_id i) (record_state i row row_ref)).

Definition remove_table_row_for_table (table_scope_id : ustr) (ixs : list DatabaseIndex) (row : row_map)
    (row_ref : option Z) : RuntimeIndexStore → option RuntimeIndexStore :=
  for_tracked ixs (λ i, update_index_for_table table_scope_id (index_id i)
                         (λ s, Some (remove_with_row_ref (index_value_tuple i row) row_ref s))).

(** The rows of a batch with consecutive references. *)
Fixpoint insert_rows (i : DatabaseIndex) (row_ref : Z) (rows : list row_map) (s : RuntimeIndexState) :
    option RuntimeIndexState :=
  match rows with
  | [] => Some s
  | row :: rows =>
      s ← insert_with_row_ref (index_value_tuple i row) (Some row_ref) s;
      insert_rows i (saturating_add row_ref 1) rows s
  end.

Definition record_table_rows_batch_with_first_row_ref (table_scope_id : ustr) (ixs : list DatabaseIndex)
    (first_row_ref : Z) (rows : list row_map) (store : RuntimeIndexStore) : option RuntimeIndexStore :=
  if is_empty rows then Some store
  else
    for_tracked ixs (λ i, update_index_for_table table_scope_id (index_id i)
                           (λ s, insert_rows i first_row_ref rows (set_index (Some i) s))) store.

Fixpoint insert_unreferenced (i : DatabaseIndex) (rows : list row_map) (s : RuntimeIndexState) : option RuntimeIndexState :=
  match rows with
  | [] => Some s
  | row :: rows => s ← state_insert (index_value_tuple i row) s; insert_unreferenced i rows s
  end.

Definition record_table_rows_batch (table_scope_id : ustr) (ixs : list DatabaseIndex) (rows : list row_map)
    (store : RuntimeIndexStore) : option RuntimeIndexStore :=
  if is_empty rows then Some store
  else
    for_tracked ixs (λ i, update_index_for_table table_scope_id (index_id i)
                           (λ s, insert_unreferenced i rows (set_index (Some i) s))) store.

Definition remove_table_rows_batch (table_scope_id : ustr) (ixs : list DatabaseIndex) (rows : list row_map)
    (store : RuntimeIndexStore) : option RuntimeIndexStore :=
  if is_empty rows then Some store
  else
    for_tracked ixs (λ i, update_index_for_table table_scope_id (index_id i)
                           (λ s, Some (foldl (λ s row, state_remove (index_value_tuple i row) s) s rows))) store.

Definition apply_table_row_mutation (table_scope_id : ustr) (ixs : list DatabaseIndex) (kind : TransactionKind)
    (latest_tx_id : Z) (row : row_map) (row_ref : option Z) (store : RuntimeIndexStore) : option RuntimeIndexStore :=
  match kind with
  | Ignore => Some store
  | Delete => remove_table_row_for_table table_scope_id ixs row row_ref store
  | Insert | Update => record_table_row_for_table table_scope_id ixs row (Some latest_tx_id) store
  | _ => Some store
  end.

Definition merge_from (other store : RuntimeIndexStore) : RuntimeIndexStore :=
  set_indexes (indexes other ∪ indexes store) store.

(** ** Bootstrap *)

(** The setup of one tracked index of a table. *)
Definition bootstrap_index (table_scope_id : ustr) (schema : TableSchema) (i : DatabaseIndex) (store : RuntimeIndexStore) :
    option RuntimeIndexStore :=
  let store := register_index_for_table table_scope_id i store in
  let field_kind :=
    match field_names i with
    | [name] => field_type <$> field schema name
    | [] => if is_empty (index_field_name i) then None else field_type <$> field schema (index_field_name i)
    | _ => None
    end in
  let store := match field_kind with Some k => select_indexor_for_table table_scope_id i k store | None => store end in
  update_index_for_table table_scope_id (index_id i) (λ s, Some (set_numeric_kind (numeric_kind_for_index i schema) s)) store.

(** The state of an index rebuilt from the live rows; chunking them does not change the loop. *)
Fixpoint insert_live_rows (i : DatabaseIndex) (live_rows : list (Z * row_map)) (s : RuntimeIndexState) :
    option RuntimeIndexState :=
  match live_rows with
  | [] => Some s
  | (row_id, row) :: rest =>
      s ← insert_with_row_ref (index_value_tuple i row) (Some row_id) s; insert_live_rows i rest s
  end.

Fixpoint rebuild_bootstrap_indexes_from_live_rows (table_stream_id : ustr) (tracked : list DatabaseIndex)
    (live_rows : list (Z * row_map)) (store : RuntimeIndexStore) : option RuntimeIndexStore :=
  match tracked with
  | [] => Some store
  | i :: rest =>
      store ← update_index_for_table table_stream_id (index_id i)
                (λ s, insert_live_rows i live_rows (set_maps ∅ ∅ (ordered_entry_keys s) (set_index (Some i) s))) store;
      rebuild_bootstrap_indexes_from_live_rows table_stream_id rest live_rows store
  end.
End store.
