(* ===== verification/IndexTracking.v ===== *)
(** * Indexes and live rows

    The store of runtime indexes follows the row mutations of a table.  [tracks] says that an index holds
    exactly the keys of a list of live rows; recording an inserted row, removing a deleted one and
    rebuilding at bootstrap establish and keep it, for all indexes of a table at once.  The state machine
    is [table_step]; recording a batch of rows is recording them one by one. *)

From Stdlib Require Import ZArith Lia Strings.Byte Sorting.Sorted.
From stdpp Require Import base list gmap sorting relations strings.
From S2P Require Import Prelude Record Wal Identifiers Text Schema RowCodec FieldValue.
From S2P Require Import Postings IndexKey DatabaseIndex RuntimeIndex RuntimeIndexFacts RuntimeIndexRange Indexors.
From S2P Require Import IndexStore.

Local Open Scope Z_scope.

Section tracking.
Context {value_list_bincode : Bincode (list bytes)} `{UuidText} `{BinarySearchLaws}.

(** ** One index *)

(** The live rows that have an encoded key. *)
Definition rows_at (s : RuntimeIndexState) (ix : DatabaseIndex) (live : list (Z * row_map)) (k : bytes) (e : Z * row_map) : Prop :=
  e ∈ live ∧ encode_key s (index_value_tuple ix e.2) = Some k.

Record tracks (ix : DatabaseIndex) (live : list (Z * row_map)) (s : RuntimeIndexState) : Prop := {
  tr_wf : state_wf s;
  tr_index : index s = Some ix;
  tr_refs k r : r ∈ default ∅ (index_map s !! k) ↔ ∃ row, rows_at s ix live k (r, row);
  tr_keys k : is_Some (index_map s !! k) → ∃ e, rows_at s ix live k e;
  tr_unique k e e' : is_unique_key ix = true → rows_at s ix live k e → rows_at s ix live k e' → e.1 = e'.1
}.

(** The ids of live rows are distinct transaction ids. *)
Definition live_ok (live : list (Z * row_map)) : Prop := NoDup (fst <$> live) ∧ ∀ e, e ∈ live → 0 ≤ e.1 < u64_max.

Lemma set_index_id ix s : index s = Some ix → set_index (Some ix) s = s.
Proof. destruct s. simpl. by intros ->. Qed.

Lemma rows_at_config s s' ix live k e : same_config s s' → rows_at s' ix live k e ↔ rows_at s ix live k e.
Proof. intros Hc. unfold rows_at. by rewrite (same_config_encode s s'). Qed.

Lemma tracks_present ix live s k : tracks ix live s → is_Some (index_map s !! k) ↔ ∃ e, rows_at s ix live k e.
Proof.
  intros Ht. split; [apply (tr_keys _ _ _ Ht)|]. intros ([r row] & He).
  assert (r ∈ default ∅ (index_map s !! k)) as Hr by (apply (tr_refs _ _ _ Ht); eauto).
  destruct (index_map s !! k); [done|]. simpl in Hr. set_solver.
Qed.

Lemma unique_of_index s ix : index s = Some ix → unique_or_unset s = is_unique_key ix.
Proof. unfold unique_or_unset. by intros ->. Qed.

Lemma rows_at_snoc s ix live k id row e :
  rows_at s ix (live ++ [(id, row)]) k e ↔
  rows_at s ix live k e ∨ e = (id, row) ∧ encode_key s (index_value_tuple ix row) = Some k.
Proof. unfold rows_at. rewrite elem_of_app, list_elem_of_singleton. naive_solver. Qed.

Lemma record_tracks ix live s id row : tracks ix live s → 0 ≤ id < u64_max →
  (is_unique_key ix = true → contains s (index_value_tuple ix row) = false) →
  ∃ s', record_state ix row (Some id) s = Some s' ∧ same_config s s' ∧ tracks ix (live ++ [(id, row)]) s'.
Proof.
  intros Ht Hid Hfree. unfold record_state. rewrite (set_index_id ix s) by apply Ht.
  destruct (insert_refines s (index_value_tuple ix row) (Some id)) as (s' & Hs' & Hwf' & Hc & Hm);
    [apply Ht|by intros ? [= <-]|]. exists s'. split; [done|]. split; [done|].
  rewrite (unique_of_index s ix) in Hm by apply Ht. rewrite contains_spec in Hfree.
  destruct (encode_key s (index_value_tuple ix row)) as [k0|] eqn:Ek.
  2: { split; [done|rewrite (proj1 Hc); apply Ht|..].
       - intros k r. rewrite Hm, (tr_refs _ _ _ Ht). setoid_rewrite (rows_at_config s s'); [|done]. setoid_rewrite rows_at_snoc. naive_solver.
       - intros k. rewrite Hm. setoid_rewrite (rows_at_config s s'); [|done]. intros (e & He)%(tr_keys _ _ _ Ht). exists e. apply rows_at_snoc. by left.
       - intros k e e' Hu. rewrite !(rows_at_config s s'), !rows_at_snoc by done. intros [He|[_ ?]] [He'|[_ ?]]; try congruence. by eapply (tr_unique _ _ _ Ht). }
  assert (is_unique_key ix = true → ∀ e, ¬ rows_at s ix live k0 e) as Hnone.
  { intros Hu e He. specialize (Hfree Hu). apply bool_decide_eq_false in Hfree. apply Hfree, (tracks_present ix live); eauto. }
  assert (∀ k r, r ∈ default ∅ (index_map s' !! k) ↔ (k = k0 ∧ r = id) ∨ r ∈ default ∅ (index_map s !! k)) as Hrefs.
  { intros k r. rewrite Hm. destruct (decide (k = k0)) as [-> |Hne]; [|rewrite spec_insert_other by done; naive_solver].
    unfold spec_insert. destruct (is_unique_key ix) eqn:Hu; rewrite lookup_insert_eq; simpl.
    - rewrite elem_of_singleton. split; [naive_solver|]. intros [[_ ->]|Hr]; [done|].
      apply (tr_refs _ _ _ Ht) in Hr as (row' & Hr). destruct (Hnone eq_refl _ Hr).
    - rewrite elem_of_union, elem_of_singleton. naive_solver. }
  split; [done|rewrite (proj1 Hc); apply Ht|..].
  - intros k r. rewrite Hrefs, (tr_refs _ _ _ Ht). setoid_rewrite (rows_at_config s s'); [|done]. setoid_rewrite rows_at_snoc. naive_solver.
  - intros k Hk. setoid_rewrite (rows_at_config s s'); [|done]. destruct (decide (k = k0)) as [-> |Hne].
    + exists (id, row). apply rows_at_snoc. by right.
    + rewrite Hm, spec_insert_other in Hk by done. apply (tr_keys _ _ _ Ht) in Hk as (e & He). exists e. apply rows_at_snoc. by left.
  - intros k e e' Hu. rewrite !(rows_at_config s s'), !rows_at_snoc by done. intros [He|[-> E]] [He'|[-> E']]; simpl.
    + by eapply (tr_unique _ _ _ Ht).
    + assert (k = k0) as -> by congruence. destruct (Hnone Hu _ He).
    + assert (k = k0) as -> by congruence. destruct (Hnone Hu _ He').
    + done.
Qed.

(** The live rows without one. *)
Definition without_row (id : Z) (live : list (Z * row_map)) : list (Z * row_map) := filter (λ e, e.1 ≠ id) live.

Lemma rows_at_without s ix live k id e :
  rows_at s ix (without_row id live) k e ↔ rows_at s ix live k e ∧ e.1 ≠ id.
Proof. unfold rows_at, without_row. rewrite list_elem_of_filter. naive_solver. Qed.

Lemma live_same_id live e e' : live_ok live → e ∈ live → e' ∈ live → e.1 = e'.1 → e = e'.
Proof.
  intros [Hn _] He He' E. apply list_elem_of_lookup in He as [i Hi], He' as [j Hj].
  assert (i = j) as ->; [|congruence].
  apply (NoDup_lookup (fst <$> live) i j e.1 Hn); rewrite list_lookup_fmap; [by rewrite Hi|by rewrite Hj, E].
Qed.

Lemma tracks_nonempty ix live s k X : tracks ix live s → index_map s !! k = Some X → X ≠ ∅.
Proof.
  intros Ht EX. destruct (tr_keys _ _ _ Ht k) as ([r row] & He); [by rewrite EX|].
  assert (r ∈ default ∅ (index_map s !! k)) as Hr by (apply (tr_refs _ _ _ Ht); eauto). rewrite EX in Hr. simpl in Hr. set_solver.
Qed.

Lemma spec_remove_nonempty {K} `{Countable K} uniq (k0 k : K) r m X :
  (∀ k X, m !! k = Some X → X ≠ ∅) → spec_remove uniq k0 r m !! k = Some X → X ≠ ∅.
Proof.
  intros Hm. unfold spec_remove. destruct uniq; [intros [_ ?]%lookup_delete_Some; by eapply Hm|].
  destruct (m !! k0) as [Y|]; [|apply Hm]. case_decide; [intros [_ ?]%lookup_delete_Some; by eapply Hm|].
  intros [[_ <-]|[_ ?]]%lookup_insert_Some; [done|by eapply Hm].
Qed.

Lemma remove_tracks ix live s id row : tracks ix live s → live_ok live → (id, row) ∈ live →
  tracks ix (without_row id live) (remove_with_row_ref (index_value_tuple ix row) (Some id) s).
Proof.
  intros Ht Hlive Hin. pose proof (proj2 Hlive _ Hin) as Hid. simpl in Hid.
  destruct (remove_refines s (index_value_tuple ix row) (Some id)) as (Hwf' & Hc & Hm); [apply Ht|by intros ? [= <-]|].
  set (s' := remove_with_row_ref _ _ s) in *. rewrite (unique_of_index s ix) in Hm by apply Ht.
  assert (∀ e, e ∈ live → e.1 = id → e = (id, row)) as Honly by (intros e He E; by apply (live_same_id live)).
  assert (∀ k r, r ∈ default ∅ (index_map s' !! k) ↔ r ∈ default ∅ (index_map s !! k) ∧ r ≠ id) as Hrefs.
  { intros k r. rewrite Hm. destruct (encode_key s (index_value_tuple ix row)) as [k0|] eqn:Ek.
    2: { split; [|by intros []]. intros Hr. split; [done|]. intros ->. apply (tr_refs _ _ _ Ht) in Hr as (row' & Hl & He).
         specialize (Honly _ Hl eq_refl) as [= ->]. simpl in He. congruence. }
    destruct (decide (k = k0)) as [-> |Hne].
    2: { rewrite spec_remove_other by done. split; [|by intros []]. intros Hr. split; [done|]. intros ->.
         apply (tr_refs _ _ _ Ht) in Hr as (row' & Hl & He). specialize (Honly _ Hl eq_refl) as [= ->]. simpl in He. congruence. }
    unfold spec_remove. destruct (is_unique_key ix) eqn:Hu.
    - rewrite lookup_delete_eq. simpl. split; [set_solver|]. intros [Hr Hne]. apply (tr_refs _ _ _ Ht) in Hr as (row' & Hr).
      assert ((r, row').1 = (id, row).1) as E by (eapply (tr_unique _ _ _ Ht); [done|exact Hr|by split]). simpl in E. lia.
    - destruct (index_map s !! k0) as [X|] eqn:EX; [|rewrite EX; simpl; set_solver]. case_decide as Hd.
      + rewrite lookup_delete_eq. simpl. set_solver.
      + rewrite lookup_insert_eq. simpl. set_solver. }
  split; [done|rewrite (proj1 Hc); apply Ht|..].
  - intros k r. rewrite Hrefs, (tr_refs _ _ _ Ht). setoid_rewrite (rows_at_config s s'); [|done]. setoid_rewrite rows_at_without. naive_solver.
  - intros k Hk. setoid_rewrite (rows_at_config s s'); [|done]. setoid_rewrite rows_at_without.
    destruct Hk as [X EX]. destruct (set_choose_L X) as [r Hr].
    { rewrite Hm in EX. destruct (encode_key s _); [|by eapply tracks_nonempty].
      eapply spec_remove_nonempty, EX. intros k' X'. by apply (tracks_nonempty ix live). }
    assert (r ∈ default ∅ (index_map s' !! k)) as Hr' by by rewrite EX. clear Hr. rename Hr' into Hr.
    apply Hrefs in Hr as [Hr Hne]. apply (tr_refs _ _ _ Ht) in Hr as (row' & Hr). by exists (r, row').
  - intros k e e' Hu. rewrite !(rows_at_config s s'), !rows_at_without by done. intros [He _] [He' _]. by eapply (tr_unique _ _ _ Ht).
Qed.

(** ** All indexes of a table *)

Lemma scoped_index_id_inj scope id id' : scoped_index_id scope id = scoped_index_id scope id' → id = id'.
Proof. unfold scoped_index_id. by intros E%app_inv_head%app_inv_head. Qed.

Lemma indexor_state_set s t : indexor_state (set_indexor_state s t) = s.
Proof. by destruct t. Qed.

(** The state an update starts from. *)
Definition state_of (store : RuntimeIndexStore) (id : ustr) : RuntimeIndexState :=
  indexor_state (default (from_state RuntimeIndexState_new) (indexes store !! id)).

Lemma update_index_spec id f store s : f (state_of store id) = Some s →
  ∃ store', update_index id f store = Some store' ∧ store_index store' id = Some s ∧ state_of store' id = s ∧
            ∀ id', id' ≠ id → indexes store' !! id' = indexes store !! id'.
Proof.
  intros Hf. unfold update_index. unfold state_of in Hf. rewrite Hf. cbn [mbind option_bind]. eexists. split; [done|].
  unfold store_index, state_of. cbn [indexes set_indexes]. rewrite !lookup_insert_eq. simpl. rewrite indexor_state_set.
  split; [done|]. split; [done|]. intros id' Hne. by rewrite lookup_insert_ne.
Qed.

(** A loop over the indexes of a table updates each of them once. *)
Lemma for_tracked_spec scope (P Q : DatabaseIndex → RuntimeIndexState → Prop)
    (f : DatabaseIndex → RuntimeIndexState → option RuntimeIndexState) ixs store :
  NoDup (index_id <$> ixs) →
  (∀ ix s, ix ∈ ixs → P ix s → ∃ s', f ix s = Some s' ∧ Q ix s') →
  (∀ ix, ix ∈ ixs → should_track_index ix = true → P ix (state_of store (scoped_index_id scope (index_id ix)))) →
  ∃ store', for_tracked ixs (λ ix, update_index_for_table scope (index_id ix) (f ix)) store = Some store' ∧
    (∀ ix, ix ∈ ixs → should_track_index ix = true →
       ∃ s, store_index store' (scoped_index_id scope (index_id ix)) = Some s ∧ Q ix s) ∧
    (∀ id, (∀ ix, ix ∈ ixs → id ≠ scoped_index_id scope (index_id ix)) → indexes store' !! id = indexes store !! id).
Proof.
  revert store. induction ixs as [|ix ixs IH]; intros store Hn Hf HP; cbn [for_tracked].
  { exists store. split; [done|]. split; [|done]. by intros ? ?%not_elem_of_nil. }
  rewrite fmap_cons, NoDup_cons in Hn. destruct Hn as [Hnot Hn].
  assert (∀ ix', ix' ∈ ixs → scoped_index_id scope (index_id ix') ≠ scoped_index_id scope (index_id ix)) as Hdiff.
  { intros ix' Hix' E%scoped_index_id_inj. apply Hnot. rewrite <-E. by apply list_elem_of_fmap_2. }
  assert (∃ store1, (if should_track_index ix then update_index_for_table scope (index_id ix) (f ix) store else Some store) = Some store1 ∧
    (should_track_index ix = true → ∃ s, store_index store1 (scoped_index_id scope (index_id ix)) = Some s ∧ Q ix s) ∧
    ∀ id', id' ≠ scoped_index_id scope (index_id ix) → indexes store1 !! id' = indexes store !! id') as (store1 & E1 & Hq & Hother).
  { destruct (should_track_index ix) eqn:Et; [|by exists store].
    destruct (Hf ix _ ltac:(by left) (HP ix ltac:(by left) Et)) as (s & Hs & HQ).
    destruct (update_index_spec _ _ _ _ Hs) as (store1 & E1 & Hi & _ & Ho). exists store1. split; [done|]. split; [|done]. by exists s. }
  rewrite E1. cbn [mbind option_bind]. destruct (IH store1 Hn) as (store2 & E2 & Hall & Ho2).
  - intros ix' s Hix'. apply Hf. by right.
  - intros ix' Hix' Ht. unfold state_of. rewrite Hother by by apply Hdiff. apply HP; [by right|done].
  - exists store2. split; [done|]. split.
    + intros ix' [-> |Hix']%elem_of_cons Ht; [|by apply Hall]. destruct (Hq Ht) as (s & Hs & HQ). exists s. split; [|done].
      unfold store_index in *. rewrite Ho2; [done|]. intros ix' Hix' E. by apply (Hdiff ix' Hix').
    + intros id Hid. rewrite Ho2, Hother; [done|apply Hid; by left|]. intros ix' Hix'. apply Hid. by right.
Qed.

Definition store_tracks (scope : ustr) (ixs : list DatabaseIndex) (live : list (Z * row_map)) (store : RuntimeIndexStore) : Prop :=
  ∀ ix, ix ∈ ixs → should_track_index ix = true →
    ∃ s, index_for_table store scope (index_id ix) = Some s ∧ tracks ix live s.

Lemma store_tracks_state scope ixs live store ix : store_tracks scope ixs live store → ix ∈ ixs → should_track_index ix = true →
  tracks ix live (state_of store (scoped_index_id scope (index_id ix))).
Proof.
  intros Hst Hix Ht. destruct (Hst ix Hix Ht) as (s & Hs & Htr). unfold index_for_table, store_index in Hs. unfold state_of.
  destruct (indexes store !! _); [|done]. simpl in Hs |- *. by injection Hs as ->.
Qed.

(** The unique indexes do not have the key of a new row. *)
Definition no_conflict (scope : ustr) (ixs : list DatabaseIndex) (store : RuntimeIndexStore) (row : row_map) : Prop :=
  ∀ ix s, ix ∈ ixs → is_unique_key ix = true → index_for_table store scope (index_id ix) = Some s →
    contains s (index_value_tuple ix row) = false.

Lemma store_record scope ixs live store id row : NoDup (index_id <$> ixs) → store_tracks scope ixs live store →
  0 ≤ id < u64_max → no_conflict scope ixs store row →
  ∃ store', record_table_row_for_table scope ixs row (Some id) store = Some store' ∧
            store_tracks scope ixs (live ++ [(id, row)]) store'.
Proof.
  intros Hn Hst Hid Hfree. destruct (for_tracked_spec scope
    (λ ix s, tracks ix live s ∧ (is_unique_key ix = true → contains s (index_value_tuple ix row) = false))
    (λ ix s, tracks ix (live ++ [(id, row)]) s) (λ ix, record_state ix row (Some id)) ixs store Hn) as (store' & E & Hq & _).
  - intros ix s _ [Ht Hc]. destruct (record_tracks ix live s id row Ht Hid Hc) as (s' & ? & _ & ?). by exists s'.
  - intros ix Hix Ht. split; [by eapply store_tracks_state|]. intros Hu. destruct (Hst ix Hix Ht) as (s & Hs & _).
    pose proof (Hfree ix s Hix Hu Hs) as Hc. unfold index_for_table, store_index in Hs. unfold state_of.
    destruct (indexes store !! _); [|done]. simpl in Hs |- *. by injection Hs as ->.
  - exists store'. split; [done|]. exact Hq.
Qed.

Lemma store_remove scope ixs live store id row : NoDup (index_id <$> ixs) → store_tracks scope ixs live store →
  live_ok live → (id, row) ∈ live →
  ∃ store', remove_table_row_for_table scope ixs row (Some id) store = Some store' ∧
            store_tracks scope ixs (without_row id live) store'.
Proof.
  intros Hn Hst Hl Hin. destruct (for_tracked_spec scope (λ ix s, tracks ix live s) (λ ix s, tracks ix (without_row id live) s)
    (λ ix s, Some (remove_with_row_ref (index_value_tuple ix row) (Some id) s)) ixs store Hn) as (store' & E & Hq & _).
  - intros ix s _ Ht. eexists. split; [done|]. by apply remove_tracks.
  - intros ix Hix Ht. by eapply store_tracks_state.
  - exists store'. split; [done|]. exact Hq.
Qed.

(** ** The table and its indexes as a state machine *)

(** A row is inserted under a new id, after the unique indexes were asked; or a live row is deleted. *)
Inductive table_step (scope : ustr) (ixs : list DatabaseIndex) :
    RuntimeIndexStore * list (Z * row_map) → RuntimeIndexStore * list (Z * row_map) → Prop :=
| step_insert store live store' id row refid :
    id ∉ fst <$> live → 0 ≤ id < u64_max → no_conflict scope ixs store row →
    apply_table_row_mutation scope ixs Insert id row refid store = Some store' →
    table_step scope ixs (store, live) (store', live ++ [(id, row)])
| step_delete store live store' id row latest :
    (id, row) ∈ live →
    apply_table_row_mutation scope ixs Delete latest row (Some id) store = Some store' →
    table_step scope ixs (store, live) (store', without_row id live).

Lemma live_ok_snoc live id row : live_ok live → id ∉ fst <$> live → 0 ≤ id < u64_max → live_ok (live ++ [(id, row)]).
Proof.
  intros [Hn Hb] Hid Hr. split.
  - rewrite fmap_app. apply NoDup_app. split; [done|]. split; [|apply NoDup_singleton].
    intros x Hx Hx'. simpl in Hx'. apply list_elem_of_singleton in Hx' as ->. done.
  - intros e [He| ->%list_elem_of_singleton]%elem_of_app; [by apply Hb|done].
Qed.

Lemma live_ok_without live id : live_ok live → live_ok (without_row id live).
Proof.
  intros [Hn Hb]. split; [|intros e [_ He]%list_elem_of_filter; by apply Hb].
  clear Hb. unfold without_row. induction live as [|e live IH]; [done|]. rewrite fmap_cons, NoDup_cons in Hn. destruct Hn as [Hnot Hn].
  rewrite filter_cons. case_decide; [|by apply IH]. rewrite fmap_cons. apply NoDup_cons. split; [|by apply IH].
  intros (e' & E & [_ He']%list_elem_of_filter)%list_elem_of_fmap. apply Hnot. rewrite E. by apply list_elem_of_fmap_2.
Qed.

Lemma table_step_tracks scope ixs st st' : NoDup (index_id <$> ixs) → table_step scope ixs st st' →
  live_ok st.2 → store_tracks scope ixs st.2 st.1 → live_ok st'.2 ∧ store_tracks scope ixs st'.2 st'.1.
Proof.
  intros Hn Hstep Hl Hst. destruct Hstep as [store live store' id row refid Hid Hr Hfree E|store live store' id row latest Hin E]; simpl in *.
  - destruct (store_record scope ixs live store id row Hn Hst Hr Hfree) as (store1 & E1 & Hst1).
    assert (store1 = store') as -> by congruence. split; [by apply live_ok_snoc|done].
  - destruct (store_remove scope ixs live store id row Hn Hst Hl Hin) as (store1 & E1 & Hst1).
    assert (store1 = store') as -> by congruence. split; [by apply live_ok_without|done].
Qed.

Lemma table_steps_track scope ixs st st' : NoDup (index_id <$> ixs) → rtc (table_step scope ixs) st st' →
  live_ok st.2 → store_tracks scope ixs st.2 st.1 → live_ok st'.2 ∧ store_tracks scope ixs st'.2 st'.1.
Proof.
  intros Hn Hrtc. induction Hrtc as [st|st st1 st2 Hstep _ IH]; intros Hl Hst; [done|].
  destruct (table_step_tracks scope ixs st st1 Hn Hstep Hl Hst) as [Hl1 Hst1]. by apply IH.
Qed.

(** What an index that tracks the live rows answers. *)
Definition answers (ix : DatabaseIndex) (live : list (Z * row_map)) (s : RuntimeIndexState) : Prop :=
  ∀ key k, encode_key s key = Some k →
    (contains s key = true ↔ ∃ e, rows_at s ix live k e) ∧
    (∀ r, r ∈ row_refs_for_key s key None ↔ ∃ row, rows_at s ix live k (r, row)).

Lemma tracks_answers ix live s : tracks ix live s → answers ix live s.
Proof.
  intros Ht key k Hk. split.
  - rewrite contains_spec, Hk, bool_decide_eq_true. by apply tracks_present.
  - intros r. destruct (row_refs_for_key_map s key k (tr_wf _ _ _ Ht) Hk) as [_ Hin]. rewrite Hin. apply (tr_refs _ _ _ Ht).
Qed.

(** C9: The runtime indexes of a table follow its rows.  From a store whose indexes hold the keys of the
    live rows, however rows are inserted (after the unique indexes were asked for a conflict) and live
    rows deleted, every index answers exactly for the live rows: a key is contained when a live row has
    it, and its references are the ids of those rows.  No mutation panics. *)
Theorem index_tracks_live_rows scope ixs store live store' live' :
  NoDup (index_id <$> ixs) → live_ok live → store_tracks scope ixs live store →
  rtc (table_step scope ixs) (store, live) (store', live') →
  (∀ ix, ix ∈ ixs → should_track_index ix = true →
     ∃ s, index_for_table store' scope (index_id ix) = Some s ∧ answers ix live' s) ∧
  (∀ id row refid, 0 ≤ id < u64_max → no_conflict scope ixs store' row →
     is_Some (apply_table_row_mutation scope ixs Insert id row refid store')) ∧
  (∀ id row latest, (id, row) ∈ live' → is_Some (apply_table_row_mutation scope ixs Delete latest row (Some id) store')).
Proof.
  intros Hn Hl Hst Hrtc.
  assert (live_ok live' ∧ store_tracks scope ixs live' store') as [Hl' Hst'].
  { by apply (table_steps_track scope ixs _ _ Hn Hrtc). }
  split_and!.
  - intros ix Hix Ht. destruct (Hst' ix Hix Ht) as (s & Hs & Htr). exists s. split; [done|]. by apply tracks_answers.
  - intros id row refid Hid Hfree. destruct (store_record scope ixs live' store' id row Hn Hst' Hid Hfree) as (store2 & E & _). by exists store2.
  - intros id row latest Hin. destruct (store_remove scope ixs live' store' id row Hn Hst' Hl' Hin) as (store2 & E & _). by exists store2.
Qed.

(** ** Bootstrap *)

(** Different rows have different keys, where they have keys. *)
Definition unique_rows (s : RuntimeIndexState) (ix : DatabaseIndex) (live : list (Z * row_map)) : Prop :=
  ∀ k e e', rows_at s ix live k e → rows_at s ix live k e' → e.1 = e'.1.

Lemma insert_live_rows_tracks ix done rest s : tracks ix done s → live_ok (done ++ rest) →
  (is_unique_key ix = true → unique_rows s ix (done ++ rest)) →
  ∃ s', insert_live_rows ix rest s = Some s' ∧ tracks ix (done ++ rest) s'.
Proof.
  revert done s. induction rest as [|[id row] rest IH]; intros done s Ht Hl Hu; cbn [insert_live_rows].
  { exists s. by rewrite app_nil_r. }
  destruct (record_tracks ix done s id row Ht) as (s1 & E1 & Hc1 & Ht1).
  - apply (proj2 Hl (id, row)). set_solver.
  - intros Huniq. rewrite contains_spec. destruct (encode_key s (index_value_tuple ix row)) as [k|] eqn:Ek; [|done].
    apply bool_decide_eq_false. intros Hk. apply (tracks_present ix done) in Hk as (e & He & Hke); [|done].
    assert (e.1 = (id, row).1) as E by (apply (Hu Huniq k); split; (done || set_solver)). destruct Hl as [Hn _].
    rewrite fmap_app, fmap_cons in Hn. apply NoDup_app in Hn as (_ & Hd & _). apply (Hd e.1); [by apply list_elem_of_fmap_2|rewrite E; by left].
  - unfold record_state in E1. rewrite (set_index_id ix s) in E1 by apply Ht. rewrite E1. cbn [mbind option_bind].
    replace (done ++ (id, row) :: rest) with ((done ++ [(id, row)]) ++ rest) in * by by rewrite <-app_assoc.
    apply IH; [done|done|]. intros Huniq k e e'. rewrite !(rows_at_config s s1) by done. by apply Hu.
Qed.

Lemma cleared_tracks ix s ks : tracks ix [] (set_maps ∅ ∅ ks (set_index (Some ix) s)).
Proof.
  assert (∀ k, index_map (set_maps ∅ ∅ ks (set_index (Some ix) s)) !! k = None) as Hnone.
  { intros k. by rewrite index_map_lookup. }
  split; [split; cbn; intros *; rewrite ?lookup_empty, ?dom_empty_L; set_solver|done|..].
  - intros k r. rewrite Hnone. simpl. split; [set_solver|]. intros (row & Hin & _). by apply not_elem_of_nil in Hin.
  - intros k. rewrite Hnone. by intros [].
  - intros k e e' _ [Hin _]. by apply not_elem_of_nil in Hin.
Qed.

Lemma rebuild_as_loop scope ixs live store : Forall (λ ix, should_track_index ix = true) ixs →
  rebuild_bootstrap_indexes_from_live_rows scope ixs live store =
  for_tracked ixs (λ ix, update_index_for_table scope (index_id ix)
    (λ s, insert_live_rows ix live (set_maps ∅ ∅ (ordered_entry_keys s) (set_index (Some ix) s)))) store.
Proof.
  intros Hixs. revert store. induction Hixs as [|ix ixs Hix Hixs IH]; intros store; [done|].
  cbn [rebuild_bootstrap_indexes_from_live_rows for_tracked]. rewrite Hix.
  destruct (update_index_for_table _ _ _ store); [apply IH|done].
Qed.

(** The rebuild at bootstrap makes every index hold the keys of the live rows it is given, whatever
    the index held before, when the rows of a unique index have different keys. *)
Theorem bootstrap_rebuild_tracks scope ixs live store : NoDup (index_id <$> ixs) →
  Forall (λ ix, should_track_index ix = true) ixs → live_ok live →
  (∀ ix, ix ∈ ixs → is_unique_key ix = true →
     unique_rows (state_of store (scoped_index_id scope (index_id ix))) ix live) →
  ∃ store', rebuild_bootstrap_indexes_from_live_rows scope ixs live store = Some store' ∧
  ∀ ix, ix ∈ ixs → ∃ s, index_for_table store' scope (index_id ix) = Some s ∧ answers ix live s.
Proof.
  intros Hn Ht Hl Hu. rewrite rebuild_as_loop by done.
  destruct (for_tracked_spec scope (λ ix s, is_unique_key ix = true → unique_rows s ix live) (λ ix s, tracks ix live s)
    (λ ix s, insert_live_rows ix live (set_maps ∅ ∅ (ordered_entry_keys s) (set_index (Some ix) s))) ixs store Hn) as (store' & E & Hq & _).
  - intros ix s _ Hus. apply (insert_live_rows_tracks ix [] live); [apply cleared_tracks|done|exact Hus].
  - intros ix Hix _ Huniq. by apply Hu.
  - exists store'. split; [done|]. intros ix Hix. rewrite Forall_forall in Ht. destruct (Hq ix Hix (Ht ix Hix)) as (s & Hs & Htr).
    exists s. split; [done|]. by apply tracks_answers.
Qed.

(** ** Batches *)

Lemma update_index_compose id f g store :
  update_index id (λ s, f s ≫= g) store = update_index id f store ≫= update_index id g.
Proof.
  unfold update_index at 1 3. cbv beta zeta. destruct (f _) as [s|]; [|done]. cbn [mbind option_bind]. unfold update_index. cbn [indexes set_indexes].
  rewrite lookup_insert_eq. cbn [from_option Datatypes.id]. rewrite indexor_state_set. destruct (g s) as [s'|]; [|done]. cbn [mbind option_bind].
  unfold set_indexes. cbn [incremental_persist_last_saved_ms]. rewrite insert_insert_eq.
  by destruct (default (from_state RuntimeIndexState_new) (indexes store !! id)).
Qed.

Lemma update_index_commute id id' f g store : id ≠ id' →
  update_index id f store ≫= update_index id' g = update_index id' g store ≫= update_index id f.
Proof.
  intros Hne. unfold update_index at 2 4. cbv beta zeta. destruct (f _) as [s|] eqn:Ef, (g _) as [s'|] eqn:Eg; cbn [mbind option_bind]; unfold update_index;
    cbn [indexes set_indexes]; rewrite ?lookup_insert_ne by done; rewrite ?Ef, ?Eg; try done.
  cbn [mbind option_bind]. unfold set_indexes. cbn [incremental_persist_last_saved_ms]. by rewrite insert_insert_ne.
Qed.

Lemma for_tracked_commute scope ixs f id g store :
  (∀ ix, ix ∈ ixs → scoped_index_id scope (index_id ix) ≠ id) →
  update_index id g store ≫= for_tracked ixs (λ ix, update_index_for_table scope (index_id ix) (f ix))
  = for_tracked ixs (λ ix, update_index_for_table scope (index_id ix) (f ix)) store ≫= update_index id g.
Proof.
  unfold update_index_for_table. set (F := λ ix, update_index (scoped_index_id scope (index_id ix)) (f ix)).
  revert store. induction ixs as [|ix ixs IH]; intros store Hne; cbn [for_tracked].
  { cbn [mbind option_bind]. by destruct (update_index id g store). }
  assert (∀ store, update_index id g store ≫= for_tracked ixs F = for_tracked ixs F store ≫= update_index id g) as IH'.
  { intros st. apply IH. intros ix' Hix'. apply Hne. by right. }
  pose proof (update_index_commute id (scoped_index_id scope (index_id ix)) g (f ix) store ltac:(intros E; by apply (Hne ix ltac:(by left)))) as Hcom.
  change (update_index (scoped_index_id scope (index_id ix)) (f ix)) with (F ix) in Hcom.
  destruct (should_track_index ix).
  - destruct (update_index id g store) as [st1|] eqn:E1; cbn [mbind option_bind] in *.
    + rewrite Hcom. destruct (F ix store) as [st2|]; [|done]. cbn [mbind option_bind] in *. apply IH'.
    + destruct (F ix store) as [st2|]; [|done]. cbn [mbind option_bind] in *. rewrite <-IH', <-Hcom. done.
  - destruct (update_index id g store) as [st1|] eqn:E1; cbn [mbind option_bind]; rewrite <-IH', E1; done.
Qed.

(** Two loops over the indexes are one. *)
Lemma for_tracked_compose scope ixs f g store : NoDup (index_id <$> ixs) →
  for_tracked ixs (λ ix, update_index_for_table scope (index_id ix) (λ s, f ix s ≫= g ix)) store
  = for_tracked ixs (λ ix, update_index_for_table scope (index_id ix) (f ix)) store
    ≫= for_tracked ixs (λ ix, update_index_for_table scope (index_id ix) (g ix)).
Proof.
  revert store. induction ixs as [|ix ixs IH]; intros store Hn; cbn [for_tracked]; [done|].
  rewrite fmap_cons, NoDup_cons in Hn. destruct Hn as [Hnot Hn].
  assert (∀ ix', ix' ∈ ixs → scoped_index_id scope (index_id ix') ≠ scoped_index_id scope (index_id ix)) as Hdiff.
  { intros ix' Hix' E%scoped_index_id_inj. apply Hnot. rewrite <-E. by apply list_elem_of_fmap_2. }
  destruct (should_track_index ix); cbn [mbind option_bind]; [|by apply IH].
  pose proof (update_index_compose (scoped_index_id scope (index_id ix)) (f ix) (g ix) store) as Hc.
  change (update_index (scoped_index_id scope (index_id ix))) with (update_index_for_table scope (index_id ix)) in Hc. rewrite Hc. clear Hc.
  destruct (update_index_for_table _ _ (f ix) store) as [st|]; [|done]. cbn [mbind option_bind].
  pose proof (for_tracked_commute scope ixs f (scoped_index_id scope (index_id ix)) (g ix) st Hdiff) as Hcom.
  change (update_index (scoped_index_id scope (index_id ix))) with (update_index_for_table scope (index_id ix)) in Hcom.
  destruct (update_index_for_table scope (index_id ix) (g ix) st) as [st2|] eqn:E2; cbn [mbind option_bind] in *.
  - rewrite IH, Hcom by done. destruct (for_tracked ixs _ st) as [st3|]; [|done]. cbn [mbind option_bind] in *.
    by destruct (update_index_for_table _ _ (g ix) st3).
  - destruct (for_tracked ixs (λ ix0, update_index_for_table scope (index_id ix0) (f ix0)) st) as [st3|]; [|done].
    cbn [mbind option_bind] in *. by rewrite <-Hcom.
Qed.

Lemma for_tracked_ext ixs F G store : (∀ ix st, F ix st = G ix st) → for_tracked ixs F store = for_tracked ixs G store.
Proof.
  intros HFG. revert store. induction ixs as [|ix ixs IH]; intros store; cbn [for_tracked]; [done|]. rewrite HFG.
  destruct (if should_track_index ix then G ix store else Some store); [apply IH|done].
Qed.

Lemma insert_keeps_index key r s s' : insert_with_row_ref key r s = Some s' → index s' = index s.
Proof.
  unfold insert_with_row_ref. destruct (encode_key s key); [|by intros [= <-]]. destruct (unique_or_unset s); [by intros [= <-]|].
  destruct (r ≫= pack_row_ref) as [x|]; [|by intros [= <-]].
  destruct (entries s !! l) as [[y|]|]; [destruct (y =? x); [by intros [= <-]|]|..].
  - destruct (insert_unique_sorted y PostingPages_default) as [p|]; [|done]. cbn [mbind option_bind].
    destruct (insert_unique_sorted x p); [by intros [= <-]|done].
  - destruct (insert_unique_sorted x _); [by intros [= <-]|done].
  - by intros [= <-].
Qed.

(** The rows recorded one after the other, with consecutive references. *)
Fixpoint record_sequentially (scope : ustr) (ixs : list DatabaseIndex) (row_ref : Z) (rows : list row_map)
    (store : RuntimeIndexStore) : option RuntimeIndexStore :=
  match rows with
  | [] => Some store
  | row :: rows =>
      store ← record_table_row_for_table scope ixs row (Some row_ref) store;
      record_sequentially scope ixs (saturating_add row_ref 1) rows store
  end.

Lemma insert_rows_cons ix r row rows s :
  insert_rows ix r (row :: rows) (set_index (Some ix) s)
  = record_state ix row (Some r) s ≫= λ s', insert_rows ix (saturating_add r 1) rows (set_index (Some ix) s').
Proof.
  cbn [insert_rows]. unfold record_state. destruct (insert_with_row_ref _ _ _) as [s'|] eqn:E; [|done]. cbn [mbind option_bind].
  apply insert_keeps_index in E. by rewrite (set_index_id ix s').
Qed.

(** Recording a batch of rows, index by index, is recording its rows one after the other with
    consecutive references, also when an update of an index panics. *)
Theorem batch_record_is_sequential scope ixs first_row_ref rows store : NoDup (index_id <$> ixs) →
  record_table_rows_batch_with_first_row_ref scope ixs first_row_ref rows store
  = record_sequentially scope ixs first_row_ref rows store.
Proof.
  intros Hn. unfold record_table_rows_batch_with_first_row_ref. destruct rows as [|row rows]; [done|]. cbn [is_empty].
  revert first_row_ref row store. induction rows as [|row' rows IH]; intros r row store.
  - cbn [record_sequentially]. unfold record_table_row_for_table. rewrite (for_tracked_ext ixs _
      (λ i, update_index_for_table scope (index_id i) (record_state i row (Some r)))).
    + by destruct (for_tracked ixs _ store).
    + intros ix st. unfold update_index_for_table, update_index. cbn [insert_rows]. unfold record_state.
      by destruct (insert_with_row_ref _ _ _).
  - change (record_sequentially scope ixs r (row :: row' :: rows) store) with
      (record_table_row_for_table scope ixs row (Some r) store ≫= record_sequentially scope ixs (saturating_add r 1) (row' :: rows)).
    unfold record_table_row_for_table. rewrite (for_tracked_ext ixs _
      (λ i, update_index_for_table scope (index_id i) (λ s, record_state i row (Some r) s ≫=
        λ s', insert_rows i (saturating_add r 1) (row' :: rows) (set_index (Some i) s')))).
    + rewrite for_tracked_compose by done. destruct (for_tracked ixs _ store) as [st|]; [|done]. apply IH.
    + intros ix st. unfold update_index_for_table, update_index. by rewrite insert_rows_cons.
Qed.
End tracking.
