(* ===== verification/AlterTable.v ===== *)
(** * ALTER TABLE

    Models the edits an [ALTER TABLE] makes to the pending schema of a schema change
    ([server/src/core/mappings/query/core/ddl_ops.rs], [schema/change_tx.rs]) with the mutation rules
    it collects for the row migration, and what rows encoded under the old schema read as under the
    new one. *)

From Stdlib Require Import ZArith Lia.
From stdpp Require Import base gmap list strings sorting.
From S2P Require Import Prelude Record RowPayload Identifiers Schema RowCodec.

(** ** The schema change transaction *)

Record SchemaChangeTx := {
  tx_table_id : ustr;
  next_revision : Z;
  pending_schema : TableSchema;
}.

Definition set_pending (tx : SchemaChangeTx) (r : result TableSchema SchemaError) :
    result SchemaChangeTx DatabaseError :=
  let? schema := map_err SchemaChangeError r in
  Ok {| tx_table_id := tx_table_id tx; next_revision := next_revision tx; pending_schema := schema |}.

Definition tx_add_field (f : FieldDef) (tx : SchemaChangeTx) := set_pending tx (add_field f (pending_schema tx)).
Definition tx_remove_field (name : ustr) (tx : SchemaChangeTx) := set_pending tx (remove_field name (pending_schema tx)).
Definition tx_update_field (f : FieldDef) (tx : SchemaChangeTx) := set_pending tx (update_field f (pending_schema tx)).

(** ** Operations *)

Inductive AlterTableChangeOp :=
| AlterAddField (f : FieldDef)
| AlterDropField (name : ustr)
| AlterRenameField (from to : ustr)
| AlterModifyField (f : FieldDef).

Record FieldTypeChangeRule := { rule_field_name : ustr; target_type : FieldKind }.

(** The rules collected along the way. *)
Record AlterRules := {
  renames : list (ustr * ustr);
  removals : list ustr;
  additions : list (ustr * FieldKind);
  type_changes : list FieldTypeChangeRule;
}.

Definition no_rules : AlterRules := {| renames := []; removals := []; additions := []; type_changes := [] |}.

Definition u32_max : Z := 4294967295.

(** [field.seqno = n], and the fields a modified definition takes from the existing one. *)
Definition with_seqno (n : Z) (f : FieldDef) : FieldDef :=
  {| seqno := n; field_name := field_name f; field_type := field_type f; nullable := nullable f;
     indexed := indexed f; default_value := default_value f; metadata := metadata f |}.

Definition keep_from (existing f : FieldDef) : FieldDef :=
  {| seqno := seqno existing; field_name := field_name f; field_type := field_type f;
     nullable := nullable existing; indexed := indexed existing; default_value := default_value f;
     metadata := metadata f |}.

(** One past the largest sequence number; saturating [u32] addition. *)
Definition next_seqno (schema : TableSchema) : Z :=
  Z.min (foldr Z.max 0 (seqno <$> fields schema) + 1) u32_max.

Definition apply_operation (op : AlterTableChangeOp) (tx : SchemaChangeTx) :
    result SchemaChangeTx DatabaseError :=
  match op with
  | AlterAddField f => tx_add_field (with_seqno (next_seqno (pending_schema tx)) f) tx
  | AlterDropField name => tx_remove_field name tx
  | AlterRenameField from to =>
      match field (pending_schema tx) from with
      | Some f =>
          let? tx := tx_remove_field from tx in
          tx_add_field (with_field_name to f) tx
      | None => Err (SchemaChangeError FieldNotFound)
      end
  | AlterModifyField f =>
      match field (pending_schema tx) (field_name f) with
      | Some existing => tx_update_field (keep_from existing f) tx
      | None => Err (SchemaChangeError FieldNotFound)
      end
  end.

Definition collect_rules (op : AlterTableChangeOp) (schema : TableSchema) (rules : AlterRules) : AlterRules :=
  match op with
  | AlterAddField f =>
      {| renames := renames rules; removals := removals rules;
         additions := additions rules ++ [(field_name f, field_type f)];
         type_changes := type_changes rules |}
  | AlterDropField name =>
      {| renames := renames rules; removals := removals rules ++ [name];
         additions := additions rules; type_changes := type_changes rules |}
  | AlterRenameField from to =>
      match field schema from with
      | Some _ => {| renames := renames rules ++ [(from, to)]; removals := removals rules;
                     additions := additions rules; type_changes := type_changes rules |}
      | None => rules
      end
  | AlterModifyField f =>
      {| renames := renames rules; removals := removals rules; additions := additions rules;
         type_changes := type_changes rules
                           ++ [{| rule_field_name := field_name f; target_type := field_type f |}] |}
  end.

(** The loop over [plan.operations]; the first error aborts the change. *)
Fixpoint apply_operations (ops : list AlterTableChangeOp) (tx : SchemaChangeTx) (rules : AlterRules) :
    result (SchemaChangeTx * AlterRules) DatabaseError :=
  match ops with
  | [] => Ok (tx, rules)
  | op :: ops =>
      let rules := collect_rules op (pending_schema tx) rules in
      let? tx := apply_operation op tx in
      apply_operations ops tx rules
  end.

(** The pending schema after operations on a table's schema. *)
Definition altered_schema (ops : list AlterTableChangeOp) (tx : SchemaChangeTx) : result TableSchema DatabaseError :=
  let? p := apply_operations ops tx no_rules in Ok (pending_schema p.1).

(** ** Slots of an altered schema *)

Lemma foldr_max_elem q l : q ∈ l → q ≤ foldr Z.max 0 l.
Proof. induction l as [|p l IH]; [set_solver|]. intros [->|Hq]%elem_of_cons; simpl; [lia|]. specialize (IH Hq). lia. Qed.

Lemma foldr_max_le n l : 0 ≤ n → Forall (λ q, q ≤ n) l → foldr Z.max 0 l ≤ n.
Proof. intros Hn. induction 1; simpl; lia. Qed.

Lemma seqnos_delete fs i f : fs !! i = Some f → seqno <$> fs ≡ₚ seqno f :: (seqno <$> delete i fs).
Proof. intros Hi. rewrite (delete_Permutation fs i f Hi) at 1. by rewrite fmap_cons. Qed.

Lemma length_delete_pred (fs : list FieldDef) i f : fs !! i = Some f → length fs = S (length (delete i fs)).
Proof.
  intros Hi. rewrite length_delete by eauto. apply lookup_lt_Some in Hi. lia.
Qed.

Lemma seqZ_snoc n : 0 ≤ n → seqZ 1 (n + 1) = seqZ 1 n ++ [n + 1].
Proof.
  intros Hn. rewrite seqZ_app by lia. f_equal. rewrite seqZ_cons by lia. f_equal. lia.
Qed.

Lemma dense_max_exact schema : dense schema → foldr Z.max 0 (seqno <$> fields schema) = Z.of_nat (length (fields schema)).
Proof.
  intros Hd. pose proof (dense_max schema Hd) as Hle. simpl in Hle. apply Z.le_antisymm; [done|].
  destruct (decide (length (fields schema) = 0%nat)) as [->|Hne].
  { induction (seqno <$> fields schema); simpl; lia. }
  apply foldr_max_elem. unfold dense in Hd. rewrite Hd. apply elem_of_seqZ. lia.
Qed.

Lemma dense_positive schema : dense schema → Forall (λ f, 1 ≤ seqno f) (fields schema).
Proof. intros Hd. apply Forall_forall. intros f Hf. destruct (dense_ordinal _ _ Hd Hf). lia. Qed.

(** Dropping a field of a dense schema leaves the old slots readable. *)
Lemma drop_slots schema i f :
  fields_wf (fields schema) → dense schema → fields schema !! i = Some f →
  slots_by_seqno (TableSchema_new (delete i (fields schema))) (length (fields schema)).
Proof.
  intros Hwf Hd Hi. pose proof (fields_wf_sublist _ _ (sublist_delete _ i) Hwf) as (_ & Hn' & _).
  pose proof (length_delete_pred _ _ _ Hi) as Hlen. unfold dense in Hd. pose proof Hd as Hp.
  rewrite (seqnos_delete _ _ _ Hi), Hlen in Hp.
  destruct (decide (seqno f = Z.of_nat (length (fields schema)))) as [Hlast|Hmid].
  - apply dense_slots; [done|]. unfold dense. simpl fields.
    rewrite Nat2Z.inj_succ, <- Z.add_1_r, seqZ_snoc, Permutation_app_comm in Hp by lia.
    replace (Z.of_nat (length (delete i (fields schema))) + 1) with (seqno f) in Hp by lia.
    by apply Permutation_cons_inv in Hp.
  - apply sparse_slots; simpl fields; [done| |].
    { eapply Forall_delete. by apply dense_positive. }
    assert (Z.of_nat (length (fields schema)) ≤ max_seqno (build_entry (TableSchema_new (delete i (fields schema))))) as Hmax.
    { apply foldr_max_elem. simpl fields.
      assert (Z.of_nat (length (fields schema)) ∈ seqno f :: (seqno <$> delete i (fields schema))) as Hin.
      { rewrite Hp. apply elem_of_seqZ. lia. }
      apply elem_of_cons in Hin as [?|?]; [congruence|done]. }
    unfold use_seqno_slot_decoding. rewrite !andb_true_iff, Nat.ltb_lt, Z.ltb_lt, Z.leb_le. lia.
Qed.

Lemma permuted_slots schema schema' len :
  NoDup (field_name <$> fields schema') → dense schema →
  seqno <$> fields schema' ≡ₚ seqno <$> fields schema → slots_by_seqno schema' len.
Proof.
  intros Hn Hd Hp. apply dense_slots; [done|]. unfold dense in *. rewrite Hp, Hd.
  by rewrite <- (length_fmap seqno (fields schema')), Hp, length_fmap.
Qed.

Lemma add_slots schema f len :
  NoDup (field_name <$> (fields schema ++ [f])) → dense schema →
  seqno f = Z.of_nat (length (fields schema)) + 1 →
  slots_by_seqno (TableSchema_new (fields schema ++ [f])) len.
Proof.
  intros Hn Hd Hf. apply dense_slots; [done|]. unfold dense in *. simpl fields.
  rewrite fmap_app, Hd, length_app, Nat2Z.inj_add. simpl. by rewrite seqZ_snoc, Hf by lia.
Qed.

Lemma max_after_drop schema i g :
  dense schema → fields schema !! i = Some g → seqno g < Z.of_nat (length (fields schema)) →
  foldr Z.max 0 (seqno <$> delete i (fields schema)) = Z.of_nat (length (fields schema)).
Proof.
  intros Hd Hi Hlt. pose proof (seqnos_delete _ _ _ Hi) as Hp. apply Z.le_antisymm.
  - apply foldr_max_le; [lia|]. apply Forall_forall. intros q Hq.
    assert (q ∈ seqno <$> fields schema) as Hq' by (rewrite Hp; set_solver).
    unfold dense in Hd. rewrite Hd in Hq'. apply elem_of_seqZ in Hq'. lia.
  - apply foldr_max_elem. unfold dense in Hd. rewrite Hd in Hp.
    assert (Z.of_nat (length (fields schema)) ∈ seqno g :: (seqno <$> delete i (fields schema))) as Hin.
    { rewrite <- Hp. apply elem_of_seqZ. apply lookup_lt_Some in Hi. lia. }
    apply elem_of_cons in Hin as [?|?]; [lia|done].
Qed.

Lemma names_snoc fs f :
  NoDup (field_name <$> fs) → field_name f ∉ field_name <$> fs → NoDup (field_name <$> (fs ++ [f])).
Proof.
  intros Hn Hf. rewrite fmap_app. apply NoDup_app. split; [done|]. split; [set_solver|apply NoDup_singleton].
Qed.

(** ** What the operations do to the fields *)

(** The new definition of an operation goes at the end, in the place of another, or both. *)
Inductive altered (schema : TableSchema) : AlterTableChangeOp → TableSchema → Prop :=
| altered_add f g :
    seqno g = next_seqno schema → field_name g ∉ field_name <$> fields schema →
    seqno g ∉ seqno <$> fields schema →
    altered schema (AlterAddField f) (TableSchema_new (fields schema ++ [g]))
| altered_drop name i :
    position_of (to_ascii_lowercase (trim name)) (fields schema) = Some i →
    altered schema (AlterDropField name) (TableSchema_new (delete i (fields schema)))
| altered_rename from to i f g :
    position_of (to_ascii_lowercase (trim from)) (fields schema) = Some i →
    fields schema !! i = Some f → seqno g = seqno f → field_name g = to_ascii_lowercase (trim to) →
    field_name g ∉ field_name <$> delete i (fields schema) →
    altered schema (AlterRenameField from to) (TableSchema_new (delete i (fields schema) ++ [g]))
| altered_modify f i h g :
    position_of (field_name g) (fields schema) = Some i →
    fields schema !! i = Some h → seqno g = seqno h →
    altered schema (AlterModifyField f) (TableSchema_new (<[i := g]> (fields schema))).

Lemma set_pending_Ok tx r tx' : set_pending tx r = Ok tx' → r = Ok (pending_schema tx').
Proof. unfold set_pending. destruct r; [|done]. by intros [= <-]. Qed.

Lemma checked_field_seqno f g : checked_field f = Ok g →
  seqno g = seqno f ∧ field_name g = to_ascii_lowercase (trim (field_name f)).
Proof.
  unfold checked_field, normalize_field_name. destruct (is_empty _); [done|]. simpl.
  destruct (validate_field_kind _); [|done]. by intros [= <-].
Qed.

Lemma add_field_Ok f schema schema' :
  add_field f schema = Ok schema' →
  ∃ g, checked_field f = Ok g ∧ schema' = TableSchema_new (fields schema ++ [g]) ∧
       field_name g ∉ field_name <$> fields schema ∧ seqno g ∉ seqno <$> fields schema.
Proof.
  rewrite add_field_checked. destruct (checked_field f) as [g|]; [|done]. rewrite named_existsb.
  destruct (bool_decide_reflect (is_Some (find_field (field_name g) (fields schema)))) as [|Hn]; [done|].
  destruct (existsb _ _) eqn:E; [done|]. intros [= <-]. exists g. split_and!; [done..| |].
  - by apply find_field_None, eq_None_not_Some.
  - intros (h & Hs & Hh)%list_elem_of_fmap. apply not_true_iff_false in E. apply E, existsb_elem.
    exists h. split; [done|]. by apply Z.eqb_eq.
Qed.

Lemma field_position schema name f :
  schema_wf schema → field schema name = Some f →
  ∃ i, position_of (to_ascii_lowercase (trim name)) (fields schema) = Some i ∧ fields schema !! i = Some f.
Proof.
  intros [_ Hi]. rewrite field_find by done. intros Hf.
  destruct (position_of (to_ascii_lowercase (trim name)) (fields schema)) as [i|] eqn:E.
  - pose proof E as (g & Hg & _ & Hg')%position_of_lookup. exists i. split; [done|]. congruence.
  - apply position_of_None in E. congruence.
Qed.

Lemma apply_operation_altered op tx tx' :
  schema_wf (pending_schema tx) → apply_operation op tx = Ok tx' →
  altered (pending_schema tx) op (pending_schema tx').
Proof.
  intros Hwf. destruct op as [f|name|from to|f]; cbn [apply_operation].
  - intros (g & [Hs _]%checked_field_seqno & -> & Hn & Hq)%set_pending_Ok%add_field_Ok. by constructor.
  - intros Hr%set_pending_Ok. unfold remove_field in Hr.
    destruct (position_of _ _) as [i|] eqn:E; [|done]. injection Hr as <-. by constructor.
  - destruct (field (pending_schema tx) from) as [f|] eqn:Ef; [|done].
    destruct (field_position _ _ _ Hwf Ef) as (i & Hi & Hf).
    destruct (tx_remove_field from tx) as [tx1|] eqn:Er; [|done]. apply set_pending_Ok in Er.
    unfold remove_field in Er. rewrite Hi in Er. injection Er as Er.
    intros (g & [Hs Hg]%checked_field_seqno & -> & Hn & _)%set_pending_Ok%add_field_Ok.
    rewrite <- Er in *. by apply (altered_rename _ _ _ i f).
  - destruct (field (pending_schema tx) (field_name f)) as [h|] eqn:Ef; [|done].
    destruct (field_position _ _ _ Hwf Ef) as (i & Hi & Hh).
    intros Hr%set_pending_Ok. rewrite update_field_checked in Hr.
    destruct (checked_field (keep_from h f)) as [g|] eqn:Ec; [|done].
    apply checked_field_seqno in Ec as [Hs Hg]. change (field_name f) with (field_name (keep_from h f)) in Hi.
    rewrite <- Hg in Hi. rewrite Hi in Hr.
    destruct (existsb _ _); [done|]. injection Hr as <-. by apply (altered_modify _ _ _ h).
Qed.

(** ** A gap closed by a later addition *)

(** The sequence numbers after dropping [k] and adding a field at the end. *)
Lemma gap_order schema k n :
  1 ≤ k ≤ n → k :: (seqno <$> fields schema) ≡ₚ seqZ 1 (n + 1) →
  fst <$> merge_sort ordinal_le (schema_shape schema) = seqZ 1 (k - 1) ++ seqZ (k + 1) (n + 1 - k).
Proof.
  intros Hk Hp. apply (StronglySorted_unique Z.le); [apply sorted_seqnos| |].
  - apply StronglySorted_app. split; [|split; apply seqZ_sorted].
    intros x y Hx%elem_of_seqZ Hy%elem_of_seqZ. lia.
  - rewrite merge_sort_Permutation. unfold schema_shape. rewrite <- list_fmap_compose.
    apply (Permutation_cons_inv (a := k)). etransitivity; [exact Hp|].
    replace (n + 1) with ((k - 1) + (n + 2 - k)) by lia. rewrite seqZ_app by lia.
    rewrite (seqZ_cons (1 + (k - 1))) by lia. replace (1 + (k - 1)) with k by lia.
    replace (Z.succ k) with (k + 1) by lia. replace (Z.pred (n + 2 - k)) with (n + 1 - k) by lia.
    replace (k - 1 + (n + 2 - k) - k) with (n + 1 - k) by lia. by rewrite Permutation_middle.
Qed.

Lemma gap_index schema k n h :
  1 ≤ k ≤ n → k :: (seqno <$> fields schema) ≡ₚ seqZ 1 (n + 1) →
  h ∈ fields schema → seqno h = k + 1 →
  field_names_by_ordinal schema !! Z.to_nat (k - 1) = Some (field_name h).
Proof.
  intros Hk Hp Hh Hs. unfold field_names_by_ordinal.
  assert ((seqno h, field_name h) ∈ merge_sort ordinal_le (schema_shape schema)) as [i Hi]%list_elem_of_lookup.
  { rewrite merge_sort_Permutation. by apply list_elem_of_fmap_2 with (f := λ f, (seqno f, field_name f)). }
  pose proof (f_equal (.!! i) (gap_order schema k n Hk Hp)) as Hq. simpl in Hq.
  rewrite list_lookup_fmap, Hi, Hs in Hq. simpl in Hq. symmetry in Hq.
  apply lookup_app_Some in Hq as [Hq|[Hge Hq]]; apply lookup_seqZ in Hq as [Hq ?]; [lia|].
  rewrite length_seqZ in *. rewrite list_lookup_fmap. replace (Z.to_nat (k - 1)) with i by lia. by rewrite Hi.
Qed.

(** ** Old rows under the new schema *)

Section old_rows.
Context {ordinal_bincode : Bincode OrdinalRowPayload} {map_bincode : Bincode row_map}.
Context {legacy_ordinal_bincode : Bincode (list bytes)}.
Context `{Bincode EncryptedRowPayloadEnvelope} `{Bincode LegacyEncryptedRowPayloadEnvelope}.
Context `{FieldValues}.
Context {ordinal_laws : BincodeLaws OrdinalRowPayload (λ r, r)}.

(** A payload written under [schema]. *)
Definition written_under (schema : TableSchema) (row : row_map) (payload : bytes) : Prop :=
  encode_row_payload schema row = Some payload ∧ (fields schema ≠ [] ∨ row = ∅) ∧
  decode_budget (ordinal_row schema row) ≤ MAX_DECODE_BYTES.

Abbreviation read_under schema payload :=
  (decode_row_payload_with_schema_cache (build_entry schema) payload).

Lemma read_slots schema schema' row payload expected :
  written_under schema row payload →
  (∀ name, index_of (build_entry schema') (length (fields schema)) name
             ≫= (λ idx, mjoin (ordinal_row schema row !! idx)) = expected !! name) →
  read_under schema' payload = Ok expected.
Proof.
  intros (He & Hne & Hb) Hexp. unfold decode_row_payload_with_schema_cache.
  rewrite (ordinal_payload_shape _ _ _ He Hne Hb). f_equal. apply map_eq. intros name.
  by rewrite collect_row_lookup, length_ordinal_row.
Qed.

(** The slot of a sequence number holds the value of the field that had it. *)
Lemma slot_value schema row f :
  NoDup (field_name <$> fields schema) → dense schema → f ∈ fields schema →
  mjoin (ordinal_row schema row !! Z.to_nat (seqno f - 1)) = stored_row schema row !! field_name f.
Proof.
  intros Hn Hd Hf. rewrite <- ordinal_row_lookup by done.
  by rewrite (dense_slots schema _ Hn Hd), find_field_elem by done.
Qed.

Lemma stored_row_unknown schema row name :
  find_field name (fields schema) = None → stored_row schema row !! name = None.
Proof.
  intros Hn%find_field_None. unfold stored_row. rewrite map_lookup_imap.
  destruct (row !! name); [|done]. simpl. by rewrite decide_False.
Qed.

(** The row an operation is meant to leave. *)
Definition altered_row (op : AlterTableChangeOp) (row : row_map) : row_map :=
  match op with
  | AlterAddField _ | AlterModifyField _ => row
  | AlterDropField name => delete (to_ascii_lowercase (trim name)) row
  | AlterRenameField from to =>
      let from := to_ascii_lowercase (trim from) in
      match row !! from with
      | Some value => <[to_ascii_lowercase (trim to) := value]> (delete from row)
      | None => delete from row
      end
  end.

(** Reading a schema in which every field has the slot of its sequence number. *)
Lemma read_by_seqno schema schema' row payload expected :
  written_under schema row payload → slots_by_seqno schema' (length (fields schema)) →
  (∀ name, find_field name (fields schema')
             ≫= (λ f, mjoin (ordinal_row schema row !! Z.to_nat (seqno f - 1))) = expected !! name) →
  read_under schema' payload = Ok expected.
Proof.
  intros Hw Hs Hexp. eapply read_slots; [done|]. intros name. rewrite Hs, <- Hexp.
  by destruct (find_field name (fields schema')).
Qed.

Lemma found_slot schema row name :
  NoDup (field_name <$> fields schema) → dense schema →
  find_field name (fields schema) ≫= (λ f, mjoin (ordinal_row schema row !! Z.to_nat (seqno f - 1)))
  = stored_row schema row !! name.
Proof.
  intros Hn Hd. destruct (find_field name (fields schema)) as [f|] eqn:E; simpl.
  - apply find_field_Some in E as [Hf <-]. by apply slot_value.
  - by rewrite stored_row_unknown.
Qed.

Lemma read_after_add schema f g row payload :
  schema_wf schema → dense schema → written_under schema row payload →
  altered schema (AlterAddField f) (TableSchema_new (fields schema ++ [g])) →
  read_under (TableSchema_new (fields schema ++ [g])) payload = Ok (stored_row schema row).
Proof.
  intros [(Hok & Hn & Hs) _] Hd Hw Ha. inversion Ha as [f' g' Hg Hgn Hgs Heq1 Heq2| | |]; subst.
  apply app_inj_tail in Heq2 as [_ ->].
  assert (seqno g = Z.of_nat (length (fields schema)) + 1) as Hseq.
  { rewrite Hg. unfold next_seqno. rewrite dense_max_exact by done. apply Z.min_l. unfold u32_max.
    destruct (Z.le_gt_cases (Z.of_nat (length (fields schema)) + 1) 4294967295) as [|Hgt]; [done|]. exfalso.
    apply Hgs. rewrite Hg. unfold next_seqno. rewrite dense_max_exact by done.
    unfold dense in Hd. rewrite Hd, elem_of_seqZ. unfold u32_max. lia. }
  eapply read_by_seqno; [done|apply add_slots; [by apply names_snoc|done..]|].
  intros name. simpl fields. rewrite find_field_app, <- (found_slot schema row name) by done.
  destruct (find_field name (fields schema)) as [h|]; [done|].
  destruct (decide _) as [_|]; [|done]. simpl. rewrite lookup_ge_None_2; [done|].
  rewrite length_ordinal_row, Hseq. lia.
Qed.

Lemma read_after_drop schema name i row payload :
  schema_wf schema → dense schema → written_under schema row payload →
  position_of (to_ascii_lowercase (trim name)) (fields schema) = Some i →
  read_under (TableSchema_new (delete i (fields schema))) payload
  = Ok (altered_row (AlterDropField name) (stored_row schema row)).
Proof.
  intros [Hwf _] Hd Hw Hi. pose proof Hwf as (_ & Hn & _). pose proof Hi as (f & Hf & _ & _)%position_of_lookup.
  eapply read_by_seqno; [done|by eapply drop_slots|]. intros n. simpl fields.
  rewrite (find_field_delete _ i (to_ascii_lowercase (trim name))) by done. simpl.
  destruct (decide (n = _)) as [->|Hne]; [by rewrite lookup_delete_eq|].
  by rewrite lookup_delete_ne, found_slot.
Qed.

Lemma read_after_rename schema from to i f g row payload :
  schema_wf schema → dense schema → written_under schema row payload →
  position_of (to_ascii_lowercase (trim from)) (fields schema) = Some i →
  fields schema !! i = Some f → seqno g = seqno f → field_name g = to_ascii_lowercase (trim to) →
  field_name g ∉ field_name <$> delete i (fields schema) →
  read_under (TableSchema_new (delete i (fields schema) ++ [g])) payload
  = Ok (altered_row (AlterRenameField from to) (stored_row schema row)).
Proof.
  intros [Hwf _] Hd Hw Hi Hf Hs Hg Hfresh. pose proof Hwf as (_ & Hn & _).
  pose proof Hi as (f' & Hf' & Hfn & _)%position_of_lookup. assert (f' = f) as -> by congruence.
  pose proof (fields_wf_sublist _ _ (sublist_delete _ i) Hwf) as (_ & Hn' & _).
  eapply read_by_seqno; [done|eapply permuted_slots; [|exact Hd|]|].
  { by apply names_snoc. }
  { simpl. rewrite (seqnos_delete _ _ _ Hf), fmap_app. simpl. rewrite Hs. by rewrite Permutation_app_comm. }
  intros n. simpl fields. rewrite find_field_app, (find_field_delete _ i (field_name f)) by congruence.
  pose proof (slot_value schema row f Hn Hd (list_elem_of_lookup_2 _ _ _ Hf)) as Hslot.
  apply find_field_None in Hfresh. rewrite (find_field_delete _ i (field_name f)) in Hfresh by congruence.
  unfold altered_row. rewrite <- Hfn, <- Hg, <- Hslot, <- Hs.
  destruct (decide (n = field_name g)) as [->|Hng].
  - rewrite Hfresh, decide_True by done. simpl.
    destruct (mjoin (ordinal_row schema row !! Z.to_nat (seqno g - 1))); [by rewrite lookup_insert_eq|].
    symmetry. apply lookup_delete_None. destruct (decide (field_name g = field_name f)) as [Heq|Hne]; [by left|right].
    apply stored_row_unknown. revert Hfresh. by destruct (decide (field_name g = field_name f)).
  - rewrite (decide_False (P := field_name g = n)) by done.
    assert (∀ o : option bytes, (match o with Some v => <[field_name g := v]> (delete (field_name f) (stored_row schema row))
              | None => delete (field_name f) (stored_row schema row) end) !! n
             = delete (field_name f) (stored_row schema row) !! n) as ->.
    { intros [v|]; [by rewrite lookup_insert_ne|done]. }
    destruct (decide (n = field_name f)) as [->|Hne]; [by rewrite lookup_delete_eq|].
    rewrite lookup_delete_ne by done. rewrite <- found_slot by done. by destruct (find_field n (fields schema)).
Qed.

Lemma read_after_modify schema i h g row payload :
  schema_wf schema → dense schema → written_under schema row payload →
  position_of (field_name g) (fields schema) = Some i →
  fields schema !! i = Some h → seqno g = seqno h →
  read_under (TableSchema_new (<[i := g]> (fields schema))) payload = Ok (stored_row schema row).
Proof.
  intros [Hwf _] Hd Hw Hi Hh Hs. pose proof Hwf as (_ & Hn & _).
  pose proof Hi as (f' & Hf' & Hfn & Hff)%position_of_lookup. assert (f' = h) as -> by congruence.
  eapply read_by_seqno; [done|eapply permuted_slots; [|exact Hd|]|].
  { simpl. rewrite list_fmap_insert, list_insert_id; [done|]. by rewrite list_lookup_fmap, Hh, <- Hfn. }
  { simpl. rewrite list_fmap_insert, list_insert_id; [done|]. by rewrite list_lookup_fmap, Hh, Hs. }
  intros n. simpl fields. rewrite (find_field_insert _ i) by done.
  rewrite <- found_slot by done. destruct (decide (n = field_name g)) as [->|]; [|done].
  rewrite Hff. simpl. by rewrite Hs.
Qed.


Lemma read_collects schema schema' row payload :
  written_under schema row payload →
  read_under schema' payload
  = Ok (collect_row (build_entry schema') (length (fields schema)) (λ idx, mjoin (ordinal_row schema row !! idx))).
Proof.
  intros (He & Hne & Hb). unfold decode_row_payload_with_schema_cache.
  by rewrite (ordinal_payload_shape _ _ _ He Hne Hb), length_ordinal_row.
Qed.

Lemma gap_misreads schema schema' row payload g h :
  NoDup (field_name <$> fields schema) → dense schema → written_under schema row payload →
  g ∈ fields schema → h ∈ fields schema' → seqno h = seqno g + 1 →
  NoDup (field_name <$> fields schema') → length (fields schema') = length (fields schema) →
  seqno g :: (seqno <$> fields schema') ≡ₚ seqZ 1 (Z.of_nat (length (fields schema)) + 1) →
  ∃ m, read_under schema' payload = Ok m ∧ m !! field_name h = stored_row schema row !! field_name g.
Proof.
  intros Hn Hd Hw Hg Hh Hseq Hn' Hlen Hp. eexists. split; [by apply read_collects|].
  rewrite collect_row_lookup. destruct (dense_ordinal _ _ Hd Hg) as [Hb _].
  assert (index_of (build_entry schema') (length (fields schema)) (field_name h) = Some (Z.to_nat (seqno g - 1))) as ->.
  { unfold index_of, row_index_for_field, use_seqno_slot_decoding. simpl ordered_field_names.
    rewrite length_names, Hlen, (proj2 (Nat.ltb_ge _ _)) by lia. simpl andb. cbv iota.
    apply compact_index; [done|]. by eapply gap_index. }
  simpl. by apply slot_value.
Qed.

(** Dropping a column and adding another makes old rows unreadable.  After the two operations, a
    row stored before them has as many slots as the new schema has fields, so it is decoded by ordinal
    and not by sequence number, and the field that followed the dropped one reads the dropped field's
    value instead of its own. *)
Theorem drop_then_add_misreads tx tx1 tx2 name f row payload g h :
  schema_wf (pending_schema tx) → dense (pending_schema tx) →
  Z.of_nat (length (fields (pending_schema tx))) < u32_max →
  written_under (pending_schema tx) row payload →
  apply_operation (AlterDropField name) tx = Ok tx1 →
  apply_operation (AlterAddField f) tx1 = Ok tx2 →
  field (pending_schema tx) name = Some g →
  h ∈ fields (pending_schema tx) → seqno h = seqno g + 1 →
  ∃ m, read_under (pending_schema tx2) payload = Ok m ∧
       m !! field_name h = stored_row (pending_schema tx) row !! field_name g.
Proof.
  intros Hwf Hd Hu Hw Hdrop Hadd Hg Hh Hseq. destruct (field_position _ _ _ Hwf Hg) as (i & Hi & Hgi).
  pose proof Hwf as [Hf _]. pose proof Hf as (_ & Hn & _).
  apply apply_operation_altered in Hdrop; [|done]. inversion Hdrop as [|name' i' Hi' He1 He2| |]; subst.
  assert (i' = i) as -> by congruence.
  assert (schema_wf (pending_schema tx1)) as Hwf1.
  { rewrite <- He2. apply schema_wf_new. eapply fields_wf_sublist; [apply sublist_delete|done]. }
  apply apply_operation_altered in Hadd; [|done]. rewrite <- He2 in Hadd. simpl in Hadd.
  inversion Hadd as [f' k Hk Hkn Hks He3 He4| | |]; subst. simpl in *.
  set (schema := pending_schema tx) in *. pose proof (seqnos_delete _ _ _ Hgi) as Hp.
  pose proof (dense_ordinal _ _ Hd Hh) as [Hhb _].
  assert (h ∈ delete i (fields schema)) as Hh'.
  { rewrite (delete_Permutation _ _ _ Hgi), elem_of_cons in Hh. destruct Hh as [->|]; [lia|done]. }
  assert (seqno k = Z.of_nat (length (fields schema)) + 1) as Hkseq.
  { rewrite Hk. unfold next_seqno. simpl. rewrite (max_after_drop _ _ g) by (done || lia). unfold u32_max in *. lia. }
  eapply gap_misreads; try done.
  - by eapply list_elem_of_lookup_2.
  - simpl. set_solver.
  - apply names_snoc; [|done]. by destruct Hwf1 as [(_ & ? & _) _]; rewrite <- He2 in *.
  - simpl. rewrite length_app. pose proof (length_delete_pred _ _ _ Hgi). simpl. lia.
  - simpl. rewrite fmap_app, app_comm_cons, <- Hp, seqZ_snoc by lia. simpl. rewrite Hkseq.
    unfold dense in Hd. by rewrite Hd.
Qed.
End old_rows.
