(* ===== verification/Migration.v ===== *)
(** * Row migration

    Models the rewriting of a table's stored rows by a schema change
    ([engine/database/schema/migration]): the rules applied to a row payload ([conversion.rs],
    [apply_schema_rules_to_payload]), the file access ([io.rs]) and the executor that stages a
    rewritten image of the table's log and swaps it in ([executor.rs]), composed as [ALTER TABLE]
    composes them ([ddl_ops.rs]).  The catalog is represented by what the executor asks of it. *)

From Stdlib Require Import ZArith Lia Strings.Byte Sorting.Sorted.
From stdpp Require Import base gmap list strings.
From S2P Require Import Prelude Settings Record RowPayload WalFile Wal WalManager Identifiers LiveRows.
From S2P Require Import Schema RowCodec AlterTable.

(** ** Rules *)

Record SchemaMutationRuleSet := {
  rs_renames : list (ustr * ustr);
  rs_removals : list ustr;
  rs_additions : list (ustr * bytes);
  rs_type_changes : list FieldTypeChangeRule;
  target_schema : option TableSchema;
  conversion_policy : TypeConversionPolicy;
}.

(** The rule set [ALTER TABLE] makes of what it collected. *)
Definition mutation_rule_set (rules : AlterRules) (pending : TableSchema) : SchemaMutationRuleSet :=
  {| rs_renames := renames rules; rs_removals := removals rules;
     rs_additions := (λ a, (a.1, [])) <$> additions rules;
     rs_type_changes := type_changes rules; target_schema := Some pending; conversion_policy := Safe |}.

Definition requires_row_rewrite (rules : AlterRules) : bool :=
  negb (is_empty (renames rules)) || negb (is_empty (removals rules))
  || negb (is_empty (additions rules)) || negb (is_empty (type_changes rules)).

Section migration.
Context {ordinal_bincode : Bincode OrdinalRowPayload} {map_bincode : Bincode row_map}.
Context {legacy_ordinal_bincode : Bincode (list bytes)}.
Context `{Bincode EncryptedRowPayloadEnvelope} `{Bincode LegacyEncryptedRowPayloadEnvelope}.
Context `{FieldValues} `{SchemaHasher} `{RowCrypto} `{Zlib} `{Env} `{Bincode TransactionRecord} `{Digest}.

(** The four loops over the rules. *)
Fixpoint apply_type_changes (rules : list FieldTypeChangeRule) (policy : TypeConversionPolicy)
    (row : row_map) : result row_map DatabaseError :=
  match rules with
  | [] => Ok row
  | rule :: rules =>
      let key := normalize_identifier (rule_field_name rule) in
      match row !! key with
      | Some current =>
          match convert_value_to_field_type current (target_type rule) policy with
          | Some converted => apply_type_changes rules policy (<[key := converted]> row)
          | None => Err (SchemaChangeError InvalidFieldType)
          end
      | None => apply_type_changes rules policy row
      end
  end.

Definition or_insert (key : ustr) (value : bytes) (row : row_map) : row_map :=
  match row !! key with Some _ => row | None => <[key := value]> row end.

Definition apply_rename (row : row_map) (rule : ustr * ustr) : row_map :=
  let from_key := normalize_identifier rule.1 in
  let to_key := normalize_identifier rule.2 in
  match row !! from_key with
  | Some value => or_insert to_key value (delete from_key row)
  | None => row
  end.

Definition apply_removal (row : row_map) (name : ustr) : row_map := delete (normalize_identifier name) row.

Definition apply_addition (row : row_map) (rule : ustr * bytes) : row_map :=
  or_insert (normalize_identifier rule.1) rule.2 row.

Definition apply_schema_rules_to_payload (payload : bytes) (rules : SchemaMutationRuleSet)
    (source_schema : TableSchema) (cache : SchemaCache) : result bytes DatabaseError * SchemaCache :=
  let target := default source_schema (target_schema rules) in
  let '(decoded, cache) := decode_row_payload source_schema payload cache in
  match decoded with
  | Err _ => (Ok payload, cache)
  | Ok row =>
      (let? row := apply_type_changes (rs_type_changes rules) (conversion_policy rules) row in
       let row := foldl apply_rename row (rs_renames rules) in
       let row := foldl apply_removal row (rs_removals rules) in
       let row := foldl apply_addition row (rs_additions rules) in
       match encode_row_payload target row with
       | Some bs => Ok bs
       | None => Err CatalogSerialize
       end, cache)
  end.

(** ** The catalog as the executor sees it *)

Record TableEntity := {
  te_table_id : ustr;
  te_entity_id : ustr;
  te_temporary : bool;
  te_schema : TableSchema;
}.

(** [DatabaseTable::wal_stream_id]. *)
Definition wal_stream_id (t : TableEntity) (database_wal_id : ustr) : ustr :=
  if te_temporary t then database_wal_id ++ lit ":" ++ te_table_id t
  else database_wal_id ++ lit ":" ++ te_entity_id t.

Record Catalog := {
  catalog_database_id : ustr;
  catalog_table : ustr → option TableEntity;
  entity_identity_id : ustr → option ustr;
  at_rest_encryption_key_ref : option ustr;
  at_rest_encryption_key_version : Z;
}.

Definition entity_wal_stream_id (catalog : Catalog) (entity_id : ustr) : option ustr :=
  (λ t, wal_stream_id t (catalog_database_id catalog)) <$> catalog_table catalog entity_id.

(** ** Files *)

Definition stream_key_for_table (table_id : ustr) : result ustr DatabaseError :=
  let normalized := normalize_identifier table_id in
  if is_empty normalized then Err TableNotFound else Ok (stable_id [normalized]).

Definition wal_stream_key_for_table (catalog : Catalog) (table_id : ustr) : result ustr DatabaseError :=
  let normalized_table_id := normalize_identifier table_id in
  if is_empty normalized_table_id then Err TableNotFound
  else
    Ok (match entity_wal_stream_id catalog normalized_table_id with
        | Some stream_id => stream_id
        | None => default normalized_table_id (ok (stream_key_for_table normalized_table_id))
        end).

Definition payload_context_for_table (catalog : Catalog) (table_id : ustr) :
    result TransactionPayloadContext DatabaseError :=
  let normalized_table_id := normalize_identifier table_id in
  if is_empty normalized_table_id then Err TableNotFound
  else
    let entity_id := default normalized_table_id (entity_identity_id catalog normalized_table_id) in
    let? stream_id := wal_stream_key_for_table catalog normalized_table_id in
    let context := mkContext (Some stream_id) (Some (catalog_database_id catalog)) (Some entity_id) None None in
    Ok (match at_rest_encryption_key_ref catalog with
        | Some key_ref => with_at_rest_encryption context key_ref (at_rest_encryption_key_version catalog)
        | None => context
        end).

(** An error value, or the panic of an overflowing offset. *)
Inductive Failure := Failed (e : DatabaseError) | Panicked.

(** The [while pos + 8 <= bytes.len()] loop, which unlike the WAL's own reader refuses a bad frame.
    Every round moves [pos] by at least 8, so [length bs] rounds are enough. *)
Fixpoint load_frames_at (fuel : nat) (bs : bytes) (pos : nat) (context : TransactionPayloadContext) :
    result (list TransactionRecord) Failure :=
  match fuel with
  | O => Ok []
  | S fuel =>
      if Nat.ltb (length bs) (pos + 8) then Ok []
      else
        let len := from_le_bytes (take 8 (drop pos bs)) in
        let pos := (pos + 8)%nat in
        if usize_max <? Z.of_nat pos + len then Err Panicked
        else if Z.of_nat (length bs) <? Z.of_nat pos + len then Err (Failed CatalogDeserialize)
        else
          match decode_record_from_storage_with_context (take (Z.to_nat len) (drop pos bs)) context with
          | Err _ => Err (Failed CatalogDeserialize)
          | Ok record =>
              let? records := load_frames_at fuel bs (pos + Z.to_nat len) context in
              Ok (record :: records)
          end
  end.

Definition load_records_from_path_with_context (path : ustr) (context : TransactionPayloadContext)
    (w : World) : result (list TransactionRecord) Failure * World :=
  match disk w !! path with
  | None => (Ok [], w)
  | Some bs =>
      let '(o, w) := pop_fault w in
      match o with
      | IoFailed _ => (Err (Failed CatalogRead), w)
      | IoDone =>
          (match verify_header DataFile bs with
           | Err _ => Err (Failed CatalogInvalidHeader)
           | Ok _ => load_frames_at (length bs) bs HEADER_SIZE context
           end, w)
      end
  end.
(** [frame_records_as_wal_file_with_context] writes what the WAL's own rewrite writes. *)
Definition frame_records_as_wal_file_with_context (rng : nat → option bytes)
    (records : list TransactionRecord) (context : TransactionPayloadContext) : result bytes string :=
  rewritten_wal_bytes rng records context.

(** [fs::rename]: [Ok false] when the source is missing, [Err] on any other failure. *)
Definition rename_file (from to : ustr) (w : World) : option bool * World :=
  let '(o, w) := pop_fault w in
  match o with
  | IoFailed _ => (None, w)
  | IoDone =>
      match disk w !! from with
      | Some content => (Some true, set_disk (<[to := content]> (delete from (disk w))) w)
      | None => (Some false, w)
      end
  end.

Definition remove_file (path : ustr) (w : World) : option bool * World :=
  let '(o, w) := pop_fault w in
  match o with
  | IoFailed _ => (None, w)
  | IoDone =>
      match disk w !! path with
      | Some _ => (Some true, set_disk (delete path (disk w)) w)
      | None => (Some false, w)
      end
  end.

(** [map_io_error_to_catalog_error]. *)
Definition map_io_error_to_catalog_error (r : option bool) : DatabaseError :=
  match r with Some false => CatalogRead | _ => CatalogWrite end.

(** ** The executor *)

Record StagedMigrationImage := {
  stream_key : ustr;
  final_path : ustr;
  temp_path : ustr;
  backup_path : ustr;
  image_records : list TransactionRecord;
}.

Record Executor := {
  data_dir : ustr;
  staged : gmap ustr StagedMigrationImage;
  ex_rules : gmap ustr SchemaMutationRuleSet;
}.

Definition new_executor (dir : ustr) : Executor := {| data_dir := dir; staged := ∅; ex_rules := ∅ |}.

Definition set_staged (m : gmap ustr StagedMigrationImage) (ex : Executor) : Executor :=
  {| data_dir := data_dir ex; staged := m; ex_rules := ex_rules ex |}.

Definition set_rules_for_table (table_id : ustr) (rules : SchemaMutationRuleSet) (ex : Executor) : Executor :=
  {| data_dir := data_dir ex; staged := staged ex;
     ex_rules := <[normalize_identifier table_id := rules]> (ex_rules ex) |}.

Record SchemaMigrationProgress := {
  rows_rewritten : Z;
  rows_total : option Z;
  resume_token : option ustr;
}.

(** The body of the rewriting loop on a record that is not a delete. *)
Definition rewrite_record (rules : option SchemaMutationRuleSet) (schema : TableSchema)
    (record : TransactionRecord) (cache : SchemaCache) : result TransactionRecord DatabaseError * SchemaCache :=
  if eqb (kind record) Insert || eqb (kind record) Update then
    match rules with
    | Some rule_set =>
        match payload_logical record with
        | None => (Err CatalogWrite, cache)
        | Some payload =>
            let '(r, cache) := apply_schema_rules_to_payload payload rule_set schema cache in
            (let? payload := r in Ok (set_payload (Some payload) None record), cache)
        end
    | None => (Ok record, cache)
    end
  else (Ok record, cache).

(** The loop over the records that are not deletes. *)
Fixpoint rewrite_records (rules : option SchemaMutationRuleSet) (schema : TableSchema)
    (records : list TransactionRecord) (cache : SchemaCache) :
    result (list TransactionRecord) DatabaseError * SchemaCache :=
  match records with
  | [] => (Ok [], cache)
  | record :: rest =>
      if eqb (kind record) Delete then rewrite_records rules schema rest cache
      else
        let '(r, cache) := rewrite_record rules schema record cache in
        match r with
        | Err e => (Err e, cache)
        | Ok record =>
            let '(r, cache) := rewrite_records rules schema rest cache in
            (let? rest := r in Ok (record :: rest), cache)
        end
  end.

(** Executor, cache of schema orderings and disk. *)
Abbreviation MState := (Executor * SchemaCache * World)%type.

Definition fail {A} (r : result A DatabaseError) : result A Failure := map_err Failed r.

Definition rewrite_rows (catalog : Catalog) (table_id : ustr) (s : MState) :
    result SchemaMigrationProgress Failure * MState :=
  let '(ex, cache, w) := s in
  match fail (wal_stream_key_for_table catalog table_id) with
  | Err e => (Err e, (ex, cache, w))
  | Ok key =>
  let final := wal_file_path (data_dir ex) key in
  match fail (payload_context_for_table catalog table_id) with
  | Err e => (Err e, (ex, cache, w))
  | Ok context =>
  let '(loaded, w) := load_records_from_path_with_context final context w in
  match loaded with
  | Err e => (Err e, (ex, cache, w))
  | Ok source_records =>
  let rules := ex_rules ex !! normalize_identifier table_id in
  match catalog_table catalog table_id with
  | None => (Err (Failed TableNotFound), (ex, cache, w))
  | Some table =>
  let '(r, cache) := rewrite_records rules (te_schema table) source_records cache in
  match fail r with
  | Err e => (Err e, (ex, cache, w))
  | Ok rewritten =>
      let image :=
        {| stream_key := key; final_path := final; temp_path := final ++ lit ".migrate.tmp";
           backup_path := final ++ lit ".migrate.bak"; image_records := rewritten |} in
      (Ok {| rows_rewritten := Z.of_nat (length rewritten);
             rows_total := Some (Z.of_nat (length source_records));
             resume_token := (λ r, lit "txid:" ++ show_u64 (id r)) <$> last rewritten |},
       (set_staged (<[normalize_identifier table_id := image]> (staged ex)) ex, cache, w))
  end end end end end.

Definition rebuild_indexes (table_id : ustr) (s : MState) : result unit Failure * MState :=
  (match staged s.1.1 !! normalize_identifier table_id with
   | Some _ => Ok tt
   | None => Err (Failed TableNotLocked)
   end, s).

Definition flush_temp_image (catalog : Catalog) (table_id : ustr) (s : MState) : result unit Failure * MState :=
  let '(ex, cache, w) := s in
  match staged ex !! normalize_identifier table_id with
  | None => (Err (Failed TableNotLocked), s)
  | Some image =>
  match fail (payload_context_for_table catalog table_id) with
  | Err e => (Err e, s)
  | Ok context =>
  let '(rng, w) := pop_nonces w in
  match frame_records_as_wal_file_with_context rng (image_records image) context with
  | Err _ => (Err (Failed CatalogWrite), (ex, cache, w))
  | Ok file_bytes =>
      let '(written, w) := write_bytes (temp_path image) file_bytes w in
      (if written then Ok tt else Err (Failed CatalogWrite), (ex, cache, w))
  end end end.

(** [if path.exists() { ... }]. *)
Definition exists_file (path : ustr) (w : World) : bool := negb (is_none (disk w !! path)).

Definition cutover (table_id : ustr) (s : MState) : result unit Failure * MState :=
  let '(ex, cache, w) := s in
  let key := normalize_identifier table_id in
  match staged ex !! key with
  | None => (Err (Failed TableNotLocked), s)
  | Some image =>
  let ex := set_staged (delete key (staged ex)) ex in
  let '(_, w) := remove_file (backup_path image) w in
  let '(saved, w) :=
    if exists_file (final_path image) w then rename_file (final_path image) (backup_path image) w
    else (Some true, w) in
  match saved with
  | Some true =>
      let '(moved, w) := rename_file (temp_path image) (final_path image) w in
      match moved with
      | Some true =>
          if exists_file (backup_path image) w then
            let '(removed, w) := remove_file (backup_path image) w in
            (match removed with
             | Some true => Ok tt
             | _ => Err (Failed (map_io_error_to_catalog_error removed))
             end, (ex, cache, w))
          else (Ok tt, (ex, cache, w))
      | _ =>
          let w := if exists_file (backup_path image) w
                   then (rename_file (backup_path image) (final_path image) w).2 else w in
          (Err (Failed (map_io_error_to_catalog_error moved)), (ex, cache, w))
      end
  | _ => (Err (Failed CatalogWrite), (ex, cache, w))
  end
  end.

(** The steps [ALTER TABLE] runs when a rewrite is required; the first error ends them. *)
Definition migrate_rows (catalog : Catalog) (table_id : ustr) (rules : SchemaMutationRuleSet)
    (dir : ustr) (cache : SchemaCache) (w : World) : result unit Failure * MState :=
  let ex := set_rules_for_table table_id rules (new_executor dir) in
  let '(r, s) := rewrite_rows catalog table_id (ex, cache, w) in
  match r with
  | Err e => (Err e, s)
  | Ok _ =>
      let '(r, s) := rebuild_indexes table_id s in
      match r with
      | Err e => (Err e, s)
      | Ok _ =>
          let '(r, s) := flush_temp_image catalog table_id s in
          match r with
          | Err e => (Err e, s)
          | Ok _ => cutover table_id s
          end
      end
  end.
End migration.

(** ** Where the migration writes *)

(** The digest is written in lower-case hexadecimal. *)
Class HexDigest `{Digest} := {
  md5_hex_digits bs : Forall (λ c, 48 ≤ c ≤ 57 ∨ 97 ≤ c ≤ 102) (md5_hex bs)
}.

Lemma rename_file_other from to w path :
  path ≠ from → path ≠ to → disk (rename_file from to w).2 !! path = disk w !! path.
Proof.
  intros Hf Ht. unfold rename_file, pop_fault. destruct (faults w 0); [|done]. simpl.
  destruct (disk w !! from); [|done]. simpl. by rewrite lookup_insert_ne, lookup_delete_ne.
Qed.

Lemma remove_file_other p w path : path ≠ p → disk (remove_file p w).2 !! path = disk w !! path.
Proof.
  intros Hp. unfold remove_file, pop_fault. destruct (faults w 0); [|done]. simpl.
  destruct (disk w !! p); [|done]. simpl. by rewrite lookup_delete_ne.
Qed.

Lemma write_bytes_other p bs w path : path ≠ p → disk (write_bytes p bs w).2 !! path = disk w !! path.
Proof.
  intros Hp. unfold write_bytes, pop_fault. destruct (faults w 0); [|done]. simpl.
  destruct (faults w 1); simpl; by rewrite lookup_insert_ne.
Qed.

Section footprint.
Context {ordinal_bincode : Bincode OrdinalRowPayload} {map_bincode : Bincode row_map}.
Context {legacy_ordinal_bincode : Bincode (list bytes)}.
Context `{Bincode EncryptedRowPayloadEnvelope} `{Bincode LegacyEncryptedRowPayloadEnvelope}.
Context `{FieldValues} `{SchemaHasher} `{RowCrypto} `{Zlib} `{Env} `{Bincode TransactionRecord} `{Digest}.

(** The three files of an image are not [path]. *)
Definition avoids (path : ustr) (image : StagedMigrationImage) : Prop :=
  path ≠ final_path image ∧ path ≠ temp_path image ∧ path ≠ backup_path image.

Lemma load_disk path context w : disk (load_records_from_path_with_context path context w).2 = disk w.
Proof.
  unfold load_records_from_path_with_context. destruct (disk w !! path); [|done]. unfold pop_fault.
  by destruct (faults w 0).
Qed.

Lemma rewrite_rows_disk catalog table_id ex cache w r ex' cache' w' :
  rewrite_rows catalog table_id (ex, cache, w) = (r, (ex', cache', w')) →
  disk w' = disk w ∧
  (staged ex' = staged ex ∨
   ∃ key image, wal_stream_key_for_table catalog table_id = Ok key ∧
     staged ex' = <[normalize_identifier table_id := image]> (staged ex) ∧
     final_path image = wal_file_path (data_dir ex) key ∧
     temp_path image = wal_file_path (data_dir ex) key ++ lit ".migrate.tmp" ∧
     backup_path image = wal_file_path (data_dir ex) key ++ lit ".migrate.bak").
Proof.
  unfold rewrite_rows, fail. destruct (wal_stream_key_for_table catalog table_id) as [key|]; simpl; [|naive_solver].
  destruct (payload_context_for_table catalog table_id) as [context|]; simpl; [|naive_solver].
  pose proof (load_disk (wal_file_path (data_dir ex) key) context w) as Hdisk.
  destruct (load_records_from_path_with_context _ context w) as [[records|e] w1]; simpl in *; [|naive_solver].
  destruct (catalog_table catalog table_id) as [t|]; [|naive_solver].
  destruct (rewrite_records _ _ records cache) as [[rewritten|e] cache1]; simpl; [|naive_solver].
  intros [= <- <- <- <-]. split; [done|]. right. eexists key, _. split; [done|]. simpl. done.
Qed.

Lemma flush_disk catalog table_id ex cache w r ex' cache' w' path :
  flush_temp_image catalog table_id (ex, cache, w) = (r, (ex', cache', w')) →
  (∀ image, staged ex !! normalize_identifier table_id = Some image → avoids path image) →
  disk w' !! path = disk w !! path ∧ staged ex' = staged ex.
Proof.
  unfold flush_temp_image, fail. intros Hf Ha.
  destruct (staged ex !! normalize_identifier table_id) as [image|]; [|naive_solver].
  destruct (Ha image eq_refl) as (_ & Ht & _).
  destruct (payload_context_for_table catalog table_id) as [context|]; simpl in Hf; [|naive_solver].
  destruct (frame_records_as_wal_file_with_context _ _ _) as [bs|]; [|naive_solver].
  pose proof (write_bytes_other (temp_path image) bs (mkWorld (disk w) (faults w) (λ n, nonces w (S n))) path Ht) as Hw.
  destruct (write_bytes _ bs _) as [written w1]. simpl in Hw. by destruct written; simplify_eq.
Qed.

Lemma cutover_disk table_id ex cache w r ex' cache' w' path :
  cutover table_id (ex, cache, w) = (r, (ex', cache', w')) →
  (∀ image, staged ex !! normalize_identifier table_id = Some image → avoids path image) →
  disk w' !! path = disk w !! path.
Proof.
  unfold cutover. intros Hc Ha. destruct (staged ex !! normalize_identifier table_id) as [image|]; [|naive_solver].
  destruct (Ha image eq_refl) as (Hf & Ht & Hb).
  pose proof (remove_file_other (backup_path image) w path Hb) as Hw.
  destruct (remove_file (backup_path image) w) as [o1 w1]. simpl in Hw.
  assert (∀ o2 w2, (if exists_file (final_path image) w1
                    then rename_file (final_path image) (backup_path image) w1 else (Some true, w1)) = (o2, w2) →
                   disk w2 !! path = disk w !! path) as Hw2.
  { intros o2 w2. destruct (exists_file _ w1); [|by intros [= <- <-]].
    intros E. pose proof (rename_file_other (final_path image) (backup_path image) w1 path Hf Hb) as E'.
    rewrite E in E'. simpl in E'. congruence. }
  destruct (if exists_file (final_path image) w1 then _ else _) as [o2 w2]. specialize (Hw2 _ _ eq_refl).
  destruct o2 as [[]|]; simplify_eq; try done.
  pose proof (rename_file_other (temp_path image) (final_path image) w2 path Ht Hf) as Hw3.
  destruct (rename_file (temp_path image) _ w2) as [o3 w3]. simpl in Hw3.
  pose proof (rename_file_other (backup_path image) (final_path image) w3 path Hb Hf) as Hw4.
  pose proof (remove_file_other (backup_path image) w3 path Hb) as Hw5.
  destruct (exists_file (backup_path image) w3), (remove_file (backup_path image) w3), o3 as [[]|];
    simpl in *; simplify_eq; congruence.
Qed.

Lemma migrate_rows_other catalog table_id rules dir cache w path :
  (∀ key suffix, wal_stream_key_for_table catalog table_id = Ok key → path ≠ wal_file_path dir key ++ suffix) →
  disk (migrate_rows catalog table_id rules dir cache w).2.2 !! path = disk w !! path.
Proof.
  intros Hp. unfold migrate_rows.
  destruct (rewrite_rows _ _ _) as [r [[ex1 c1] w1]] eqn:E1. apply rewrite_rows_disk in E1 as [Hd1 Hst].
  destruct r; [|by simpl; rewrite Hd1]. simpl in Hst.
  assert (∀ image, staged ex1 !! normalize_identifier table_id = Some image → avoids path image) as Ha.
  { intros image Hi. destruct Hst as [Hst|(key & image' & Hk & Hst & Hf & Ht & Hb)]; rewrite Hst in Hi.
    - by rewrite lookup_empty in Hi.
    - rewrite lookup_insert_eq in Hi. injection Hi as <-. unfold avoids. rewrite Hf, Ht, Hb.
      split; [|by auto]. rewrite <- (app_nil_r (wal_file_path dir key)). auto. }
  unfold rebuild_indexes. destruct (match _ with Some _ => _ | None => _ end); [|by simpl; rewrite Hd1].
  destruct (flush_temp_image _ _ _) as [r2 [[ex2 c2] w2]] eqn:E2. apply (flush_disk _ _ _ _ _ _ _ _ _ path) in E2 as [Hd2 Hs2]; [|done].
  destruct r2; [|by simpl; rewrite Hd2, Hd1].
  destruct (cutover _ _) as [r3 [[ex3 c3] w3]] eqn:E3. apply (cutover_disk _ _ _ _ _ _ _ _ path) in E3; [|by rewrite Hs2].
  simpl. by rewrite E3, Hd2, Hd1.
Qed.

Lemma stable_id_no_colon `{!HexDigest} parts : 58 ∉ stable_id parts.
Proof.
  unfold stable_id. intros Hin. pose proof (md5_hex_digits (utf8_encode (parts ≫= λ part, part ++ lit ":"))) as Hhex.
  rewrite Forall_forall in Hhex. specialize (Hhex 58). apply (sublist_subseteq _ _ (sublist_take _ 16)) in Hin.
  specialize (Hhex Hin). lia.
Qed.

(** [ALTER TABLE] never rewrites the rows of the table.  The migration names the table's file after
    the table's WAL stream id as it is, while the WAL names it after the digest of that id; the id of a
    table has a colon in it and a digest has not, so the file the migration reads, stages and replaces
    is not the table's log: whatever the migration reports, the log is unchanged. *)
Theorem migration_misses_wal_file `{!HexDigest} catalog table_id rules dir cache w table key :
  catalog_table catalog (normalize_identifier table_id) = Some table →
  obfuscated_stream_key (wal_stream_id table (catalog_database_id catalog)) = Ok key →
  disk (migrate_rows catalog table_id rules dir cache w).2.2 !! wal_file_path dir key
  = disk w !! wal_file_path dir key.
Proof.
  intros Ht Hk. apply migrate_rows_other. intros stream suffix Hs Heq.
  unfold wal_stream_key_for_table, entity_wal_stream_id in Hs. rewrite Ht in Hs.
  destruct (is_empty _); [done|]. injection Hs as Hs. simpl in Hs.
  unfold obfuscated_stream_key in Hk. destruct (is_empty _); [done|]. injection Hk as Hk.
  unfold wal_file_path, file_name in Heq. rewrite <- !app_assoc in Heq. do 2 apply app_inv_head in Heq.
  assert (58 ∈ stream ++ lit "." ++ extension DataFile ++ suffix) as Hin.
  { apply elem_of_app. left. rewrite <- Hs. unfold wal_stream_id. destruct (te_temporary table); set_solver. }
  rewrite <- Heq, !elem_of_app in Hin. destruct Hin as [Hin|Hin].
  - rewrite <- Hk in Hin. by apply stable_id_no_colon in Hin.
  - revert Hin. rewrite <- elem_of_app. apply (bool_decide_unpack (58 ∉ lit "." ++ extension DataFile)). vm_compute. exact I.
Qed.
End footprint.

(** ** What the migration keeps of the log *)

(** The fields of a record that replay goes by, its payload apart. *)
Definition same_header (r r' : TransactionRecord) : Prop :=
  id r' = id r ∧ groupid r' = groupid r ∧ refid r' = refid r ∧ kind r' = kind r.

Section image.
Context {ordinal_bincode : Bincode OrdinalRowPayload} {map_bincode : Bincode row_map}.
Context {legacy_ordinal_bincode : Bincode (list bytes)}.
Context `{Bincode EncryptedRowPayloadEnvelope} `{Bincode LegacyEncryptedRowPayloadEnvelope}.
Context `{FieldValues} `{SchemaHasher}.

Lemma rewrite_record_header rules schema record cache record' cache' :
  rewrite_record rules schema record cache = (Ok record', cache') → same_header record record'.
Proof.
  unfold rewrite_record. destruct (_ || _); [|by intros [= <- <-]].
  destruct rules as [rule_set|]; [|by intros [= <- <-]]. destruct (payload_logical record) as [p|]; [|done].
  destruct (apply_schema_rules_to_payload p rule_set schema cache) as [[bs|] c]; [|done]. by intros [= <- <-].
Qed.

Lemma rewrite_records_headers rules schema records cache out cache' :
  rewrite_records rules schema records cache = (Ok out, cache') →
  Forall2 same_header (filter (λ r, kind r ≠ Delete) records) out.
Proof.
  revert cache out cache'. induction records as [|r records IH]; intros cache out cache'.
  { intros [= <- <-]. constructor. }
  cbn [rewrite_records]. destruct (eqb (kind r) Delete) eqn:Ek.
  - apply eqb_eq in Ek. rewrite filter_cons_False by (by intros []). apply IH.
  - apply eqb_false in Ek. rewrite filter_cons_True by done.
    destruct (rewrite_record rules schema r cache) as [[r'|] c] eqn:Er; [|done].
    destruct (rewrite_records rules schema records c) as [[rest|] c'] eqn:Es; [|done]. intros [= <- <-].
    constructor; [by eapply rewrite_record_header|by eapply IH].
Qed.

Lemma image_no_deletes rules schema records cache out cache' :
  rewrite_records rules schema records cache = (Ok out, cache') → Forall (λ r, kind r ≠ Delete) out.
Proof.
  intros Hf%rewrite_records_headers. apply Forall_forall. intros r' Hr'.
  apply list_elem_of_lookup in Hr' as [i Hi]. destruct (Forall2_lookup_r _ _ _ _ _ Hf Hi) as (r & Hr & _ & _ & _ & ->).
  apply list_elem_of_lookup_2, list_elem_of_filter in Hr. tauto.
Qed.

Lemma image_log_wf l out :
  Forall2 same_header l out → unique_ids l → refs_back l → unique_ids out ∧ refs_back out.
Proof.
  unfold unique_ids, refs_back. induction 1 as [|r r' l out (Hi & _ & Hr & _) Hf IH]; [by intros; split; constructor|].
  intros Hu Hb. apply StronglySorted_inv in Hu as [Hu Hlt]. apply Forall_cons in Hb as [Hb Hbs].
  destruct (IH Hu Hbs) as [Hu' Hb']. split.
  - constructor; [done|]. rewrite Hi. clear -Hf Hlt.
    induction Hf as [|a a' l out (Ha & _) _ IH]; [constructor|]. apply Forall_cons in Hlt as [? ?].
    constructor; [by rewrite Ha|auto].
  - constructor; [by rewrite Hi, Hr|done].
Qed.

Lemma sublist_unique_ids l l' : sublist l' l → unique_ids l → unique_ids l'.
Proof.
  unfold unique_ids. induction 1 as [|x l' l Hs IH|x l' l Hs IH]; intros Hu; [done|..];
    apply StronglySorted_inv in Hu as [Hu Hlt]; [|auto].
  constructor; [auto|]. apply Forall_forall. intros y Hy. rewrite Forall_forall in Hlt.
  apply Hlt. by eapply sublist_subseteq.
Qed.
End image.

Section revival.
Context {ordinal_bincode : Bincode OrdinalRowPayload} {map_bincode : Bincode row_map}.
Context {legacy_ordinal_bincode : Bincode (list bytes)}.
Context `{Bincode EncryptedRowPayloadEnvelope} `{Bincode LegacyEncryptedRowPayloadEnvelope}.
Context `{FieldValues} `{SchemaHasher} `{Env}.
Context {Row : Type} (decode_row : bytes → option Row).

Lemma no_deletes_live l r row :
  Forall (λ r, kind r ≠ Delete) l → r ∈ l → groupid r = None → record_row decode_row r = Some row →
  (id r, row) ∈ live_rows_of decode_row l.
Proof.
  intros Hl Hr Hg Hrow. unfold live_rows_of, live_of. apply list_elem_of_filter. split.
  - unfold deleted_ids. rewrite elem_of_list_to_set, list_elem_of_omap. intros (d & Hd & Hv).
    unfold visible_delete in Hv. rewrite Forall_forall in Hl.
    rewrite (proj2 (eqb_false _ _) (Hl d Hd)), andb_false_r in Hv. done.
  - apply list_elem_of_omap. exists r. split; [done|]. unfold visible_row, record_visible_for_live_row_apply.
    by rewrite Hg, Hrow.
Qed.

Lemma deleted_not_live l r d row :
  d ∈ l → kind d = Delete → groupid d = None → refid d = Some (id r) →
  (id r, row) ∉ live_rows_of decode_row l.
Proof.
  intros Hd Hk Hg Hr. unfold live_rows_of, live_of. rewrite list_elem_of_filter. intros [Hn _]. apply Hn.
  unfold deleted_ids. rewrite elem_of_list_to_set, list_elem_of_omap. exists d. split; [done|].
  unfold visible_delete, record_visible_for_live_row_apply. by rewrite Hg, Hk, eqb_refl.
Qed.

(** The migrated image of a log brings deleted rows back.  The rewrite leaves the delete records
    out but keeps the inserts and updates they refer to, so a row that was deleted from the table, and
    that replay of the old log does not return, is returned by replay of the image under the same id. *)
Theorem migration_revives_deleted_rows available_workers rules schema records cache out cache' r d :
  rewrite_records rules schema records cache = (Ok out, cache') →
  unique_ids records → refs_back records →
  r ∈ records → kind r = Insert ∨ kind r = Update → groupid r = None →
  d ∈ records → kind d = Delete → groupid d = None → refid d = Some (id r) →
  (∀ row, (id r, row) ∉ collect_live_rows_from_records decode_row available_workers records) ∧
  ∃ r', r' ∈ out ∧ id r' = id r ∧
    ∀ row, record_row decode_row r' = Some row →
      (id r, row) ∈ collect_live_rows_from_records decode_row available_workers out.
Proof.
  intros Hrw Hu Hb Hr Hk Hg Hd Hdk Hdg Hdr. pose proof (rewrite_records_headers _ _ _ _ _ _ Hrw) as Hf.
  set (kept := filter (λ r, kind r ≠ Delete) records) in Hf.
  assert (unique_ids kept ∧ refs_back kept) as [Huk Hbk].
  { split; [eapply sublist_unique_ids; [apply sublist_filter|done]|]. unfold refs_back in *.
    rewrite Forall_forall in Hb |- *. intros x [_ Hx]%list_elem_of_filter. by apply Hb. }
  destruct (image_log_wf _ _ Hf Huk Hbk) as [Huo Hbo].
  rewrite !collect_replay, !replay_live_rows by done. split; [intros row; by eapply deleted_not_live|].
  assert (r ∈ kept) as [i Hi]%list_elem_of_lookup by (apply list_elem_of_filter; destruct Hk as [-> | ->]; done).
  destruct (Forall2_lookup_l _ _ _ _ _ Hf Hi) as (r' & Hr' & Hid & Hgid & _ & _). exists r'.
  apply list_elem_of_lookup_2 in Hr'. split; [done|]. split; [done|]. intros row Hrow. rewrite <- Hid.
  apply no_deletes_live; [by eapply image_no_deletes|done|congruence|done].
Qed.
End revival.

(** ** The file after a migration *)

Lemma rename_file_cases from to w o w' :
  rename_file from to w = (o, w') →
  (disk w' = disk w ∧ (o = None ∨ o = Some false ∧ disk w !! from = None)) ∨
  ∃ content, o = Some true ∧ disk w !! from = Some content ∧ disk w' = <[to := content]> (delete from (disk w)).
Proof.
  unfold rename_file, pop_fault. destruct (faults w 0); [|by intros [= <- <-]; auto]. simpl.
  destruct (disk w !! from) eqn:E; intros [= <- <-]; simpl; eauto 6.
Qed.

Lemma remove_file_cases path w o w' :
  remove_file path w = (o, w') →
  (disk w' = disk w ∧ (o = None ∨ o = Some false ∧ disk w !! path = None)) ∨
  (o = Some true ∧ disk w' = delete path (disk w)).
Proof.
  unfold remove_file, pop_fault. destruct (faults w 0); [|by intros [= <- <-]; auto]. simpl.
  destruct (disk w !! path) eqn:E; intros [= <- <-]; simpl; eauto 6.
Qed.

Definition distinct_paths (image : StagedMigrationImage) : Prop :=
  final_path image ≠ temp_path image ∧ final_path image ≠ backup_path image ∧ temp_path image ≠ backup_path image.

(** The step that puts the new file in place, when the old one is at the backup path. *)
Lemma cutover_swap image new old w :
  distinct_paths image → disk w !! temp_path image = Some new → disk w !! backup_path image = Some old →
  let '(moved, w1) := rename_file (temp_path image) (final_path image) w in
  match moved with
  | Some true =>
      disk w1 !! final_path image = Some new ∧ disk w1 !! backup_path image = Some old
  | _ =>
      let w2 := if exists_file (backup_path image) w1
                then (rename_file (backup_path image) (final_path image) w1).2 else w1 in
      disk w2 !! final_path image = Some old ∨ disk w2 !! backup_path image = Some old
  end.
Proof.
  intros (Hft & Hfb & Htb) Hnew Hold. destruct (rename_file (temp_path image) _ w) as [moved w1] eqn:E1.
  apply rename_file_cases in E1 as [[Hd Ho]|(c & -> & Hc & Hd)].
  - assert (disk (if exists_file (backup_path image) w1
                  then (rename_file (backup_path image) (final_path image) w1).2 else w1) !! final_path image = Some old ∨
            disk (if exists_file (backup_path image) w1
                  then (rename_file (backup_path image) (final_path image) w1).2 else w1) !! backup_path image = Some old) as Hend.
    { unfold exists_file. rewrite Hd, Hold. simpl.
      destruct (rename_file (backup_path image) _ w1) as [o w2] eqn:E2. simpl.
      apply rename_file_cases in E2 as [[Hd2 _]|(c & -> & Hc & Hd2)]; rewrite Hd2, ?Hd; [by right|left].
      rewrite Hd, Hold in Hc. injection Hc as <-. by rewrite lookup_insert_eq. }
    destruct Ho as [-> | [-> _]]; exact Hend.
  - rewrite Hnew in Hc. injection Hc as <-. rewrite Hd. split; [by rewrite lookup_insert_eq|].
    by rewrite lookup_insert_ne, lookup_delete_ne.
Qed.

Lemma cutover_outcome table_id ex cache w image new old r s :
  staged ex !! normalize_identifier table_id = Some image → distinct_paths image →
  disk w !! final_path image = Some old → disk w !! temp_path image = Some new →
  cutover table_id (ex, cache, w) = (r, s) →
  match r with
  | Ok _ => disk s.2 !! final_path image = Some new ∧ disk s.2 !! backup_path image = None
  | Err _ => disk s.2 !! final_path image = Some old ∨ disk s.2 !! backup_path image = Some old
  end.
Proof.
  intros Hi Hp Hold Hnew. pose proof Hp as (Hft & Hfb & Htb). unfold cutover. rewrite Hi.
  destruct (remove_file (backup_path image) w) as [o0 w0] eqn:E0.
  assert (disk w0 !! final_path image = Some old ∧ disk w0 !! temp_path image = Some new) as [Hold0 Hnew0].
  { apply remove_file_cases in E0 as [[-> _]|[_ ->]]; [done|]. by rewrite !lookup_delete_ne by done. }
  unfold exists_file at 1. rewrite Hold0. simpl.
  destruct (rename_file (final_path image) (backup_path image) w0) as [saved w1] eqn:E1.
  apply rename_file_cases in E1 as [[Hd [-> | [-> ?]]]|(c & -> & Hc & Hd)].
  { intros [= <- <-]. simpl. rewrite Hd. auto. }
  { congruence. }
  rewrite Hold0 in Hc. injection Hc as <-.
  assert (disk w1 !! temp_path image = Some new ∧ disk w1 !! backup_path image = Some old) as [Hn1 Ho1].
  { rewrite Hd. by rewrite lookup_insert_eq, lookup_insert_ne, lookup_delete_ne. }
  pose proof (cutover_swap image new old w1 Hp Hn1 Ho1) as Hs.
  destruct (rename_file (temp_path image) (final_path image) w1) as [[[]|] w2]; try by intros [= <- <-].
  destruct Hs as [Hf2 Hb2]. unfold exists_file. rewrite Hb2. simpl.
  destruct (remove_file (backup_path image) w2) as [o3 w3] eqn:E3.
  apply remove_file_cases in E3 as [[Hd3 Ho]|[-> Hd3]].
  - destruct Ho as [-> | [-> ?]]; intros [= <- <-]; simpl; rewrite Hd3; auto.
  - intros [= <- <-]. simpl. rewrite Hd3. by rewrite lookup_delete_ne, lookup_delete_eq.
Qed.

Section outcome.
Context {ordinal_bincode : Bincode OrdinalRowPayload} {map_bincode : Bincode row_map}.
Context {legacy_ordinal_bincode : Bincode (list bytes)}.
Context `{Bincode EncryptedRowPayloadEnvelope} `{Bincode LegacyEncryptedRowPayloadEnvelope}.
Context `{FieldValues} `{SchemaHasher} `{RowCrypto} `{Zlib} `{Env} `{Bincode TransactionRecord} `{Digest}.

(** [image] is the staged image of the log at [final]. *)
Definition image_of (catalog : Catalog) (table_id : ustr) (rules : SchemaMutationRuleSet)
    (final : ustr) (cache : SchemaCache) (w : World) (image : StagedMigrationImage) : Prop :=
  ∃ table context records,
    catalog_table catalog table_id = Some table ∧
    payload_context_for_table catalog table_id = Ok context ∧
    (load_records_from_path_with_context final context w).1 = Ok records ∧
    (rewrite_records (Some rules) (te_schema table) records cache).1 = Ok (image_records image) ∧
    final_path image = final ∧ temp_path image = final ++ lit ".migrate.tmp" ∧
    backup_path image = final ++ lit ".migrate.bak".

Lemma image_distinct catalog table_id rules final cache w image :
  image_of catalog table_id rules final cache w image → distinct_paths image.
Proof.
  intros (table & context & records & _ & _ & _ & _ & Hf & Ht & Hb). unfold distinct_paths. rewrite Hf, Ht, Hb.
  repeat split; intros Heq.
  - apply (f_equal length) in Heq. rewrite length_app in Heq. simpl in Heq. lia.
  - apply (f_equal length) in Heq. rewrite length_app in Heq. simpl in Heq. lia.
  - by apply app_inv_head in Heq.
Qed.

Lemma rewrite_rows_image catalog table_id rules dir cache w key progress ex' cache' w' :
  wal_stream_key_for_table catalog table_id = Ok key →
  rewrite_rows catalog table_id (set_rules_for_table table_id rules (new_executor dir), cache, w)
    = (Ok progress, (ex', cache', w')) →
  ∃ image, staged ex' !! normalize_identifier table_id = Some image ∧
           image_of catalog table_id rules (wal_file_path dir key) cache w image.
Proof.
  intros Hk. unfold rewrite_rows, fail. rewrite Hk. simpl.
  destruct (payload_context_for_table catalog table_id) as [context|] eqn:Ec; simpl; [|done].
  destruct (load_records_from_path_with_context _ context w) as [[records|e] w1] eqn:El; simpl; [|done].
  destruct (catalog_table catalog table_id) as [t|] eqn:Et; [|done]. rewrite lookup_insert_eq.
  destruct (rewrite_records _ _ records cache) as [[rewritten|e] cache1] eqn:Er; cbn [map_err]; [|done].
  intros Heq. pose proof (f_equal (λ p, staged p.2.1.1) Heq) as Hs. cbn [fst snd staged set_staged] in Hs.
  eexists. split; [by rewrite <- Hs, lookup_insert_eq|].
  exists t, context, records. simpl. by rewrite El, Er.
Qed.

Lemma flush_writes catalog table_id ex cache w image r s :
  staged ex !! normalize_identifier table_id = Some image → distinct_paths image →
  flush_temp_image catalog table_id (ex, cache, w) = (r, s) →
  s.1.1 = ex ∧ disk s.2 !! final_path image = disk w !! final_path image ∧
  (∀ u, r = Ok u → ∃ context rng bs,
     payload_context_for_table catalog table_id = Ok context ∧
     frame_records_as_wal_file_with_context rng (image_records image) context = Ok bs ∧
     disk s.2 !! temp_path image = Some bs).
Proof.
  intros Hi (Hft & _) . unfold flush_temp_image, fail. rewrite Hi.
  destruct (payload_context_for_table catalog table_id) as [context|] eqn:Ec; simpl; [|by intros [= <- <-]].
  destruct (frame_records_as_wal_file_with_context _ _ _) as [bs|] eqn:Ef; [|by intros [= <- <-]].
  pose proof (write_bytes_other (temp_path image) bs (mkWorld (disk w) (faults w) (λ n, nonces w (S n))) _ Hft) as Hw.
  destruct (write_bytes _ bs _) as [written w1] eqn:Ew. simpl in Hw.
  destruct written; intros [= <- <-]; (split; [done|]); (split; [done|]); [|done].
  intros _ _. exists context, (nonces w 0), bs. split; [done|]. split; [done|]. simpl.
  unfold write_bytes, pop_fault in Ew. simpl in Ew. destruct (faults w 0), (faults w 1); simplify_eq/=.
  by rewrite lookup_insert_eq.
Qed.

(** A migration replaces the file it works on as a whole or leaves it recoverable.  When it reports
    success, the file holds the framed image of the records that were in it, each rewritten by the
    rules; when any read, write or rename fails on the way, the old content is still there, under the
    file's name or under its backup name. *)
Theorem migration_replaces_or_keeps_file catalog table_id rules dir cache w key old r s :
  wal_stream_key_for_table catalog table_id = Ok key →
  disk w !! wal_file_path dir key = Some old →
  migrate_rows catalog table_id rules dir cache w = (r, s) →
  match r with
  | Ok _ =>
      ∃ image context rng bs,
        image_of catalog table_id rules (wal_file_path dir key) cache w image ∧
        payload_context_for_table catalog table_id = Ok context ∧
        frame_records_as_wal_file_with_context rng (image_records image) context = Ok bs ∧
        disk s.2 !! wal_file_path dir key = Some bs
  | Err _ =>
      disk s.2 !! wal_file_path dir key = Some old ∨
      disk s.2 !! (wal_file_path dir key ++ lit ".migrate.bak") = Some old
  end.
Proof.
  intros Hk Hold. unfold migrate_rows.
  destruct (rewrite_rows _ _ _) as [r1 [[ex1 c1] w1]] eqn:E1. pose proof E1 as [Hd1 _]%rewrite_rows_disk.
  destruct r1 as [progress|]; [|intros [= <- <-]; left; simpl; by rewrite Hd1].
  destruct (rewrite_rows_image _ _ _ _ _ _ _ _ _ _ _ Hk E1) as (image & Hst & Him).
  pose proof (image_distinct _ _ _ _ _ _ _ Him) as Hp.
  assert (final_path image = wal_file_path dir key ∧ backup_path image = wal_file_path dir key ++ lit ".migrate.bak")
    as [Hf Hb] by (destruct Him as (? & ? & ? & ? & ? & ? & ? & ? & ? & ?); done).
  unfold rebuild_indexes. cbn [fst]. rewrite Hst.
  destruct (flush_temp_image _ _ _) as [r2 [[ex2 c2] w2]] eqn:E2.
  apply (flush_writes _ _ _ _ _ image) in E2 as (Hex & Hd2 & Hok); [|done..]. simpl in Hex, Hd2, Hok. subst ex2.
  rewrite Hf, Hd1, Hold in Hd2.
  destruct r2 as [u|]; [|intros [= <- <-]; left; done].
  destruct (Hok u eq_refl) as (context & rng & bs & Hc & Hfr & Ht). intros E3.
  eapply cutover_outcome in E3; [|done|done|by rewrite Hf|done]. rewrite Hf, Hb in E3.
  destruct r as [u'|]; [|done]. destruct E3 as [E3 _]. eauto 10.
Qed.
End outcome.
