(* ===== verification/Coordinator.v ===== *)
(** * Transaction coordinator

    Models [server/src/core/transaction_coordinator.rs]: the thread that owns the staged queries of
    every session and the table locks.  A command is handled to its reply before the next one is
    received, so the loop is a function from the state and a command to a reply and the next
    state; callers on several threads interleave as a sequence of commands.  Session ids and
    queries are plain data; the SQL parser that names the statements of a query is a parameter, and
    every result holds for every parser.  A closed channel is not modelled. *)

From Stdlib Require Import ZArith Lia.
From stdpp Require Import base list gmap strings.
From S2P Require Import Prelude Identifiers Statements.

(** ** Commands *)

Record DataQuery := mkDataQuery { database_id : ustr; sql : ustr }.

Inductive QueryRoutingDecision := ExecuteImmediately | Staged | Rejected (message : string).

Inductive CoordinatorCommand :=
| Begin (session_id : ustr)
| BeginWithTableLocks (session_id : ustr) (table_ids : list ustr)
| IsActive (session_id : ustr)
| RouteQuery (session_id : ustr) (query : DataQuery) (can_stage : bool)
| Stage (session_id : ustr) (query : DataQuery)
| GetStaged (session_id : ustr)
| TakeForCommit (session_id : ustr)
| RestoreAfterFailedCommit (session_id : ustr) (staged : list DataQuery)
| FinalizeCommit (session_id : ustr)
| ApplyRemoteLocks (owner_id : ustr) (table_ids : list ustr)
| ReleaseRemoteLocks (owner_id : ustr) (table_ids : list ustr)
| Rollback (session_id : ustr).

(** What the reply channels carry. *)
Inductive Reply :=
| RUnit (r : result unit string)
| RBool (b : bool)
| RRoute (d : QueryRoutingDecision)
| RQueries (r : result (list DataQuery) string)
| RNone.

(** ** State *)

Record CoordinatorState := mkCoordinator {
  staged_by_session : gmap ustr (list DataQuery);
  table_locks_by_table : gmap ustr ustr;
  locked_tables_by_session : gmap ustr (gset ustr)
}.

Definition set_staged x (s : CoordinatorState) :=
  mkCoordinator x (table_locks_by_table s) (locked_tables_by_session s).
Definition set_locks x y (s : CoordinatorState) := mkCoordinator (staged_by_session s) x y.

Definition new_coordinator : CoordinatorState := mkCoordinator ∅ ∅ ∅.

(** [seen] and [normalized] of the loop. *)
Fixpoint normalize_unique (seen : gset ustr) (table_ids : list ustr) : list ustr :=
  match table_ids with
  | [] => []
  | table_id :: rest =>
      let normalized := normalize_identifier table_id in
      if is_empty normalized then normalize_unique seen rest
      else if bool_decide (normalized ∈ seen) then normalize_unique seen rest
      else normalized :: normalize_unique ({[normalized]} ∪ seen) rest
  end.

Definition normalize_unique_table_ids (table_ids : list ustr) : list ustr := normalize_unique ∅ table_ids.

(** The owner of the table is somebody else. *)
Definition locked_by_other (locks : gmap ustr ustr) (session_id table_id : ustr) : bool :=
  match locks !! table_id with Some owner => negb (eqb owner session_id) | None => false end.

Definition locked_by (locks : gmap ustr ustr) (session_id table_id : ustr) : bool :=
  match locks !! table_id with Some owner => eqb owner session_id | None => false end.

Definition release_session_locks (owner_id : ustr) (s : CoordinatorState) : CoordinatorState :=
  match locked_tables_by_session s !! owner_id with
  | None => s
  | Some locked_tables =>
      set_locks
        (foldl (λ locks table_id, if locked_by locks owner_id table_id then delete table_id locks else locks)
           (table_locks_by_table s) (elements locked_tables))
        (delete owner_id (locked_tables_by_session s)) s
  end.

Section coordinator.

(** The SQL parser, on the text and the database of a query. *)
Context (parse_mysql8_sql_requests : ustr → ustr → option (list SqlRequest)).

Definition dml_table_ids_for_query (query : DataQuery) : list ustr :=
  match parse_mysql8_sql_requests (sql query) (database_id query) with
  | None => []
  | Some statements =>
      normalize_unique_table_ids
        (omap (λ statement, match operation statement with
                            | SqlInsert | SqlUpdate | SqlDelete => object_name statement
                            | _ => None
                            end) statements)
  end.

(** [ApplyRemoteLocks]: tables another session holds are skipped. *)
Definition apply_remote_locks (owner_id : ustr) (table_ids : list ustr) (s : CoordinatorState)
    : Reply * CoordinatorState :=
  let normalized_tables := normalize_unique_table_ids table_ids in
  let lock_set := default ∅ (locked_tables_by_session s !! owner_id) in
  let '(locks, lock_set) :=
    foldl (λ '(locks, lock_set) t,
             if locked_by_other locks owner_id t then (locks, lock_set)
             else (<[t := owner_id]> locks, {[t]} ∪ lock_set))
      (table_locks_by_table s, lock_set) normalized_tables in
  (RNone, set_locks locks (<[owner_id := lock_set]> (locked_tables_by_session s)) s).

(** [ReleaseRemoteLocks]: the given tables, or all of them when none is given. *)
Definition release_remote_locks (owner_id : ustr) (table_ids : list ustr) (s : CoordinatorState)
    : Reply * CoordinatorState :=
  let normalized_tables := normalize_unique_table_ids table_ids in
  if is_empty normalized_tables then (RNone, release_session_locks owner_id s)
  else
    match locked_tables_by_session s !! owner_id with
    | None => (RNone, s)
    | Some locked_tables =>
        let '(locks, locked_tables) :=
          foldl (λ '(locks, locked_tables) t,
                   (if locked_by locks owner_id t then delete t locks else locks, locked_tables ∖ {[t]}))
            (table_locks_by_table s, locked_tables) normalized_tables in
        (RNone,
         set_locks locks
           (if decide (locked_tables = ∅) then delete owner_id (locked_tables_by_session s)
            else <[owner_id := locked_tables]> (locked_tables_by_session s)) s)
    end.

(** One round of the receive loop: the reply and the next state. *)
Definition handle_command (command : CoordinatorCommand) (s : CoordinatorState) : Reply * CoordinatorState :=
  match command with
  | Begin session_id =>
      match staged_by_session s !! session_id with
      | Some _ => (RUnit (Err "transaction already active for this session"), s)
      | None => (RUnit (Ok tt), set_staged (<[session_id := []]> (staged_by_session s)) s)
      end
  | BeginWithTableLocks session_id table_ids =>
      match staged_by_session s !! session_id with
      | Some _ => (RUnit (Err "transaction already active for this session"), s)
      | None =>
          let normalized_tables := normalize_unique_table_ids table_ids in
          if is_empty normalized_tables then (RUnit (Err "lock tables requires at least one table name"), s)
          else if existsb (locked_by_other (table_locks_by_table s) session_id) normalized_tables
          then (RUnit (Err "one or more requested tables are locked by another session"), s)
          else
            let lock_set := default ∅ (locked_tables_by_session s !! session_id) in
            let locks := foldl (λ locks t, <[t := session_id]> locks) (table_locks_by_table s) normalized_tables in
            let lock_set := foldl (λ set t, {[t]} ∪ set) lock_set normalized_tables in
            (RUnit (Ok tt),
             set_staged (<[session_id := []]> (staged_by_session s))
               (set_locks locks (<[session_id := lock_set]> (locked_tables_by_session s)) s))
      end
  | IsActive session_id => (RBool (bool_decide (is_Some (staged_by_session s !! session_id))), s)
  | RouteQuery session_id query can_stage =>
      let touched_tables := dml_table_ids_for_query query in
      if existsb (locked_by_other (table_locks_by_table s) session_id) touched_tables
      then (RRoute (Rejected "table is locked by another session"), s)
      else
        match staged_by_session s !! session_id with
        | Some staged =>
            if negb can_stage
            then (RRoute (Rejected "only single-statement insert/update/delete queries are allowed inside explicit transactions"), s)
            else (RRoute Staged, set_staged (<[session_id := staged ++ [query]]> (staged_by_session s)) s)
        | None => (RRoute ExecuteImmediately, s)
        end
  | Stage session_id query =>
      match staged_by_session s !! session_id with
      | None => (RUnit (Err "no active transaction for this session"), s)
      | Some staged => (RUnit (Ok tt), set_staged (<[session_id := staged ++ [query]]> (staged_by_session s)) s)
      end
  | GetStaged session_id =>
      match staged_by_session s !! session_id with
      | None => (RQueries (Err "no active transaction for this session"), s)
      | Some staged => (RQueries (Ok staged), s)
      end
  | TakeForCommit session_id =>
      match staged_by_session s !! session_id with
      | None => (RQueries (Err "no active transaction for this session"), s)
      | Some staged => (RQueries (Ok staged), set_staged (delete session_id (staged_by_session s)) s)
      end
  | RestoreAfterFailedCommit session_id staged =>
      match staged_by_session s !! session_id with
      | Some _ => (RUnit (Err "transaction already active for this session"), s)
      | None => (RUnit (Ok tt), set_staged (<[session_id := staged]> (staged_by_session s)) s)
      end
  | Rollback session_id =>
      let removed := bool_decide (is_Some (staged_by_session s !! session_id)) in
      (RBool removed,
       release_session_locks session_id (set_staged (delete session_id (staged_by_session s)) s))
  | FinalizeCommit session_id =>
      (RUnit (Ok tt),
       release_session_locks session_id (set_staged (delete session_id (staged_by_session s)) s))
  | ApplyRemoteLocks owner_id table_ids => apply_remote_locks owner_id table_ids s
  | ReleaseRemoteLocks owner_id table_ids => release_remote_locks owner_id table_ids s
  end.

Definition run_coordinator_loop (commands : list CoordinatorCommand) (s : CoordinatorState)
    : list Reply * CoordinatorState :=
  foldl (λ '(replies, s) command, let '(r, s) := handle_command command s in (replies ++ [r], s)) ([], s) commands.

(** Show the handler of the command in the goal. *)
Ltac unfold_command := cbn [handle_command]; unfold apply_remote_locks, release_remote_locks.

(** ** Lock tables *)

(** The two lock tables describe one relation: who owns which table. *)
Definition locks_agree (s : CoordinatorState) : Prop :=
  ∀ t o, table_locks_by_table s !! t = Some o ↔ t ∈ default ∅ (locked_tables_by_session s !! o).

Lemma locked_by_spec locks o t : locked_by locks o t = true ↔ locks !! t = Some o.
Proof.
  unfold locked_by. destruct (locks !! t) as [o'|]; [|done]. rewrite eqb_true. split; congruence.
Qed.

Lemma locked_by_other_false locks o t :
  locked_by_other locks o t = false ↔ (∀ o', locks !! t = Some o' → o' = o).
Proof.
  unfold locked_by_other. destruct (locks !! t) as [o'|]; [|by split; [intros _ ? [=]|]].
  rewrite negb_false_iff, eqb_true. split; [intros -> ? [= <-]; done|]. intros Ho. by apply Ho.
Qed.

Lemma insert_all_lookup (o : ustr) (tables : list ustr) (locks : gmap ustr ustr) t :
  foldl (λ locks t, <[t := o]> locks) locks tables !! t
  = if decide (t ∈ tables) then Some o else locks !! t.
Proof.
  revert locks. induction tables as [|x tables IH]; intros locks; cbn [foldl]; [done|]. rewrite IH.
  destruct (decide (t ∈ tables)), (decide (t ∈ x :: tables)) as [Hin|Hin]; try done; try set_solver.
  - apply elem_of_cons in Hin as [-> |]; [|done]. apply lookup_insert_eq.
  - apply lookup_insert_ne. set_solver.
Qed.

Lemma release_all_lookup (o : ustr) (tables : list ustr) (locks : gmap ustr ustr) t :
  foldl (λ locks t, if locked_by locks o t then delete t locks else locks) locks tables !! t
  = if decide (t ∈ tables ∧ locks !! t = Some o) then None else locks !! t.
Proof.
  revert locks. induction tables as [|x tables IH]; intros locks; cbn [foldl].
  { rewrite decide_False; [done|]. intros [?%elem_of_nil _]. done. }
  rewrite IH. clear IH. destruct (locked_by locks o x) eqn:Ex.
  - apply locked_by_spec in Ex. destruct (decide (t = x)) as [-> |Hne].
    + rewrite lookup_delete_eq, (decide_True _ _ (conj (list_elem_of_here _ _) Ex)). by destruct (decide _).
    + rewrite lookup_delete_ne by done. apply decide_ext. set_solver.
  - apply not_true_iff_false in Ex. rewrite locked_by_spec in Ex. apply decide_ext. split; [set_solver|].
    intros [[-> |]%elem_of_cons ?]; done.
Qed.

Lemma insert_all_set (tables : list ustr) (set : gset ustr) :
  foldl (λ set t, {[t]} ∪ set) set tables = list_to_set tables ∪ set.
Proof.
  revert set. induction tables as [|x tables IH]; intros set; cbn [foldl]; [set_solver|]. rewrite IH.
  simpl. set_solver.
Qed.

Lemma locks_agree_same s s' :
  table_locks_by_table s' = table_locks_by_table s →
  locked_tables_by_session s' = locked_tables_by_session s → locks_agree s → locks_agree s'.
Proof. intros E1 E2 Hs t o. rewrite E1, E2. apply Hs. Qed.

(** Tables of [o] change hands: [o] gains or loses some, everybody else keeps theirs. *)
Lemma locks_agree_update s o locks sets :
  locks_agree s →
  (∀ o', o' ≠ o → sets !! o' = locked_tables_by_session s !! o') →
  (∀ t, locks !! t = Some o ↔ t ∈ default ∅ (sets !! o)) →
  (∀ t o', o' ≠ o → locks !! t = Some o' ↔ table_locks_by_table s !! t = Some o') →
  locks_agree (set_locks locks sets s).
Proof.
  intros Hs Hother Ho Hkeep t o'. simpl. destruct (decide (o' = o)) as [-> |Hne]; [apply Ho|].
  rewrite Hkeep, Hother by done. apply Hs.
Qed.

Lemma release_agree o s : locks_agree s → locks_agree (release_session_locks o s).
Proof.
  intros Hs. unfold release_session_locks. destruct (locked_tables_by_session s !! o) as [set|] eqn:E; [|done].
  apply (locks_agree_update s o); [done|by intros; apply lookup_delete_ne|..].
  - intros t. rewrite release_all_lookup, lookup_delete_eq. simpl. specialize (Hs t o). rewrite E in Hs. simpl in Hs.
    destruct (decide _) as [|Hn]; [set_solver|]. split; [|set_solver]. intros Ht. destruct Hn.
    by rewrite elem_of_elements, <- Hs.
  - intros t o' Hne. rewrite release_all_lookup. destruct (decide _) as [[_ ->]|]; [|done]. split; congruence.
Qed.

Lemma apply_remote_lookup (o : ustr) (tables : list ustr) (locks : gmap ustr ustr) (set : gset ustr) :
  let '(locks', set') :=
    foldl (λ '(locks, lock_set) t,
             if locked_by_other locks o t then (locks, lock_set)
             else (<[t := o]> locks, {[t]} ∪ lock_set)) (locks, set) tables in
  (∀ t o', o' ≠ o → locks' !! t = Some o' ↔ locks !! t = Some o') ∧
  (∀ t w, locks !! t = Some w → locks' !! t = Some w) ∧
  ((∀ t, locks !! t = Some o ↔ t ∈ set) → ∀ t, locks' !! t = Some o ↔ t ∈ set').
Proof.
  revert locks set. induction tables as [|x tables IH]; intros locks set; [done|]. cbn [foldl].
  destruct (locked_by_other locks o x) eqn:Ex; [apply IH|].
  rewrite locked_by_other_false in Ex. specialize (IH (<[x := o]> locks) ({[x]} ∪ set)).
  destruct (foldl _ _ tables) as [locks' set']. destruct IH as (IH1 & IHk & IH2).
  assert (∀ t w, locks !! t = Some w → <[x := o]> locks !! t = Some w) as Hkeep.
  { intros t w Hw. destruct (decide (t = x)) as [-> |]; [|by rewrite lookup_insert_ne].
    rewrite lookup_insert_eq. f_equal. symmetry. by apply Ex. }
  split; [|split].
  - intros t o' Hne. rewrite IH1 by done. destruct (decide (t = x)) as [-> |Hx].
    + rewrite lookup_insert_eq. split; [congruence|]. intros Ho'. by destruct (Hne (Ex o' Ho')).
    + by rewrite lookup_insert_ne.
  - eauto.
  - intros Hset. apply IH2. intros t. destruct (decide (t = x)) as [-> |Hx].
    + rewrite lookup_insert_eq. set_solver.
    + rewrite lookup_insert_ne, Hset by done. set_solver.
Qed.

Lemma release_remote_lookup (o : ustr) (tables : list ustr) (locks : gmap ustr ustr) (set : gset ustr) :
  let '(locks', set') :=
    foldl (λ '(locks, locked_tables) t,
             (if locked_by locks o t then delete t locks else locks, locked_tables ∖ {[t]}))
      (locks, set) tables in
  (∀ t o', o' ≠ o → locks' !! t = Some o' ↔ locks !! t = Some o') ∧
  ((∀ t, locks !! t = Some o ↔ t ∈ set) → ∀ t, locks' !! t = Some o ↔ t ∈ set').
Proof.
  revert locks set. induction tables as [|x tables IH]; intros locks set; [done|]. cbn [foldl].
  specialize (IH (if locked_by locks o x then delete x locks else locks) (set ∖ {[x]})).
  destruct (foldl _ _ tables) as [locks' set']. destruct IH as [IH1 IH2]. split.
  - intros t o' Hne. rewrite IH1 by done. destruct (locked_by locks o x) eqn:Ex; [|done].
    apply locked_by_spec in Ex. destruct (decide (t = x)) as [-> |Hx].
    + rewrite lookup_delete_eq. split; congruence.
    + by rewrite lookup_delete_ne.
  - intros Hset. apply IH2. intros t. destruct (locked_by locks o x) eqn:Ex.
    + destruct (decide (t = x)) as [-> |Hx]; [rewrite lookup_delete_eq; set_solver|].
      rewrite lookup_delete_ne, Hset by done. set_solver.
    + apply not_true_iff_false in Ex. rewrite locked_by_spec in Ex. rewrite Hset.
      split; [|set_solver]. intros Ht. destruct (decide (t = x)) as [-> |]; [|set_solver].
      by rewrite Hset in Ex.
Qed.

(** Tables nobody else owns are granted. *)
Lemma grant_agree o (names : list ustr) s :
  locks_agree s → existsb (locked_by_other (table_locks_by_table s) o) names = false →
  locks_agree
    (set_locks (foldl (λ locks t, <[t := o]> locks) (table_locks_by_table s) names)
       (<[o := foldl (λ set t, {[t]} ∪ set) (default ∅ (locked_tables_by_session s !! o)) names]>
          (locked_tables_by_session s)) s).
Proof.
  intros Hs Ee.
  assert (∀ t, t ∈ names → ∀ o', table_locks_by_table s !! t = Some o' → o' = o) as Hfree.
  { intros t Ht. apply locked_by_other_false. apply not_true_iff_false. intros Hl.
    apply not_true_iff_false in Ee. destruct Ee. apply existsb_exists. exists t.
    split; [by apply list_elem_of_In|done]. }
  apply (locks_agree_update s o); [done|by intros; apply lookup_insert_ne|..].
  - intros t. rewrite insert_all_lookup, lookup_insert_eq, insert_all_set. simpl.
    specialize (Hs t o). destruct (decide _); set_solver.
  - intros t o' Hne. rewrite insert_all_lookup. destruct (decide (t ∈ names)) as [Ht|]; [|done].
    split; [congruence|]. intros Ho'. by destruct (Hne (Hfree t Ht o' Ho')).
Qed.

Lemma handle_agree command s : locks_agree s → locks_agree (handle_command command s).2.
Proof.
  intros Hs. destruct command as [o|o tables|o|o q b|o q|o|o|o q|o|o tables|o tables|o]; unfold_command;
    try (destruct (staged_by_session s !! o); done); try done.
  - destruct (staged_by_session s !! o); [done|]. destruct (is_empty _); [done|].
    destruct (existsb _ _) eqn:Ee; [done|]. by eapply locks_agree_same, grant_agree.
  - destruct (existsb _ _); [done|]. destruct (staged_by_session s !! o); [|done]. by destruct b.
  - by apply release_agree, (locks_agree_same s).
  - pose proof (apply_remote_lookup o (normalize_unique_table_ids tables) (table_locks_by_table s)
      (default ∅ (locked_tables_by_session s !! o))) as Hl. destruct (foldl _ _ _) as [locks set].
    destruct Hl as (Hl1 & _ & Hl2). simpl. apply (locks_agree_update s o); [done|by intros; apply lookup_insert_ne| |done].
    intros t. rewrite lookup_insert_eq. apply Hl2. intros x. apply Hs.
  - destruct (is_empty _); [by apply release_agree|].
    destruct (locked_tables_by_session s !! o) as [set|] eqn:Eset; [|done].
    pose proof (release_remote_lookup o (normalize_unique_table_ids tables) (table_locks_by_table s) set) as Hl.
    destruct (foldl _ _ _) as [locks set']. destruct Hl as [Hl1 Hl2]. simpl.
    apply (locks_agree_update s o); [done| | |done].
    + intros o' Hne. destruct (decide _); [by apply lookup_delete_ne|by apply lookup_insert_ne].
    + intros t. rewrite Hl2 by (intros x; rewrite (Hs x o), Eset; done).
      destruct (decide _) as [->|]; [rewrite lookup_delete_eq|rewrite lookup_insert_eq]; done.
  - by apply release_agree, (locks_agree_same s).
Qed.

Lemma run_snoc cs c s :
  run_coordinator_loop (cs ++ [c]) s
  = let '(rs, s1) := run_coordinator_loop cs s in
    let '(r, s2) := handle_command c s1 in (rs ++ [r], s2).
Proof. unfold run_coordinator_loop. rewrite foldl_snoc. by destruct (foldl _ _ cs). Qed.

Lemma run_state_ind (P : CoordinatorState → Prop) (allowed : CoordinatorCommand → Prop) cs s :
  (∀ c s, allowed c → P s → P (handle_command c s).2) →
  Forall allowed cs → P s → P (run_coordinator_loop cs s).2.
Proof.
  intros Hstep. induction cs as [|c cs IH] using rev_ind; intros Hall Hs; [done|].
  apply Forall_app in Hall as [Hall Hc]. inversion Hc; subst. rewrite run_snoc. specialize (IH Hall Hs).
  destruct (run_coordinator_loop cs s) as [rs s1]. specialize (Hstep c s1 ltac:(done) IH).
  by destruct (handle_command c s1).
Qed.

Lemma reachable_agree cs : locks_agree (run_coordinator_loop cs new_coordinator).2.
Proof.
  apply (run_state_ind locks_agree (λ _, True)); [intros; by apply handle_agree|by apply Forall_true|].
  intros t o. simpl. rewrite !lookup_empty. simpl. set_solver.
Qed.

(** ** Exclusion *)

(** The commands that give up locks of [o]. *)
Definition releases (o : ustr) (command : CoordinatorCommand) : Prop :=
  match command with
  | FinalizeCommit o' | Rollback o' | ReleaseRemoteLocks o' _ => o' = o
  | _ => False
  end.

Lemma release_keeps_lock s o o' t :
  o' ≠ o → table_locks_by_table s !! t = Some o →
  table_locks_by_table (release_session_locks o' s) !! t = Some o.
Proof.
  intros Hne Ht. unfold release_session_locks. destruct (locked_tables_by_session s !! o'); [|done]. simpl.
  rewrite release_all_lookup, decide_False; [done|]. intros [_ ?]. congruence.
Qed.

Lemma handle_keeps_lock command s o t :
  ¬ releases o command → table_locks_by_table s !! t = Some o →
  table_locks_by_table (handle_command command s).2 !! t = Some o.
Proof.
  intros Hr Ht.
  destruct command as [o'|o' tables|o'|o' q b|o' q|o'|o'|o' q|o'|o' tables|o' tables|o']; unfold_command;
    try (destruct (staged_by_session s !! o'); done); try done.
  - destruct (staged_by_session s !! o'); [done|]. destruct (is_empty _); [done|].
    destruct (existsb _ _) eqn:Ee; [done|]. simpl. rewrite insert_all_lookup.
    destruct (decide _) as [Hin|]; [|done]. f_equal. symmetry.
    apply (locked_by_other_false (table_locks_by_table s) o' t); [|done].
    apply not_true_iff_false. intros Hl. apply not_true_iff_false in Ee. destruct Ee.
    apply existsb_exists. exists t. split; [by apply list_elem_of_In|done].
  - destruct (existsb _ _); [done|]. destruct (staged_by_session s !! o'); [|done]. by destruct b.
  - by apply release_keeps_lock.
  - pose proof (apply_remote_lookup o' (normalize_unique_table_ids tables) (table_locks_by_table s)
      (default ∅ (locked_tables_by_session s !! o'))) as Hl.
    destruct (foldl _ _ _) as [locks set]. by apply Hl.
  - simpl in Hr. destruct (is_empty _); [by apply release_keeps_lock|].
    destruct (locked_tables_by_session s !! o') as [set|]; [|done].
    pose proof (release_remote_lookup o' (normalize_unique_table_ids tables) (table_locks_by_table s) set) as Hl.
    destruct (foldl _ _ _) as [locks set']. apply Hl; [congruence|done].
  - by apply release_keeps_lock.
Qed.

Lemma locked_blocks s o o' t (names : list ustr) :
  table_locks_by_table s !! t = Some o → o' ≠ o → t ∈ names →
  existsb (locked_by_other (table_locks_by_table s) o') names = true.
Proof.
  intros Ht Hne Hin. apply existsb_exists. exists t. split; [by apply list_elem_of_In|].
  unfold locked_by_other. rewrite Ht. apply negb_true_iff, eqb_false. congruence.
Qed.

Lemma begin_locks_granted o tables s s1 t :
  handle_command (BeginWithTableLocks o tables) s = (RUnit (Ok tt), s1) →
  t ∈ normalize_unique_table_ids tables → table_locks_by_table s1 !! t = Some o.
Proof.
  unfold_command. destruct (staged_by_session s !! o); [done|]. destruct (is_empty _); [done|].
  destruct (existsb _ _); [done|]. intros [= <-] Ht. simpl. by rewrite insert_all_lookup, decide_True.
Qed.

(** ** Staging *)

(** The session a command acts for. *)
Definition session_of (command : CoordinatorCommand) : ustr :=
  match command with
  | Begin o | BeginWithTableLocks o _ | IsActive o | RouteQuery o _ _ | Stage o _ | GetStaged o
  | TakeForCommit o | RestoreAfterFailedCommit o _ | FinalizeCommit o | ApplyRemoteLocks o _
  | ReleaseRemoteLocks o _ | Rollback o => o
  end.

(** What a session may do inside a transaction without ending it. *)
Definition stays_open (o : ustr) (command : CoordinatorCommand) : Prop :=
  match command with
  | TakeForCommit o' | FinalizeCommit o' | Rollback o' => o' ≠ o
  | _ => True
  end.

(** The query a command adds to the transaction of [o], going by the reply. *)
Definition accepted (o : ustr) (command : CoordinatorCommand) (reply : Reply) : option DataQuery :=
  if eqb (session_of command) o then
    match command, reply with
    | RouteQuery _ query _, RRoute Staged => Some query
    | Stage _ query, RUnit (Ok _) => Some query
    | _, _ => None
    end
  else None.

Lemma release_staged o s : staged_by_session (release_session_locks o s) = staged_by_session s.
Proof. unfold release_session_locks. by destruct (locked_tables_by_session s !! o). Qed.

(** Split the innermost case distinction of the goal. *)
Ltac split_match :=
  match goal with
  | |- context [match ?x with _ => _ end] =>
      lazymatch x with
      | foldl _ _ _ => destruct x as [? ?]
      | context [match _ with _ => _ end] => fail
      | _ => destruct x eqn:?
      end
  end.

Lemma handle_staged_other command s o :
  session_of command ≠ o → staged_by_session (handle_command command s).2 !! o = staged_by_session s !! o.
Proof.
  intros Hne. destruct command; simpl in Hne; unfold_command;
    repeat first [ done | split_match | rewrite release_staged | progress cbn
                 | rewrite lookup_insert_ne by done | rewrite lookup_delete_ne by done ].
Qed.

Lemma handle_staged command s o queries :
  stays_open o command → staged_by_session s !! o = Some queries →
  staged_by_session (handle_command command s).2 !! o
  = Some (queries ++ option_list (accepted o command (handle_command command s).1)).
Proof.
  intros Hopen Hq. destruct (decide (session_of command = o)) as [E|Hne]; unfold accepted.
  - rewrite E, eqb_refl. destruct command; simpl in E, Hopen; subst; unfold_command; try done;
      rewrite ?Hq; repeat first [ done | rewrite release_staged | rewrite Hq | split_match | progress cbn
                                | rewrite lookup_insert_eq | rewrite app_nil_r ].
  - rewrite (proj2 (eqb_false _ _) Hne), handle_staged_other, Hq by done. by rewrite app_nil_r.
Qed.

Lemma run_staged cs s o queries :
  Forall (stays_open o) cs → staged_by_session s !! o = Some queries →
  let '(rs, s') := run_coordinator_loop cs s in
  length rs = length cs ∧
  staged_by_session s' !! o = Some (queries ++ omap (λ '(c, r), accepted o c r) (zip cs rs)).
Proof.
  induction cs as [|c cs IH] using rev_ind; intros Hall Hq.
  { split; [done|]. simpl. by rewrite app_nil_r. }
  apply Forall_app in Hall as [Hall Hc]. inversion Hc; subst. specialize (IH Hall Hq). rewrite run_snoc.
  destruct (run_coordinator_loop cs s) as [rs s1]. destruct IH as [Hlen Hs1].
  pose proof (handle_staged c s1 o _ ltac:(done) Hs1) as Hstep. destruct (handle_command c s1) as [r s2].
  simpl in Hstep. split; [by rewrite !length_app, Hlen|]. rewrite zip_with_app, omap_app, app_assoc by done. rewrite Hstep.
  done.
Qed.

(** ** Properties *)

(** C5: Table locks exclude.  Once [LOCK TABLES] was granted to a session, and until that session
    commits, rolls back or has locks released, whatever commands the sessions and the remote nodes
    send in between, every data change of another session that names one of the tables is rejected
    and every lock request of another session for one of them is refused, without any change of
    state. *)
Theorem table_lock_is_exclusive s o tables s1 cs t o' :
  handle_command (BeginWithTableLocks o tables) s = (RUnit (Ok tt), s1) →
  Forall (λ c, ¬ releases o c) cs →
  t ∈ normalize_unique_table_ids tables → o' ≠ o →
  let s2 := (run_coordinator_loop cs s1).2 in
  (∀ query can_stage, t ∈ dml_table_ids_for_query query →
     handle_command (RouteQuery o' query can_stage) s2
     = (RRoute (Rejected "table is locked by another session"), s2)) ∧
  (∀ tables', t ∈ normalize_unique_table_ids tables' →
     ∃ e, handle_command (BeginWithTableLocks o' tables') s2 = (RUnit (Err e), s2)).
Proof.
  intros Hb Hcs Ht Hne s2.
  assert (table_locks_by_table s2 !! t = Some o) as Hlock.
  { apply (run_state_ind (λ s, table_locks_by_table s !! t = Some o) (λ c, ¬ releases o c));
      [intros; by apply handle_keeps_lock|done|by eapply begin_locks_granted]. }
  split.
  - intros query b Hin. unfold_command. by rewrite (locked_blocks _ _ _ _ _ Hlock Hne Hin).
  - intros tables' Hin. unfold_command. destruct (staged_by_session s2 !! o'); [by eexists|].
    destruct (is_empty _); [by eexists|]. rewrite (locked_blocks _ _ _ _ _ Hlock Hne Hin). by eexists.
Qed.

(** C6: Locks do not leak.  In every reachable state, committing or rolling back a session frees
    every table it holds and no table of anybody else, and ends its transaction; a session without
    a transaction can then lock any tables that only the two of them held. *)
Theorem commit_and_rollback_release_all_locks history o command o' tables :
  command = FinalizeCommit o ∨ command = Rollback o →
  let s := (run_coordinator_loop history new_coordinator).2 in
  let s' := (handle_command command s).2 in
  (∀ t, table_locks_by_table s' !! t
        = if decide (table_locks_by_table s !! t = Some o) then None else table_locks_by_table s !! t) ∧
  staged_by_session s' !! o = None ∧
  (staged_by_session s' !! o' = None → normalize_unique_table_ids tables ≠ [] →
   (∀ t w, t ∈ normalize_unique_table_ids tables → table_locks_by_table s !! t = Some w → w = o ∨ w = o') →
   (handle_command (BeginWithTableLocks o' tables) s').1 = RUnit (Ok tt)).
Proof.
  intros Hc s s'. pose proof (reachable_agree history) as Hagree. fold s in Hagree.
  assert (s' = release_session_locks o (set_staged (delete o (staged_by_session s)) s)) as Es'
    by (by destruct Hc as [-> | ->]).
  assert (∀ t, table_locks_by_table s' !! t
               = if decide (table_locks_by_table s !! t = Some o) then None else table_locks_by_table s !! t) as Hl.
  { intros t. rewrite Es'. unfold release_session_locks. simpl. specialize (Hagree t o).
    destruct (locked_tables_by_session s !! o) as [set|]; simpl in *.
    - rewrite release_all_lookup. apply decide_ext. rewrite elem_of_elements. naive_solver.
    - rewrite decide_False; [done|]. set_solver. }
  split; [done|]. split; [by rewrite Es', release_staged; apply lookup_delete_eq|].
  intros Hn Hne Hw. unfold_command. rewrite Hn.
  destruct (normalize_unique_table_ids tables) as [|x xs] eqn:En; [done|]. cbn [is_empty].
  destruct (existsb _ _) eqn:Ee; [|done]. apply existsb_exists in Ee as (t & Ht%list_elem_of_In & Hb).
  unfold locked_by_other in Hb. rewrite Hl in Hb.
  destruct (decide (table_locks_by_table s !! t = Some o)); [done|].
  destruct (table_locks_by_table s !! t) as [w|] eqn:Ew; [|done].
  apply negb_true_iff, eqb_false in Hb. destruct (Hw t w Ht Ew); congruence.
Qed.

(** A commit gets exactly what was accepted.  From an open transaction with some staged
    queries on, and as long as nobody ends it, taking the transaction for commit returns those
    queries followed by the ones the session was told were staged, in order, whatever the other
    sessions do; putting them back after a failed commit restores the coordinator's state. *)
Theorem commit_takes_accepted_queries s o queries cs :
  staged_by_session s !! o = Some queries → Forall (stays_open o) cs →
  let '(rs, s1) := run_coordinator_loop cs s in
  let staged := queries ++ omap (λ '(c, r), accepted o c r) (zip cs rs) in
  let '(r, s2) := handle_command (TakeForCommit o) s1 in
  r = RQueries (Ok staged) ∧ staged_by_session s2 !! o = None ∧
  handle_command (RestoreAfterFailedCommit o staged) s2 = (RUnit (Ok tt), s1).
Proof.
  intros Hq Hcs. pose proof (run_staged cs s o queries Hcs Hq) as Hrun.
  destruct (run_coordinator_loop cs s) as [rs s1]. destruct Hrun as [_ Hs1]. unfold_command.
  rewrite Hs1. split; [done|]. simpl. rewrite lookup_delete_eq. split; [done|]. do 2 f_equal.
  destruct s1 as [staged locks sets]. unfold set_staged. simpl in *. f_equal.
  by rewrite insert_delete_eq, insert_id.
Qed.
End coordinator.
