(* ===== verification/Entities.v ===== *)
(** * Catalog entities

    Models the objects a catalog holds and the payloads that change them
    ([engine/database/status.rs], [table/mod.rs], [view.rs], [olap_view.rs], [relationship.rs], [trigger.rs],
    [stored_procedure.rs], [entity/], [schema/change_state.rs], the payload files, and the trigger binding of
    [engine/sql/trigger_plan.rs]).

    [unique_id()] (a version 7 UUID of the [uuid] crate) and the clock are arguments of the constructors.
    The [compiled_artifact] of a stored procedure is a cache that nothing fills; it is left out. *)

From Stdlib Require Import ZArith Lia.
From stdpp Require Import base gmap list strings.
From S2P Require Import Prelude Identifiers Text Schema DatabaseIndex.

Local Open Scope Z_scope.

(** ** Status *)

Inductive ObjectStatus := StatusLoad | StatusIndexing | StatusReady | StatusLock | StatusSync.

#[global] Instance ObjectStatus_eq_dec : EqDecision ObjectStatus.
Proof. solve_decision. Defined.

Definition allows_reads (s : ObjectStatus) : bool :=
  match s with StatusReady | StatusSync | StatusLock => true | _ => false end.

Definition can_transition_to (s next : ObjectStatus) : bool :=
  match s, next with
  | StatusLoad, StatusSync | StatusLoad, StatusReady | StatusLoad, StatusLock | StatusLoad, StatusIndexing
  | StatusSync, StatusReady | StatusSync, StatusLock | StatusSync, StatusIndexing
  | StatusReady, StatusSync | StatusReady, StatusLock | StatusReady, StatusIndexing
  | StatusLock, StatusSync | StatusLock, StatusReady | StatusLock, StatusIndexing
  | StatusIndexing, StatusReady | StatusIndexing, StatusSync | StatusIndexing, StatusLock => true
  | _, _ => false
  end.

(** ** Metadata *)

Record EntityMetadata := {
  created_by : option ustr;
  created_at_epoch_ms : option Z;
  updated_by : option ustr;
  updated_at_epoch_ms : option Z;
  tags : list ustr
}.

#[global] Instance EntityMetadata_eq_dec : EqDecision EntityMetadata.
Proof. solve_decision. Defined.

Definition default_metadata : EntityMetadata :=
  {| created_by := None; created_at_epoch_ms := None; updated_by := None; updated_at_epoch_ms := None; tags := [] |}.

Definition with_creator (creator : ustr) (m : EntityMetadata) : EntityMetadata :=
  {| created_by := Some creator; created_at_epoch_ms := created_at_epoch_ms m; updated_by := updated_by m;
     updated_at_epoch_ms := updated_at_epoch_ms m; tags := tags m |}.

Definition with_created_at (at_ms : Z) (m : EntityMetadata) : EntityMetadata :=
  {| created_by := created_by m; created_at_epoch_ms := Some at_ms; updated_by := updated_by m;
     updated_at_epoch_ms := updated_at_epoch_ms m; tags := tags m |}.

(** ** Tables *)

Record DatabaseTable := {
  table_entity_id : ustr;
  table_id : ustr;
  table_status : ObjectStatus;
  schema_revision : Z;
  schema : TableSchema;
  table_indexes : gmap ustr DatabaseIndex;
  table_temporary : bool;
  table_metadata : EntityMetadata
}.

Definition DatabaseTable_new (unique_id : ustr) (id : ustr) (sch : TableSchema) (ixs : gmap ustr DatabaseIndex) :
    DatabaseTable :=
  {| table_entity_id := unique_id; table_id := id; table_status := StatusLoad; schema_revision := 0; schema := sch;
     table_indexes := ixs; table_temporary := false; table_metadata := default_metadata |}.

Definition set_table_status (s : ObjectStatus) (t : DatabaseTable) : DatabaseTable :=
  {| table_entity_id := table_entity_id t; table_id := table_id t; table_status := s;
     schema_revision := schema_revision t; schema := schema t; table_indexes := table_indexes t;
     table_temporary := table_temporary t; table_metadata := table_metadata t |}.

Definition set_table_entity_id (entity_id : ustr) (t : DatabaseTable) : DatabaseTable :=
  {| table_entity_id := entity_id; table_id := table_id t; table_status := table_status t;
     schema_revision := schema_revision t; schema := schema t; table_indexes := table_indexes t;
     table_temporary := table_temporary t; table_metadata := table_metadata t |}.

Definition set_table_indexes (ixs : gmap ustr DatabaseIndex) (t : DatabaseTable) : DatabaseTable :=
  {| table_entity_id := table_entity_id t; table_id := table_id t; table_status := table_status t;
     schema_revision := schema_revision t; schema := schema t; table_indexes := ixs;
     table_temporary := table_temporary t; table_metadata := table_metadata t |}.

Definition set_table_temporary (b : bool) (t : DatabaseTable) : DatabaseTable :=
  {| table_entity_id := table_entity_id t; table_id := table_id t; table_status := table_status t;
     schema_revision := schema_revision t; schema := schema t; table_indexes := table_indexes t;
     table_temporary := b; table_metadata := table_metadata t |}.

Definition set_table_metadata (m : EntityMetadata) (t : DatabaseTable) : DatabaseTable :=
  {| table_entity_id := table_entity_id t; table_id := table_id t; table_status := table_status t;
     schema_revision := schema_revision t; schema := schema t; table_indexes := table_indexes t;
     table_temporary := table_temporary t; table_metadata := m |}.

Definition replace_schema (revision : Z) (sch : TableSchema) (ixs : gmap ustr DatabaseIndex) (t : DatabaseTable) :
    DatabaseTable :=
  {| table_entity_id := table_entity_id t; table_id := table_id t; table_status := table_status t;
     schema_revision := revision; schema := sch; table_indexes := ixs; table_temporary := table_temporary t;
     table_metadata := table_metadata t |}.

Definition transition (next : ObjectStatus) (t : DatabaseTable) : result DatabaseTable DatabaseError :=
  if can_transition_to (table_status t) next then Ok (set_table_status next t) else Err InvalidStatusTransition.

Definition table_lock (t : DatabaseTable) := transition StatusLock t.
Definition table_abort (t : DatabaseTable) := transition StatusReady t.
Definition table_begin_sync (t : DatabaseTable) := transition StatusSync t.
Definition table_complete_sync (t : DatabaseTable) := transition StatusReady t.

Definition table_begin_indexing (t : DatabaseTable) : result DatabaseTable DatabaseError :=
  if eqb (table_status t) StatusIndexing then Ok t else transition StatusIndexing t.

Definition table_complete_indexing (t : DatabaseTable) : result DatabaseTable DatabaseError :=
  if eqb (table_status t) StatusReady then Ok t else transition StatusReady t.

(** The order in which a [HashMap] is iterated is unspecified: some arrangement of its entries. *)
Class HashOrder := { iter_order : ∀ V : Type, gmap ustr V → list (ustr * V) }.

Class HashOrderLaws `{HashOrder} := {
  iter_permutation : ∀ (V : Type) (m : gmap ustr V), iter_order V m ≡ₚ map_to_list m
}.

(** The loop body of [normalize_in_place] on one index. *)
Definition normalize_index (table_id : ustr) (i : DatabaseIndex) : DatabaseIndex :=
  let names :=
    if is_empty (field_names i) && negb (is_empty (index_field_name i)) then [index_field_name i] else field_names i in
  let names := normalize_identifier <$> names in
  refresh_index_id
    {| index_id := index_id i; index_table_id := table_id; index_kind := index_kind i; origin := origin i;
       temp_id := temp_id i; field_names := names; index_field_name := default [] (head names) |}.

Definition insert_index (i : DatabaseIndex) (m : gmap ustr DatabaseIndex) : gmap ustr DatabaseIndex :=
  <[index_id i := i]> m.

Definition normalize_table `{HashOrder} (t : DatabaseTable) : DatabaseTable :=
  let id := normalize_identifier (table_id t) in
  {| table_entity_id := table_entity_id t; table_id := id; table_status := table_status t;
     schema_revision := schema_revision t; schema := schema t;
     table_indexes :=
       foldl (λ m entry, insert_index (normalize_index id entry.2) m) ∅ (iter_order _ (table_indexes t));
     table_temporary := table_temporary t; table_metadata := table_metadata t |}.

(** ** Views and relationships *)

Record DatabaseView := {
  view_entity_id : ustr;
  view_id : ustr;
  view_sql : ustr;
  view_schema : TableSchema;
  view_dependencies : list ustr;
  view_metadata : EntityMetadata
}.

Definition DatabaseView_new (unique_id id sql : ustr) (sch : TableSchema) : DatabaseView :=
  {| view_entity_id := unique_id; view_id := id; view_sql := sql; view_schema := sch; view_dependencies := [];
     view_metadata := default_metadata |}.

Definition set_view_definition (sql : ustr) (deps : list ustr) (v : DatabaseView) : DatabaseView :=
  {| view_entity_id := view_entity_id v; view_id := view_id v; view_sql := sql; view_schema := view_schema v;
     view_dependencies := deps; view_metadata := view_metadata v |}.

Record DatabaseOlapView := {
  olap_entity_id : ustr;
  olap_view_id : ustr;
  olap_sql : ustr;
  z_dimension_columns : list ustr;
  olap_schema : TableSchema;
  olap_dependencies : list ustr;
  olap_metadata : EntityMetadata
}.

Definition DatabaseOlapView_new (unique_id id sql : ustr) (columns : list ustr) (sch : TableSchema)
    (deps : list ustr) : DatabaseOlapView :=
  {| olap_entity_id := unique_id; olap_view_id := id; olap_sql := sql; z_dimension_columns := columns;
     olap_schema := sch; olap_dependencies := deps; olap_metadata := default_metadata |}.

Definition set_olap_definition (sql : ustr) (deps : list ustr) (v : DatabaseOlapView) : DatabaseOlapView :=
  {| olap_entity_id := olap_entity_id v; olap_view_id := olap_view_id v; olap_sql := sql;
     z_dimension_columns := z_dimension_columns v; olap_schema := olap_schema v; olap_dependencies := deps;
     olap_metadata := olap_metadata v |}.

Record DatabaseRelationship := {
  relationship_entity_id : ustr;
  left_table_id : ustr;
  right_table_id : ustr;
  relation_name : ustr;
  relationship_metadata : EntityMetadata
}.

Definition DatabaseRelationship_new (unique_id left right name : ustr) : DatabaseRelationship :=
  {| relationship_entity_id := unique_id; left_table_id := left; right_table_id := right; relation_name := name;
     relationship_metadata := default_metadata |}.

(** ** Triggers and procedures *)

Inductive TriggerTiming := TriggerBefore | TriggerAfter.
Inductive TriggerEventKind := TriggerInsert | TriggerUpdate | TriggerDelete.

#[global] Instance TriggerTiming_eq_dec : EqDecision TriggerTiming.
Proof. solve_decision. Defined.
#[global] Instance TriggerEventKind_eq_dec : EqDecision TriggerEventKind.
Proof. solve_decision. Defined.

Record TriggerInvocationBinding := {
  binding_table_id : ustr;
  binding_timing : TriggerTiming;
  binding_event : TriggerEventKind
}.

(** The error carries its constant message. *)
Definition parse_trigger_invocation_binding_from_create_trigger_statement (statement : ustr) :
    result (option TriggerInvocationBinding) string :=
  let trimmed := trim (trim_end_matches (Z.eqb 59) (trim statement)) in
  let lowered := to_ascii_lowercase trimmed in
  let prefix :=
    if starts_with lowered (lit "create trigger ") then Some (lit "create trigger ")
    else if starts_with lowered (lit "create or replace trigger ") then Some (lit "create or replace trigger ")
    else None in
  match prefix with
  | None => Ok None
  | Some prefix =>
  let remainder := trim_start_matches is_whitespace (drop (length prefix) trimmed) in
  let lowered_remainder := to_ascii_lowercase remainder in
  let timing :=
    match find_str lowered_remainder (lit " before "), find_str lowered_remainder (lit " after ") with
    | Some b, Some a =>
        if Nat.ltb b a then Ok (TriggerBefore, b, length (lit " before ")) else Ok (TriggerAfter, a, length (lit " after "))
    | Some b, None => Ok (TriggerBefore, b, length (lit " before "))
    | None, Some a => Ok (TriggerAfter, a, length (lit " after "))
    | None, None => Err "CREATE TRIGGER is missing BEFORE/AFTER"%string
    end in
  let? (timing, timing_index, timing_token_len) := timing in
  let tail := trim_start_matches is_whitespace (drop (timing_index + timing_token_len) remainder) in
  let lowered_tail := to_ascii_lowercase tail in
  let? (event, event_token_len) :=
    (if starts_with lowered_tail (lit "insert ") then Ok (TriggerInsert, length (lit "insert "))
     else if starts_with lowered_tail (lit "update ") then Ok (TriggerUpdate, length (lit "update "))
     else if starts_with lowered_tail (lit "delete ") then Ok (TriggerDelete, length (lit "delete "))
     else Err "CREATE TRIGGER is missing INSERT/UPDATE/DELETE event"%string) in
  let after_event := trim_start_matches is_whitespace (drop event_token_len tail) in
  let lowered_after_event := to_ascii_lowercase after_event in
  let? after_on :=
    (if starts_with lowered_after_event (lit "on ")
     then Ok (trim_start_matches is_whitespace (drop (length (lit "on ")) after_event))
     else match find_str lowered_after_event (lit " on ") with
          | Some on_index =>
              Ok (trim_start_matches is_whitespace (drop (on_index + length (lit " on ")) after_event))
          | None => Err "CREATE TRIGGER is missing ON <table> clause"%string
          end) in
  match head (split_whitespace after_on) with
  | Some table =>
      Ok (Some {| binding_table_id := normalize_identifier table; binding_timing := timing; binding_event := event |})
  | None => Err "CREATE TRIGGER ON clause is missing table identifier"%string
  end
  end.

Record DatabaseTrigger := {
  trigger_entity_id : ustr;
  trigger_id : ustr;
  trigger_sql : ustr;
  trigger_dependencies : list ustr;
  trigger_metadata : EntityMetadata;
  invocation_binding : option TriggerInvocationBinding
}.

Definition refresh_invocation_binding_cache (t : DatabaseTrigger) : DatabaseTrigger :=
  {| trigger_entity_id := trigger_entity_id t; trigger_id := trigger_id t; trigger_sql := trigger_sql t;
     trigger_dependencies := trigger_dependencies t; trigger_metadata := trigger_metadata t;
     invocation_binding :=
       default None (ok (parse_trigger_invocation_binding_from_create_trigger_statement (trigger_sql t))) |}.

Definition DatabaseTrigger_new (unique_id id sql : ustr) (deps : list ustr) : DatabaseTrigger :=
  refresh_invocation_binding_cache
    {| trigger_entity_id := unique_id; trigger_id := id; trigger_sql := sql; trigger_dependencies := deps;
       trigger_metadata := default_metadata; invocation_binding := None |}.

Definition set_trigger_definition (sql : ustr) (deps : list ustr) (t : DatabaseTrigger) : DatabaseTrigger :=
  refresh_invocation_binding_cache
    {| trigger_entity_id := trigger_entity_id t; trigger_id := trigger_id t; trigger_sql := sql;
       trigger_dependencies := deps; trigger_metadata := trigger_metadata t;
       invocation_binding := invocation_binding t |}.

Record DatabaseStoredProcedure := {
  procedure_entity_id : ustr;
  procedure_id : ustr;
  procedure_sql : ustr;
  procedure_dependencies : list ustr;
  procedure_metadata : EntityMetadata
}.

Definition DatabaseStoredProcedure_new (unique_id id sql : ustr) (deps : list ustr) : DatabaseStoredProcedure :=
  {| procedure_entity_id := unique_id; procedure_id := id; procedure_sql := sql; procedure_dependencies := deps;
     procedure_metadata := default_metadata |}.

Definition set_procedure_definition (sql : ustr) (deps : list ustr) (p : DatabaseStoredProcedure) :
    DatabaseStoredProcedure :=
  {| procedure_entity_id := procedure_entity_id p; procedure_id := procedure_id p; procedure_sql := sql;
     procedure_dependencies := deps; procedure_metadata := procedure_metadata p |}.

(** ** Entities *)

Inductive DatabaseEntityKind := KindTable | KindView | KindOlapView | KindRelationship | KindTrigger | KindStoredProcedure.

#[global] Instance DatabaseEntityKind_eq_dec : EqDecision DatabaseEntityKind.
Proof. solve_decision. Defined.

Inductive DatabaseEntity :=
| EntityTable (t : DatabaseTable)
| EntityView (v : DatabaseView)
| EntityOlapView (v : DatabaseOlapView)
| EntityRelationship (r : DatabaseRelationship)
| EntityTrigger (t : DatabaseTrigger)
| EntityStoredProcedure (p : DatabaseStoredProcedure).

Definition entity_kind (e : DatabaseEntity) : DatabaseEntityKind :=
  match e with
  | EntityTable _ => KindTable
  | EntityView _ => KindView
  | EntityOlapView _ => KindOlapView
  | EntityRelationship _ => KindRelationship
  | EntityTrigger _ => KindTrigger
  | EntityStoredProcedure _ => KindStoredProcedure
  end.

Definition entity_name (e : DatabaseEntity) : ustr :=
  match e with
  | EntityTable t => table_id t
  | EntityView v => view_id v
  | EntityOlapView v => olap_view_id v
  | EntityRelationship r => relation_name r
  | EntityTrigger t => trigger_id t
  | EntityStoredProcedure p => procedure_id p
  end.

Definition storage_key (e : DatabaseEntity) : ustr :=
  match e with
  | EntityTable t => table_entity_id t
  | EntityView v => view_entity_id v
  | EntityOlapView v => olap_entity_id v
  | EntityRelationship r => relationship_entity_id r
  | EntityTrigger t => trigger_entity_id t
  | EntityStoredProcedure p => procedure_entity_id p
  end.

Definition set_entity_id (entity_id : ustr) (e : DatabaseEntity) : DatabaseEntity :=
  match e with
  | EntityTable t => EntityTable (set_table_entity_id entity_id t)
  | EntityView v =>
      EntityView {| view_entity_id := entity_id; view_id := view_id v; view_sql := view_sql v;
                    view_schema := view_schema v; view_dependencies := view_dependencies v;
                    view_metadata := view_metadata v |}
  | EntityOlapView v =>
      EntityOlapView {| olap_entity_id := entity_id; olap_view_id := olap_view_id v; olap_sql := olap_sql v;
                        z_dimension_columns := z_dimension_columns v; olap_schema := olap_schema v;
                        olap_dependencies := olap_dependencies v; olap_metadata := olap_metadata v |}
  | EntityRelationship r =>
      EntityRelationship {| relationship_entity_id := entity_id; left_table_id := left_table_id r;
                            right_table_id := right_table_id r; relation_name := relation_name r;
                            relationship_metadata := relationship_metadata r |}
  | EntityTrigger t =>
      EntityTrigger {| trigger_entity_id := entity_id; trigger_id := trigger_id t; trigger_sql := trigger_sql t;
                       trigger_dependencies := trigger_dependencies t; trigger_metadata := trigger_metadata t;
                       invocation_binding := invocation_binding t |}
  | EntityStoredProcedure p =>
      EntityStoredProcedure {| procedure_entity_id := entity_id; procedure_id := procedure_id p;
                               procedure_sql := procedure_sql p; procedure_dependencies := procedure_dependencies p;
                               procedure_metadata := procedure_metadata p |}
  end.

Definition entity_status (e : DatabaseEntity) : ObjectStatus :=
  match e with EntityTable t => table_status t | _ => StatusReady end.

Definition entity_metadata (e : DatabaseEntity) : EntityMetadata :=
  match e with
  | EntityTable t => table_metadata t
  | EntityView v => view_metadata v
  | EntityOlapView v => olap_metadata v
  | EntityRelationship r => relationship_metadata r
  | EntityTrigger t => trigger_metadata t
  | EntityStoredProcedure p => procedure_metadata p
  end.

Definition entity_wal_stream (database_wal_id : ustr) (e : DatabaseEntity) : ustr :=
  match e with
  | EntityTable t =>
      if table_temporary t then database_wal_id ++ lit ":" ++ table_id t
      else database_wal_id ++ lit ":" ++ table_entity_id t
  | e => storage_key e
  end.

Definition entity_schema_revision (e : DatabaseEntity) : option Z :=
  match e with EntityTable t => Some (schema_revision t) | _ => None end.

Definition entity_schema (e : DatabaseEntity) : option TableSchema :=
  match e with
  | EntityTable t => Some (schema t)
  | EntityView v => Some (view_schema v)
  | EntityOlapView v => Some (olap_schema v)
  | _ => None
  end.

Definition set_entity_metadata_of (m : EntityMetadata) (e : DatabaseEntity) : DatabaseEntity :=
  match e with
  | EntityTable t => EntityTable (set_table_metadata m t)
  | EntityView v =>
      EntityView {| view_entity_id := view_entity_id v; view_id := view_id v; view_sql := view_sql v;
                    view_schema := view_schema v; view_dependencies := view_dependencies v; view_metadata := m |}
  | EntityOlapView v =>
      EntityOlapView {| olap_entity_id := olap_entity_id v; olap_view_id := olap_view_id v; olap_sql := olap_sql v;
                        z_dimension_columns := z_dimension_columns v; olap_schema := olap_schema v;
                        olap_dependencies := olap_dependencies v; olap_metadata := m |}
  | EntityRelationship r =>
      EntityRelationship {| relationship_entity_id := relationship_entity_id r; left_table_id := left_table_id r;
                            right_table_id := right_table_id r; relation_name := relation_name r;
                            relationship_metadata := m |}
  | EntityTrigger t =>
      EntityTrigger {| trigger_entity_id := trigger_entity_id t; trigger_id := trigger_id t;
                       trigger_sql := trigger_sql t; trigger_dependencies := trigger_dependencies t;
                       trigger_metadata := m; invocation_binding := invocation_binding t |}
  | EntityStoredProcedure p =>
      EntityStoredProcedure {| procedure_entity_id := procedure_entity_id p; procedure_id := procedure_id p;
                               procedure_sql := procedure_sql p; procedure_dependencies := procedure_dependencies p;
                               procedure_metadata := m |}
  end.

Definition normalize_in_place `{HashOrder} (e : DatabaseEntity) : DatabaseEntity :=
  match e with
  | EntityTable t => EntityTable (normalize_table t)
  | EntityView v =>
      EntityView {| view_entity_id := view_entity_id v; view_id := normalize_identifier (view_id v);
                    view_sql := view_sql v; view_schema := view_schema v;
                    view_dependencies := normalize_identifier <$> view_dependencies v;
                    view_metadata := view_metadata v |}
  | EntityOlapView v =>
      EntityOlapView {| olap_entity_id := olap_entity_id v; olap_view_id := normalize_identifier (olap_view_id v);
                        olap_sql := olap_sql v;
                        z_dimension_columns := (λ col, to_ascii_lowercase (trim col)) <$> z_dimension_columns v;
                        olap_schema := olap_schema v;
                        olap_dependencies := normalize_identifier <$> olap_dependencies v;
                        olap_metadata := olap_metadata v |}
  | EntityRelationship r =>
      EntityRelationship {| relationship_entity_id := relationship_entity_id r;
                            left_table_id := normalize_identifier (left_table_id r);
                            right_table_id := normalize_identifier (right_table_id r);
                            relation_name := normalize_identifier (relation_name r);
                            relationship_metadata := relationship_metadata r |}
  | EntityTrigger t =>
      EntityTrigger
        (refresh_invocation_binding_cache
           {| trigger_entity_id := trigger_entity_id t; trigger_id := normalize_identifier (trigger_id t);
              trigger_sql := trigger_sql t; trigger_dependencies := normalize_identifier <$> trigger_dependencies t;
              trigger_metadata := trigger_metadata t; invocation_binding := invocation_binding t |})
  | EntityStoredProcedure p =>
      EntityStoredProcedure {| procedure_entity_id := procedure_entity_id p;
                               procedure_id := normalize_identifier (procedure_id p);
                               procedure_sql := procedure_sql p;
                               procedure_dependencies := normalize_identifier <$> procedure_dependencies p;
                               procedure_metadata := procedure_metadata p |}
  end.

(** ** Objects of a query *)

Inductive DatabaseObjectType :=
  TypeTable | TypeView | TypeOlapView | TypeRelationship | TypeTrigger | TypeStoredProcedure | TypeIndex.

Inductive DatabaseObjectRef :=
| RefTable (t : DatabaseTable)
| RefView (v : DatabaseView)
| RefOlapView (v : DatabaseOlapView)
| RefRelationship (r : DatabaseRelationship)
| RefTrigger (t : DatabaseTrigger)
| RefStoredProcedure (p : DatabaseStoredProcedure)
| RefIndex (i : DatabaseIndex).

Definition object_type (r : DatabaseObjectRef) : DatabaseObjectType :=
  match r with
  | RefTable _ => TypeTable
  | RefView _ => TypeView
  | RefOlapView _ => TypeOlapView
  | RefRelationship _ => TypeRelationship
  | RefTrigger _ => TypeTrigger
  | RefStoredProcedure _ => TypeStoredProcedure
  | RefIndex _ => TypeIndex
  end.

(** ** Schema changes in progress *)

Inductive SchemaChangePhase := PhaseLocked | PhaseRewriting | PhaseReindexing | PhaseSyncing | PhaseCutover.

Definition phase_can_transition_to (p next : SchemaChangePhase) : bool :=
  match p, next with
  | PhaseLocked, PhaseRewriting | PhaseRewriting, PhaseReindexing | PhaseReindexing, PhaseSyncing
  | PhaseSyncing, PhaseCutover | PhaseCutover, PhaseCutover | PhaseLocked, PhaseLocked
  | PhaseRewriting, PhaseRewriting | PhaseReindexing, PhaseReindexing | PhaseSyncing, PhaseSyncing => true
  | _, _ => false
  end.

Record ActiveSchemaChange := {
  job_id : ustr;
  active_table_id : ustr;
  target_revision : Z;
  active_schema_epoch : Z;
  phase : SchemaChangePhase;
  active_rows_total : option Z;
  active_rows_rewritten : Z;
  checkpoint_epoch_ms : Z;
  active_resume_token : option ustr
}.

Definition begin_active (unique_id : ustr) (now : Z) (id : ustr) (revision epoch : Z) : ActiveSchemaChange :=
  {| job_id := unique_id; active_table_id := id; target_revision := revision; active_schema_epoch := epoch;
     phase := PhaseLocked; active_rows_total := None; active_rows_rewritten := 0; checkpoint_epoch_ms := now;
     active_resume_token := None |}.

Definition set_phase (p : SchemaChangePhase) (a : ActiveSchemaChange) : ActiveSchemaChange :=
  {| job_id := job_id a; active_table_id := active_table_id a; target_revision := target_revision a;
     active_schema_epoch := active_schema_epoch a; phase := p; active_rows_total := active_rows_total a;
     active_rows_rewritten := active_rows_rewritten a; checkpoint_epoch_ms := checkpoint_epoch_ms a;
     active_resume_token := active_resume_token a |}.

Definition update_progress (now : Z) (rewritten : Z) (total : option Z) (token : option ustr) (a : ActiveSchemaChange) :
    ActiveSchemaChange :=
  {| job_id := job_id a; active_table_id := active_table_id a; target_revision := target_revision a;
     active_schema_epoch := active_schema_epoch a; phase := phase a;
     active_rows_total := match total with Some _ => total | None => active_rows_total a end;
     active_rows_rewritten := rewritten; checkpoint_epoch_ms := now;
     active_resume_token := match token with Some _ => token | None => active_resume_token a end |}.

(** ** Payloads *)

Record SchemaChangePayload := {
  sc_table_id : ustr;
  sc_schema_revision : Z;
  sc_schema_epoch : Z;
  sc_entity_id : option ustr;
  sc_schema : TableSchema
}.

Inductive TableLifecycleAction := TableCreate | TableDrop.

Record TableLifecyclePayload := {
  tl_table_id : ustr;
  tl_action : TableLifecycleAction;
  tl_schema_epoch : Z;
  tl_entity_id : option ustr;
  tl_schema : option TableSchema
}.

Inductive IndexLifecycleAction := IndexCreate | IndexDrop.

Record IndexLifecyclePayload := {
  il_table_id : ustr;
  il_index_id : ustr;
  il_action : IndexLifecycleAction;
  il_schema_epoch : Z;
  il_index : option DatabaseIndex
}.

Record EntityMetadataPayload := { em_entity_id : ustr; em_metadata : EntityMetadata }.

Inductive SqlObjectKind := SqlView | SqlOlapView | SqlTrigger | SqlStoredProcedure.
Inductive SqlDefinitionAction := SqlUpsert | SqlDrop.

Record SqlDefinitionPayload := {
  sd_object_id : ustr;
  sd_object_kind : SqlObjectKind;
  sd_action : SqlDefinitionAction;
  sd_schema_epoch : Z;
  sd_sql : ustr;
  sd_dependencies : list ustr
}.
