(* ===== verification/Security.v ===== *)
(** * Privileges and access control lists

    Models [engine/security.rs]: the privileges and their names, privilege selectors, and the access control
    entry of an account with its grants on a database and on single objects.  [access_refines] shows that an
    entry decides as the set of its grants does; [privilege_names] that a privilege is read back from its name.

    Sets and maps with string keys are [gset] and [gmap]; a privilege is stored by its name. *)

From Stdlib Require Import ZArith Lia.
From stdpp Require Import base gmap list strings.
From S2P Require Import Prelude Text Schema.

Local Open Scope Z_scope.

(** ** Privileges *)

Inductive AccountPrivilege :=
  PrivAlter | PrivAlterRoutine | PrivCreate | PrivCreateRole | PrivCreateRoutine | PrivCreateTablespace |
  PrivCreateTemporaryTables | PrivCreateUser | PrivCreateView | PrivDelete | PrivDrop | PrivDropRole |
  PrivEvent | PrivExecute | PrivFile | PrivGrantOption | PrivIndex | PrivInsert | PrivLockTables |
  PrivProcess | PrivProxy | PrivReferences | PrivReload | PrivReplicationClient | PrivReplicationSlave |
  PrivSelect | PrivShowDatabases | PrivShowView | PrivShutdown | PrivSuper | PrivTrigger | PrivUpdate |
  PrivApplicationPasswordAdmin | PrivAuditAbortExempt | PrivAuditAdmin | PrivAuthenticationPolicyAdmin |
  PrivBackupAdmin | PrivBinlogAdmin | PrivBinlogEncryptionAdmin | PrivCloneAdmin | PrivConnectionAdmin |
  PrivEncryptionKeyAdmin | PrivFirewallAdmin | PrivFirewallExempt | PrivFirewallUser |
  PrivFlushOptimizerCosts | PrivFlushStatus | PrivFlushTables | PrivFlushUserResources |
  PrivGroupReplicationAdmin | PrivGroupReplicationStream | PrivInnoDbRedoLogArchive | PrivInnoDbRedoLogEnable |
  PrivMaskingDictionariesAdmin | PrivNdbStoredUser | PrivPasswordlessUserAdmin | PrivPersistRoVariablesAdmin |
  PrivReplicationApplier | PrivReplicationSlaveAdmin | PrivResourceGroupAdmin | PrivResourceGroupUser |
  PrivRoleAdmin | PrivSensitiveVariablesObserver | PrivServiceConnectionAdmin | PrivSessionVariablesAdmin |
  PrivSetUserId | PrivShowRoutine | PrivSkipQueryRewrite | PrivSystemUser | PrivSystemVariablesAdmin |
  PrivTableEncryptionAdmin | PrivTelemetryLogAdmin | PrivTpConnectionAdmin | PrivVersionTokenAdmin |
  PrivXaRecoverAdmin.

#[global] Instance AccountPrivilege_eq_dec : EqDecision AccountPrivilege.
Proof. solve_decision. Defined.

Definition as_str (p : AccountPrivilege) : ustr :=
  match p with
  | PrivAlter => lit "ALTER"
  | PrivAlterRoutine => lit "ALTER ROUTINE"
  | PrivCreate => lit "CREATE"
  | PrivCreateRole => lit "CREATE ROLE"
  | PrivCreateRoutine => lit "CREATE ROUTINE"
  | PrivCreateTablespace => lit "CREATE TABLESPACE"
  | PrivCreateTemporaryTables => lit "CREATE TEMPORARY TABLES"
  | PrivCreateUser => lit "CREATE USER"
  | PrivCreateView => lit "CREATE VIEW"
  | PrivDelete => lit "DELETE"
  | PrivDrop => lit "DROP"
  | PrivDropRole => lit "DROP ROLE"
  | PrivEvent => lit "EVENT"
  | PrivExecute => lit "EXECUTE"
  | PrivFile => lit "FILE"
  | PrivGrantOption => lit "GRANT OPTION"
  | PrivIndex => lit "INDEX"
  | PrivInsert => lit "INSERT"
  | PrivLockTables => lit "LOCK TABLES"
  | PrivProcess => lit "PROCESS"
  | PrivProxy => lit "PROXY"
  | PrivReferences => lit "REFERENCES"
  | PrivReload => lit "RELOAD"
  | PrivReplicationClient => lit "REPLICATION CLIENT"
  | PrivReplicationSlave => lit "REPLICATION SLAVE"
  | PrivSelect => lit "SELECT"
  | PrivShowDatabases => lit "SHOW DATABASES"
  | PrivShowView => lit "SHOW VIEW"
  | PrivShutdown => lit "SHUTDOWN"
  | PrivSuper => lit "SUPER"
  | PrivTrigger => lit "TRIGGER"
  | PrivUpdate => lit "UPDATE"
  | PrivApplicationPasswordAdmin => lit "APPLICATION_PASSWORD_ADMIN"
  | PrivAuditAbortExempt => lit "AUDIT_ABORT_EXEMPT"
  | PrivAuditAdmin => lit "AUDIT_ADMIN"
  | PrivAuthenticationPolicyAdmin => lit "AUTHENTICATION_POLICY_ADMIN"
  | PrivBackupAdmin => lit "BACKUP_ADMIN"
  | PrivBinlogAdmin => lit "BINLOG_ADMIN"
  | PrivBinlogEncryptionAdmin => lit "BINLOG_ENCRYPTION_ADMIN"
  | PrivCloneAdmin => lit "CLONE_ADMIN"
  | PrivConnectionAdmin => lit "CONNECTION_ADMIN"
  | PrivEncryptionKeyAdmin => lit "ENCRYPTION_KEY_ADMIN"
  | PrivFirewallAdmin => lit "FIREWALL_ADMIN"
  | PrivFirewallExempt => lit "FIREWALL_EXEMPT"
  | PrivFirewallUser => lit "FIREWALL_USER"
  | PrivFlushOptimizerCosts => lit "FLUSH_OPTIMIZER_COSTS"
  | PrivFlushStatus => lit "FLUSH_STATUS"
  | PrivFlushTables => lit "FLUSH_TABLES"
  | PrivFlushUserResources => lit "FLUSH_USER_RESOURCES"
  | PrivGroupReplicationAdmin => lit "GROUP_REPLICATION_ADMIN"
  | PrivGroupReplicationStream => lit "GROUP_REPLICATION_STREAM"
  | PrivInnoDbRedoLogArchive => lit "INNODB_REDO_LOG_ARCHIVE"
  | PrivInnoDbRedoLogEnable => lit "INNODB_REDO_LOG_ENABLE"
  | PrivMaskingDictionariesAdmin => lit "MASKING_DICTIONARIES_ADMIN"
  | PrivNdbStoredUser => lit "NDB_STORED_USER"
  | PrivPasswordlessUserAdmin => lit "PASSWORDLESS_USER_ADMIN"
  | PrivPersistRoVariablesAdmin => lit "PERSIST_RO_VARIABLES_ADMIN"
  | PrivReplicationApplier => lit "REPLICATION_APPLIER"
  | PrivReplicationSlaveAdmin => lit "REPLICATION_SLAVE_ADMIN"
  | PrivResourceGroupAdmin => lit "RESOURCE_GROUP_ADMIN"
  | PrivResourceGroupUser => lit "RESOURCE_GROUP_USER"
  | PrivRoleAdmin => lit "ROLE_ADMIN"
  | PrivSensitiveVariablesObserver => lit "SENSITIVE_VARIABLES_OBSERVER"
  | PrivServiceConnectionAdmin => lit "SERVICE_CONNECTION_ADMIN"
  | PrivSessionVariablesAdmin => lit "SESSION_VARIABLES_ADMIN"
  | PrivSetUserId => lit "SET_USER_ID"
  | PrivShowRoutine => lit "SHOW_ROUTINE"
  | PrivSkipQueryRewrite => lit "SKIP_QUERY_REWRITE"
  | PrivSystemUser => lit "SYSTEM_USER"
  | PrivSystemVariablesAdmin => lit "SYSTEM_VARIABLES_ADMIN"
  | PrivTableEncryptionAdmin => lit "TABLE_ENCRYPTION_ADMIN"
  | PrivTelemetryLogAdmin => lit "TELEMETRY_LOG_ADMIN"
  | PrivTpConnectionAdmin => lit "TP_CONNECTION_ADMIN"
  | PrivVersionTokenAdmin => lit "VERSION_TOKEN_ADMIN"
  | PrivXaRecoverAdmin => lit "XA_RECOVER_ADMIN"
  end.

Definition all_privileges : list AccountPrivilege :=
  [ PrivAlter; PrivAlterRoutine; PrivCreate; PrivCreateRole; PrivCreateRoutine; PrivCreateTablespace;
    PrivCreateTemporaryTables; PrivCreateUser; PrivCreateView; PrivDelete; PrivDrop; PrivDropRole; PrivEvent;
    PrivExecute; PrivFile; PrivGrantOption; PrivIndex; PrivInsert; PrivLockTables; PrivProcess; PrivProxy;
    PrivReferences; PrivReload; PrivReplicationClient; PrivReplicationSlave; PrivSelect; PrivShowDatabases;
    PrivShowView; PrivShutdown; PrivSuper; PrivTrigger; PrivUpdate; PrivApplicationPasswordAdmin;
    PrivAuditAbortExempt; PrivAuditAdmin; PrivAuthenticationPolicyAdmin; PrivBackupAdmin; PrivBinlogAdmin;
    PrivBinlogEncryptionAdmin; PrivCloneAdmin; PrivConnectionAdmin; PrivEncryptionKeyAdmin; PrivFirewallAdmin;
    PrivFirewallExempt; PrivFirewallUser; PrivFlushOptimizerCosts; PrivFlushStatus; PrivFlushTables;
    PrivFlushUserResources; PrivGroupReplicationAdmin; PrivGroupReplicationStream; PrivInnoDbRedoLogArchive;
    PrivInnoDbRedoLogEnable; PrivMaskingDictionariesAdmin; PrivNdbStoredUser; PrivPasswordlessUserAdmin;
    PrivPersistRoVariablesAdmin; PrivReplicationApplier; PrivReplicationSlaveAdmin; PrivResourceGroupAdmin;
    PrivResourceGroupUser; PrivRoleAdmin; PrivSensitiveVariablesObserver; PrivServiceConnectionAdmin;
    PrivSessionVariablesAdmin; PrivSetUserId; PrivShowRoutine; PrivSkipQueryRewrite; PrivSystemUser;
    PrivSystemVariablesAdmin; PrivTableEncryptionAdmin; PrivTelemetryLogAdmin; PrivTpConnectionAdmin;
    PrivVersionTokenAdmin; PrivXaRecoverAdmin ].

Definition all_string_set : gset ustr := list_to_set (as_str <$> all_privileges).

(** ** Names *)

(** [slice::join] with a space. *)
Fixpoint join_words (words : list ustr) : ustr :=
  match words with
  | [] => []
  | [w] => w
  | w :: words => w ++ lit " " ++ join_words words
  end.

Definition normalize_privilege_identifier (value : ustr) : option ustr :=
  let trimmed := trim value in
  if is_empty trimmed then None
  else if str_eqb trimmed (lit "*") then Some (lit "*")
  else
    let normalized := to_ascii_uppercase (join_words (split_whitespace (replace_char 95 32 trimmed))) in
    if is_empty normalized then None else Some normalized.

Definition spaced_names : list (string * AccountPrivilege) :=
  [ ("ALTER"%string, PrivAlter); ("ALTER ROUTINE"%string, PrivAlterRoutine); ("CREATE"%string, PrivCreate);
    ("CREATE ROLE"%string, PrivCreateRole); ("CREATE ROUTINE"%string, PrivCreateRoutine);
    ("CREATE TABLESPACE"%string, PrivCreateTablespace);
    ("CREATE TEMPORARY TABLES"%string, PrivCreateTemporaryTables); ("CREATE USER"%string, PrivCreateUser);
    ("CREATE VIEW"%string, PrivCreateView); ("DELETE"%string, PrivDelete); ("DROP"%string, PrivDrop);
    ("DROP ROLE"%string, PrivDropRole); ("EVENT"%string, PrivEvent); ("EXECUTE"%string, PrivExecute);
    ("FILE"%string, PrivFile); ("GRANT OPTION"%string, PrivGrantOption); ("INDEX"%string, PrivIndex);
    ("INSERT"%string, PrivInsert); ("LOCK TABLES"%string, PrivLockTables); ("PROCESS"%string, PrivProcess);
    ("PROXY"%string, PrivProxy); ("REFERENCES"%string, PrivReferences); ("RELOAD"%string, PrivReload);
    ("REPLICATION CLIENT"%string, PrivReplicationClient); ("REPLICATION SLAVE"%string, PrivReplicationSlave);
    ("SELECT"%string, PrivSelect); ("SHOW DATABASES"%string, PrivShowDatabases);
    ("SHOW VIEW"%string, PrivShowView); ("SHUTDOWN"%string, PrivShutdown); ("SUPER"%string, PrivSuper);
    ("TRIGGER"%string, PrivTrigger); ("UPDATE"%string, PrivUpdate) ].

Definition underscored_names : list (string * AccountPrivilege) :=
  [ ("APPLICATION_PASSWORD_ADMIN"%string, PrivApplicationPasswordAdmin);
    ("AUDIT_ABORT_EXEMPT"%string, PrivAuditAbortExempt); ("AUDIT_ADMIN"%string, PrivAuditAdmin);
    ("AUTHENTICATION_POLICY_ADMIN"%string, PrivAuthenticationPolicyAdmin);
    ("BACKUP_ADMIN"%string, PrivBackupAdmin); ("BINLOG_ADMIN"%string, PrivBinlogAdmin);
    ("BINLOG_ENCRYPTION_ADMIN"%string, PrivBinlogEncryptionAdmin); ("CLONE_ADMIN"%string, PrivCloneAdmin);
    ("CONNECTION_ADMIN"%string, PrivConnectionAdmin); ("ENCRYPTION_KEY_ADMIN"%string, PrivEncryptionKeyAdmin);
    ("FIREWALL_ADMIN"%string, PrivFirewallAdmin); ("FIREWALL_EXEMPT"%string, PrivFirewallExempt);
    ("FIREWALL_USER"%string, PrivFirewallUser); ("FLUSH_OPTIMIZER_COSTS"%string, PrivFlushOptimizerCosts);
    ("FLUSH_STATUS"%string, PrivFlushStatus); ("FLUSH_TABLES"%string, PrivFlushTables);
    ("FLUSH_USER_RESOURCES"%string, PrivFlushUserResources);
    ("GROUP_REPLICATION_ADMIN"%string, PrivGroupReplicationAdmin);
    ("GROUP_REPLICATION_STREAM"%string, PrivGroupReplicationStream);
    ("INNODB_REDO_LOG_ARCHIVE"%string, PrivInnoDbRedoLogArchive);
    ("INNODB_REDO_LOG_ENABLE"%string, PrivInnoDbRedoLogEnable);
    ("MASKING_DICTIONARIES_ADMIN"%string, PrivMaskingDictionariesAdmin);
    ("NDB_STORED_USER"%string, PrivNdbStoredUser);
    ("PASSWORDLESS_USER_ADMIN"%string, PrivPasswordlessUserAdmin);
    ("PERSIST_RO_VARIABLES_ADMIN"%string, PrivPersistRoVariablesAdmin);
    ("REPLICATION_APPLIER"%string, PrivReplicationApplier);
    ("REPLICATION_SLAVE_ADMIN"%string, PrivReplicationSlaveAdmin);
    ("RESOURCE_GROUP_ADMIN"%string, PrivResourceGroupAdmin);
    ("RESOURCE_GROUP_USER"%string, PrivResourceGroupUser); ("ROLE_ADMIN"%string, PrivRoleAdmin);
    ("SENSITIVE_VARIABLES_OBSERVER"%string, PrivSensitiveVariablesObserver);
    ("SERVICE_CONNECTION_ADMIN"%string, PrivServiceConnectionAdmin);
    ("SESSION_VARIABLES_ADMIN"%string, PrivSessionVariablesAdmin); ("SET_USER_ID"%string, PrivSetUserId);
    ("SHOW_ROUTINE"%string, PrivShowRoutine); ("SKIP_QUERY_REWRITE"%string, PrivSkipQueryRewrite);
    ("SYSTEM_USER"%string, PrivSystemUser); ("SYSTEM_VARIABLES_ADMIN"%string, PrivSystemVariablesAdmin);
    ("TABLE_ENCRYPTION_ADMIN"%string, PrivTableEncryptionAdmin);
    ("TELEMETRY_LOG_ADMIN"%string, PrivTelemetryLogAdmin);
    ("TP_CONNECTION_ADMIN"%string, PrivTpConnectionAdmin);
    ("VERSION_TOKEN_ADMIN"%string, PrivVersionTokenAdmin); ("XA_RECOVER_ADMIN"%string, PrivXaRecoverAdmin) ].

Definition from_identifier (identifier : ustr) : option AccountPrivilege :=
  normalized ← normalize_privilege_identifier identifier;
  let underscored := replace_char 32 95 normalized in
  match match_str normalized spaced_names with
  | Some p => Some p
  | None => match_str underscored underscored_names
  end.

(** A privilege is read back from its name. *)
Lemma from_as_str p : from_identifier (as_str p) = Some p.
Proof. destruct p; vm_compute; reflexivity. Qed.

#[global] Instance as_str_inj : Inj (=) (=) as_str.
Proof. intros p q E. apply (inj Some). by rewrite <- !from_as_str, E. Qed.

#[global] Instance AccountPrivilege_countable : Countable AccountPrivilege.
Proof. refine (inj_countable as_str from_identifier from_as_str). Defined.

(** ** Selectors *)

Inductive PrivilegeSelector :=
| SelectorAll
| SelectorNone
| SelectorExplicit (privileges : gset AccountPrivilege).

Definition from_single_token (token : ustr) : option PrivilegeSelector :=
  normalized ← normalize_privilege_identifier token;
  if str_eqb normalized (lit "*") || str_eqb normalized (lit "ALL") || str_eqb normalized (lit "ALL PRIVILEGES")
  then Some SelectorAll
  else if str_eqb normalized (lit "NULL") || str_eqb normalized (lit "USAGE") then Some SelectorNone
  else (λ p, SelectorExplicit {[p]}) <$> from_identifier normalized.

Definition to_acl_string_set (s : PrivilegeSelector) : gset ustr :=
  match s with
  | SelectorAll => all_string_set
  | SelectorNone => ∅
  | SelectorExplicit privileges => set_map as_str privileges
  end.

(** ** Entries *)

Record AccountAclEntry := {
  acl_user_id : ustr;
  acl_database_id : ustr;
  acl : gset ustr;
  grant_acl : gset ustr;
  object_acl : gmap ustr (gset ustr)
}.

Definition AccountAclEntry_new (user_id database_id : ustr) : AccountAclEntry :=
  {| acl_user_id := user_id; acl_database_id := to_ascii_lowercase (trim database_id); acl := ∅; grant_acl := ∅;
     object_acl := ∅ |}.

Definition set_acl (a g : gset ustr) (e : AccountAclEntry) : AccountAclEntry :=
  {| acl_user_id := acl_user_id e; acl_database_id := acl_database_id e; acl := a; grant_acl := g;
     object_acl := object_acl e |}.

Definition set_object_acl (m : gmap ustr (gset ustr)) (e : AccountAclEntry) : AccountAclEntry :=
  {| acl_user_id := acl_user_id e; acl_database_id := acl_database_id e; acl := acl e; grant_acl := grant_acl e;
     object_acl := m |}.

Definition set_acl_database (database_id : ustr) (e : AccountAclEntry) : AccountAclEntry :=
  {| acl_user_id := acl_user_id e; acl_database_id := database_id; acl := acl e; grant_acl := grant_acl e;
     object_acl := object_acl e |}.

Definition append_privilege (p : AccountPrivilege) (e : AccountAclEntry) : AccountAclEntry :=
  set_acl ({[as_str p]} ∪ acl e) (grant_acl e) e.

Definition append_privilege_selector (s : PrivilegeSelector) (e : AccountAclEntry) : AccountAclEntry :=
  set_acl (acl e ∪ to_acl_string_set s) (grant_acl e) e.

Definition append_grant_option_for_privilege (p : AccountPrivilege) (e : AccountAclEntry) : AccountAclEntry :=
  set_acl (acl e) ({[as_str p]} ∪ grant_acl e) e.

Definition append_grant_option_for_selector (s : PrivilegeSelector) (e : AccountAclEntry) : AccountAclEntry :=
  set_acl (acl e ∪ to_acl_string_set s) (grant_acl e ∪ to_acl_string_set s) e.

Definition revoke_privilege (p : AccountPrivilege) (e : AccountAclEntry) : AccountAclEntry :=
  set_acl (acl e ∖ {[as_str p]}) (grant_acl e ∖ {[as_str p]}) e.

Definition revoke_grant_option_for_privilege (p : AccountPrivilege) (e : AccountAclEntry) : AccountAclEntry :=
  set_acl (acl e) (grant_acl e ∖ {[as_str p]}) e.

Definition normalize_acl_object_name (value : ustr) : ustr :=
  to_ascii_lowercase (trim_matches 34 (trim_matches 96 (trim value))).

Definition append_object_privilege (object_name : ustr) (p : AccountPrivilege) (e : AccountAclEntry) : AccountAclEntry :=
  let o := normalize_acl_object_name object_name in
  if is_empty o then e
  else set_object_acl (<[o := {[as_str p]} ∪ default ∅ (object_acl e !! o)]> (object_acl e)) e.

Definition revoke_object_privilege (object_name : ustr) (p : AccountPrivilege) (e : AccountAclEntry) : AccountAclEntry :=
  let o := normalize_acl_object_name object_name in
  if is_empty o then e
  else
    match object_acl e !! o with
    | None => e
    | Some privileges =>
        let privileges := privileges ∖ {[as_str p]} in
        if bool_decide (privileges = ∅) then set_object_acl (delete o (object_acl e)) e
        else set_object_acl (<[o := privileges]> (object_acl e)) e
    end.

Definition has_privilege_for_object (p : AccountPrivilege) (object_name : option ustr) (e : AccountAclEntry) : bool :=
  if bool_decide (as_str p ∈ acl e) then true
  else
    match object_name with
    | None => false
    | Some object_name =>
        let o := normalize_acl_object_name object_name in
        if is_empty o then false
        else match object_acl e !! o with Some privileges => bool_decide (as_str p ∈ privileges) | None => false end
    end.

(** ** GRANT and REVOKE *)

Inductive AclMutationKind := AclGrant | AclRevoke.

Record AclMutationPlan := {
  plan_kind : AclMutationKind;
  grantee : ustr;
  plan_privilege : AccountPrivilege;
  plan_database_name : option ustr;
  plan_object_name : option ustr;
  with_grant_option : bool
}.

(** What a plan does to the grantee's entry, on the object it resolves to. *)
Definition apply_acl_plan (plan : AclMutationPlan) (object_name : option ustr) (e : AccountAclEntry) : AccountAclEntry :=
  match plan_kind plan, object_name with
  | AclGrant, Some o => append_object_privilege o (plan_privilege plan) e
  | AclGrant, None =>
      let e := append_privilege (plan_privilege plan) e in
      if with_grant_option plan then append_grant_option_for_privilege (plan_privilege plan) e else e
  | AclRevoke, Some o => revoke_object_privilege o (plan_privilege plan) e
  | AclRevoke, None => revoke_privilege (plan_privilege plan) e
  end.

(** ** What an entry means *)

(** The grants of an account: privileges on the database ([None]) and on objects. *)
Abbreviation grants := (gset (option ustr * AccountPrivilege)).

Record represents (e : AccountAclEntry) (g : grants) : Prop := {
  rep_database : ∀ p, as_str p ∈ acl e ↔ (None, p) ∈ g;
  rep_object : ∀ o p, as_str p ∈ default ∅ (object_acl e !! o) ↔ (Some o, p) ∈ g
}.

(** An entry has no empty object name and no object without privileges. *)
Definition entry_wf (e : AccountAclEntry) : Prop :=
  ∀ o privileges, object_acl e !! o = Some privileges → o ≠ [] ∧ privileges ≠ ∅.

(** The reference: a plan adds its grant, or removes it. *)
Definition plan_scope (object_name : option ustr) : option (option ustr) :=
  match object_name with
  | None => Some None
  | Some o =>
      let o := normalize_acl_object_name o in if is_empty o then None else Some (Some o)
  end.

Definition plan_spec (plan : AclMutationPlan) (object_name : option ustr) (g : grants) : grants :=
  match plan_scope object_name with
  | None => g
  | Some scope =>
      match plan_kind plan with
      | AclGrant => {[(scope, plan_privilege plan)]} ∪ g
      | AclRevoke => g ∖ {[(scope, plan_privilege plan)]}
      end
  end.

(** An account may use a privilege it holds on the database or on the object. *)
Definition allows (g : grants) (p : AccountPrivilege) (object_name : option ustr) : bool :=
  bool_decide ((None, p) ∈ g)
  || match plan_scope object_name with Some (Some o) => bool_decide ((Some o, p) ∈ g) | _ => false end.

Lemma new_entry_represents user_id database_id :
  represents (AccountAclEntry_new user_id database_id) ∅ ∧ entry_wf (AccountAclEntry_new user_id database_id).
Proof. split; [split; intros; simpl; set_solver|]. intros o privileges [=]. Qed.

Lemma has_privilege_allows e g p object_name :
  represents e g → has_privilege_for_object p object_name e = allows g p object_name.
Proof.
  intros [Hdb Hob]. unfold has_privilege_for_object, allows, plan_scope.
  rewrite (bool_decide_ext _ _ (Hdb p)). case_bool_decide; [done|]. simpl.
  destruct object_name as [o|]; [|done]. destruct (is_empty _); [done|].
  rewrite <- (bool_decide_ext _ _ (Hob (normalize_acl_object_name o) p)).
  destruct (object_acl e !! _); [done|]. symmetry. apply bool_decide_eq_false. set_solver.
Qed.

Lemma default_lookup_insert {V} (d : V) (m : gmap ustr V) k v k' :
  default d (<[k := v]> m !! k') = if decide (k = k') then v else default d (m !! k').
Proof. rewrite lookup_insert. by destruct (decide _). Qed.

Lemma default_lookup_delete {V} (d : V) (m : gmap ustr V) k k' :
  default d (delete k m !! k') = if decide (k = k') then d else default d (m !! k').
Proof. rewrite lookup_delete. by destruct (decide _). Qed.

Lemma append_object_represents o p e g :
  is_empty (normalize_acl_object_name o) = false → represents e g →
  represents (append_object_privilege o p e) ({[(Some (normalize_acl_object_name o), p)]} ∪ g).
Proof.
  intros Hne [Hdb Hob]. unfold append_object_privilege. rewrite Hne. split; [set_solver|].
  intros o' q. simpl. rewrite default_lookup_insert. destruct (decide _) as [<-|].
  - rewrite elem_of_union, Hob, elem_of_singleton, elem_of_union, elem_of_singleton.
    split; (intros [E|]; [left|by right]); [by apply as_str_inj in E as ->|congruence].
  - rewrite Hob. set_solver.
Qed.

Lemma revoke_object_represents o p e g :
  is_empty (normalize_acl_object_name o) = false → represents e g →
  represents (revoke_object_privilege o p e) (g ∖ {[(Some (normalize_acl_object_name o), p)]}).
Proof.
  intros Hne [Hdb Hob]. unfold revoke_object_privilege. rewrite Hne.
  set (k := normalize_acl_object_name o) in *.
  assert (Hk : ∀ q, as_str q ∈ default ∅ (object_acl e !! k) ∖ {[as_str p]} ↔ (Some k, q) ∈ g ∖ {[(Some k, p)]}).
  { intros q. rewrite !elem_of_difference, Hob, !elem_of_singleton.
    split; intros [? Hq]; (split; [done|]); [congruence|]. intros ->%as_str_inj. done. }
  destruct (object_acl e !! k) as [privileges|] eqn:E; [|simpl in Hk; split; [set_solver|]].
  - simpl in Hk. case_bool_decide as Hempty; (split; [set_solver|]); intros o' q; simpl;
      rewrite ?default_lookup_insert, ?default_lookup_delete; destruct (decide _) as [<-|];
      rewrite <- ?Hk, ?Hempty; try done; rewrite Hob; set_solver.
  - intros o' q. destruct (decide (o' = k)) as [->|]; [|rewrite Hob; set_solver].
    rewrite E. simpl. rewrite <- Hk. set_solver.
Qed.

Lemma set_acl_represents a gr e g g' :
  represents e g → (∀ p, as_str p ∈ a ↔ (None, p) ∈ g') → (∀ o p, (Some o, p) ∈ g' ↔ (Some o, p) ∈ g) →
  represents (set_acl a gr e) g'.
Proof. intros [Hdb Hob] Ha Ho. split; [done|]. intros o p. by rewrite Ho, <- Hob. Qed.

Lemma apply_plan_represents plan o e g :
  represents e g → represents (apply_acl_plan plan o e) (plan_spec plan o g).
Proof.
  intros Hr. pose proof (rep_database _ _ Hr) as Hdb. unfold apply_acl_plan, plan_spec, plan_scope.
  destruct o as [o|].
  - destruct (is_empty (normalize_acl_object_name o)) eqn:Ho.
    + unfold append_object_privilege, revoke_object_privilege. rewrite Ho. by destruct (plan_kind plan).
    + destruct (plan_kind plan); [by apply append_object_represents|by apply revoke_object_represents].
  - assert (Hin : ∀ p q, as_str p ∈ ({[as_str q]} : gset ustr) ↔ p = q).
    { intros p q. rewrite elem_of_singleton. split; [apply as_str_inj|congruence]. }
    destruct (plan_kind plan); simpl.
    + assert (Hg : represents (append_privilege (plan_privilege plan) e) ({[(None, plan_privilege plan)]} ∪ g)).
      { eapply set_acl_represents; [done| |set_solver]. intros p. rewrite elem_of_union, Hin, Hdb. set_solver. }
      destruct (with_grant_option plan); [|done]. eapply set_acl_represents; [done| |done]. apply (rep_database _ _ Hg).
    + eapply set_acl_represents; [done| |set_solver]. intros p. rewrite elem_of_difference, Hin, Hdb. set_solver.
Qed.

Lemma apply_plan_wf plan o e : entry_wf e → entry_wf (apply_acl_plan plan o e).
Proof.
  intros Hwf. unfold apply_acl_plan. destruct (plan_kind plan), o as [o|].
  - unfold append_object_privilege. destruct (normalize_acl_object_name o) as [|c k]; [done|]. simpl.
    intros o' privileges. simpl. rewrite lookup_insert_Some. intros [[<- <-]|[_ E]]; [set_solver|by apply (Hwf o')].
  - by destruct (with_grant_option plan).
  - unfold revoke_object_privilege. destruct (normalize_acl_object_name o) as [|c k] eqn:Ho; [done|]. simpl.
    destruct (object_acl e !! _) as [privileges|] eqn:E; [|done].
    case_bool_decide; intros o' ps; simpl.
    + rewrite lookup_delete_Some. intros [_ E']. by apply (Hwf o').
    + rewrite lookup_insert_Some. intros [[<- <-]|[_ E']]; [done|by apply (Hwf o')].
  - done.
Qed.

(** The grants and revocations of a session, one after the other. *)
Definition apply_acl_plans (plans : list (AclMutationPlan * option ustr)) (e : AccountAclEntry) : AccountAclEntry :=
  foldl (λ e plan, apply_acl_plan plan.1 plan.2 e) e plans.

Definition plans_spec (plans : list (AclMutationPlan * option ustr)) (g : grants) : grants :=
  foldl (λ g plan, plan_spec plan.1 plan.2 g) g plans.

(** C22: the entry of an account decides exactly as the set of its grants: after any sequence of GRANT and
    REVOKE plans, on the database or on objects, a privilege is allowed on an object iff it was last granted
    on the database or on that object and not revoked there since; and the entry stays well formed. *)
Theorem access_refines user_id database_id plans :
  let e := apply_acl_plans plans (AccountAclEntry_new user_id database_id) in
  entry_wf e
  ∧ ∀ p object_name, has_privilege_for_object p object_name e = allows (plans_spec plans ∅) p object_name.
Proof.
  destruct (new_entry_represents user_id database_id) as [Hr Hwf]. simpl.
  unfold apply_acl_plans, plans_spec. revert Hr Hwf.
  generalize (AccountAclEntry_new user_id database_id) as e, (∅ : grants) as g.
  induction plans as [|plan plans IH]; intros e g Hr Hwf; simpl.
  - split; [done|]. intros p o. by apply has_privilege_allows.
  - apply IH; [by apply apply_plan_represents|by apply apply_plan_wf].
Qed.

(** every privilege is listed, and is read back from its name. *)
Theorem privilege_names p : p ∈ all_privileges ∧ from_identifier (as_str p) = Some p.
Proof.
  split; [|apply from_as_str]. apply list_elem_of_In.
  destruct p; simpl; repeat (by left) || right; by left.
Qed.
