(* ===== verification/Credentials.v ===== *)
(** * Passwords

    Models [common/helpers/aes.rs], [common/helpers/password.rs] and [UserCredential] of [engine/security.rs]:
    the key and the salt a password is encrypted under, its encryption in the CryptoJS format, and the check of
    a candidate.  [password_checks] shows that the check accepts the password and nothing else, on the server
    the credential was made on.

    OpenSSL (the MD5 hash and AES-256 in CBC mode) is the class [OpenSsl]; a panic ([unwrap] of an error of
    OpenSSL, or a message in another format) is [None].  The text of an encrypted password is its bytes. *)

From Stdlib Require Import ZArith Lia Strings.Byte.
From stdpp Require Import base list strings.
From S2P Require Import Prelude Text Base64 WalFile WalManager.

Local Open Scope Z_scope.

(** [openssl::hash::hash] with MD5, [openssl::symm::encrypt] and [decrypt] with AES-256-CBC. *)
Class OpenSsl := {
  md5 : bytes → option bytes;
  cbc_encrypt : bytes → bytes → bytes → option bytes;
  cbc_decrypt : bytes → bytes → bytes → option bytes
}.

(** MD5 digests have 16 bytes; under a key of 32 and an initialisation vector of 16 bytes encryption
    succeeds and decryption inverts it. *)
Class OpenSslLaws `{OpenSsl} := {
  md5_length : ∀ bs, ∃ digest, md5 bs = Some digest ∧ length digest = 16%nat;
  cbc_inverts : ∀ key iv bs, length key = 32%nat → length iv = 16%nat →
    ∃ ciphertext, cbc_encrypt key iv bs = Some ciphertext ∧ cbc_decrypt key iv ciphertext = Some bs
}.

Section aes.
Context `{OpenSsl}.

(** The [while derived.len() < key_len + iv_len] loop.  A digest of 16 bytes is added in every round, so
    [key_len + iv_len] rounds are enough. *)
Fixpoint derive (fuel : nat) (password salt : bytes) (wanted : nat) (derived : bytes) : option bytes :=
  match fuel with
  | O => Some derived
  | S fuel =>
      if Nat.ltb (length derived) wanted then
        let hash_input := drop (length derived - 16) derived ++ password ++ salt in
        hashed ← md5 hash_input;
        derive fuel password salt wanted (derived ++ hashed)
      else Some derived
  end.

Definition evp_bytes_to_key (password salt : bytes) (key_len iv_len : nat) : option (bytes * bytes) :=
  derived ← derive (key_len + iv_len) password salt (key_len + iv_len) [];
  Some (take key_len derived, take iv_len (drop key_len derived)).

Definition salted : bytes := utf8_encode (lit "Salted__").

Definition aes_encrypt (message secret : ustr) (salt : bytes) : option bytes :=
  '(key, iv) ← evp_bytes_to_key (utf8_encode secret) salt 32 16;
  ciphertext ← cbc_encrypt key iv (utf8_encode message);
  Some (b64_encode_bytes (salted ++ salt ++ ciphertext)).

(** The decrypted text, as its bytes. *)
Definition aes_decrypt (encrypted_message : bytes) (secret : ustr) : option bytes :=
  let decoded := b64_decode encrypted_message in
  if Nat.ltb (length decoded) 16 || negb (bool_decide (take 8 decoded = salted)) then None
  else
    let salt := take 8 (drop 8 decoded) in
    let ciphertext := drop 16 decoded in
    '(key, iv) ← evp_bytes_to_key (utf8_encode secret) salt 32 16;
    decrypted ← cbc_decrypt key iv ciphertext;
    Some (from_utf8_lossy decrypted).

(** ** Credentials *)

Context `{Digest}.

Definition derive_password_nonce (database_name server_identifier : ustr) (first_schema_wal_timestamp_ms : option Z) : ustr :=
  let wal_seed :=
    match first_schema_wal_timestamp_ms with Some ts => show_u64 ts | None => lit "wal-ts-unset" end in
  stable_id [lit "distdb-password-nonce"; database_name; server_identifier; wal_seed].

Definition derive_password_secret (password_nonce server_identifier : ustr) : ustr :=
  stable_id [lit "distdb-password-secret"; password_nonce; server_identifier].

(** Eight bytes of the nonce, missing ones as ['0']. *)
Definition salt_from_nonce (password_nonce : ustr) : bytes :=
  (λ idx, nth idx (utf8_encode password_nonce) x30) <$> seq 0 8.

Record UserCredential := {
  cred_user_id : ustr;
  encrypted_password : bytes;
  password_nonce : ustr
}.

Definition from_database_user_password (user_id database_name password server_identifier : ustr)
    (first_schema_wal_timestamp_ms : option Z) : option UserCredential :=
  let normalized_database_name := to_ascii_lowercase (trim database_name) in
  let nonce := derive_password_nonce normalized_database_name server_identifier first_schema_wal_timestamp_ms in
  let secret := derive_password_secret nonce server_identifier in
  encrypted ← aes_encrypt password secret (salt_from_nonce nonce);
  Some {| cred_user_id := user_id; encrypted_password := encrypted; password_nonce := nonce |}.

Definition verify_password (c : UserCredential) (candidate_password server_identifier : ustr) : option bool :=
  let secret := derive_password_secret (password_nonce c) server_identifier in
  decrypted ← aes_decrypt (encrypted_password c) secret;
  Some (bool_decide (decrypted = utf8_encode candidate_password)).

(** ** The check of a password *)

Context `{!OpenSslLaws}.

(** A round adds 16 bytes. *)
Lemma derive_round fuel password salt wanted derived :
  (length derived < wanted)%nat →
  ∃ digest, length digest = 16%nat
    ∧ derive (S fuel) password salt wanted derived = derive fuel password salt wanted (derived ++ digest).
Proof.
  intros Hlt. cbn [derive]. rewrite (proj2 (Nat.ltb_lt _ _) Hlt).
  destruct (md5_length (drop (length derived - 16) derived ++ password ++ salt)) as (digest & -> & Hl). eauto.
Qed.

Lemma derive_done fuel password salt wanted derived :
  (wanted ≤ length derived)%nat → derive fuel password salt wanted derived = Some derived.
Proof. intros Hle. destruct fuel; cbn [derive]; [done|]. by rewrite (proj2 (Nat.ltb_ge _ _) Hle). Qed.

(** Three rounds give the 48 bytes of a key and an initialisation vector. *)
Lemma evp_lengths password salt :
  ∃ key iv, evp_bytes_to_key password salt 32 16 = Some (key, iv) ∧ length key = 32%nat ∧ length iv = 16%nat.
Proof.
  unfold evp_bytes_to_key. change (32 + 16)%nat with 48%nat.
  destruct (derive_round 47 password salt 48 []) as (d1 & Hd1 & ->); [simpl; lia|].
  destruct (derive_round 46 password salt 48 ([] ++ d1)) as (d2 & Hd2 & ->); [simpl; lia|].
  destruct (derive_round 45 password salt 48 (([] ++ d1) ++ d2)) as (d3 & Hd3 & ->); [rewrite length_app; simpl; lia|].
  rewrite derive_done by (rewrite !length_app; simpl; lia). eexists _, _. split; [reflexivity|].
  split; rewrite length_take, ?length_drop, ?length_app; [|]; simpl length; lia.
Qed.

Lemma salt_length nonce : length (salt_from_nonce nonce) = 8%nat.
Proof. done. Qed.

Lemma aes_roundtrip message secret salt :
  length salt = 8%nat → Forall (λ c, is_scalar c = true) message →
  ∃ encrypted, aes_encrypt message secret salt = Some encrypted ∧ aes_decrypt encrypted secret = Some (utf8_encode message).
Proof.
  intros Hsalt Hm. unfold aes_encrypt, aes_decrypt.
  destruct (evp_lengths (utf8_encode secret) salt) as (key & iv & E & Hk & Hiv). rewrite E. cbn [mbind option_bind].
  destruct (cbc_inverts key iv (utf8_encode message) Hk Hiv) as (ciphertext & -> & Hd). cbn [mbind option_bind].
  eexists. split; [reflexivity|].
  assert (b64_decode (b64_encode_bytes (salted ++ salt ++ ciphertext)) = salted ++ salt ++ ciphertext) as ->.
  { unfold b64_decode. rewrite <- (app_nil_r (b64_encode_bytes _)).
    by rewrite (b64_decode_encode_padded _ 0) by lia. }
  assert (length salted = 8%nat) as Hs by done.
  rewrite (proj2 (Nat.ltb_ge _ _)) by (rewrite !length_app; lia).
  rewrite (take_app_length' salted) by done. rewrite bool_decide_true by done. cbn [orb negb].
  rewrite (drop_app_length' salted _ 8), (take_app_length' salt _ 8) by done.
  rewrite app_assoc, (drop_app_length' (salted ++ salt)) by (rewrite length_app; lia).
  rewrite E. cbn [mbind option_bind]. rewrite Hd. cbn [mbind option_bind]. by rewrite from_utf8_lossy_encode.
Qed.

(** C23: a credential made from a password is accepted, on the server it was made on, with that password and with
    no other; neither making nor checking it panics. *)
Theorem password_checks user_id database_name password server_identifier ts candidate :
  Forall (λ c, is_scalar c = true) password → Forall (λ c, is_scalar c = true) candidate →
  ∃ c, from_database_user_password user_id database_name password server_identifier ts = Some c
       ∧ verify_password c candidate server_identifier = Some (bool_decide (candidate = password)).
Proof.
  intros Hp Hc. unfold from_database_user_password, verify_password.
  set (nonce := derive_password_nonce _ _ _).
  destruct (aes_roundtrip password (derive_password_secret nonce server_identifier) (salt_from_nonce nonce)
              (salt_length nonce) Hp) as (encrypted & -> & Hd).
  cbn [mbind option_bind]. eexists. split; [reflexivity|]. simpl. rewrite Hd. cbn [mbind option_bind]. f_equal.
  apply bool_decide_ext. split; [|by intros ->]. intros E.
  apply (f_equal from_utf8) in E. rewrite !from_utf8_encode in E by done. congruence.
Qed.

End aes.
