(* ===== verification/Catalog.v ===== *)
(** * The database catalog

    Models [engine/database/catalog.rs] and [schema/change_tx.rs]: the entities of a database behind shared
    handles, how they are looked up, created, changed and dropped, and the life of a schema change.

    An [EntityHandle] is an [Arc<RwLock<DatabaseEntity>>] whose clone shares the entity, so a handle is an
    address in a [Store] that all catalogs (and all clones of a catalog) share.  The store also holds what the
    environment supplies: the ids [unique_id()] returns and the clock.  An operation that may fail keeps the
    changes it has made up to the failure, which the state monad [M] below reproduces.

    The order in which a [HashMap] is iterated is the class [HashOrder] of [Entities.v]. *)

From Stdlib Require Import ZArith Lia.
From stdpp Require Import base gmap list strings.
From S2P Require Import Prelude WalManager Identifiers Text Schema DatabaseIndex Entities Security Credentials AlterTable.

Local Open Scope Z_scope.

(** ** State *)

Record Store := mkStore {
  heap : gmap positive DatabaseEntity;
  fresh_ids : nat → ustr;
  clock : nat → Z
}.

Definition set_heap (h : gmap positive DatabaseEntity) (st : Store) : Store := mkStore h (fresh_ids st) (clock st).

Record RecursiveCteExecutionSettings := {
  max_iterations : Z;
  max_rows : Z;
  timeout_ms : Z;
  detect_repeating_union_all_frontier : bool
}.

Definition default_cte_settings : RecursiveCteExecutionSettings :=
  {| max_iterations := 128; max_rows := 50000; timeout_ms := 0; detect_repeating_union_all_frontier := true |}.

Definition sanitized (s : RecursiveCteExecutionSettings) : RecursiveCteExecutionSettings :=
  {| max_iterations := if max_iterations s =? 0 then 1 else max_iterations s;
     max_rows := if max_rows s =? 0 then 1 else max_rows s;
     timeout_ms := timeout_ms s;
     detect_repeating_union_all_frontier := detect_repeating_union_all_frontier s |}.

Record DatabaseCatalog := mkCatalog {
  catalog_id : ustr;
  database_name : ustr;
  encryption_key_ref : option ustr;
  encryption_key_version : Z;
  catalog_status : ObjectStatus;
  schema_epoch : Z;
  active_schema_change : option ActiveSchemaChange;
  account_acl_entries : gmap ustr AccountAclEntry;
  user_credentials : gmap ustr UserCredential;
  recursive_cte_execution_settings : RecursiveCteExecutionSettings;
  entity_handles : gmap ustr positive
}.

Definition set_database_name (name : ustr) (c : DatabaseCatalog) : DatabaseCatalog :=
  mkCatalog (catalog_id c) name (encryption_key_ref c) (encryption_key_version c) (catalog_status c) (schema_epoch c)
    (active_schema_change c) (account_acl_entries c) (user_credentials c) (recursive_cte_execution_settings c)
    (entity_handles c).

Definition set_encryption (key_ref : option ustr) (version : Z) (c : DatabaseCatalog) : DatabaseCatalog :=
  mkCatalog (catalog_id c) (database_name c) key_ref version (catalog_status c) (schema_epoch c)
    (active_schema_change c) (account_acl_entries c) (user_credentials c) (recursive_cte_execution_settings c)
    (entity_handles c).

Definition set_catalog_status (s : ObjectStatus) (c : DatabaseCatalog) : DatabaseCatalog :=
  mkCatalog (catalog_id c) (database_name c) (encryption_key_ref c) (encryption_key_version c) s (schema_epoch c)
    (active_schema_change c) (account_acl_entries c) (user_credentials c) (recursive_cte_execution_settings c)
    (entity_handles c).

Definition set_schema_epoch (epoch : Z) (c : DatabaseCatalog) : DatabaseCatalog :=
  mkCatalog (catalog_id c) (database_name c) (encryption_key_ref c) (encryption_key_version c) (catalog_status c) epoch
    (active_schema_change c) (account_acl_entries c) (user_credentials c) (recursive_cte_execution_settings c)
    (entity_handles c).

Definition set_active (a : option ActiveSchemaChange) (c : DatabaseCatalog) : DatabaseCatalog :=
  mkCatalog (catalog_id c) (database_name c) (encryption_key_ref c) (encryption_key_version c) (catalog_status c)
    (schema_epoch c) a (account_acl_entries c) (user_credentials c) (recursive_cte_execution_settings c)
    (entity_handles c).

Definition set_accounts (acls : gmap ustr AccountAclEntry) (creds : gmap ustr UserCredential) (c : DatabaseCatalog) :
    DatabaseCatalog :=
  mkCatalog (catalog_id c) (database_name c) (encryption_key_ref c) (encryption_key_version c) (catalog_status c)
    (schema_epoch c) (active_schema_change c) acls creds (recursive_cte_execution_settings c) (entity_handles c).

Definition configure_recursive_cte_execution_settings (s : RecursiveCteExecutionSettings) (c : DatabaseCatalog) :
    DatabaseCatalog :=
  mkCatalog (catalog_id c) (database_name c) (encryption_key_ref c) (encryption_key_version c) (catalog_status c)
    (schema_epoch c) (active_schema_change c) (account_acl_entries c) (user_credentials c) (sanitized s)
    (entity_handles c).

Definition set_handles (m : gmap ustr positive) (c : DatabaseCatalog) : DatabaseCatalog :=
  mkCatalog (catalog_id c) (database_name c) (encryption_key_ref c) (encryption_key_version c) (catalog_status c)
    (schema_epoch c) (active_schema_change c) (account_acl_entries c) (user_credentials c)
    (recursive_cte_execution_settings c) m.

Definition DatabaseCatalog_new (database_id : ustr) : DatabaseCatalog :=
  mkCatalog database_id [] None 0 StatusLoad 0 None ∅ ∅ default_cte_settings ∅.

(** ** Operations that may fail *)

Abbreviation CState := (Store * DatabaseCatalog)%type.
Abbreviation M A := (CState → result A DatabaseError * CState).

Definition ret {A} (x : A) : M A := λ s, (Ok x, s).
Definition raise {A} (e : DatabaseError) : M A := λ s, (Err e, s).
Definition lift {A} (r : result A DatabaseError) : M A := λ s, (r, s).
Definition update (f : DatabaseCatalog → DatabaseCatalog) : M unit := λ '(st, c), (Ok tt, (st, f c)).
Definition reads {A} (f : CState → A) : M A := λ s, (Ok (f s), s).

Definition bind {A B} (m : M A) (k : A → M B) : M B :=
  λ s, let '(r, s) := m s in match r with Ok x => k x s | Err e => (Err e, s) end.

Declare Scope catalog_scope.
Delimit Scope catalog_scope with catalog.
Notation "'let!' x ':=' m 'in' k" := (bind m (λ x, k))
  (at level 10, x pattern, m at level 100, k at level 200) : catalog_scope.
Notation "'do!' m ';' k" := (bind m (λ _, k)) (at level 10, m at level 100, k at level 200) : catalog_scope.
Open Scope catalog_scope.

(** The next id and the next reading of the clock. *)
Definition unique_id : M ustr :=
  λ '(st, c), (Ok (fresh_ids st 0%nat), (mkStore (heap st) (λ n, fresh_ids st (S n)) (clock st), c)).

Definition epoch_nanos : M Z :=
  λ '(st, c), (Ok (clock st 0%nat), (mkStore (heap st) (fresh_ids st) (λ n, clock st (S n)), c)).

Section catalog.
Context `{HashOrder}.

(** ** Looking up *)

Definition snapshot_of (st : Store) (handle : positive) : option DatabaseEntity := heap st !! handle.

(** The handles in the iteration order of the map. *)
Definition handles_iter (c : DatabaseCatalog) : list (ustr * positive) := iter_order _ (entity_handles c).

(** [find_map] and [filter_map] over the entities. *)
Definition find_entity {A} (f : ustr → DatabaseEntity → option A) (s : CState) : option A :=
  head (omap (λ entry, e ← snapshot_of s.1 entry.2; f entry.1 e) (handles_iter s.2)).

Definition filter_map_entities {A} (f : DatabaseEntity → option A) (s : CState) : list A :=
  omap (λ entry, e ← snapshot_of s.1 entry.2; f e) (handles_iter s.2).

Definition relationship_target (entity_id : ustr) : option (ustr * ustr * ustr) :=
  rest ← strip_prefix entity_id (lit "rel:");
  '(l, right_and_name) ← split_once_at (lit ":") rest;
  '(r, name) ← split_once_at (lit ":") right_and_name;
  Some (l, r, name).

Definition matches_relationship (target : option (ustr * ustr * ustr)) (e : DatabaseEntity) : bool :=
  match target, e with
  | Some (l, r, name), EntityRelationship rel =>
      str_eqb (left_table_id rel) l && str_eqb (right_table_id rel) r && str_eqb (relation_name rel) name
  | _, _ => false
  end.

Definition resolve_entity_key (entity_id : ustr) (s : CState) : option ustr :=
  match entity_handles s.2 !! entity_id with
  | Some _ => Some entity_id
  | None =>
      let target := relationship_target entity_id in
      find_entity
        (λ key e,
          if matches_relationship target e then Some key
          else if str_eqb (entity_name e) entity_id then Some key
          else None) s
  end.

Definition entity_snapshot_by_key (key : ustr) (s : CState) : option DatabaseEntity :=
  handle ← entity_handles s.2 !! key; snapshot_of s.1 handle.

Definition entity (entity_id : ustr) (s : CState) : option DatabaseEntity :=
  key ← resolve_entity_key entity_id s; entity_snapshot_by_key key s.

Definition with_entity_read {R} (entity_id : ustr) (apply : DatabaseEntity → R) (s : CState) : option R :=
  apply <$> entity entity_id s.

Definition as_table (e : DatabaseEntity) : option DatabaseTable :=
  match e with EntityTable t => Some t | _ => None end.

Definition with_table_read {R} (table_id : ustr) (apply : DatabaseTable → R) (s : CState) : option R :=
  e ← entity table_id s; apply <$> as_table e.

Definition table (table_id : ustr) (s : CState) : option DatabaseTable := with_table_read table_id Datatypes.id s.

Definition table_handle (table_id : ustr) (s : CState) : option positive :=
  key ← resolve_entity_key table_id s;
  handle ← entity_handles s.2 !! key;
  e ← snapshot_of s.1 handle;
  _ ← as_table e;
  Some handle.

Definition entity_handle (entity_id : ustr) (s : CState) : option positive :=
  key ← resolve_entity_key entity_id s; entity_handles s.2 !! key.

Definition index_snapshot_by_id (index_id : ustr) (s : CState) : option DatabaseIndex :=
  find_entity (λ _ e, t ← as_table e; table_indexes t !! index_id) s.

Definition index_in_table (table_id index_id : ustr) (s : CState) : option DatabaseIndex :=
  t ← table table_id s; table_indexes t !! index_id.

Definition object_ref_from_entity (e : DatabaseEntity) : DatabaseObjectRef :=
  match e with
  | EntityTable t => RefTable t
  | EntityView v => RefView v
  | EntityOlapView v => RefOlapView v
  | EntityRelationship r => RefRelationship r
  | EntityTrigger t => RefTrigger t
  | EntityStoredProcedure p => RefStoredProcedure p
  end.

Definition object_ref_from_typed_entity (ty : DatabaseObjectType) (e : DatabaseEntity) : option DatabaseObjectRef :=
  match ty, e with
  | TypeTable, EntityTable t => Some (RefTable t)
  | TypeView, EntityView v => Some (RefView v)
  | TypeOlapView, EntityOlapView v => Some (RefOlapView v)
  | TypeRelationship, EntityRelationship r => Some (RefRelationship r)
  | TypeTrigger, EntityTrigger t => Some (RefTrigger t)
  | TypeStoredProcedure, EntityStoredProcedure p => Some (RefStoredProcedure p)
  | _, _ => None
  end.

Definition object (ty : DatabaseObjectType) (object_id : ustr) (s : CState) : option DatabaseObjectRef :=
  match ty with
  | TypeIndex => RefIndex <$> index_snapshot_by_id object_id s
  | _ => e ← entity object_id s; object_ref_from_typed_entity ty e
  end.

Definition object_by_id (object_id : ustr) (s : CState) : option DatabaseObjectRef :=
  match entity object_id s with
  | Some e => Some (object_ref_from_entity e)
  | None => RefIndex <$> index_snapshot_by_id object_id s
  end.

Definition has_table (table_id : ustr) (s : CState) : bool :=
  match entity table_id s with Some (EntityTable _) => true | _ => false end.

Definition has_sql_object_kind (object_id : ustr) (k : SqlObjectKind) (s : CState) : bool :=
  match k, entity object_id s with
  | SqlView, Some (EntityView _) | SqlOlapView, Some (EntityOlapView _)
  | SqlTrigger, Some (EntityTrigger _) | SqlStoredProcedure, Some (EntityStoredProcedure _) => true
  | _, _ => false
  end.

Definition catalog_entity_wal_stream_id (entity_id : ustr) (s : CState) : option ustr :=
  with_entity_read entity_id (entity_wal_stream (catalog_id s.2)) s.

Definition table_schema (table_id : ustr) (s : CState) : option TableSchema := with_table_read table_id schema s.
Definition table_schema_revision (table_id : ustr) (s : CState) : option Z := with_table_read table_id schema_revision s.
Definition status_of_table (table_id : ustr) (s : CState) : option ObjectStatus := with_table_read table_id table_status s.

Definition table_ids (s : CState) : list ustr := filter_map_entities (λ e, table_id <$> as_table e) s.

Definition view_ids (s : CState) : list ustr :=
  filter_map_entities (λ e, match e with EntityView v => Some (view_id v) | _ => None end) s.
Definition olap_view_ids (s : CState) : list ustr :=
  filter_map_entities (λ e, match e with EntityOlapView v => Some (olap_view_id v) | _ => None end) s.
Definition trigger_ids (s : CState) : list ustr :=
  filter_map_entities (λ e, match e with EntityTrigger t => Some (trigger_id t) | _ => None end) s.
Definition stored_procedure_ids (s : CState) : list ustr :=
  filter_map_entities (λ e, match e with EntityStoredProcedure p => Some (procedure_id p) | _ => None end) s.
Definition relationships (s : CState) : list DatabaseRelationship :=
  filter_map_entities (λ e, match e with EntityRelationship r => Some r | _ => None end) s.

Definition triggers_for_event (table : ustr) (timing : TriggerTiming) (event : TriggerEventKind) (s : CState) :
    list DatabaseTrigger :=
  let normalized_table_id := normalize_identifier table in
  filter_map_entities
    (λ e, match e with
          | EntityTrigger t =>
              match invocation_binding t with
              | Some b =>
                  if str_eqb (binding_table_id b) normalized_table_id && eqb (binding_timing b) timing
                     && eqb (binding_event b) event
                  then Some t else None
              | None => None
              end
          | _ => None
          end) s.

Definition is_writable (object_id : ustr) (s : CState) : bool :=
  default false (with_entity_read object_id (λ e, match e with EntityTable _ => true | _ => false end) s).

Definition ensure_ready_for_write (table_id : ustr) (s : CState) : result unit DatabaseError :=
  if negb (eqb (catalog_status s.2) StatusReady) then Err NotReadyForWrite
  else
    match status_of_table table_id s with
    | None => Err TableNotFound
    | Some status => if eqb status StatusReady then Ok tt else Err NotReadyForWrite
    end.

Definition ensure_available_for_read (table_id : ustr) (s : CState) : result unit DatabaseError :=
  match status_of_table table_id s with
  | None => Err TableNotFound
  | Some status => if allows_reads status then Ok tt else Err ResourceUnavailable
  end.

(** ** Changing entities through their handles *)

(** [handle.mutate]: the closure's result, and the entity it leaves. *)
Definition mutate {R} (handle : positive) (missing : DatabaseError)
    (apply : DatabaseEntity → result (R * DatabaseEntity) DatabaseError) : M R :=
  λ '(st, c),
    match heap st !! handle with
    | None => (Err missing, (st, c))
    | Some e =>
        match apply e with
        | Ok (r, e) => (Ok r, (set_heap (<[handle := e]> (heap st)) st, c))
        | Err err => (Err err, (st, c))
        end
    end.

Definition with_entity_mut {R} (entity_id : ustr) (missing : DatabaseError)
    (apply : DatabaseEntity → result (R * DatabaseEntity) DatabaseError) : M R :=
  let! handle := reads (entity_handle entity_id) in
  match handle with
  | None => raise missing
  | Some handle => mutate handle missing apply
  end.

Definition with_table_mut {R} (table_id : ustr) (apply : DatabaseTable → result (R * DatabaseTable) DatabaseError) : M R :=
  with_entity_mut table_id TableNotFound
    (λ e, match e with EntityTable t => let? (r, t) := apply t in Ok (r, EntityTable t) | _ => Err TableNotFound end).

Definition with_view_mut {R} (view_id : ustr) (apply : DatabaseView → result (R * DatabaseView) DatabaseError) : M R :=
  with_entity_mut view_id ViewNotFound
    (λ e, match e with EntityView v => let? (r, v) := apply v in Ok (r, EntityView v) | _ => Err ViewNotFound end).

Definition with_olap_view_mut {R} (view_id : ustr) (apply : DatabaseOlapView → result (R * DatabaseOlapView) DatabaseError) : M R :=
  with_entity_mut view_id OlapViewNotFound
    (λ e, match e with
          | EntityOlapView v => let? (r, v) := apply v in Ok (r, EntityOlapView v)
          | _ => Err OlapViewNotFound
          end).

Definition with_trigger_mut {R} (trigger_id : ustr) (apply : DatabaseTrigger → result (R * DatabaseTrigger) DatabaseError) : M R :=
  with_entity_mut trigger_id TriggerNotFound
    (λ e, match e with
          | EntityTrigger t => let? (r, t) := apply t in Ok (r, EntityTrigger t)
          | _ => Err TriggerNotFound
          end).

Definition with_stored_procedure_mut {R} (procedure_id : ustr)
    (apply : DatabaseStoredProcedure → result (R * DatabaseStoredProcedure) DatabaseError) : M R :=
  with_entity_mut procedure_id StoredProcedureNotFound
    (λ e, match e with
          | EntityStoredProcedure p => let? (r, p) := apply p in Ok (r, EntityStoredProcedure p)
          | _ => Err StoredProcedureNotFound
          end).

(** A closure that only changes the object. *)
Definition changes {T} (f : T → result T DatabaseError) (t : T) : result (unit * T) DatabaseError :=
  let? t := f t in Ok (tt, t).

Definition insert_entity_handle (e : DatabaseEntity) : M unit :=
  λ '(st, c),
    match entity_handles c !! storage_key e with
    | Some _ => (Err DuplicateEntity, (st, c))
    | None =>
        let handle := fresh (dom (heap st) : gset positive) in
        (Ok tt, (set_heap (<[handle := e]> (heap st)) st, set_handles (<[storage_key e := handle]> (entity_handles c)) c))
    end.

(** ** Epochs *)

Definition bump_schema_epoch : M unit := update (λ c, set_schema_epoch (saturating_add (schema_epoch c) 1) c).
Definition accept_schema_epoch (incoming : Z) : M unit :=
  update (λ c, set_schema_epoch (Z.max (schema_epoch c) incoming) c).
Definition should_apply_schema_epoch (incoming : Z) (s : CState) : bool := schema_epoch s.2 <=? incoming.

(** Zero acknowledgements are received, and zero required. *)
Definition table_sync_acknowledged_stub (table_id : ustr) : bool := 0 <=? 0.
Definition database_sync_acknowledged_stub : bool := 0 <=? 0.

(** ** Indexes of a schema *)

Definition indexes_for_schema (table_id : ustr) (sch : TableSchema) : gmap ustr DatabaseIndex :=
  let primary_key_fields := field_name <$> filter (λ f, indexed f = PrimaryKey) (fields sch) in
  let indexes :=
    if is_empty primary_key_fields then ∅
    else insert_index (from_table_fields_with_origin table_id IndexPrimaryKey Derived None primary_key_fields) ∅ in
  foldl
    (λ indexes f,
      match indexed f with
      | Indexed =>
          let k := if default false (unique <$> metadata f) then IndexUnique else IndexIndexed in
          insert_index (from_table_fields_with_origin table_id k Derived None [field_name f]) indexes
      | _ => indexes
      end) indexes (fields sch).

(** What the loop over the existing indexes keeps. *)
Definition preserved_index (table_id : ustr) (sch : TableSchema) (derived : gmap ustr DatabaseIndex)
    (id : ustr) (i : DatabaseIndex) : option DatabaseIndex :=
  if is_temporary i then None
  else if eqb (origin i) Derived && negb (is_none (derived !! id)) then None
  else if negb (forallb (λ name, negb (is_none (field sch name))) (field_names i)) then None
  else
    Some {| index_id := index_id i; index_table_id := normalize_identifier table_id; index_kind := index_kind i;
            origin := origin i; temp_id := temp_id i; field_names := field_names i;
            index_field_name := index_field_name i |}.

Definition merge_indexes_for_schema (table_id : ustr) (sch : TableSchema) (existing : gmap ustr DatabaseIndex) :
    gmap ustr DatabaseIndex :=
  let derived := indexes_for_schema table_id sch in
  derived ∪ map_imap (preserved_index table_id sch derived) existing.

(** ** Tables *)

Definition register_table_with_entity_id (table_id : ustr) (sch : TableSchema) (entity_id : option ustr) : M unit :=
  do! lift (map_err SchemaChangeError (validate sch));
  let! existing := reads (resolve_entity_key table_id) in
  if negb (is_none existing) then raise DuplicateEntity
  else
    let! id := unique_id in
    let t := DatabaseTable_new id table_id sch (indexes_for_schema table_id sch) in
    let t :=
      match normalize_identifier <$> entity_id with
      | Some entity_id => if is_empty entity_id then t else set_table_entity_id entity_id t
      | None => t
      end in
    insert_entity_handle (EntityTable t).

Definition create_table_with_entity_id (table_id : ustr) (sch : TableSchema) (entity_id : option ustr) : M unit :=
  let table_id := normalize_identifier table_id in
  do! register_table_with_entity_id table_id sch entity_id;
  do! with_table_mut table_id (changes table_begin_sync);
  if negb (table_sync_acknowledged_stub table_id) then raise SyncPending
  else
    do! with_table_mut table_id (changes table_complete_sync);
    bump_schema_epoch.

Definition register_table (table_id : ustr) (sch : TableSchema) : M unit :=
  register_table_with_entity_id (normalize_identifier table_id) sch None.

Definition create_table (table_id : ustr) (sch : TableSchema) : M unit := create_table_with_entity_id table_id sch None.

Definition create_temporary_table (table_id : ustr) (sch : TableSchema) : M unit :=
  let table_id := normalize_identifier table_id in
  do! create_table_with_entity_id table_id sch None;
  with_table_mut table_id (changes (λ t, Ok (set_table_temporary true t))).

(** ** Dropping *)

Definition not_found (ty : DatabaseObjectType) : DatabaseError :=
  match ty with
  | TypeTable => TableNotFound
  | TypeView => ViewNotFound
  | TypeOlapView => OlapViewNotFound
  | TypeTrigger => TriggerNotFound
  | TypeStoredProcedure => StoredProcedureNotFound
  | TypeRelationship | TypeIndex => EntityNotFound
  end.

Definition is_type (ty : DatabaseObjectType) (e : DatabaseEntity) : bool :=
  match ty, e with
  | TypeTable, EntityTable _ | TypeView, EntityView _ | TypeOlapView, EntityOlapView _ | TypeTrigger, EntityTrigger _
  | TypeStoredProcedure, EntityStoredProcedure _ | TypeRelationship, EntityRelationship _ => true
  | _, _ => false
  end.

Definition drop_object (ty : DatabaseObjectType) (object_id : ustr) : M unit :=
  let! key := reads (resolve_entity_key object_id) in
  match key with
  | None => raise (not_found ty)
  | Some key =>
      let! e := reads (entity_snapshot_by_key key) in
      if negb (default false (is_type ty <$> e)) then raise (not_found ty)
      else
        do! update (λ c, set_handles (delete key (entity_handles c)) c);
        bump_schema_epoch
  end.

Definition drop_table (table_id : ustr) : M unit := drop_object TypeTable table_id.
Definition drop_view (view_id : ustr) : M unit := drop_object TypeView view_id.
Definition drop_olap_view (view_id : ustr) : M unit := drop_object TypeOlapView view_id.
Definition drop_trigger (trigger_id : ustr) : M unit := drop_object TypeTrigger trigger_id.
Definition drop_stored_procedure (procedure_id : ustr) : M unit := drop_object TypeStoredProcedure procedure_id.

(** ** Index definitions *)

Definition create_index_with_kind_and_origin (table_id : ustr) (index_name : option ustr) (names : list ustr)
    (k : DatabaseIndexKind) (o : DatabaseIndexOrigin) : M ustr :=
  let normalized_table_id := normalize_identifier table_id in
  let normalized_fields := filter (λ name, name ≠ []) (normalize_identifier <$> names) in
  if is_empty normalized_fields then raise (SchemaChangeError FieldNotFound)
  else
    let! id :=
      with_table_mut normalized_table_id
        (λ t,
          if negb (forallb (λ name, negb (is_none (field (schema t) name))) normalized_fields)
          then Err (SchemaChangeError FieldNotFound)
          else
            let index := from_table_fields_with_origin normalized_table_id k o None normalized_fields in
            let? index :=
              match normalize_identifier <$> index_name with
              | None => Ok index
              | Some [] => Err DuplicateEntity
              | Some name =>
                  Ok {| index_id := name; index_table_id := index_table_id index; index_kind := index_kind index;
                        origin := origin index; temp_id := temp_id index; field_names := field_names index;
                        index_field_name := index_field_name index |}
              end in
            match table_indexes t !! index_id index with
            | Some _ => Err DuplicateEntity
            | None => Ok (index_id index, set_table_indexes (insert_index index (table_indexes t)) t)
            end) in
    do! bump_schema_epoch;
    ret id.

Definition create_index (table_id : ustr) (index_name : option ustr) (names : list ustr) : M ustr :=
  create_index_with_kind_and_origin table_id index_name names IndexIndexed UserDefined.

(** The loop over all handles, which stops at the first table that has the index. *)
Fixpoint drop_first_index (id : ustr) (handles : list positive) : M bool :=
  match handles with
  | [] => ret false
  | handle :: handles =>
      let! removed :=
        mutate handle EntityNotFound
          (λ e, match e with
                | EntityTable t =>
                    Ok (negb (is_none (table_indexes t !! id)),
                        EntityTable (set_table_indexes (delete id (table_indexes t)) t))
                | e => Ok (false, e)
                end) in
      if removed then ret true else drop_first_index id handles
  end.

Definition drop_index (index_name : ustr) (table_id : option ustr) : M unit :=
  let normalized_index_name := normalize_identifier index_name in
  if is_empty normalized_index_name then raise EntityNotFound
  else
    match table_id with
    | Some table_id =>
        do! with_table_mut (normalize_identifier table_id)
              (λ t, match table_indexes t !! normalized_index_name with
                    | None => Err EntityNotFound
                    | Some _ => Ok (tt, set_table_indexes (delete normalized_index_name (table_indexes t)) t)
                    end);
        bump_schema_epoch
    | None =>
        let! handles := reads (λ s, (handles_iter s.2).*2) in
        let! removed := drop_first_index normalized_index_name handles in
        if removed then bump_schema_epoch else raise EntityNotFound
    end.

(** ** Views, triggers, procedures, relationships *)

Definition register_relationship (r : DatabaseRelationship) : M unit :=
  let! existing := reads (λ s, entity_handles s.2 !! relationship_entity_id r) in
  match existing with
  | Some _ => raise DuplicateEntity
  | None => do! insert_entity_handle (EntityRelationship r); bump_schema_epoch
  end.

(** The steps the registration of a named object shares. *)
Definition register_named (name : ustr) (make : ustr → DatabaseEntity) : M unit :=
  let! existing := reads (resolve_entity_key name) in
  match existing with
  | Some _ => raise DuplicateEntity
  | None =>
      let! id := unique_id in
      do! insert_entity_handle (make id);
      bump_schema_epoch
  end.

Definition register_view (view_id sql : ustr) (sch : TableSchema) : M unit :=
  let view_id := normalize_identifier view_id in
  register_named view_id (λ id, EntityView (DatabaseView_new id view_id sql sch)).

Definition register_olap_view (view_id sql : ustr) (columns : list ustr) (sch : TableSchema) (deps : list ustr) : M unit :=
  let view_id := normalize_identifier view_id in
  register_named view_id (λ id, EntityOlapView (DatabaseOlapView_new id view_id sql columns sch deps)).

Definition register_trigger (trigger_id sql : ustr) (deps : list ustr) : M unit :=
  let trigger_id := normalize_identifier trigger_id in
  register_named trigger_id (λ id, EntityTrigger (DatabaseTrigger_new id trigger_id sql deps)).

Definition register_stored_procedure (procedure_id sql : ustr) (deps : list ustr) : M unit :=
  let procedure_id := normalize_identifier procedure_id in
  register_named procedure_id (λ id, EntityStoredProcedure (DatabaseStoredProcedure_new id procedure_id sql deps)).

(** ** Status *)

Definition transition_status (next : ObjectStatus) : M unit :=
  let! current := reads (λ s, catalog_status s.2) in
  if can_transition_to current next then update (set_catalog_status next) else raise InvalidStatusTransition.

(** The loop that moves the tables, in the order of the map, until one refuses. *)
Fixpoint each_table (f : DatabaseTable → result DatabaseTable DatabaseError) (handles : list positive) : M unit :=
  match handles with
  | [] => ret tt
  | handle :: handles =>
      do! mutate handle EntityNotFound
            (λ e, match e with
                  | EntityTable t => let? t := f t in Ok (tt, EntityTable t)
                  | e => Ok (tt, e)
                  end);
      each_table f handles
  end.

Definition begin_indexing : M unit :=
  let! current := reads (λ s, catalog_status s.2) in
  do! (if eqb current StatusIndexing then ret tt else transition_status StatusIndexing);
  let! handles := reads (λ s, (handles_iter s.2).*2) in
  each_table table_begin_indexing handles.

(** A catalog that was [Ready] completes every table; another only the tables still [Indexing]. *)
Definition complete_indexing : M unit :=
  let! current := reads (λ s, catalog_status s.2) in
  let! handles := reads (λ s, (handles_iter s.2).*2) in
  if eqb current StatusReady then each_table table_complete_indexing handles
  else
    do! transition_status StatusReady;
    each_table (λ t, if eqb (table_status t) StatusIndexing then table_complete_indexing t else Ok t) handles.

Definition complete_table_indexing (table_id : ustr) : M unit :=
  with_table_mut (normalize_identifier table_id) (changes table_complete_indexing).

(** ** Writes *)

Definition begin_table_write (table_id : ustr) : M unit :=
  with_table_mut (normalize_identifier table_id) (changes table_lock).

Definition when_locked (f : DatabaseTable → result DatabaseTable DatabaseError) (t : DatabaseTable) :
    result DatabaseTable DatabaseError :=
  if eqb (table_status t) StatusLock then f t else Err TableNotLocked.

Definition finalize_table_write (table_id : ustr) : M unit :=
  let table_id := normalize_identifier table_id in
  do! with_table_mut table_id (changes (when_locked table_begin_sync));
  if negb (table_sync_acknowledged_stub table_id) then raise SyncPending
  else with_table_mut table_id (changes table_complete_sync).

Definition abort_table_write (table_id : ustr) : M unit :=
  with_table_mut (normalize_identifier table_id) (changes (when_locked table_abort)).

(** ** Schema changes *)

(** [table.schema_revision() + 1], which wraps in a release build. *)
Definition begin_schema_change (table_id : ustr) : M SchemaChangeTx :=
  let table_id := normalize_identifier table_id in
  let! active := reads (λ s, active_schema_change s.2) in
  match active with
  | Some _ => raise SchemaChangeInProgress
  | None =>
      let! (pending, next) :=
        with_table_mut table_id
          (λ t, let? t' := table_lock t in
                Ok ((schema t, (schema_revision t + 1) mod (u64_max + 1)), t')) in
      let! id := unique_id in
      let! now := epoch_nanos in
      do! update (λ c, set_active (Some (begin_active id now table_id next (saturating_add (schema_epoch c) 1))) c);
      ret {| tx_table_id := table_id; next_revision := next; pending_schema := pending |}
  end.

Definition transition_schema_change_phase (table_id : ustr) (next : SchemaChangePhase) : M unit :=
  let normalized := normalize_identifier table_id in
  let! active := reads (λ s, active_schema_change s.2) in
  match active with
  | None => raise TableNotLocked
  | Some a =>
      if negb (str_eqb (active_table_id a) normalized) then raise TableNotLocked
      else if negb (phase_can_transition_to (phase a) next) then raise InvalidStatusTransition
      else update (set_active (Some (set_phase next a)))
  end.

Definition checkpoint_schema_change_progress (table_id : ustr) (rewritten : Z) (total : option Z) (token : option ustr) : M unit :=
  let normalized := normalize_identifier table_id in
  let! active := reads (λ s, active_schema_change s.2) in
  match active with
  | None => raise TableNotLocked
  | Some a =>
      if negb (str_eqb (active_table_id a) normalized) then raise TableNotLocked
      else
        let! now := epoch_nanos in
        update (set_active (Some (update_progress now rewritten total token a)))
  end.

Definition release_schema_lock (table_id : ustr) : M unit :=
  do! with_table_mut (normalize_identifier table_id) (changes table_abort);
  update (set_active None).

Definition apply_schema_change (payload : SchemaChangePayload) : M unit :=
  let! applies := reads (should_apply_schema_epoch (sc_schema_epoch payload)) in
  if negb applies then ret tt
  else
    let table_id := normalize_identifier (sc_table_id payload) in
    let! known := reads (has_table table_id) in
    do! (if known then ret tt
         else register_table_with_entity_id table_id (sc_schema payload) (sc_entity_id payload));
    let! changed :=
      with_table_mut table_id
        (λ t,
          if sc_schema_revision payload <=? schema_revision t then Ok (false, t)
          else
            let indexes := merge_indexes_for_schema table_id (sc_schema payload) (table_indexes t) in
            Ok (true, replace_schema (sc_schema_revision payload) (sc_schema payload) indexes t)) in
    if negb changed then ret tt else accept_schema_epoch (sc_schema_epoch payload).

Definition finalize_schema_change (payload : SchemaChangePayload) : M unit :=
  let table_id := normalize_identifier (sc_table_id payload) in
  do! apply_schema_change payload;
  do! transition_schema_change_phase table_id PhaseSyncing;
  do! with_table_mut table_id (changes table_begin_sync);
  if negb (table_sync_acknowledged_stub table_id) then raise SyncPending
  else
    do! transition_schema_change_phase table_id PhaseCutover;
    do! with_table_mut table_id (changes table_complete_sync);
    update (set_active None).

(** [SchemaChangeTx::commit]; [persist] acts on a state of its own. *)
Definition commit {W} (tx : SchemaChangeTx) (persist : SchemaChangePayload → W → result unit DatabaseError * W)
    (w : W) (s : CState) : result unit DatabaseError * W * CState :=
  let '(epoch, s) :=
    (do! transition_schema_change_phase (tx_table_id tx) PhaseRewriting;
     do! checkpoint_schema_change_progress (tx_table_id tx) 0 None None;
     reads (λ s, schema_epoch s.2)) s in
  match epoch with
  | Err e => (Err e, w, s)
  | Ok epoch =>
      let payload :=
        {| sc_table_id := tx_table_id tx; sc_schema_revision := next_revision tx;
           sc_schema_epoch := saturating_add epoch 1; sc_entity_id := None; sc_schema := pending_schema tx |} in
      let '(persisted, w) := persist payload w in
      match persisted with
      | Err e => (Err e, w, (release_schema_lock (tx_table_id tx) s).2)
      | Ok _ =>
          let '(r, s) :=
            (do! transition_schema_change_phase (tx_table_id tx) PhaseReindexing;
             finalize_schema_change payload) s in
          (r, w, s)
      end
  end.

Definition abort (tx : SchemaChangeTx) : M unit := release_schema_lock (tx_table_id tx).

(** ** Payloads of other objects *)

(** A drop that tolerates a missing object. *)
Definition drop_if_found (ty : DatabaseObjectType) (object_id : ustr) (epoch : Z) : M unit :=
  λ s,
    let '(r, s) := drop_object ty object_id s in
    match r with
    | Ok _ => accept_schema_epoch epoch s
    | Err e =>
        match ty, e with
        | TypeTable, TableNotFound | TypeView, ViewNotFound | TypeOlapView, OlapViewNotFound
        | TypeTrigger, TriggerNotFound | TypeStoredProcedure, StoredProcedureNotFound => accept_schema_epoch epoch s
        | _, e => (Err e, s)
        end
    end.

Definition apply_table_lifecycle (payload : TableLifecyclePayload) : M unit :=
  let! applies := reads (should_apply_schema_epoch (tl_schema_epoch payload)) in
  if negb applies then ret tt
  else
    let table_id := normalize_identifier (tl_table_id payload) in
    match tl_action payload with
    | TableCreate =>
        let sch := default (TableSchema_new []) (tl_schema payload) in
        let! known := reads (has_table table_id) in
        do! (if known then ret tt else register_table_with_entity_id table_id sch (tl_entity_id payload));
        accept_schema_epoch (tl_schema_epoch payload)
    | TableDrop => drop_if_found TypeTable table_id (tl_schema_epoch payload)
    end.

Definition apply_index_lifecycle (payload : IndexLifecyclePayload) : M unit :=
  let! applies := reads (should_apply_schema_epoch (il_schema_epoch payload)) in
  if negb applies then ret tt
  else
    let table_id := normalize_identifier (il_table_id payload) in
    let id := normalize_identifier (il_index_id payload) in
    match il_action payload with
    | IndexCreate =>
        match il_index payload with
        | None => raise IndexPayloadDeserialize
        | Some i =>
            do! with_table_mut table_id
                  (λ t,
                    if negb (forallb (λ name, negb (is_none (field (schema t) name))) (field_names i))
                    then Err (SchemaChangeError FieldNotFound)
                    else
                      let i :=
                        refresh_index_id
                          {| index_id := id; index_table_id := table_id; index_kind := index_kind i; origin := origin i;
                             temp_id := temp_id i; field_names := field_names i;
                             index_field_name := index_field_name i |} in
                      let i :=
                        {| index_id := id; index_table_id := index_table_id i; index_kind := index_kind i;
                           origin := origin i; temp_id := temp_id i; field_names := field_names i;
                           index_field_name := index_field_name i |} in
                      Ok (tt, set_table_indexes (<[id := i]> (table_indexes t)) t));
            accept_schema_epoch (il_schema_epoch payload)
        end
    | IndexDrop =>
        do! with_table_mut table_id (λ t, Ok (tt, set_table_indexes (delete id (table_indexes t)) t));
        accept_schema_epoch (il_schema_epoch payload)
    end.

Definition apply_entity_metadata (payload : EntityMetadataPayload) : M unit :=
  with_entity_mut (normalize_identifier (em_entity_id payload)) EntityNotFound
    (λ e, Ok (tt, set_entity_metadata_of (em_metadata payload) e)).

Definition set_entity_metadata (entity_id : ustr) (m : EntityMetadata) : M unit :=
  apply_entity_metadata {| em_entity_id := entity_id; em_metadata := m |}.

(** An existing object is changed in place and the epoch accepted; a new one is registered, which raises
    the epoch by one. *)
Definition upsert_sql_definition (object_id : ustr) (payload : SqlDefinitionPayload) : M unit :=
  let sql := sd_sql payload in
  let deps := normalize_identifier <$> sd_dependencies payload in
  let! existed_before := reads (has_sql_object_kind object_id (sd_object_kind payload)) in
  match sd_object_kind payload with
  | SqlView =>
      if negb existed_before then
        do! register_view object_id sql (TableSchema_new []);
        with_view_mut object_id (changes (λ v, Ok (set_view_definition (view_sql v) deps v)))
      else
        do! with_view_mut object_id (changes (λ v, Ok (set_view_definition sql deps v)));
        accept_schema_epoch (sd_schema_epoch payload)
  | SqlOlapView =>
      if negb existed_before then register_olap_view object_id sql [] (TableSchema_new []) deps
      else
        do! with_olap_view_mut object_id (changes (λ v, Ok (set_olap_definition sql deps v)));
        accept_schema_epoch (sd_schema_epoch payload)
  | SqlTrigger =>
      if negb existed_before then register_trigger object_id sql deps
      else
        do! with_trigger_mut object_id (changes (λ t, Ok (set_trigger_definition sql deps t)));
        accept_schema_epoch (sd_schema_epoch payload)
  | SqlStoredProcedure =>
      if negb existed_before then register_stored_procedure object_id sql deps
      else
        do! with_stored_procedure_mut object_id (changes (λ p, Ok (set_procedure_definition sql deps p)));
        accept_schema_epoch (sd_schema_epoch payload)
  end.

Definition sql_object_type (k : SqlObjectKind) : DatabaseObjectType :=
  match k with
  | SqlView => TypeView
  | SqlOlapView => TypeOlapView
  | SqlTrigger => TypeTrigger
  | SqlStoredProcedure => TypeStoredProcedure
  end.

Definition apply_sql_definition (payload : SqlDefinitionPayload) : M unit :=
  let! applies := reads (should_apply_schema_epoch (sd_schema_epoch payload)) in
  if negb applies then ret tt
  else
    let object_id := normalize_identifier (sd_object_id payload) in
    match sd_action payload with
    | SqlUpsert => upsert_sql_definition object_id payload
    | SqlDrop => drop_if_found (sql_object_type (sd_object_kind payload)) object_id (sd_schema_epoch payload)
    end.

Definition set_sql_definition (object_id : ustr) (k : SqlObjectKind) (sql : ustr) (deps : list ustr) : M unit :=
  let! epoch := reads (λ s, schema_epoch s.2) in
  apply_sql_definition
    {| sd_object_id := object_id; sd_object_kind := k; sd_action := SqlUpsert; sd_schema_epoch := saturating_add epoch 1;
       sd_sql := sql; sd_dependencies := deps |}.

(** ** Accounts and encryption *)

Definition normalize_acl_user_key (user_id : ustr) : ustr := to_ascii_lowercase (trim user_id).

Definition effective_account_acl_entry (user_id : ustr) (c : DatabaseCatalog) : option AccountAclEntry :=
  account_acl_entries c !! normalize_acl_user_key user_id.

Definition upsert_account_acl_entry (e : AccountAclEntry) (c : DatabaseCatalog) : DatabaseCatalog :=
  set_accounts (<[normalize_acl_user_key (acl_user_id e) := e]> (account_acl_entries c)) (user_credentials c) c.

Definition effective_user_credential (user_id : ustr) (c : DatabaseCatalog) : option UserCredential :=
  user_credentials c !! normalize_acl_user_key user_id.

Definition upsert_user_credential (cr : UserCredential) (c : DatabaseCatalog) : DatabaseCatalog :=
  set_accounts (account_acl_entries c) (<[normalize_acl_user_key (cred_user_id cr) := cr]> (user_credentials c)) c.

Definition ROOT_USER_ID : ustr := lit "root".

Definition ensure_default_root_account_acl (c : DatabaseCatalog) : DatabaseCatalog :=
  let root_key := normalize_acl_user_key ROOT_USER_ID in
  match account_acl_entries c !! root_key with
  | Some _ => c
  | None =>
      let root_acl :=
        append_grant_option_for_selector SelectorAll (AccountAclEntry_new ROOT_USER_ID (database_name c)) in
      set_accounts (<[root_key := root_acl]> (account_acl_entries c)) (user_credentials c) c
  end.

Definition configure_at_rest_encryption_key_ref (key_ref : ustr) (c : DatabaseCatalog) :
    result DatabaseCatalog DatabaseError :=
  let normalized := trim key_ref in
  if is_empty normalized then Err InvalidEncryptionKeyRef
  else
    match encryption_key_ref c with
    | Some current => if str_eqb current normalized then Ok c else Err ImmutableEncryptionConfiguration
    | None =>
        Ok (set_encryption (Some normalized) (if encryption_key_version c =? 0 then 1 else encryption_key_version c) c)
    end.

(** ** New databases *)

Definition from_database_name `{Digest} (name : ustr) : result ustr DatabaseError :=
  let normalized := normalize_identifier name in
  if is_empty normalized then Err InvalidDatabaseName else Ok (stable_id [normalized]).

Definition create_empty_from_name `{Digest} (name : ustr) : result DatabaseCatalog DatabaseError :=
  let? database_id := from_database_name name in
  Ok (ensure_default_root_account_acl (set_database_name (normalize_identifier name) (DatabaseCatalog_new database_id))).

End catalog.
