(* ===== verification/CatalogFacts.v ===== *)
(** * Facts about the catalog

    The invariant of a catalog and its shared store, what lookups and changes through handles do to the entities,
    the indexes of an altered schema, and the life of a schema change.

    - [catalog_lookup_invariant]: every operation keeps the catalog well formed, and a lookup finds the one object
      with that id or, failing that, that name, whatever order the map is iterated in.
    - [merged_indexes]: which indexes a table has after its schema is replaced.
    - [schema_change_completes]: a schema change that has begun releases its table whichever way it ends. *)

From Stdlib Require Import ZArith Lia.
From stdpp Require Import base gmap list strings.
From S2P Require Import Prelude Identifiers Text Schema DatabaseIndex Entities Security Credentials AlterTable Catalog.

Local Open Scope Z_scope.

(** ** The entities of a catalog *)

(** The entities by their storage keys. *)
Definition entities (s : CState) : gmap ustr DatabaseEntity := omap (λ h, heap s.1 !! h) (entity_handles s.2).

Record catalog_wf (s : CState) : Prop := {
  wf_key : ∀ k h, entity_handles s.2 !! k = Some h → ∃ e, heap s.1 !! h = Some e ∧ storage_key e = k;
  wf_names : ∀ k k' e e', entities s !! k = Some e → entities s !! k' = Some e' →
    entity_name e = entity_name e' → k = k';
  wf_relations : ∀ k e, entities s !! k = Some e → entity_kind e ≠ KindRelationship
}.

(** A new entity under key [k]. *)
Definition write_entity (k : ustr) (e : DatabaseEntity) (s : CState) : CState :=
  match entity_handles s.2 !! k with
  | Some h => (set_heap (<[h := e]> (heap s.1)) s.1, s.2)
  | None => s
  end.

Lemma lookup_entities s k : entities s !! k = (entity_handles s.2 !! k) ≫= λ h, heap s.1 !! h.
Proof. apply lookup_omap. Qed.

Lemma entities_snapshot s k : entity_snapshot_by_key k s = entities s !! k.
Proof. by rewrite lookup_entities. Qed.

Lemma wf_entity_key s k e : catalog_wf s → entities s !! k = Some e → storage_key e = k.
Proof.
  intros Hwf. rewrite lookup_entities. intros (h & Eh & Ee)%bind_Some.
  destruct (wf_key _ Hwf _ _ Eh) as (e' & Ee' & <-). congruence.
Qed.

Lemma wf_handle s k h : catalog_wf s → entity_handles s.2 !! k = Some h → ∃ e, heap s.1 !! h = Some e ∧ entities s !! k = Some e.
Proof.
  intros Hwf Eh. destruct (wf_key _ Hwf _ _ Eh) as (e & Ee & _). exists e. split; [done|].
  by rewrite lookup_entities, Eh.
Qed.

(** No two keys share a handle. *)
Lemma handles_injective s k k' h :
  catalog_wf s → entity_handles s.2 !! k = Some h → entity_handles s.2 !! k' = Some h → k = k'.
Proof.
  intros Hwf E E'. destruct (wf_key _ Hwf _ _ E) as (e & Ee & <-).
  destruct (wf_key _ Hwf _ _ E') as (e' & Ee' & <-). congruence.
Qed.

Lemma entities_write s k e :
  catalog_wf s → is_Some (entities s !! k) → entities (write_entity k e s) = <[k := e]> (entities s).
Proof.
  intros Hwf [e0 E0]. pose proof E0 as E1. rewrite lookup_entities in E1. apply bind_Some in E1 as (h & Eh & _).
  unfold write_entity. rewrite Eh. apply map_eq. intros k'. rewrite lookup_entities. simpl.
  destruct (decide (k = k')) as [<-|Hne].
  - rewrite lookup_insert_eq, Eh. simpl. by rewrite lookup_insert_eq.
  - rewrite lookup_insert_ne, lookup_entities by done.
    destruct (entity_handles s.2 !! k') as [h'|] eqn:Eh'; simpl; [|done].
    rewrite lookup_insert_ne; [done|]. intros ->. apply Hne. by eapply handles_injective.
Qed.

Lemma wf_write s k e e0 :
  catalog_wf s → entities s !! k = Some e0 → storage_key e = k → entity_name e = entity_name e0 →
  entity_kind e = entity_kind e0 → catalog_wf (write_entity k e s).
Proof.
  intros Hwf E0 Hk Hn Hkind. pose proof (entities_write s k e Hwf (mk_is_Some _ _ E0)) as Ew.
  pose proof E0 as E1. rewrite lookup_entities in E1. apply bind_Some in E1 as (h & Eh & Ee0).
  split.
  - intros k' h'. unfold write_entity. rewrite Eh. simpl. intros Eh'.
    destruct (decide (h = h')) as [<-|].
    + rewrite lookup_insert_eq. exists e. split; [done|]. rewrite Hk. by eapply handles_injective.
    + rewrite lookup_insert_ne by done. by apply (wf_key _ Hwf).
  - rewrite Ew. intros k1 k2 e1 e2.
    rewrite !lookup_insert_Some. intros [[<- <-]|[H1 E1]] [[<- <-]|[H2 E2]] Hname; try done.
    + rewrite Hn in Hname. by eapply (wf_names _ Hwf).
    + rewrite Hn in Hname. by eapply (wf_names _ Hwf).
    + by eapply (wf_names _ Hwf).
  - rewrite Ew. intros k1 e1. rewrite lookup_insert_Some. intros [[<- <-]|[_ E1]].
    + rewrite Hkind. by eapply wf_relations.
    + by eapply wf_relations.
Qed.

Lemma write_entity_catalog k e s : (write_entity k e s).2 = s.2.
Proof. unfold write_entity. by destruct (_ !! _). Qed.

Section facts.
Context `{HashOrderLaws}.

(** ** Lookups *)

Lemma elem_of_handles_iter c k h : (k, h) ∈ handles_iter c ↔ entity_handles c !! k = Some h.
Proof. unfold handles_iter. rewrite (iter_permutation _ (entity_handles c)). apply elem_of_map_to_list. Qed.

Lemma find_entity_Some {A} (f : ustr → DatabaseEntity → option A) s x :
  find_entity f s = Some x → ∃ k e, entities s !! k = Some e ∧ f k e = Some x.
Proof.
  intros Hx%head_Some_elem_of. apply list_elem_of_omap in Hx as ([k h] & Hin & Hf). simpl in Hf.
  apply bind_Some in Hf as (e & Ee & Hf). apply elem_of_handles_iter in Hin.
  exists k, e. split; [|done]. by rewrite lookup_entities, Hin.
Qed.

Lemma find_entity_None {A} (f : ustr → DatabaseEntity → option A) s :
  find_entity f s = None → ∀ k e, entities s !! k = Some e → f k e = None.
Proof.
  intros Hnone k e. rewrite lookup_entities. intros (h & Eh & Ee)%bind_Some.
  destruct (f k e) as [x|] eqn:Ef; [|done]. exfalso.
  assert (x ∈ omap (λ entry, e ← snapshot_of s.1 entry.2; f entry.1 e) (handles_iter s.2)) as Hin.
  { apply list_elem_of_omap. exists (k, h). split; [by apply elem_of_handles_iter|].
    simpl. unfold snapshot_of. by rewrite Ee. }
  unfold find_entity in Hnone. destruct (omap _ _); [set_solver|done].
Qed.

(** The object an id denotes: the entity stored under it, else the entity of that name. *)
Definition denotes (m : gmap ustr DatabaseEntity) (id k : ustr) : Prop :=
  match m !! id with
  | Some _ => k = id
  | None => ∃ e, m !! k = Some e ∧ entity_name e = id
  end.

Lemma handle_entity s k : catalog_wf s → is_Some (entity_handles s.2 !! k) ↔ is_Some (entities s !! k).
Proof.
  intros Hwf. split.
  - intros [h Eh]. destruct (wf_handle _ _ _ Hwf Eh) as (e & _ & ->). eauto.
  - rewrite lookup_entities. intros [e (h & Eh & _)%bind_Some]. rewrite Eh. eauto.
Qed.

Lemma no_relationship_match s k e target :
  catalog_wf s → entities s !! k = Some e → matches_relationship target e = false.
Proof.
  intros Hwf Ee. pose proof (wf_relations _ Hwf _ _ Ee) as Hne.
  destruct target as [[[l r] name]|]; [|done]. by destruct e.
Qed.

Lemma resolve_denotes s id k : catalog_wf s → resolve_entity_key id s = Some k ↔ denotes (entities s) id k.
Proof.
  intros Hwf. unfold resolve_entity_key, denotes.
  pose proof (handle_entity s id Hwf) as Hh.
  destruct (entity_handles s.2 !! id) as [h|] eqn:Eh.
  { destruct (entities s !! id); [split; congruence|]. destruct (proj1 Hh) as [? [=]]; eauto. }
  destruct (entities s !! id) as [e|]; [destruct (proj2 Hh) as [? [=]]; eauto|].
  split.
  - intros (k' & e & Ee & Hf)%find_entity_Some. rewrite (no_relationship_match _ _ _ _ Hwf Ee) in Hf.
    unfold str_eqb in Hf. case_bool_decide; [|done]. apply (inj Some) in Hf as <-. eauto.
  - intros (e & Ee & Hname). destruct (find_entity _ s) as [k'|] eqn:Ef.
    + apply find_entity_Some in Ef as (k1 & e1 & Ee1 & Hf). rewrite (no_relationship_match _ _ _ _ Hwf Ee1) in Hf.
      unfold str_eqb in Hf. case_bool_decide as Hn; [|done]. apply (inj Some) in Hf as <-. f_equal.
      eapply (wf_names _ Hwf); [done|done|congruence].
    + pose proof (find_entity_None _ _ Ef _ _ Ee) as Hf. cbn beta in Hf.
      rewrite (no_relationship_match _ _ _ _ Hwf Ee) in Hf.
      unfold str_eqb in Hf. case_bool_decide; done.
Qed.

Lemma denotes_present m id k : denotes m id k → is_Some (m !! k).
Proof. unfold denotes. destruct (m !! id) eqn:E; [intros ->; eauto|]. intros (e & -> & _). eauto. Qed.

Lemma resolve_None s id :
  catalog_wf s → resolve_entity_key id s = None →
  entities s !! id = None ∧ ∀ k e, entities s !! k = Some e → entity_name e ≠ id.
Proof.
  intros Hwf Hnone. assert (∀ k, ¬ denotes (entities s) id k) as Hd.
  { intros k Hk%(resolve_denotes _ _ _ Hwf). congruence. }
  unfold denotes in Hd. destruct (entities s !! id); [by edestruct Hd|].
  split; [done|]. intros k e Ee Hname. apply (Hd k). eauto.
Qed.

Lemma entity_denotes s id k e :
  catalog_wf s → denotes (entities s) id k → entities s !! k = Some e → entity id s = Some e.
Proof.
  intros Hwf Hd Ee. unfold entity. rewrite (proj2 (resolve_denotes s id k Hwf) Hd). simpl.
  by rewrite entities_snapshot.
Qed.

Lemma entity_Some s id e :
  catalog_wf s → entity id s = Some e → ∃ k, denotes (entities s) id k ∧ entities s !! k = Some e.
Proof.
  intros Hwf (k & Hk & Ee)%bind_Some. exists k. rewrite <- entities_snapshot, <- resolve_denotes by done. done.
Qed.

(** ** Changes through handles *)

Lemma with_entity_mut_eq {R} id missing (apply : DatabaseEntity → result (R * DatabaseEntity) DatabaseError) s :
  catalog_wf s →
  with_entity_mut id missing apply s =
    match resolve_entity_key id s ≫= λ k, (k,.) <$> entities s !! k with
    | None => (Err missing, s)
    | Some (k, e) => match apply e with Ok (r, e') => (Ok r, write_entity k e' s) | Err err => (Err err, s) end
    end.
Proof.
  intros Hwf. unfold with_entity_mut, bind, reads, entity_handle. simpl.
  destruct (resolve_entity_key id s) as [k|] eqn:Ek; [|done]. simpl. rewrite lookup_entities.
  destruct (entity_handles s.2 !! k) as [h|] eqn:Eh; [|done]. simpl.
  destruct s as [st c]. unfold mutate, write_entity. simpl in *.
  destruct (heap st !! h) as [e|]; simpl; [|done]. destruct (apply e) as [[r e']|]; [|done]. by rewrite Eh.
Qed.

Lemma with_entity_mut_ok {R} id missing (apply : DatabaseEntity → result (R * DatabaseEntity) DatabaseError) s k e r e' :
  catalog_wf s → denotes (entities s) id k → entities s !! k = Some e → apply e = Ok (r, e') →
  with_entity_mut id missing apply s = (Ok r, write_entity k e' s).
Proof.
  intros Hwf Hd Ee Ha. rewrite with_entity_mut_eq by done. rewrite (proj2 (resolve_denotes s id k Hwf) Hd). simpl.
  rewrite Ee. simpl. by rewrite Ha.
Qed.

Lemma with_table_mut_ok {R} id (apply : DatabaseTable → result (R * DatabaseTable) DatabaseError) s k t r t' :
  catalog_wf s → denotes (entities s) id k → entities s !! k = Some (EntityTable t) → apply t = Ok (r, t') →
  with_table_mut id apply s = (Ok r, write_entity k (EntityTable t') s).
Proof. intros Hwf Hd Ee Ha. unfold with_table_mut. eapply with_entity_mut_ok; [done..|]. simpl. by rewrite Ha. Qed.

Lemma with_table_mut_err {R} id (apply : DatabaseTable → result (R * DatabaseTable) DatabaseError) s k t err :
  catalog_wf s → denotes (entities s) id k → entities s !! k = Some (EntityTable t) → apply t = Err err →
  with_table_mut id apply s = (Err err, s).
Proof.
  intros Hwf Hd Ee Ha. unfold with_table_mut. rewrite with_entity_mut_eq by done.
  rewrite (proj2 (resolve_denotes s id k Hwf) Hd). simpl. rewrite Ee. simpl. by rewrite Ha.
Qed.

(** ** The invariant *)

Definition preserves {A} (m : M A) : Prop := ∀ s r s', catalog_wf s → m s = (r, s') → catalog_wf s'.

(** A change of an entity that keeps its key, its name and its kind. *)
Definition same_identity (e e' : DatabaseEntity) : Prop :=
  storage_key e' = storage_key e ∧ entity_name e' = entity_name e ∧ entity_kind e' = entity_kind e.

Definition keeps_identity {R} (apply : DatabaseEntity → result (R * DatabaseEntity) DatabaseError) : Prop :=
  ∀ e r e', apply e = Ok (r, e') → same_identity e e'.

Lemma preserves_same {A} (m : M A) : (∀ s, (m s).2 = s) → preserves m.
Proof. intros Hm s r s' Hwf E. specialize (Hm s). rewrite E in Hm. simpl in Hm. by subst s'. Qed.

Lemma preserves_bind {A B} (m : M A) (k : A → M B) :
  preserves m → (∀ x, preserves (k x)) → preserves (let! x := m in k x).
Proof.
  intros Hm Hk s r s' Hwf. unfold bind. destruct (m s) as [[x|e] s1] eqn:Em; intros E.
  - eapply Hk; [by eapply Hm|done].
  - apply pair_equal_spec in E as [_ <-]. by eapply Hm.
Qed.

Lemma wf_handles st c c' : entity_handles c' = entity_handles c → catalog_wf (st, c) → catalog_wf (st, c').
Proof.
  intros E [Hk Hn Hr]. assert (entities (st, c') = entities (st, c)) as Ee by (unfold entities; simpl; by rewrite E).
  split; rewrite ?Ee; [|done..]. simpl. rewrite E. exact Hk.
Qed.

Lemma preserves_update f : (∀ c, entity_handles (f c) = entity_handles c) → preserves (update f).
Proof.
  intros Hf [st c] r s' Hwf. unfold update. intros [= _ <-]. eapply wf_handles; [apply Hf|done].
Qed.

Lemma preserves_env {A} (m : M A) :
  (∀ s, (m s).2.2 = s.2 ∧ heap (m s).2.1 = heap s.1) → preserves m.
Proof.
  intros Hm s r s' Hwf E. destruct (Hm s) as [H1 H2]. rewrite E in H1, H2. simpl in H1, H2.
  destruct s as [st c], s' as [st' c']. simpl in *. subst c'. destruct Hwf as [Hk Hn Hr].
  assert (entities (st', c) = entities (st, c)) as Ee by (unfold entities; simpl; by rewrite H2).
  split; rewrite ?Ee; [|done..]. simpl. rewrite H2. exact Hk.
Qed.

Lemma preserves_with_entity_mut {R} id missing (apply : DatabaseEntity → result (R * DatabaseEntity) DatabaseError) :
  keeps_identity apply → preserves (with_entity_mut id missing apply).
Proof.
  intros Ha s r s' Hwf. rewrite with_entity_mut_eq by done.
  destruct (resolve_entity_key id s) as [k|]; [|by intros [= _ <-]]. simpl.
  destruct (entities s !! k) as [e|] eqn:Ee; simpl; [|by intros [= _ <-]].
  destruct (apply e) as [[x e']|err] eqn:Eapp; [|by intros [= _ <-]]. intros [= _ <-].
  destruct (Ha _ _ _ Eapp) as (Hk & Hn & Hkind). eapply wf_write; [done..| |done|done].
  rewrite Hk. by eapply wf_entity_key.
Qed.

Lemma preserves_with_table_mut {R} id (apply : DatabaseTable → result (R * DatabaseTable) DatabaseError) :
  (∀ t r t', apply t = Ok (r, t') → table_entity_id t' = table_entity_id t ∧ table_id t' = table_id t) →
  preserves (with_table_mut id apply).
Proof.
  intros Ha. apply preserves_with_entity_mut. intros e r e'. destruct e as [t|v|v|rel|tr|p]; try done. simpl.
  destruct (apply t) as [[x t']|] eqn:E; [|done]. intros [= <- <-]. destruct (Ha _ _ _ E) as [H1 H2]. done.
Qed.

Lemma preserves_mutate {R} h missing (apply : DatabaseEntity → result (R * DatabaseEntity) DatabaseError) :
  keeps_identity apply → preserves (mutate h missing apply).
Proof.
  intros Ha [st c] r s' Hwf. unfold mutate. destruct (heap st !! h) as [e|] eqn:Eh; [|by intros [= _ <-]].
  destruct (apply e) as [[x e']|] eqn:Ee; [|by intros [= _ <-]]. intros [= _ <-].
  destruct (Ha _ _ _ Ee) as (Hk & Hn & Hkind).
  destruct (decide (entity_handles c !! storage_key e = Some h)) as [Ek|Hno'].
  - set (k := storage_key e) in *. assert (Ee' : entities (st, c) !! k = Some e) by (rewrite lookup_entities; simpl; by rewrite Ek).
    pose proof (wf_write (st, c) k e' e Hwf Ee') as Hw. unfold write_entity in Hw. simpl in Hw. rewrite Ek in Hw.
    by apply Hw.
  - assert (Hno : ¬ ∃ k, entity_handles c !! k = Some h).
    { intros [k Ek]. destruct (wf_key _ Hwf _ _ Ek) as (e0 & Ee0 & Hk0). simpl in Ee0. congruence. }
    assert (entities (set_heap (<[h := e']> (heap st)) st, c) = entities (st, c)) as Eq.
    { apply map_eq. intros k. rewrite !lookup_entities. simpl.
      destruct (entity_handles c !! k) as [h'|] eqn:Ek; [|done]. simpl.
      rewrite lookup_insert_ne; [done|]. intros ->. apply Hno. eauto. }
    destruct Hwf as [Hwk Hwn Hwr]. split; rewrite ?Eq; [|done..].
    simpl. intros k h' Ek. rewrite lookup_insert_ne; [by apply Hwk|]. intros ->. apply Hno. eauto.
Qed.

(** *** Registration *)

Lemma fresh_handle (m : gmap positive DatabaseEntity) : m !! fresh (dom m : gset positive) = None.
Proof. apply not_elem_of_dom. apply is_fresh. Qed.

(** The state after [insert_entity_handle] of a new key. *)
Definition inserted (e : DatabaseEntity) (s : CState) : CState :=
  let h := fresh (dom (heap s.1) : gset positive) in
  (set_heap (<[h := e]> (heap s.1)) s.1, set_handles (<[storage_key e := h]> (entity_handles s.2)) s.2).

Lemma insert_entity_handle_eq e s :
  insert_entity_handle e s =
    match entity_handles s.2 !! storage_key e with Some _ => (Err DuplicateEntity, s) | None => (Ok tt, inserted e s) end.
Proof. destruct s as [st c]. unfold insert_entity_handle, inserted. simpl. by destruct (_ !! _). Qed.

Lemma entities_inserted e s :
  catalog_wf s → entity_handles s.2 !! storage_key e = None →
  entities (inserted e s) = <[storage_key e := e]> (entities s).
Proof.
  intros Hwf Hnew. apply map_eq. intros k. rewrite lookup_entities. unfold inserted. simpl.
  destruct (decide (storage_key e = k)) as [<-|Hne].
  - rewrite !lookup_insert_eq. simpl. by rewrite lookup_insert_eq.
  - rewrite !lookup_insert_ne, lookup_entities by done.
    destruct (entity_handles s.2 !! k) as [h|] eqn:Eh; [|done]. simpl.
    rewrite lookup_insert_ne; [done|]. intros <-. destruct (wf_handle _ _ _ Hwf Eh) as (e' & Ee & _).
    by rewrite fresh_handle in Ee.
Qed.

Lemma wf_inserted e s :
  catalog_wf s → entity_handles s.2 !! storage_key e = None → entity_kind e ≠ KindRelationship →
  (∀ k e', entities s !! k = Some e' → entity_name e' ≠ entity_name e) → catalog_wf (inserted e s).
Proof.
  intros Hwf Hnew Hkind Hname. pose proof (entities_inserted e s Hwf Hnew) as Ei. split.
  - intros k h. unfold inserted. simpl. rewrite lookup_insert_Some. intros [[<- <-]|[Hne Eh]].
    + exists e. by rewrite lookup_insert_eq.
    + destruct (wf_key _ Hwf _ _ Eh) as (e' & Ee & Hk). exists e'. split; [|done].
      rewrite lookup_insert_ne; [done|]. intros <-. by rewrite fresh_handle in Ee.
  - rewrite Ei. intros k1 k2 e1 e2. rewrite !lookup_insert_Some. intros [[<- <-]|[H1 E1]] [[<- <-]|[H2 E2]] En; try done.
    + by destruct (Hname _ _ E2).
    + by destruct (Hname _ _ E1).
    + by eapply (wf_names _ Hwf).
  - rewrite Ei. intros k1 e1. rewrite lookup_insert_Some. intros [[<- <-]|[_ E1]]; [done|]. by eapply wf_relations.
Qed.

Lemma insert_wf e s r s' :
  catalog_wf s → resolve_entity_key (entity_name e) s = None → entity_kind e ≠ KindRelationship →
  insert_entity_handle e s = (r, s') → catalog_wf s'.
Proof.
  intros Hwf Hres Hkind. rewrite insert_entity_handle_eq.
  destruct (entity_handles s.2 !! storage_key e) eqn:Eh; intros [= _ <-]; [done|].
  apply wf_inserted; [done..|]. by apply (resolve_None _ _ Hwf).
Qed.

(** Drawing an id or a time changes no entity. *)
Lemma draw_resolve st c fresh' clock' id :
  resolve_entity_key id (mkStore (heap st) fresh' clock', c) = resolve_entity_key id (st, c).
Proof. done. Qed.

Lemma wf_draw st c fresh' clock' : catalog_wf (st, c) → catalog_wf (mkStore (heap st) fresh' clock', c).
Proof. intros [Hk Hn Hr]. by split. Qed.

Lemma preserves_register_named name make :
  (∀ id, entity_name (make id) = name ∧ entity_kind (make id) ≠ KindRelationship) →
  preserves (register_named name make).
Proof.
  intros Hmake [st c] r s' Hwf. unfold register_named, bind, reads.
  destruct (resolve_entity_key name (st, c)) eqn:Eres; [by intros [= _ <-]|]. unfold unique_id.
  set (st' := mkStore _ _ _). destruct (Hmake (fresh_ids st 0%nat)) as [Hn Hkind].
  destruct (insert_entity_handle (make (fresh_ids st 0%nat)) (st', c)) as [ri si] eqn:Ei.
  assert (catalog_wf si) as Hwi.
  { eapply insert_wf; [by apply wf_draw|by rewrite Hn|done|done]. }
  destruct ri as [[]|]; [|by intros [= _ <-]]. destruct si as [sti ci].
  unfold bump_schema_epoch, update. intros [= _ <-]. by apply (wf_handles sti ci).
Qed.

Lemma preserves_register_table table_id sch entity_id : preserves (register_table_with_entity_id table_id sch entity_id).
Proof.
  intros [st c] r s' Hwf. unfold register_table_with_entity_id, bind, lift, reads.
  destruct (map_err _ _); [|by intros [= _ <-]].
  destruct (resolve_entity_key table_id (st, c)) eqn:Eres; [by intros [= _ <-]|]. cbn [is_none negb]. unfold unique_id.
  intros Ei. eapply insert_wf; [by apply wf_draw| | |exact Ei]; [|done].
  destruct (normalize_identifier <$> entity_id) as [id|]; simpl; [|done]. by destruct (is_empty id).
Qed.

(** *** The operations *)

Lemma preserves_ret {A} (x : A) : preserves (ret x).
Proof. by apply preserves_same. Qed.
Lemma preserves_raise {A} e : preserves (raise (A := A) e).
Proof. by apply preserves_same. Qed.
Lemma preserves_lift {A} (r : result A DatabaseError) : preserves (lift r).
Proof. by apply preserves_same. Qed.
Lemma preserves_reads {A} (f : CState → A) : preserves (reads f).
Proof. by apply preserves_same. Qed.
Lemma preserves_unique_id : preserves unique_id.
Proof. by apply preserves_env; intros [st c]. Qed.
Lemma preserves_epoch_nanos : preserves epoch_nanos.
Proof. by apply preserves_env; intros [st c]. Qed.
Lemma preserves_bump : preserves bump_schema_epoch.
Proof. by apply preserves_update. Qed.
Lemma preserves_accept epoch : preserves (accept_schema_epoch epoch).
Proof. by apply preserves_update. Qed.
Lemma preserves_set_active a : preserves (update (set_active a)).
Proof. by apply preserves_update. Qed.
Lemma preserves_set_status st : preserves (update (set_catalog_status st)).
Proof. by apply preserves_update. Qed.

Lemma transition_identity next t t' :
  transition next t = Ok t' → table_entity_id t' = table_entity_id t ∧ table_id t' = table_id t.
Proof. unfold transition. destruct (can_transition_to _ _); [|done]. by intros [= <-]. Qed.

(** A closure over a table keeps its identity when what it does on every branch does. *)
Definition table_change {R} (apply : DatabaseTable → result (R * DatabaseTable) DatabaseError) : Prop :=
  ∀ t r t', apply t = Ok (r, t') → table_entity_id t' = table_entity_id t ∧ table_id t' = table_id t.

Lemma changes_transition next : table_change (changes (transition next)).
Proof.
  intros t r t'. unfold changes. destruct (transition next t) as [t1|] eqn:E; [|done]. intros [= _ <-].
  by eapply transition_identity.
Qed.

Lemma changes_when_locked next : table_change (changes (when_locked (transition next))).
Proof.
  intros t r t'. unfold changes, when_locked. destruct (eqb _ _); [|done]. apply (changes_transition next t r t').
Qed.

Lemma changes_complete_indexing : table_change (changes table_complete_indexing).
Proof.
  intros t r t'. unfold changes, table_complete_indexing. destruct (eqb _ _); [by intros [= _ <-]|].
  apply (changes_transition StatusReady t r t').
Qed.

Lemma drop_if_found_preserves ty id epoch : preserves (drop_object ty id) → preserves (drop_if_found ty id epoch).
Proof.
  intros Hd s r s' Hwf. unfold drop_if_found. destruct (drop_object ty id s) as [rd sd] eqn:Ed.
  pose proof (Hd _ _ _ Hwf Ed) as Hwd.
  destruct rd as [[]|e]; [by apply preserves_accept|].
  destruct ty, e; try (by intros [= _ <-]); by apply preserves_accept.
Qed.

Lemma wf_delete st c key : catalog_wf (st, c) → catalog_wf (st, set_handles (delete key (entity_handles c)) c).
Proof.
  intros [Hk Hn Hr].
  assert (Hsub : ∀ k e, entities (st, set_handles (delete key (entity_handles c)) c) !! k = Some e →
                        entities (st, c) !! k = Some e).
  { intros k e. rewrite !lookup_entities. simpl. rewrite lookup_delete. by case_decide. }
  split.
  - simpl. intros k h. rewrite lookup_delete_Some. intros [_ E]. by apply Hk.
  - intros k k' e e' E%Hsub E'%Hsub. by apply Hn.
  - intros k e E%Hsub. by eapply Hr.
Qed.

Lemma preserves_drop_object ty id : preserves (drop_object ty id).
Proof.
  unfold drop_object. apply preserves_bind; [apply preserves_reads|]. intros [key|]; [|apply preserves_raise].
  apply preserves_bind; [apply preserves_reads|]. intros e. destruct (negb _); [apply preserves_raise|].
  apply preserves_bind; [|intros; apply preserves_bump].
  intros [st c] r s' Hwf. unfold update. intros [= _ <-]. by apply wf_delete.
Qed.

Lemma preserves_each_table f handles :
  (∀ t t', f t = Ok t' → table_entity_id t' = table_entity_id t ∧ table_id t' = table_id t) →
  preserves (each_table f handles).
Proof.
  intros Hf. induction handles as [|h handles IH]; [apply preserves_ret|]. cbn [each_table].
  apply preserves_bind; [|done]. apply preserves_mutate. intros e r e'.
  destruct e as [t|v|v|rel|tr|p]; try (by intros [= _ <-]). simpl.
  destruct (f t) as [t'|] eqn:Ef; [|done]. intros [= _ <-]. by destruct (Hf _ _ Ef).
Qed.

Lemma preserves_drop_first_index id handles : preserves (drop_first_index id handles).
Proof.
  induction handles as [|h handles IH]; [apply preserves_ret|]. cbn [drop_first_index].
  apply preserves_bind; [|intros []; [apply preserves_ret|done]]. apply preserves_mutate. intros e r e'.
  destruct e as [t|v|v|rel|tr|p]; by intros [= _ <-].
Qed.

(** The closures of the operations, and the operations on the way to every call. *)
Ltac keep_table :=
  let t := fresh "t" in let r := fresh "r" in let t' := fresh "t'" in
  intros t r t'; unfold changes; repeat (case_match; try done); intros; simplify_eq; done.

Ltac keep_entity :=
  let e := fresh "e" in let r := fresh "r" in let e' := fresh "e'" in
  intros e r e'; unfold changes; destruct e; intros; simplify_eq; done.

Ltac preserve_step :=
  match goal with
  | |- preserves (ret _) => apply preserves_ret
  | |- preserves (raise _) => apply preserves_raise
  | |- preserves (lift _) => apply preserves_lift
  | |- preserves (reads _) => apply preserves_reads
  | |- preserves unique_id => apply preserves_unique_id
  | |- preserves epoch_nanos => apply preserves_epoch_nanos
  | |- preserves bump_schema_epoch => apply preserves_bump
  | |- preserves (accept_schema_epoch _) => apply preserves_accept
  | |- preserves (update _) => apply preserves_update; intros; reflexivity
  | |- preserves (register_named _ _) => apply preserves_register_named; intros; done
  | |- preserves (register_table_with_entity_id _ _ _) => apply preserves_register_table
  | |- preserves (drop_object _ _) => apply preserves_drop_object
  | |- preserves (drop_if_found _ _ _) => apply drop_if_found_preserves, preserves_drop_object
  | |- preserves (drop_first_index _ _) => apply preserves_drop_first_index
  | |- preserves (with_table_mut _ (changes (when_locked _))) => apply preserves_with_table_mut, changes_when_locked
  | |- preserves (with_table_mut _ (changes table_complete_indexing)) =>
      apply preserves_with_table_mut, changes_complete_indexing
  | |- preserves (with_table_mut _ (changes table_lock)) => apply preserves_with_table_mut, changes_transition
  | |- preserves (with_table_mut _ (changes table_abort)) => apply preserves_with_table_mut, changes_transition
  | |- preserves (with_table_mut _ (changes table_begin_sync)) => apply preserves_with_table_mut, changes_transition
  | |- preserves (with_table_mut _ (changes table_complete_sync)) => apply preserves_with_table_mut, changes_transition
  | |- preserves (with_table_mut _ _) => apply preserves_with_table_mut; keep_table
  | |- preserves (with_view_mut _ _) => apply preserves_with_entity_mut; keep_entity
  | |- preserves (with_olap_view_mut _ _) => apply preserves_with_entity_mut; keep_entity
  | |- preserves (with_trigger_mut _ _) => apply preserves_with_entity_mut; keep_entity
  | |- preserves (with_stored_procedure_mut _ _) => apply preserves_with_entity_mut; keep_entity
  | |- preserves (with_entity_mut _ _ _) => apply preserves_with_entity_mut; keep_entity
  | |- preserves (bind _ _) => apply preserves_bind; [|intros ?]
  | |- preserves (match ?x with _ => _ end) => destruct x
  end.

Ltac preserve := repeat preserve_step.

Lemma preserves_create_table table_id sch entity_id : preserves (create_table_with_entity_id table_id sch entity_id).
Proof. unfold create_table_with_entity_id. preserve. Qed.

Lemma preserves_create_temporary_table table_id sch : preserves (create_temporary_table table_id sch).
Proof. unfold create_temporary_table. apply preserves_bind; [apply preserves_create_table|intros _; preserve]. Qed.

Lemma preserves_create_index table_id name names k o :
  preserves (create_index_with_kind_and_origin table_id name names k o).
Proof. unfold create_index_with_kind_and_origin. preserve. Qed.

Lemma preserves_drop_index name table_id : preserves (drop_index name table_id).
Proof. unfold drop_index. preserve. Qed.

Lemma preserves_register_view id sql sch : preserves (register_view id sql sch).
Proof. unfold register_view. preserve. Qed.
Lemma preserves_register_olap_view id sql columns sch deps : preserves (register_olap_view id sql columns sch deps).
Proof. unfold register_olap_view. preserve. Qed.
Lemma preserves_register_trigger id sql deps : preserves (register_trigger id sql deps).
Proof. unfold register_trigger. preserve. Qed.
Lemma preserves_register_stored_procedure id sql deps : preserves (register_stored_procedure id sql deps).
Proof. unfold register_stored_procedure. preserve. Qed.

Lemma preserves_transition_status next : preserves (transition_status next).
Proof. unfold transition_status. preserve. Qed.

Lemma preserves_begin_indexing : preserves begin_indexing.
Proof.
  unfold begin_indexing. preserve; [apply preserves_transition_status|]. apply preserves_each_table.
  intros t t'. unfold table_begin_indexing. destruct (eqb _ _); [by intros [= <-]|apply transition_identity].
Qed.

Lemma preserves_complete_indexing : preserves complete_indexing.
Proof.
  assert (∀ t t', table_complete_indexing t = Ok t' → table_entity_id t' = table_entity_id t ∧ table_id t' = table_id t) as Hc.
  { intros t t'. unfold table_complete_indexing. destruct (eqb _ _); [by intros [= <-]|apply transition_identity]. }
  unfold complete_indexing. preserve; [by apply preserves_each_table|apply preserves_transition_status|].
  apply preserves_each_table. intros t t'. destruct (eqb _ _); [apply Hc|by intros [= <-]].
Qed.

Lemma preserves_complete_table_indexing id : preserves (complete_table_indexing id).
Proof. unfold complete_table_indexing. preserve. Qed.
Lemma preserves_begin_table_write id : preserves (begin_table_write id).
Proof. unfold begin_table_write. preserve. Qed.
Lemma preserves_finalize_table_write id : preserves (finalize_table_write id).
Proof. unfold finalize_table_write. preserve. Qed.
Lemma preserves_abort_table_write id : preserves (abort_table_write id).
Proof. unfold abort_table_write. preserve. Qed.

Lemma preserves_begin_schema_change id : preserves (begin_schema_change id).
Proof.
  unfold begin_schema_change. preserve. apply preserves_with_table_mut. intros t r t'. unfold table_lock.
  destruct (transition StatusLock t) as [t1|] eqn:E; [|done]. intros [= _ <-]. by eapply transition_identity.
Qed.

Lemma preserves_transition_phase id p : preserves (transition_schema_change_phase id p).
Proof. unfold transition_schema_change_phase. preserve. Qed.
Lemma preserves_checkpoint id n total token : preserves (checkpoint_schema_change_progress id n total token).
Proof. unfold checkpoint_schema_change_progress. preserve. Qed.
Lemma preserves_release id : preserves (release_schema_lock id).
Proof. unfold release_schema_lock. preserve. Qed.

Lemma preserves_apply_schema_change payload : preserves (apply_schema_change payload).
Proof. unfold apply_schema_change. preserve. Qed.

Lemma preserves_finalize_schema_change payload : preserves (finalize_schema_change payload).
Proof.
  unfold finalize_schema_change. apply preserves_bind; [apply preserves_apply_schema_change|intros _].
  apply preserves_bind; [apply preserves_transition_phase|intros _]. preserve. apply preserves_transition_phase.
Qed.

Lemma preserves_commit {W} tx (persist : SchemaChangePayload → W → result unit DatabaseError * W) w s r w' s' :
  catalog_wf s → commit tx persist w s = (r, w', s') → catalog_wf s'.
Proof.
  intros Hwf. unfold commit.
  destruct (bind _ _ s) as [[epoch|e] s1] eqn:E1; cbn beta iota in E1.
  2: { intros [= _ _ <-]. revert Hwf E1. apply preserves_bind; [apply preserves_transition_phase|intros _].
       apply preserves_bind; [apply preserves_checkpoint|intros _; apply preserves_reads]. }
  assert (catalog_wf s1) as Hwf1.
  { revert Hwf E1. apply preserves_bind; [apply preserves_transition_phase|intros _].
    apply preserves_bind; [apply preserves_checkpoint|intros _; apply preserves_reads]. }
  destruct (persist _ w) as [[p|e] w1].
  - destruct (bind _ _ s1) as [r2 s2] eqn:E2. intros [= _ _ <-]. revert Hwf1 E2.
    apply preserves_bind; [apply preserves_transition_phase|intros _; apply preserves_finalize_schema_change].
  - intros [= _ _ <-]. destruct (release_schema_lock (tx_table_id tx) s1) as [r2 s2] eqn:E2. simpl.
    revert Hwf1 E2. apply preserves_release.
Qed.

Lemma preserves_apply_table_lifecycle payload : preserves (apply_table_lifecycle payload).
Proof. unfold apply_table_lifecycle. preserve. Qed.
Lemma preserves_apply_index_lifecycle payload : preserves (apply_index_lifecycle payload).
Proof. unfold apply_index_lifecycle. preserve. Qed.
Lemma preserves_apply_entity_metadata payload : preserves (apply_entity_metadata payload).
Proof. unfold apply_entity_metadata. preserve. Qed.

Lemma preserves_apply_sql_definition payload : preserves (apply_sql_definition payload).
Proof.
  unfold apply_sql_definition, upsert_sql_definition, register_view, register_olap_view, register_trigger,
    register_stored_procedure. preserve.
Qed.

(** An operation on a catalog. *)
Inductive CatalogOp :=
| OpRegisterTable (id : ustr) (sch : TableSchema)
| OpCreateTable (id : ustr) (sch : TableSchema) (entity_id : option ustr)
| OpCreateTemporaryTable (id : ustr) (sch : TableSchema)
| OpCreateIndex (id : ustr) (name : option ustr) (names : list ustr) (k : DatabaseIndexKind) (o : DatabaseIndexOrigin)
| OpDropIndex (name : ustr) (table : option ustr)
| OpDrop (ty : DatabaseObjectType) (id : ustr)
| OpRegisterView (id sql : ustr) (sch : TableSchema)
| OpRegisterOlapView (id sql : ustr) (columns : list ustr) (sch : TableSchema) (deps : list ustr)
| OpRegisterTrigger (id sql : ustr) (deps : list ustr)
| OpRegisterStoredProcedure (id sql : ustr) (deps : list ustr)
| OpTransitionStatus (next : ObjectStatus)
| OpBeginIndexing
| OpCompleteIndexing
| OpCompleteTableIndexing (id : ustr)
| OpBeginTableWrite (id : ustr)
| OpFinalizeTableWrite (id : ustr)
| OpAbortTableWrite (id : ustr)
| OpBeginSchemaChange (id : ustr)
| OpCommitSchemaChange (tx : SchemaChangeTx) (persisted : result unit DatabaseError)
| OpAbortSchemaChange (tx : SchemaChangeTx)
| OpApplySchemaChange (payload : SchemaChangePayload)
| OpApplyTableLifecycle (payload : TableLifecyclePayload)
| OpApplyIndexLifecycle (payload : IndexLifecyclePayload)
| OpApplyEntityMetadata (payload : EntityMetadataPayload)
| OpApplySqlDefinition (payload : SqlDefinitionPayload).

Definition run_op (op : CatalogOp) (s : CState) : CState :=
  match op with
  | OpRegisterTable id sch => (register_table id sch s).2
  | OpCreateTable id sch entity_id => (create_table_with_entity_id id sch entity_id s).2
  | OpCreateTemporaryTable id sch => (create_temporary_table id sch s).2
  | OpCreateIndex id name names k o => (create_index_with_kind_and_origin id name names k o s).2
  | OpDropIndex name table => (drop_index name table s).2
  | OpDrop ty id => (drop_object ty id s).2
  | OpRegisterView id sql sch => (register_view id sql sch s).2
  | OpRegisterOlapView id sql columns sch deps => (register_olap_view id sql columns sch deps s).2
  | OpRegisterTrigger id sql deps => (register_trigger id sql deps s).2
  | OpRegisterStoredProcedure id sql deps => (register_stored_procedure id sql deps s).2
  | OpTransitionStatus next => (transition_status next s).2
  | OpBeginIndexing => (begin_indexing s).2
  | OpCompleteIndexing => (complete_indexing s).2
  | OpCompleteTableIndexing id => (complete_table_indexing id s).2
  | OpBeginTableWrite id => (begin_table_write id s).2
  | OpFinalizeTableWrite id => (finalize_table_write id s).2
  | OpAbortTableWrite id => (abort_table_write id s).2
  | OpBeginSchemaChange id => (begin_schema_change id s).2
  | OpCommitSchemaChange tx persisted => (commit tx (λ _ w, (persisted, w)) tt s).2
  | OpAbortSchemaChange tx => (abort tx s).2
  | OpApplySchemaChange payload => (apply_schema_change payload s).2
  | OpApplyTableLifecycle payload => (apply_table_lifecycle payload s).2
  | OpApplyIndexLifecycle payload => (apply_index_lifecycle payload s).2
  | OpApplyEntityMetadata payload => (apply_entity_metadata payload s).2
  | OpApplySqlDefinition payload => (apply_sql_definition payload s).2
  end.

Lemma preserves_run {A} (m : M A) s : preserves m → catalog_wf s → catalog_wf (m s).2.
Proof. intros Hm Hwf. destruct (m s) as [r s'] eqn:E. by eapply Hm. Qed.

Lemma run_op_wf op s : catalog_wf s → catalog_wf (run_op op s).
Proof.
  intros Hwf. destruct op; simpl; try (apply preserves_run; [|exact Hwf]).
  - apply preserves_register_table.
  - apply preserves_create_table.
  - apply preserves_create_temporary_table.
  - apply preserves_create_index.
  - apply preserves_drop_index.
  - apply preserves_drop_object.
  - apply preserves_register_view.
  - apply preserves_register_olap_view.
  - apply preserves_register_trigger.
  - apply preserves_register_stored_procedure.
  - apply preserves_transition_status.
  - apply preserves_begin_indexing.
  - apply preserves_complete_indexing.
  - apply preserves_complete_table_indexing.
  - apply preserves_begin_table_write.
  - apply preserves_finalize_table_write.
  - apply preserves_abort_table_write.
  - apply preserves_begin_schema_change.
  - destruct (commit _ _ _ _) as [[r w] s'] eqn:E. by eapply preserves_commit.
  - apply preserves_release.
  - apply preserves_apply_schema_change.
  - apply preserves_apply_table_lifecycle.
  - apply preserves_apply_index_lifecycle.
  - apply preserves_apply_entity_metadata.
  - apply preserves_apply_sql_definition.
Qed.

Lemma new_catalog_wf st database_id : catalog_wf (st, DatabaseCatalog_new database_id).
Proof.
  assert (entities (st, DatabaseCatalog_new database_id) = ∅) as Ee by apply omap_empty.
  split; rewrite ?Ee; [by intros k h|by intros k k' e e'|by intros k e].
Qed.


(** ** A table in a schema change *)

Lemma denotes_insert m k e e' id k' :
  m !! k = Some e → entity_name e' = entity_name e → denotes (<[k := e']> m) id k' ↔ denotes m id k'.
Proof.
  intros Ek Hn. unfold denotes. destruct (decide (k = id)) as [<-|Hne]; [by rewrite lookup_insert_eq, Ek|].
  rewrite lookup_insert_ne by done. destruct (m !! id); [done|].
  split; intros (e1 & E1 & Hn1); destruct (decide (k = k')) as [<-|].
  - rewrite lookup_insert_eq in E1. simplify_eq. exists e. by rewrite <- Hn.
  - rewrite lookup_insert_ne in E1 by done. eauto.
  - simplify_eq. exists e'. by rewrite lookup_insert_eq, Hn.
  - exists e1. by rewrite lookup_insert_ne.
Qed.

(** The name [id] denotes the table [t], stored under [k]. *)
Record table_at (s : CState) (id k : ustr) (t : DatabaseTable) : Prop := {
  at_wf : catalog_wf s;
  at_denotes : denotes (entities s) id k;
  at_entity : entities s !! k = Some (EntityTable t)
}.

(** The state a change of the table leaves: everything else is as before. *)
Record table_changed (s s' : CState) (k : ustr) (t' : DatabaseTable) : Prop := {
  tc_entities : entities s' = <[k := EntityTable t']> (entities s);
  tc_catalog : s'.2 = s.2
}.

Lemma table_step {R} id (apply : DatabaseTable → result (R * DatabaseTable) DatabaseError) s k t r t' :
  table_at s id k t → apply t = Ok (r, t') → table_entity_id t' = table_entity_id t → table_id t' = table_id t →
  ∃ s', with_table_mut id apply s = (Ok r, s') ∧ table_at s' id k t' ∧ table_changed s s' k t'.
Proof.
  intros [Hwf Hd Ee] Ha Hk Hn. exists (write_entity k (EntityTable t') s).
  pose proof (entities_write s k (EntityTable t') Hwf (mk_is_Some _ _ Ee)) as Ew.
  split; [by eapply with_table_mut_ok|]. split; split.
  - eapply wf_write; [done..| |done|done]. simpl. rewrite Hk. by apply (wf_entity_key _ _ _ Hwf Ee).
  - rewrite Ew. by eapply denotes_insert.
  - by rewrite Ew, lookup_insert_eq.
  - done.
  - apply write_entity_catalog.
Qed.

Lemma table_at_catalog st st' c c' id k t :
  heap st' = heap st → entity_handles c' = entity_handles c → table_at (st, c) id k t → table_at (st', c') id k t.
Proof.
  intros Hh Hc [[Hk Hn Hr] Hd Ee].
  assert (entities (st', c') = entities (st, c)) as Eq by (unfold entities; simpl; by rewrite Hh, Hc).
  split; [split|..]; rewrite ?Eq; try done. simpl. rewrite Hh, Hc. exact Hk.
Qed.

(** The schema change on [id] is in phase [p]. *)
Record in_change (s : CState) (id k : ustr) (t : DatabaseTable) (p : SchemaChangePhase) : Prop := {
  ic_table : table_at s id k t;
  ic_active : ∃ a, active_schema_change s.2 = Some a ∧ active_table_id a = id ∧ phase a = p;
  ic_normal : normalize_identifier id = id
}.

(** A step that leaves the entities and the epoch alone. *)
Definition same_entities (s s' : CState) : Prop := entities s' = entities s ∧ schema_epoch s'.2 = schema_epoch s.2.

Lemma phase_step s id k t p next :
  in_change s id k t p → phase_can_transition_to p next = true →
  ∃ s', transition_schema_change_phase id next s = (Ok tt, s') ∧ in_change s' id k t next ∧ same_entities s s'.
Proof.
  intros [Ht (a & Ea & Eid & <-) Hn] Hp. destruct s as [st c]. simpl in *.
  exists (st, set_active (Some (set_phase next a)) c). split; [|split; [split|]].
  - unfold transition_schema_change_phase, bind, reads. simpl. rewrite Ea, Hn, Eid.
    unfold str_eqb. rewrite bool_decide_true by done. simpl. by rewrite Hp.
  - by apply (table_at_catalog st _ c).
  - simpl. eauto.
  - done.
  - done.
Qed.

Lemma checkpoint_step s id k t p n total token :
  in_change s id k t p →
  ∃ s', checkpoint_schema_change_progress id n total token s = (Ok tt, s') ∧ in_change s' id k t p ∧ same_entities s s'.
Proof.
  intros [Ht (a & Ea & Eid & <-) Hn]. destruct s as [st c]. simpl in *.
  eexists (mkStore (heap st) (fresh_ids st) (λ n, clock st (S n)), set_active (Some (update_progress (clock st 0%nat) n total token a)) c).
  split; [|split; [split|]].
  - unfold checkpoint_schema_change_progress, bind, reads. simpl. rewrite Ea, Hn, Eid.
    unfold str_eqb. rewrite bool_decide_true by done. done.
  - by apply (table_at_catalog st _ c).
  - simpl. eauto.
  - done.
  - done.
Qed.

Lemma change_step {R} s id k t p (apply : DatabaseTable → result (R * DatabaseTable) DatabaseError) r t' :
  in_change s id k t p → apply t = Ok (r, t') → table_entity_id t' = table_entity_id t → table_id t' = table_id t →
  ∃ s', with_table_mut id apply s = (Ok r, s') ∧ in_change s' id k t' p
        ∧ entities s' = <[k := EntityTable t']> (entities s) ∧ schema_epoch s'.2 = schema_epoch s.2.
Proof.
  intros [Ht Ha Hn] Happ H1 H2. destruct (table_step id apply s k t r t' Ht Happ H1 H2) as (s' & E & Ht' & [He Hc]).
  exists s'. rewrite Hc. split; [done|]. split; [split; [done|by rewrite Hc|done]|]. done.
Qed.

Lemma has_table_at s id k t : table_at s id k t → has_table id s = true.
Proof. intros [Hwf Hd Ee]. unfold has_table. by rewrite (entity_denotes s id k _ Hwf Hd Ee). Qed.

Lemma apply_step s id k t p payload :
  in_change s id k t p → sc_table_id payload = id → schema_epoch s.2 ≤ sc_schema_epoch payload →
  schema_revision t < sc_schema_revision payload →
  let t' := replace_schema (sc_schema_revision payload) (sc_schema payload)
              (merge_indexes_for_schema id (sc_schema payload) (table_indexes t)) t in
  ∃ s', apply_schema_change payload s = (Ok tt, s') ∧ in_change s' id k t' p
        ∧ entities s' = <[k := EntityTable t']> (entities s).
Proof.
  intros Hic Hid Hep Hrev t'. pose proof (ic_normal _ _ _ _ _ Hic) as Hn.
  unfold apply_schema_change, bind, reads, should_apply_schema_epoch.
  rewrite (proj2 (Z.leb_le _ _) Hep). cbn [negb]. rewrite Hid, Hn, (has_table_at _ _ _ _ (ic_table _ _ _ _ _ Hic)).
  unfold ret.
  match goal with |- context [with_table_mut id ?f s] =>
    destruct (change_step s id k t p f true t' Hic) as (s' & E & Hic' & He & _); [|done|done|rewrite E]
  end.
  { by rewrite (proj2 (Z.leb_gt _ _) Hrev). }
  simpl. unfold accept_schema_epoch, update. destruct s' as [st' c']. eexists. split; [reflexivity|].
  destruct Hic' as [Ht' Ha' _]. split; [split; [by apply (table_at_catalog st' _ c')|done|done]|done].
Qed.

Definition with_pending (sch : TableSchema) (tx : SchemaChangeTx) : SchemaChangeTx :=
  {| tx_table_id := tx_table_id tx; next_revision := next_revision tx; pending_schema := sch |}.

Lemma begin_step s id tx s1 :
  catalog_wf s → begin_schema_change id s = (Ok tx, s1) →
  ∃ k t, table_at s (tx_table_id tx) k t ∧ in_change s1 (tx_table_id tx) k (set_table_status StatusLock t) PhaseLocked
    ∧ entities s1 = <[k := EntityTable (set_table_status StatusLock t)]> (entities s)
    ∧ tx_table_id tx = normalize_identifier id ∧ next_revision tx = (schema_revision t + 1) mod (u64_max + 1)
    ∧ pending_schema tx = schema t ∧ can_transition_to (table_status t) StatusLock = true
    ∧ schema_epoch s1.2 = schema_epoch s.2.
Proof.
  intros Hwf. unfold begin_schema_change, bind at 1, reads at 1.
  destruct (active_schema_change s.2) eqn:Eact; [done|]. unfold bind at 1.
  set (nid := normalize_identifier id).
  unfold with_table_mut. rewrite with_entity_mut_eq by done.
  destruct (resolve_entity_key nid s) as [k|] eqn:Er; [|done]. apply (resolve_denotes _ _ _ Hwf) in Er. simpl.
  destruct (entities s !! k) as [e|] eqn:Ee; [|done]. simpl. destruct e as [t|v|v|rel|tr|p]; try done.
  unfold table_lock, transition. destruct (can_transition_to (table_status t) StatusLock) eqn:Et; [|done].
  assert (Ht : table_at s nid k t) by done.
  destruct (table_step nid (λ t, Ok (tt, set_table_status StatusLock t)) s k t tt _ Ht eq_refl eq_refl eq_refl)
    as (s' & Estep & Ht' & [He' Hc']).
  assert (s' = write_entity k (EntityTable (set_table_status StatusLock t)) s) as ->.
  { rewrite (with_table_mut_ok nid _ s k t tt (set_table_status StatusLock t)) in Estep by done. congruence. }
  destruct (write_entity k _ s) as [st' c'] eqn:Ew. simpl in Hc'. subst c'.
  unfold bind, unique_id, epoch_nanos, update, ret. simpl. intros [= <- <-]. simpl.
  exists k, t. split; [done|]. split; [split|done].
  - by apply (table_at_catalog st' _ s.2).
  - simpl. eauto.
  - apply normalize_identifier_idempotent.
Qed.

(** The change is over: its table is [t'] again under its name, nothing else has changed, and the next change can begin. *)
Definition released (s s2 : CState) (id k : ustr) (t' : DatabaseTable) : Prop :=
  catalog_wf s2 ∧ entities s2 = <[k := EntityTable t']> (entities s) ∧ active_schema_change s2.2 = None
  ∧ ∃ tx s3, begin_schema_change id s2 = (Ok tx, s3).

Lemma begin_again s id k t :
  table_at s (normalize_identifier id) k t → active_schema_change s.2 = None → table_status t = StatusReady →
  ∃ tx s', begin_schema_change id s = (Ok tx, s').
Proof.
  intros Ht Ha Hs. unfold begin_schema_change, bind at 1, reads at 1. rewrite Ha. unfold bind at 1.
  match goal with |- context [with_table_mut ?id ?f s] =>
    destruct (table_step id f s k t (schema t, (schema_revision t + 1) mod (u64_max + 1)) (set_table_status StatusLock t) Ht)
      as (s' & E & _ & _); [|done|done|rewrite E]
  end.
  { unfold table_lock, transition. by rewrite Hs. }
  destruct s' as [st' c']. unfold bind, unique_id, epoch_nanos, update, ret. eauto.
Qed.

Lemma clear_released s0 s id k t' p :
  in_change s (normalize_identifier id) k t' p → table_status t' = StatusReady →
  entities s = <[k := EntityTable t']> (entities s0) →
  released s0 (s.1, set_active None s.2) id k t'.
Proof.
  intros [Ht _ _] Hs He. destruct s as [st c]. simpl.
  assert (Ht' : table_at (st, set_active None c) (normalize_identifier id) k t') by (by apply (table_at_catalog st _ c)).
  split; [apply Ht'|]. split; [done|]. split; [done|]. by eapply begin_again.
Qed.

Lemma release_step s0 s id k t p :
  in_change s (normalize_identifier id) k (set_table_status StatusLock t) p →
  entities s = <[k := EntityTable (set_table_status StatusLock t)]> (entities s0) →
  ∃ s2, release_schema_lock (normalize_identifier id) s = (Ok tt, s2)
        ∧ released s0 s2 id k (set_table_status StatusReady t).
Proof.
  intros Hic He. unfold release_schema_lock. rewrite (ic_normal _ _ _ _ _ Hic).
  destruct (change_step s _ k _ p (changes table_abort) tt (set_table_status StatusReady t) Hic)
    as (s' & E & Hic' & He' & _); [done..|].
  unfold bind. rewrite E. destruct s' as [st' c']. eexists. split; [reflexivity|].
  eapply (clear_released s0 (st', c')); [done|done|]. by rewrite He', He, insert_insert_eq.
Qed.

Lemma commit_prefix s1 tx k t :
  in_change s1 (tx_table_id tx) k t PhaseLocked →
  ∃ s2, (do! transition_schema_change_phase (tx_table_id tx) PhaseRewriting;
         do! checkpoint_schema_change_progress (tx_table_id tx) 0 None None;
         reads (λ s, schema_epoch s.2)) s1 = (Ok (schema_epoch s1.2), s2)
        ∧ in_change s2 (tx_table_id tx) k t PhaseRewriting ∧ same_entities s1 s2.
Proof.
  intros Hic. destruct (phase_step _ _ _ _ _ PhaseRewriting Hic eq_refl) as (sa & Ea & Hica & [Hea Hpa]).
  destruct (checkpoint_step _ _ _ _ _ 0 None None Hica) as (sb & Eb & Hicb & [Heb Hpb]).
  exists sb. unfold bind. rewrite Ea, Eb. unfold reads. rewrite Hpb, Hpa. split; [done|]. split; [done|].
  split; congruence.
Qed.

Lemma finalize_step s0 s id k t payload :
  in_change s (normalize_identifier id) k (set_table_status StatusLock t) PhaseReindexing →
  entities s = <[k := EntityTable (set_table_status StatusLock t)]> (entities s0) →
  sc_table_id payload = normalize_identifier id → schema_epoch s.2 ≤ sc_schema_epoch payload →
  schema_revision t < sc_schema_revision payload →
  ∃ s2, finalize_schema_change payload s = (Ok tt, s2)
    ∧ released s0 s2 id k
        (set_table_status StatusReady
           (replace_schema (sc_schema_revision payload) (sc_schema payload)
              (merge_indexes_for_schema (normalize_identifier id) (sc_schema payload) (table_indexes t)) t)).
Proof.
  intros Hic He Hid Hep Hrev. pose proof (ic_normal _ _ _ _ _ Hic) as Hn.
  destruct (apply_step _ _ _ _ _ payload Hic Hid Hep Hrev) as (sa & Ea & Hica & Hea).
  set (ta := replace_schema _ _ _ _) in *.
  destruct (phase_step _ _ _ _ _ PhaseSyncing Hica eq_refl) as (sb & Eb & Hicb & [Heb _]).
  destruct (change_step sb _ k ta _ (changes table_begin_sync) tt (set_table_status StatusSync ta) Hicb)
    as (sc & Ec & Hicc & Hec & _); [done..|].
  destruct (phase_step _ _ _ _ _ PhaseCutover Hicc eq_refl) as (sd & Ed & Hicd & [Hed _]).
  destruct (change_step sd _ k _ _ (changes table_complete_sync) tt (set_table_status StatusReady ta) Hicd)
    as (se & Ee & Hice & Hee & _); [done..|].
  unfold finalize_schema_change, bind. rewrite Ea, Hid, Hn, Eb, Ec. cbn [table_sync_acknowledged_stub Z.leb Z.compare negb].
  rewrite Ed, Ee. destruct se as [st c]. eexists. split; [reflexivity|].
  eapply (clear_released s0 (st, c)); [done|done|].
  rewrite Hee, Hed, Hec, Heb, Hea, He, !insert_insert_eq. done.
Qed.

(** Committing a change of the table [t] that holds the lock. *)
Lemma commit_outcome {W} s0 s1 id tx k t (persist : SchemaChangePayload → W → result unit DatabaseError * W) w :
  in_change s1 (normalize_identifier id) k (set_table_status StatusLock t) PhaseLocked →
  entities s1 = <[k := EntityTable (set_table_status StatusLock t)]> (entities s0) →
  tx_table_id tx = normalize_identifier id → next_revision tx = schema_revision t + 1 → is_u64 (schema_epoch s1.2) →
  let payload :=
    {| sc_table_id := normalize_identifier id; sc_schema_revision := schema_revision t + 1;
       sc_schema_epoch := saturating_add (schema_epoch s1.2) 1; sc_entity_id := None; sc_schema := pending_schema tx |} in
  match persist payload w with
  | (Err e, w') =>
      ∃ s2, commit tx persist w s1 = (Err e, w', s2) ∧ released s0 s2 id k (set_table_status StatusReady t)
  | (Ok _, w') =>
      ∃ s2, commit tx persist w s1 = (Ok tt, w', s2)
            ∧ released s0 s2 id k
                (set_table_status StatusReady
                   (replace_schema (schema_revision t + 1) (pending_schema tx)
                      (merge_indexes_for_schema (normalize_identifier id) (pending_schema tx) (table_indexes t)) t))
  end.
Proof.
  intros Hic He Hid Hnx Hep payload. unfold commit. rewrite <- Hid in Hic.
  destruct (commit_prefix s1 tx k _ Hic) as (s2 & E2 & Hic2 & [He2 Hep2]). rewrite E2. clear E2.
  replace {| sc_table_id := tx_table_id tx |} with payload by (unfold payload; by rewrite Hid, Hnx).
  rewrite Hid in Hic2 |- *. destruct (persist payload w) as [[[]|e] w'].
  - destruct (phase_step _ _ _ _ _ PhaseReindexing Hic2 eq_refl) as (s3 & E3 & Hic3 & [He3 Hep3]).
    destruct (finalize_step s0 s3 id k t payload Hic3) as (s4 & E4 & Hrel); [congruence|done| |simpl; lia|].
    { simpl. rewrite Hep3, Hep2. unfold saturating_add. unfold is_u64 in Hep. lia. }
    unfold bind. rewrite E3, E4. eauto.
  - destruct (release_step s0 s2 id k t _ Hic2) as (s3 & E3 & Hrel); [congruence|]. rewrite E3. eauto.
Qed.

(** C19: a schema change that has begun always ends.  Whatever schema it has built: aborting it succeeds and leaves
    the table as it was, ready; committing it, when the change cannot be persisted, returns that error and leaves
    the table as it was, ready; and when it is persisted succeeds, and leaves the table ready with the new schema,
    the next revision and the indexes merged for it.  Each time no other entity has changed, no change is in
    progress, and the next change of the table can begin. *)
Theorem schema_change_completes {W} s id tx s1 sch (persist : SchemaChangePayload → W → result unit DatabaseError * W) w :
  catalog_wf s → is_u64 (schema_epoch s.2) → begin_schema_change id s = (Ok tx, s1) →
  let tx' := with_pending sch tx in
  ∃ k t, entities s !! k = Some (EntityTable t) ∧ denotes (entities s) (normalize_identifier id) k
  ∧ (∃ s2, abort tx' s1 = (Ok tt, s2) ∧ released s s2 id k (set_table_status StatusReady t))
  ∧ (is_u64 (schema_revision t + 1) →
     let payload :=
       {| sc_table_id := normalize_identifier id; sc_schema_revision := schema_revision t + 1;
          sc_schema_epoch := saturating_add (schema_epoch s.2) 1; sc_entity_id := None; sc_schema := sch |} in
     match persist payload w with
     | (Err e, w') =>
         ∃ s2, commit tx' persist w s1 = (Err e, w', s2) ∧ released s s2 id k (set_table_status StatusReady t)
     | (Ok _, w') =>
         ∃ s2, commit tx' persist w s1 = (Ok tt, w', s2)
               ∧ released s s2 id k
                   (set_table_status StatusReady
                      (replace_schema (schema_revision t + 1) sch
                         (merge_indexes_for_schema (normalize_identifier id) sch (table_indexes t)) t))
     end).
Proof.
  intros Hwf Hep Hbegin tx'. destruct (begin_step _ _ _ _ Hwf Hbegin) as (k & t & Ht & Hic & He & Hid & Hnext & _ & _ & Hep1).
  rewrite Hid in Ht, Hic. exists k, t. split; [apply Ht|]. split; [apply Ht|]. split.
  { unfold abort, tx'. simpl. rewrite Hid. by eapply release_step. }
  intros [Hr0 Hr1]. rewrite <- Hep1.
  apply (commit_outcome s s1 id tx' k t persist w Hic He Hid); [|by rewrite Hep1].
  simpl. rewrite Hnext. apply Z.mod_small. lia.
Qed.

(** ** A table that is registered *)

Lemma denotes_new m k e : m !! entity_name e = None → denotes (<[k := e]> m) (entity_name e) k.
Proof.
  intros Hnew. unfold denotes. destruct (decide (k = entity_name e)) as [->|Hne]; [by rewrite lookup_insert_eq|].
  rewrite lookup_insert_ne, Hnew by done. exists e. by rewrite lookup_insert_eq.
Qed.

(** The table a registration makes: it takes the given id, if that is not blank, and draws one otherwise. *)
Definition new_table (drawn : ustr) (id : ustr) (sch : TableSchema) (entity_id : option ustr) : DatabaseTable :=
  let t := DatabaseTable_new drawn id sch (indexes_for_schema id sch) in
  match normalize_identifier <$> entity_id with
  | Some entity_id => if is_empty entity_id then t else set_table_entity_id entity_id t
  | None => t
  end.

Lemma new_table_name drawn id sch entity_id : table_id (new_table drawn id sch entity_id) = id.
Proof. unfold new_table. destruct (_ <$> _) as [x|]; [by destruct (is_empty x)|done]. Qed.

Lemma register_step s id sch entity_id :
  let t := new_table (fresh_ids s.1 0%nat) id sch entity_id in
  catalog_wf s → validate sch = Ok tt → resolve_entity_key id s = None → entities s !! table_entity_id t = None →
  ∃ s', register_table_with_entity_id id sch entity_id s = (Ok tt, s') ∧ table_at s' id (table_entity_id t) t
    ∧ entities s' = <[table_entity_id t := EntityTable t]> (entities s)
    ∧ schema_epoch s'.2 = schema_epoch s.2 ∧ catalog_id s'.2 = catalog_id s.2 ∧ clock s'.1 = clock s.1.
Proof.
  intros t Hwf Hv Hres Hnew. destruct s as [st c]. set (st' := mkStore (heap st) (λ n, fresh_ids st (S n)) (clock st)).
  destruct (resolve_None _ _ Hwf Hres) as [Hfree Hnames].
  assert (Hwf' : catalog_wf (st', c)) by (by apply wf_draw).
  assert (Hkey : entity_handles (st', c).2 !! storage_key (EntityTable t) = None).
  { apply eq_None_not_Some. intros Hs%(handle_entity _ _ Hwf'). change (entities (st', c)) with (entities (st, c)) in Hs.
    simpl in Hs, Hnew. rewrite Hnew in Hs. by destruct Hs. }
  pose proof (entities_inserted (EntityTable t) (st', c) Hwf' Hkey) as Ei.
  change (entities (st', c)) with (entities (st, c)) in Ei. change (storage_key (EntityTable t)) with (table_entity_id t) in Ei.
  assert (Hname : entity_name (EntityTable t) = id) by apply new_table_name.
  exists (inserted (EntityTable t) (st', c)). split_and!; [|split|done|done|done|done].
  - unfold register_table_with_entity_id, bind, lift, reads. rewrite Hv, Hres. cbn [map_err is_none negb].
    transitivity (insert_entity_handle (EntityTable t) (st', c)); [done|].
    by rewrite insert_entity_handle_eq, Hkey.
  - apply wf_inserted; [done..|]. intros k e Ee. rewrite Hname. by apply (Hnames k).
  - rewrite Ei. rewrite <- Hname. apply denotes_new. by rewrite Hname.
  - by rewrite Ei, lookup_insert_eq.
Qed.

(** Another object that is registered. *)
Lemma register_named_step s name make :
  let e := make (fresh_ids s.1 0%nat) in
  catalog_wf s → entity_name e = name → entity_kind e ≠ KindRelationship → resolve_entity_key name s = None →
  entities s !! storage_key e = None →
  ∃ s', register_named name make s = (Ok tt, s') ∧ catalog_wf s' ∧ denotes (entities s') name (storage_key e)
    ∧ entities s' = <[storage_key e := e]> (entities s) ∧ schema_epoch s'.2 = saturating_add (schema_epoch s.2) 1
    ∧ catalog_id s'.2 = catalog_id s.2 ∧ clock s'.1 = clock s.1.
Proof.
  intros e Hwf Hname Hkind Hres Hnew. destruct s as [st c].
  set (st' := mkStore (heap st) (λ n, fresh_ids st (S n)) (clock st)).
  destruct (resolve_None _ _ Hwf Hres) as [Hfree Hnames].
  assert (Hwf' : catalog_wf (st', c)) by (by apply wf_draw).
  assert (Hkey : entity_handles (st', c).2 !! storage_key e = None).
  { apply eq_None_not_Some. intros Hs%(handle_entity _ _ Hwf'). change (entities (st', c)) with (entities (st, c)) in Hs.
    rewrite Hnew in Hs. by destruct Hs. }
  pose proof (entities_inserted e (st', c) Hwf' Hkey) as Ei. change (entities (st', c)) with (entities (st, c)) in Ei.
  assert (Hwi : catalog_wf (inserted e (st', c))).
  { apply wf_inserted; [done..|]. intros k e' Ee. rewrite Hname. by apply (Hnames k). }
  destruct (inserted e (st', c)) as [sti ci] eqn:Eins.
  exists (sti, set_schema_epoch (saturating_add (schema_epoch ci) 1) ci).
  assert (ci = set_handles (entity_handles ci) c ∧ clock sti = clock st) as [Hci Hclock].
  { unfold inserted in Eins. apply pair_equal_spec in Eins as [<- <-]. done. }
  change (entities (sti, set_schema_epoch (saturating_add (schema_epoch ci) 1) ci)) with (entities (sti, ci)).
  split_and!; [|by apply (wf_handles sti ci)|rewrite Ei, <- Hname; apply denotes_new; by rewrite Hname|done|simpl; by rewrite Hci..|done].
  unfold register_named, bind at 1, reads. rewrite Hres.
  transitivity ((do! insert_entity_handle e; bump_schema_epoch) (st', c)); [done|].
  unfold bind. rewrite insert_entity_handle_eq, Hkey, Eins. done.
Qed.

Lemma has_table_free s id : resolve_entity_key id s = None → has_table id s = false.
Proof. intros Hres. unfold has_table, entity. by rewrite Hres. Qed.

End facts.

(** ** The indexes of a new schema *)

(** the indexes a table has after its schema is replaced: those the new schema derives, and of the others
    the ones that are not temporary and whose columns all exist in the new schema, moved to the table's name. *)
Theorem merged_indexes table_id sch existing id i :
  merge_indexes_for_schema table_id sch existing !! id = Some i ↔
  indexes_for_schema table_id sch !! id = Some i
  ∨ indexes_for_schema table_id sch !! id = None
    ∧ ∃ i0, existing !! id = Some i0 ∧ origin i0 ≠ Temporary
      ∧ Forall (λ name, is_Some (field sch name)) (field_names i0)
      ∧ i = {| index_id := index_id i0; index_table_id := normalize_identifier table_id; index_kind := index_kind i0;
               origin := origin i0; temp_id := temp_id i0; field_names := field_names i0;
               index_field_name := index_field_name i0 |}.
Proof.
  unfold merge_indexes_for_schema. rewrite lookup_union_Some_raw, map_lookup_imap.
  apply or_iff_compat_l.
  split.
  - intros [Hd (i0 & E0 & Hp)%bind_Some]. split; [done|]. exists i0. revert Hp. unfold preserved_index.
    destruct (is_temporary i0) eqn:Et; [done|]. rewrite Hd. simpl. rewrite andb_false_r.
    destruct (forallb _ _) eqn:Ef; simpl; [|done]. intros [= <-]. split_and!; [done| | |done].
    + unfold is_temporary in Et. by apply eqb_false in Et.
    + rewrite forallb_forall in Ef. apply Forall_forall. intros name Hin.
      specialize (Ef name (proj1 (list_elem_of_In _ _) Hin)). destruct (field sch name); [eauto|done].
  - intros (Hd & i0 & E0 & Ht & Hf & ->). split; [done|]. rewrite E0. simpl. unfold preserved_index.
    assert (is_temporary i0 = false) as -> by (by apply eqb_false). rewrite Hd. simpl. rewrite andb_false_r.
    assert (forallb (λ name, negb (is_none (field sch name))) (field_names i0) = true) as ->; [|done].
    apply forallb_forall. intros name Hin%list_elem_of_In. rewrite Forall_forall in Hf.
    destruct (Hf name Hin) as [f ->]. done.
Qed.

(** The indexes a schema derives are kept as they are by a merge. *)
Lemma merge_derived table_id sch :
  merge_indexes_for_schema table_id sch (indexes_for_schema table_id sch) = indexes_for_schema table_id sch.
Proof.
  unfold merge_indexes_for_schema. apply map_eq. intros id. rewrite lookup_union, map_lookup_imap.
  destruct (indexes_for_schema table_id sch !! id) as [i|]; simpl; [|done]. by destruct (preserved_index _ _ _ _ _).
Qed.
