(* ===== verification/CatalogReplay.v ===== *)
(** * Replaying the catalog from the log

    Models [transaction/payload.rs] and the replay of [catalog.rs]: the payloads of the catalog records of a
    database's stream are decoded and applied, one after the other, to the catalog that was loaded.

    A replay keeps the catalog well formed whatever the records are ([preserves_replay_records]), and a log may be
    replayed in parts ([replay_records_app]).  The steps are those the theorems of [DdlFacts.v] about a restart
    compose: a schema change of a table that is not there makes it ([apply_new_schema]), and one whose revision the
    table already has changes nothing ([stale_revision]). *)

From Stdlib Require Import ZArith Lia.
From stdpp Require Import base gmap list strings.
From S2P Require Import Prelude Settings Record RowPayload WalFile Wal WalManager Identifiers Schema DatabaseIndex.
From S2P Require Import Entities AlterTable Catalog CatalogFacts.

Local Open Scope Z_scope.

(** ** Payload codecs *)

Inductive DecodedTransactionPayload :=
| DecodedSchemaChange (p : SchemaChangePayload)
| DecodedTableLifecycle (p : TableLifecyclePayload)
| DecodedIndexLifecycle (p : IndexLifecyclePayload)
| DecodedEntityMetadata (p : EntityMetadataPayload)
| DecodedSqlDefinition (p : SqlDefinitionPayload).

Section replay.
Context `{Bincode SchemaChangePayload} `{Bincode TableLifecyclePayload} `{Bincode IndexLifecyclePayload}.
Context `{Bincode EntityMetadataPayload} `{Bincode SqlDefinitionPayload}.
Context `{HashOrder}.

(** [DecodedTransactionPayload::decode]; [None] stands for its error texts. *)
Definition decode (k : TransactionKind) (payload : bytes) : option DecodedTransactionPayload :=
  match k with
  | SchemaChange => DecodedSchemaChange <$> deserialize payload
  | TableLifecycle => DecodedTableLifecycle <$> deserialize payload
  | IndexLifecycle => DecodedIndexLifecycle <$> deserialize payload
  | MetadataChange | SecurityChange => DecodedEntityMetadata <$> deserialize payload
  | SqlDefinitionChange => DecodedSqlDefinition <$> deserialize payload
  | _ => None
  end.

(** The kinds a replay reads, with the error of a payload that cannot be. *)
Definition payload_error (k : TransactionKind) : option DatabaseError :=
  match k with
  | SchemaChange | TableLifecycle => Some SchemaPayloadDeserialize
  | IndexLifecycle => Some IndexPayloadDeserialize
  | MetadataChange | SecurityChange => Some MetadataPayloadDeserialize
  | SqlDefinitionChange => Some SqlDefinitionPayloadDeserialize
  | _ => None
  end.

(** The errors that a stale payload may meet. *)
Definition tolerate (stale : DatabaseError → bool) (m : M unit) : M bool :=
  λ s,
    let '(r, s) := m s in
    match r with
    | Ok _ => (Ok true, s)
    | Err e => if stale e then (Ok false, s) else (Err e, s)
    end.

Definition is_table_not_found (e : DatabaseError) : bool := match e with TableNotFound => true | _ => false end.
Definition is_entity_not_found (e : DatabaseError) : bool := match e with EntityNotFound => true | _ => false end.

(** Whether the payload counts as applied. *)
Definition apply_decoded (p : DecodedTransactionPayload) : M bool :=
  match p with
  | DecodedSchemaChange p => do! apply_schema_change p; ret true
  | DecodedTableLifecycle p => do! apply_table_lifecycle p; ret true
  | DecodedIndexLifecycle p => tolerate is_table_not_found (apply_index_lifecycle p)
  | DecodedEntityMetadata p => tolerate is_entity_not_found (apply_entity_metadata p)
  | DecodedSqlDefinition p => do! apply_sql_definition p; ret true
  end.

(** The body of the loop on one record. *)
Definition replay_record (record : TransactionRecord) : M bool :=
  match payload_error (kind record) with
  | None => ret false
  | Some err =>
      if eqb (kind record) SecurityChange
         && is_none (deserialize (A := EntityMetadataPayload) (default [] (payload_logical record)))
      then ret false
      else
        match payload_logical record with
        | None => raise err
        | Some payload =>
            match decode (kind record) payload with
            | None => raise err
            | Some p => apply_decoded p
            end
        end
  end.

Fixpoint replay_records (records : list TransactionRecord) (applied : Z) : M Z :=
  match records with
  | [] => ret applied
  | record :: records =>
      let! one := replay_record record in
      replay_records records (if one then applied + 1 else applied)
  end.

(** [replay_entity_construction_from_log]; [with_all_records] reads the stream, which may load it. *)
Definition replay_entity_construction_from_log `{RowCrypto} `{Zlib} `{Env} `{Digest}
    `{Bincode EncryptedRowPayloadEnvelope} `{Bincode LegacyEncryptedRowPayloadEnvelope} `{Bincode TransactionRecord}
    (wal_id : ustr) (wal : WalState) : WalState * M Z :=
  let '(records, wal) := with_records wal_id Datatypes.id wal in
  (wal, replay_records (default [] records) 0).

(** [replay_schema_changes_from_log], the replay of schema changes only. *)
Fixpoint replay_schema_changes (records : list TransactionRecord) (applied : Z) : M Z :=
  match records with
  | [] => ret applied
  | record :: records =>
      match kind record with
      | SchemaChange =>
          match payload_logical record ≫= deserialize (A := SchemaChangePayload) with
          | None => raise SchemaPayloadDeserialize
          | Some p => do! apply_schema_change p; replay_schema_changes records (applied + 1)
          end
      | _ => replay_schema_changes records applied
      end
  end.

(** ** What a replay keeps *)

Context `{!HashOrderLaws}.

Lemma preserves_tolerate stale (m : M unit) : preserves m → preserves (tolerate stale m).
Proof.
  intros Hm s r s' Hwf. unfold tolerate. destruct (m s) as [[x|e] s1] eqn:E.
  - intros [= _ <-]. by eapply Hm.
  - destruct (stale e); intros [= _ <-]; by eapply Hm.
Qed.

Lemma preserves_apply_decoded p : preserves (apply_decoded p).
Proof.
  destruct p; cbn [apply_decoded]; first [apply preserves_bind; [|intros; apply preserves_ret] | apply preserves_tolerate].
  - apply preserves_apply_schema_change.
  - apply preserves_apply_table_lifecycle.
  - apply preserves_apply_index_lifecycle.
  - apply preserves_apply_entity_metadata.
  - apply preserves_apply_sql_definition.
Qed.

Lemma preserves_replay_record record : preserves (replay_record record).
Proof.
  unfold replay_record. destruct (payload_error _); [|apply preserves_ret].
  destruct (_ && _); [apply preserves_ret|]. destruct (payload_logical _); [|apply preserves_raise].
  destruct (decode _ _); [apply preserves_apply_decoded|apply preserves_raise].
Qed.

Lemma preserves_replay_records records applied : preserves (replay_records records applied).
Proof.
  revert applied. induction records as [|record records IH]; intros applied; [apply preserves_ret|].
  cbn [replay_records]. apply preserves_bind; [apply preserves_replay_record|intros; apply IH].
Qed.

(** Replaying one log after another is replaying them as one. *)
Lemma replay_records_app l1 l2 applied s :
  replay_records (l1 ++ l2) applied s =
  (let '(r, s1) := replay_records l1 applied s in
   match r with Ok n => replay_records l2 n s1 | Err e => (Err e, s1) end).
Proof.
  revert applied s. induction l1 as [|record l1 IH]; intros applied s; [done|].
  cbn [app replay_records]. unfold bind. destruct (replay_record record s) as [[one|e] s1]; [apply IH|done].
Qed.

(** ** Schema changes that come too late *)

(** A table that has the revision already, or a later one, keeps its schema. *)
Lemma stale_revision s id k t payload :
  table_at s id k t → normalize_identifier (sc_table_id payload) = id →
  sc_schema_revision payload ≤ schema_revision t →
  ∃ s', apply_schema_change payload s = (Ok tt, s') ∧ entities s' = entities s ∧ s'.2 = s.2.
Proof.
  intros Ht Hid Hrev. unfold apply_schema_change, bind, reads. destruct (should_apply_schema_epoch _ s); [|by eexists].
  cbn [negb]. rewrite Hid, (has_table_at _ _ _ _ Ht). unfold ret.
  match goal with |- context [with_table_mut id ?f s] =>
    destruct (table_step id f s k t false t Ht) as (s' & E & _ & [He Hc]); [|done|done|rewrite E]
  end.
  { by rewrite (proj2 (Z.leb_le _ _) Hrev). }
  exists s'. split; [done|]. split; [|done]. rewrite He. apply insert_id, Ht.
Qed.

(** ** Objects a replay makes *)

(** The schema change of a table that is not there registers it, and then has a newer revision than the new table. *)
Lemma apply_new_schema s payload :
  let id := normalize_identifier (sc_table_id payload) in
  let t := new_table (fresh_ids s.1 0%nat) id (sc_schema payload) (sc_entity_id payload) in
  let t' := replace_schema (sc_schema_revision payload) (sc_schema payload) (indexes_for_schema id (sc_schema payload)) t in
  catalog_wf s → validate (sc_schema payload) = Ok tt → resolve_entity_key id s = None →
  entities s !! table_entity_id t = None → schema_epoch s.2 ≤ sc_schema_epoch payload → 0 < sc_schema_revision payload →
  ∃ s', apply_schema_change payload s = (Ok tt, s') ∧ table_at s' id (table_entity_id t) t'
    ∧ entities s' = <[table_entity_id t := EntityTable t']> (entities s)
    ∧ schema_epoch s'.2 = sc_schema_epoch payload.
Proof.
  intros id t t' Hwf Hv Hres Hnew Hep Hrev.
  destruct (register_step s id (sc_schema payload) (sc_entity_id payload) Hwf Hv Hres Hnew)
    as (s1 & E1 & Ht1 & He1 & Hep1 & _). fold t in Ht1, He1.
  unfold apply_schema_change, bind, reads, should_apply_schema_epoch.
  rewrite (proj2 (Z.leb_le _ _) Hep). cbn [negb]. fold id. rewrite (has_table_free _ _ Hres), E1.
  assert (Hrev0 : schema_revision t = 0 ∧ table_indexes t = indexes_for_schema id (sc_schema payload)).
  { unfold t, new_table. destruct (_ <$> sc_entity_id payload) as [x|]; [by destruct (is_empty x)|done]. }
  match goal with |- context [with_table_mut id ?f s1] =>
    destruct (table_step id f s1 (table_entity_id t) t true t' Ht1) as (s2 & E2 & Ht2 & [He2 Hc2]); [|done|done|rewrite E2]
  end.
  { destruct Hrev0 as [-> ->]. by rewrite (proj2 (Z.leb_gt _ _) Hrev), merge_derived. }
  destruct s2 as [st2 c2]. simpl in Hc2. subst c2. eexists. split; [reflexivity|]. split_and!.
  - by apply (table_at_catalog st2 _ s1.2).
  - change (entities (st2, s1.2) = <[table_entity_id t := EntityTable t']> (entities s)).
    by rewrite He2, He1, insert_insert_eq.
  - simpl. rewrite Hep1. lia.
Qed.

(** The create record of a table that is there changes nothing. *)
Lemma apply_known_table s id k t payload :
  table_at s id k t → normalize_identifier (tl_table_id payload) = id → tl_action payload = TableCreate →
  schema_epoch s.2 = tl_schema_epoch payload → apply_table_lifecycle payload s = (Ok tt, s).
Proof.
  intros Ht Hid Ha Hep. unfold apply_table_lifecycle, bind, reads, should_apply_schema_epoch.
  rewrite Hep, Z.leb_refl, Ha. cbn [negb]. rewrite Hid, (has_table_at _ _ _ _ Ht). unfold ret.
  unfold accept_schema_epoch, update. destruct s as [st c]. simpl in *. rewrite Hep, Z.max_id, <- Hep. by destruct c.
Qed.

(** Metadata of a table. *)
Lemma apply_table_metadata s id k t payload :
  table_at s id k t → normalize_identifier (em_entity_id payload) = id →
  ∃ s', apply_entity_metadata payload s = (Ok tt, s')
    ∧ table_at s' id k (set_table_metadata (em_metadata payload) t)
    ∧ entities s' = <[k := EntityTable (set_table_metadata (em_metadata payload) t)]> (entities s) ∧ s'.2 = s.2.
Proof.
  intros [Hwf Hd Ee] Hid. exists (write_entity k (EntityTable (set_table_metadata (em_metadata payload) t)) s).
  pose proof (entities_write s k (EntityTable (set_table_metadata (em_metadata payload) t)) Hwf (mk_is_Some _ _ Ee)) as Ew.
  split_and!; [|split|done|apply write_entity_catalog].
  - unfold apply_entity_metadata. rewrite Hid. by eapply with_entity_mut_ok.
  - eapply wf_write; [done..| |done|done]. by apply (wf_entity_key _ _ _ Hwf Ee).
  - rewrite Ew. by eapply denotes_insert.
  - by rewrite Ew, lookup_insert_eq.
Qed.

End replay.
