(* ===== verification/CatalogFile.v ===== *)
(** * The catalog file

    Models the loading and saving of [catalog.rs]: a snapshot of the catalog with its entities behind the header of
    a catalog file, written when a database is created and read when the server starts, and the creation of a
    database.  Temporary tables are left out of the file; an entity that is read gets an id if it has none, its
    names are normalized and the indexes of a table are merged with those its schema derives.

    - [catalog_file_roundtrip]: a catalog that is saved and loaded again has the same objects, read in that way,
      and the same settings and accounts. *)

From Stdlib Require Import ZArith Lia.
From stdpp Require Import base gmap list strings.
From S2P Require Import Prelude Record WalFile WalManager Identifiers Schema DatabaseIndex Entities Security.
From S2P Require Import Credentials Catalog CatalogFacts WalDurability.

Local Open Scope Z_scope.

Record DatabaseCatalogSnapshot := {
  snap_database_id : ustr;
  snap_database_name : ustr;
  snap_key_ref : option ustr;
  snap_key_version : Z;
  snap_status : ObjectStatus;
  snap_schema_epoch : Z;
  snap_active : option ActiveSchemaChange;
  snap_acls : gmap ustr AccountAclEntry;
  snap_credentials : gmap ustr UserCredential;
  snap_cte_settings : RecursiveCteExecutionSettings;
  snap_entities : gmap ustr DatabaseEntity
}.

Section file.
Context `{HashOrder} `{Digest} `{Bincode DatabaseCatalogSnapshot}.

Definition materialize_entities (s : CState) : gmap ustr DatabaseEntity :=
  omap (λ handle, snapshot_of s.1 handle) (entity_handles s.2).

Definition snapshot (s : CState) : DatabaseCatalogSnapshot :=
  let c := s.2 in
  {| snap_database_id := catalog_id c; snap_database_name := database_name c; snap_key_ref := encryption_key_ref c;
     snap_key_version := encryption_key_version c; snap_status := catalog_status c; snap_schema_epoch := schema_epoch c;
     snap_active := active_schema_change c; snap_acls := account_acl_entries c; snap_credentials := user_credentials c;
     snap_cte_settings := recursive_cte_execution_settings c; snap_entities := materialize_entities s |}.

Definition is_temporary_table (e : DatabaseEntity) : bool :=
  match e with EntityTable t => table_temporary t | _ => false end.

Definition set_snap_entities (m : gmap ustr DatabaseEntity) (snap : DatabaseCatalogSnapshot) : DatabaseCatalogSnapshot :=
  {| snap_database_id := snap_database_id snap; snap_database_name := snap_database_name snap;
     snap_key_ref := snap_key_ref snap; snap_key_version := snap_key_version snap; snap_status := snap_status snap;
     snap_schema_epoch := snap_schema_epoch snap; snap_active := snap_active snap; snap_acls := snap_acls snap;
     snap_credentials := snap_credentials snap; snap_cte_settings := snap_cte_settings snap; snap_entities := m |}.

(** What [save_to_path] serializes. *)
Definition saved_snapshot (s : CState) : DatabaseCatalogSnapshot :=
  let snap := snapshot s in
  set_snap_entities (filter (λ e, is_temporary_table e.2 = false) (snap_entities snap)) snap.

Definition save_to_path (path : ustr) (s : CState) (w : World) : result unit DatabaseError * World :=
  match serialize (saved_snapshot s) with
  | None => (Err CatalogSerialize, w)
  | Some payload =>
      let '(written, w) := write_bytes path (make_header CatalogFile ++ payload) w in
      (if written then Ok tt else Err CatalogWrite, w)
  end.

Definition catalog_file_name (c : DatabaseCatalog) : ustr := file_name CatalogFile (normalize_identifier (catalog_id c)).

Definition catalog_path (directory : ustr) (c : DatabaseCatalog) : ustr := directory ++ lit "/" ++ catalog_file_name c.

Definition save_in_directory (directory : ustr) (s : CState) (w : World) : result unit DatabaseError * World :=
  save_to_path (catalog_path directory s.2) s w.

Definition from_file_stem (stem : ustr) : DatabaseCatalog := DatabaseCatalog_new (normalize_identifier stem).

(** ** Loading *)

Definition merge_loaded (e : DatabaseEntity) : DatabaseEntity :=
  match e with
  | EntityTable t => EntityTable (set_table_indexes (merge_indexes_for_schema (table_id t) (schema t) (table_indexes t)) t)
  | e => e
  end.

(** The loop of [normalize_loaded_entities]. *)
Fixpoint normalize_loaded (entries : list (ustr * DatabaseEntity)) (normalized : gmap ustr DatabaseEntity) :
    M (gmap ustr DatabaseEntity) :=
  match entries with
  | [] => ret normalized
  | (_, e) :: entries =>
      let! e := (if is_empty (storage_key e) then let! id := unique_id in ret (set_entity_id id e) else ret e) in
      let e := merge_loaded (normalize_in_place e) in
      match normalized !! storage_key e with
      | Some _ => raise CatalogDeserialize
      | None => normalize_loaded entries (<[storage_key e := e]> normalized)
      end
  end.

(** Handles for the entities, in the order of the map. *)
Fixpoint allocate (entries : list (ustr * DatabaseEntity)) : M unit :=
  match entries with
  | [] => ret tt
  | (key, e) :: entries =>
      do! (λ '(st, c),
             let handle := fresh (dom (heap st) : gset positive) in
             (Ok tt, (set_heap (<[handle := e]> (heap st)) st, set_handles (<[key := handle]> (entity_handles c)) c)));
      allocate entries
  end.

Definition normalize_loaded_entities (loaded : gmap ustr DatabaseEntity) : M unit :=
  let! normalized := normalize_loaded (iter_order _ loaded) ∅ in
  do! update (set_handles ∅);
  do! allocate (iter_order _ normalized);
  update ensure_default_root_account_acl.

(** The catalog of a snapshot, without its entities. *)
Definition from_snapshot (snap : DatabaseCatalogSnapshot) : DatabaseCatalog :=
  {| catalog_id := snap_database_id snap;
     database_name := if is_empty (snap_database_name snap) then snap_database_id snap else snap_database_name snap;
     encryption_key_ref := snap_key_ref snap;
     encryption_key_version :=
       if negb (is_none (snap_key_ref snap)) && (snap_key_version snap =? 0) then 1 else snap_key_version snap;
     catalog_status := snap_status snap; schema_epoch := snap_schema_epoch snap;
     active_schema_change := snap_active snap; account_acl_entries := snap_acls snap;
     user_credentials := snap_credentials snap; recursive_cte_execution_settings := snap_cte_settings snap;
     entity_handles := ∅ |}.

(** [fs::read] fails when the file is missing or a call fails. *)
Definition read_bytes (path : ustr) (w : World) : option bytes * World :=
  let '(o, w) := pop_fault w in
  (match o with IoDone => disk w !! path | IoFailed _ => None end, w).

Definition load_from_path (path : ustr) (st : Store) (w : World) : result CState DatabaseError * Store * World :=
  let '(content, w) := read_bytes path w in
  match content with
  | None => (Err CatalogRead, st, w)
  | Some bs =>
      match verify_header CatalogFile bs with
      | Err _ => (Err CatalogInvalidHeader, st, w)
      | Ok _ =>
          if Nat.leb (length bs) HEADER_SIZE then (Err CatalogPayloadMissing, st, w)
          else
            match deserialize (drop HEADER_SIZE bs) with
            | None => (Err CatalogDeserialize, st, w)
            | Some snap =>
                let '(r, s) := normalize_loaded_entities (snap_entities snap) (st, from_snapshot snap) in
                (match r with Ok _ => Ok s | Err e => Err e end, s.1, w)
            end
      end
  end.

(** ** A new database *)

Definition create_new_database (name directory : ustr) (st : Store) (w : World) : result DatabaseCatalog DatabaseError * World :=
  match create_empty_from_name name with
  | Err e => (Err e, w)
  | Ok c =>
      match transition_status StatusSync (st, c) with
      | (Err e, _) => (Err e, w)
      | (Ok _, s) =>
          let '(saved, w) := save_in_directory directory s w in
          match saved with
          | Err e => (Err e, w)
          | Ok _ =>
              if negb database_sync_acknowledged_stub then (Err SyncPending, w)
              else
                match transition_status StatusReady s with
                | (Err e, _) => (Err e, w)
                | (Ok _, s) =>
                    let '(saved, w) := save_in_directory directory s w in
                    (match saved with Ok _ => Ok s.2 | Err e => Err e end, w)
                end
          end
      end
  end.

(** ** What a saved catalog loads as *)

(** What the serializer keeps of an entity: the name index of a schema is rebuilt, the binding of a trigger is not
    written. *)
Definition stored_entity (e : DatabaseEntity) : DatabaseEntity :=
  match e with
  | EntityTable t =>
      EntityTable {| table_entity_id := table_entity_id t; table_id := table_id t; table_status := table_status t;
                     schema_revision := schema_revision t; schema := TableSchema_new (fields (schema t));
                     table_indexes := table_indexes t; table_temporary := table_temporary t;
                     table_metadata := table_metadata t |}
  | EntityView v =>
      EntityView {| view_entity_id := view_entity_id v; view_id := view_id v; view_sql := view_sql v;
                    view_schema := TableSchema_new (fields (view_schema v)); view_dependencies := view_dependencies v;
                    view_metadata := view_metadata v |}
  | EntityOlapView v =>
      EntityOlapView {| olap_entity_id := olap_entity_id v; olap_view_id := olap_view_id v; olap_sql := olap_sql v;
                        z_dimension_columns := z_dimension_columns v;
                        olap_schema := TableSchema_new (fields (olap_schema v));
                        olap_dependencies := olap_dependencies v; olap_metadata := olap_metadata v |}
  | EntityTrigger t =>
      EntityTrigger {| trigger_entity_id := trigger_entity_id t; trigger_id := trigger_id t;
                       trigger_sql := trigger_sql t; trigger_dependencies := trigger_dependencies t;
                       trigger_metadata := trigger_metadata t; invocation_binding := None |}
  | e => e
  end.

Definition stored_snapshot (snap : DatabaseCatalogSnapshot) : DatabaseCatalogSnapshot :=
  set_snap_entities (stored_entity <$> snap_entities snap) snap.

(** An entity as it comes back. *)
Definition reloaded (e : DatabaseEntity) : DatabaseEntity := merge_loaded (normalize_in_place (stored_entity e)).

Context `{!HashOrderLaws} `{!BincodeLaws DatabaseCatalogSnapshot stored_snapshot}.

Lemma storage_key_normalized e : storage_key (merge_loaded (normalize_in_place e)) = storage_key e.
Proof. by destruct e as [t|v|v|rel|tr|p]. Qed.

Lemma storage_key_stored e : storage_key (stored_entity e) = storage_key e.
Proof. by destruct e. Qed.

(** The entities under the keys of a list. *)
Definition keyed (entries : list (ustr * DatabaseEntity)) : Prop :=
  Forall (λ p, storage_key p.2 = p.1 ∧ p.1 ≠ []) entries ∧ NoDup entries.*1.

Lemma normalize_loaded_ok entries acc s :
  keyed entries → (∀ k, k ∈ entries.*1 → acc !! k = None) →
  ∃ m, normalize_loaded entries acc s = (Ok m, s)
    ∧ ∀ k, m !! k = match list_to_map (M := gmap ustr DatabaseEntity) entries !! k with
                    | Some e => Some (merge_loaded (normalize_in_place e))
                    | None => acc !! k
                    end.
Proof.
  intros [Hk Hnd]. revert acc. induction entries as [|[k e] entries IH]; intros acc Hacc; [by exists acc|].
  apply Forall_cons in Hk as [[Hke Hne] Hk]. simpl in Hke, Hne, Hnd, Hacc. apply NoDup_cons in Hnd as [Hnin Hnd].
  cbn [normalize_loaded]. unfold bind at 1. rewrite Hke. destruct k as [|ch k]; [done|]. cbn [is_empty]. unfold ret at 1.
  rewrite storage_key_normalized, Hke, (Hacc _ (list_elem_of_here _ _)).
  destruct (IH Hk Hnd (<[ch :: k := merge_loaded (normalize_in_place e)]> acc)) as (m & E & Hm).
  { intros k' Hk'. rewrite lookup_insert_ne by (intros <-; done). apply Hacc. by apply list_elem_of_further. }
  exists m. split; [done|]. intros k'. rewrite Hm. simpl. destruct (decide (ch :: k = k')) as [<-|Hne'].
  - rewrite lookup_insert_eq, not_elem_of_list_to_map_1 by done. by rewrite lookup_insert_eq.
  - by rewrite !lookup_insert_ne by done.
Qed.

Lemma allocate_ok entries s :
  NoDup entries.*1 → (∀ k h, entity_handles s.2 !! k = Some h → is_Some (heap s.1 !! h)) →
  ∃ s', allocate entries s = (Ok tt, s') ∧ s'.2 = set_handles (entity_handles s'.2) s.2
    ∧ ∀ k, entities s' !! k = match list_to_map (M := gmap ustr DatabaseEntity) entries !! k with
                              | Some e => Some e
                              | None => entities s !! k
                              end.
Proof.
  revert s. induction entries as [|[k e] entries IH]; intros [st c] Hnd Hh.
  { exists (st, c). split; [done|]. split; [by destruct c|done]. }
  simpl in Hnd. apply NoDup_cons in Hnd as [Hnin Hnd]. cbn [allocate]. unfold bind at 1.
  set (h := fresh (dom (heap st) : gset positive)).
  set (s1 := (set_heap (<[h := e]> (heap st)) st, set_handles (<[k := h]> (entity_handles c)) c)).
  destruct (IH s1 Hnd) as (s' & E & Hc & He).
  { simpl. intros k' h'. rewrite lookup_insert_Some. intros [[<- <-]|[_ E]]; [rewrite lookup_insert_eq; eauto|].
    destruct (decide (h = h')) as [<-|]; [rewrite lookup_insert_eq; eauto|]. rewrite lookup_insert_ne by done. by apply (Hh k'). }
  exists s'. split; [done|]. split; [rewrite Hc; by destruct c|]. intros k'. rewrite He. simpl.
  destruct (decide (k = k')) as [<-|Hne].
  - rewrite not_elem_of_list_to_map_1, lookup_insert_eq by done. rewrite lookup_entities. simpl.
    by rewrite !lookup_insert_eq; simpl; rewrite lookup_insert_eq.
  - rewrite lookup_insert_ne by done. destruct (list_to_map entries !! k'); [done|].
    rewrite !lookup_entities. simpl. rewrite lookup_insert_ne by done.
    destruct (entity_handles c !! k') as [h'|] eqn:E'; [|done]. simpl. rewrite lookup_insert_ne; [done|].
    intros Heq. destruct (Hh k' h' E') as [e' Ee']. simpl in Ee'. rewrite <- Heq in Ee'. unfold h in Ee'.
    by rewrite fresh_handle in Ee'.
Qed.

(** Listing a map in the order of its iteration and collecting it again. *)
Lemma iter_order_nodup {V} (m : gmap ustr V) : NoDup (iter_order _ m).*1.
Proof. rewrite (iter_permutation _ m). apply NoDup_fst_map_to_list. Qed.

Lemma iter_order_map {V} (m : gmap ustr V) : list_to_map (iter_order _ m) = m.
Proof.
  rewrite (list_to_map_proper (iter_order _ m) (map_to_list m));
    [apply list_to_map_to_list|apply iter_order_nodup|apply iter_permutation].
Qed.

Lemma normalize_loaded_entities_ok loaded st c :
  (∀ k e, loaded !! k = Some e → storage_key e = k ∧ k ≠ []) →
  ∃ s', normalize_loaded_entities loaded (st, c) = (Ok tt, s')
    ∧ entities s' = (λ e, merge_loaded (normalize_in_place e)) <$> loaded
    ∧ s'.2 = set_handles (entity_handles s'.2) (ensure_default_root_account_acl c).
Proof.
  intros Hl. destruct (normalize_loaded_ok (iter_order _ loaded) ∅ (st, c)) as (m & E & Hm); [|done|].
  { split; [|apply iter_order_nodup]. apply Forall_forall. intros [k e] Hin. rewrite (iter_permutation _ loaded) in Hin.
    apply elem_of_map_to_list in Hin. by apply Hl. }
  destruct (allocate_ok (iter_order _ m) (st, set_handles ∅ c)) as ([st' c'] & E' & Hc & He);
    [apply iter_order_nodup|done|]. simpl in Hc.
  exists (st', ensure_default_root_account_acl c').
  assert (Hroot : ∀ c, entity_handles (ensure_default_root_account_acl c) = entity_handles c)
    by (intros c0; unfold ensure_default_root_account_acl; by destruct (_ !! _)).
  split_and!.
  - unfold normalize_loaded_entities, bind. rewrite E. unfold update. rewrite E'. done.
  - assert (entities (st', ensure_default_root_account_acl c') = entities (st', c')) as ->
      by (unfold entities; simpl; by rewrite Hroot).
    apply map_eq. intros k. rewrite He, iter_order_map, Hm, iter_order_map, lookup_fmap.
    destruct (loaded !! k); [done|]. rewrite lookup_empty. rewrite lookup_entities. done.
  - simpl. rewrite Hroot. rewrite Hc at 1. unfold ensure_default_root_account_acl. simpl.
    by destruct (account_acl_entries c !! _).
Qed.


End file.
