(* ===== verification/DdlText.v ===== *)
(** * The texts that the definition statements read by hand

    Models the text parsing of [server/src/core/mappings/query/core/ddl_ops.rs]: the specification of an index to
    create or drop, the encryption option of a database, the parts of an OLAP view.  These statements do not go
    through the SQL parser.  Positions in a text are counted in characters; the code counts bytes, of texts that
    lowering ASCII letters leaves aligned. *)

From Stdlib Require Import ZArith Lia.
From stdpp Require Import base gmap list strings.
From S2P Require Import Prelude Identifiers Text.

Local Open Scope Z_scope.

(** ** Text functions of the standard library *)

(** [str::split] at a character. *)
Fixpoint split_char (c : char) (s : ustr) : list ustr :=
  match s with
  | [] => [[]]
  | d :: s =>
      if d =? c then [] :: split_char c s
      else match split_char c s with
           | [] => [[d]]
           | part :: parts => (d :: part) :: parts
           end
  end.

(** [str::rfind] of a character. *)
Fixpoint rfind_char (c : char) (s : ustr) : option nat :=
  match s with
  | [] => None
  | d :: s =>
      match rfind_char c s with
      | Some n => Some (S n)
      | None => if d =? c then Some 0%nat else None
      end
  end.

(** [str::replacen] with a count of one. *)
Definition replace_first (s from to : ustr) : ustr :=
  match find_str s from with
  | Some n => take n s ++ to ++ drop (n + length from) s
  | None => s
  end.

(** [Iterator::position]. *)
Fixpoint position {A} (p : A → bool) (l : list A) : option nat :=
  match l with
  | [] => None
  | x :: l => if p x then Some 0%nat else S <$> position p l
  end.

(** A slice of a text. *)
Definition slice (from to : nat) (s : ustr) : ustr := take (to - from) (drop from s).

Definition of_option {A} (o : option A) (message : string) : result A string :=
  match o with Some x => Ok x | None => Err message end.

(** ** Names and statements *)

(** [sql.trim().trim_end_matches(';').trim()]. *)
Definition trim_statement (sql : ustr) : ustr := trim (trim_end_matches (Z.eqb 59) (trim sql)).

Definition normalize_identifier_token (token : ustr) : ustr :=
  to_ascii_lowercase
    (trim (trim_matches 41 (trim_matches 40 (trim_matches 34 (trim_matches 96 (trim_matches 59 (trim_matches 44
      (trim token)))))))).

Definition drop_statement_has_if_exists (sql : ustr) : bool :=
  let lowered := to_ascii_lowercase sql in
  starts_with lowered (lit "drop ") && str_contains lowered (lit " if exists ").

(** ** CREATE INDEX *)

(** The name of one column of the list. *)
Definition index_field (segment : ustr) : result ustr string :=
  let? first := of_option (head (split_whitespace segment)) "CREATE INDEX has empty field expression" in
  Ok (normalize_identifier_token (default first (last (split_char 46 first)))).

Fixpoint index_fields (segments : list ustr) : result (list ustr) string :=
  match segments with
  | [] => Ok []
  | segment :: segments =>
      let? name := index_field segment in
      let? names := index_fields segments in
      Ok (name :: names)
  end.

(** The clauses that are refused, in the order of the checks. *)
Definition unsupported_index_clause (lowered : ustr) : option string :=
  if negb (starts_with lowered (lit "create")) || negb (str_contains lowered (lit " index ")) then
    Some "statement is not CREATE INDEX"%string
  else if starts_with lowered (lit "create unique index") then Some "CREATE UNIQUE INDEX is not supported yet"%string
  else if starts_with lowered (lit "create fulltext") || starts_with lowered (lit "create spatial") then
    Some "CREATE FULLTEXT/SPATIAL INDEX is not supported yet"%string
  else if str_contains lowered (lit " using ") then Some "CREATE INDEX USING is not supported yet"%string
  else if str_contains lowered (lit " where ") then Some "CREATE INDEX WHERE is not supported yet"%string
  else if str_contains lowered (lit " algorithm ") || str_contains lowered (lit " lock ") then
    Some "CREATE INDEX ALGORITHM/LOCK options are not supported yet"%string
  else if str_contains lowered (lit " comment ") then Some "CREATE INDEX COMMENT is not supported yet"%string
  else None.

Definition parse_create_index_spec (sql : ustr) : result (option ustr * ustr * list ustr * bool) string :=
  let sql := trim_statement sql in
  let lowered := to_ascii_lowercase sql in
  match unsupported_index_clause lowered with
  | Some message => Err message
  | None =>
      let? on_pos := of_option (find_str lowered (lit " on ")) "CREATE INDEX missing ON clause" in
      let prefix := trim (take on_pos sql) in
      let suffix := trim (drop (on_pos + 4) sql) in
      let prefix_tokens := split_whitespace prefix in
      let? index_token_pos :=
        of_option (position (λ token, eq_ignore_ascii_case token (lit "index")) prefix_tokens)
          "CREATE INDEX missing INDEX keyword" in
      let if_not_exists := str_contains (to_ascii_lowercase prefix) (lit " if not exists ") in
      let? index_name_token :=
        of_option (prefix_tokens !! (index_token_pos + if if_not_exists then 4 else 1)%nat)
          "CREATE INDEX missing index name" in
      let? open_paren := of_option (find_str suffix (lit "(")) "CREATE INDEX missing column list" in
      let? close_paren := of_option (rfind_char 41 suffix) "CREATE INDEX missing closing ')'" in
      if Nat.leb close_paren open_paren then Err "CREATE INDEX has invalid column list"%string
      else
        let table_id := normalize_identifier_token (take open_paren suffix) in
        let? names := index_fields (split_char 44 (slice (open_paren + 1) close_paren suffix)) in
        let field_names := filter (λ name, is_empty name = false) names in
        if is_empty table_id || is_empty field_names then
          Err "CREATE INDEX requires table and at least one field"%string
        else Ok (Some (normalize_identifier_token index_name_token), table_id, field_names, if_not_exists)
  end.

(** ** DROP INDEX *)

(** [tokens.get(idx).is_some_and(|token| token.eq_ignore_ascii_case(word))]. *)
Definition token_is (tokens : list ustr) (idx : nat) (word : string) : bool :=
  match tokens !! idx with Some token => eq_ignore_ascii_case token (lit word) | None => false end.

Definition parse_drop_index_spec (sql : ustr) : option (ustr * option ustr) :=
  let sql := trim_statement sql in
  let lowered := to_ascii_lowercase sql in
  if negb (starts_with lowered (lit "drop index ")) then None
  else
    let tokens := split_whitespace sql in
    if Nat.ltb (length tokens) 3 then None
    else
      let idx := if token_is tokens 2 "if" && token_is tokens 3 "exists" then 4%nat else 2%nat in
      index_name ← normalize_identifier_token <$> tokens !! idx;
      let table_hint :=
        if token_is tokens (idx + 1) "on" then normalize_identifier_token <$> tokens !! (idx + 2)%nat else None in
      if is_empty index_name then None
      else Some (index_name,
                 match table_hint with Some name => if is_empty name then None else Some name | None => None end).

(** ** The encryption option of CREATE DATABASE *)

(** The key to use: one that is given, or a new one for the database. *)
Inductive KeyChoice := GivenKey (key_ref : ustr) | DefaultKey.

Fixpoint encryption_option (tokens : list ustr) : option KeyChoice :=
  match tokens with
  | [] => None
  | token :: tokens =>
      let lower := to_ascii_lowercase token in
      if str_eqb lower (lit "--aes") then
        match tokens with
        | next :: _ =>
            let candidate := trim_matches 59 next in
            if negb (is_empty candidate) && negb (starts_with candidate (lit "--")) then Some (GivenKey candidate)
            else Some DefaultKey
        | [] => Some DefaultKey
        end
      else
        match strip_prefix lower (lit "--aes=") with
        | Some value => Some (if is_empty value then DefaultKey else GivenKey value)
        | None => encryption_option tokens
        end
  end.

Definition create_database_tokens (sql : ustr) : list ustr := trim_matches 59 <$> split_whitespace sql.

(** ** OLAP views *)

(** The view, its dimensions and the text of its SELECT. *)
Definition parse_olap_view_parts (statement_sql : ustr) : result (ustr * list ustr * ustr) string :=
  let normalized := trim_statement statement_sql in
  let lowered := to_ascii_lowercase normalized in
  let prefix := lit "create olapview" in
  if negb (starts_with lowered prefix) then Err "statement is not CREATE OLAPVIEW"%string
  else
    let prefix_len := length prefix in
    let? using_idx := of_option (find_str (drop prefix_len lowered) (lit " using ")) "missing USING clause" in
    let using_idx := (using_idx + prefix_len)%nat in
    let? as_idx := of_option (find_str (drop (using_idx + 7) lowered) (lit " as ")) "missing AS clause" in
    let as_idx := (as_idx + using_idx + 7)%nat in
    let view_id := trim (slice prefix_len using_idx normalized) in
    if is_empty view_id then Err "missing OLAP view identifier"%string
    else
      let dimension_text := trim (slice (using_idx + 7) as_idx normalized) in
      if is_empty dimension_text then Err "missing OLAP view dimension list"%string
      else
        let select_sql := trim (drop (as_idx + 4) normalized) in
        if is_empty select_sql then Err "missing OLAP view SELECT statement"%string
        else
          let columns :=
            normalize_identifier <$> filter (λ col, is_empty col = false) (trim <$> split_char 44 dimension_text) in
          if is_empty columns then Err "missing OLAP view dimension list"%string
          else Ok (normalize_identifier view_id, columns, select_sql).
