(* ===== verification/Ddl.v ===== *)
(** * Definition statements

    Models [server/src/core/mappings/query/core/ddl_ops.rs] with the lookups of [query/catalogs.rs] and the
    temporary tables of [execution/commands/scoped_table.rs]: every statement that creates, changes or drops an
    object of a database, from its text to the catalog, the write-ahead log, the runtime indexes and the files.

    The catalogs of a node live in one map over one store of entities ([Node]).  A handler works on one catalog
    together with the log, the indexes and the disk ([DbState]); it may return early, keeping what it has changed,
    and [ConnectorResponse] is what it returns in the end.  The statements that go through the SQL parser take its
    result from the class [SqlFrontEnd].  Of the response only the row count and the constant part of its message
    are kept. *)

From Stdlib Require Import ZArith Lia.
From stdpp Require Import base gmap list strings.
From S2P Require Import Prelude Settings Record RowPayload WalFile Wal WalManager Identifiers Text LiveRows WalOps Schema.
From S2P Require Import RowCodec FieldValue DatabaseIndex RuntimeIndex Indexors IndexStore AlterTable Migration Entities Catalog.
From S2P Require Import CatalogReplay CatalogFile Statements DdlText.

Local Open Scope Z_scope.

(** ** Plans and responses *)

Inductive ConnectorResponse := Applied (affected_rows : Z) | Rejected (message : string).

Record CreateTablePlan := {
  plan_table_id : ustr;
  plan_schema : TableSchema;
  plan_temporary : bool;
  plan_composite_indexes : list (DatabaseIndexKind * list ustr)
}.

(** The statements as the SQL parser and the compiler of routines read them. *)
Class SqlFrontEnd := {
  create_table_plan_from_statement : ustr → option CreateTablePlan;
  parse_alter_table_change_plan_from_statement : ustr → option (ustr * list AlterTableChangeOp);
  parse_create_view_dependencies_from_sql : ustr → option (list ustr);
  parse_create_function_return_type_from_statement : ustr → option (option ustr);
  validate_function : ustr → ustr → option ustr → bool
}.

(** ** State *)

Record Node := {
  node_store : Store;
  catalogs : gmap ustr DatabaseCatalog;
  node_wal : WalState;
  node_indexes : RuntimeIndexStore;
  node_cache : SchemaCache
}.

Record DbState := mkDb {
  db : CState;
  db_wal : WalState;
  db_indexes : RuntimeIndexStore;
  db_cache : SchemaCache
}.

(** ** Handlers *)

Inductive Outcome (A : Type) := Done (x : A) | Return (r : ConnectorResponse) | Panic.
Arguments Done {A} _.
Arguments Return {A} _.
Arguments Panic {A}.

Abbreviation D A := (DbState → Outcome A * DbState).

Definition done {A} (x : A) : D A := λ s, (Done x, s).
Definition respond {A} (r : ConnectorResponse) : D A := λ s, (Return r, s).
Definition reject {A} (message : string) : D A := respond (Rejected message).
Definition panics {A} : D A := λ s, (Panic, s).
Definition chain {A B} (m : D A) (k : A → D B) : D B :=
  λ s, let '(o, s) := m s in
       match o with Done x => k x s | Return r => (Return r, s) | Panic => (Panic, s) end.

Declare Scope ddl_scope.
Delimit Scope ddl_scope with ddl.
Notation "'let*' x ':=' m 'in' k" := (chain m (λ x, k))
  (at level 10, x pattern, m at level 100, k at level 200) : ddl_scope.
Notation "'do*' m ';' k" := (chain m (λ _, k)) (at level 10, m at level 100, k at level 200) : ddl_scope.
Open Scope ddl_scope.

(** The catalog, the log and the disk from a handler. *)
Definition look {A} (f : CState → A) : D A := λ s, (Done (f (db s)), s).
Definition catalog_op {A} (m : M A) : D (result A DatabaseError) :=
  λ s, let '(r, c) := m (db s) in (Done r, mkDb c (db_wal s) (db_indexes s) (db_cache s)).
Definition wal_op {A} (f : WalState → A * WalState) : D A :=
  λ s, let '(x, wal) := f (db_wal s) in (Done x, mkDb (db s) wal (db_indexes s) (db_cache s)).
Definition disk_op {A} (f : World → A * World) : D A :=
  wal_op (λ wal, let '(x, w) := f (world wal) in (x, set_world w wal)).
Definition index_op (f : RuntimeIndexStore → RuntimeIndexStore) : D unit :=
  λ s, (Done tt, mkDb (db s) (db_wal s) (f (db_indexes s)) (db_cache s)).

(** [match m { Ok(x) => x, Err(err) => return rejected(message) }], and the same of an option. *)
Definition ok_or_reject {A E} (message : string) (r : result A E) : D A :=
  match r with Ok x => done x | Err _ => reject message end.
Definition some_or_reject {A} (message : string) (o : option A) : D A :=
  match o with Some x => done x | None => reject message end.
Definition try_catalog {A} (message : string) (m : M A) : D A :=
  let* r := catalog_op m in ok_or_reject message r.
Definition try_wal {A} (message : string) (f : WalState → result A string * WalState) : D A :=
  let* r := wal_op f in ok_or_reject message r.
Definition now : D Z := λ s,
  let '(st, c) := db s in
  (Done (clock st 0%nat),
   mkDb (mkStore (heap st) (fresh_ids st) (λ n, clock st (S n)), c) (db_wal s) (db_indexes s) (db_cache s)).

(** ** Finding the catalog *)

Section handlers.
Context `{RowCrypto} `{Zlib} `{Env} `{Digest} `{HashOrder} `{SqlFrontEnd} `{SchemaHasher} `{FieldValues}.
Context `{UuidText} `{BinarySearch}.
Context {ordinal_bincode : Bincode OrdinalRowPayload} {map_bincode : Bincode row_map}.
Context {value_list_bincode : Bincode (list bytes)}.
Context `{Bincode EncryptedRowPayloadEnvelope} `{Bincode LegacyEncryptedRowPayloadEnvelope} `{Bincode TransactionRecord}.
Context `{Bincode DatabaseCatalogSnapshot} `{Bincode DatabaseEntity}.
Context `{Bincode SchemaChangePayload} `{Bincode TableLifecyclePayload} `{Bincode IndexLifecyclePayload}.
Context `{Bincode EntityMetadataPayload} `{Bincode SqlDefinitionPayload}.
Context (node_data_dir : ustr) (available_workers : Z).

(** The key of the catalog of a database, which may be given by its name. *)
Definition resolve_catalog_mut (m : gmap ustr DatabaseCatalog) (database_id : ustr) : option ustr :=
  match m !! database_id with
  | Some _ => Some database_id
  | None =>
      key ← ok (from_database_name database_id);
      _ ← m !! key;
      Some key
  end.

Definition resolve_catalog_for_table_reference_mut (m : gmap ustr DatabaseCatalog) (active_database_id name : ustr) :
    option (ustr * ustr) :=
  match rsplit_once name (lit ".") with
  | Some (database_name, referenced) =>
      let referenced := normalize_identifier referenced in
      if is_empty referenced then None
      else key ← resolve_catalog_mut m database_name; Some (key, referenced)
  | None =>
      let table_id := normalize_identifier name in
      if is_empty table_id then None
      else if negb (is_empty (trim active_database_id)) then
        key ← resolve_catalog_mut m active_database_id; Some (key, table_id)
      else None
  end.

(** A handler on the catalog under a key. *)
Definition on_catalog (key : ustr) (m : D ConnectorResponse) (n : Node) : option ConnectorResponse * Node :=
  match catalogs n !! key with
  | None => (Some (Rejected "database not found"), n)
  | Some c =>
      let '(o, s) := m (mkDb (node_store n, c) (node_wal n) (node_indexes n) (node_cache n)) in
      (match o with Done r | Return r => Some r | Panic => None end,
       {| node_store := (db s).1; catalogs := <[key := (db s).2]> (catalogs n); node_wal := db_wal s;
          node_indexes := db_indexes s; node_cache := db_cache s |})
  end.

Definition in_database (database_id : ustr) (m : D ConnectorResponse) (n : Node) : option ConnectorResponse * Node :=
  match resolve_catalog_mut (catalogs n) database_id with
  | None => (Some (Rejected "database not found"), n)
  | Some key => on_catalog key m n
  end.

(** ** Records and files of an object *)

Definition append_payload_record_pair (database_wal_id entity_wal_id : ustr) (k : TransactionKind) (payload : bytes)
    (timestamp : Z) (database_error entity_error : string) : D unit :=
  do* try_wal database_error (append_payload_record database_wal_id k payload timestamp);
  try_wal entity_error (append_payload_record entity_wal_id k payload timestamp).

Definition server_metadata (created_at : Z) : EntityMetadata :=
  with_created_at created_at (with_creator (lit "server") default_metadata).

Definition apply_entity_metadata_with_wal (wal_id entity_wal_id entity_id : ustr) (created_at : Z)
    (operation_label : string) : D unit :=
  let metadata := server_metadata created_at in
  do* try_catalog (operation_label +:+ " metadata apply failed") (set_entity_metadata entity_id metadata);
  let* encoded :=
    some_or_reject (operation_label +:+ " metadata payload encode failed")
      (serialize {| em_entity_id := entity_id; em_metadata := metadata |}) in
  append_payload_record_pair wal_id entity_wal_id MetadataChange encoded created_at
    (operation_label +:+ " metadata WAL append failed") (operation_label +:+ " entity metadata WAL append failed").

Definition append_sql_definition_upsert_with_wal (wal_id entity_wal_id object_id : ustr) (k : SqlObjectKind)
    (text : ustr) (dependencies : list ustr) (created_at : Z) (operation_label : string) : D unit :=
  let* epoch := look (λ s, schema_epoch s.2) in
  let* encoded :=
    some_or_reject (operation_label +:+ " sql payload encode failed")
      (serialize {| sd_object_id := object_id; sd_object_kind := k; sd_action := SqlUpsert; sd_schema_epoch := epoch;
                    sd_sql := text; sd_dependencies := dependencies |}) in
  append_payload_record_pair wal_id entity_wal_id SqlDefinitionChange encoded created_at
    (operation_label +:+ " sql definition WAL append failed") (operation_label +:+ " entity sql WAL append failed").

Definition entity_snapshot_path (entity_id : ustr) : ustr :=
  node_data_dir ++ lit "/" ++ file_name EntityFile (stable_id [normalize_identifier entity_id]).

Definition persist_entity_snapshot (message : string) (entity_id : ustr) : D unit :=
  let normalized := normalize_identifier entity_id in
  let* e := look (entity normalized) in
  let* e := some_or_reject message e in
  let* payload := some_or_reject message (serialize e) in
  let* written := disk_op (write_bytes (entity_snapshot_path normalized) (make_header EntityFile ++ payload)) in
  if written : bool then done tt else reject message.

(** [fs::remove_file] where a missing file is no error. *)
Definition remove_if_present (message : string) (path : ustr) : D unit :=
  let* removed := disk_op (remove_file path) in
  match removed with None => reject message | Some _ => done tt end.

Definition remove_entity_snapshot_file (entity_id : ustr) : D unit :=
  remove_if_present "entity snapshot cleanup failed" (entity_snapshot_path entity_id).

Definition remove_table_stream_files (table_id : ustr) : D unit :=
  let normalized := normalize_identifier table_id in
  do* remove_if_present "drop table cleanup failed" (node_data_dir ++ lit "/" ++ file_name DataFile normalized);
  remove_if_present "drop table cleanup failed"
    (node_data_dir ++ lit "/" ++ file_name DataFile (stable_id [normalized])).

(** ** CREATE DATABASE *)

Definition parse_create_database_encryption_key_ref (sql database_name : ustr) : M (option ustr) :=
  match encryption_option (create_database_tokens sql) with
  | None => ret None
  | Some (GivenKey key_ref) => ret (Some key_ref)
  | Some DefaultKey =>
      let! id := unique_id in
      ret (Some (lit "enc:" ++ normalize_identifier database_name ++ lit ":" ++ id))
  end.

Definition execute_create_database_impl (statement : SqlRequest) (n : Node) : option ConnectorResponse * Node :=
  match object_name statement with
  | None => (Some (Rejected "create database missing database identifier"), n)
  | Some name =>
      let '(key_ref, (st, _)) :=
        parse_create_database_encryption_key_ref (sql statement) name (node_store n, DatabaseCatalog_new []) in
      let '(created, w) := create_new_database name node_data_dir st (world (node_wal n)) in
      let node cs w :=
        {| node_store := st; catalogs := cs; node_wal := set_world w (node_wal n); node_indexes := node_indexes n;
           node_cache := node_cache n |} in
      match created, key_ref with
      | Err _, _ | _, Err _ => (Some (Rejected "create database failed"), node (catalogs n) w)
      | Ok c, Ok None => (Some (Applied 1), node (<[catalog_id c := c]> (catalogs n)) w)
      | Ok c, Ok (Some key_ref) =>
          match configure_at_rest_encryption_key_ref key_ref c with
          | Err _ => (Some (Rejected "create database encryption configuration failed"), node (catalogs n) w)
          | Ok c =>
              let '(saved, w) := save_in_directory node_data_dir (st, c) w in
              match saved with
              | Err _ => (Some (Rejected "create database persistence failed"), node (catalogs n) w)
              | Ok _ => (Some (Applied 1), node (<[catalog_id c := c]> (catalogs n)) w)
              end
          end
      end
  end.

(** ** Temporary tables *)

(** [create_scoped_ephemeral_table]; the handle it returns is not used by CREATE TABLE. *)
Definition create_scoped_ephemeral_table (table_id : ustr) (sch : TableSchema) : D (ustr * ustr) :=
  let table_id := normalize_identifier table_id in
  let message := "create temporary table failed"%string in
  let* existing := look (table table_id) in
  match existing with
  | Some t =>
      if negb (table_temporary t) then reject message
      else if negb (bool_decide (fields (schema t) = fields sch)) then reject message
      else
        let* stream := look (catalog_entity_wal_stream_id table_id) in
        let stream := default table_id stream in
        do* try_wal message (set_stream_mode stream Ephemeral);
        let* _ := if str_eqb stream table_id then done (Ok tt) else wal_op (delete_stream table_id) in
        do* try_wal message (clear_stream_records stream);
        done (table_id, stream)
  | None =>
      do* try_catalog message (create_temporary_table table_id sch);
      let* stream := look (catalog_entity_wal_stream_id table_id) in
      let stream := default table_id stream in
      let* r := wal_op (set_stream_mode stream Ephemeral) in
      match r with
      | Err _ => do* catalog_op (drop_table table_id); reject message
      | Ok _ =>
          let* _ := if str_eqb stream table_id then done (Ok tt) else wal_op (delete_stream table_id) in
          done (table_id, stream)
      end
  end.

(** ** CREATE TABLE *)

(** The loop over the indexes of several columns, each written to the log of the database. *)
Fixpoint create_composite_indexes (table_id : ustr) (temporary : bool) (ixs : list (DatabaseIndexKind * list ustr)) :
    D unit :=
  match ixs with
  | [] => done tt
  | (k, names) :: ixs =>
      let* index_id :=
        try_catalog "create table failed: composite index create failed"
          (create_index_with_kind_and_origin table_id None names k Derived) in
      do* (if temporary then done tt
           else
             let* created := look (index_in_table table_id index_id) in
             let* created := some_or_reject "create table failed: composite index metadata missing" created in
             let* epoch := look (λ s, schema_epoch s.2) in
             let* encoded :=
               some_or_reject "create table index payload encode failed"
                 (serialize {| il_table_id := table_id; il_index_id := index_id; il_action := IndexCreate;
                               il_schema_epoch := epoch; il_index := Some created |}) in
             let* wal_id := look (λ s, catalog_id s.2) in
             let* timestamp := now in
             try_wal "create table index WAL append failed"
               (append_payload_record wal_id IndexLifecycle encoded timestamp));
      create_composite_indexes table_id temporary ixs
  end.

(** The records of a new table: its schema, its creation, its metadata. *)
Definition log_new_table (table_id : ustr) (sch : TableSchema) (created_at : Z) : D unit :=
  let* wal_id := look (λ s, catalog_id s.2) in
  let* stream := look (catalog_entity_wal_stream_id table_id) in
  let entity_wal_id := default table_id stream in
  let* identity := look (resolve_entity_key table_id) in
  let entity_id := default table_id identity in
  let* epoch := look (λ s, schema_epoch s.2) in
  let* encoded_schema :=
    some_or_reject "create table schema payload encode failed"
      (serialize {| sc_table_id := table_id; sc_schema_revision := 1; sc_schema_epoch := epoch;
                    sc_entity_id := Some entity_id; sc_schema := sch |}) in
  do* append_payload_record_pair wal_id entity_wal_id SchemaChange encoded_schema created_at
        "create table schema WAL append failed" "create table entity WAL append failed";
  let* epoch := look (λ s, schema_epoch s.2) in
  let* current := look (table_schema table_id) in
  let* encoded_lifecycle :=
    some_or_reject "create table lifecycle payload encode failed"
      (serialize {| tl_table_id := table_id; tl_action := TableCreate; tl_schema_epoch := epoch;
                    tl_entity_id := Some entity_id; tl_schema := Some (default (TableSchema_new []) current) |}) in
  do* append_payload_record_pair wal_id entity_wal_id TableLifecycle encoded_lifecycle created_at
        "create table lifecycle WAL append failed" "create table entity lifecycle WAL append failed";
  let metadata := server_metadata created_at in
  do* try_catalog "create table metadata apply failed" (set_entity_metadata table_id metadata);
  let* encoded_metadata :=
    some_or_reject "create table metadata payload encode failed"
      (serialize {| em_entity_id := table_id; em_metadata := metadata |}) in
  append_payload_record_pair wal_id entity_wal_id MetadataChange encoded_metadata created_at
    "create table metadata WAL append failed" "create table entity metadata WAL append failed".

(** [execute_create_table_impl] in its catalog; [replicated] when the request replays a change of a peer. *)
Definition create_table_in (replicated : bool) (statement : SqlRequest) : D ConnectorResponse :=
  let* plan := some_or_reject "create table schema parse failed" (create_table_plan_from_statement (sql statement)) in
  let table_id := normalize_identifier (plan_table_id plan) in
  let* existing := look (table table_id) in
  match existing with
  | Some _ => if replicated then respond (Applied 0) else reject "create table failed: table already exists"
  | None =>
      let* created_at := now in
      do* (if plan_temporary plan then let* _ := create_scoped_ephemeral_table table_id (plan_schema plan) in done tt
           else try_catalog "create table failed" (create_table table_id (plan_schema plan)));
      do* create_composite_indexes table_id (plan_temporary plan) (plan_composite_indexes plan);
      do* (if plan_temporary plan then done tt else log_new_table table_id (plan_schema plan) created_at);
      done (Applied 1)
  end.

Definition execute_create_table_impl (request_id database_id : ustr) (statement : SqlRequest) (n : Node) :
    option ConnectorResponse * Node :=
  in_database database_id
    (create_table_in (starts_with request_id (lit "replication-schema-apply-")) statement) n.

(** ** ALTER TABLE *)

(** The catalog as the migration executor reads it. *)
Definition executor_view (s : CState) : Migration.Catalog :=
  {| catalog_database_id := catalog_id s.2;
     catalog_table := λ id,
       (λ t, {| te_table_id := table_id t; te_entity_id := table_entity_id t; te_temporary := table_temporary t;
                te_schema := schema t |}) <$> table id s;
     entity_identity_id := λ id, resolve_entity_key id s;
     at_rest_encryption_key_ref := encryption_key_ref s.2;
     at_rest_encryption_key_version := encryption_key_version s.2 |}.

Definition migrate_table (table_id : ustr) (rules : SchemaMutationRuleSet) : D (result unit Failure) :=
  λ s,
    let '(r, (_, cache, w)) :=
      migrate_rows (executor_view (db s)) table_id rules node_data_dir (db_cache s) (world (db_wal s)) in
    (Done r, mkDb (db s) (set_world w (db_wal s)) (db_indexes s) cache).

(** [let _ = tx.abort(catalog); return rejected(message)]. *)
Definition abort_and_reject {A} (tx : SchemaChangeTx) (message : string) : D A :=
  do* catalog_op (abort tx); reject message.

(** Writes the change to the log of the database and to that of the table. *)
Definition persist_schema_change (wal_id entity_wal_id : ustr) (created_at : Z) (payload : SchemaChangePayload)
    (wal : WalState) : result unit DatabaseError * WalState :=
  match serialize payload with
  | None => (Err CatalogSerialize, wal)
  | Some encoded =>
      let '(r, wal) := append_payload_record wal_id SchemaChange encoded created_at wal in
      match r with
      | Err _ => (Err CatalogWrite, wal)
      | Ok _ =>
          let '(r, wal) := append_payload_record entity_wal_id SchemaChange encoded created_at wal in
          match r with Err _ => (Err CatalogWrite, wal) | Ok _ => (Ok tt, wal) end
      end
  end.

Definition commit_schema_change (tx : SchemaChangeTx) (wal_id entity_wal_id : ustr) (created_at : Z) :
    D (result unit DatabaseError) :=
  λ s,
    let '(r, wal, c) := commit tx (persist_schema_change wal_id entity_wal_id created_at) (db_wal s) (db s) in
    (Done r, mkDb c wal (db_indexes s) (db_cache s)).

(** The rows are rewritten while the old schema is still there. *)
Definition rewrite_table_rows (tx : SchemaChangeTx) (rules : AlterRules) (table_id entity_wal_id : ustr) : D unit :=
  let* r := migrate_table table_id (mutation_rule_set rules (pending_schema tx)) in
  match r with
  | Err Panicked => panics
  | Err (Failed _) => abort_and_reject tx "alter table schema migration failed"
  | Ok _ =>
      let* r := wal_op (invalidate_stream_cache entity_wal_id) in
      match r with
      | Err _ => abort_and_reject tx "alter table WAL cache refresh failed"
      | Ok _ => done tt
      end
  end.

Definition alter_table_in (table_id : ustr) (ops : list AlterTableChangeOp) : D ConnectorResponse :=
  let* existing := look (table table_id) in
  do* some_or_reject "alter table failed: table not found" existing;
  let* tx := try_catalog "alter table failed" (begin_schema_change table_id) in
  match apply_operations ops tx no_rules with
  | Err _ => abort_and_reject tx "alter table failed"
  | Ok (tx, rules) =>
      let* wal_id := look (λ s, catalog_id s.2) in
      let* stream := look (catalog_entity_wal_stream_id table_id) in
      let* entity_wal_id := some_or_reject "alter table WAL stream lookup failed" stream in
      let* created_at := now in
      do* (if requires_row_rewrite rules then rewrite_table_rows tx rules table_id entity_wal_id else done tt);
      let* r := commit_schema_change tx wal_id entity_wal_id created_at in
      do* ok_or_reject "alter table failed" r;
      done (Applied 1)
  end.

Definition execute_alter_table_impl (database_id : ustr) (statement : SqlRequest) (n : Node) :
    option ConnectorResponse * Node :=
  match parse_alter_table_change_plan_from_statement (sql statement) with
  | None => (Some (Rejected "alter table parse failed"), n)
  | Some (name, ops) =>
      match resolve_catalog_for_table_reference_mut (catalogs n) database_id name with
      | None => (Some (Rejected "alter table failed: table not found"), n)
      | Some (key, table_id) => on_catalog key (alter_table_in table_id ops) n
      end
  end.

(** ** CREATE INDEX *)

(** [wal_ops::payload_context_for_table]. *)
Definition row_payload_context (table_id : ustr) (s : CState) : TransactionPayloadContext :=
  let normalized := normalize_identifier table_id in
  let entity_id := default normalized (resolve_entity_key normalized s) in
  let context := mkContext None (Some (catalog_id s.2)) (Some entity_id) None None in
  match encryption_key_ref s.2 with
  | Some key_ref => with_at_rest_encryption context key_ref (encryption_key_version s.2)
  | None => context
  end.

(** The live rows of a table; the ordering of its schema is looked up once. *)
Definition live_rows_of (stream : ustr) (sch : TableSchema) (context : TransactionPayloadContext) :
    D (result (list (Z * row_map)) string) :=
  λ s,
    let '(entry, cache) := schema_ordinal_cache_entry sch (db_cache s) in
    let decode_row payload := ok (decode_row_payload_with_schema_cache entry payload) in
    let '(rows, wal) := load_live_rows_with_context decode_row available_workers stream context (db_wal s) in
    (Done rows, mkDb (db s) wal (db_indexes s) cache).

(** Undoes the creation of an index. *)
Definition undo_create_index {A} (index_id table_id : ustr) (message : string) : D A :=
  do* catalog_op (drop_index index_id (Some table_id)); reject message.

(** A change of the state of an index in the store, which is made when it is not there. *)
Definition index_mut (stream index_id : ustr) (f : RuntimeIndexState → option RuntimeIndexState) : D unit :=
  λ s,
    match update_index_for_table stream index_id f (db_indexes s) with
    | Some store => (Done tt, mkDb (db s) (db_wal s) store (db_cache s))
    | None => (Panic, s)
    end.

Definition create_index_in (statement : SqlRequest) : D ConnectorResponse :=
  let* (index_name, table_id, field_names, if_not_exists) :=
    ok_or_reject "create index parse failed" (parse_create_index_spec (sql statement)) in
  let* created := catalog_op (create_index table_id index_name field_names) in
  match created with
  | Err DuplicateEntity =>
      if if_not_exists : bool then respond (Applied 0) else reject "create index failed"
  | Err _ => reject "create index failed"
  | Ok created_id =>
      let* created := look (index_in_table table_id created_id) in
      match created with
      | None => undo_create_index created_id table_id "create index failed"
      | Some created =>
          let* epoch := look (λ s, schema_epoch s.2) in
          match serialize {| il_table_id := table_id; il_index_id := created_id; il_action := IndexCreate;
                             il_schema_epoch := epoch; il_index := Some created |} with
          | None => undo_create_index created_id table_id "create index payload encode failed"
          | Some encoded =>
              let* wal_id := look (λ s, catalog_id s.2) in
              let* timestamp := now in
              let* r := wal_op (append_payload_record wal_id IndexLifecycle encoded timestamp) in
              match r with
              | Err _ => undo_create_index created_id table_id "create index WAL append failed"
              | Ok _ =>
                  let* t := look (table table_id) in
                  let* t := some_or_reject "create index failed: table not found" t in
                  let* stream := look (catalog_entity_wal_stream_id table_id) in
                  let stream := default table_id stream in
                  match table_indexes t !! created_id with
                  | None => done (Applied 1)
                  | Some i =>
                      do* index_mut stream (index_id i) Some;
                      let* keys :=
                        (if should_track_index i then
                           let* context := look (row_payload_context table_id) in
                           let* rows := live_rows_of stream (schema t) context in
                           let* rows := ok_or_reject "create index live-row scan failed" rows in
                           done ((λ row, index_value_tuple i row.2) <$> rows)
                         else done []) in
                      do* index_mut stream (index_id i) (λ state, Some (set_index (Some i) (rebuild keys state)));
                      done (Applied 1)
                  end
              end
          end
      end
  end.

Definition execute_create_other_impl (database_id : ustr) (statement : SqlRequest) (n : Node) :
    option ConnectorResponse * Node :=
  in_database database_id (create_index_in statement) n.

(** ** DROP INDEX *)

(** Puts an index back that could not be dropped. *)
Definition undo_drop_index {A} (existing : option DatabaseIndex) (table_id : option ustr) (message : string) : D A :=
  do* (match existing, table_id with
       | Some i, Some table_id =>
           let* _ := catalog_op (create_index table_id (Some (index_id i)) (field_names i)) in done tt
       | _, _ => done tt
       end);
  reject message.

Definition drop_index_in (has_if_exists : bool) (index_name : ustr) (table_hint : option ustr) : D ConnectorResponse :=
  let normalized := normalize_identifier index_name in
  let* table_for_drop :=
    look (λ s, match table_hint with
               | Some hint => Some hint
               | None => list_find (λ id, index_in_table id normalized s ≠ None) (table_ids s) ≫= λ p, Some p.2
               end) in
  let* existing := look (λ s, table_for_drop ≫= λ id, index_in_table id normalized s) in
  let* epoch := look (λ s, schema_epoch s.2) in
  let payload :=
    {| il_table_id := default [] table_for_drop; il_index_id := normalized; il_action := IndexDrop;
       il_schema_epoch := saturating_add epoch 1; il_index := existing |} in
  let* dropped := catalog_op (drop_index index_name table_hint) in
  match dropped with
  | Err EntityNotFound => if has_if_exists then done (Applied 0) else done (Rejected "drop index failed")
  | Err _ => done (Rejected "drop index failed")
  | Ok _ =>
      match serialize payload with
      | None => undo_drop_index existing table_for_drop "drop index payload encode failed"
      | Some encoded =>
          let* wal_id := look (λ s, catalog_id s.2) in
          let* timestamp := now in
          let* r := wal_op (append_payload_record wal_id IndexLifecycle encoded timestamp) in
          match r with
          | Err _ => undo_drop_index existing table_for_drop "drop index WAL append failed"
          | Ok _ =>
              match table_for_drop with
              | None => done (Applied 1)
              | Some id =>
                  let* stream := look (catalog_entity_wal_stream_id id) in
                  do* index_op (remove_index_for_table (default id stream) normalized);
                  done (Applied 1)
              end
          end
      end
  end.

Definition execute_drop_other_object (database_id : ustr) (statement : SqlRequest) (n : Node) :
    option ConnectorResponse * Node :=
  match parse_drop_index_spec (sql statement) with
  | None => (Some (Rejected "drop directive is not supported"), n)
  | Some (index_name, table_hint) =>
      in_database database_id (drop_index_in (drop_statement_has_if_exists (sql statement)) index_name table_hint) n
  end.

(** ** Views, triggers and routines *)

Definition is_view (id : ustr) (s : CState) : bool :=
  match entity id s with Some (EntityView _) => true | _ => false end.

(** The steps after an object defined by a text has been registered.  The definition is written before the metadata,
    which a replay applies to an object that only the definition makes. *)
Definition define_object (object_id : ustr) (k : SqlObjectKind) (text : ustr) (dependencies : list ustr)
    (created_at : Z) (operation_label : string) : D ConnectorResponse :=
  let* wal_id := look (λ s, catalog_id s.2) in
  let* stream := look (catalog_entity_wal_stream_id object_id) in
  let* entity_wal_id := some_or_reject (operation_label +:+ " WAL stream lookup failed") stream in
  do* try_catalog (operation_label +:+ " definition apply failed") (set_sql_definition object_id k text dependencies);
  do* append_sql_definition_upsert_with_wal wal_id entity_wal_id object_id k text dependencies created_at operation_label;
  do* apply_entity_metadata_with_wal wal_id entity_wal_id object_id created_at operation_label;
  do* persist_entity_snapshot (operation_label +:+ " entity snapshot write failed") object_id;
  done (Applied 1).

Definition create_view_in (view_id : ustr) (statement : SqlRequest) : D ConnectorResponse :=
  let* dependencies :=
    some_or_reject "create view dependency parse failed" (parse_create_view_dependencies_from_sql (sql statement)) in
  let* created_at := now in
  do* try_catalog "create view failed" (register_view view_id (sql statement) (TableSchema_new []));
  define_object view_id SqlView (sql statement) dependencies created_at "create view".

Definition execute_create_view_impl (database_id : ustr) (statement : SqlRequest) (n : Node) :
    option ConnectorResponse * Node :=
  match object_name statement with
  | None => (Some (Rejected "create view missing view identifier"), n)
  | Some view_id => in_database database_id (create_view_in view_id statement) n
  end.

Definition parse_create_olap_view_spec (statement_sql : ustr) : result (ustr * list ustr * list ustr) string :=
  let? (view_id, columns, select_sql) := parse_olap_view_parts statement_sql in
  let? dependencies :=
    of_option (parse_create_view_dependencies_from_sql (lit "create view __olapview_dependencies__ as " ++ select_sql))
      "dependency parse failed" in
  Ok (view_id, columns, dependencies).

Definition create_olap_view_in (view_id : ustr) (columns dependencies : list ustr) (statement : SqlRequest) :
    D ConnectorResponse :=
  let* created_at := now in
  do* try_catalog "create olap view failed"
        (register_olap_view view_id (sql statement) columns (TableSchema_new []) dependencies);
  define_object view_id SqlOlapView (sql statement) dependencies created_at "create olap view".

Definition execute_create_olap_view_impl (database_id : ustr) (statement : SqlRequest) (n : Node) :
    option ConnectorResponse * Node :=
  match parse_create_olap_view_spec (sql statement) with
  | Err _ => (Some (Rejected "create olap view parse failed"), n)
  | Ok (view_id, columns, dependencies) =>
      in_database database_id (create_olap_view_in view_id columns dependencies statement) n
  end.

Definition create_trigger_in (trigger_id : ustr) (statement : SqlRequest) : D ConnectorResponse :=
  let* created_at := now in
  do* try_catalog "create trigger failed" (register_trigger trigger_id (sql statement) []);
  define_object trigger_id SqlTrigger (sql statement) [] created_at "create trigger".

Definition execute_create_trigger_impl (database_id : ustr) (statement : SqlRequest) (n : Node) :
    option ConnectorResponse * Node :=
  match object_name statement with
  | None => (Some (Rejected "create trigger missing trigger identifier"), n)
  | Some trigger_id => in_database database_id (create_trigger_in trigger_id statement) n
  end.

Definition routine_label (is_create_function : bool) : string :=
  if is_create_function then "create function" else "create procedure".

Definition create_stored_procedure_in (is_create_function : bool) (procedure_id : ustr) (statement : SqlRequest) :
    D ConnectorResponse :=
  let* created_at := now in
  do* (if is_create_function then
         let* return_type :=
           some_or_reject "create function validation setup failed"
             (parse_create_function_return_type_from_statement (sql statement)) in
         if validate_function (sql statement) (normalize_identifier procedure_id) return_type then done tt
         else reject "create function validation failed"
       else done tt);
  do* try_catalog (routine_label is_create_function +:+ " failed")
        (register_stored_procedure procedure_id (sql statement) []);
  define_object procedure_id SqlStoredProcedure (sql statement) [] created_at (routine_label is_create_function).

Definition execute_create_stored_procedure_impl (database_id : ustr) (statement : SqlRequest) (n : Node) :
    option ConnectorResponse * Node :=
  let is_create_function := starts_with (to_ascii_lowercase (trim (sql statement))) (lit "create function") in
  match object_name statement with
  | None => (Some (Rejected (routine_label is_create_function +:+ " missing identifier")), n)
  | Some procedure_id =>
      in_database database_id (create_stored_procedure_in is_create_function procedure_id statement) n
  end.

Definition alter_view_in (view_id : ustr) (statement : SqlRequest) : D ConnectorResponse :=
  let* found := look (is_view view_id) in
  if negb found then reject "alter view failed: not found"
  else
    let text := replace_first (to_ascii_lowercase (sql statement)) (lit "alter view") (lit "create view") in
    let dependencies := default [] (parse_create_view_dependencies_from_sql text) in
    let* stream := look (catalog_entity_wal_stream_id view_id) in
    let* entity_wal_id := some_or_reject "alter view WAL stream lookup failed" stream in
    do* try_catalog "alter view definition apply failed"
          (set_sql_definition view_id SqlView (sql statement) dependencies);
    let* wal_id := look (λ s, catalog_id s.2) in
    let* created_at := now in
    do* append_sql_definition_upsert_with_wal wal_id entity_wal_id view_id SqlView (sql statement) dependencies created_at
          "alter view";
    do* persist_entity_snapshot "alter view entity snapshot write failed" view_id;
    done (Applied 1).

Definition execute_alter_view_impl (database_id : ustr) (statement : SqlRequest) (n : Node) :
    option ConnectorResponse * Node :=
  match object_name statement with
  | None => (Some (Rejected "alter view missing view identifier"), n)
  | Some view_id => in_database database_id (alter_view_in view_id statement) n
  end.

(** ** TRUNCATE TABLE *)

(** The loop over the indexes of the table, in the order of its map. *)
Fixpoint clear_indexes (stream : ustr) (ixs : list DatabaseIndex) : D unit :=
  match ixs with
  | [] => done tt
  | i :: ixs =>
      do* (if should_track_index i then
             index_mut stream (index_id i) (λ state, rebuild_with_row_refs [] [] (set_index (Some i) state))
           else done tt);
      clear_indexes stream ixs
  end.

(** The caches of the accessors that the statement clears are no part of the state. *)
Definition truncate_table_in (object_id : ustr) : D ConnectorResponse :=
  let id := normalize_identifier object_id in
  let* t := look (table id) in
  let* t := some_or_reject "truncate table failed: table not found" t in
  let* stream := look (catalog_entity_wal_stream_id id) in
  let stream := default id stream in
  let* timestamp := now in
  do* try_wal "truncate table failed"
        (compact_stream_to_latest_schema_and_metadata stream (from_username (lit "server")) timestamp);
  do* clear_indexes stream (derived_indexes_for_table (snd <$> iter_order _ (table_indexes t)));
  done (Applied 0).

Definition execute_truncate_table_impl (database_id : ustr) (statement : SqlRequest) (n : Node) :
    option ConnectorResponse * Node :=
  match object_name statement with
  | None => (Some (Rejected "truncate table missing table identifier"), n)
  | Some id => in_database database_id (truncate_table_in id) n
  end.

(** ** DROP *)

Definition drop_entity_operation_metadata (op : SqlOperation) : option (DatabaseObjectType * option SqlObjectKind) :=
  match op with
  | SqlDropTable => Some (TypeTable, None)
  | SqlDropView => Some (TypeView, Some SqlView)
  | SqlDropTrigger => Some (TypeTrigger, Some SqlTrigger)
  | SqlDropStoredProcedure => Some (TypeStoredProcedure, Some SqlStoredProcedure)
  | _ => None
  end.

(** The record of a dropped table, and what is left of its files. *)
Definition log_dropped_table (id wal_id : ustr) (stream : option ustr) (timestamp : Z) : D unit :=
  do* index_op (remove_table_indexes (default id stream));
  let* epoch := look (λ s, schema_epoch s.2) in
  let* encoded :=
    some_or_reject "drop table lifecycle payload encode failed"
      (serialize {| tl_table_id := id; tl_action := TableDrop; tl_schema_epoch := epoch; tl_entity_id := None;
                    tl_schema := None |}) in
  do* try_wal "drop table lifecycle WAL append failed" (append_payload_record wal_id TableLifecycle encoded timestamp);
  remove_table_stream_files id.

Definition log_dropped_definition (id wal_id : ustr) (k : option SqlObjectKind) (timestamp : Z) : D unit :=
  match k with
  | None => panics
  | Some k =>
      let* epoch := look (λ s, schema_epoch s.2) in
      let* encoded :=
        some_or_reject "drop sql payload encode failed"
          (serialize {| sd_object_id := id; sd_object_kind := k; sd_action := SqlDrop; sd_schema_epoch := epoch;
                        sd_sql := []; sd_dependencies := [] |}) in
      try_wal "drop sql definition WAL append failed" (append_payload_record wal_id SqlDefinitionChange encoded timestamp)
  end.

(** A table has a stream of its own, which is deleted; the other objects share that of the database. *)
Definition drop_object_in (has_if_exists : bool) (object_id : ustr) (op : SqlOperation) : D ConnectorResponse :=
  let id := normalize_identifier object_id in
  let* (ty, k) := some_or_reject "drop entity-object handler does not support operation" (drop_entity_operation_metadata op) in
  let* found := look (object ty id) in
  match found with
  | None => if has_if_exists then respond (Applied 0) else reject "drop failed: not found"
  | Some _ =>
      let* stream := look (catalog_entity_wal_stream_id id) in
      do* try_catalog "drop failed" (drop_object ty id);
      do* remove_entity_snapshot_file id;
      let* wal_id := look (λ s, catalog_id s.2) in
      do* match stream with
          | Some stream_id =>
              if str_eqb stream_id wal_id then done tt else try_wal "drop WAL delete failed" (delete_stream stream_id)
          | None => done tt
          end;
      let* timestamp := now in
      do* match ty with
          | TypeTable => log_dropped_table id wal_id stream timestamp
          | _ => log_dropped_definition id wal_id k timestamp
          end;
      done (Applied 1)
  end.

Definition execute_drop_entity_object (database_id : ustr) (statement : SqlRequest) (n : Node) :
    option ConnectorResponse * Node :=
  match object_name statement with
  | None => (Some (Rejected "drop operation missing object identifier"), n)
  | Some id =>
      in_database database_id
        (drop_object_in (drop_statement_has_if_exists (sql statement)) id (operation statement)) n
  end.

Definition execute_drop_database (statement : SqlRequest) (n : Node) : option ConnectorResponse * Node :=
  match object_name statement with
  | None => (Some (Rejected "drop database missing database identifier"), n)
  | Some name =>
      match resolve_catalog_mut (catalogs n) name ≫= λ key, (λ c, (key, c)) <$> catalogs n !! key with
      | None =>
          (Some (if drop_statement_has_if_exists (sql statement) then Applied 0
                 else Rejected "drop database failed: database not found"), n)
      | Some (key, c) =>
          let s := (node_store n, c) in
          let indexes :=
            foldl (λ ixs id, remove_table_indexes (default id (catalog_entity_wal_stream_id id s)) ixs)
              (node_indexes n) (table_ids s) in
          let '(removed, w) := remove_file (catalog_path node_data_dir c) (world (node_wal n)) in
          (Some (match removed with
                 | None => Rejected "drop database failed: cannot remove catalog file"
                 | Some _ => Applied 1
                 end),
           {| node_store := node_store n; catalogs := delete key (catalogs n); node_wal := set_world w (node_wal n);
              node_indexes := indexes; node_cache := node_cache n |})
      end
  end.

Definition execute_drop_directive_impl (database_id : ustr) (statement : SqlRequest) (n : Node) :
    option ConnectorResponse * Node :=
  match operation statement with
  | SqlDropDatabase => execute_drop_database statement n
  | SqlDropOther => execute_drop_other_object database_id statement n
  | op =>
      match drop_entity_operation_metadata op with
      | Some _ => execute_drop_entity_object database_id statement n
      | None => (Some (Rejected "drop directive is not supported for operation"), n)
      end
  end.

End handlers.
