(* ===== verification/DdlFacts.v ===== *)
(** * What definition statements leave in the log

    A catalog is recovered by replaying the log of its database.  This file proves what the statements of [Ddl.v],
    once acknowledged, have written there, whatever system calls failed meanwhile, and what a replay makes of it:

    - [created_table_replays]: a created table comes back with its id, schema and metadata and with the indexes of
      its schema, at revision one;
    - [composite_index_lost]: its indexes of several columns do not;
    - [first_alter_lost]: nor does the first change of its schema, which is logged under the revision that the
      replayed table already has. *)

From Stdlib Require Import ZArith Lia.
From stdpp Require Import base gmap list strings.
From S2P Require Import Prelude Settings Record RowPayload WalFile Wal WalManager Identifiers Text LiveRows Replay WalOps Schema.
From S2P Require Import RowCodec FieldValue DatabaseIndex RuntimeIndex Indexors IndexStore AlterTable Migration Entities.
From S2P Require Import Catalog CatalogFacts CatalogReplay CatalogFile Statements DdlText Ddl.

Local Open Scope Z_scope.

(** ** Handlers that complete *)

Lemma chain_done {A B} (m : D A) (k : A → D B) s y s' :
  chain m k s = (Done y, s') → ∃ x s1, m s = (Done x, s1) ∧ k x s1 = (Done y, s').
Proof. unfold chain. destruct (m s) as [[x|r|] s1]; [eauto|done..]. Qed.

Lemma some_done {A} message (o : option A) s x s' : some_or_reject message o s = (Done x, s') → o = Some x ∧ s' = s.
Proof. destruct o; [by intros [= -> ->]|done]. Qed.

Lemma ok_done {A E} message (r : result A E) s x s' : ok_or_reject message r s = (Done x, s') → r = Ok x ∧ s' = s.
Proof. destruct r; [by intros [= -> ->]|done]. Qed.

Lemma try_catalog_done {A} message (m : M A) s x s' :
  try_catalog message m s = (Done x, s') → ∃ c, m (db s) = (Ok x, c) ∧ s' = mkDb c (db_wal s) (db_indexes s) (db_cache s).
Proof.
  intros (r & s1 & E & [-> ->]%ok_done)%chain_done. unfold catalog_op in E.
  destruct (m (db s)) as [r0 c]. injection E as -> <-. eauto.
Qed.

Lemma try_wal_done {A} message (f : WalState → result A string * WalState) s x s' :
  try_wal message f s = (Done x, s') →
  ∃ wal, f (db_wal s) = (Ok x, wal) ∧ s' = mkDb (db s) wal (db_indexes s) (db_cache s).
Proof.
  intros (r & s1 & E & [-> ->]%ok_done)%chain_done. unfold wal_op in E.
  destruct (f (db_wal s)) as [r0 wal]. injection E as -> <-. eauto.
Qed.

Section wal.
Context `{RowCrypto} `{Zlib} `{Env} `{Digest} `{BinarySearch}.
Context `{Bincode EncryptedRowPayloadEnvelope} `{Bincode LegacyEncryptedRowPayloadEnvelope} `{Bincode TransactionRecord}.

(** ** One stream among others *)

Lemma hydrate_other wal_id key0 s key :
  key ≠ key0 → storage (hydrate_stream_if_needed wal_id key0 s) !! key = storage s !! key.
Proof.
  intros Hne. unfold hydrate_stream_if_needed. destruct (negb _); [done|]. destruct (WalManager.data_dir s); [|done].
  destruct (storage s !! key0); [done|]. destruct (disk (world s) !! _).
  - destruct (read_file _ _) as [content w]. unfold put_high_water. destruct (latest_write_timestamp _); simpl;
      by rewrite lookup_insert_ne.
  - simpl. by rewrite lookup_insert_ne.
Qed.

Lemma send_other key0 e1 e2 command s r s' key :
  key ≠ key0 → send_command key0 e1 e2 command s = (r, s') → storage s' !! key = storage s !! key.
Proof.
  intros Hne. unfold send_command. destruct (get_or_spawn_worker_for_stream_key key0 s) as [wk s1] eqn:Esp.
  assert (storage s1 !! key = storage s !! key) as E1.
  { revert Esp. unfold get_or_spawn_worker_for_stream_key. destruct (workers s !! key0); [by intros [= <- <-]|].
    destruct (start_worker _ _) as [wk0 w]. destruct (match _ with Durable => _ | Ephemeral => _ end);
      intros [= <- <-]; [|done]. simpl. destruct (storage s !! key0); [done|]. by rewrite lookup_insert_ne. }
  destruct (status wk); [|intros [= _ <-]; done..].
  destruct (command wk _ (world s1)) as [[[r0 wk'] entries'] w']. intros [= _ <-]. simpl. by rewrite lookup_insert_ne.
Qed.

Lemma append_other wal_id record context s r s' key :
  obfuscated_stream_key wal_id ≠ Ok key → append_with_context wal_id record context s = (r, s') →
  storage s' !! key = storage s !! key.
Proof.
  intros Hk. unfold append_with_context. destruct (obfuscated_stream_key wal_id) as [key0|e]; [|by intros [= _ <-]].
  assert (key ≠ key0) as Hne by congruence. destruct (send_command _ _ _ _ _) as [r1 s1] eqn:E.
  apply (send_other _ _ _ _ _ _ _ key Hne) in E. rewrite (hydrate_other _ _ _ _ Hne) in E.
  destruct r1; intros [= _ <-]; [|done]. unfold raise_high_water. by destruct (write_timestamp_if_data_write record).
Qed.

(** ** Records of the catalog *)

(** The stream is loaded with these records and has room for [n] more. *)
Definition loaded (s : WalState) (key : ustr) (entries : list TransactionRecord) (n : nat) : Prop :=
  storage s !! key = Some entries ∧ log_wf entries ∧ fits entries n.

(** The record the server writes behind a stream. *)
Definition logged (entries : list TransactionRecord) (k : TransactionKind) (payload : bytes) (ts : Z) : TransactionRecord :=
  with_payload (next_transaction_id (id <$> last entries)) None (id <$> last entries) ts (from_username (lit "server")) k
    payload.

Lemma append_logged wal_id key k payload ts s s' entries n :
  obfuscated_stream_key wal_id = Ok key → k ≠ WriteBegin → loaded s key entries (S n) →
  append_payload_record wal_id k payload ts s = (Ok tt, s') →
  loaded s' key (entries ++ [logged entries k payload ts]) n.
Proof.
  intros Hk Hb (Hs & Hwf & Hf). unfold append_payload_record, append_payload_record_with_group.
  rewrite (latest_id_loaded wal_id key s entries Hk Hs).
  assert (eqb k WriteBegin = false) as -> by (by apply eqb_false).
  fold (logged entries k payload ts). destruct (append_with_context _ _ _ s) as [[[]|e] s1] eqn:Ea; [|done].
  intros [= <-]. eapply append_next_loaded in Ea as [Es Hwf']; [|done|done|done| |done|].
  - split; [by rewrite Es, lookup_insert_eq|]. split; [done|]. unfold fits in *. rewrite last_snoc. simpl.
    destruct (last entries) as [l|]; simpl; [|lia]. rewrite Z.mod_small; unfold u64_max in *; lia.
  - unfold fits in *. destruct (last entries); lia.
  - intros x Hx. by apply last_id_elem.
Qed.

Lemma append_elsewhere wal_id k payload ts s r s' key entries n :
  obfuscated_stream_key wal_id ≠ Ok key → loaded s key entries n →
  append_payload_record wal_id k payload ts s = (r, s') → loaded s' key entries n.
Proof.
  intros Hk [Hs Hl]. unfold append_payload_record, append_payload_record_with_group.
  destruct (latest_transaction_id wal_id s) as [last_id s0] eqn:E0.
  assert (storage s0 !! key = storage s !! key) as E1.
  { unfold latest_transaction_id, with_records in E0. destruct (obfuscated_stream_key wal_id) as [key0|e]; [|by simplify_eq].
    destruct (_ <$> _); simplify_eq; by rewrite hydrate_other by congruence. }
  destruct (append_with_context _ _ _ s0) as [r1 s1] eqn:Ea. apply (append_other _ _ _ _ _ _ key Hk) in Ea.
  destruct r1; intros [= _ <-]; split; congruence.
Qed.

Lemma pair_logged wal_id entity_wal_id key k payload ts m1 m2 s s' entries n :
  obfuscated_stream_key wal_id = Ok key → obfuscated_stream_key entity_wal_id ≠ Ok key → k ≠ WriteBegin →
  loaded (db_wal s) key entries (S n) →
  append_payload_record_pair wal_id entity_wal_id k payload ts m1 m2 s = (Done tt, s') →
  ∃ wal, s' = mkDb (db s) wal (db_indexes s) (db_cache s)
    ∧ loaded wal key (entries ++ [logged entries k payload ts]) n.
Proof.
  intros Hk He Hb Hl ([] & s1 & (wal1 & E1 & ->)%try_wal_done & (wal2 & E2 & ->)%try_wal_done)%chain_done.
  exists wal2. split; [done|]. eapply append_elsewhere; [exact He| |exact E2]. by eapply append_logged.
Qed.

End wal.

Section ddl.
Context `{RowCrypto} `{Zlib} `{Env} `{Digest} `{HashOrder} `{!HashOrderLaws} `{SqlFrontEnd} `{SchemaHasher} `{FieldValues}.
Context `{UuidText} `{BinarySearch}.
Context {ordinal_bincode : Bincode OrdinalRowPayload} {map_bincode : Bincode row_map}.
Context {value_list_bincode : Bincode (list bytes)}.
Context `{Bincode EncryptedRowPayloadEnvelope} `{Bincode LegacyEncryptedRowPayloadEnvelope} `{Bincode TransactionRecord}.
Context `{Bincode DatabaseCatalogSnapshot} `{Bincode DatabaseEntity}.
Context (node_data_dir : ustr).

(** ** Tables in the catalog *)

Lemma with_table_mut_inv {R} id (apply : DatabaseTable → result (R * DatabaseTable) DatabaseError) s k t r s' :
  table_at s id k t → with_table_mut id apply s = (Ok r, s') →
  ∃ t', apply t = Ok (r, t')
    ∧ (table_entity_id t' = table_entity_id t → table_id t' = table_id t → table_at s' id k t' ∧ table_changed s s' k t').
Proof.
  intros Ht E. destruct (apply t) as [[r' t']|e] eqn:Ea.
  - destruct Ht as [Hwf Hd Ee]. pose proof (with_table_mut_ok id apply s k t r' t' Hwf Hd Ee Ea) as E'.
    rewrite E in E'. injection E' as <- ->. exists t'. split; [done|]. intros Hk Hn.
    destruct (table_step id apply s k t r t' (Build_table_at _ _ _ _ Hwf Hd Ee) Ea Hk Hn) as (s1 & E1 & Ht1 & Hc1).
    rewrite E in E1. by simplify_eq.
  - destruct Ht as [Hwf Hd Ee]. rewrite (with_table_mut_err id apply s k t e Hwf Hd Ee Ea) in E. done.
Qed.

Lemma register_inv id sch eid s s' :
  catalog_wf s → register_table_with_entity_id id sch eid s = (Ok tt, s') →
  validate sch = Ok tt ∧ resolve_entity_key id s = None
  ∧ entities s !! table_entity_id (new_table (fresh_ids s.1 0%nat) id sch eid) = None.
Proof.
  intros Hwf. destruct s as [st c]. unfold register_table_with_entity_id, bind, lift, reads.
  destruct (validate sch) as [[]|e] eqn:Ev; [|done]. cbn [map_err].
  destruct (resolve_entity_key id (st, c)) eqn:Er; [done|]. cbn [is_none negb].
  set (st' := mkStore (heap st) (λ n, fresh_ids st (S n)) (clock st)).
  intros E. change (insert_entity_handle (EntityTable (new_table (fresh_ids st 0%nat) id sch eid)) (st', c) = (Ok tt, s')) in E.
  rewrite insert_entity_handle_eq in E. destruct (entity_handles (st', c).2 !! _) eqn:Eh; [done|]. clear E.
  split; [done|]. split; [done|]. simpl in Eh |- *. by rewrite lookup_entities; simpl; rewrite Eh.
Qed.

(** A table that has been created. *)
Lemma create_table_step id sch s s' :
  let eid := fresh_ids s.1 0%nat in
  let t := set_table_status StatusReady (DatabaseTable_new eid id sch (indexes_for_schema id sch)) in
  catalog_wf s → normalize_identifier id = id → create_table id sch s = (Ok tt, s') →
  validate sch = Ok tt ∧ resolve_entity_key id s = None ∧ entities s !! eid = None ∧ table_at s' id eid t
  ∧ entities s' = <[eid := EntityTable t]> (entities s)
  ∧ schema_epoch s'.2 = saturating_add (schema_epoch s.2) 1 ∧ catalog_id s'.2 = catalog_id s.2.
Proof.
  intros eid t Hwf Hid. unfold create_table, create_table_with_entity_id, bind. rewrite Hid.
  destruct (register_table_with_entity_id id sch None s) as [[[]|e] s1] eqn:E1; [|done].
  destruct (register_inv id sch None s s1 Hwf E1) as (Hv & Hr & Hn). simpl in Hn.
  destruct (register_step s id sch None Hwf Hv Hr Hn) as (s1' & E1' & Ht1 & He1 & Hp1 & Hc1 & _).
  rewrite E1 in E1'. injection E1' as <-. simpl in Ht1, He1.
  destruct (table_step id (changes table_begin_sync) s1 _ _ tt _ Ht1 eq_refl eq_refl eq_refl) as (s2 & E2 & Ht2 & [He2 Hc2]).
  destruct (table_step id (changes table_complete_sync) s2 _ _ tt _ Ht2 eq_refl eq_refl eq_refl) as (s3 & E3 & Ht3 & [He3 Hc3]).
  rewrite E2. cbn [table_sync_acknowledged_stub Z.leb Z.compare negb]. rewrite E3.
  destruct s3 as [st3 c3]. unfold bump_schema_epoch, update. intros [= <-]. simpl in Hc3. subst c3. split_and!; try done.
  - by apply (table_at_catalog st3 _ s2.2).
  - change (entities (st3, s2.2) = <[eid := EntityTable t]> (entities s)). by rewrite He3, He2, He1, !insert_insert_eq.
  - simpl. by rewrite Hc2, Hp1.
  - simpl. by rewrite Hc2.
Qed.

(** An index that CREATE TABLE adds for several columns. *)
Definition composite_index (id : ustr) (k : DatabaseIndexKind) (names : list ustr) : DatabaseIndex :=
  from_table_fields_with_origin id k Derived None (filter (λ name, name ≠ []) (normalize_identifier <$> names)).

Lemma composite_step id names k s k0 t index_id s' :
  table_at s id k0 t → normalize_identifier id = id →
  create_index_with_kind_and_origin id None names k Derived s = (Ok index_id, s') →
  let i := composite_index id k names in
  let t' := set_table_indexes (<[index_id := i]> (table_indexes t)) t in
  DatabaseIndex.index_id i = index_id ∧ table_indexes t !! index_id = None
  ∧ table_at s' id k0 t' ∧ entities s' = <[k0 := EntityTable t']> (entities s)
  ∧ schema_epoch s'.2 = saturating_add (schema_epoch s.2) 1 ∧ catalog_id s'.2 = catalog_id s.2.
Proof.
  intros Ht Hid. unfold create_index_with_kind_and_origin. rewrite Hid. fold (composite_index id k names).
  destruct (is_empty _); [done|]. unfold bind.
  match goal with |- context [with_table_mut id ?f s] => destruct (with_table_mut id f s) as [[r|e] s1] eqn:E end; [|done].
  destruct (with_table_mut_inv _ _ _ _ _ _ _ Ht E) as (t' & Ea & Hstep). clear E.
  destruct (negb _); [done|]. simpl in Ea. fold (composite_index id k names) in Ea.
  destruct (table_indexes t !! _) eqn:Ei; [done|]. injection Ea as <- <-.
  destruct (Hstep eq_refl eq_refl) as [Ht' [He' Hc']]. destruct s1 as [st1 c1].
  unfold bump_schema_epoch, update, ret. intros [= <- <-]. simpl in Hc'. subst c1.
  split_and!; [done|done|by apply (table_at_catalog st1 _ s.2)|done..].
Qed.

(** ** Payloads *)

(** What is read back of a payload: the name index of a schema is rebuilt. *)
Definition stored_schema_change (p : SchemaChangePayload) : SchemaChangePayload :=
  {| sc_table_id := sc_table_id p; sc_schema_revision := sc_schema_revision p; sc_schema_epoch := sc_schema_epoch p;
     sc_entity_id := sc_entity_id p; sc_schema := TableSchema_new (fields (sc_schema p)) |}.

Definition stored_table_lifecycle (p : TableLifecyclePayload) : TableLifecyclePayload :=
  {| tl_table_id := tl_table_id p; tl_action := tl_action p; tl_schema_epoch := tl_schema_epoch p;
     tl_entity_id := tl_entity_id p; tl_schema := (λ sch, TableSchema_new (fields sch)) <$> tl_schema p |}.

Context {sc_bincode : Bincode SchemaChangePayload} {sc_laws : BincodeLaws SchemaChangePayload stored_schema_change}.
Context {tl_bincode : Bincode TableLifecyclePayload} {tl_laws : BincodeLaws TableLifecyclePayload stored_table_lifecycle}.
Context {il_bincode : Bincode IndexLifecyclePayload} {il_laws : BincodeLaws IndexLifecyclePayload (λ p, p)}.
Context {em_bincode : Bincode EntityMetadataPayload} {em_laws : BincodeLaws EntityMetadataPayload (λ p, p)}.
Context {sd_bincode : Bincode SqlDefinitionPayload} {sd_laws : BincodeLaws SqlDefinitionPayload (λ p, p)}.

Definition readable {A} `{Bincode A} (x : A) : Prop := decode_budget x ≤ MAX_DECODE_BYTES.

Lemma read_back {A} `{Hb : Bincode A} (norm : A → A) `{!BincodeLaws A norm} x p :
  serialize x = Some p → readable x → deserialize p = Some (norm x).
Proof. intros E Hr. rewrite <- (app_nil_r p). by apply deserialize_serialize. Qed.

(** A record of the catalog with its payload. *)
Definition carries (r : TransactionRecord) (k : TransactionKind) (p : bytes) : Prop :=
  kind r = k ∧ payload_logical r = Some p.

(** A record with the encoding of a value. *)
Definition records {A} `{Bincode A} (r : TransactionRecord) (k : TransactionKind) (x : A) : Prop :=
  ∃ p, serialize x = Some p ∧ carries r k p.

Lemma logged_records {A} `{Bincode A} entries k p ts (x : A) : serialize x = Some p → records (logged entries k p ts) k x.
Proof. by exists p. Qed.

Lemma replay_carried r k p d s :
  carries r k p → decode k p = Some d → k ≠ SecurityChange → payload_error k ≠ None →
  replay_record r s = apply_decoded d s.
Proof.
  intros [Hk Hp] Hd Hs He. unfold replay_record. rewrite Hk, Hp, Hd. destruct (payload_error k); [|done].
  assert (eqb k SecurityChange = false) as -> by (by apply eqb_false). done.
Qed.

(** ** CREATE TABLE *)

(** The payload of an index of several columns. *)
Definition composite_payload (id : ustr) (k : DatabaseIndexKind) (names : list ustr) (epoch : Z) : IndexLifecyclePayload :=
  {| il_table_id := id; il_index_id := index_id (composite_index id k names); il_action := IndexCreate;
     il_schema_epoch := epoch; il_index := Some (composite_index id k names) |}.

Definition index_record (id : ustr) (ixs : list (DatabaseIndexKind * list ustr)) (r : TransactionRecord) : Prop :=
  ∃ k names epoch, (k, names) ∈ ixs ∧ records r IndexLifecycle (composite_payload id k names epoch).

(** What a handler reads of a table. *)
Lemma table_at_read s id k t : table_at s id k t → table id s = Some t.
Proof. intros [Hwf Hd Ee]. unfold table, with_table_read. by rewrite (entity_denotes s id k (EntityTable t)). Qed.

Lemma table_at_schema s id k t : table_at s id k t → table_schema id s = Some (schema t).
Proof. intros [Hwf Hd Ee]. unfold table_schema, with_table_read. by rewrite (entity_denotes s id k (EntityTable t)). Qed.

Lemma table_at_index s id k t i : table_at s id k t → index_in_table id i s = table_indexes t !! i.
Proof. intros Ht. unfold index_in_table. by rewrite (table_at_read _ _ _ _ Ht). Qed.

Lemma table_at_stream s id k t :
  table_at s id k t → table_temporary t = false →
  catalog_entity_wal_stream_id id s = Some (catalog_id s.2 ++ lit ":" ++ k).
Proof.
  intros [Hwf Hd Ee] Htmp. unfold catalog_entity_wal_stream_id, with_entity_read.
  rewrite (entity_denotes s id k (EntityTable t)) by done. simpl. rewrite Htmp. do 3 f_equal.
  by apply (wf_entity_key s k (EntityTable t)).
Qed.

Lemma table_at_identity s id k t : table_at s id k t → resolve_entity_key id s = Some k.
Proof. intros [Hwf Hd Ee]. by apply resolve_denotes. Qed.

Lemma table_at_now s id k t : table_at (db s) id k t → table_at (db (now s).2) id k t.
Proof. unfold now. destruct (db s) as [st c]. by apply table_at_catalog. Qed.

Lemma entities_now s : entities (db (now s).2) = entities (db s) ∧ (db (now s).2).2 = (db s).2 ∧ db_wal (now s).2 = db_wal s.
Proof. unfold now. by destruct (db s) as [st c]. Qed.

Lemma saturating_le a b : 0 ≤ b → a ≤ u64_max → a ≤ saturating_add a b ≤ u64_max.
Proof. unfold saturating_add. lia. Qed.

(** One index of several columns. *)
Lemma composite_logged id k names s s' eid t key entries n :
  create_composite_indexes id false [(k, names)] s = (Done tt, s') →
  table_at (db s) id eid t → normalize_identifier id = id → obfuscated_stream_key (catalog_id (db s).2) = Ok key →
  loaded (db_wal s) key entries (S n) → schema_epoch (db s).2 ≤ u64_max →
  let i := composite_index id k names in
  let t' := set_table_indexes (<[index_id i := i]> (table_indexes t)) t in
  ∃ r, loaded (db_wal s') key (entries ++ [r]) n ∧ index_record id [(k, names)] r ∧ table_indexes t !! index_id i = None
    ∧ table_at (db s') id eid t' ∧ entities (db s') = <[eid := EntityTable t']> (entities (db s))
    ∧ schema_epoch (db s).2 ≤ schema_epoch (db s').2 ≤ u64_max ∧ catalog_id (db s').2 = catalog_id (db s).2.
Proof.
  intros E Ht Hid Hk Hl Hep i t'. cbn [create_composite_indexes] in E.
  apply chain_done in E as (iid & s1 & (c1 & E1 & ->)%try_catalog_done & E).
  destruct (composite_step _ _ _ _ _ _ _ _ Ht Hid E1) as (Hi & Hnone & Ht1 & He1 & Hp1 & Hc1).
  fold i in Hi, Hnone, Ht1, He1. subst iid. fold t' in Ht1, He1.
  apply chain_done in E as ([] & s2 & E & [= <-]). unfold chain at 1, look at 1 in E. cbv beta iota in E.
  cbn [db] in E. rewrite (table_at_index _ _ _ _ _ Ht1) in E. unfold t' in E at 1. simpl table_indexes in E.
  rewrite lookup_insert_eq in E. cbn [some_or_reject] in E.
  unfold chain at 1, done at 1, chain at 1, look at 1 in E. cbv beta iota in E. cbn [db] in E.
  apply chain_done in E as (p & s3 & [Ep ->]%some_done & E).
  unfold chain at 1, look at 1 in E. cbv beta iota in E. cbn [db] in E.
  set (s1 := mkDb c1 (db_wal s) (db_indexes s) (db_cache s)) in *.
  apply chain_done in E as (ts & s3 & En & (wal & Ea & ->)%try_wal_done).
  assert (s3 = (now s1).2) as -> by (by rewrite En). destruct (entities_now s1) as (He3 & Hc3 & Hw3). rewrite Hw3 in Ea.
  cbn [db db_wal]. rewrite He3, Hc3. exists (logged entries IndexLifecycle p ts). split_and!.
  - eapply append_logged; [|done|exact Hl|exact Ea]. by rewrite Hc1.
  - exists k, names, (schema_epoch c1.2). split; [apply list_elem_of_here|by apply logged_records].
  - done.
  - by apply table_at_now.
  - done.
  - change (schema_epoch (db s).2 ≤ schema_epoch c1.2). rewrite Hp1. by apply saturating_le.
  - change (schema_epoch c1.2 ≤ u64_max). rewrite Hp1. by apply saturating_le.
  - done.
Qed.

Lemma composites_cons id tmp x ixs s s' :
  create_composite_indexes id tmp (x :: ixs) s = (Done tt, s') →
  ∃ s1, create_composite_indexes id tmp [x] s = (Done tt, s1) ∧ create_composite_indexes id tmp ixs s1 = (Done tt, s').
Proof.
  destruct x as [k names]. cbn [create_composite_indexes].
  intros (iid & s1 & E1 & ([] & s2 & E2 & E3)%chain_done)%chain_done. exists s2. split; [|done].
  unfold chain at 1. rewrite E1. unfold chain at 1. by rewrite E2.
Qed.

(** All of them: the table has them, the log has a record of each. *)
Lemma composites_logged id ixs s s' eid t key entries n :
  create_composite_indexes id false ixs s = (Done tt, s') →
  table_at (db s) id eid t → normalize_identifier id = id → obfuscated_stream_key (catalog_id (db s).2) = Ok key →
  loaded (db_wal s) key entries (length ixs + n) → schema_epoch (db s).2 ≤ u64_max →
  ∃ rs m, loaded (db_wal s') key (entries ++ rs) n ∧ Forall (index_record id ixs) rs ∧ length rs = length ixs
    ∧ table_indexes t ⊆ m
    ∧ (∀ k names, (k, names) ∈ ixs → let i := composite_index id k names in
         m !! index_id i = Some i ∧ table_indexes t !! index_id i = None)
    ∧ table_at (db s') id eid (set_table_indexes m t)
    ∧ entities (db s') = <[eid := EntityTable (set_table_indexes m t)]> (entities (db s))
    ∧ schema_epoch (db s).2 ≤ schema_epoch (db s').2 ≤ u64_max ∧ catalog_id (db s').2 = catalog_id (db s).2.
Proof.
  revert s t entries. induction ixs as [|[k names] ixs IH]; intros s t entries E Ht Hid Hk Hl Hep.
  { injection E as <-. exists [], (table_indexes t). rewrite app_nil_r.
    assert (set_table_indexes (table_indexes t) t = t) as -> by (by destruct t).
    split_and!; try done; [intros ?? []%not_elem_of_nil|]. symmetry. apply insert_id, Ht. }
  apply composites_cons in E as (s1 & E1 & E).
  destruct (composite_logged id k names s s1 eid t key entries (length ixs + n) E1 Ht Hid Hk Hl Hep)
    as (r & Hl1 & Hr & Hnone & Ht1 & He1 & [Hp1 Hp1'] & Hc1).
  set (i := composite_index id k names) in *.
  destruct (IH s1 _ (entries ++ [r]) E Ht1 Hid) as (rs & m & Hl2 & Hrs & Hlen & Hsub & Hm & Ht2 & He2 & [Hp2 Hp2'] & Hc2);
    [by rewrite Hc1|done|done|]. simpl table_indexes in Hsub, Hm.
  assert (m !! index_id i = Some i) as Hmi by (eapply lookup_weaken; [apply lookup_insert_eq|done]).
  exists (r :: rs), m. split_and!.
  - by rewrite <- app_assoc in Hl2.
  - destruct Hr as (k0 & n0 & ep & [[= -> ->]|Hin]%elem_of_cons & Hr); [|by apply not_elem_of_nil in Hin].
    constructor; [exists k, names, ep; split; [apply list_elem_of_here|done]|].
    eapply Forall_impl; [exact Hrs|]. intros r' (k1 & n1 & ep1 & Hin & ?). exists k1, n1, ep1.
    split; [by apply list_elem_of_further|done].
  - simpl. lia.
  - etrans; [|exact Hsub]. by apply insert_subseteq.
  - intros k1 n1 [[= -> ->]|Hin]%elem_of_cons; [done|]. destruct (Hm k1 n1 Hin) as [Hm1 Hm2]. split; [done|].
    by apply lookup_insert_None in Hm2 as [Hm2 _].
  - done.
  - by rewrite He2, He1, insert_insert_eq.
  - lia.
  - done.
  - congruence.
Qed.

(** The payloads of a new table. *)
Definition new_schema_payload (id eid : ustr) (epoch : Z) (sch : TableSchema) : SchemaChangePayload :=
  {| sc_table_id := id; sc_schema_revision := 1; sc_schema_epoch := epoch; sc_entity_id := Some eid; sc_schema := sch |}.
Definition new_lifecycle_payload (id eid : ustr) (epoch : Z) (sch : TableSchema) : TableLifecyclePayload :=
  {| tl_table_id := id; tl_action := TableCreate; tl_schema_epoch := epoch; tl_entity_id := Some eid; tl_schema := Some sch |}.
Definition new_metadata_payload (id : ustr) (ts : Z) : EntityMetadataPayload :=
  {| em_entity_id := id; em_metadata := server_metadata ts |}.

Lemma new_table_logged id sch ts s s' eid t key entries n :
  log_new_table id sch ts s = (Done tt, s') →
  table_at (db s) id eid t → table_temporary t = false → schema t = sch → normalize_identifier id = id →
  obfuscated_stream_key (catalog_id (db s).2) = Ok key →
  obfuscated_stream_key (catalog_id (db s).2 ++ lit ":" ++ eid) ≠ Ok key →
  loaded (db_wal s) key entries (3 + n) →
  let epoch := schema_epoch (db s).2 in
  let t' := set_table_metadata (server_metadata ts) t in
  ∃ r1 r2 r3, loaded (db_wal s') key (entries ++ [r1; r2; r3]) n
    ∧ records r1 SchemaChange (new_schema_payload id eid epoch sch)
    ∧ records r2 TableLifecycle (new_lifecycle_payload id eid epoch sch)
    ∧ records r3 MetadataChange (new_metadata_payload id ts)
    ∧ table_at (db s') id eid t' ∧ entities (db s') = <[eid := EntityTable t']> (entities (db s)) ∧ (db s').2 = (db s).2.
Proof.
  intros E Ht Htmp Hsch Hid Hk He Hl epoch t'. unfold log_new_table in E.
  unfold chain at 1, look at 1 in E. cbv beta iota in E.
  unfold chain at 1, look at 1 in E. cbv beta iota in E. rewrite (table_at_stream _ _ _ _ Ht Htmp) in E. cbn [default from_option Datatypes.id] in E.
  unfold chain at 1, look at 1 in E. cbv beta iota in E. rewrite (table_at_identity _ _ _ _ Ht) in E. cbn [default from_option Datatypes.id] in E.
  unfold chain at 1, look at 1 in E. cbv beta iota in E.
  apply chain_done in E as (p1 & s1 & [Ep1 ->]%some_done & E).
  apply chain_done in E as ([] & s1 & E1 & E).
  eapply (pair_logged _ _ key _ _ _ _ _ _ _ entries (2 + n)) in E1 as (w1 & -> & Hl1); [|done..].
  unfold chain at 1, look at 1 in E. cbv beta iota in E. cbn [db] in E.
  unfold chain at 1, look at 1 in E. cbv beta iota in E. cbn [db] in E.
  rewrite (table_at_schema _ _ _ _ Ht), Hsch in E. cbn [default from_option Datatypes.id] in E.
  apply chain_done in E as (p2 & s2 & [Ep2 ->]%some_done & E).
  apply chain_done in E as ([] & s2 & E2 & E).
  eapply (pair_logged _ _ key _ _ _ _ _ _ _ _ (1 + n)) in E2 as (w2 & -> & Hl2); [|done..|exact Hl1].
  apply chain_done in E as ([] & s3 & (c3 & E3 & ->)%try_catalog_done & E). cbn [db db_wal db_indexes db_cache] in *.
  unfold set_entity_metadata in E3. fold (new_metadata_payload id ts) in E3.
  destruct (apply_table_metadata (db s) id eid t (new_metadata_payload id ts) Ht Hid) as (c3' & E3' & Ht3 & He3 & Hc3).
  rewrite E3 in E3'. injection E3' as <-.
  apply chain_done in E as (p3 & s4 & [Ep3 ->]%some_done & E).
  eapply (pair_logged _ _ key _ _ _ _ _ _ _ _ n) in E as (w4 & -> & Hl4); [|done..|exact Hl2].
  cbn [db db_wal]. rewrite <- !app_assoc in Hl4. cbn [app] in Hl4.
  eexists _, _, _. split; [exact Hl4|]. split_and!; try done; by apply logged_records.
Qed.

(** A table as CREATE TABLE makes it. *)
Definition created_table (eid id : ustr) (status : ObjectStatus) (revision : Z) (sch : TableSchema)
    (ixs : gmap ustr DatabaseIndex) (ts : Z) : DatabaseTable :=
  {| table_entity_id := eid; table_id := id; table_status := status; schema_revision := revision; schema := sch;
     table_indexes := ixs; table_temporary := false; table_metadata := server_metadata ts |}.

Lemma create_table_logged statement plan s s' key entries n :
  let id := normalize_identifier (plan_table_id plan) in
  let eid := fresh_ids (db s).1 0%nat in
  let ts := clock (db s).1 0%nat in
  let sch := plan_schema plan in
  create_table_plan_from_statement (sql statement) = Some plan → plan_temporary plan = false →
  catalog_wf (db s) → schema_epoch (db s).2 ≤ u64_max →
  obfuscated_stream_key (catalog_id (db s).2) = Ok key →
  obfuscated_stream_key (catalog_id (db s).2 ++ lit ":" ++ eid) ≠ Ok key →
  loaded (db_wal s) key entries (length (plan_composite_indexes plan) + (3 + n)) →
  create_table_in false statement s = (Done (Applied 1), s') →
  let epoch := schema_epoch (db s').2 in
  ∃ rs r1 r2 r3 m, loaded (db_wal s') key (entries ++ rs ++ [r1; r2; r3]) n
    ∧ Forall (index_record id (plan_composite_indexes plan)) rs
    ∧ records r1 SchemaChange (new_schema_payload id eid epoch sch)
    ∧ records r2 TableLifecycle (new_lifecycle_payload id eid epoch sch)
    ∧ records r3 MetadataChange (new_metadata_payload id ts)
    ∧ validate sch = Ok tt ∧ indexes_for_schema id sch ⊆ m
    ∧ (∀ k names, (k, names) ∈ plan_composite_indexes plan → let i := composite_index id k names in
         m !! index_id i = Some i ∧ indexes_for_schema id sch !! index_id i = None)
    ∧ table_at (db s') id eid (created_table eid id StatusReady 0 sch m ts)
    ∧ entities (db s') = <[eid := EntityTable (created_table eid id StatusReady 0 sch m ts)]> (entities (db s))
    ∧ schema_epoch (db s).2 ≤ epoch ≤ u64_max ∧ catalog_id (db s').2 = catalog_id (db s).2.
Proof.
  intros id eid ts sch Hplan Htmp Hwf Hep Hk He Hl E epoch. assert (Hid : normalize_identifier id = id) by apply normalize_identifier_idempotent.
  unfold create_table_in in E. rewrite Hplan in E. unfold chain at 1, some_or_reject at 1, done at 1 in E. cbv beta iota in E.
  fold id in E. unfold chain at 1, look at 1 in E. cbv beta iota in E. destruct (table id (db s)); [done|].
  apply chain_done in E as (ts' & s1 & En & E). destruct s as [[st c] wal ixs cache]. injection En as <- <-.
  rewrite Htmp in E. apply chain_done in E as ([] & s2 & (c2 & E2 & ->)%try_catalog_done & E). cbn [db db_wal db_indexes db_cache] in *.
  destruct (create_table_step id sch (mkStore (heap st) (fresh_ids st) (λ n, clock st (S n)), c) c2) as
    (Hv & Hr & Hn & Ht2 & He2 & Hp2 & Hc2); [by apply wf_draw|done|done|]. clear E2.
  change (entities (mkStore (heap st) (fresh_ids st) (λ n, clock st (S n)), c)) with (entities (st, c)) in He2.
  apply chain_done in E as ([] & s3 & E3 & E). simpl in Hp2, Hc2.
  destruct (composites_logged id _ _ _ eid _ key entries (3 + n) E3 Ht2 Hid)
    as (rs & m & Hl3 & Hrs & _ & Hsub & Hm & Ht3 & He3 & Hp3 & Hc3);
    [cbn [db]; by rewrite Hc2|done|cbn [db]; rewrite Hp2; by apply saturating_le|].
  cbn [db] in He3, Hp3, Hc3. simpl table_indexes in Hsub, Hm.
  apply chain_done in E as ([] & s4 & E4 & [= <-]).
  destruct (new_table_logged id sch _ _ _ eid _ key (entries ++ rs) n E4 Ht3 eq_refl eq_refl Hid)
    as (r1 & r2 & r3 & Hl4 & H1' & H2' & H3' & Ht4 & He4 & Hc4); [by rewrite Hc3, Hc2..|exact Hl3|].
  exists rs, r1, r2, r3, m. rewrite <- app_assoc in Hl4.
  assert (epoch = schema_epoch (db s3).2) as Hepoch by (unfold epoch; by rewrite Hc4). rewrite Hepoch.
  pose proof (saturating_le (schema_epoch c) 1 ltac:(lia) Hep) as Hs.
  split_and!; try done.
  - by rewrite He4, He3, He2, !insert_insert_eq.
  - simpl. lia.
  - lia.
  - simpl. rewrite Hc4. congruence.
Qed.

(** ** Replaying a created table *)

(** The index of a table that is not there is skipped. *)
Lemma index_records_skipped id ixs rs j s :
  catalog_wf s → normalize_identifier id = id → resolve_entity_key id s = None →
  (∀ k names epoch, (k, names) ∈ ixs → readable (composite_payload id k names epoch)) →
  Forall (index_record id ixs) rs → ∃ j', replay_records rs j s = (Ok j', s).
Proof.
  intros Hwf Hid Hr Hread Hrs. revert j. induction Hrs as [|r rs (k & names & epoch & Hin & p & Hp & Hc) _ IH]; intros j; [by exists j|].
  cbn [replay_records]. unfold bind. rewrite (replay_carried r _ p (DecodedIndexLifecycle (composite_payload id k names epoch)) s Hc);
    [|simpl; by rewrite (read_back _ _ _ Hp (Hread k names epoch Hin))|done..].
  assert (∃ b, apply_decoded (DecodedIndexLifecycle (composite_payload id k names epoch)) s = (Ok b, s)) as [b ->]; [|apply IH].
  simpl. unfold tolerate, apply_index_lifecycle, bind, reads. destruct (negb _); [by exists true|].
  unfold composite_payload. cbn [il_action il_index il_table_id]. rewrite Hid. unfold with_table_mut. rewrite with_entity_mut_eq by done.
  rewrite Hr. by exists false.
Qed.

Lemma created_table_replayed id eid sch epoch ts ixs rs r1 r2 r3 j s :
  catalog_wf s → normalize_identifier id = id → normalize_identifier eid = eid → eid ≠ [] →
  resolve_entity_key id s = None → entities s !! eid = None → schema_epoch s.2 ≤ epoch →
  validate sch = Ok tt → sch = TableSchema_new (fields sch) →
  (∀ k names epoch, (k, names) ∈ ixs → readable (composite_payload id k names epoch)) →
  readable (new_schema_payload id eid epoch sch) → readable (new_lifecycle_payload id eid epoch sch) →
  readable (new_metadata_payload id ts) →
  Forall (index_record id ixs) rs → records r1 SchemaChange (new_schema_payload id eid epoch sch) →
  records r2 TableLifecycle (new_lifecycle_payload id eid epoch sch) →
  records r3 MetadataChange (new_metadata_payload id ts) →
  let t := created_table eid id StatusLoad 1 sch (indexes_for_schema id sch) ts in
  ∃ j' s', replay_records (rs ++ [r1; r2; r3]) j s = (Ok j', s') ∧ table_at s' id eid t
    ∧ entities s' = <[eid := EntityTable t]> (entities s) ∧ schema_epoch s'.2 = epoch.
Proof.
  intros Hwf Hid Heid Hne Hr Hn Hep Hv Hsch Hread Hread1 Hread2 Hread3 Hrs (p1 & Hp1 & Hc1) (p2 & Hp2 & Hc2) (p3 & Hp3 & Hc3) t.
  destruct (index_records_skipped id ixs rs j s Hwf Hid Hr Hread Hrs) as (j1 & E1).
  rewrite replay_records_app, E1. cbn [replay_records]. unfold bind.
  assert (stored_schema_change (new_schema_payload id eid epoch sch) = new_schema_payload id eid epoch sch) as Hsc
    by (unfold stored_schema_change; simpl; by rewrite <- Hsch).
  rewrite (replay_carried r1 _ p1 (DecodedSchemaChange (new_schema_payload id eid epoch sch)) _ Hc1);
    [|simpl; by rewrite (read_back _ _ _ Hp1 Hread1), Hsc|done..].
  assert (new_table (fresh_ids s.1 0%nat) id sch (Some eid) = DatabaseTable_new eid id sch (indexes_for_schema id sch)) as Hnew.
  { unfold new_table. simpl. rewrite Heid. by destruct eid. }
  destruct (apply_new_schema s (new_schema_payload id eid epoch sch)) as (s2 & E2 & Ht2 & He2 & Hp2');
    simpl sc_table_id; simpl sc_schema; simpl sc_entity_id; rewrite ?Hid, ?Hnew; try done.
  simpl in Ht2, He2, Hp2'. rewrite Hid, Hnew in Ht2, He2. simpl in Ht2, He2.
  simpl apply_decoded. unfold bind, ret. rewrite E2.
  rewrite (replay_carried r2 _ p2 (DecodedTableLifecycle (stored_table_lifecycle (new_lifecycle_payload id eid epoch sch))) _ Hc2);
    [|simpl; by rewrite (read_back _ _ _ Hp2 Hread2)|done..].
  simpl apply_decoded. unfold bind, ret.
  rewrite (apply_known_table s2 id eid _ (stored_table_lifecycle (new_lifecycle_payload id eid epoch sch)) Ht2 Hid eq_refl Hp2').
  rewrite (replay_carried r3 _ p3 (DecodedEntityMetadata (new_metadata_payload id ts)) _ Hc3);
    [|simpl; by rewrite (read_back _ _ _ Hp3 Hread3)|done..].
  destruct (apply_table_metadata s2 id eid _ (new_metadata_payload id ts) Ht2 Hid) as (s3 & E3 & Ht3 & He3 & Hc3').
  simpl apply_decoded. unfold tolerate. rewrite E3. eexists _, s3. split; [done|]. split; [done|].
  split; [by rewrite He3, He2, insert_insert_eq|]. by rewrite Hc3'.
Qed.

(** ** ALTER TABLE *)

Lemma set_pending_keeps tx r tx' : set_pending tx r = Ok tx' → tx' = with_pending (pending_schema tx') tx.
Proof. unfold set_pending. destruct r; simpl; [by intros [= <-]|done]. Qed.

Lemma apply_operation_keeps op tx tx' : apply_operation op tx = Ok tx' → tx' = with_pending (pending_schema tx') tx.
Proof.
  destruct op; simpl; unfold tx_add_field, tx_remove_field, tx_update_field; [apply set_pending_keeps..| |].
  - destruct (field _ _); [|done]. destruct (set_pending tx _) as [tx1|] eqn:E1; [|done]. simpl.
    intros E2%set_pending_keeps. apply set_pending_keeps in E1. rewrite E1 in E2. by rewrite E2.
  - destruct (field _ _); [|done]. apply set_pending_keeps.
Qed.

Lemma apply_operations_keep ops tx rules tx' rules' :
  apply_operations ops tx rules = Ok (tx', rules') → tx' = with_pending (pending_schema tx') tx.
Proof.
  revert tx rules. induction ops as [|op ops IH]; intros tx rules; simpl; [intros [= <- <-]; by destruct tx|].
  destruct (apply_operation op tx) as [tx1|] eqn:E1; [|done]. simpl. intros E%IH. apply apply_operation_keeps in E1.
  rewrite E, E1. done.
Qed.

Lemma rewrite_rows_keeps tx rules id entity_wal_id s s' key entries n :
  rewrite_table_rows node_data_dir tx rules id entity_wal_id s = (Done tt, s') →
  obfuscated_stream_key entity_wal_id ≠ Ok key → loaded (db_wal s) key entries n →
  db s' = db s ∧ loaded (db_wal s') key entries n.
Proof.
  intros E Hk Hl. apply chain_done in E as (r & s1 & E1 & E). unfold migrate_table in E1.
  destruct (migrate_rows _ _ _ _ _ _) as [r1 [[ex cache] w]]. injection E1 as <- <-.
  destruct r1 as [[]|[]]; [|by apply chain_done in E as (? & ? & _ & ?)|done].
  apply chain_done in E as (r2 & s2 & E2 & E). unfold wal_op, invalidate_stream_cache in E2.
  destruct (obfuscated_stream_key entity_wal_id) as [key0|e]; injection E2 as <- <-;
    [|by apply chain_done in E as (? & ? & _ & ?)].
  injection E as <-. split; [done|]. destruct Hl as [Hs Hl]. split; [|done]. simpl.
  rewrite lookup_delete_ne by congruence. done.
Qed.

(** The payload of a changed schema. *)
Definition alter_payload (id : ustr) (t : DatabaseTable) (epoch : Z) (sch : TableSchema) : SchemaChangePayload :=
  {| sc_table_id := id; sc_schema_revision := schema_revision t + 1; sc_schema_epoch := saturating_add epoch 1;
     sc_entity_id := None; sc_schema := sch |}.

Lemma persist_logged wal_id entity_wal_id ts payload s s' key entries n :
  persist_schema_change wal_id entity_wal_id ts payload s = (Ok tt, s') →
  obfuscated_stream_key wal_id = Ok key → obfuscated_stream_key entity_wal_id ≠ Ok key → loaded s key entries (S n) →
  ∃ r, records r SchemaChange payload ∧ loaded s' key (entries ++ [r]) n.
Proof.
  intros E Hk He Hl. unfold persist_schema_change in E. destruct (serialize payload) as [p|] eqn:Ep; [|done].
  destruct (append_payload_record wal_id SchemaChange p ts s) as [[[]|] s1] eqn:E1; [|done].
  destruct (append_payload_record entity_wal_id SchemaChange p ts s1) as [[[]|] s2] eqn:E2; [|done]. injection E as <-.
  exists (logged entries SchemaChange p ts). split; [by apply logged_records|].
  eapply append_elsewhere; [exact He| |exact E2]. by eapply append_logged.
Qed.

Lemma begin_keeps_id s id k t tx s' :
  table_at s (normalize_identifier id) k t → begin_schema_change id s = (Ok tx, s') → catalog_id s'.2 = catalog_id s.2.
Proof.
  intros Ht. unfold begin_schema_change, bind at 1, reads at 1. destruct (active_schema_change s.2); [done|]. unfold bind at 1.
  match goal with |- context [with_table_mut ?id ?f s] => destruct (with_table_mut id f s) as [[r|e] s1] eqn:E end; [|done].
  destruct (with_table_mut_inv _ _ _ _ _ _ _ Ht E) as (t' & Ea & Hstep). unfold table_lock, transition in Ea.
  destruct (can_transition_to _ _); [|done]. injection Ea as <- <-. destruct (Hstep eq_refl eq_refl) as [_ [_ Hc]].
  destruct s1 as [st c]. unfold bind, unique_id, epoch_nanos, update, ret. intros [= <- <-]. simpl in *. by rewrite Hc.
Qed.

Lemma in_change_now s id k t p :
  in_change (db s) id k t p →
  in_change (db (now s).2) id k t p ∧ entities (db (now s).2) = entities (db s) ∧ (db (now s).2).2 = (db s).2.
Proof.
  intros [Ht Ha Hn]. destruct (entities_now s) as (He & Hc & _). split; [|done].
  split; [by apply table_at_now|by rewrite Hc|done].
Qed.

Lemma alter_table_logged id ops s s' key entries n k t :
  alter_table_in node_data_dir id ops s = (Done (Applied 1), s') →
  table_at (db s) id k t → table_temporary t = false → normalize_identifier id = id →
  is_u64 (schema_revision t + 1) → is_u64 (schema_epoch (db s).2) →
  obfuscated_stream_key (catalog_id (db s).2) = Ok key →
  obfuscated_stream_key (catalog_id (db s).2 ++ lit ":" ++ k) ≠ Ok key →
  loaded (db_wal s) key entries (S n) →
  ∃ r sch,
    altered_schema ops {| tx_table_id := id; next_revision := schema_revision t + 1; pending_schema := schema t |} = Ok sch
    ∧ records r SchemaChange (alter_payload id t (schema_epoch (db s).2) sch)
    ∧ loaded (db_wal s') key (entries ++ [r]) n
    ∧ table_at (db s') id k
        (set_table_status StatusReady
           (replace_schema (schema_revision t + 1) sch (merge_indexes_for_schema id sch (table_indexes t)) t)).
Proof.
  intros E Ht Htmp Hid [Hr0 Hr1] Hep Hk He Hl. unfold alter_table_in in E.
  unfold chain at 1, look at 1 in E. cbv beta iota in E. rewrite (table_at_read _ _ _ _ Ht) in E.
  unfold chain at 1, some_or_reject at 1, done at 1 in E. cbv beta iota in E.
  apply chain_done in E as (tx & s1 & (c1 & E1 & ->)%try_catalog_done & E).
  destruct (begin_step _ _ _ _ (at_wf _ _ _ _ Ht) E1) as (k' & t' & Ht' & Hic & He1 & Htid & Hnext & Hpend & _ & Hep1).
  assert (catalog_id c1.2 = catalog_id (db s).2) as Hcid by (eapply begin_keeps_id; [rewrite Hid; exact Ht|exact E1]).
  rewrite Htid, Hid in Ht', Hic. assert (k' = k ∧ t' = t) as [-> ->].
  { destruct Ht as [Hwf Hd Ee], Ht' as [_ Hd' Ee']. apply (resolve_denotes _ _ _ Hwf) in Hd, Hd'. split; congruence. }
  destruct (apply_operations ops tx no_rules) as [[tx' rules]|e] eqn:Eo; [|by apply chain_done in E as (? & ? & _ & ?)].
  pose proof (apply_operations_keep _ _ _ _ _ Eo) as Htx'.
  unfold chain at 1, look at 1 in E. cbv beta iota in E. unfold chain at 1, look at 1 in E. cbv beta iota in E.
  cbn [db] in E. rewrite (table_at_stream c1 id k _ (ic_table _ _ _ _ _ Hic) Htmp) in E.
  unfold chain at 1, some_or_reject at 1, done at 1 in E. cbv beta iota in E.
  set (s1 := mkDb c1 (db_wal s) (db_indexes s) (db_cache s)) in *.
  apply chain_done in E as (ts & s2 & En & E). assert (s2 = (now s1).2) as -> by (by rewrite En).
  destruct (in_change_now s1 _ _ _ _ Hic) as (Hic2 & He2 & Hc2). set (s2 := (now s1).2) in *.
  apply chain_done in E as ([] & s3 & E3 & E).
  assert (db s3 = db s2 ∧ loaded (db_wal s3) key entries (S n)) as [Hd3 Hl3].
  { assert (db_wal s2 = db_wal s) as Hw2 by exact (proj2 (proj2 (entities_now s1))).
    destruct (requires_row_rewrite rules); [|injection E3 as <-; by rewrite Hw2].
    eapply rewrite_rows_keeps; [exact E3|by rewrite Hcid|by rewrite Hw2]. }
  apply chain_done in E as (r & s4 & E4 & E). apply chain_done in E as ([] & s5 & [-> ->]%ok_done & [= <-]).
  unfold commit_schema_change in E4. rewrite Hd3 in E4.
  rewrite <- Hid in Hic2.
  pose proof (commit_outcome (db s) (db s2) id tx' k t
    (persist_schema_change (catalog_id c1.2) (catalog_id c1.2 ++ lit ":" ++ k) ts) (db_wal s3) Hic2) as Hcommit.
  assert (Hnx : next_revision tx' = schema_revision t + 1) by (rewrite Htx'; simpl; rewrite Hnext; apply Z.mod_small; lia).
  rewrite Hid in Hcommit. specialize (Hcommit ltac:(rewrite He2; exact He1) ltac:(by rewrite Htx'; simpl; rewrite Htid, Hid) Hnx).
  assert (schema_epoch (db s2).2 = schema_epoch (db s).2) as Hep2 by (rewrite Hc2; exact Hep1).
  rewrite Hep2 in Hcommit. specialize (Hcommit Hep). cbv zeta in Hcommit.
  fold (alter_payload id t (schema_epoch (db s).2) (pending_schema tx')) in Hcommit.
  destruct (persist_schema_change (catalog_id c1.2) (catalog_id c1.2 ++ lit ":" ++ k) ts
    (alter_payload id t (schema_epoch (db s).2) (pending_schema tx')) (db_wal s3)) as [[[]|e] w4] eqn:Ew; destruct Hcommit as (c4 & Ec & Hrel);
    rewrite Ec in E4; [|done]. injection E4 as <-. cbn [db db_wal].
  destruct (persist_logged _ _ _ _ _ _ key entries n Ew) as (r & Hr & Hlr); [by rewrite Hcid..|done|].
  exists r, (pending_schema tx'). split_and!; [|done|done|].
  - unfold altered_schema. replace {| tx_table_id := id |} with tx; [by rewrite Eo|].
    destruct tx as [a b c]. simpl in *. rewrite Htid, Hid, Hpend, Hnext. f_equal. apply Z.mod_small. lia.
  - destruct Hrel as (Hwf4 & He4 & _). split; [done| |by rewrite He4, lookup_insert_eq].
    rewrite He4. eapply denotes_insert; [apply Ht|done|apply Ht].
Qed.

(** ** A restart after CREATE TABLE *)

(** An acknowledged CREATE TABLE of a table that is not temporary. *)
Record acknowledged (statement : SqlRequest) (plan : CreateTablePlan) (s s' : DbState) (key : ustr)
    (entries : list TransactionRecord) : Prop := {
  (* the planner makes schemas with [TableSchema::new], and new ids are identifiers in their normal form *)
  ack_plan : create_table_plan_from_statement (sql statement) = Some plan;
  ack_schema : plan_schema plan = TableSchema_new (fields (plan_schema plan));
  ack_fresh : normalize_identifier (fresh_ids (db s).1 0%nat) = fresh_ids (db s).1 0%nat ∧ fresh_ids (db s).1 0%nat ≠ [];
  ack_durable : plan_temporary plan = false;
  (* the catalog is well formed, and the log of the database is loaded, with room for the records *)
  ack_wf : catalog_wf (db s);
  ack_epoch : 0 ≤ schema_epoch (db s).2 ≤ u64_max;
  ack_key : obfuscated_stream_key (catalog_id (db s).2) = Ok key;
  ack_stream : obfuscated_stream_key (catalog_id (db s).2 ++ lit ":" ++ fresh_ids (db s).1 0%nat) ≠ Ok key;
  ack_loaded : loaded (db_wal s) key entries (length (plan_composite_indexes plan) + 4);
  (* the payloads are within the limit of the reader *)
  ack_read_schema :
    readable (new_schema_payload (normalize_identifier (plan_table_id plan)) (fresh_ids (db s).1 0%nat)
                (schema_epoch (db s').2) (plan_schema plan));
  ack_read_lifecycle :
    readable (new_lifecycle_payload (normalize_identifier (plan_table_id plan)) (fresh_ids (db s).1 0%nat)
                (schema_epoch (db s').2) (plan_schema plan));
  ack_read_metadata : readable (new_metadata_payload (normalize_identifier (plan_table_id plan)) (clock (db s).1 0%nat));
  ack_read_indexes k names ep : (k, names) ∈ plan_composite_indexes plan →
    readable (composite_payload (normalize_identifier (plan_table_id plan)) k names ep);
  ack_created : create_table_in false statement s = (Done (Applied 1), s')
}.

Section restart.
Context (statement : SqlRequest) (plan : CreateTablePlan) (s s' : DbState) (key : ustr) (entries : list TransactionRecord).
Context (Hack : acknowledged statement plan s s' key entries).

Let id := normalize_identifier (plan_table_id plan).
Let eid := fresh_ids (db s).1 0%nat.
Let ts := clock (db s).1 0%nat.
Let sch := plan_schema plan.
Let epoch := schema_epoch (db s').2.

(** A start reads [log]: its earlier part leaves the catalog [s0], in which the table is not known yet. *)
Definition starts_from (base s0 : CState) : Prop :=
  catalog_wf base ∧ (∃ j, replay_records entries 0 base = (Ok j, s0)) ∧ resolve_entity_key id s0 = None
  ∧ entities s0 !! eid = None ∧ schema_epoch s0.2 ≤ schema_epoch (db s).2.

Lemma created_table_recovered :
  ∃ new m, loaded (db_wal s') key (entries ++ new) 1
    ∧ table_at (db s') id eid (created_table eid id StatusReady 0 sch m ts)
    ∧ entities (db s') = <[eid := EntityTable (created_table eid id StatusReady 0 sch m ts)]> (entities (db s))
    ∧ indexes_for_schema id sch ⊆ m
    ∧ (∀ k names, (k, names) ∈ plan_composite_indexes plan → let i := composite_index id k names in
         m !! index_id i = Some i ∧ indexes_for_schema id sch !! index_id i = None)
    ∧ catalog_id (db s').2 = catalog_id (db s).2 ∧ 0 ≤ epoch ≤ u64_max
    ∧ ∀ base s0, starts_from base s0 →
        let t := created_table eid id StatusLoad 1 sch (indexes_for_schema id sch) ts in
        ∃ j s1, replay_records (entries ++ new) 0 base = (Ok j, s1) ∧ table_at s1 id eid t
          ∧ entities s1 = <[eid := EntityTable t]> (entities s0) ∧ schema_epoch s1.2 = epoch.
Proof.
  destruct Hack as [Hplan Hschema Hfresh Htmp Hwf Hepoch Hkey Hstream Hloaded Hread1 Hread2 Hread3 Hread4 Hcreated].
  destruct (create_table_logged statement plan s s' key entries 1 Hplan Htmp Hwf ltac:(lia) Hkey Hstream Hloaded Hcreated)
    as (rs & r1 & r2 & r3 & m & Hl & Hrs & Hr1 & Hr2 & Hr3 & Hv & Hsub & Hm & Ht & He & Hep & Hc).
  exists (rs ++ [r1; r2; r3]), m. split_and!; try done; [unfold epoch; lia..|].
  intros base s0 (Hwfb & [j Hj] & Hres & Hnone & Hle) t. rewrite replay_records_app, Hj.
  apply (created_table_replayed id eid sch epoch ts (plan_composite_indexes plan)); try done.
  - by eapply (preserves_replay_records entries 0).
  - apply normalize_identifier_idempotent.
  - apply Hfresh.
  - apply Hfresh.
  - unfold epoch. lia.
Qed.


(** an index of several columns that CREATE TABLE makes is lost by a restart.  Its record is written before those
    of the table, so a start skips it as belonging to no table: the index is in the catalog in memory, and not in the
    one a start recovers, although the table is. *)
Theorem composite_index_lost k names :
  (k, names) ∈ plan_composite_indexes plan →
  let i := composite_index id k names in
  index_in_table id (index_id i) (db s') = Some i
  ∧ ∃ log, storage (db_wal s') !! key = Some log
    ∧ ∀ base s0, starts_from base s0 →
        ∃ j s1, replay_records log 0 base = (Ok j, s1) ∧ has_table id s1 = true ∧ index_in_table id (index_id i) s1 = None.
Proof.
  intros Hin i. destruct created_table_recovered as (new & m & [Hl _] & Ht & _ & _ & Hm & _ & _ & Hrec).
  destruct (Hm k names Hin) as [Hm1 Hm2]. split; [by rewrite (table_at_index _ _ _ _ _ Ht)|].
  exists (entries ++ new). split; [done|]. intros base s0 Hb. destruct (Hrec base s0 Hb) as (j & s1 & E & Ht1 & _).
  exists j, s1. split; [done|]. split; [by eapply has_table_at|]. by rewrite (table_at_index _ _ _ _ _ Ht1).
Qed.

(** C33: the first ALTER TABLE of a table is lost by a restart.  CREATE TABLE logs the schema as revision one but leaves
    the table at revision zero, so the first change is logged as revision one again; a start recovers the table at
    revision one and ignores the change.  The statement is acknowledged and the new schema is in the catalog in
    memory, but a start recovers the schema of CREATE TABLE, under which it then reads the rows. *)
Theorem first_alter_lost ops s'' :
  let tx := {| tx_table_id := id; next_revision := 1; pending_schema := sch |} in
  (∀ sch', altered_schema ops tx = Ok sch' →
     readable (alter_payload id (created_table eid id StatusReady 0 sch ∅ ts) epoch sch')) →
  alter_table_in node_data_dir id ops s' = (Done (Applied 1), s'') →
  ∃ sch' log, altered_schema ops tx = Ok sch'
    ∧ table_schema id (db s'') = Some sch' ∧ storage (db_wal s'') !! key = Some log
    ∧ ∀ base s0, starts_from base s0 →
        ∃ j s1, replay_records log 0 base = (Ok j, s1) ∧ table_schema id s1 = Some sch.
Proof.
  intros tx Hread Halter. destruct created_table_recovered as (new & m & Hl & Ht & _ & _ & _ & Hc & Hep & Hrec).
  destruct (alter_table_logged id ops s' s'' key (entries ++ new) 0 eid _ Halter Ht eq_refl) as (r & sch' & Ha & (p & Hp & Hcr) & [Hl2 _] & Ht2);
    [apply normalize_identifier_idempotent|done|done|rewrite Hc; apply Hack..|done|].
  exists sch', ((entries ++ new) ++ [r]). split; [done|]. split; [by apply (table_at_schema _ _ _ _ Ht2)|]. split; [done|].
  intros base s0 Hb. destruct (Hrec base s0 Hb) as (j & s1 & E & Ht1 & _).
  set (pay := alter_payload id (created_table eid id StatusReady 0 sch m ts) epoch sch') in *.
  destruct (stale_revision s1 id eid _ (stored_schema_change pay) Ht1) as (s2 & E2 & He2 & Hc2);
    [apply normalize_identifier_idempotent|done|].
  exists (j + 1), s2. rewrite replay_records_app, E. cbn [replay_records]. unfold bind.
  rewrite (replay_carried r _ p (DecodedSchemaChange (stored_schema_change pay)) s1 Hcr); [|simpl; by rewrite (read_back _ _ _ Hp (Hread sch' Ha))|done..].
  simpl apply_decoded. unfold bind, ret. rewrite E2. split; [done|].
  apply (table_at_schema _ _ eid (created_table eid id StatusLoad 1 sch (indexes_for_schema id sch) ts)).
  destruct Ht1 as [Hwf1 Hd1 Ee1]. split; [|by rewrite He2..].
  by eapply (preserves_apply_schema_change (stored_schema_change pay)).
Qed.

End restart.

End ddl.
