(* ===== verification/DefinitionFacts.v ===== *)
(** * Objects defined by a text, in the log

    Views, OLAP views, triggers and routines are recovered from the texts that the log keeps of them.

    - [created_definition_replays]: a created view, trigger or routine comes back with its name, text, dependencies
      and metadata, under a new id; an OLAP view comes back without its dimensions;
    - [mixed_case_view_half_made]: a view whose name has upper-case letters is rejected after it has been registered. *)

From Stdlib Require Import ZArith Lia.
From stdpp Require Import base gmap list strings.
From S2P Require Import Prelude Settings Record RowPayload WalFile Wal WalManager Identifiers Text LiveRows Replay WalOps Schema.
From S2P Require Import DatabaseIndex AlterTable Entities.
From S2P Require Import Catalog CatalogFacts CatalogReplay Statements DdlText Ddl DdlFacts.

Local Open Scope Z_scope.

Section definitions.
Context `{RowCrypto} `{Zlib} `{Env} `{Digest} `{HashOrder} `{!HashOrderLaws} `{SqlFrontEnd} `{BinarySearch}.
Context `{Bincode EncryptedRowPayloadEnvelope} `{Bincode LegacyEncryptedRowPayloadEnvelope} `{Bincode TransactionRecord}.
Context `{Bincode DatabaseEntity} `{Bincode SchemaChangePayload} `{Bincode TableLifecyclePayload} `{Bincode IndexLifecyclePayload}.
Context {em_bincode : Bincode EntityMetadataPayload} {em_laws : BincodeLaws EntityMetadataPayload (λ p, p)}.
Context {sd_bincode : Bincode SqlDefinitionPayload} {sd_laws : BincodeLaws SqlDefinitionPayload (λ p, p)}.
Context (node_data_dir : ustr).

(** ** Objects *)

(** The name [id] denotes the object [e] under the key [k]. *)
Record object_at (s : CState) (id k : ustr) (e : DatabaseEntity) : Prop := {
  oa_wf : catalog_wf s;
  oa_denotes : denotes (entities s) id k;
  oa_entity : entities s !! k = Some e
}.

Lemma object_at_read s id k e : object_at s id k e → entity id s = Some e.
Proof. intros [Hwf Hd Ee]. by apply (entity_denotes s id k). Qed.

Lemma object_at_catalog st st' c c' id k e :
  heap st' = heap st → entity_handles c' = entity_handles c → object_at (st, c) id k e → object_at (st', c') id k e.
Proof.
  intros Hh Hc [[Hk Hn Hr] Hd Ee].
  assert (entities (st', c') = entities (st, c)) as Eq by (unfold entities; simpl; by rewrite Hh, Hc).
  split; [split|..]; rewrite ?Eq; try done. simpl. rewrite Hh, Hc. exact Hk.
Qed.

Lemma object_step {R} id missing (apply : DatabaseEntity → result (R * DatabaseEntity) DatabaseError) s k e r e' :
  object_at s id k e → apply e = Ok (r, e') → storage_key e' = storage_key e → entity_name e' = entity_name e →
  entity_kind e' = entity_kind e →
  ∃ s', with_entity_mut id missing apply s = (Ok r, s') ∧ object_at s' id k e'
    ∧ entities s' = <[k := e']> (entities s) ∧ s'.2 = s.2.
Proof.
  intros [Hwf Hd Ee] Ha Hk Hn Hkind. exists (write_entity k e' s).
  pose proof (entities_write s k e' Hwf (mk_is_Some _ _ Ee)) as Ew.
  split_and!; [by eapply with_entity_mut_ok|split|done|apply write_entity_catalog].
  - eapply wf_write; [done..| |done|done]. rewrite Hk. by apply (wf_entity_key _ _ _ Hwf Ee).
  - rewrite Ew. by eapply denotes_insert.
  - by rewrite Ew, lookup_insert_eq.
Qed.

(** The kind of an object that has a text. *)
Definition has_kind (k : SqlObjectKind) (e : DatabaseEntity) : bool :=
  match k, e with
  | SqlView, EntityView _ | SqlOlapView, EntityOlapView _ | SqlTrigger, EntityTrigger _
  | SqlStoredProcedure, EntityStoredProcedure _ => true
  | _, _ => false
  end.

(** The object with another text. *)
Definition redefine (text : ustr) (deps : list ustr) (e : DatabaseEntity) : DatabaseEntity :=
  match e with
  | EntityView v => EntityView (set_view_definition text deps v)
  | EntityOlapView v => EntityOlapView (set_olap_definition text deps v)
  | EntityTrigger t => EntityTrigger (set_trigger_definition text deps t)
  | EntityStoredProcedure p => EntityStoredProcedure (set_procedure_definition text deps p)
  | e => e
  end.

Lemma define_step s id key e k text deps :
  object_at s id key e → has_kind k e = true → normalize_identifier id = id → 0 ≤ schema_epoch s.2 ≤ u64_max →
  let e' := redefine text (normalize_identifier <$> deps) e in
  ∃ s', set_sql_definition id k text deps s = (Ok tt, s') ∧ object_at s' id key e'
    ∧ entities s' = <[key := e']> (entities s) ∧ schema_epoch s'.2 = saturating_add (schema_epoch s.2) 1
    ∧ catalog_id s'.2 = catalog_id s.2.
Proof.
  intros Ho Hk Hid Hep e'. pose proof (saturating_le (schema_epoch s.2) 1 ltac:(lia) ltac:(lia)) as Hs.
  unfold set_sql_definition, apply_sql_definition, bind, reads, should_apply_schema_epoch. cbn [sd_schema_epoch sd_action sd_object_id].
  rewrite (proj2 (Z.leb_le _ _) (proj1 Hs)). cbn [negb]. rewrite Hid. unfold upsert_sql_definition, bind, reads.
  cbn [sd_object_kind sd_sql sd_dependencies sd_schema_epoch].
  assert (has_sql_object_kind id k s = true) as ->.
  { unfold has_sql_object_kind. rewrite (object_at_read _ _ _ _ Ho). by destruct k, e. }
  assert (∀ missing apply, apply e = Ok (tt, e') → storage_key e' = storage_key e → entity_name e' = entity_name e →
    entity_kind e' = entity_kind e →
    ∃ s', (do! with_entity_mut id missing apply; accept_schema_epoch (saturating_add (schema_epoch s.2) 1)) s = (Ok tt, s')
      ∧ object_at s' id key e' ∧ entities s' = <[key := e']> (entities s)
      ∧ schema_epoch s'.2 = saturating_add (schema_epoch s.2) 1 ∧ catalog_id s'.2 = catalog_id s.2) as Hgo.
  { intros missing apply Ha H1' H2' H3'. destruct (object_step id missing apply s key e tt e' Ho Ha H1' H2' H3') as ([st c] & E & Ho' & He' & Hc').
    simpl in Hc'. subst c. unfold bind. rewrite E. unfold accept_schema_epoch, update. eexists. split; [reflexivity|].
    split; [by apply (object_at_catalog st _ s.2)|]. split; [done|]. simpl. split; [lia|done]. }
  destruct k, e; try done; cbn [negb]; by apply Hgo.
Qed.

(** ** The statement *)

(** The object that a statement makes, with its columns if it is an OLAP view. *)
Definition new_object (k : SqlObjectKind) (uid id text : ustr) (columns deps : list ustr) : DatabaseEntity :=
  match k with
  | SqlView => EntityView (set_view_definition text deps (DatabaseView_new uid id text (TableSchema_new [])))
  | SqlOlapView => EntityOlapView (DatabaseOlapView_new uid id text columns (TableSchema_new []) deps)
  | SqlTrigger => EntityTrigger (DatabaseTrigger_new uid id text deps)
  | SqlStoredProcedure => EntityStoredProcedure (DatabaseStoredProcedure_new uid id text deps)
  end.

(** What is registered before the definition is set. *)
Definition first_object (k : SqlObjectKind) (uid id text : ustr) (columns deps : list ustr) : DatabaseEntity :=
  match k with
  | SqlView => EntityView (DatabaseView_new uid id text (TableSchema_new []))
  | SqlOlapView => new_object k uid id text columns deps
  | _ => new_object k uid id text [] []
  end.

(** The part of the handlers behind their parsing. *)
Definition create_object (k : SqlObjectKind) (name text : ustr) (columns deps : list ustr) (label : string) (ts : Z) :
    D ConnectorResponse :=
  do* try_catalog (label +:+ " failed")
        (register_named (normalize_identifier name) (λ uid, first_object k uid (normalize_identifier name) text columns deps));
  define_object node_data_dir name k text deps ts label.

(** The statements that make an object from a text. *)
Inductive creates (statement : SqlRequest) (name : ustr) :
    SqlObjectKind → list ustr → list ustr → D ConnectorResponse → Prop :=
  | creates_view deps :
      parse_create_view_dependencies_from_sql (sql statement) = Some deps →
      creates statement name SqlView [] deps (create_view_in node_data_dir name statement)
  | creates_olap_view columns deps :
      creates statement name SqlOlapView columns deps (create_olap_view_in node_data_dir name columns deps statement)
  | creates_trigger : creates statement name SqlTrigger [] [] (create_trigger_in node_data_dir name statement)
  | creates_routine is_function :
      creates statement name SqlStoredProcedure [] [] (create_stored_procedure_in node_data_dir is_function name statement).

Lemma now_done ts s s1 : now s = (Done ts, s1) → ts = clock (db s).1 0%nat ∧ s1 = (now s).2.
Proof. unfold now. destruct (db s). by intros [= <- <-]. Qed.

Lemma creates_inv statement name k columns deps m s r s' :
  creates statement name k columns deps m → m s = (Done r, s') →
  ∃ label, create_object k name (sql statement) columns deps label (clock (db s).1 0%nat) (now s).2 = (Done r, s').
Proof.
  intros [deps' Hp|columns' deps'| |is_function] E; unfold create_object.
  - unfold create_view_in in E. rewrite Hp in E. unfold chain at 1, some_or_reject at 1, done at 1 in E. cbv beta iota in E.
    apply chain_done in E as (ts & s1 & [-> ->]%now_done & E). by exists "create view"%string.
  - apply chain_done in E as (ts & s1 & [-> ->]%now_done & E). by exists "create olap view"%string.
  - apply chain_done in E as (ts & s1 & [-> ->]%now_done & E). by exists "create trigger"%string.
  - apply chain_done in E as (ts & s1 & [-> ->]%now_done & E). apply chain_done in E as ([] & s2 & Ev & E).
    exists (routine_label is_function). replace s2 with (now s).2 in E; [exact E|]. destruct is_function; [|by injection Ev].
    apply chain_done in Ev as (rt & s3 & [_ ->]%some_done & Ev). by destruct (validate_function _ _ _); [injection Ev|].
Qed.

Lemma register_named_inv name make s s' :
  catalog_wf s → register_named name make s = (Ok tt, s') →
  resolve_entity_key name s = None ∧ entities s !! storage_key (make (fresh_ids s.1 0%nat)) = None.
Proof.
  intros Hwf. destruct s as [st c]. unfold register_named, bind, reads.
  destruct (resolve_entity_key name (st, c)) eqn:Er; [done|].
  set (st' := mkStore (heap st) (λ n, fresh_ids st (S n)) (clock st)).
  intros E. change ((match insert_entity_handle (make (fresh_ids st 0%nat)) (st', c) with
                     | (Ok _, s) => bump_schema_epoch s | (Err e, s) => (Err e, s) end) = (Ok tt, s')) in E.
  rewrite insert_entity_handle_eq in E. destruct (entity_handles (st', c).2 !! _) eqn:Eh; [done|]. clear E.
  split; [done|]. simpl in Eh |- *. by rewrite lookup_entities; simpl; rewrite Eh.
Qed.

(** ** What a definition logs *)

Definition definition_payload (name : ustr) (k : SqlObjectKind) (epoch : Z) (text : ustr) (deps : list ustr) :
    SqlDefinitionPayload :=
  {| sd_object_id := name; sd_object_kind := k; sd_action := SqlUpsert; sd_schema_epoch := epoch; sd_sql := text;
     sd_dependencies := deps |}.

Lemma metadata_step s id k e m :
  object_at s id k e → normalize_identifier id = id →
  let e' := set_entity_metadata_of m e in
  ∃ s', apply_entity_metadata {| em_entity_id := id; em_metadata := m |} s = (Ok tt, s') ∧ object_at s' id k e'
    ∧ entities s' = <[k := e']> (entities s) ∧ s'.2 = s.2.
Proof.
  intros Ho Hid e'. unfold apply_entity_metadata. cbn [em_entity_id em_metadata]. rewrite Hid.
  apply object_step with (e := e); [done..| | |]; by destruct e.
Qed.

Lemma persist_done message name s s' :
  persist_entity_snapshot node_data_dir message name s = (Done tt, s') →
  db s' = db s ∧ ∀ key, storage (db_wal s') !! key = storage (db_wal s) !! key.
Proof.
  intros (e & s1 & E1 & E)%chain_done. injection E1 as <- <-.
  apply chain_done in E as (e & s1 & [_ ->]%some_done & E). apply chain_done in E as (p & s1 & [_ ->]%some_done & E).
  apply chain_done in E as (w & s1 & E1 & E). unfold disk_op, wal_op in E1.
  destruct (write_bytes _ _ _) as [x w'] in E1. injection E1 as <- <-. destruct x; [|done]. by injection E as <-.
Qed.

Lemma define_object_logged name k text deps ts label s s' r ekey e key entries n :
  define_object node_data_dir name k text deps ts label s = (Done r, s') → normalize_identifier name = name →
  object_at (db s) name ekey e → has_kind k e = true → 0 ≤ schema_epoch (db s).2 ≤ u64_max →
  obfuscated_stream_key (catalog_id (db s).2) = Ok key → obfuscated_stream_key (storage_key e) ≠ Ok key →
  loaded (db_wal s) key entries (S (S n)) →
  let e' := set_entity_metadata_of (server_metadata ts) (redefine text (normalize_identifier <$> deps) e) in
  ∃ r1 r2, loaded (db_wal s') key (entries ++ [r1; r2]) n
    ∧ records r1 SqlDefinitionChange (definition_payload name k (schema_epoch (db s').2) text deps)
    ∧ records r2 MetadataChange (new_metadata_payload name ts)
    ∧ entities (db s') = <[ekey := e']> (entities (db s))
    ∧ schema_epoch (db s').2 = saturating_add (schema_epoch (db s).2) 1.
Proof.
  intros E Hn Ho Hk Hep Hkey Hstream Hl e'.
  unfold define_object in E. unfold chain at 1, look at 1 in E. cbv beta iota in E.
  apply chain_done in E as (stream & s0 & E0 & E). injection E0 as <- <-.
  apply chain_done in E as (sid & s0 & [Hs ->]%some_done & E).
  unfold catalog_entity_wal_stream_id, with_entity_read in Hs. rewrite (object_at_read _ _ _ _ Ho) in Hs. injection Hs as <-.
  assert (entity_wal_stream (catalog_id (db s).2) e = storage_key e) as Hse by (by destruct k, e). rewrite Hse in E.
  apply chain_done in E as ([] & s1 & (c1 & Ec1 & ->)%try_catalog_done & E).
  destruct (define_step (db s) name ekey e k text deps Ho Hk Hn Hep) as (c1' & Ec1' & Ho1 & He1 & Hep1 & Hc1).
  rewrite Ec1 in Ec1'. injection Ec1' as <-.
  apply chain_done in E as ([] & s2 & E2 & E). unfold append_sql_definition_upsert_with_wal in E2.
  unfold chain at 1, look at 1 in E2. cbv beta iota in E2.
  apply chain_done in E2 as (p1 & s1 & [Hp1 ->]%some_done & E2).
  apply (pair_logged _ _ key _ _ _ _ _ _ _ entries (S n)) in E2 as (wal2 & -> & Hl2); [|done..].
  apply chain_done in E as ([] & s3 & E3 & E). unfold apply_entity_metadata_with_wal in E3.
  apply chain_done in E3 as ([] & s1 & (c3 & Ec3 & ->)%try_catalog_done & E3).
  destruct (metadata_step c1 name ekey _ (server_metadata ts) Ho1 Hn) as (c3' & Ec3' & Ho3 & He3 & Hc3).
  unfold set_entity_metadata in Ec3. cbn [db] in Ec3. rewrite Ec3 in Ec3'. injection Ec3' as <-.
  apply chain_done in E3 as (p2 & s1 & [Hp2 ->]%some_done & E3).
  destruct ((λ Hb Hl, pair_logged _ _ key _ _ _ _ _ _ _ _ n Hkey Hstream Hb Hl E3) ltac:(done) Hl2) as (wal3 & -> & Hl3).
  apply chain_done in E as ([] & s4 & E4 & E). injection E as _ <-. destruct (persist_done _ _ _ _ E4) as [Hdb Hst].
  exists (logged entries SqlDefinitionChange p1 ts), (logged (entries ++ [logged entries SqlDefinitionChange p1 ts]) MetadataChange p2 ts).
  simpl in Hdb, Hst. rewrite Hdb. split_and!.
  - destruct Hl3 as [Hl3 Hf]. split; [rewrite Hst|]; by rewrite <- app_assoc in *.
  - rewrite Hc3, Hep1. apply logged_records. rewrite <- Hep1. exact Hp1.
  - by apply logged_records.
  - by rewrite He3, He1, insert_insert_eq.
  - by rewrite Hc3.
Qed.

(** ** What a start makes of it *)

Lemma new_object_key k uid id text columns deps :
  let e := new_object k uid id text columns deps in
  storage_key e = uid ∧ entity_name e = id ∧ entity_kind e ≠ KindRelationship ∧ has_kind k e = true.
Proof. by destruct k. Qed.

Lemma first_object_key k uid id text columns deps :
  let e := first_object k uid id text columns deps in
  storage_key e = uid ∧ entity_name e = id ∧ entity_kind e ≠ KindRelationship ∧ has_kind k e = true.
Proof. by destruct k. Qed.

Lemma redefine_first k uid id text columns deps deps' :
  redefine text deps' (first_object k uid id text columns deps) = new_object k uid id text columns deps'.
Proof. by destruct k. Qed.

Lemma register_object s id make k uid :
  uid = fresh_ids s.1 0%nat → catalog_wf s → storage_key (make uid) = uid → entity_name (make uid) = id →
  entity_kind (make uid) ≠ KindRelationship → has_kind k (make uid) = true → resolve_entity_key id s = None →
  entities s !! uid = None →
  ∃ s', register_named id make s = (Ok tt, s') ∧ object_at s' id uid (make uid)
    ∧ entities s' = <[uid := make uid]> (entities s) ∧ schema_epoch s'.2 = saturating_add (schema_epoch s.2) 1
    ∧ catalog_id s'.2 = catalog_id s.2.
Proof.
  intros -> Hwf Hkey Hname Hkind Hk Hres Hnew.
  destruct (register_named_step s id make Hwf Hname Hkind Hres) as (s' & E & Hwf' & Hd & He & Hep & Hc & _); [by rewrite Hkey|].
  rewrite Hkey in Hd, He. exists s'. split_and!; try done. split; [done..|]. by rewrite He, lookup_insert_eq.
Qed.

Lemma replayed_definition s k id epoch text deps :
  let uid := fresh_ids s.1 0%nat in
  let e := new_object k uid id text [] (normalize_identifier <$> deps) in
  catalog_wf s → normalize_identifier id = id → schema_epoch s.2 ≤ epoch → resolve_entity_key id s = None →
  entities s !! uid = None →
  ∃ s', apply_sql_definition (definition_payload id k epoch text deps) s = (Ok tt, s') ∧ object_at s' id uid e
    ∧ entities s' = <[uid := e]> (entities s).
Proof.
  intros uid e Hwf Hid Hep Hres Hnew. unfold apply_sql_definition, bind, reads, should_apply_schema_epoch.
  cbn [sd_schema_epoch definition_payload sd_action sd_object_id]. rewrite (proj2 (Z.leb_le _ _) Hep), Hid. cbn [negb].
  unfold upsert_sql_definition, bind, reads. cbn [sd_object_kind definition_payload sd_sql sd_dependencies].
  assert (has_sql_object_kind id k s = false) as ->.
  { unfold has_sql_object_kind, entity. rewrite Hres. by destruct k. }
  destruct k; cbn [negb];
    unfold register_view, register_olap_view, register_trigger, register_stored_procedure; rewrite Hid;
    match goal with |- context [register_named id ?make s] =>
      match goal with e := new_object ?k _ _ _ _ _ |- _ =>
        destruct (register_object s id make k uid) as (s1 & E1 & Ho1 & He1 & _); [done..|] end end;
    rewrite E1; [|by exists s1..].
  unfold with_view_mut. match goal with |- context [with_entity_mut id ?missing ?apply s1] =>
    destruct (object_step id missing apply s1 uid _ tt e Ho1) as (s2 & E2 & Ho2 & He2 & _); [done..|] end.
  exists s2. split; [exact E2|]. split; [exact Ho2|]. by rewrite He2, He1, insert_insert_eq.
Qed.

Lemma create_object_logged name k text columns deps label ts s s' r key entries n :
  let uid := fresh_ids (db s).1 0%nat in
  create_object k name text columns deps label ts s = (Done r, s') → normalize_identifier name = name →
  catalog_wf (db s) → 0 ≤ schema_epoch (db s).2 ≤ u64_max → obfuscated_stream_key (catalog_id (db s).2) = Ok key →
  obfuscated_stream_key uid ≠ Ok key → loaded (db_wal s) key entries (S (S n)) →
  ∃ r1 r2, loaded (db_wal s') key (entries ++ [r1; r2]) n
    ∧ records r1 SqlDefinitionChange (definition_payload name k (schema_epoch (db s').2) text deps)
    ∧ records r2 MetadataChange (new_metadata_payload name ts)
    ∧ entities (db s') = <[uid := set_entity_metadata_of (server_metadata ts)
                              (new_object k uid name text columns (normalize_identifier <$> deps))]> (entities (db s)).
Proof.
  intros uid E Hn Hwf Hep Hkey Hstream Hl.
  apply chain_done in E as ([] & s1 & (c & Ec & ->)%try_catalog_done & E). rewrite Hn in Ec.
  destruct (first_object_key k uid name text columns deps) as (Hk1 & Hk2 & Hk3 & Hk4).
  destruct (register_named_inv _ _ _ _ Hwf Ec) as [Hres Hfree]. fold uid in Hfree. rewrite Hk1 in Hfree.
  destruct (register_object (db s) name (λ uid, first_object k uid name text columns deps) k uid eq_refl Hwf Hk1 Hk2 Hk3 Hk4 Hres Hfree) as (c' & Ec' & Ho & He & Hep1 & Hc).
  rewrite Ec in Ec'. injection Ec' as <-.
  pose proof (saturating_le (schema_epoch (db s).2) 1 ltac:(lia) ltac:(lia)) as Hs.
  destruct (define_object_logged name k text deps ts label _ s' r uid _ key entries n E Hn Ho Hk4) as (r1 & r2 & Hl' & H1' & H2' & He' & _);
    [simpl; rewrite Hep1; lia|simpl; by rewrite Hc|by rewrite Hk1|done|].
  exists r1, r2. split_and!; try done. simpl in He'. by rewrite He', He, insert_insert_eq, redefine_first.
Qed.

Lemma definition_replayed k id epoch text deps ts r1 r2 j s :
  let uid := fresh_ids s.1 0%nat in
  catalog_wf s → normalize_identifier id = id → schema_epoch s.2 ≤ epoch → resolve_entity_key id s = None →
  entities s !! uid = None → readable (definition_payload id k epoch text deps) → readable (new_metadata_payload id ts) →
  records r1 SqlDefinitionChange (definition_payload id k epoch text deps) →
  records r2 MetadataChange (new_metadata_payload id ts) →
  ∃ s', replay_records [r1; r2] j s = (Ok (j + 2), s')
    ∧ entities s' = <[uid := set_entity_metadata_of (server_metadata ts)
                        (new_object k uid id text [] (normalize_identifier <$> deps))]> (entities s).
Proof.
  intros uid Hwf Hid Hep Hres Hnew Hr1 Hr2 (p1 & Hp1 & Hc1) (p2 & Hp2 & Hc2). cbn [replay_records]. unfold bind.
  rewrite (replay_carried r1 _ p1 (DecodedSqlDefinition (definition_payload id k epoch text deps)) _ Hc1);
    [|simpl; by rewrite (read_back _ _ _ Hp1 Hr1)|done..].
  destruct (replayed_definition s k id epoch text deps Hwf Hid Hep Hres Hnew) as (s1 & E1 & Ho1 & He1).
  simpl apply_decoded. unfold bind, ret. rewrite E1.
  rewrite (replay_carried r2 _ p2 (DecodedEntityMetadata (new_metadata_payload id ts)) _ Hc2);
    [|simpl; by rewrite (read_back _ _ _ Hp2 Hr2)|done..].
  destruct (metadata_step s1 id _ _ (server_metadata ts) Ho1 Hid) as (s2 & E2 & _ & He2 & _).
  simpl apply_decoded. unfold tolerate, new_metadata_payload. rewrite E2. exists s2. split; [do 2 f_equal; lia|].
  by rewrite He2, He1, insert_insert_eq.
Qed.

(** A CREATE statement of the kind [k] for the object [name], acknowledged with the log [entries] of the database
    loaded.  Object names are in their normal form, as the next theorem explains. *)
Record acknowledged_definition (statement : SqlRequest) (name : ustr) (k : SqlObjectKind) (columns deps : list ustr)
    (s s' : DbState) (key : ustr) (entries : list TransactionRecord) : Prop := {
  ad_name : normalize_identifier name = name;
  ad_wf : catalog_wf (db s);
  ad_epoch : 0 ≤ schema_epoch (db s).2 ≤ u64_max;
  ad_key : obfuscated_stream_key (catalog_id (db s).2) = Ok key;
  ad_stream : obfuscated_stream_key (fresh_ids (db s).1 0%nat) ≠ Ok key;
  ad_loaded : loaded (db_wal s) key entries 2;
  (* the payloads are within the limit of the reader *)
  ad_read_definition : readable (definition_payload name k (schema_epoch (db s').2) (sql statement) deps);
  ad_read_metadata : readable (new_metadata_payload name (clock (db s).1 0%nat));
  ad_created : ∃ m, creates statement name k columns deps m ∧ m s = (Done (Applied 1), s')
}.

(** an acknowledged CREATE VIEW, CREATE OLAP VIEW, CREATE TRIGGER, CREATE PROCEDURE or CREATE FUNCTION survives a
    restart, whatever system calls failed on the way, except for the dimensions of an OLAP view.  In memory the catalog
    gains exactly the object.  The log of the database gains the records from which a start, whose catalog did not know
    the object before, recovers it under a new id: its name, text, dependencies and metadata are the same, and an OLAP
    view has no dimensions any more, because the record of its definition does not carry them. *)
Theorem created_definition_replays statement name k columns deps s s' key entries :
  acknowledged_definition statement name k columns deps s s' key entries →
  let object uid columns :=
    set_entity_metadata_of (server_metadata (clock (db s).1 0%nat))
      (new_object k uid name (sql statement) columns (normalize_identifier <$> deps)) in
  let uid := fresh_ids (db s).1 0%nat in
  entities (db s') = <[uid := object uid columns]> (entities (db s))
  ∧ ∃ new, storage (db_wal s') !! key = Some (entries ++ new)
    ∧ ∀ base s0 j,
        catalog_wf base → replay_records entries 0 base = (Ok j, s0) → resolve_entity_key name s0 = None →
        entities s0 !! fresh_ids s0.1 0%nat = None → schema_epoch s0.2 ≤ schema_epoch (db s').2 →
        let uid := fresh_ids s0.1 0%nat in
        ∃ s1, replay_records (entries ++ new) 0 base = (Ok (j + 2), s1)
          ∧ entities s1 = <[uid := object uid []]> (entities s0).
Proof.
  intros [Hn Hwf Hep Hkey Hstream Hl Hr1 Hr2 (m & Hm & E)] object uid.
  destruct (creates_inv _ _ _ _ _ _ _ _ _ Hm E) as (label & Ec). destruct (entities_now s) as (Hen & Hcn & Hwn).
  assert (catalog_wf (db (now s).2) ∧ fresh_ids (db (now s).2).1 0%nat = uid) as [Hwf' Huid].
  { unfold uid, now. destruct (db s) as [st c]. split; [by apply wf_draw|done]. }
  apply (create_object_logged _ _ _ _ _ _ _ _ _ _ key entries 0) in Ec; rewrite ?Hcn, ?Hwn, ?Huid; try done.
  rewrite Huid, Hen in Ec. destruct Ec as (r1 & r2 & [Hl' _] & H1' & H2' & He). split; [done|].
  exists [r1; r2]. split; [done|]. intros base s0 j Hb Hj Hres Hnew Hle uid'.
  rewrite replay_records_app, Hj. apply (definition_replayed k name (schema_epoch (db s').2)); try done.
  by eapply (preserves_replay_records entries 0).
Qed.

(** CREATE VIEW under a name that is not in its normal form, such as one with an upper-case letter, is rejected with
    its work half done.  The view is registered under the normal form of the name, then looked up under the name as
    written, which finds nothing; the rejected statement leaves the view in the catalog and nothing in the log. *)
Theorem mixed_case_view_half_made statement name deps s :
  let id := normalize_identifier name in
  let uid := fresh_ids (db s).1 0%nat in
  parse_create_view_dependencies_from_sql (sql statement) = Some deps → catalog_wf (db s) → id ≠ name → uid ≠ name →
  resolve_entity_key id (db s) = None → resolve_entity_key name (db s) = None → entities (db s) !! uid = None →
  ∃ s', create_view_in node_data_dir name statement s = (Return (Rejected "create view WAL stream lookup failed"), s')
    ∧ entities (db s') = <[uid := EntityView (DatabaseView_new uid id (sql statement) (TableSchema_new []))]> (entities (db s))
    ∧ db_wal s' = db_wal s.
Proof.
  intros id uid Hp Hwf Hid Huid Hres Hraw Hnew.
  destruct (entities_now s) as (Hen & Hcn & Hwn).
  assert (catalog_wf (db (now s).2) ∧ fresh_ids (db (now s).2).1 0%nat = uid ∧ resolve_entity_key id (db (now s).2) = None)
    as (Hwf' & Huid' & Hres').
  { unfold uid, now. destruct (db s) as [st c]. split_and!; [by apply wf_draw|done|done]. }
  set (make uid := EntityView (DatabaseView_new uid id (sql statement) (TableSchema_new []))).
  destruct (register_object (db (now s).2) id make SqlView uid) as (c & Ec & [Hwfc _ _] & He & _); try done; [by rewrite Hen|].
  rewrite Hen in He. unfold create_view_in. rewrite Hp. unfold chain at 1, some_or_reject at 1, done at 1. cbv beta iota.
  assert (entity name c = None) as Hent.
  { destruct (entity name c) eqn:E; [|done]. exfalso. unfold entity in E. apply bind_Some in E as (k & Ek & _).
    apply (resolve_denotes _ _ _ Hwfc) in Ek. unfold denotes in Ek. destruct (resolve_None _ _ Hwf Hraw) as [Hk Hn].
    rewrite He, lookup_insert_ne, Hk in Ek by done. destruct Ek as (e & Ee & Hname).
    apply lookup_insert_Some in Ee as [[<- <-]|[_ Ee]]; [done|by apply (Hn k e)]. }
  set (s1 := mkDb c (db_wal (now s).2) (db_indexes (now s).2) (db_cache (now s).2)). exists s1. split_and!; [|done|done].
  unfold chain at 1. replace (now s) with (Done (clock (db s).1 0%nat), (now s).2) by (unfold now; by destruct (db s)).
  cbv beta iota. unfold chain at 1, try_catalog at 1, chain at 1, catalog_op at 1, register_view. fold id make. rewrite Ec.
  cbn [ok_or_reject done]. unfold define_object, chain at 1, look at 1. fold s1. cbv beta iota.
  unfold chain at 1, look at 1, catalog_entity_wal_stream_id, with_entity_read. cbn [db s1]. by rewrite Hent.
Qed.
End definitions.
