(* ===== verification/DdlIndexFacts.v ===== *)
(** * The index that CREATE INDEX fills

    CREATE INDEX scans the live rows of the table and puts their keys into the runtime index without the references
    of the rows.  [created_index_misses_old_rows] follows such a key to the next insertion. *)

From Stdlib Require Import ZArith Lia.
From stdpp Require Import base gmap list strings.
From S2P Require Import Prelude Settings Record RowPayload WalFile Wal WalManager Identifiers Text LiveRows Replay WalOps Schema.
From S2P Require Import RowCodec FieldValue Postings IndexKey DatabaseIndex RuntimeIndex RuntimeIndexFacts Indexors IndexStore.
From S2P Require Import IndexTracking.
From S2P Require Import AlterTable Migration Entities Catalog CatalogFacts CatalogReplay CatalogFile Statements DdlText Ddl DdlFacts.

Local Open Scope Z_scope.

Section created_index.
Context `{RowCrypto} `{Zlib} `{Env} `{Digest} `{HashOrder} `{!HashOrderLaws} `{SqlFrontEnd} `{SchemaHasher} `{FieldValues}.
Context `{UuidText} `{BinarySearch}.
Context {ordinal_bincode : Bincode OrdinalRowPayload} {map_bincode : Bincode row_map}.
Context {value_list_bincode : Bincode (list bytes)}.
Context `{Bincode EncryptedRowPayloadEnvelope} `{Bincode LegacyEncryptedRowPayloadEnvelope} `{Bincode TransactionRecord}.
Context `{Bincode IndexLifecyclePayload}.
Context (available_workers : Z).

(** ** A key without references *)

Lemma encode_key_settings s s' key :
  numeric_kind s' = numeric_kind s → string_case_insensitive s' = string_case_insensitive s →
  encode_key s' key = encode_key s key.
Proof. intros Hn Hc. unfold encode_key. by rewrite Hn, Hc. Qed.

Lemma collect_entries_None (l : list IndexKey) (k : IndexKey) (m : gmap IndexKey (option Z)) :
  m !! k = Some None ∨ (m !! k = None ∧ k ∈ l) → foldl (λ es '(k, r), <[k := r]> es) m ((λ k, (k, None : option Z)) <$> l) !! k = Some None.
Proof.
  revert m. induction l as [|k0 l IH]; intros m Hm; simpl; [destruct Hm as [?|[_ []%not_elem_of_nil]]; done|].
  apply IH. destruct (decide (k0 = k)) as [->|Hne]; [left; apply lookup_insert_eq|]. rewrite lookup_insert_ne by done.
  destruct Hm as [?|[? [->|?]%elem_of_cons]]; [by left|done|by right].
Qed.

Lemma rebuilt_entry keys s key k :
  key ∈ keys → encode_key s key = Some k → entries (rebuild keys s) !! k = Some None ∧ non_unique_row_refs (rebuild keys s) = ∅.
Proof.
  intros Hin Ek. split; [|done]. unfold rebuild. simpl. unfold collect_entries.
  assert (omap (λ key, (λ encoded, (encoded, None)) <$> encode_key s key) keys
          = (λ k, (k, None : option Z)) <$> omap (encode_key s) keys) as ->.
  { clear. induction keys as [|key keys IH]; [done|]. csimpl. destruct (encode_key s key); csimpl; [by f_equal|done]. }
  apply collect_entries_None. right. split; [done|]. apply list_elem_of_omap. eauto.
Qed.

(** An insertion under such a key makes the new row the only one the index knows. *)
Lemma insert_after_rebuild keys s i key k r :
  is_unique_key i = false → key ∈ keys → encode_key s key = Some k → 0 ≤ r < u64_max →
  ∃ s', insert_with_row_ref key (Some r) (set_index (Some i) (rebuild keys s)) = Some s'
    ∧ row_refs_for_key s' key None = [r].
Proof.
  intros Hu Hin Ek Hr. destruct (rebuilt_entry keys s key k Hin Ek) as [Ee En].
  set (s0 := set_index (Some i) (rebuild keys s)).
  assert (encode_key s0 key = Some k) as Ek0 by (rewrite <- Ek; by apply encode_key_settings).
  assert (Hp : Some r ≫= pack_row_ref = Some (r + 1)) by (simpl; unfold pack_row_ref; rewrite (proj2 (Z.ltb_lt _ _)); [done|lia]).
  unfold insert_with_row_ref. rewrite Ek0. unfold unique_or_unset. simpl index. cbn [fmap option_fmap option_map default from_option].
  unfold Datatypes.id. rewrite Hu, Hp. change (entries s0) with (entries (rebuild keys s)). rewrite Ee.
  change (non_unique_row_refs s0) with (non_unique_row_refs (rebuild keys s)). rewrite En, lookup_empty.
  set (p := {| inline_row_ref := Some (r + 1); pages := []; posting_len := 1 |}).
  set (s1 := set_maps (entries (rebuild keys s)) {[k := p]} (ordered_entry_keys s0) s0). exists s1. split; [done|].
  unfold row_refs_for_key. rewrite (encode_key_settings s0 s1) by done. rewrite Ek0.
  assert (unique_index s1 = false) as -> by (unfold unique_index; simpl; by rewrite Hu).
  change (entries s1) with (entries (rebuild keys s)). rewrite Ee. change (non_unique_row_refs s1) with ({[k := p]} : gmap IndexKey PostingPages).
  cbn [mjoin option_join unpack_row_ref fmap option_fmap option_map]. rewrite lookup_singleton_eq.
  unfold append_row_refs. simpl. unfold saturating_sub. f_equal. lia.
Qed.

(** ** The statement *)

(** A named index that has been added to the table it names. *)
Lemma named_index_step id name names s index_id s' :
  catalog_wf s → create_index id name names s = (Ok index_id, s') →
  ∃ k t i, table_at s' (normalize_identifier id) k t ∧ table_indexes t !! index_id = Some i
    ∧ DatabaseIndex.index_id i = index_id ∧ index_kind i = IndexIndexed ∧ origin i = UserDefined.
Proof.
  intros Hwf. unfold create_index, create_index_with_kind_and_origin. destruct (is_empty _); [done|]. unfold bind.
  match goal with |- context [with_table_mut ?id ?f s] => destruct (with_table_mut id f s) as [[r|e] s1] eqn:E end; [|done].
  assert (∃ k t, table_at s (normalize_identifier id) k t) as (k & t & Ht).
  { unfold with_table_mut in E. rewrite with_entity_mut_eq in E by done.
    destruct (resolve_entity_key _ s) as [k|] eqn:Er; [|done]. apply (resolve_denotes _ _ _ Hwf) in Er. simpl in E.
    destruct (entities s !! k) as [e|] eqn:Ee; [|done]. destruct e as [t|v|v|rel|tr|p]; try done. by exists k, t. }
  destruct (with_table_mut_inv _ _ _ _ _ _ _ Ht E) as (t' & Ea & Hstep). clear E.
  destruct (negb _); [done|].
  destruct (match normalize_identifier <$> name with None => _ | Some _ => _ end) as [i|] eqn:Ei; [|done].
  simpl in Ea. destruct (table_indexes t !! DatabaseIndex.index_id i); [done|]. injection Ea as <- <-.
  destruct (Hstep eq_refl eq_refl) as [Ht' _]. destruct s1 as [st1 c1].
  unfold bump_schema_epoch, update, ret. intros [= <- <-].
  exists k, (set_table_indexes (insert_index i (table_indexes t)) t), i.
  split; [by apply (table_at_catalog st1 _ c1)|]. split; [apply lookup_insert_eq|]. split; [done|].
  destruct (normalize_identifier <$> name) as [[|ch n]|]; simplify_eq; done.
Qed.

Lemma index_mut_done stream id f s s' :
  index_mut stream id f s = (Done tt, s') →
  db s' = db s ∧ db_wal s' = db_wal s ∧ update_index_for_table stream id f (db_indexes s) = Some (db_indexes s').
Proof. unfold index_mut. destruct (update_index_for_table _ _ _ _); [by intros [= <-]|done]. Qed.

(** The state the store holds of an index that has been updated. *)
Lemma updated_index stream id f store store' :
  update_index_for_table stream id f store = Some store' →
  ∃ st, f (state_of store (scoped_index_id stream id)) = Some st
    ∧ index_for_table store' stream id = Some st ∧ state_of store' (scoped_index_id stream id) = st.
Proof.
  intros E. unfold update_index_for_table in E. destruct (f (state_of store (scoped_index_id stream id))) as [st|] eqn:Ef.
  - destruct (update_index_spec _ _ _ _ Ef) as (store1 & E1 & Hi & Hs & _). rewrite E in E1. injection E1 as <-. eauto.
  - unfold update_index in E. unfold state_of in Ef. by rewrite Ef in E.
Qed.

(** What an acknowledged CREATE INDEX leaves in the store. *)
Lemma create_index_fills statement name id names if_not_exists s s' :
  parse_create_index_spec (sql statement) = Ok (name, id, names, if_not_exists) → normalize_identifier id = id →
  catalog_wf (db s) → create_index_in available_workers statement s = (Done (Applied 1), s') →
  ∃ k t i entry wal rows st,
    table_at (db s') id k t ∧ table_indexes t !! index_id i = Some i ∧ index_kind i = IndexIndexed ∧ origin i = UserDefined
    ∧ let stream := default id (catalog_entity_wal_stream_id id (db s')) in
      load_live_rows_with_context (λ p, ok (decode_row_payload_with_schema_cache entry p)) available_workers stream
        (row_payload_context id (db s')) wal = (Ok rows, db_wal s')
      ∧ state_of (db_indexes s') (scoped_index_id stream (index_id i))
        = set_index (Some i) (rebuild ((λ row, index_value_tuple i row.2) <$> rows) st).
Proof.
  intros Hparse Hid Hwf E. unfold create_index_in in E. rewrite Hparse in E. unfold chain at 1, ok_or_reject at 1, done at 1 in E.
  cbv beta iota in E. apply chain_done in E as (created & s1 & E1 & E). unfold catalog_op in E1.
  destruct (create_index id name names (db s)) as [r c1] eqn:Ec. injection E1 as <- <-.
  destruct r as [iid|e]; [|destruct e; try done; by destruct if_not_exists].
  destruct (named_index_step _ _ _ _ _ _ Hwf Ec) as (k & t & i & Ht & Hi & Hiid & Hkind & Horig). rewrite Hid in Ht.
  unfold chain at 1, look at 1 in E. cbv beta iota in E. cbn [db] in E. rewrite (table_at_index _ _ _ _ _ Ht), Hi in E.
  unfold chain at 1, look at 1 in E. cbv beta iota in E. cbn [db] in E.
  destruct (serialize _) as [p|]; [|by apply chain_done in E as (? & ? & _ & ?)].
  unfold chain at 1, look at 1 in E. cbv beta iota in E. set (s1 := mkDb c1 (db_wal s) (db_indexes s) (db_cache s)) in *.
  apply chain_done in E as (ts & s2 & En & E). assert (s2 = (now s1).2) as -> by (by rewrite En).
  apply (table_at_now s1) in Ht. set (s2 := (now s1).2) in *.
  apply chain_done in E as (r & s3 & E3 & E). unfold wal_op in E3.
  destruct (append_payload_record _ _ _ _ _) as [r0 wal3]. injection E3 as <- <-.
  destruct r0 as [[]|e]; [|by apply chain_done in E as (? & ? & _ & ?)].
  unfold chain at 1, look at 1 in E. cbv beta iota in E. cbn [db] in E. rewrite (table_at_read _ _ _ _ Ht) in E.
  unfold chain at 1, some_or_reject at 1, done at 1 in E. cbv beta iota in E.
  unfold chain at 1, look at 1 in E. cbv beta iota in E. cbn [db] in E. rewrite Hi in E.
  apply chain_done in E as ([] & s4 & (Hd4 & Hw4 & E4)%index_mut_done & E). cbn [db db_wal] in Hd4, Hw4.
  assert (should_track_index i = true) as Htrack by (unfold should_track_index, is_temporary; rewrite Horig; simpl; by destruct (is_unique_key i)).
  rewrite Htrack in E. apply chain_done in E as (keys & s5 & E5 & E).
  unfold chain at 1, look at 1 in E5. cbv beta iota in E5. apply chain_done in E5 as (rows & s6 & E6 & E5).
  apply chain_done in E5 as (rows' & s7 & [-> ->]%ok_done & [= <- <-]).
  unfold live_rows_of in E6. destruct (schema_ordinal_cache_entry (schema t) (db_cache s4)) as [entry cache].
  destruct (load_live_rows_with_context _ _ _ _ (db_wal s4)) as [r6 wal6] eqn:El. injection E6 as -> <-.
  apply chain_done in E as ([] & s8 & (Hd8 & Hw8 & E8)%index_mut_done & [= <-]). cbn [db db_wal db_indexes] in Hd8, Hw8, E8.
  apply updated_index in E8 as (st & [= Est] & _ & Hst). rewrite Hd4 in Hd8, El.
  exists k, t, i, entry, (db_wal s4), rows', (state_of (db_indexes s4) (scoped_index_id (default id (catalog_entity_wal_stream_id id (db s2))) (index_id i))).
  rewrite Hiid. split_and!; try done.
  - by rewrite Hd8.
  - rewrite Hd8, Hw8. split; [exact El|]. by rewrite <- Hiid, Hst, <- Est.
Qed.

(** an index made by CREATE INDEX on a table with rows loses them.  The statement scans the live rows and stores
    their keys without references.  When a row with the same key is inserted later, the index answers that key with
    the new row alone, though the old one is live: queries that read the table through the index, and counts, miss it
    until the index is rebuilt by a restart. *)
Theorem created_index_misses_old_rows statement name id names if_not_exists s s' :
  parse_create_index_spec (sql statement) = Ok (name, id, names, if_not_exists) → normalize_identifier id = id →
  catalog_wf (db s) → create_index_in available_workers statement s = (Done (Applied 1), s') →
  ∃ i rows entry wal,
    let stream := default id (catalog_entity_wal_stream_id id (db s')) in
    index_in_table id (index_id i) (db s') = Some i
    ∧ load_live_rows_with_context (λ p, ok (decode_row_payload_with_schema_cache entry p)) available_workers stream
        (row_payload_context id (db s')) wal = (Ok rows, db_wal s')
    ∧ ∀ old row r, old ∈ rows → index_value_tuple i row = index_value_tuple i old.2 → 0 ≤ r < u64_max → r ≠ old.1 →
        is_Some (encode_key (state_of (db_indexes s') (scoped_index_id stream (index_id i))) (index_value_tuple i row)) →
        ∃ store st, record_row_for_table stream i row (Some r) (db_indexes s') = Some store
          ∧ index_for_table store stream (index_id i) = Some st
          ∧ row_refs_for_key st (index_value_tuple i row) None = [r]
          ∧ old.1 ∉ row_refs_for_key st (index_value_tuple i old.2) None.
Proof.
  intros Hparse Hid Hwf E.
  destruct (create_index_fills _ _ _ _ _ _ _ Hparse Hid Hwf E) as (k & t & i & entry & wal & rows & st & Ht & Hi & Hkind & Horig & Hload & Hst).
  exists i, rows, entry, wal. cbv zeta in *. set (stream := default id _) in *.
  split; [by rewrite (table_at_index _ _ _ _ _ Ht)|]. split; [done|]. intros old row r Hold Hsame Hr Hne [ek Hek].
  set (keys := (λ row, index_value_tuple i row.2) <$> rows) in *. rewrite Hst in Hek.
  assert (encode_key st (index_value_tuple i row) = Some ek) as Hek' by (rewrite <- Hek; symmetry; by apply encode_key_settings).
  destruct (insert_after_rebuild keys st i (index_value_tuple i row) ek r) as (st' & Eins & Hrefs); [|..|done|done|].
  { unfold is_unique_key. by rewrite Hkind. }
  { rewrite Hsame. apply list_elem_of_fmap. eauto. }
  unfold record_row_for_table, should_track_index, is_temporary. rewrite Horig. simpl. rewrite if_same.
  destruct (update_index_spec (scoped_index_id stream (index_id i)) (record_state i row (Some r)) (db_indexes s') st')
    as (store & Eu & Hix & _ & _).
  { rewrite Hst. unfold record_state. exact Eins. }
  exists store, st'. split; [exact Eu|]. split; [exact Hix|]. split; [done|]. rewrite <- Hsame, Hrefs. set_solver.
Qed.

End created_index.
