(* ===== verification/DatabaseFacts.v ===== *)
(** * Dropping and creating databases

    The id of a database is made of its name, and its log is found by its id.  DROP DATABASE forgets the catalog and
    its file but not the log, and CREATE DATABASE does not look for a database or a log that is there already:

    - [create_database_replaces]: it replaces the catalog of a database of that name by an empty one;
    - [dropped_table_returns]: a table of a database that was dropped comes back, after a restart, in a database that
      is created under its name. *)

From Stdlib Require Import ZArith Lia.
From stdpp Require Import base gmap list strings.
From S2P Require Import Prelude Settings Record RowPayload WalFile Wal WalManager Identifiers Text LiveRows Replay WalOps Schema.
From S2P Require Import RowCodec FieldValue DatabaseIndex RuntimeIndex Indexors IndexStore AlterTable Migration Entities.
From S2P Require Import Catalog CatalogFacts CatalogReplay CatalogFile Statements DdlText Ddl DdlFacts.

Local Open Scope Z_scope.

Section databases.
Context `{RowCrypto} `{Zlib} `{Env} `{Digest} `{HashOrder} `{!HashOrderLaws} `{SqlFrontEnd} `{BinarySearch}.
Context `{Bincode EncryptedRowPayloadEnvelope} `{Bincode LegacyEncryptedRowPayloadEnvelope} `{Bincode TransactionRecord}.
Context `{Bincode DatabaseCatalogSnapshot}.
Context {sc_bincode : Bincode SchemaChangePayload} {sc_laws : BincodeLaws SchemaChangePayload stored_schema_change}.
Context {tl_bincode : Bincode TableLifecyclePayload} {tl_laws : BincodeLaws TableLifecyclePayload stored_table_lifecycle}.
Context {il_bincode : Bincode IndexLifecyclePayload} {il_laws : BincodeLaws IndexLifecyclePayload (λ p, p)}.
Context {em_bincode : Bincode EntityMetadataPayload} {em_laws : BincodeLaws EntityMetadataPayload (λ p, p)}.
Context {sd_bincode : Bincode SqlDefinitionPayload}.
Context (node_data_dir : ustr).

(** A catalog without objects. *)
Definition empty_catalog (key : ustr) (c : DatabaseCatalog) : Prop :=
  catalog_id c = key ∧ entity_handles c = ∅ ∧ schema_epoch c = 0.

Lemma transition_keeps next key st c s' :
  empty_catalog key c → transition_status next (st, c) = (Ok tt, s') → empty_catalog key s'.2.
Proof.
  intros Hc. unfold transition_status, bind, reads. destruct (can_transition_to _ next); [|done]. by intros [= <-].
Qed.

Lemma create_new_database_empty name dir st w c w' key :
  from_database_name name = Ok key → create_new_database name dir st w = (Ok c, w') → empty_catalog key c.
Proof.
  intros Hkey. unfold create_new_database, create_empty_from_name. rewrite Hkey. simpl.
  set (c0 := ensure_default_root_account_acl _).
  assert (empty_catalog key c0) as Hc0 by (unfold c0, ensure_default_root_account_acl; by destruct (_ !! _)).
  destruct (transition_status StatusSync (st, c0)) as [[[]|e] s1] eqn:E1; [|done].
  apply (transition_keeps _ _ _ _ _ Hc0) in E1. destruct (save_in_directory dir s1 w) as [[[]|e] w1]; [|done].
  destruct s1 as [st1 c1].
  destruct (transition_status StatusReady (st1, c1)) as [[[]|e] s2] eqn:E2; [|done].
  apply (transition_keeps _ _ _ _ _ E1) in E2. destruct (save_in_directory dir s2 w1) as [[[]|e] w2]; [|done].
  by intros [= <- <-].
Qed.

Lemma empty_entities st c : entity_handles c = ∅ → entities (st, c) = ∅.
Proof. intros Hh. unfold entities. simpl. by rewrite Hh, omap_empty. Qed.

Lemma empty_wf st c : entity_handles c = ∅ → catalog_wf (st, c).
Proof.
  intros Hh. split; rewrite ?empty_entities by done; try done. simpl. intros k h. by rewrite Hh, lookup_empty.
Qed.

Lemma empty_resolve id st c : entity_handles c = ∅ → resolve_entity_key id (st, c) = None.
Proof.
  intros Hh. destruct (resolve_entity_key id (st, c)) as [k|] eqn:E; [|done].
  apply (resolve_denotes _ _ _ (empty_wf st c Hh)) in E as [e He]%denotes_present. by rewrite empty_entities in He.
Qed.

(** What an acknowledged CREATE DATABASE leaves. *)
Lemma created_database statement name key n n' :
  object_name statement = Some name → from_database_name name = Ok key →
  execute_create_database_impl node_data_dir statement n = (Some (Applied 1), n') →
  ∃ c, empty_catalog key c ∧ catalogs n' = <[key := c]> (catalogs n) ∧ storage (node_wal n') = storage (node_wal n).
Proof.
  intros Hname Hkey. unfold execute_create_database_impl. rewrite Hname.
  destruct (parse_create_database_encryption_key_ref _ _ _) as [kr [st c0]].
  destruct (create_new_database name node_data_dir st _) as [[c|e] w] eqn:Ec; [|by destruct kr].
  apply (create_new_database_empty _ _ _ _ _ _ _ Hkey) in Ec as Hc. destruct kr as [[key_ref|]|e]; [| |done].
  - unfold configure_at_rest_encryption_key_ref. destruct (is_empty _); [done|]. destruct (encryption_key_ref c) as [cur|].
    + destruct (str_eqb _ _); [|done]. destruct (save_in_directory _ _ w) as [[[]|e] w1]; [|done].
      intros [= <-]. exists c. by rewrite (proj1 Hc).
    + set (c1 := set_encryption _ _ c). destruct (save_in_directory _ (st, c1) w) as [[[]|e] w1]; [|done].
      intros [= <-]. exists c1. destruct Hc as (<- & ? & ?). done.
  - intros [= <-]. exists c. by rewrite (proj1 Hc).
Qed.

(** What an acknowledged DROP DATABASE leaves. *)
Lemma dropped_database statement n n' :
  execute_drop_database node_data_dir statement n = (Some (Applied 1), n') → storage (node_wal n') = storage (node_wal n).
Proof.
  unfold execute_drop_database. destruct (object_name statement); [|done].
  destruct (resolve_catalog_mut _ _ ≫= _) as [[key c]|].
  - destruct (remove_file _ _) as [removed w]. intros [= _ <-]. done.
  - destruct (drop_statement_has_if_exists _); [by intros [= ]|done].
Qed.

(** CREATE DATABASE of a name that is taken does not refuse: it is acknowledged and the catalog of the database is
    replaced by an empty one, so none of its objects can be found any more, while its log is still there. *)
Theorem create_database_replaces statement name key old n n' :
  object_name statement = Some name → from_database_name name = Ok key → catalogs n !! key = Some old →
  execute_create_database_impl node_data_dir statement n = (Some (Applied 1), n') →
  ∃ c, catalogs n' !! key = Some c ∧ (∀ id, resolve_entity_key id (node_store n', c) = None)
    ∧ storage (node_wal n') = storage (node_wal n).
Proof.
  intros Hname Hkey Hold E. destruct (created_database _ _ _ _ _ Hname Hkey E) as (c & (Hid & Hh & Hep) & Hc & Hs).
  exists c. split; [by rewrite Hc, lookup_insert_eq|]. split; [|done]. intros id. by apply empty_resolve.
Qed.

(** a table of a dropped database comes back.  Let the first table of a database be created, the database be
    dropped and one of its name be created, all acknowledged.  The new catalog has no objects; but the log of the old
    database is still there and the new one has its id, so the next start recovers the table into the new database. *)
Theorem dropped_table_returns create plan s s' key n1 drop n2 again name n3 :
  acknowledged create plan s s' key [] →
  from_database_name name = Ok (catalog_id (db s).2) → schema_epoch (db s).2 = 0 → node_wal n1 = db_wal s' →
  execute_drop_database node_data_dir drop n1 = (Some (Applied 1), n2) →
  object_name again = Some name → execute_create_database_impl node_data_dir again n2 = (Some (Applied 1), n3) →
  let id := normalize_identifier (plan_table_id plan) in
  ∃ c log, catalogs n3 !! catalog_id (db s).2 = Some c ∧ resolve_entity_key id (node_store n3, c) = None
    ∧ storage (node_wal n3) !! key = Some log
    ∧ ∃ j s1, replay_records log 0 (node_store n3, c) = (Ok j, s1) ∧ table_schema id s1 = Some (plan_schema plan).
Proof.
  intros Hack Hname Hep Hwal Hdrop Hobj Hagain id.
  destruct (created_database _ _ _ _ _ Hobj Hname Hagain) as (c & (Hid & Hh & Hce) & Hc & Hs3).
  apply dropped_database in Hdrop as Hs2.
  destruct (created_table_recovered create plan s s' key [] Hack) as (new & m & [Hl _] & _ & _ & _ & _ & _ & _ & Hrec).
  exists c, ([] ++ new). split; [by rewrite Hc, lookup_insert_eq|]. split; [by apply empty_resolve|].
  split; [by rewrite Hs3, Hs2, Hwal|].
  destruct (Hrec (node_store n3, c) (node_store n3, c)) as (j & s1 & E & Ht & _).
  { split; [by apply empty_wf|]. split; [by exists 0|]. split; [by apply empty_resolve|].
    split; [by rewrite empty_entities|]. simpl. lia. }
  exists j, s1. split; [done|]. by rewrite (table_at_schema _ _ _ _ Ht).
Qed.

End databases.
