(* ===== verification/Witnesses.v ===== *)
(** * Witnesses

    The theorems with hypotheses, applied at concrete inputs with the instances of
    [Instances.v]. *)

From Stdlib Require Import ZArith Lia Strings.Byte.
From stdpp Require Import base list gmap strings.
From S2P Require Import Prelude Settings Base64 Record RowPayload WalFile Wal WalManager WalManagerFacts.
From S2P Require Import WalDurability Instances WalFaults LiveRows Replay WalOps Identifiers Statements Coordinator.

#[local] Existing Instances plain_crypto plain_crypto_laws plain_zlib plain_zlib_laws empty_env
  first_match first_match_laws plain_digest envelope_bincode envelope_bincode_laws legacy_bincode
  record_bincode record_bincode_laws frame_bincode frame_bincode_laws.

(** ** Records and payloads *)

Definition insert_record (i : Z) (p : bytes) : TransactionRecord :=
  new_record i None None 7 (lit "root") Insert (Some p).

Lemma wal_frame_roundtrip_witness :
  ∃ encoded,
    @encode_wal_frame frame_bincode (lit "db.t", insert_record 1 [x0a; x0b]) = Ok encoded ∧
    @decode_wal_frame frame_bincode encoded = Ok (lit "db.t", insert_record 1 [x0a; x0b]).
Proof.
  eexists. split; [vm_compute; reflexivity|].
  apply (@wal_frame_roundtrip frame_bincode frame_bincode_laws (lit "db.t", insert_record 1 [x0a; x0b]));
    vm_compute; congruence.
Defined.

Definition encrypted_context : TransactionPayloadContext :=
  with_at_rest_encryption default_transaction_payload_context (lit "k") 3.

Lemma at_rest_roundtrip_witness :
  ∃ bs,
    @encryption_write_transform plain_crypto envelope_bincode legacy_bincode
      (Some (replicate 12 x01)) (insert_record 1 [x0a]) [x0a] encrypted_context = Ok (Some bs) ∧
    @decryption_transform plain_crypto envelope_bincode legacy_bincode bs encrypted_context
    = Ok (Some [x0a]).
Proof.
  eexists. split; [vm_compute; reflexivity|].
  apply (@at_rest_roundtrip plain_crypto plain_crypto_laws envelope_bincode envelope_bincode_laws
           legacy_bincode (insert_record 1 [x0a]) encrypted_context (lit "k") 3 (replicate 12 x01));
    [repeat split; try discriminate; lia|auto|vm_compute; reflexivity|reflexivity|discriminate
    |vm_compute; reflexivity|intros x _; simpl; vm_compute; discriminate].
Defined.

(** ** Files *)

Lemma encrypted_storage_roundtrip_witness :
  ∃ e bs,
    encrypt_row_payload (Some (replicate 12 x01)) encrypted_context [x0a] = Ok e ∧
    encode_record_for_storage_with_context (Some (replicate 12 x01)) (insert_record 1 [x0a]) encrypted_context
    = Ok bs ∧
    decode_record_from_storage_with_context bs encrypted_context
    = Ok (set_payload (Some [x0a]) (Some encrypted_context) (insert_record 1 [x0a])) ∧
    decode_record_from_storage_with_context bs default_transaction_payload_context
    = Ok (set_stored (Some e) None (insert_record 1 [x0a])) ∧
    resolve_wal_storage_payload (Some e) encrypted_context = Ok (Some (Owned [x0a])).
Proof.
  eexists _, _. split; [vm_compute; reflexivity|]. split; [vm_compute; reflexivity|].
  apply (encrypted_storage_roundtrip (replicate 12 x01) (insert_record 1 [x0a]) encrypted_context (lit "k") 3 [x0a]);
    [repeat split; try discriminate; lia|auto|reflexivity|discriminate|reflexivity|vm_compute; reflexivity
    |vm_compute; reflexivity|vm_compute; reflexivity|vm_compute; reflexivity
    |intros x _; vm_compute; discriminate|intros x _; vm_compute; discriminate].
Defined.

Lemma storable_row i : i = 1 ∨ i = 2 ∨ i = 3 → storable (insert_record i [x0a]).
Proof.
  intros Hi. split.
  - intros p [= <-] _. reflexivity.
  - intros rand bs He. split; [|intros x _; vm_compute; discriminate].
    destruct Hi as [-> |[-> | ->]]; vm_compute in He; injection He as <-; vm_compute; discriminate.
Qed.

Ltac storable_rows := repeat (apply List.Forall_cons; [apply storable_row; auto|]); apply List.Forall_nil.

(** Two old records, one more behind them, and a crash that keeps 8 bytes of its frame. *)
Lemma torn_append_replays_prefix_witness :
  ∃ content frames k,
    rewritten_wal_bytes (λ _, None) [insert_record 1 [x0a]; insert_record 2 [x0a]]
      default_transaction_payload_context = Ok content ∧
    frame_records (λ _, None) [insert_record 3 [x0a]] default_transaction_payload_context = Ok frames ∧
    load_records_from_path (Some (take (length content + 8) (content ++ frames)))
    = strip_shadow <$> ([insert_record 1 [x0a]; insert_record 2 [x0a]] ++ take k [insert_record 3 [x0a]]).
Proof.
  eexists _, _.
  edestruct (torn_append_replays_prefix (λ _, None) (λ _, None)
    [insert_record 1 [x0a]; insert_record 2 [x0a]] [insert_record 3 [x0a]]) as (k & Hk & _);
    [storable_rows|storable_rows
    |vm_compute; reflexivity|vm_compute; reflexivity|apply Nat.le_add_r|].
  exists k. split; [vm_compute; reflexivity|]. split; [vm_compute; reflexivity|]. exact Hk.
Defined.

Lemma loaders_agree_witness :
  load_records_from_stream (make_header DataFile ++ [x01; x02])
  = load_records_from_path (Some (make_header DataFile ++ [x01; x02])).
Proof. apply (loaders_agree (make_header DataFile ++ [x01; x02])). vm_compute. discriminate. Defined.

(** ** The merge of a stream *)

Lemma sorted_rows : sorted_ids [row 1; row 3].
Proof. repeat constructor; vm_compute; discriminate. Qed.

Lemma append_stable_insert_witness :
  merge_record [row 1; row 3] (row 2) = [row 1; row 2; row 3] ∧
  sorted_ids (merge_record [row 1; row 3] (row 2)).
Proof. split; [vm_compute; reflexivity|]. apply (append_stable_insert [row 1; row 3] (row 2) sorted_rows). Defined.


Lemma realignment_remaps_witness :
  ∃ out, realign_records [row 4; row 9] = Ok out ∧ positions_aligned out = true.
Proof.
  pose proof (realignment_remaps [row 4; row 9]) as Hr. cbn zeta in Hr.
  destruct (realign_records [row 4; row 9]) as [out|e] eqn:E; [|vm_compute in E; discriminate].
  exists out. split; [reflexivity|]. apply Hr. repeat constructor; vm_compute; reflexivity.
Defined.

(** ** The manager *)

Definition quiet_world : World := fresh_world (λ _, IoDone).

Definition some_ops : list WalOp :=
  [OpAppend (lit "t") (row 1) default_transaction_payload_context; OpInvalidate (lit "t"); OpRestart;
   OpAppendBatch (lit "t") [row 3; row 2] default_transaction_payload_context].

Lemma has_write_after_misses_nothing_witness :
  ∃ s, has_write_after (lit "t") 5 (run_ops some_ops (new_manager (Some (lit "d")) quiet_world)) = (true, s).
Proof.
  destruct (has_write_after (lit "t") 5 (run_ops some_ops (new_manager (Some (lit "d")) quiet_world)))
    as [b s] eqn:E. exists s. f_equal.
  apply (has_write_after_misses_nothing (Some (lit "d")) quiet_world some_ops (lit "t") (lit "t:") 5 b s (row 1) 10);
    [vm_compute; reflexivity|exact E| |reflexivity|lia].
  change s with ((b, s).2). rewrite <- E. vm_compute. left.
Defined.

Lemma good_row i : i = 1 ∨ i = 2 ∨ i = 3 → good (row i).
Proof.
  intros Hi. split; [|reflexivity]. split.
  - intros p [= <-] _. reflexivity.
  - intros rand bs He. split; [|intros x _; vm_compute; discriminate].
    destruct Hi as [-> |[-> | ->]]; vm_compute in He; injection He as <-; vm_compute; discriminate.
Qed.

Lemma wal_durable_witness :
  (all_records (lit "t") (run_ops some_ops (new_manager (Some (lit "d")) quiet_world))).1
  = [row 1; row 2; row 3] ∧
  (all_records (lit "t") (new_manager (Some (lit "d"))
     (world (run_ops some_ops (new_manager (Some (lit "d")) quiet_world))))).1
  = [row 1; row 2; row 3].
Proof.
  destruct (wal_durable (lit "d") quiet_world some_ops (lit "t") (lit "t:")) as [H1 H2].
  - intros n. reflexivity.
  - reflexivity.
  - cbn [allowed_trace some_ops op_allowed]. split; [split; [reflexivity|apply good_row; auto]|].
    split; [exact I|]. split; [exact I|]. split; [|exact I]. split; [reflexivity|].
    apply List.Forall_cons; [apply good_row; auto|]. apply List.Forall_cons; [apply good_row; auto|].
    apply List.Forall_nil.
  - vm_compute. reflexivity.
  - split; [rewrite H1|rewrite H2]; vm_compute; reflexivity.
Defined.

(** ** Faults *)

Definition stored_rows (records : list TransactionRecord) : bytes :=
  match rewritten_wal_bytes (λ _, None) records default_transaction_payload_context with
  | Ok bs => bs | Err _ => [] end.

Lemma clean_row : clean_file [row 1] (stored_rows [row 1]).
Proof.
  apply (rewritten_wal_clean (λ _, None) [row 1]); [|vm_compute; reflexivity].
  apply List.Forall_cons; [apply good_row; auto|apply List.Forall_nil].
Qed.

Definition open_worker : Worker := (start_worker (Some (lit "f")) quiet_world).1.

(** The disk holds one record; the write of the next frame and its retry stop early. *)
Definition failing_world : World := mkWorld {[lit "f" := stored_rows [row 1]]} (λ _, IoFailed 3) (λ _ _, None).

Lemma ordered_append_keeps_old_records_witness :
  ∃ r wk w, worker_append open_worker [row 1] (row 2) default_transaction_payload_context failing_world
            = (Err r, wk, [row 1], w) ∧
            ∃ c, disk w !! lit "f" = Some c ∧ [row 1] `prefix_of` load_records_from_path (Some c).
Proof.
  destruct (worker_append open_worker [row 1] (row 2) default_transaction_payload_context failing_world)
    as [[[r wk] entries] w] eqn:E.
  destruct (ordered_append_keeps_old_records open_worker (lit "f") [row 1] (row 2)
    default_transaction_payload_context (stored_rows [row 1]) failing_world r wk entries w) as (_ & Hd & He);
    [vm_compute; reflexivity|vm_compute; reflexivity|exact clean_row|vm_compute; reflexivity|exact E|].
  assert (is_ok r = false) as Hr.
  { transitivity (is_ok (worker_append open_worker [row 1] (row 2) default_transaction_payload_context
      failing_world).1.1.1); [by rewrite E|vm_compute; reflexivity]. }
  destruct r as [u|m]; [discriminate Hr|]. exists m, wk, w. simpl in He. subst. split; [reflexivity|exact Hd].
Defined.

Definition rewrite_fails : World :=
  mkWorld {[lit "f" := stored_rows [row 1; row 3]]} (λ n, if Nat.eqb n 0 then IoDone else IoFailed 0) (λ _ _, None).

Lemma failed_rewrite_empties_file_witness :
  load_records_from_path (disk rewrite_fails !! lit "f") = [row 1; row 3] ∧
  ∃ w', worker_append open_worker [row 1; row 3] (row 2) default_transaction_payload_context rewrite_fails
        = (Err "failed to rewrite compacted WAL file", open_worker, [row 1; row 3], w') ∧
        load_records_from_path (disk w' !! lit "f") = [].
Proof.
  split; [vm_compute; reflexivity|].
  eapply (failed_rewrite_empties_file open_worker (lit "f") [row 1; row 3] (row 2)
    default_transaction_payload_context 1 rewrite_fails); [..|split]; vm_compute; reflexivity.
Defined.

Lemma failed_compaction_changes_memory_witness :
  ∃ w', worker_compact open_worker [row 1] (lit "u") 20 failing_world
        = (Err "failed to rewrite compacted WAL file", open_worker,
           compact_entries_to_latest_schema_and_metadata [row 1] (lit "u") 20, w') ∧
        disk w' = disk failing_world.
Proof.
  eapply (failed_compaction_changes_memory open_worker (lit "f") [row 1] (lit "u") 20 failing_world);
    [..|exists 3%nat]; vm_compute; reflexivity.
Defined.

(** ** Live rows *)

Definition log_entry (i : Z) (group ref : option Z) (k : TransactionKind) (p : option bytes) : TransactionRecord :=
  new_record i group ref 7 (lit "u") k p.

(** A plain row, a committed group, the deletion of the plain row, an open group. *)
Definition table_log : list TransactionRecord :=
  [log_entry 1 None None Insert (Some [x0a]); log_entry 2 (Some 2) None Insert (Some [x0b]);
   log_entry 3 (Some 2) None Insert (Some [x0c]); log_entry 4 (Some 2) None WriteCommit None;
   log_entry 5 None (Some 1) Delete None; log_entry 6 (Some 6) (Some 2) Delete None].

Lemma table_log_unique : unique_ids table_log.
Proof. repeat constructor. Qed.

Lemma table_log_back : refs_back table_log.
Proof. repeat constructor; intros x Hx; vm_compute in Hx; try discriminate Hx; injection Hx as <-; reflexivity. Qed.

Lemma replay_returns_live_rows_witness :
  live_rows_of Some table_log = [(2, [x0b]); (3, [x0c])] ∧
  collect_live_rows_from_records Some 8 table_log = live_rows_of Some table_log.
Proof.
  split; [vm_compute; reflexivity|].
  apply (replay_returns_live_rows Some 8 table_log table_log_unique table_log_back).
Defined.

Lemma hidden_group_leaves_no_trace_witness :
  collect_live_rows_from_records Some 8 table_log
  = collect_live_rows_from_records Some 8 (filter (λ r, groupid r ≠ Some 6) table_log).
Proof. apply (hidden_group_leaves_no_trace Some 8 table_log 6). right. apply (bool_decide_unpack _). vm_compute. exact I. Defined.

Lemma limited_replay_is_suffix_witness :
  collect_live_rows_from_records_limited Some table_log 1 = [(3, [x0c])] ∧
  collect_live_rows_from_records_limited Some table_log 1
  = drop (length (collect_live_rows_from_records Some 8 table_log) - 1)
      (collect_live_rows_from_records Some 8 table_log).
Proof.
  split; [vm_compute; reflexivity|].
  apply (limited_replay_is_suffix Some 8 table_log 1); [lia|exact table_log_unique|exact table_log_back
    |vm_compute; reflexivity].
Defined.

Lemma realignment_exposes_hidden_rows_witness :
  ∃ out, realign_records [log_entry 1 (Some 900) None Insert (Some [x0a]);
                          log_entry 2 (Some 900) (Some 1) WriteAbort None] = Ok out ∧
         visible_row Some {[900]} {[900]} (log_entry 1 (Some 900) None Insert (Some [x0a])) = None ∧
         live_rows_of Some out = [(0, [x0a])] ∧
         ∃ r', out !! 0%nat = Some r' ∧
               visible_row Some (committed_groups out) (aborted_groups out) r' = Some (0, [x0a]).
Proof.
  eexists. split; [vm_compute; reflexivity|]. split; [vm_compute; reflexivity|].
  split; [vm_compute; reflexivity|].
  refine (proj2 (realignment_exposes_hidden_rows Some
    [log_entry 1 (Some 900) None Insert (Some [x0a]); log_entry 2 (Some 900) (Some 1) WriteAbort None]
    _ 0 (log_entry 1 (Some 900) None Insert (Some [x0a])) 900 [x0a] _ _ _ _ _ _ _));
    [repeat constructor|vm_compute; reflexivity|vm_compute; reflexivity|reflexivity| | |reflexivity].
  - intros e He%list_elem_of_In. destruct He as [<- |[<- |[]]]; vm_compute; discriminate.
  - left. apply (bool_decide_unpack _). vm_compute. exact I.
Defined.

(** ** Row writes *)

#[local] Instance no_derived_state : DerivedState bytes unit := {|
  apply_table_row_mutation _ _ _ _ _ d := d;
  apply_equality_cache_row_mutation _ _ _ _ _ d := d;
  apply_runtime_index_and_equality_batch _ _ _ _ _ d := d;
  persist_table_snapshot_on_commit _ _ d := d;
  rebuild_runtime_indexes_for_table _ _ d := d
|}.

(** A manager that holds [table_log] as the stream "t". *)
Definition table_state : WalState :=
  set_storage {[lit "t:" := table_log]} (new_manager None quiet_world).

Lemma table_log_wf : log_wf table_log.
Proof. split; [exact table_log_unique|exact table_log_back]. Qed.

Definition two_inserts : result unit string * (WalState * unit) :=
  append_insert_payloads_in_value_blocks Some false (lit "t") encrypted_context [[x0d]; [x0e]] None 9 None true
    (table_state, tt).


Definition one_delete : result unit string * (WalState * unit) :=
  append_row_payload_record_with_live_row_ids_and_prepared_row_map Some true 8 (lit "t") encrypted_context Delete
    [x0b] 9 (Some 2) None None None (table_state, tt).


(** The open group 6 of [table_log], committed and aborted. *)
Lemma group_ready : Forall (ready table_state) [lit "t:"].
Proof.
  apply List.Forall_cons; [|apply List.Forall_nil]. exists table_log.
  split; [vm_compute; reflexivity|]. split; [exact table_log_wf|]. split; vm_compute; discriminate.
Qed.

Definition committed_state : result unit string * (WalState * unit) :=
  commit_external_write_group (λ _, 9) [lit "t"] 6 (table_state, tt).

Lemma commit_publishes_group_witness :
  ∃ s d entries, committed_state = (Ok tt, (s, d)) ∧ storage s !! lit "t:" = Some entries ∧
    collect_live_rows_from_records Some 8 entries = [(3, [x0c])].
Proof.
  assert (is_ok committed_state.1 = true) as Hok by (vm_compute; reflexivity).
  destruct committed_state as [r [s d]] eqn:E. destruct r as [[]|]; [|discriminate Hok].
  destruct (commit_publishes_group Some 8 (λ _, 9) [lit "t"] [lit "t:"] 6 table_state tt s d) as [_ Hin];
    [repeat constructor|apply NoDup_singleton|exact group_ready|exact E|].
  destruct (Hin (lit "t:") table_log) as (entries & Hs & _ & Hlive);
    [apply list_elem_of_singleton; reflexivity|vm_compute; reflexivity
    |apply (bool_decide_unpack _); vm_compute; exact I|].
  exists s, d, entries. split; [reflexivity|]. split; [exact Hs|]. rewrite Hlive. vm_compute. reflexivity.
Defined.


(** ** Transactions *)

(** A parser for which a query is an insert into the table it names. *)
Definition insert_into (sql database_id : ustr) : option (list SqlRequest) :=
  Some [mkSqlRequest sql SqlInsert (Some sql)].

Definition locked_state : CoordinatorState :=
  (handle_command insert_into (BeginWithTableLocks (lit "a") [lit "`T`"]) new_coordinator).2.

Lemma table_lock_is_exclusive_witness :
  handle_command insert_into (RouteQuery (lit "b") (mkDataQuery (lit "d") (lit "t")) true)
    (run_coordinator_loop insert_into [Begin (lit "b"); ApplyRemoteLocks (lit "c") [lit "t"]] locked_state).2
  = (RRoute (Rejected "table is locked by another session"),
     (run_coordinator_loop insert_into [Begin (lit "b"); ApplyRemoteLocks (lit "c") [lit "t"]] locked_state).2).
Proof.
  apply (table_lock_is_exclusive insert_into new_coordinator (lit "a") [lit "`T`"] locked_state
           [Begin (lit "b"); ApplyRemoteLocks (lit "c") [lit "t"]] (lit "t") (lit "b"));
    [vm_compute; reflexivity
    |apply List.Forall_cons; [intros []|]; apply List.Forall_cons; [intros []|]; apply List.Forall_nil
    |apply (bool_decide_unpack _); vm_compute; exact I|vm_compute; discriminate
    |apply (bool_decide_unpack _); vm_compute; exact I].
Defined.

Lemma commit_and_rollback_release_all_locks_witness :
  let s := (run_coordinator_loop insert_into [BeginWithTableLocks (lit "a") [lit "t"]] new_coordinator).2 in
  table_locks_by_table s !! lit "t" = Some (lit "a") ∧
  table_locks_by_table (handle_command insert_into (Rollback (lit "a")) s).2 !! lit "t" = None.
Proof.
  split; [vm_compute; reflexivity|].
  destruct (commit_and_rollback_release_all_locks insert_into [BeginWithTableLocks (lit "a") [lit "t"]] (lit "a")
    (Rollback (lit "a")) (lit "b") [lit "t"] (or_intror eq_refl)) as [Hl _].
  rewrite Hl. vm_compute. reflexivity.
Defined.

Lemma commit_takes_accepted_queries_witness :
  let q := mkDataQuery (lit "d") (lit "t") in
  let s := (handle_command insert_into (Begin (lit "a")) new_coordinator).2 in
  let s1 := (run_coordinator_loop insert_into [RouteQuery (lit "a") q true; Rollback (lit "b")] s).2 in
  (handle_command insert_into (TakeForCommit (lit "a")) s1).1 = RQueries (Ok [q]).
Proof.
  cbn zeta. set (q := mkDataQuery (lit "d") (lit "t")).
  pose proof (commit_takes_accepted_queries insert_into
    (handle_command insert_into (Begin (lit "a")) new_coordinator).2 (lit "a") []
    [RouteQuery (lit "a") q true; Rollback (lit "b")]) as Ht.
  destruct (run_coordinator_loop _ _ _) as [rs s1] eqn:E. cbn zeta in Ht.
  destruct (handle_command insert_into (TakeForCommit (lit "a")) s1) as [r s2] eqn:E2.
  destruct Ht as [-> _]; [vm_compute; reflexivity
    |apply List.Forall_cons; [exact I|]; apply List.Forall_cons; [vm_compute; discriminate|]; apply List.Forall_nil|].
  change (snd (rs, s1)) with s1. rewrite E2. cbn [fst].
  replace rs with (rs, s1).1 by reflexivity. rewrite <- E. vm_compute. reflexivity.
Defined.
