(* ===== verification/SchemaWitnesses.v ===== *)
(** * Witnesses for schemas and row migration

    The theorems of [Schema.v], [RowCodec.v], [AlterTable.v] and [Migration.v] with hypotheses, applied
    to a table with three text columns. *)

From Stdlib Require Import ZArith Lia Strings.Byte Sorting.Sorted.
From stdpp Require Import base list gmap strings countable.
From S2P Require Import Prelude Settings Record RowPayload WalFile Wal WalManager Instances WalFaults LiveRows.
From S2P Require Import Identifiers Schema RowCodec AlterTable Migration.

#[local] Existing Instances plain_crypto plain_zlib empty_env envelope_bincode legacy_bincode record_bincode.

(** ** Instances *)

Definition ordinal_row_bincode : Bincode OrdinalRowPayload := countable_bincode (λ r, r).

Lemma ordinal_row_bincode_laws : @BincodeLaws OrdinalRowPayload ordinal_row_bincode (λ r, r).
Proof. by apply countable_bincode_laws. Qed.

(** No payloads of the older shapes. *)
Definition row_map_bincode : Bincode row_map := {|
  serialize _ := None; deserialize _ := None; decode_budget _ := 0 |}.

Definition value_list_bincode : Bincode (list bytes) := {|
  serialize _ := None; deserialize _ := None; decode_budget _ := 0 |}.

(** Values are stored as they come and compared as bytes. *)
Definition plain_values : FieldValues := {|
  convert_value_to_field_type value _ _ := Some value;
  compare_stored_field_values a b := if eqb a b then Eq else Lt
|}.

(** A hasher without collisions, and a digest of zeros. *)
Definition shape_hasher : SchemaHasher := {| hash_shape _ shape := Z.pos (encode shape) |}.

Definition zero_digest : Digest := {| md5_hex _ := replicate 32 48 |}.

Lemma zero_digest_hex : @HexDigest zero_digest.
Proof. split. intros bs. apply Forall_replicate. lia. Qed.

#[local] Existing Instances ordinal_row_bincode ordinal_row_bincode_laws row_map_bincode
  value_list_bincode plain_values shape_hasher zero_digest zero_digest_hex.

Lemma shape_hasher_collision_free schemas : collision_free schemas.
Proof. intros s s' _ _ Hk. unfold schema_cache_key in Hk. simpl in Hk. by simplify_eq. Qed.

(** ** A table of three columns *)

Definition text_field (n : Z) (name : string) : FieldDef :=
  {| seqno := n; field_name := lit name; field_type := FText; nullable := true; indexed := NotIndexed;
     default_value := None; metadata := None |}.

Definition abc : TableSchema :=
  TableSchema_new [text_field 1 "a"; text_field 2 "b"; text_field 3 "c"].

Lemma abc_wf : schema_wf abc.
Proof.
  apply schema_wf_new. split; [repeat constructor|]. split; apply (bool_decide_unpack _); vm_compute; exact I.
Qed.

Lemma abc_dense : dense abc.
Proof. unfold dense. replace (seqno <$> fields abc) with (seqZ 1 3); [done|]. vm_compute. reflexivity. Qed.

Definition abc_row : row_map := {[lit "a" := [x61]; lit "b" := [x62]; lit "c" := [x63]]}.
Definition abc_payload : bytes := default [] (encode_row_payload abc abc_row).

Lemma abc_written : written_under abc abc_row abc_payload.
Proof.
  split; [vm_compute; reflexivity|]. split; [by left|]. vm_compute. discriminate.
Qed.

Definition abc_edits : list SchemaEdit := [AddField (text_field 4 " D "); RemoveField (lit "B")].

Lemma schema_edits_refine_map_witness :
  ∃ schema', apply_edits abc_edits abc = Ok schema' ∧ validate schema' = Ok tt ∧
    field schema' (lit " C") = as_map schema' !! lit "c".
Proof.
  destruct (schema_edits_refine_map abc_edits abc abc_wf) as [_ Hv].
  destruct (apply_edits abc_edits abc) as [schema'|e] eqn:E; [|vm_compute in E; discriminate].
  exists schema'. destruct (Hv schema' eq_refl) as [Hval Hf].
  split; [reflexivity|]. split; [exact Hval|]. exact (Hf (lit " C")).
Defined.

Lemma schema_cache_transparent_witness :
  (decode_row_payload abc abc_payload (cache_after [abc; TableSchema_new []; abc] (Some ∅))).1
  = decode_row_payload_with_schema_cache (build_entry abc) abc_payload.
Proof.
  exact (proj1 (schema_cache_transparent abc [abc; TableSchema_new []; abc] abc_payload (lit "a")
                  (shape_hasher_collision_free _))).
Defined.


(** ** Altering it *)

Definition abc_tx : SchemaChangeTx := {| tx_table_id := lit "t"; next_revision := 2; pending_schema := abc |}.

(** The transaction after an operation that succeeds. *)
Definition after (op : AlterTableChangeOp) (tx : SchemaChangeTx) : SchemaChangeTx :=
  default tx (ok (apply_operation op tx)).


Definition dropped : SchemaChangeTx := after (AlterDropField (lit "b")) abc_tx.
Definition readded : SchemaChangeTx := after (AlterAddField (text_field 0 "d")) dropped.

Lemma drop_then_add_misreads_witness :
  ∃ m, decode_row_payload_with_schema_cache (build_entry (pending_schema readded)) abc_payload = Ok m ∧
       m !! lit "c" = Some [x62].
Proof.
  destruct (drop_then_add_misreads abc_tx dropped readded (lit "b") (text_field 0 "d") abc_row abc_payload
              (text_field 2 "b") (text_field 3 "c") abc_wf abc_dense ltac:(vm_compute; reflexivity) abc_written)
    as (m & Hm & Hv); [vm_compute; reflexivity|vm_compute; reflexivity|vm_compute; reflexivity| |reflexivity|].
  - right. right. left.
  - exists m. split; [exact Hm|]. etransitivity; [exact Hv|]. vm_compute. reflexivity.
Defined.

(** ** Migrating it *)

Definition table_t : TableEntity :=
  {| te_table_id := lit "t"; te_entity_id := lit "e1"; te_temporary := false; te_schema := abc |}.

Definition catalog_db : Catalog :=
  {| catalog_database_id := lit "db";
     catalog_table name := if str_eqb name (lit "t") then Some table_t else None;
     entity_identity_id name := if str_eqb name (lit "t") then Some (lit "e1") else None;
     at_rest_encryption_key_ref := None; at_rest_encryption_key_version := 0 |}.

Definition drop_b_rules : SchemaMutationRuleSet :=
  mutation_rule_set (collect_rules (AlterDropField (lit "b")) abc no_rules) (pending_schema dropped).

(** An insert, and the delete of its row. *)
Definition inserted : TransactionRecord := new_record 1 None None 7 (lit "root") Insert (Some abc_payload).
Definition deleted : TransactionRecord := new_record 2 None (Some 1) 8 (lit "root") Delete None.

Definition log_path : ustr := wal_file_path (lit "d") (lit "db:e1").
Definition log_bytes : bytes :=
  default [] (ok (rewritten_wal_bytes (λ _, None) [inserted; deleted] default_transaction_payload_context)).

(** The file of the migration, and the one of the WAL. *)
Definition disk_world : World :=
  mkWorld {[log_path := log_bytes; wal_file_path (lit "d") (replicate 16 48) := [x01]]} (λ _, IoDone) (λ _ _, None).

Lemma migration_misses_wal_file_witness :
  disk (migrate_rows catalog_db (lit "t") drop_b_rules (lit "d") (Some ∅) disk_world).2.2
    !! wal_file_path (lit "d") (replicate 16 48) = Some [x01].
Proof.
  etransitivity; [|exact (eq_refl : disk disk_world !! wal_file_path (lit "d") (replicate 16 48) = Some [x01])].
  apply (migration_misses_wal_file catalog_db (lit "t") drop_b_rules (lit "d") (Some ∅) disk_world table_t
           (replicate 16 48)); vm_compute; reflexivity.
Defined.

Lemma migration_revives_deleted_rows_witness :
  ∃ out cache',
    rewrite_records (Some drop_b_rules) abc [inserted; deleted] (Some ∅) = (Ok out, cache') ∧
    (∀ row, (1, row) ∉ collect_live_rows_from_records (λ p : bytes, Some p) 1 [inserted; deleted]) ∧
    ∃ r', r' ∈ out ∧ id r' = 1.
Proof.
  destruct (rewrite_records (Some drop_b_rules) abc [inserted; deleted] (Some ∅)) as [[out|e] cache'] eqn:E;
    [|vm_compute in E; discriminate].
  exists out, cache'. split; [reflexivity|].
  destruct (migration_revives_deleted_rows (λ p : bytes, Some p) 1 _ _ _ _ _ _ inserted deleted E) as (Hn & r' & Hr & Hi & _).
  - repeat constructor.
  - repeat constructor; intros x Hx; vm_compute in Hx; simplify_eq; vm_compute; reflexivity.
  - left.
  - left. reflexivity.
  - reflexivity.
  - right. left.
  - reflexivity.
  - reflexivity.
  - reflexivity.
  - split; [exact Hn|]. exists r'. split; [exact Hr|exact Hi].
Defined.

Lemma migration_replaces_or_keeps_file_witness :
  ∃ s image context rng bs,
    migrate_rows catalog_db (lit "t") drop_b_rules (lit "d") (Some ∅) disk_world = (Ok tt, s) ∧
    frame_records_as_wal_file_with_context rng (image_records image) context = Ok bs ∧
    disk s.2 !! log_path = Some bs.
Proof.
  destruct (migrate_rows catalog_db (lit "t") drop_b_rules (lit "d") (Some ∅) disk_world) as [r s] eqn:E.
  assert (r = Ok tt) as ->.
  { change r with ((r, s).1). rewrite <- E. vm_compute. reflexivity. }
  destruct (migration_replaces_or_keeps_file catalog_db (lit "t") drop_b_rules (lit "d") (Some ∅) disk_world
              (lit "db:e1") log_bytes (Ok tt) s) as (image & context & rng & bs & _ & _ & Hf & Hd);
    [vm_compute; reflexivity|vm_compute; reflexivity|exact E|].
  exists s, image, context, rng, bs. split; [reflexivity|]. split; [exact Hf|exact Hd].
Defined.
