(* ===== verification/ValueWitnesses.v ===== *)
(** * Witnesses for stored field values

    The theorems of [FieldValue.v] with hypotheses, applied to concrete values.  UUIDs are read and shown
    in their hyphenated form, and no text is a date. *)

From Stdlib Require Import ZArith Lia Strings.Byte.
From stdpp Require Import base sets list strings.
From S2P Require Import Prelude Identifiers Text Float64 Schema RowCodec FieldValue.

Local Open Scope Z_scope.

(** ** UUID text *)

Definition hex_char (d : Z) : Z := if d <? 10 then 48 + d else 87 + d.

Definition hex_value (c : Z) : option Z :=
  if (48 <=? c) && (c <=? 57) then Some (c - 48)
  else if (97 <=? c) && (c <=? 102) then Some (c - 87)
  else if (65 <=? c) && (c <=? 70) then Some (c - 55)
  else None.

Definition hex_text (b : bytes) : ustr :=
  b ≫= λ c, [hex_char (u8_Z c / 16); hex_char (u8_Z c mod 16)].

Fixpoint hex_bytes (s : ustr) : option bytes :=
  match s with
  | [] => Some []
  | [_] => None
  | h :: l :: rest => hi ← hex_value h; lo ← hex_value l; bs ← hex_bytes rest; Some (Z_u8 (16 * hi + lo) :: bs)
  end.

Definition hyphenate (s : ustr) : ustr :=
  take 8 s ++ [45] ++ take 4 (drop 8 s) ++ [45] ++ take 4 (drop 12 s) ++ [45] ++ take 4 (drop 16 s) ++ [45] ++ drop 20 s.

Definition hyphenated_uuid : UuidText := {|
  uuid_to_string b := hyphenate (hex_text b);
  uuid_parse_str s :=
    let digits := filter (λ c, c ≠ 45) s in
    if Nat.eqb (length s) 36 && Nat.eqb (length digits) 32 && bool_decide (hyphenate digits = s)
    then hex_bytes digits else None
|}.

Lemma hex_byte c :
  0 ≤ hex_char (u8_Z c / 16) < 128 ∧ 0 ≤ hex_char (u8_Z c mod 16) < 128 ∧
  hex_char (u8_Z c / 16) ≠ 45 ∧ hex_char (u8_Z c mod 16) ≠ 45 ∧
  hex_value (hex_char (u8_Z c / 16)) = Some (u8_Z c / 16) ∧
  hex_value (hex_char (u8_Z c mod 16)) = Some (u8_Z c mod 16) ∧
  Z_u8 (16 * (u8_Z c / 16) + u8_Z c mod 16) = c.
Proof. destruct c; repeat split; vm_compute; (reflexivity || discriminate). Qed.

Lemma hex_text_bytes b : hex_bytes (hex_text b) = Some b.
Proof.
  induction b as [|c b IH]; [done|]. destruct (hex_byte c) as (_ & _ & _ & _ & Hh & Hl & Hc).
  change (hex_text (c :: b)) with (hex_char (u8_Z c / 16) :: hex_char (u8_Z c mod 16) :: hex_text b).
  cbn [hex_bytes]. rewrite Hh, Hl, IH. cbn [mbind option_bind]. by rewrite Hc.
Qed.

Lemma hex_text_chars b : Forall (λ c, 0 ≤ c < 128 ∧ c ≠ 45) (hex_text b).
Proof.
  induction b as [|c b IH]; [done|]. destruct (hex_byte c) as (H1 & H2 & H3 & H4 & _).
  change (hex_text (c :: b)) with (hex_char (u8_Z c / 16) :: hex_char (u8_Z c mod 16) :: hex_text b).
  repeat apply Forall_cons; auto.
Qed.

Lemma length_hex_text b : length (hex_text b) = (2 * length b)%nat.
Proof. induction b as [|c b IH]; [done|]. change (hex_text (c :: b)) with (hex_char (u8_Z c / 16) :: hex_char (u8_Z c mod 16) :: hex_text b). simpl. lia. Qed.

Lemma length_hex_bytes s b : hex_bytes s = Some b → length s = (2 * length b)%nat.
Proof.
  revert s. induction b as [|c b IH]; intros s Hs; destruct s as [|h [|l rest]]; cbn [hex_bytes mbind option_bind] in Hs; try done.
  - by destruct (hex_value h), (hex_value l), (hex_bytes rest).
  - destruct (hex_value h), (hex_value l), (hex_bytes rest) as [bs|] eqn:E; try done. cbn [mbind option_bind] in Hs.
    simplify_eq. apply IH in E. simpl. lia.
Qed.

Lemma filter_no_hyphen (s : ustr) : Forall (λ c, c ≠ 45) s → filter (λ c, c ≠ 45) s = s.
Proof. induction 1 as [|c s Hc Hs IH]; [done|]. rewrite filter_cons_True by done. by rewrite IH. Qed.

Lemma filter_hyphenate s : Forall (λ c, c ≠ 45) s → filter (λ c, c ≠ 45) (hyphenate s) = s.
Proof.
  intros Hs. unfold hyphenate.
  assert (∀ n m, filter (λ c : Z, c ≠ 45) (take n (drop m s)) = take n (drop m s)) as Ht
    by (intros; apply filter_no_hyphen; by apply Forall_take, Forall_drop).
  assert (∀ m, filter (λ c : Z, c ≠ 45) (drop m s) = drop m s) as Hd by (intros; apply filter_no_hyphen; by apply Forall_drop).
  pose proof (Ht 8%nat 0%nat) as H0. rewrite drop_0 in H0.
  rewrite !filter_app, H0, !Ht, Hd. change (filter (λ c : Z, c ≠ 45) [45]) with (@nil Z). simpl.
  assert (∀ n m, take n (drop m s) ++ drop (m + n) s = drop m s) as Hj by (intros; by rewrite <-drop_drop, take_drop).
  pose proof (Hj 4 16)%nat as H1. pose proof (Hj 4 12)%nat as H2. pose proof (Hj 4 8)%nat as H3. simpl in H1, H2, H3.
  rewrite H1, H2, H3. apply take_drop.
Qed.

Lemma hyphenated_uuid_laws : @UuidTextLaws hyphenated_uuid.
Proof.
  split.
  - intros s b Hb. simpl in Hb.
    destruct (Nat.eqb_spec (length s) 36) as [Hs|]; [|done].
    destruct (Nat.eqb_spec (length (filter (λ c, c ≠ 45) s)) 32) as [Hd|]; [|done]. simpl in Hb.
    case_match; [|done]. apply length_hex_bytes in Hb. rewrite Hd in Hb. split; [rewrite Hs; set_solver|lia].
  - intros b Hb. cbn [uuid_parse_str uuid_to_string hyphenated_uuid].
    rewrite filter_hyphenate by (eapply Forall_impl; [apply hex_text_chars|by intros c [_ ?]]).
    assert (length (hyphenate (hex_text b)) = 36%nat) as ->.
    { unfold hyphenate. rewrite !length_app, !length_take, !length_drop, length_hex_text, Hb. done. }
    rewrite length_hex_text, Hb, bool_decide_eq_true_2 by done. simpl. apply hex_text_bytes.
  - intros b. cbn [uuid_to_string hyphenated_uuid]. unfold hyphenate.
    assert (Forall (λ c, 0 ≤ c < 128) (hex_text b)) as Hc by (eapply Forall_impl; [apply hex_text_chars|by intros c [? _]]).
    repeat apply Forall_app_2; auto using Forall_take, Forall_drop; by repeat constructor.
Qed.

Definition no_dates : Chrono := {| naive_date_time _ _ := None; naive_date _ _ := None |}.

#[local] Existing Instances hyphenated_uuid hyphenated_uuid_laws no_dates.

(** ** Witnesses *)


Lemma stored_integers_compare_witness :
  compare_values [STORED_I8_TAG; xff] [STORED_U16_TAG; x00; x01] = Lt.
Proof.
  apply (stored_integers_compare _ _ (-1) 256).
  - left. exists 8. split; [split; vm_compute; discriminate|vm_compute; reflexivity].
  - right. exists 16. split; [split; vm_compute; discriminate|vm_compute; reflexivity].
Defined.

Lemma comparison_not_transitive_witness :
  compare_values (utf8_encode (lit "10")) (utf8_encode (lit "2a")) = Lt ∧
  compare_values (utf8_encode (lit "2a")) (utf8_encode (lit "9")) = Lt ∧
  compare_values (utf8_encode (lit "9")) (utf8_encode (lit "10")) = Lt.
Proof. destruct comparison_not_transitive as (H1 & H2 & H3 & _). exact (conj H1 (conj H2 H3)). Defined.

Lemma text_is_not_preserved_witness :
  convert_to_field_type (utf8_encode (lit "Downing Street")) FText Safe = Some (utf8_encode (lit "Downing Street")) ∧
  convert_to_field_type (utf8_encode (lit "007")) FText Safe = Some (utf8_encode (lit "7")) ∧
  convert_to_field_type (utf8_encode (lit "10 Downing Street")) FText Safe =
    Some (utf8_encode (lit "3020446f-776e-696e-6720-537472656574")).
Proof.
  destruct text_is_not_preserved as (Hkeep & Hzero & Huuid). split; [|split].
  - apply (Hkeep _ (lit "Downing Street")); vm_compute; reflexivity.
  - apply (Hzero 1%nat 7). split; vm_compute; discriminate.
  - apply (Huuid (utf8_encode (lit "0 Downing Street"))). vm_compute; reflexivity.
Defined.
