(* ===== verification/LikeWitnesses.v ===== *)
(** * Instances of the theorems on patterns

    [LIKE] on the texts [abcab] and [abab] with a concrete text form of UUIDs, and a pattern index of three keys. *)

From Stdlib Require Import ZArith Lia Strings.Byte.
From stdpp Require Import base gmap list strings.
From S2P Require Import Prelude Text FieldValue Like Predicates LikeFacts TpHashSet ValueWitnesses.

Local Open Scope Z_scope.

#[local] Existing Instance hyphenated_uuid.

Lemma scalars_bool s : forallb is_scalar s = true → scalars s.
Proof. intros H. unfold scalars. apply Forall_forall. intros c Hc. rewrite forallb_forall in H. by apply H, list_elem_of_In. Qed.


Lemma plain_letter c : 97 <= c <= 122 → plain [c].
Proof. intros Hc. constructor; [lia|constructor]. Qed.

(** [abab] and [a%b]. *)
Lemma like_misses_later_suffix_witness :
  Like (like_char_eq false) (compile_like_tokens (lit "a%b") None) (lit "abab")
  ∧ compare_like_value (utf8_encode (lit "abab")) (utf8_encode (lit "a%b")) false None = false.
Proof.
  apply (like_misses_later_suffix (utf8_encode (lit "abab")) (utf8_encode (lit "a%b")) (lit "a") (lit "b") (lit "a") false).
  - apply plain_letter. vm_compute. split; discriminate.
  - apply plain_letter. vm_compute. split; discriminate.
  - intros [=].
  - intros [=].
  - vm_compute; reflexivity.
  - vm_compute; reflexivity.
Defined.

Definition three_keys : list (@TpOp Z) :=
  [OpInsert (lit "apple") 1; OpInsert (lit "maple") 2; OpInsert (lit "plum") 3].

Lemma three_keys_below key value : OpInsert key value ∈ three_keys → Forall (λ c, c < char_max) key.
Proof.
  unfold three_keys. rewrite !elem_of_cons, elem_of_nil.
  intros [[= -> ->]|[[= -> ->]|[[= -> ->]|[]]]]; repeat constructor.
Qed.

