(* ===== verification/SelectWitnesses.v ===== *)
(** * Instances of the theorems on queries

    Two small tables, users and orders, joined and queried with concrete instances of the classes. *)

From Stdlib Require Import ZArith Lia Strings.Byte Sorting.Sorted.
From stdpp Require Import base gmap list strings sorting.
From S2P Require Import Prelude Settings Text Float64 Record Wal Instances LiveRows Schema RowCodec FieldValue Predicates Conditions.
From S2P Require Import Joins JoinFacts Pushdown SelectPlan SelectExec SelectFacts SortFacts Windows IndexKey WindowFacts RankFacts.
From S2P Require Import DatabaseIndex RuntimeIndex FullScan ValueWitnesses.

Local Open Scope Z_scope.

(** ** Instances *)

Definition no_regex : RegexEngine := {| regex_is_match _ _ _ := None |}.
Definition elements_order : KeySetOrder := {| key_set_iter := elements |}.
Definition insertion_sort : SortBy := {| sort_by A cmp l := Some (stable_sort cmp l) |}.
Definition listed_partitions : PartitionOrder := {| into_values m := (map_to_list m).*2 |}.

#[local] Existing Instances hyphenated_uuid no_dates no_regex elements_order insertion_sort listed_partitions.

Lemma insertion_sort_laws : SortByLaws.
Proof. split; [done|]. intros A cmp l l' [= <-]. apply stable_sort_permutation. Qed.

Lemma listed_partitions_laws : PartitionOrderLaws.
Proof. by split. Qed.

#[local] Existing Instances insertion_sort_laws listed_partitions_laws.

Definition no_expression : provider → ustr → result (option bytes) string := λ _ _, Ok None.

(** ** Tables *)

Definition text (s : string) : bytes := utf8_encode (lit s).

Definition users : SelectRelation := mkSelectRelation (lit "u") None.
Definition orders_of_users : SelectRelation := mkSelectRelation (lit "o") None.

Definition user (n name : string) : row_map := <[lit "id" := text n]> {[lit "name" := text name]}.
Definition order (n : string) : row_map := {[lit "uid" := text n]}.

Definition user_rows : list (Z * row_map) := [(1, user "1" "Ann"); (2, user "2" "Bob")].
Definition order_rows : list (Z * row_map) := [(1, order "1"); (2, order "1")].

Definition on_user (kind : SelectJoinKind) : SelectJoin unit :=
  mkSelectJoin kind orders_of_users (CPredicate (PFieldComparison (lit "u.id") CmpEq (lit "o.uid"))).

Definition joined_users : list JoinedRowTuple := from_relation_row users <$> (mat_row <$> user_rows).

Lemma user_keys_ok kind : join_keys_ok (on_user kind) (mat_row <$> order_rows) joined_users.
Proof.
  intros a b E l Hl. assert ((a, b) = (lit "u.id", lit "o.uid")) as [= -> ->].
  { vm_compute in E. by injection E as <- <-. }
  apply elem_of_cons in Hl as [->|Hl]; [|apply list_elem_of_singleton in Hl as ->].
  all: split; [eexists; vm_compute; reflexivity|]; split; [vm_compute; reflexivity|].
  all: intros r v w Hr Hv Hw.
  all: apply elem_of_cons in Hr as [->|Hr]; [|apply list_elem_of_singleton in Hr as ->].
  all: vm_compute in Hv; vm_compute in Hw; injection Hv as <-; injection Hw as <-; vm_compute; intuition discriminate.
Qed.


(** ** Pushed conditions *)

Definition no_subqueries : Subqueries unit := without_subqueries no_expression.

Definition tables (first second : list (Z * row_map)) : RelationAccess unit :=
  mkRelationAccess unit
    (λ table_id _, if str_eqb table_id (lit "u") then Some first else if str_eqb table_id (lit "o") then Some second else None)
    (λ _ _, false) (λ _ _, None) (λ _ _ _, []).

Definition named_ann : SelectCondition unit := CPredicate (PComparison (lit "u.name") CmpEq (text "Ann")).

Lemma named_ann_plain : plain_where [users; orders_of_users] named_ann.
Proof.
  intros clause i Hc Hi. apply list_elem_of_singleton in Hc as ->.
  exists (PComparison (lit "u.name") CmpEq (text "Ann")), (lit "u.name"), (lit "name"), users.
  vm_compute in Hi. injection Hi as <-. by repeat split.
Qed.

Lemma tables_read_all relation rows :
  (∀ c, table_rows (tables user_rows order_rows) (rel_table_id relation) c = Some rows) →
  reads_all no_subqueries (tables user_rows order_rows) relation (mat_row <$> rows).
Proof. intros Hr c. by exists rows. Qed.


Definition one_user : Z * row_map := (1, user "1" "Ann").
Definition one_order : Z * row_map := (1, order "1").

Lemma one_user_keys_ok : join_keys_ok (on_user JRight) [mat_row one_order] [from_relation_row users (mat_row one_user)].
Proof.
  eapply join_keys_ok_mono; [| |exact (user_keys_ok JRight)]; intros x Hx; apply list_elem_of_singleton in Hx as ->;
    apply list_elem_of_here.
Qed.

(** The orders without a user, where the order's user is there. *)
Lemma pushdown_right_join_adds_rows_witness :
  let condition := CPredicate (PIsNull (lit "u.name") false) in
  ∃ t t',
    build_joined_row_tuples (tables [one_user] [one_order]) no_expression (row_matches_relation no_subqueries)
      [users; orders_of_users] [None; None] [on_user JRight] = Ok [t] ∧ ¬ where_holds no_subqueries condition t
    ∧ build_joined_row_tuples (tables [one_user] [one_order]) no_expression (row_matches_relation no_subqueries)
        [users; orders_of_users] (derive_relation_pushdown_conditions (Some condition) [users; orders_of_users] [on_user JRight])
        [on_user JRight] = Ok [t'] ∧ where_holds no_subqueries condition t'.
Proof.
  apply (pushdown_right_join_adds_rows no_subqueries no_expression (tables [one_user] [one_order]) users (on_user JRight)
           one_user one_order (text "Ann") (lit "name") (lit "u.name")); try reflexivity.
  - intros [=].
  - exact one_user_keys_ok.
Defined.

(** ** Plans *)

Abbreviation plan := (SelectReadPlan unit WindowCall NamedWindowDefinition).

Definition select (relations : list SelectRelation) (joins : list (SelectJoin unit))
    (items : list (SelectProjectionItem unit WindowCall)) (distinct : bool) (order_by : list (SelectOrderByItem WindowCall))
    (limit offset : option Z) (condition : option (SelectCondition unit)) : plan := {|
  plan_table_id := lit "u"; plan_relations := relations; plan_joins := joins;
  plan_pushdown_conditions := (λ _, None) <$> relations; plan_named_windows := []; plan_projection_items := items;
  plan_distinct := distinct; plan_order_by := order_by; plan_group_by := []; plan_having_condition := None;
  plan_has_window_clause := false; plan_limit_by := None; plan_top_percent := None; plan_top_percent_with_ties := None;
  plan_top_with_ties_limit := None; plan_fetch_percent := None; plan_fetch_percent_with_ties := None;
  plan_fetch_with_ties_limit := None; plan_limit := limit; plan_offset := offset; plan_where_condition := condition;
  plan_qualify_condition := None; plan_is_explain := false
|}.

Definition text_field (n : Z) (name : string) : FieldDef := {|
  seqno := n; field_name := lit name; field_type := FText; nullable := true; indexed := NotIndexed;
  default_value := None; metadata := None
|}.

Definition user_schema : TableSchema := TableSchema_new [text_field 1 "id"; text_field 2 "name"].

Definition no_function : WindowCall → provider → result (option bytes) string := λ _ _, Ok None.
Definition no_call : WindowCall → bool := λ _, false.
Definition empty_result : SelectExecutionResult := mkSelectExecutionResult [] [].

Abbreviation execute_users :=
  (execute_relation_select_plan_with_row_bound no_expression apply_window_function no_function no_call no_call).

Definition name_item : SelectProjectionItem unit WindowCall := IColumn (lit "name") (lit "name").
Definition name_column : FieldDef := field_column 0 (lit "name") (text_field 2 "name") true false.

Definition second_name : plan := select [users] [] [name_item] false [] (Some 1) (Some 1) None.
Definition all_users : RelationSource := mkRelationSource (λ _, user_rows) 2 None.

(** SELECT name FROM u LIMIT 1 OFFSET 1. *)
Lemma limit_offset_select_witness :
  execute_users all_users user_schema empty_result second_name (row_matches_relation no_subqueries) None
  = Some (Ok (mkSelectExecutionResult [name_column] [[text "Bob"]])).
Proof.
  etransitivity; [apply (limit_offset_select no_expression apply_window_function no_function no_call no_call all_users user_schema empty_result
           second_name (row_matches_relation no_subqueries) [name_column] [None] (λ _, true)
           (λ row, [default [] (row.2 !! lit "name")]))|vm_compute; reflexivity].
  1,2,3: reflexivity.
  - constructor; [reflexivity|constructor].
  - vm_compute. split; discriminate.
  - vm_compute. split; discriminate.
  - vm_compute; reflexivity.
  - vm_compute; reflexivity.
  - vm_compute; reflexivity.
  - vm_compute. discriminate.
  - intros row _. reflexivity.
  - intros row Hr _. apply elem_of_cons in Hr as [->|Hr]; [|apply list_elem_of_singleton in Hr as ->]; vm_compute; reflexivity.
Defined.

Lemma results_well_formed_witness :
  let r := mkSelectExecutionResult [name_column] [[text "Bob"]] in
  execute_users all_users user_schema empty_result second_name (row_matches_relation no_subqueries) None = Some (Ok r) ∧
  well_formed_result r.
Proof.
  intros r.
  assert (execute_users all_users user_schema empty_result second_name (row_matches_relation no_subqueries) None = Some (Ok r)) as E
    by (vm_compute; reflexivity).
  split; [exact E|].
  apply (results_well_formed no_expression no_function no_call no_call (λ _, None) all_users user_schema
           (tables user_rows order_rows) empty_result second_name (row_matches_relation no_subqueries)
           (row_matches_joined no_subqueries) None r).
  - reflexivity.
  - left. exact E.
Defined.

(** ** Sorting *)

Definition by_name : list (SelectOrderByItem WindowCall) := [mkSelectOrderByItem (lit "name") true None].
Definition names_sorted : plan := select [users] [] [name_item] true by_name None None None.
Definition three_rows : list result_row := [[text "Ann"]; [text "Bob"]; [text "Ann"]].

Lemma names_order : orders (compare_rows [(0%nat, true)]) (distinct_rows [name_column] three_rows).
Proof.
  assert (∀ row, row ∈ distinct_rows [name_column] three_rows → row = [text "Ann"] ∨ row = [text "Bob"]) as Hrows.
  { change (distinct_rows [name_column] three_rows) with [[text "Ann"]; [text "Bob"]]. set_solver. }
  split.
  - intros x y [-> | ->]%Hrows [-> | ->]%Hrows; vm_compute; reflexivity.
  - intros x y z [-> | ->]%Hrows [-> | ->]%Hrows [-> | ->]%Hrows; vm_compute; intros; solve [reflexivity|discriminate].
Qed.


Definition user_order_by : list (SelectOrderByItem WindowCall) := [mkSelectOrderByItem (lit "u.name") false None].
Definition aliased_names : plan :=
  select [users; orders_of_users] [on_user JInner] [IColumn (lit "u.name") (lit "n")] false user_order_by None None None.
Definition user_tables (table_id : ustr) : option TableSchema := if str_eqb table_id (lit "u") then Some user_schema else None.

Definition ann_with_order (n : nat) : JoinedRowTuple :=
  append (from_relation_row users (mat_row one_user)) orders_of_users (mkMaterializedRelationRow (Z.of_nat n) (order "1")).

(** SELECT u.name AS n FROM u JOIN o ON u.id = o.uid ORDER BY u.name. *)
Lemma aliased_join_order_by_panics_witness :
  execute_joined_select_plan_with_row_bound no_expression apply_window_function no_function no_call no_call user_tables
    (tables user_rows order_rows) empty_result aliased_names (row_matches_relation no_subqueries)
    (row_matches_joined no_subqueries) None = None.
Proof.
  apply (aliased_join_order_by_panics no_expression apply_window_function no_function no_call no_call user_tables
           (tables user_rows order_rows) empty_result aliased_names (row_matches_relation no_subqueries)
           (row_matches_joined no_subqueries) None (lit "u.name") (lit "n") (lit "u") (lit "name") false
           (text_field 2 "name") [ann_with_order 1; ann_with_order 2]).
  1,2,3,4,5: reflexivity.
  - vm_compute; reflexivity.
  - discriminate.
  - vm_compute; reflexivity.
  - vm_compute; reflexivity.
  - vm_compute; reflexivity.
  - intros tuple _. reflexivity.
Defined.

(** ** Scans *)

#[local] Existing Instance empty_env.

Definition name_row (payload : bytes) : option row_map := Some {[lit "name" := payload]}.

Definition name_log : list TransactionRecord :=
  [new_record 1 None None 7 (lit "a") Insert (Some (text "Ann")); new_record 2 None None 7 (lit "a") Insert (Some (text "Bob"))].

Definition first_ann : plan :=
  select [users] [] [name_item] false [] (Some 1) None (Some (CPredicate (PComparison (lit "name") CmpEq (text "Ann")))).

Lemma name_log_ok : log_ok name_log.
Proof.
  split; [repeat constructor| |vm_compute; reflexivity].
  repeat constructor; intros x Hx; vm_compute in Hx; discriminate Hx.
Qed.

Lemma first_ann_plain : plain_select no_function no_call no_call user_schema first_ann [name_column] [None].
Proof. split; [reflexivity|reflexivity|constructor; [reflexivity|constructor]|vm_compute; reflexivity|vm_compute; reflexivity]. Qed.


(** ** Windows *)

Definition rank_call : WindowCall :=
  mkWindowCall (lit "RANK") (Some []) (Some (InlineWindow (mkWindowSpec None [] [mkOrderByExpr (Identifier (lit "name")) None false] None))).


Definition ranked_rows : list result_row := [[text "Ann"; []]; [text "Bob"; []]; [text "Ann"; []]].

