(* ===== verification/IndexWitnesses.v ===== *)
(** * Witnesses for runtime indexes

    The theorems about runtime indexes applied to small concrete indexes.  Entry keys are written and read
    in the layout of bincode's legacy configuration, the binary search returns the first match, and UUIDs
    have their hyphenated form. *)

From Stdlib Require Import ZArith Lia Strings.Byte Sorting.Sorted.
From stdpp Require Import base list gmap sorting relations strings.
From S2P Require Import Prelude Record Wal Instances Identifiers Text Float64 Schema RowCodec FieldValue.
From S2P Require Import Postings IndexKey DatabaseIndex RuntimeIndex RuntimeIndexFacts RuntimeIndexRange Indexors.
From S2P Require Import IndexStore IndexTracking ValueWitnesses.

Local Open Scope Z_scope.

(** ** Instances *)

Definition take_vec (bs : bytes) : option (bytes * bytes) :=
  if (length bs <? 8)%nat then None
  else
    let len := Z.to_nat (from_le_bytes (take 8 bs)) in
    let rest := drop 8 bs in
    if (length rest <? len)%nat then None else Some (take len rest, drop len rest).

Fixpoint take_vecs (n : nat) (bs : bytes) : option (list bytes) :=
  match n with
  | O => Some []
  | S n => '(v, rest) ← take_vec bs; vs ← take_vecs n rest; Some (v :: vs)
  end.

Definition vec_bincode : Bincode (list bytes) := {|
  serialize key := Some (to_le_bytes 8 (Z.of_nat (length key))
                         ++ concat ((λ v, to_le_bytes 8 (Z.of_nat (length v)) ++ v) <$> key));
  deserialize bs :=
    if (length bs <? 8)%nat then None
    else
      let n := from_le_bytes (take 8 bs) in
      if Z.of_nat (length bs) <? n then None else take_vecs (Z.to_nat n) (drop 8 bs);
  decode_budget key := 8 + Z.of_nat (length (concat key)) + 8 * Z.of_nat (length key)
|}.

#[local] Existing Instances vec_bincode hyphenated_uuid first_match first_match_laws.

#[local] Instance vec_layout : ByteVecLayout.
Proof. split. reflexivity. Defined.

(** ** A table with an integer primary key and an indexed name *)

Definition id_index : DatabaseIndex := from_table_fields (lit "users") IndexPrimaryKey [lit "id"].
Definition name_index : DatabaseIndex := from_table_fields (lit "users") IndexIndexed [lit "name"].

Definition user (id name : ustr) : row_map := <[lit "id" := utf8_encode id]> {[lit "name" := utf8_encode name]}.

Definition alice : row_map := user (lit "1") (lit "Alice").
Definition bob : row_map := user (lit "2") (lit "Bob").

Definition integer_state : RuntimeIndexState := set_numeric_kind (Some KSigned) (indexor_new name_index).

Lemma fresh_state_wf s : entries s = ∅ → non_unique_row_refs s = ∅ →
  (∀ ks, ordered_entry_keys s = Some ks → dom (entries s) ⊆ ks) → state_wf s.
Proof. intros He Hp Ho. split; intros *; rewrite ?He, ?Hp, ?lookup_empty; done. Qed.

Lemma integer_state_wf : state_wf integer_state.
Proof. by apply fresh_state_wf. Qed.

Definition some_ops : list (IndexOp * Z) := [
  (OpInsert [integer_text 10] (Some 4), 10); (OpInsert [integer_text (-3)] (Some 2), -3);
  (OpInsert [[STORED_I8_TAG; x0a]] (Some 7), 10); (OpInsert [integer_text 200] (Some 5), 200);
  (OpRemove [integer_text 10] (Some 4), 10)].

Lemma some_ops_valid : Forall (λ '(op, v), op_valid op ∧ in_kind KSigned v ∧ ∃ value, op_key op = [value] ∧ renders value v) some_ops.
Proof.
  repeat apply Forall_cons_2; [..|apply Forall_nil_2].
  all: split; [intros ? [= <-]; vm_compute; split; (reflexivity || discriminate)|].
  all: split; [vm_compute; split; (reflexivity || discriminate)|].
  all: eexists; split; [reflexivity|vm_compute; reflexivity].
Qed.

Lemma some_ops_ok : Forall op_valid (fst <$> some_ops).
Proof.
  apply Forall_fmap. eapply Forall_impl; [exact some_ops_valid|]. by intros [op v] [? _].
Qed.

Lemma some_ops_wf s : apply_ops (fst <$> some_ops) integer_state = Some s → state_wf s.
Proof.
  intros E. destruct (apply_ops_refines _ _ integer_state_wf some_ops_ok) as (s' & E' & Hwf & _).
  rewrite E in E'. by injection E' as ->.
Qed.

(** ** Witnesses *)

(** -3 sorts before 10, and -1.5 before 2. *)
Lemma sortable_keys_ordered_witness :
  (∃ a b, encode_sortable_numeric (integer_text (-3)) KSigned = Some a ∧
          encode_sortable_numeric (integer_text 10) KSigned = Some b ∧ bytes_compare a b = Lt) ∧
  (∃ a b, encode_sortable_numeric (integer_text 3) KUnsigned = Some a ∧
          encode_sortable_numeric (integer_text 10) KUnsigned = Some b ∧ bytes_compare a b = Lt) ∧
  (∃ a b, encode_sortable_numeric (utf8_encode (lit "-1.5")) KFloat = Some a ∧
          encode_sortable_numeric (utf8_encode (lit "2")) KFloat = Some b ∧ bytes_compare a b = Lt).
Proof.
  destruct sortable_keys_ordered as (Hi & Hu & Hf). split; [|split].
  - apply (Hi (-3) 10); split; vm_compute; (reflexivity || discriminate).
  - apply (Hu 3 10); split; vm_compute; (reflexivity || discriminate).
  - destruct (Hf (utf8_encode (lit "-1.5")) (utf8_encode (lit "2")) (lit "-1.5") (lit "2")
                 13832806255468478464 4611686018427387904 Lt) as (a & b & Ha & Hb & [Hc|[Hc _]]).
    1-2: vm_compute; reflexivity.
    1-2: vm_compute; intuition discriminate.
    1-3: vm_compute; reflexivity.
    + exists a, b. exact (conj Ha (conj Hb Hc)).
    + discriminate Hc.
Defined.

(** The references of 10 are 7 after the operations, and 200 keeps its reference. *)
Lemma index_refines_multimap_witness :
  ∃ s, apply_ops (fst <$> some_ops) integer_state = Some s ∧ state_wf s ∧ cardinality s = 3 ∧
       contains s [integer_text 10] = true ∧ (∀ r, r ∈ row_refs_for_key s [integer_text 10] None ↔ r = 7).
Proof.
  destruct (index_refines_multimap (fst <$> some_ops) integer_state) as (s & Hs & Hwf & _ & Hn & Hq).
  - exact integer_state_wf.
  - exact some_ops_ok.
  - destruct (Hq [integer_text 10] (number_key KSigned 10)) as (Hc & _ & Hr & _); [vm_compute; reflexivity|].
    exists s. split; [exact Hs|]. split; [exact Hwf|]. split; [rewrite Hn; vm_compute; reflexivity|].
    split; [rewrite Hc; vm_compute; reflexivity|]. intros r. rewrite Hr.
    assert (default ∅ (foldl (spec_op integer_state) (index_map integer_state) (fst <$> some_ops) !! number_key KSigned 10)
            = ({[7]} : gset Z)) as -> by (vm_compute; reflexivity).
    apply elem_of_singleton.
Defined.

(** 10 lies between -3, excluded, and 199. *)
Lemma integer_range_scan_witness :
  ∃ s refs, apply_ops (fst <$> some_ops) integer_state = Some s ∧
    row_refs_for_key_range s (Some {| bound_key := [integer_text (-3)]; inclusive := false |})
                             (Some {| bound_key := [integer_text 199]; inclusive := true |}) (Some 9) = Some (truncate_refs (Some 9) refs) ∧
    StronglySorted Z.lt refs ∧ 7 ∈ refs.
Proof.
  destruct (integer_range_scan KSigned integer_state some_ops
              (Some {| stored := integer_text (-3); number := -3; included := false |})
              (Some {| stored := integer_text 199; number := 199; included := true |}) (Some 9)) as (s & refs & Hs & Hr & Hsort & Hin).
  - exact integer_state_wf.
  - reflexivity.
  - reflexivity.
  - reflexivity.
  - exact some_ops_valid.
  - split; [split; vm_compute; (reflexivity || discriminate)|vm_compute; reflexivity].
  - split; [split; vm_compute; (reflexivity || discriminate)|vm_compute; reflexivity].
  - exists s, refs. split; [exact Hs|]. split; [exact Hr|]. split; [exact Hsort|].
    apply Hin. exists 10, {[7]}. split; [vm_compute; reflexivity|]. split; [set_solver|]. cbn. lia.
Defined.

(** Two probes, one page of two keys each. *)
Lemma paged_probe_exact_witness :
  ∃ s, apply_ops (fst <$> some_ops) integer_state = Some s ∧
       let result := row_refs_for_probe_keys_paged s [[integer_text (-3)]; [integer_text 10]] 2 1 None in
       StronglySorted Z.lt result ∧ (∀ r, r ∈ result → ∃ k, k ∈ dom (entries s) ∧ r ∈ refs_at s k) ∧ result = [2; 5; 7].
Proof.
  destruct (apply_ops (fst <$> some_ops) integer_state) as [s|] eqn:E; [|vm_compute in E; discriminate E].
  exists s. split; [reflexivity|].
  pose proof (some_ops_wf s E) as Hwf.
  destruct (paged_probe_exact s [[integer_text (-3)]; [integer_text 10]] 2 1 None Hwf) as (Hs & _ & Hin & _); [lia..|].
  split; [exact Hs|]. split; [exact Hin|]. clear Hwf Hs Hin. vm_compute in E. injection E as <-. vm_compute. reflexivity.
Defined.

(** A reference of 7 under a folded name. *)
Lemma storage_insert_remove_witness :
  ∃ t, storage_insert [utf8_encode (lit "Bob")] (Some 7) (indexor_for_field_kind name_index FText) = Some t ∧
       storage_contains t [utf8_encode (lit "Bob")] = true ∧
       7 ∈ storage_row_refs_for_key t [utf8_encode (lit "Bob")] None ∧
       7 ∉ storage_row_refs_for_key (storage_remove [utf8_encode (lit "Bob")] (Some 7) t) [utf8_encode (lit "Bob")] None.
Proof.
  destruct (storage_key (indexor_for_field_kind name_index FText) [utf8_encode (lit "Bob")]) as [k|] eqn:E;
    [|vm_compute in E; discriminate E].
  destruct (storage_insert_remove (indexor_for_field_kind name_index FText) [utf8_encode (lit "Bob")] 7 k)
    as (t & Hi & Hc & Hr & _ & Hn & _).
  - by apply fresh_state_wf.
  - vm_compute; split; (reflexivity || discriminate).
  - exact E.
  - exists t. exact (conj Hi (conj Hc (conj Hr Hn))).
Defined.

Definition uuid_upper : bytes := [x41; x00; x00; x00; x00; x00; x40; x00; x80; x00; x00; x00; x00; x00; x00; x01].
Definition uuid_lower : bytes := [x61; x00; x00; x00; x00; x00; x40; x00; x80; x00; x00; x00; x00; x00; x00; x01].

(** Two UUIDs that differ in one byte. *)
Lemma restart_folds_keys_witness :
  (∃ t, (storage_insert [uuid_upper] (Some 1) (from_state (indexor_new id_index)) ≫= storage_insert [uuid_lower] (Some 2)) = Some t ∧
        storage_row_refs_for_key t [uuid_upper] None = [1] ∧ storage_row_refs_for_key t [uuid_lower] None = [2]) ∧
  (∃ t, (storage_insert [uuid_upper] (Some 1) (indexor_for_field_kind id_index FUuid) ≫= storage_insert [uuid_lower] (Some 2)) = Some t ∧
        storage_row_refs_for_key t [uuid_upper] None = [2] ∧
        storage_contains (storage_remove [uuid_lower] (Some 2) t) [uuid_upper] = false).
Proof.
  apply (restart_folds_keys id_index FUuid uuid_upper uuid_lower 1 2).
  - reflexivity.
  - exact I.
  - discriminate.
  - reflexivity.
  - vm_compute; split; (reflexivity || discriminate).
  - vm_compute; split; (reflexivity || discriminate).
Defined.

(** ** The indexes of the table *)

Definition user_indexes : list DatabaseIndex := [id_index; name_index].

Definition empty_users : RuntimeIndexStore :=
  register_index_for_table (lit "users") name_index
    (register_index_for_table (lit "users") id_index RuntimeIndexStore_new).

Lemma user_indexes_distinct : NoDup (index_id <$> user_indexes).
Proof. apply (bool_decide_eq_true_1 _). vm_compute. reflexivity. Qed.

Lemma fresh_tracks ix : tracks ix [] (indexor_new ix).
Proof.
  split; [by apply fresh_state_wf|done|..].
  - intros k r. rewrite index_map_lookup. split; [set_solver|]. by intros (row & Hin%not_elem_of_nil & _).
  - intros k. rewrite index_map_lookup. by intros [].
  - by intros k e e' _ [Hin%not_elem_of_nil _].
Qed.

Lemma empty_users_tracked : store_tracks (lit "users") user_indexes [] empty_users.
Proof.
  intros ix Hix _. apply elem_of_cons in Hix as [-> | ->%list_elem_of_singleton].
  - exists (indexor_new id_index). split; [vm_compute; reflexivity|apply fresh_tracks].
  - exists (indexor_new name_index). split; [vm_compute; reflexivity|apply fresh_tracks].
Qed.

Definition conflict_free (scope : ustr) (ixs : list DatabaseIndex) (store : RuntimeIndexStore) (row : row_map) : bool :=
  forallb (λ ix, negb (is_unique_key ix)
                 || from_option (λ s, negb (contains s (index_value_tuple ix row))) true (index_for_table store scope (index_id ix))) ixs.

Lemma conflict_free_ok scope ixs store row : conflict_free scope ixs store row = true → no_conflict scope ixs store row.
Proof.
  intros Hf ix s Hix Hu Hs. unfold conflict_free in Hf. rewrite forallb_forall in Hf.
  specialize (Hf ix (proj1 (list_elem_of_In _ _) Hix)). rewrite Hu, Hs in Hf. by apply negb_true_iff in Hf.
Qed.

(** The store after a mutation that does not panic. *)
Definition mutated (kind : TransactionKind) (id : Z) (row : row_map) (refid : option Z) (store : RuntimeIndexStore) : RuntimeIndexStore :=
  default store (apply_table_row_mutation (lit "users") user_indexes kind id row refid store).

Lemma mutated_ok kind id row refid store :
  is_none (apply_table_row_mutation (lit "users") user_indexes kind id row refid store) = false →
  apply_table_row_mutation (lit "users") user_indexes kind id row refid store = Some (mutated kind id row refid store).
Proof. unfold mutated. by destruct (apply_table_row_mutation _ _ _ _ _ _ _). Qed.

Definition with_alice : RuntimeIndexStore := mutated Insert 1 alice None empty_users.
Definition with_both : RuntimeIndexStore := mutated Insert 2 bob None with_alice.
Definition with_bob : RuntimeIndexStore := mutated Delete 3 alice (Some 1) with_both.

Lemma users_run : rtc (table_step (lit "users") user_indexes) (empty_users, []) (with_bob, [(2, bob)]).
Proof.
  eapply rtc_l; [|eapply rtc_l; [|apply rtc_once]].
  - apply (step_insert _ _ empty_users [] with_alice 1 alice None); [apply not_elem_of_nil|done|apply conflict_free_ok|apply mutated_ok];
      vm_compute; reflexivity.
  - apply (step_insert _ _ with_alice [(1, alice)] with_both 2 bob None);
      [by intros ?%list_elem_of_singleton|done|apply conflict_free_ok|apply mutated_ok]; vm_compute; reflexivity.
  - apply (step_delete _ _ with_both [(1, alice); (2, bob)] with_bob 1 alice 3); [apply list_elem_of_here|apply mutated_ok];
      vm_compute; reflexivity.
Qed.

(** Alice and Bob are inserted and Alice is deleted; the indexes answer for Bob alone. *)
Lemma index_tracks_live_rows_witness :
  ∃ s, index_for_table with_bob (lit "users") (index_id name_index) = Some s ∧ answers name_index [(2, bob)] s.
Proof.
  destruct (index_tracks_live_rows (lit "users") user_indexes empty_users [] with_bob [(2, bob)]) as (Hans & _).
  - exact user_indexes_distinct.
  - split; [apply NoDup_nil_2|by intros e ?%not_elem_of_nil].
  - exact empty_users_tracked.
  - exact users_run.
  - apply (Hans name_index); [apply list_elem_of_further, list_elem_of_here|reflexivity].
Defined.

Definition live_users : list (Z * row_map) := [(1, alice); (2, bob)].

Lemma bootstrap_rebuild_tracks_witness :
  ∃ store s, rebuild_bootstrap_indexes_from_live_rows (lit "users") user_indexes live_users empty_users = Some store ∧
    index_for_table store (lit "users") (index_id id_index) = Some s ∧ answers id_index live_users s.
Proof.
  destruct (bootstrap_rebuild_tracks (lit "users") user_indexes live_users empty_users) as (store & Hs & Hall).
  - exact user_indexes_distinct.
  - repeat apply Forall_cons_2; [reflexivity..|apply Forall_nil_2].
  - split; [apply (bool_decide_eq_true_1 _); vm_compute; reflexivity|].
    intros e He. apply elem_of_cons in He as [-> | ->%list_elem_of_singleton]; vm_compute; split; (reflexivity || discriminate).
  - intros ix Hix Hu k e e' [He Hk] [He' Hk'].
    apply elem_of_cons in Hix as [-> | ->%list_elem_of_singleton]; [|vm_compute in Hu; discriminate Hu].
    apply elem_of_cons in He as [-> | ->%list_elem_of_singleton], He' as [-> | ->%list_elem_of_singleton]; try reflexivity.
    all: vm_compute in Hk, Hk'; rewrite <-Hk in Hk'; discriminate Hk'.
  - destruct (Hall id_index) as (s & Hs' & Ha); [apply list_elem_of_here|]. exists store, s. exact (conj Hs (conj Hs' Ha)).
Defined.

Lemma batch_record_is_sequential_witness :
  record_table_rows_batch_with_first_row_ref (lit "users") user_indexes 1 [alice; bob] empty_users
  = record_sequentially (lit "users") user_indexes 1 [alice; bob] empty_users.
Proof. apply batch_record_is_sequential. exact user_indexes_distinct. Defined.
