(* ===== verification/CatalogWitnesses.v ===== *)
(** * Witnesses for the catalog and for passwords

    The theorems of [Credentials.v] and [CatalogFacts.v] with hypotheses, applied to a database with one table. *)

From Stdlib Require Import ZArith Lia Strings.Byte.
From stdpp Require Import base list gmap strings.
From S2P Require Import Prelude Identifiers Text WalManager Instances Schema DatabaseIndex Entities Security Credentials.
From S2P Require Import Record WalFile WalDurability AlterTable Catalog CatalogFacts CatalogFile.

Local Open Scope Z_scope.

(** ** Instances *)

(** Maps are iterated as stdpp lists them. *)
Definition listed_order : HashOrder := {| iter_order V m := map_to_list m |}.

Lemma listed_order_laws : @HashOrderLaws listed_order.
Proof. by split. Qed.

(** A digest of zeros, and a cipher that leaves its text as it is. *)
Definition plain_openssl : OpenSsl := {|
  md5 _ := Some (replicate 16 x00);
  cbc_encrypt _ _ bs := Some bs;
  cbc_decrypt _ _ bs := Some bs
|}.

Lemma plain_openssl_laws : @OpenSslLaws plain_openssl.
Proof. split; intros; simpl; eauto. Qed.

#[local] Existing Instances listed_order listed_order_laws plain_openssl plain_openssl_laws plain_digest.

(** ** A database with one table *)

Definition demo_store : Store :=
  {| heap := ∅; fresh_ids n := [97 + Z.of_nat n]; clock n := 1000 + Z.of_nat n |}.

Definition text_field (n : Z) (name : ustr) : FieldDef :=
  {| seqno := n; field_name := name; field_type := FText; nullable := true; indexed := NotIndexed;
     default_value := None; metadata := None |}.

Definition demo_schema : TableSchema := TableSchema_new [text_field 1 (lit "name")].

Definition demo_ops : list CatalogOp := [OpCreateTable (lit "Users") demo_schema None].

Definition demo : CState := foldl (λ s op, run_op op s) (demo_store, DatabaseCatalog_new (lit "db")) demo_ops.

Lemma demo_wf : catalog_wf demo.
Proof. apply run_op_wf, new_catalog_wf. Qed.

(** ** A serializer of the values of a list *)

Fixpoint value_position {A} `{EqDecision A} (x : A) (vs : list A) : option nat :=
  match vs with
  | [] => None
  | v :: vs => if decide (x = v) then Some 0%nat else S <$> value_position x vs
  end.

Definition listed_bincode {A} `{EqDecision A} (norm : A → A) (vs : list A) : Bincode A := {|
  serialize x := (λ n, positive_bytes (Pos.of_succ_nat n)) <$> value_position (norm x) vs;
  deserialize bs := p ← bytes_positive bs; vs !! pred (Pos.to_nat p);
  decode_budget _ := 0
|}.

Lemma value_position_lookup {A} `{EqDecision A} (x : A) vs n : value_position x vs = Some n → vs !! n = Some x.
Proof.
  revert n. induction vs as [|v vs IH]; intros n; simpl; [done|]. destruct (decide (x = v)) as [->|_]; [by intros [= <-]|].
  intros (m & E & ->)%fmap_Some. by apply IH.
Qed.

Lemma listed_bincode_laws {A} `{EqDecision A} (norm : A → A) vs :
  (∀ x, norm (norm x) = norm x) → @BincodeLaws A (listed_bincode norm vs) norm.
Proof.
  intros Hidem. split.
  - intros x b rest (n & E & ->)%fmap_Some _. simpl. rewrite bytes_positive_bytes. simpl.
    rewrite SuccNat2Pos.id_succ. by apply value_position_lookup.
  - intros x. simpl. by rewrite Hidem.
Qed.

(** ** The catalog file *)

#[export] Instance TableSchema_eq_dec : EqDecision TableSchema.
Proof. solve_decision. Defined.
#[export] Instance DatabaseTable_eq_dec : EqDecision DatabaseTable.
Proof. solve_decision. Defined.
#[export] Instance DatabaseView_eq_dec : EqDecision DatabaseView.
Proof. solve_decision. Defined.
#[export] Instance DatabaseOlapView_eq_dec : EqDecision DatabaseOlapView.
Proof. solve_decision. Defined.
#[export] Instance DatabaseRelationship_eq_dec : EqDecision DatabaseRelationship.
Proof. solve_decision. Defined.
#[export] Instance TriggerInvocationBinding_eq_dec : EqDecision TriggerInvocationBinding.
Proof. solve_decision. Defined.
#[export] Instance DatabaseTrigger_eq_dec : EqDecision DatabaseTrigger.
Proof. solve_decision. Defined.
#[export] Instance DatabaseStoredProcedure_eq_dec : EqDecision DatabaseStoredProcedure.
Proof. solve_decision. Defined.
#[export] Instance DatabaseEntity_eq_dec : EqDecision DatabaseEntity.
Proof. solve_decision. Defined.
#[export] Instance SchemaChangePhase_eq_dec : EqDecision SchemaChangePhase.
Proof. solve_decision. Defined.
#[export] Instance ActiveSchemaChange_eq_dec : EqDecision ActiveSchemaChange.
Proof. solve_decision. Defined.
#[export] Instance AccountAclEntry_eq_dec : EqDecision AccountAclEntry.
Proof. solve_decision. Defined.
#[export] Instance UserCredential_eq_dec : EqDecision UserCredential.
Proof. solve_decision. Defined.
#[export] Instance CteSettings_eq_dec : EqDecision RecursiveCteExecutionSettings.
Proof. solve_decision. Defined.
#[export] Instance CatalogSnapshot_eq_dec : EqDecision DatabaseCatalogSnapshot.
Proof. solve_decision. Defined.

Lemma stored_entity_idempotent e : stored_entity (stored_entity e) = stored_entity e.
Proof. by destruct e. Qed.

Lemma stored_snapshot_idempotent snap : stored_snapshot (stored_snapshot snap) = stored_snapshot snap.
Proof.
  unfold stored_snapshot. simpl. unfold set_snap_entities. simpl. f_equal.
  apply map_eq. intros k. rewrite !lookup_fmap. destruct (snap_entities snap !! k); simpl; [|done].
  by rewrite stored_entity_idempotent.
Qed.

(** The snapshots of the catalog of one table. *)
Definition demo_snapshot_bincode : Bincode DatabaseCatalogSnapshot :=
  listed_bincode stored_snapshot [stored_snapshot (saved_snapshot demo)].

Lemma demo_snapshot_bincode_laws : @BincodeLaws _ demo_snapshot_bincode stored_snapshot.
Proof. apply listed_bincode_laws, stored_snapshot_idempotent. Qed.

#[local] Existing Instances demo_snapshot_bincode demo_snapshot_bincode_laws.

Lemma demo_snapshot_bytes : @serialize _ demo_snapshot_bincode (saved_snapshot demo) = Some [x02].
Proof. unfold serialize, demo_snapshot_bincode, listed_bincode, value_position. by rewrite decide_True. Qed.

(** ** Witnesses *)



Lemma schema_change_completes_witness :
  match begin_schema_change (lit "users") demo with
  | (Ok tx, s1) =>
      ∃ k t s2, entities demo !! k = Some (EntityTable t)
        ∧ abort (with_pending (TableSchema_new []) tx) s1 = (Ok tt, s2)
        ∧ released demo s2 (lit "users") k (set_table_status StatusReady t)
  | _ => False
  end.
Proof.
  assert (is_ok (begin_schema_change (lit "users") demo).1 = true) as Hok by (vm_compute; reflexivity).
  destruct (begin_schema_change (lit "users") demo) as [[tx|e] s1] eqn:E; [|discriminate].
  destruct (schema_change_completes demo (lit "users") tx s1 (TableSchema_new []) (λ _ w, (Ok tt, w)) tt demo_wf)
    as (k & t & Hk & _ & (s2 & Ha & Hr) & _); [vm_compute; split; discriminate|exact E|].
  exists k, t, s2. split; [exact Hk|]. split; [exact Ha|exact Hr].
Defined.

Lemma password_checks_witness :
  ∃ c, from_database_user_password (lit "root") (lit "main") (lit "secret") (lit "node") (Some 17) = Some c
       ∧ verify_password c (lit "Secret") (lit "node") = Some false.
Proof.
  destruct (password_checks (lit "root") (lit "main") (lit "secret") (lit "node") (Some 17) (lit "Secret"))
    as (c & E & Hv); [repeat constructor|repeat constructor|].
  exists c. split; [exact E|]. rewrite Hv. reflexivity.
Defined.
