(* ===== verification/DdlWitnesses.v ===== *)
(** * Witnesses for the definition statements

    The theorems of [DdlFacts.v], [DefinitionFacts.v], [DdlIndexFacts.v] and [DatabaseFacts.v] with hypotheses, applied
    to statements that a server without a data directory runs on an empty database. *)

From Stdlib Require Import ZArith Lia Strings.Byte.
From stdpp Require Import base list gmap strings.
From S2P Require Import Prelude Settings Record RowPayload WalFile Wal WalManager Identifiers Text LiveRows Replay WalOps.
From S2P Require Import Schema RowCodec FieldValue DatabaseIndex RuntimeIndex Indexors IndexStore AlterTable Migration.
From S2P Require Import Entities Catalog CatalogFacts CatalogReplay CatalogFile.
From S2P Require Import Statements DdlText Ddl DdlFacts DefinitionFacts DdlIndexFacts DatabaseFacts.
From S2P Require Import Instances SchemaWitnesses CatalogWitnesses.

Local Open Scope Z_scope.

(** ** Instances *)

Definition demo_plan : CreateTablePlan := {|
  plan_table_id := lit "Users";
  plan_schema := TableSchema_new [text_field 1 (lit "first"); text_field 2 (lit "last")];
  plan_temporary := false;
  plan_composite_indexes := [(IndexIndexed, [lit "first"; lit "last"])]
|}.

(** A parser that reads every text as the same statement. *)
Definition one_statement : SqlFrontEnd := {|
  create_table_plan_from_statement _ := Some demo_plan;
  parse_alter_table_change_plan_from_statement _ := None;
  parse_create_view_dependencies_from_sql _ := Some [lit "Users"];
  parse_create_function_return_type_from_statement _ := None;
  validate_function _ _ _ := true
|}.

Definition no_uuid : UuidText := {| uuid_parse_str _ := None; uuid_to_string _ := [] |}.

#[local] Existing Instances listed_order listed_order_laws plain_digest plain_crypto plain_zlib empty_env first_match
  record_bincode envelope_bincode legacy_bincode ordinal_row_bincode row_map_bincode value_list_bincode plain_values
  shape_hasher one_statement no_uuid.

#[local] Instance table_action_eq_dec : EqDecision TableLifecycleAction.
Proof. solve_decision. Defined.
#[local] Instance index_action_eq_dec : EqDecision IndexLifecycleAction.
Proof. solve_decision. Defined.
#[local] Instance sql_action_eq_dec : EqDecision SqlDefinitionAction.
Proof. solve_decision. Defined.
#[local] Instance sql_kind_eq_dec : EqDecision SqlObjectKind.
Proof. solve_decision. Defined.
#[local] Instance schema_payload_eq_dec : EqDecision SchemaChangePayload.
Proof. solve_decision. Defined.
#[local] Instance table_payload_eq_dec : EqDecision TableLifecyclePayload.
Proof. solve_decision. Defined.
#[local] Instance index_payload_eq_dec : EqDecision IndexLifecyclePayload.
Proof. solve_decision. Defined.
#[local] Instance metadata_payload_eq_dec : EqDecision EntityMetadataPayload.
Proof. solve_decision. Defined.
#[local] Instance definition_payload_eq_dec : EqDecision SqlDefinitionPayload.
Proof. solve_decision. Defined.

(** ** The statements *)

Definition demo_id : ustr := lit "users".
Definition demo_uid : ustr := lit "a".
Definition demo_time : Z := 1000.
Definition wide_schema : TableSchema := TableSchema_new (fields (plan_schema demo_plan) ++ [text_field 3 (lit "age")]).
Definition demo_alter : list AlterTableChangeOp := [AlterAddField (text_field 3 (lit "age"))].

(** The payloads that the statements write, with the first epochs. *)
Definition demo_epochs : list Z := [0; 1; 2; 3; 4; 5; 6].

Definition demo_schema_bincode : Bincode SchemaChangePayload :=
  listed_bincode stored_schema_change
    (((λ epoch, new_schema_payload demo_id demo_uid epoch (plan_schema demo_plan)) <$> demo_epochs)
     ++ ((λ epoch, alter_payload demo_id (created_table demo_uid demo_id StatusReady 0 wide_schema ∅ demo_time) epoch wide_schema)
           <$> demo_epochs)).

Definition demo_lifecycle_bincode : Bincode TableLifecyclePayload :=
  listed_bincode stored_table_lifecycle
    ((λ epoch, new_lifecycle_payload demo_id demo_uid epoch (plan_schema demo_plan)) <$> demo_epochs).

Definition demo_index_bincode : Bincode IndexLifecyclePayload :=
  listed_bincode (λ p, p) ((λ epoch, composite_payload demo_id IndexIndexed [lit "first"; lit "last"] epoch) <$> demo_epochs).

Definition demo_metadata_bincode : Bincode EntityMetadataPayload :=
  listed_bincode (λ p, p) [new_metadata_payload demo_id demo_time; new_metadata_payload (lit "cube") demo_time].

Definition demo_definition_bincode : Bincode SqlDefinitionPayload :=
  listed_bincode (λ p, p) ((λ epoch, definition_payload (lit "cube") SqlOlapView epoch (lit "create") [demo_id]) <$> demo_epochs).

(** Snapshots of catalogs and entities, which the statements write and do not read. *)
Definition demo_file_bincode : Bincode DatabaseCatalogSnapshot := {|
  serialize _ := Some []; deserialize _ := None; decode_budget _ := 0
|}.
Definition demo_entity_bincode : Bincode DatabaseEntity := {|
  serialize _ := Some []; deserialize _ := None; decode_budget _ := 0
|}.

Lemma demo_schema_bincode_laws : @BincodeLaws _ demo_schema_bincode stored_schema_change.
Proof. by apply listed_bincode_laws. Qed.
Lemma demo_lifecycle_bincode_laws : @BincodeLaws _ demo_lifecycle_bincode stored_table_lifecycle.
Proof. apply listed_bincode_laws. intros p. unfold stored_table_lifecycle. simpl. f_equal. by destruct (tl_schema p). Qed.
Lemma demo_index_bincode_laws : @BincodeLaws _ demo_index_bincode (λ p, p).
Proof. by apply listed_bincode_laws. Qed.
Lemma demo_metadata_bincode_laws : @BincodeLaws _ demo_metadata_bincode (λ p, p).
Proof. by apply listed_bincode_laws. Qed.
Lemma demo_definition_bincode_laws : @BincodeLaws _ demo_definition_bincode (λ p, p).
Proof. by apply listed_bincode_laws. Qed.

#[local] Existing Instances demo_schema_bincode demo_schema_bincode_laws demo_lifecycle_bincode demo_lifecycle_bincode_laws
  demo_index_bincode demo_index_bincode_laws demo_metadata_bincode demo_metadata_bincode_laws demo_definition_bincode
  demo_definition_bincode_laws demo_entity_bincode demo_file_bincode.

Definition demo_request : SqlRequest := {| sql := lit "create"; operation := SqlCreateTable; object_name := Some (lit "db") |}.

(** An empty database whose log has been read. *)
Definition demo_catalog_id : ustr := default [] (ok (from_database_name (lit "db"))).
Definition demo_key : ustr := default [] (ok (obfuscated_stream_key demo_catalog_id)).
Definition demo_start : DbState :=
  mkDb (demo_store, DatabaseCatalog_new demo_catalog_id)
    (set_storage {[demo_key := []]} (new_manager None (mkWorld ∅ (λ _, IoDone) (λ _ _, None)))) RuntimeIndexStore_new None.

Definition demo_created : DbState := (create_table_in false demo_request demo_start).2.

Lemma demo_start_wf : catalog_wf (db demo_start).
Proof. apply new_catalog_wf. Qed.

Lemma demo_start_loaded n : Z.of_nat n ≤ u64_max → loaded (db_wal demo_start) demo_key [] n.
Proof. intros Hn. split; [apply lookup_singleton_eq|]. split; [|exact Hn]. split; constructor. Qed.

Lemma demo_acknowledged : acknowledged demo_request demo_plan demo_start demo_created demo_key [].
Proof.
  assert ((create_table_in false demo_request demo_start).1 = Done (Applied 1)) as E by (vm_compute; reflexivity).
  constructor.
  - reflexivity.
  - reflexivity.
  - split; [reflexivity|discriminate].
  - reflexivity.
  - exact demo_start_wf.
  - split; discriminate.
  - reflexivity.
  - vm_compute. discriminate.
  - apply demo_start_loaded. vm_compute. discriminate.
  - discriminate.
  - discriminate.
  - discriminate.
  - intros. discriminate.
  - unfold demo_created. rewrite <- E. apply surjective_pairing.
Qed.

Lemma demo_starts_from : starts_from demo_plan demo_start [] (db demo_start) (db demo_start).
Proof. split; [apply demo_start_wf|]. split; [by exists 0|]. split; [reflexivity|]. split; [reflexivity|discriminate]. Qed.

(** ** Witnesses *)


Lemma composite_index_lost_witness :
  let i := composite_index demo_id IndexIndexed [lit "first"; lit "last"] in
  index_in_table demo_id (index_id i) (db demo_created) = Some i
  ∧ ∃ log j s1, storage (db_wal demo_created) !! demo_key = Some log ∧ replay_records log 0 (db demo_start) = (Ok j, s1)
    ∧ has_table demo_id s1 = true ∧ index_in_table demo_id (index_id i) s1 = None.
Proof.
  destruct (composite_index_lost _ _ _ _ _ _ demo_acknowledged IndexIndexed [lit "first"; lit "last"]) as (Hi & log & Hl & Hr);
    [apply list_elem_of_here|].
  destruct (Hr _ _ demo_starts_from) as (j & s1 & E & Ht & Hn). split; [exact Hi|]. exists log, j, s1.
  exact (conj Hl (conj E (conj Ht Hn))).
Defined.

Lemma first_alter_lost_witness :
  let s := (alter_table_in [] demo_id demo_alter demo_created).2 in
  ∃ sch log j s1, table_schema demo_id (db s) = Some sch ∧ storage (db_wal s) !! demo_key = Some log
    ∧ replay_records log 0 (db demo_start) = (Ok j, s1) ∧ table_schema demo_id s1 = Some (plan_schema demo_plan).
Proof.
  assert ((alter_table_in [] demo_id demo_alter demo_created).1 = Done (Applied 1)) as E by (vm_compute; reflexivity).
  intros s. destruct (first_alter_lost [] _ _ _ _ _ _ demo_acknowledged demo_alter s) as (sch & log & _ & Hs & Hl & Hr).
  { discriminate. }
  { unfold s. rewrite <- E. apply surjective_pairing. }
  destruct (Hr _ _ demo_starts_from) as (j & s1 & Ej & Hs1). exists sch, log, j, s1.
  exact (conj Hs (conj Hl (conj Ej Hs1))).
Defined.

Definition demo_cube : DbState :=
  (create_olap_view_in [] (lit "cube") [lit "year"] [demo_id] demo_request demo_start).2.

Lemma created_definition_replays_witness :
  let object uid columns :=
    set_entity_metadata_of (server_metadata demo_time) (new_object SqlOlapView uid (lit "cube") (lit "create") columns [demo_id]) in
  entities (db demo_cube) = <[demo_uid := object demo_uid [lit "year"]]> (entities (db demo_start))
  ∧ ∃ log s1, storage (db_wal demo_cube) !! demo_key = Some log ∧ replay_records log 0 (db demo_start) = (Ok 2, s1)
    ∧ entities s1 = <[demo_uid := object demo_uid []]> (entities (db demo_start)).
Proof.
  assert ((create_olap_view_in [] (lit "cube") [lit "year"] [demo_id] demo_request demo_start).1 = Done (Applied 1)) as E
    by (vm_compute; reflexivity).
  destruct (created_definition_replays [] demo_request (lit "cube") SqlOlapView [lit "year"] [demo_id] demo_start demo_cube
              demo_key []) as (He & new & Hl & Hr).
  { constructor.
    - reflexivity.
    - exact demo_start_wf.
    - split; discriminate.
    - reflexivity.
    - vm_compute. discriminate.
    - apply demo_start_loaded. discriminate.
    - discriminate.
    - discriminate.
    - eexists. split; [apply creates_olap_view|]. unfold demo_cube. rewrite <- E. apply surjective_pairing. }
  split; [exact He|]. destruct (Hr (db demo_start) (db demo_start) 0 demo_start_wf) as (s1 & E1 & H1);
    [reflexivity|reflexivity|reflexivity|vm_compute; discriminate|]. exists ([] ++ new), s1. exact (conj Hl (conj E1 H1)).
Defined.

Lemma mixed_case_view_half_made_witness :
  ∃ s', create_view_in [] (lit "MyView") demo_request demo_start
        = (Return (Rejected "create view WAL stream lookup failed"), s')
    ∧ entities (db s') = <[demo_uid := EntityView (DatabaseView_new demo_uid (lit "myview") (lit "create") (TableSchema_new []))]>
                           (entities (db demo_start))
    ∧ db_wal s' = db_wal demo_start.
Proof.
  apply (mixed_case_view_half_made [] demo_request (lit "MyView") [lit "Users"] demo_start);
    [reflexivity|exact demo_start_wf|discriminate|discriminate|reflexivity|reflexivity|reflexivity].
Defined.

(** The server after the table has been created, and after its database has been dropped and created again. *)
Definition demo_node : Node := {|
  node_store := (db demo_created).1; catalogs := {[demo_catalog_id := (db demo_created).2]};
  node_wal := db_wal demo_created; node_indexes := db_indexes demo_created; node_cache := None
|}.
Definition demo_dropped : Node := (execute_drop_database [] demo_request demo_node).2.
Definition demo_recreated : Node := (execute_create_database_impl [] demo_request demo_dropped).2.

Lemma create_database_replaces_witness :
  let n := (execute_create_database_impl [] demo_request demo_node).2 in
  ∃ c, catalogs n !! demo_catalog_id = Some c ∧ resolve_entity_key demo_id (node_store n, c) = None
    ∧ storage (node_wal n) = storage (node_wal demo_node).
Proof.
  assert ((execute_create_database_impl [] demo_request demo_node).1 = Some (Applied 1)) as E by (vm_compute; reflexivity).
  intros n. destruct (create_database_replaces [] demo_request (lit "db") demo_catalog_id (db demo_created).2 demo_node n)
    as (c & Hc & Hr & Hs); [reflexivity|reflexivity|apply lookup_singleton_eq| |].
  { unfold n. rewrite <- E. apply surjective_pairing. }
  exists c. exact (conj Hc (conj (Hr demo_id) Hs)).
Defined.

Lemma dropped_table_returns_witness :
  ∃ c log j s1, catalogs demo_recreated !! demo_catalog_id = Some c
    ∧ resolve_entity_key demo_id (node_store demo_recreated, c) = None
    ∧ storage (node_wal demo_recreated) !! demo_key = Some log
    ∧ replay_records log 0 (node_store demo_recreated, c) = (Ok j, s1)
    ∧ table_schema demo_id s1 = Some (plan_schema demo_plan).
Proof.
  assert ((execute_drop_database [] demo_request demo_node).1 = Some (Applied 1)) as E1 by (vm_compute; reflexivity).
  assert ((execute_create_database_impl [] demo_request demo_dropped).1 = Some (Applied 1)) as E2 by (vm_compute; reflexivity).
  destruct (dropped_table_returns [] demo_request demo_plan demo_start demo_created demo_key demo_node demo_request demo_dropped
              demo_request (lit "db") demo_recreated demo_acknowledged) as (c & log & Hc & Hr & Hl & j & s1 & Ej & Hs);
    [reflexivity|reflexivity|reflexivity| |reflexivity| |].
  { unfold demo_dropped. rewrite <- E1. apply surjective_pairing. }
  { unfold demo_recreated. rewrite <- E2. apply surjective_pairing. }
  exists c, log, j, s1. exact (conj Hc (conj Hr (conj Hl (conj Ej Hs)))).
Defined.

(** The table with one row, whose stream has been read. *)
Definition demo_row : row_map := {[lit "first" := [x41]; lit "last" := [x42]]}.
Definition demo_stream : ustr := default [] (catalog_entity_wal_stream_id demo_id (db demo_created)).
Definition demo_stream_key : ustr := default [] (ok (obfuscated_stream_key demo_stream)).
Definition demo_filled : DbState :=
  mkDb (db demo_created)
    (set_storage
       (<[demo_stream_key := [new_record 1 None None 7 (lit "u") Insert (encode_row_payload (plan_schema demo_plan) demo_row)]]>
          (storage (db_wal demo_created))) (db_wal demo_created))
    (db_indexes demo_created) None.

Definition index_request : SqlRequest :=
  {| sql := lit "CREATE INDEX by_first ON Users (first);"; operation := SqlCreateOther; object_name := None |}.

(** Payloads of indexes, which are written and not read. *)
Definition demo_named_index_bincode : Bincode IndexLifecyclePayload := {|
  serialize _ := Some []; deserialize _ := None; decode_budget _ := 0
|}.
#[local] Existing Instance demo_named_index_bincode.
Definition demo_indexed : DbState := (create_index_in 8 index_request demo_filled).2.

Lemma demo_created_wf : catalog_wf (db demo_created).
Proof.
  destruct (created_table_recovered _ _ _ _ _ _ demo_acknowledged) as (new & m & _ & [Hwf _ _] & _). exact Hwf.
Qed.

Lemma created_index_misses_old_rows_witness :
  ∃ i rows entry wal,
    index_in_table demo_id (index_id i) (db demo_indexed) = Some i
    ∧ load_live_rows_with_context (λ p, ok (decode_row_payload_with_schema_cache entry p)) 8
        (default demo_id (catalog_entity_wal_stream_id demo_id (db demo_indexed)))
        (row_payload_context demo_id (db demo_indexed)) wal = (Ok rows, db_wal demo_indexed).
Proof.
  assert ((create_index_in 8 index_request demo_filled).1 = Done (Applied 1)) as E by (vm_compute; reflexivity).
  destruct (created_index_misses_old_rows 8 index_request (Some (lit "by_first")) demo_id [lit "first"] false demo_filled
              demo_indexed) as (i & rows & entry & wal & Hi & Hr & _);
    [vm_compute; reflexivity|reflexivity|exact demo_created_wf| |].
  { unfold demo_indexed. rewrite <- E. apply surjective_pairing. }
  exists i, rows, entry, wal. exact (conj Hi Hr).
Defined.
